(* ===== verification/_CoqProject ===== *)
-Q . S2P
Prelude.v
GoStrings.v
Resp.v
IntParser.v
GoFloat.v
Config.v
EvictionPool.v
EvictionRace.v
Dict.v
SimpleSet.v
Murmur3.v
Cms.v
Bloom.v
Probabilistic.v
Item.v
Json.v
BTree.v
BTreeQuery.v
BTreeShape.v
BTreeSearch.v
BTreeSplit.v
BTreeMerge.v
SkipList.v
SkipShape.v
SkipSearch.v
SkipInsert.v
SkipRemove.v
SkipRank.v
SortedSet.v
BTreeLaws.v
SkipLaws.v
Commands.v
Expire.v
CommandFacts.v
ZSetFacts.v
Iomux.v
Worker.v
Server.v
EventLoop.v
IOHandlers.v
Replies.v
Served.v
SingleThreaded.v
Process.v
SystemStats.v
Gateway.v
GatewayFacts.v
ThreadPool.v
