(* ===== verification/Prelude.v ===== *)
(** * RediGo: a verification development

    RediGo is an in-memory, Redis-like server in Go.  This library models its
    own code (src/internal, the programs under src/cmd, src/utils, src/ThreadPool
    and src/TcpServer, and the vendored hash it depends on) as executable
    Rocq definitions, one per Go function, and proves what makes the parts
    correct; where the code does not do what it means to, the behaviour itself
    is stated and proved.

    ** The program and its parts

    A client talks RESP.  The I/O side (src/internal/server) reads a command
    into a 512-byte buffer, [ParseCmd] (src/internal/core/resp.go) decodes it,
    and it is executed in one of two ways:
    - the multi-threaded server (server.go, io_handler.go, core/worker.go) sends
      it to the worker that owns its key, by the FNV hash of the first argument;
      a worker has its own dictionary and knows PING, SET and GET;
    - the single-threaded server (server.go, RunIoMultiplexingServer) executes it
      on the package-wide stores of core (executor.go and the command files),
      which know all commands, and runs active expiry (expire.go) every 100 ms.
    The stores are a dictionary with expiry and eviction (hash_table), sets
    (simple_set), sorted sets over a B+ tree or a skip list (sorted_set) and
    Count-Min sketches (probabilistic, which also has a Bloom filter that no
    command reaches).  An HTTP gateway (src/cmd/gateway) forwards command lines to
    the server over a connection of its own.

    ** Files

    - [Prelude]: bytes, machine integers, outcomes (value, panic, out of fuel),
      the state monad [ST], list lemmas, automation.
    - [GoStrings], [GoFloat]: what the code uses of strconv, utf8, strings and
      float64 (IEEE 754 binary64 through the standard library's [spec_float]).
    - [Resp]: resp.go.  Slices with spare capacity ([Slice]); [DecodeOne] and its
      readers, [Encode], [ParseCmd].  [IntParser]: the stricter integer reader of
      cmd/test/main.go.
    - [Config]: config.go and constant.go.
    - [EvictionPool], [Dict]: eviction_lru.go, eivction_lfu.go, dict.go.
      [EvictionRace]: the pool's Push and Pop again, one memory access at a time on
      Go slices, for goroutines that use the pool at once.
    - [SimpleSet]: simple_set.go.   [Murmur3], [Cms], [Bloom]: the vendored
      murmur3 package, cms.go, bloom.go; [Probabilistic]: their interfaces as
      classes with laws and the histories of a client.
    - [Json]: package encoding/json as the gateway uses it (library code, so no
      property is about it alone): its encoder and its reader on bytes.
    - [Item], [BTree], [SkipList], [SortedSet]: item.go, btree_index.go (a heap of
      nodes and items, since the code shares item pointers between leaves and
      separators and follows parent and next pointers), skiplist_index.go
      (likewise), and sorted_set.go over the interface [OrderedIndex] of
      sorted_set_interfaces.go, a class with its laws.  [BTreeQuery] proves the
      tree's queries; [BTreeShape] describes a heap as a tree (layout, order,
      contexts), [BTreeSearch], [BTreeSplit] and [BTreeMerge] prove the descent,
      insertion and removal on it, and [BTreeLaws] discharges the laws.  Likewise
      [SkipShape] (a heap as a list of towers, level by level), [SkipSearch],
      [SkipInsert], [SkipRemove], [SkipRank] and [SkipLaws] for the skip list.
    - [Commands]: the stores of storage.go and every handler of the single-threaded
      interpreter, [ExecuteAndResponse], and the loop of expire.go; [Expire],
      [CommandFacts] and [ZSetFacts] prove their properties.
    - [Iomux]: the epoll and kqueue back ends of core/iomux over a class of kernels.
    - [Worker], [Server]: worker.go; routing, dispatch, the interleaving of
      dispatches, workers and shutdown as a step relation, readCommand and
      readCommandConn.
    - [EventLoop]: RunIoMultiplexingServer with its startup, and the signal, a step
      relation with one place per atomic access to serverStatus.
    - [IOHandlers]: io_handler.go and the two listeners around [Server]: connection
      tables, batches of events, replies.
    - [Replies]: the replies of the protocol as a specification of their own, with
      a reader and a type per command, and that every handler keeps to them.
      [Served] and [SingleThreaded] compose this with the interpreter and with the
      event loop.
    - [Process]: cmd/main.go, NewServer, Stop, WaitForSignal and the goroutines of
      the listeners around [IOHandlers], up to the end of the process.
    - [SystemStats], [Gateway]: utils/system.go and cmd/gateway/main.go;
      [GatewayFacts] composes the gateway with a worker.
    - [ThreadPool]: the demonstration servers src/ThreadPool and src/TcpServer.

    ** How effects are modelled

    State is passed explicitly; a run-time panic is the outcome [Panic].  What the
    program does not control is an argument: each clock reading in milliseconds
    ([world], [clock]), each order in which the run time ranges over a map
    ([iter_order] says which are possible), the draws of the random generators,
    the process environment, the answers of the kernel and of remote ends, the
    rounding of [math.Log], Unicode case tables, and the sort algorithm of package
    sort (class [Sorter]: any sorted permutation).
    Goroutines are step relations whose steps end at the accesses to shared state
    (channels, the status word, the connection tables, and the counter that the
    goroutines of the multi-listener variant share without a lock).  The single
    listener is the only one to touch the counter; for it an accept and the
    assignment of the connection are one step.  The workers share nothing but the
    LRU eviction pool, without a lock.  A command is one step, except that one that
    evicts through the pool while there are other workers sees an arbitrary
    interference: it deletes any keys, leaves any pool ([Dict.SetNew_shared]), or
    panics ([Server.work_panics]); [EvictionRace] shows both the panics and that a
    goroutine alone has none.
    What blocks has no step of its own: a handler waits for its reply, and the
    single-threaded loop waits in [Wait] until the kernel wakes it
    ([EventLoop.wakes]).  A write to a descriptor of package net may be short or
    fail ([IOHandlers.taken]); descriptors of syscall.Accept block, so a write to
    one that succeeds is whole.
    Loops that are not structural take fuel: [DecodeOne] one unit per byte
    ([Resp.DecodeOne_total] shows more changes nothing), the tree and skip list
    walks one per node of the store ([BTreeQuery.queries_refine] and the proofs
    about insertion, removal and rank show it is enough), coin flips the list of
    draws (an insertion needs one tail; the supply in [OrderedIndexLaws]),
    active expiry one pass per key with an expiry and one more
    ([Expire.ActiveDelete_terminates]), the JSON reader two units per byte
    ([Json.readValue_fuel] shows more changes nothing).  The shutdown's bound of 17 + 1027 steps
    per worker comes from its channel of 1024 tasks.

    ** What the theorems show

    - Protocol: decoding inverts encoding (but for nil, and for errors, which come
      back as strings) and consumes exactly the frame, frames are prefix-free, commands sent in one read arrive as sent, the decoder
      always stops; frames without a carriage return crash it.  The stricter
      integer reader accepts exactly its grammar.
    - Dictionary: an invariant every operation keeps; SET then GET then TTL up to
      the expiry and beyond, frame, random and LRU eviction, capacity, statistics;
      active expiry terminates, deletes only expired keys, and all of them up to
      the sample size.  A TTL is lost when eviction picks the key being set and
      when its milliseconds overflow.
    - Sets, sketches, Bloom filter: refinement of finite sets, of the list of
      increments (with the Count-Min bounds), of the list of added hashes (no false
      negatives).
    - Sorted sets: over an index that obeys its laws, Add, Remove and GetRank
      refine a finite map ordered by (score, member).  The B+ tree obeys them for
      degrees from 2 on and distinct scores, so every such history of a sorted set
      and of ZADD, ZSCORE and ZRANK answers like the map; a history with equal
      scores shows the tree losing an item.  The skip list obeys them for all
      scores but NaN, up to 2^32 items.
    - Interpreter: a session whose ZADD scores are distinct numbers and whose
      sketches have a column and fit in memory is served to the end, and its replies
      read as one protocol reply of the command's types per command; what a command
      can change, the replies of the set and sketch commands; error replies can be
      split by a client outside that form, and a zero-width sketch crashes the
      process.
    - Eviction pool: a goroutine alone that pushes and pops, access by access, does
      what the atomic operations do; two at once can panic.
    - Multi-threaded server, on at least two cores: as long as no more commands were
      executed than there may be keys, it is linearizable for its clients to one
      dictionary (beyond that each worker evicts by its own count); every reply goes
      to the connection whose command it answers, a waiting handler can always go
      on while its worker runs, every task is answered exactly once or still
      queued, the single listener deals TCP connections out evenly, and the bytes a
      client receives parse as well-typed replies when no write was cut short.
    - Process: from main, with either listener, it has the same linearizability and
      typed replies ([Process.program_linearizable]); after a signal it ends within
      a bounded number of shutdown steps, none of which can hang; when main returns
      everything is closed; in its first 2^63 steps it panics only on bytes that
      break the decoder, on a dispatch during the shutdown, in a race of several
      workers on the LRU pool at the key limit, or on a connection that is not TCP.
      A shutdown strands queued tasks, one core is not enough, and the
      multi-listener goroutines lose increments of their counter
      ([Process.listeners_race]).
    - Single-threaded server: it refines the sequential interpreter, and while the
      commands are acceptable it stays up and writes well-typed replies; only open
      clients are served; after a signal that finds the loop idle it takes at most
      five steps and serves nobody, but does not leave a blocked [Wait] by itself
      ([EventLoop.shutdown_waits_for_event]); a signal that finds it busy is lost.
      The epoll and kqueue back ends agree.
    - Gateway, from the bytes of a request's body to the bytes of the response: the
      response is a line of JSON without markup; SET and GET work end to end
      through JSON, HTTP, RESP and a worker; every reply of at most 512 bytes
      reaches the page as its value; longer bulk strings make the handler panic; the
      connection is always closed; /stats reports the four figures.
    - Demo servers: the pool takes connections in order, none is lost, all can
      finish; one failing client stops the server of src/TcpServer.

    ** Not modelled

    Logging, the loop of net/http around the gateway's handlers, the pprof endpoint
    of cmd/main.go, and the web playground: input and output around the modelled
    code.  The kernel's side of a socket is the answer of each call.  The types of
    eivction_lfu.go and of utils/system.go that no function reads or that have no
    fields are left out.  Go gives no meaning to a data race: of the races on the
    eviction pool and on the round-robin counter the model has the interleavings of
    their accesses, not torn values.  No theorem speaks of the backward pointers and
    the tail of the skip list, which the operations keep and none reads.  A B+ tree of degree 1
    splits for ever; its laws exclude it. *)

From Stdlib Require Import ZArith Lia Ascii.
From stdpp Require Import base gmap list strings numbers sorting.

Declare Scope go_scope.
Delimit Scope go_scope with go.
#[global] Open Scope Z_scope.
#[global] Open Scope go_scope.

(** ** Byte strings

    A Go [string] and the visible part of a [[]byte] are both a finite
    sequence of bytes. *)

Abbreviation bytes := (list ascii).

(** A Go string literal. *)
Definition bs (s : string) : bytes := String.list_ascii_of_string s.

(** The numeric value of a byte, and the byte of a number ([byte(z)]). *)
Definition code (c : ascii) : Z := Z.of_N (N_of_ascii c).
Definition chr (z : Z) : ascii := ascii_of_N (Z.to_N (z mod 256)).

Lemma code_range c : 0 <= code c < 256.
Proof.
  unfold code. pose proof (N_ascii_bounded c). lia.
Qed.

Lemma chr_code c : chr (code c) = c.
Proof.
  unfold chr. rewrite Z.mod_small by apply code_range.
  unfold code. rewrite N2Z.id. apply ascii_N_embedding.
Qed.

Lemma code_chr z : code (chr z) = z mod 256.
Proof.
  unfold code, chr. pose proof (Z.mod_pos_bound z 256 ltac:(lia)).
  rewrite N_ascii_embedding by lia. lia.
Qed.

#[global] Instance code_inj : Inj (=) (=) code.
Proof. intros c d H. by rewrite <- (chr_code c), H, chr_code. Qed.

(** ** Machine integers

    [uint64], [uint32] and [int64] (= [int] on the 64-bit targets of the
    server) are kept as [Z] with the wrap-around of Go written out. *)

Definition two64 : Z := 18446744073709551616.
Definition two63 : Z := 9223372036854775808.
Definition two32 : Z := 4294967296.
Definition MaxUint64 : Z := two64 - 1.

Definition u64 (z : Z) : Z := z mod two64.
Definition u32 (z : Z) : Z := z mod two32.
Definition s64 (z : Z) : Z := (z + two63) mod two64 - two63.

Definition is_u64 (z : Z) : Prop := 0 <= z < two64.
Definition is_s64 (z : Z) : Prop := - two63 <= z < two63.

Lemma u64_range z : is_u64 (u64 z).
Proof. unfold is_u64, u64, two64. apply Z.mod_pos_bound. lia. Qed.

Lemma u64_id z : is_u64 z → u64 z = z.
Proof. unfold is_u64, u64. intros. apply Z.mod_small. lia. Qed.

Lemma u64_add_l a b : u64 (u64 a + b) = u64 (a + b).
Proof. unfold u64. apply Zplus_mod_idemp_l. Qed.

Lemma u64_add_r a b : u64 (a + u64 b) = u64 (a + b).
Proof. unfold u64. apply Zplus_mod_idemp_r. Qed.

Lemma s64_range z : is_s64 (s64 z).
Proof.
  unfold is_s64, s64. pose proof (Z.mod_pos_bound (z + two63) two64).
  unfold two63, two64 in *. lia.
Qed.

Lemma s64_id z : is_s64 z → s64 z = z.
Proof.
  unfold is_s64, s64. intros. rewrite Z.mod_small; unfold two63, two64 in *; lia.
Qed.

(** Two integers with the same [s64] differ by a multiple of 2^64, so
    wrapping commutes with the ring operations. *)
Lemma s64_eq_mod a b : a mod two64 = b mod two64 → s64 a = s64 b.
Proof.
  intros H. unfold s64. f_equal.
  rewrite (Z.add_mod a), (Z.add_mod b), H by (unfold two64; lia). done.
Qed.

Lemma s64_mod a : s64 a mod two64 = a mod two64.
Proof.
  unfold s64. rewrite Zminus_mod_idemp_l. f_equal. lia.
Qed.

Lemma s64_add_l a b : s64 (s64 a + b) = s64 (a + b).
Proof.
  apply s64_eq_mod. rewrite Z.add_mod, s64_mod, <- Z.add_mod; [done| |];
  unfold two64; lia.
Qed.

Lemma s64_mul_l a b : s64 (s64 a * b) = s64 (a * b).
Proof.
  apply s64_eq_mod. rewrite Z.mul_mod, s64_mod, <- Z.mul_mod; [done| |];
  unfold two64; lia.
Qed.

(** ** Outcomes of a computation

    Go code that can crash the process returns an [outcome]: a value, the
    run-time panic that stopped it, or [NoFuel] when the bound on the number
    of steps of the model was too small (each fuelled function has a theorem
    that its callers give enough). *)

Inductive panic :=
  | IndexOutOfRange
  | SliceOutOfRange
  | MakeSliceLen
  | DivideByZero
  | NilDereference
  | SendOnClosed
  | InvalidArgument
  | InterfaceConversion.

Inductive outcome (A : Type) :=
  | Ret (a : A)
  | Panic (p : panic)
  | NoFuel.
Arguments Ret {A} _.
Arguments Panic {A} _.
Arguments NoFuel {A}.

#[global] Instance panic_eq_dec : EqDecision panic.
Proof. solve_decision. Defined.

#[global] Instance outcome_ret : MRet outcome := @Ret.
#[global] Instance outcome_bind : MBind outcome := λ A B f m,
  match m with Ret a => f a | Panic p => Panic p | NoFuel => NoFuel end.

Definition panics {A} (m : outcome A) : Prop := ∃ p, m = Panic p.

Lemma bind_Ret {A B} (m : outcome A) (f : A → outcome B) b :
  m ≫= f = Ret b ↔ ∃ a, m = Ret a ∧ f a = Ret b.
Proof.
  destruct m; cbn; split; [eauto|by intros (a' & [= ->] & H)| | | |];
    first [done | by intros (? & ? & _)].
Qed.

(** A computation that never runs out of fuel. *)
Definition fuelled {A} (m : outcome A) : Prop := m ≠ NoFuel.

Lemma fuelled_bind {A B} (m : outcome A) (f : A → outcome B) :
  fuelled m → (∀ a, m = Ret a → fuelled (f a)) → fuelled (m ≫= f).
Proof. unfold fuelled. destruct m; cbn; eauto. Qed.

(** ** Stateful computations: state passing over [outcome]. *)

Definition ST (S A : Type) : Type := S → outcome (A * S).

#[global] Instance ST_ret {S} : MRet (ST S) := λ A a s, Ret (a, s).
#[global] Instance ST_bind {S} : MBind (ST S) := λ A B f m s,
  match m s with
  | Ret (a, s') => f a s'
  | Panic p => Panic p
  | NoFuel => NoFuel
  end.

Definition st_get {S} : ST S S := λ s, Ret (s, s).
Definition st_put {S} (s : S) : ST S unit := λ _, Ret (tt, s).
Definition st_lift {S A} (m : outcome A) : ST S A := λ s, a ← m; Ret (a, s).

(** ** Lists *)

Lemma StronglySorted_weaken {A} (R R' : A → A → Prop) l :
  (∀ a b, R a b → R' a b) → StronglySorted R l → StronglySorted R' l.
Proof.
  intros HR. induction 1 as [|a l Hl IH Ha]; constructor; [done|].
  eapply Forall_impl; [exact Ha|]. eauto.
Qed.

Lemma StronglySorted_take {A} (R : A → A → Prop) n l :
  StronglySorted R l → StronglySorted R (take n l).
Proof.
  intros H. rewrite <- (take_drop n l) in H. by eapply StronglySorted_app_1_l.
Qed.

Lemma StronglySorted_filter {A} (R : A → A → Prop) (P : A → Prop) `{∀ x, Decision (P x)} l :
  StronglySorted R l → StronglySorted R (filter P l).
Proof.
  induction 1 as [|a l Hl IH Ha]; [constructor|]. rewrite filter_cons.
  case_decide; [|done]. constructor; [done|].
  rewrite Forall_forall in Ha |- *. intros x Hx. apply list_elem_of_filter in Hx. naive_solver.
Qed.

Lemma filter_none {A} (P : A → Prop) `{∀ x, Decision (P x)} l :
  Forall (λ x, ~ P x) l → filter P l = [].
Proof. induction 1; [done|]. by rewrite filter_cons_False. Qed.

(** Lists that are read two elements at a time. *)
Lemma pairs_ind {A} (P : list A → Prop) :
  P [] → (∀ x, P [x]) → (∀ x y l, P l → P (x :: y :: l)) → ∀ l, P l.
Proof.
  intros H0 H1 H2 l. enough (P l ∧ ∀ x, P (x :: l)) by tauto.
  induction l as [|y l [IH1 IH2]]; split; auto.
Qed.

Lemma sublist_take {A} n (l : list A) : take n l `sublist_of` l.
Proof.
  rewrite <- (take_drop n l) at 2. by apply sublist_inserts_r.
Qed.

(** ** Automation *)

Create HintDb go.
Create Rewrite HintDb go.

(** Case analysis on the discriminees of the goal, then rewriting with the
    equations this gives. *)
Ltac case_all :=
  repeat (case_match || case_decide || case_bool_decide); simplify_eq/=.

(** Invert a hypothesis that a computation returned a value. *)
Ltac ret_inv :=
  repeat (match goal with
          | H : mbind _ _ = Ret _ |- _ => apply bind_Ret in H as (? & ? & H)
          | H : (match ?x with _ => _ end) = Ret _ |- _ => destruct x eqn:?
          | H : (match ?x with _ => _ end) = (_, _) |- _ => destruct x eqn:?
          end; simplify_eq).

(** Arithmetic over the machine widths: unfold the bounds and call [lia]. *)
Ltac mlia := unfold MaxUint64, is_u64, is_s64, u64, s64, u32, two64, two63, two32 in *;
  first [lia | Z.to_euclidean_division_equations; lia].

#[export] Hint Resolve u64_range s64_range code_range : go.
#[export] Hint Rewrite u64_add_l u64_add_r s64_add_l s64_mul_l chr_code code_chr : go.
