(* ===== verification/GoStrings.v ===== *)
(** * The part of Go's standard library the server uses on byte strings

    [strconv] (decimal integers), [unicode/utf8] and [strings] as the code of
    RediGo calls them.  The only thing left open is the case table of package
    [unicode] beyond ASCII, the parameter [unicode_upper]. *)

From Stdlib Require Import ZArith Lia Ascii.
From stdpp Require Import base list strings numbers.
From S2P Require Import Prelude.

(** ** Decimal integers ([fmt]'s [%d], [strconv]) *)

Module Strconv.

Definition is_digit (c : ascii) : bool := (48 <=? code c) && (code c <=? 57).
Definition digit_val (c : ascii) : Z := code c - 48.
Definition digit (n : Z) : ascii := chr (48 + n).

(** Decimal digits of a non-negative integer, most significant first. *)
Fixpoint utoa_fuel (fuel : nat) (n : Z) : bytes :=
  match fuel with
  | O => []
  | S fuel => if n <? 10 then [digit n]
              else utoa_fuel fuel (n / 10) ++ [digit (n mod 10)]
  end.

Definition utoa (n : Z) : bytes := utoa_fuel (S (Z.to_nat (Z.log2 n))) n.

(** [fmt.Sprintf("%d", n)] *)
Definition itoa (n : Z) : bytes :=
  if n <? 0 then chr 45 :: utoa (- n) else utoa n.

(** Value of a digit string read left to right from an accumulator. *)
Definition dec_step (acc : Z) (c : ascii) : Z := acc * 10 + digit_val c.
Definition dec_value (s : bytes) : Z := fold_left dec_step s 0.

(** [strconv.ParseUint(s, 10, 64)]: the value, or [None] for a non-nil
    error (syntax or range). *)
Definition ParseUint (s : bytes) : option Z :=
  if bool_decide (s = []) then None
  else if negb (forallb is_digit s) then None
  else if dec_value s <? two64 then Some (dec_value s) else None.

(** [strconv.ParseInt(s, 10, 64)] (and [strconv.Atoi]). *)
Definition ParseInt (s : bytes) : option Z :=
  match s with
  | [] => None
  | c :: s' =>
      let neg := code c =? 45 in
      let body := if neg || (code c =? 43) then s' else s in
      match ParseUint body with
      | None => None
      | Some un =>
          if neg then (if un <=? two63 then Some (- un) else None)
          else (if un <? two63 then Some un else None)
      end
  end.

Lemma digit_val_digit n : 0 <= n < 10 → digit_val (digit n) = n.
Proof. intros. unfold digit_val, digit. rewrite code_chr, Z.mod_small; lia. Qed.

Lemma is_digit_digit n : 0 <= n < 10 → is_digit (digit n) = true.
Proof.
  intros. unfold is_digit, digit. rewrite code_chr, Z.mod_small by lia.
  apply andb_true_intro. split; apply Z.leb_le; lia.
Qed.

Lemma is_digit_val c : is_digit c = true → 0 <= digit_val c < 10.
Proof. unfold is_digit, digit_val. rewrite andb_true_iff, !Z.leb_le. lia. Qed.

Lemma log2_div10 n : 10 <= n → 0 <= Z.log2 (n / 10) < Z.log2 n.
Proof.
  intros Hn. split; [apply Z.log2_nonneg|].
  assert (n / 10 <= n / 2) by (apply Z.div_le_compat_l; lia).
  pose proof (Z.log2_le_mono (n / 10) (n / 2) ltac:(lia)).
  pose proof (Z.log2_shiftr n 1 ltac:(lia)) as H2.
  rewrite Z.shiftr_div_pow2 in H2 by lia. change (2 ^ 1) with 2 in H2.
  pose proof (Z.log2_pos n ltac:(lia)). lia.
Qed.

(** The three facts about [utoa] that every client needs, proved together:
    it is a non-empty string of digits whose value is [n]. *)
Lemma utoa_fuel_spec fuel n :
  0 <= n → (Z.to_nat (Z.log2 n) < fuel)%nat →
  dec_value (utoa_fuel fuel n) = n
  ∧ Forall (λ c, is_digit c = true) (utoa_fuel fuel n)
  ∧ utoa_fuel fuel n ≠ [].
Proof.
  revert n; induction fuel as [|fuel IH]; intros n Hn Hf; [lia|]. cbn.
  destruct (Z.ltb_spec n 10).
  { unfold dec_value; cbn. unfold dec_step. rewrite digit_val_digit by lia.
    split_and!; [lia| |done]. constructor; [|done]. apply is_digit_digit. lia. }
  pose proof (log2_div10 n ltac:(lia)). pose proof (Z.mod_pos_bound n 10 ltac:(lia)).
  destruct (IH (n / 10)) as (Hv & Hd & Hne);
    [apply Z.div_pos; lia|lia|].
  split_and!.
  - unfold dec_value in *. rewrite fold_left_app, Hv. cbn. unfold dec_step.
    rewrite digit_val_digit by done. pose proof (Z.div_mod n 10). lia.
  - apply Forall_app. split; [done|]. constructor; [|done]. by apply is_digit_digit.
  - intros [? ?]%app_eq_nil. done.
Qed.

Lemma utoa_spec n :
  0 <= n →
  dec_value (utoa n) = n ∧ Forall (λ c, is_digit c = true) (utoa n) ∧ utoa n ≠ [].
Proof. intros. apply utoa_fuel_spec; lia. Qed.

(** The first digit of a positive number is not 0. *)
Lemma utoa_fuel_head fuel n :
  0 < n → (Z.to_nat (Z.log2 n) < fuel)%nat →
  ∃ d r, utoa_fuel fuel n = digit d :: r ∧ 1 <= d <= 9.
Proof.
  revert n; induction fuel as [|fuel IH]; intros n Hn Hf; [lia|]. cbn.
  destruct (Z.ltb_spec n 10); [exists n, []; split; [done|lia]|].
  pose proof (log2_div10 n ltac:(lia)).
  destruct (IH (n / 10)) as (d & r & -> & Hd); [apply Z.div_str_pos; lia|lia|].
  by exists d, (r ++ [digit (n mod 10)]).
Qed.

Lemma utoa_head n : 0 < n → ∃ d r, utoa n = digit d :: r ∧ 1 <= d <= 9.
Proof. intros. apply utoa_fuel_head; lia. Qed.

Lemma utoa_value n : 0 <= n → dec_value (utoa n) = n.
Proof. intros. by apply utoa_spec. Qed.

Lemma utoa_digits n : 0 <= n → Forall (λ c, is_digit c = true) (utoa n).
Proof. intros. by apply utoa_spec. Qed.

Lemma utoa_nonempty n : 0 <= n → utoa n ≠ [].
Proof. intros. by apply utoa_spec. Qed.

Lemma digits_forallb s : Forall (λ c, is_digit c = true) s → forallb is_digit s = true.
Proof. induction 1; cbn; [done|]. by rewrite H, IHForall. Qed.

Lemma length_utoa_fuel fuel n : (length (utoa_fuel fuel n) <= fuel)%nat.
Proof.
  revert n; induction fuel as [|fuel IH]; intros n; cbn; [lia|].
  case_match; cbn; [lia|]. rewrite length_app. cbn. specialize (IH (n / 10)). lia.
Qed.

Lemma length_utoa n : Z.of_nat (length (utoa n)) <= Z.log2 n + 1.
Proof.
  unfold utoa. pose proof (length_utoa_fuel (S (Z.to_nat (Z.log2 n))) n).
  pose proof (Z.log2_nonneg n). lia.
Qed.

Lemma length_itoa_nonneg n :
  0 <= n → Z.of_nat (length (itoa n)) <= Z.log2 n + 1.
Proof.
  intros. unfold itoa. rewrite (proj2 (Z.ltb_ge n 0)) by done. apply length_utoa.
Qed.

(** Every [int64] prints in at most 65 bytes (a crude but sufficient bound). *)
Lemma length_itoa n : is_s64 n → (length (itoa n) <= 65)%nat.
Proof.
  intros Hn. pose proof (length_utoa n). pose proof (length_utoa (- n)).
  assert (∀ m, m <= two63 → Z.log2 m <= 63) as Hlog.
  { intros m Hm. by apply (Z.log2_le_mono m two63). }
  pose proof (Hlog n ltac:(mlia)). pose proof (Hlog (- n) ltac:(mlia)).
  unfold itoa. case_match; cbn [length]; lia.
Qed.

(** Parsing what was printed gives the number back, for every value of the
    type. *)
Lemma ParseUint_utoa n : is_u64 n → ParseUint (utoa n) = Some n.
Proof.
  intros [Hn Hm]. unfold ParseUint.
  rewrite bool_decide_eq_false_2 by (by apply utoa_nonempty).
  rewrite (digits_forallb _ (utoa_digits n Hn)), utoa_value by done. cbn.
  by rewrite (proj2 (Z.ltb_lt _ _) Hm).
Qed.

Lemma dec_value_nonneg s : Forall (λ c, is_digit c = true) s → 0 <= dec_value s.
Proof.
  unfold dec_value. enough (∀ a, 0 <= a → Forall (λ c, is_digit c = true) s →
    0 <= fold_left dec_step s a) by (intros; by apply H).
  induction s as [|c s IH]; intros a Ha Hs; cbn; [done|].
  apply Forall_cons_1 in Hs as [Hc Hs]. apply IH; [|done]. unfold dec_step.
  pose proof (is_digit_val c Hc). lia.
Qed.

Lemma ParseUint_range s n : ParseUint s = Some n → is_u64 n.
Proof.
  unfold ParseUint. case_bool_decide; [done|]. destruct (forallb is_digit s) eqn:E; [|done].
  cbn. destruct (Z.ltb_spec (dec_value s) two64); [|done]. intros [= <-].
  unfold is_u64. split; [|done]. apply dec_value_nonneg, Forall_forall. intros c Hc.
  rewrite forallb_forall in E. apply E. exact Hc.
Qed.

Lemma digit_not_sign c : is_digit c = true → code c ≠ 45 ∧ code c ≠ 43 ∧ code c ≠ 13.
Proof. unfold is_digit. rewrite andb_true_iff, !Z.leb_le. lia. Qed.

Lemma ParseInt_itoa n : is_s64 n → ParseInt (itoa n) = Some n.
Proof.
  intros Hn. unfold itoa. destruct (Z.ltb_spec n 0).
  - unfold ParseInt. change (code (chr 45) =? 45) with true. cbn [orb].
    rewrite ParseUint_utoa by mlia.
    rewrite (proj2 (Z.leb_le _ _)) by mlia. f_equal; lia.
  - pose proof (utoa_nonempty n ltac:(lia)). pose proof (utoa_digits n ltac:(lia)) as Hd.
    destruct (utoa n) as [|c s] eqn:E; [done|]. inversion Hd as [|? ? Hc]; subst.
    destruct (digit_not_sign c Hc) as (? & ? & _). unfold ParseInt.
    rewrite (proj2 (Z.eqb_neq (code c) 45)), (proj2 (Z.eqb_neq (code c) 43)) by done.
    rewrite orb_false_r, <- E, ParseUint_utoa by mlia.
    rewrite (proj2 (Z.ltb_lt _ _)) by mlia. done.
Qed.

End Strconv.

(** ** Package [unicode/utf8] *)

Module Utf8.

Definition RuneError : Z := 65533.

Definition in_range (lo hi : Z) (c : ascii) : bool := (lo <=? code c) && (code c <=? hi).
Definition cont (c : ascii) : Z := Z.land (code c) 63.

(** [utf8.DecodeRuneInString]: the rune and its width; ill-formed input
    gives [RuneError] and width 1. *)
Definition DecodeRune (s : bytes) : Z * nat :=
  match s with
  | [] => (RuneError, 0%nat)
  | c0 :: r =>
    let p := code c0 in
    if p <? 128 then (p, 1%nat)
    else if (194 <=? p) && (p <=? 223) then
      match r with
      | c1 :: _ =>
        if in_range 128 191 c1
        then (Z.land p 31 * 64 + cont c1, 2%nat) else (RuneError, 1%nat)
      | _ => (RuneError, 1%nat)
      end
    else if (224 <=? p) && (p <=? 239) then
      let lo := if p =? 224 then 160 else 128 in
      let hi := if p =? 237 then 159 else 191 in
      match r with
      | c1 :: c2 :: _ =>
        if in_range lo hi c1 && in_range 128 191 c2
        then (Z.land p 15 * 4096 + cont c1 * 64 + cont c2, 3%nat)
        else (RuneError, 1%nat)
      | _ => (RuneError, 1%nat)
      end
    else if (240 <=? p) && (p <=? 244) then
      let lo := if p =? 240 then 144 else 128 in
      let hi := if p =? 244 then 143 else 191 in
      match r with
      | c1 :: c2 :: c3 :: _ =>
        if in_range lo hi c1 && in_range 128 191 c2 && in_range 128 191 c3
        then (Z.land p 7 * 262144 + cont c1 * 4096 + cont c2 * 64 + cont c3, 4%nat)
        else (RuneError, 1%nat)
      | _ => (RuneError, 1%nat)
      end
    else (RuneError, 1%nat)
  end.

(** [utf8.AppendRune]; surrogates and out-of-range values become U+FFFD. *)
Definition EncodeRune (r : Z) : bytes :=
  let r := if (r <? 0) || (1114111 <? r) || ((55296 <=? r) && (r <=? 57343))
           then RuneError else r in
  if r <? 128 then [chr r]
  else if r <? 2048 then [chr (192 + r / 64); chr (128 + r mod 64)]
  else if r <? 65536 then
    [chr (224 + r / 4096); chr (128 + (r / 64) mod 64); chr (128 + r mod 64)]
  else [chr (240 + r / 262144); chr (128 + (r / 4096) mod 64);
        chr (128 + (r / 64) mod 64); chr (128 + r mod 64)].

(** A string as its runes, each with the bytes it was read from. *)
Fixpoint runes_fuel (fuel : nat) (s : bytes) : list (Z * bytes) :=
  match fuel, s with
  | S fuel, _ :: _ =>
      let '(r, w) := DecodeRune s in
      let w := Nat.max 1 w in
      (r, take w s) :: runes_fuel fuel (drop w s)
  | _, _ => []
  end.
Definition runes (s : bytes) : list (Z * bytes) := runes_fuel (length s) s.

Lemma DecodeRune_width c s : (1 <= (DecodeRune (c :: s)).2 <= length (c :: s))%nat.
Proof. cbn. repeat case_match; cbn; lia. Qed.

(** A rune is read the same whatever follows it, and ill-formed bytes stay
    ill-formed when the text behind them is cut off. *)
Lemma DecodeRune_prefix p q :
  (1 <= (DecodeRune (p ++ q)).2 <= length p)%nat → DecodeRune p = DecodeRune (p ++ q).
Proof.
  destruct p as [|c0 [|c1 [|c2 [|c3 p]]]]; cbn; [lia|..]; repeat case_match; cbn; (done || lia).
Qed.

Lemma runes_fuel_step fuel c s :
  runes_fuel (S fuel) (c :: s) =
    let w := (DecodeRune (c :: s)).2 in
    ((DecodeRune (c :: s)).1, take w (c :: s)) :: runes_fuel fuel (drop w (c :: s)).
Proof.
  pose proof (DecodeRune_width c s). cbn [runes_fuel].
  destruct (DecodeRune (c :: s)) as [r w]. cbn [fst snd] in *.
  by rewrite (Nat.max_r 1 w) by lia.
Qed.

Lemma runes_fuel_ext f f' s :
  (length s <= f)%nat → (length s <= f')%nat → runes_fuel f s = runes_fuel f' s.
Proof.
  revert f' s. induction f as [|f IH]; intros [|f'] [|c s] H1 H2; cbn in H1, H2; try done; try lia.
  pose proof (DecodeRune_width c s). rewrite !runes_fuel_step. cbn zeta. f_equal.
  apply IH; rewrite length_drop; cbn [length] in *; lia.
Qed.

Lemma runes_cons c s :
  runes (c :: s) =
    let w := (DecodeRune (c :: s)).2 in
    ((DecodeRune (c :: s)).1, take w (c :: s)) :: runes (drop w (c :: s)).
Proof.
  pose proof (DecodeRune_width c s). unfold runes at 1. cbn [length]. rewrite runes_fuel_step.
  cbn zeta. f_equal. apply runes_fuel_ext; rewrite length_drop; cbn [length] in *; lia.
Qed.

(** The text of a sequence of runes. *)
Definition text (rs : list (Z * bytes)) : bytes := concat (snd <$> rs).

Lemma text_app rs1 rs2 : text (rs1 ++ rs2) = text rs1 ++ text rs2.
Proof. unfold text. by rewrite fmap_app, concat_app. Qed.

Lemma runes_ind (P : bytes → Prop) :
  P [] → (∀ c s, P (drop (DecodeRune (c :: s)).2 (c :: s)) → P (c :: s)) → ∀ s, P s.
Proof.
  intros H0 Hs s. remember (length s) as n eqn:E. revert s E.
  induction (Nat.lt_wf_0 n) as [n _ IH]. intros [|c s] ->; [done|]. apply Hs.
  pose proof (DecodeRune_width c s). eapply IH; [|done]. rewrite length_drop. cbn [length] in *. lia.
Qed.

Lemma text_runes s : text (runes s) = s.
Proof.
  induction s as [|c s IH] using runes_ind; [done|]. rewrite runes_cons. cbn zeta.
  unfold text in *. cbn [fmap list_fmap concat snd]. rewrite IH. apply take_drop.
Qed.

(** Cutting a text between two runes does not change the runes of its parts. *)
Lemma runes_suffix s rs1 rs2 : runes s = rs1 ++ rs2 → runes (text rs2) = rs2.
Proof.
  revert s. induction rs1 as [|[r b] rs1 IH]; intros s H.
  { cbn in H. by rewrite <- H, text_runes. }
  destruct s as [|c s]; [done|]. rewrite runes_cons in H. cbn zeta in H.
  injection H as _ _ H. by apply IH in H.
Qed.

Lemma runes_prefix s rs1 rs2 : runes s = rs1 ++ rs2 → runes (text rs1) = rs1.
Proof.
  revert s. induction rs1 as [|[r b] rs1 IH]; intros s H; [done|].
  destruct s as [|c s]; [done|]. pose proof (text_runes (c :: s)) as Ht.
  rewrite H, text_app in Ht. pose proof H as H'. rewrite runes_cons in H'. cbn zeta in H'.
  pose proof (DecodeRune_width c s) as Hw. destruct (DecodeRune (c :: s)) as [r' w] eqn:Ed.
  cbn [fst snd] in *. injection H' as -> Hb H'.
  assert (text ((r, b) :: rs1) = b ++ text rs1) as Hp by done.
  assert (length b = w) as Hlb by (rewrite <- Hb, length_take; cbn [length] in *; lia).
  pose proof (DecodeRune_prefix (text ((r, b) :: rs1)) (text rs2)) as Hd.
  rewrite Ht, Hp, Ed in Hd. cbn [snd] in Hd. rewrite length_app in Hd.
  specialize (Hd ltac:(lia)). rewrite Hp. destruct (b ++ text rs1) as [|c' p'] eqn:E.
  { apply app_eq_nil in E as [-> _]. cbn in Hlb. lia. }
  rewrite runes_cons, Hd. cbn [fst snd]. cbn zeta. rewrite <- E, <- Hlb.
  rewrite take_app_length, drop_app_length. f_equal. by apply IH in H'.
Qed.

(** ** Well-formed text *)

(** A byte that is not part of a rune. *)
Definition ill_formed (b : bytes) : bool :=
  match b with [c] => 128 <=? code c | _ => false end.

(** [utf8.ValidString] *)
Definition ValidString (s : bytes) : bool := forallb (λ rb, negb (ill_formed rb.2)) (runes s).

(** [strings.ToValidUTF8] with U+FFFD for every ill-formed byte: [[]rune] and back. *)
Definition sanitize (s : bytes) : bytes := concat ((λ rb, EncodeRune rb.1) <$> runes s).

Lemma cont_val c : in_range 128 191 c = true → cont c = code c - 128 ∧ 0 <= cont c < 64.
Proof.
  unfold in_range, cont. rewrite andb_true_iff, !Z.leb_le. intros H.
  change 63 with (Z.ones 6). rewrite Z.land_ones by lia. change (2 ^ 6) with 64.
  assert (code c mod 64 = code c - 128) as ->; [|lia]. symmetry.
  apply (Z.mod_unique _ _ 2); lia.
Qed.

(** The four ways a rune is read. *)
Inductive rune_form : bytes → Z → nat → Prop :=
  | form_bad c s : 128 <= code c → rune_form (c :: s) RuneError 1
  | form_1 c s : code c < 128 → rune_form (c :: s) (code c) 1
  | form_2 c0 c1 s :
      194 <= code c0 <= 223 → in_range 128 191 c1 = true →
      rune_form (c0 :: c1 :: s) (Z.land (code c0) 31 * 64 + cont c1) 2
  | form_3 c0 c1 c2 s :
      224 <= code c0 <= 239 → in_range 128 191 c1 = true → in_range 128 191 c2 = true →
      (code c0 = 224 → 160 <= code c1) → (code c0 = 237 → code c1 <= 159) →
      rune_form (c0 :: c1 :: c2 :: s) (Z.land (code c0) 15 * 4096 + cont c1 * 64 + cont c2) 3
  | form_4 c0 c1 c2 c3 s :
      240 <= code c0 <= 244 → in_range 128 191 c1 = true → in_range 128 191 c2 = true →
      in_range 128 191 c3 = true →
      (code c0 = 240 → 144 <= code c1) → (code c0 = 244 → code c1 <= 143) →
      rune_form (c0 :: c1 :: c2 :: c3 :: s)
        (Z.land (code c0) 7 * 262144 + cont c1 * 4096 + cont c2 * 64 + cont c3) 4.

Lemma DecodeRune_form c s : rune_form (c :: s) (DecodeRune (c :: s)).1 (DecodeRune (c :: s)).2.
Proof.
  cbn. destruct (Z.ltb_spec (code c) 128) as [H|H]; [by constructor|].
  destruct ((194 <=? code c) && (code c <=? 223)) eqn:E2.
  { rewrite andb_true_iff, !Z.leb_le in E2. destruct s as [|c1 s]; [by constructor|].
    destruct (in_range 128 191 c1) eqn:R1; by constructor. }
  destruct ((224 <=? code c) && (code c <=? 239)) eqn:E3.
  { rewrite andb_true_iff, !Z.leb_le in E3. destruct s as [|c1 [|c2 s]]; try by constructor.
    case_match eqn:R; [|by constructor]. unfold in_range in R.
    rewrite !andb_true_iff, !Z.leb_le in R. cbn. constructor; unfold in_range;
      rewrite ?andb_true_iff, ?Z.leb_le; [lia|..];
      destruct (Z.eqb_spec (code c) 224), (Z.eqb_spec (code c) 237); lia. }
  destruct ((240 <=? code c) && (code c <=? 244)) eqn:E4; [|by constructor].
  rewrite andb_true_iff, !Z.leb_le in E4. destruct s as [|c1 [|c2 [|c3 s]]]; try by constructor.
  case_match eqn:R; [|by constructor]. unfold in_range in R.
  rewrite !andb_true_iff, !Z.leb_le in R. cbn. constructor; unfold in_range;
    rewrite ?andb_true_iff, ?Z.leb_le; [lia|..];
    destruct (Z.eqb_spec (code c) 240), (Z.eqb_spec (code c) 244); lia.
Qed.

Lemma lead_val c k n :
  0 <= k → n * 2 ^ k <= code c < (n + 1) * 2 ^ k → Z.land (code c) (Z.ones k) = code c - n * 2 ^ k.
Proof.
  intros Hk H. rewrite Z.land_ones by done. symmetry. apply (Z.mod_unique _ _ n); lia.
Qed.

(** A byte of a chain of offsets. *)
Lemma chr_offset c z : z = code c → chr z = c.
Proof. intros ->. apply chr_code. Qed.

Lemma EncodeRune_scalar r :
  0 <= r <= 1114111 → r < 55296 ∨ 57343 < r →
  EncodeRune r =
    if r <? 128 then [chr r]
    else if r <? 2048 then [chr (192 + r / 64); chr (128 + r mod 64)]
    else if r <? 65536 then
      [chr (224 + r / 4096); chr (128 + (r / 64) mod 64); chr (128 + r mod 64)]
    else [chr (240 + r / 262144); chr (128 + (r / 4096) mod 64);
          chr (128 + (r / 64) mod 64); chr (128 + r mod 64)].
Proof.
  intros H1 H2. unfold EncodeRune.
  rewrite (proj2 (Z.ltb_ge r 0)), (proj2 (Z.ltb_ge 1114111 r)) by lia.
  assert ((55296 <=? r) && (r <=? 57343) = false) as ->; [|done].
  apply andb_false_iff. rewrite !Z.leb_gt. lia.
Qed.

(** Well-formed runes are written as they were read. *)
Lemma EncodeRune_form s r w :
  rune_form s r w → ill_formed (take w s) = false → EncodeRune r = take w s.
Proof.
  destruct 1 as [c s H|c s H|c0 c1 s H R1|c0 c1 c2 s H R1 R2 L U|c0 c1 c2 c3 s H R1 R2 R3 L U];
    cbn [take ill_formed]; intros Hi.
  - apply Z.leb_gt in Hi. lia.
  - pose proof (code_range c). rewrite EncodeRune_scalar, (proj2 (Z.ltb_lt _ _)) by lia.
    by rewrite chr_code.
  - apply cont_val in R1 as [E1 B1]. change 31 with (Z.ones 5). rewrite (lead_val c0 5 6) by lia.
    set (r := (_ + _)). assert (r = (code c0 - 192) * 64 + cont c1) as Er by (unfold r; lia).
    rewrite EncodeRune_scalar, (proj2 (Z.ltb_ge r 128)), (proj2 (Z.ltb_lt r 2048)) by lia.
    f_equal; [|f_equal]; apply chr_offset; clearbody r; Z.to_euclidean_division_equations; lia.
  - apply cont_val in R1 as [E1 B1], R2 as [E2 B2]. change 15 with (Z.ones 4).
    rewrite (lead_val c0 4 14) by lia. set (r := (_ + _)).
    assert (r = (code c0 - 224) * 4096 + cont c1 * 64 + cont c2) as Er by (unfold r; lia).
    rewrite EncodeRune_scalar, (proj2 (Z.ltb_ge r 128)), (proj2 (Z.ltb_ge r 2048)),
      (proj2 (Z.ltb_lt r 65536)) by lia.
    f_equal; [|f_equal; [|f_equal]]; apply chr_offset; clearbody r; Z.to_euclidean_division_equations; lia.
  - apply cont_val in R1 as [E1 B1], R2 as [E2 B2], R3 as [E3 B3]. change 7 with (Z.ones 3).
    rewrite (lead_val c0 3 30) by lia. set (r := (_ + _)).
    assert (r = (code c0 - 240) * 262144 + cont c1 * 4096 + cont c2 * 64 + cont c3) as Er by (unfold r; lia).
    rewrite EncodeRune_scalar, (proj2 (Z.ltb_ge r 128)), (proj2 (Z.ltb_ge r 2048)),
      (proj2 (Z.ltb_ge r 65536)) by lia.
    f_equal; [|f_equal; [|f_equal; [|f_equal]]]; apply chr_offset; clearbody r; Z.to_euclidean_division_equations; lia.
Qed.

(** A well-formed rune is read back in front of any text. *)
Lemma DecodeRune_app s r w q :
  rune_form s r w → ill_formed (take w s) = false → DecodeRune (take w s ++ q) = (r, w).
Proof.
  destruct 1 as [c s H|c s H|c0 c1 s H R1|c0 c1 c2 s H R1 R2 L U|c0 c1 c2 c3 s H R1 R2 R3 L U];
    cbn [take ill_formed app DecodeRune]; intros Hi.
  - apply Z.leb_gt in Hi. lia.
  - by rewrite (proj2 (Z.ltb_lt _ _)) by lia.
  - rewrite (proj2 (Z.ltb_ge _ 128)), (proj2 (Z.leb_le 194 _)), (proj2 (Z.leb_le _ 223)) by lia.
    cbn [andb]. by rewrite R1.
  - rewrite (proj2 (Z.ltb_ge _ 128)), (proj2 (Z.leb_gt _ 223)), andb_false_r by lia.
    rewrite (proj2 (Z.leb_le 224 _)), (proj2 (Z.leb_le _ 239)) by lia. cbn [andb].
    rewrite R2. unfold in_range in R1 |- *. rewrite andb_true_iff, !Z.leb_le in R1.
    rewrite !(proj2 (Z.leb_le _ _)); [done|..];
      destruct (Z.eqb_spec (code c0) 224), (Z.eqb_spec (code c0) 237); lia.
  - rewrite (proj2 (Z.ltb_ge _ 128)), (proj2 (Z.leb_gt _ 223)), (proj2 (Z.leb_gt _ 239)), !andb_false_r by lia.
    rewrite (proj2 (Z.leb_le 240 _)), (proj2 (Z.leb_le _ 244)) by lia. cbn [andb].
    rewrite R2, R3. unfold in_range in R1 |- *. rewrite andb_true_iff, !Z.leb_le in R1.
    rewrite !(proj2 (Z.leb_le _ _)); [done|..];
      destruct (Z.eqb_spec (code c0) 240), (Z.eqb_spec (code c0) 244); lia.
Qed.

(** Every rune of a text was read from the bytes it comes with. *)
Lemma runes_form s rb : rb ∈ runes s → ∃ s' w, rune_form s' rb.1 w ∧ rb.2 = take w s'.
Proof.
  induction s as [|c s IH] using runes_ind; [by intros ?%not_elem_of_nil|].
  rewrite runes_cons. cbn zeta. intros [->|H]%elem_of_cons; [|by apply IH].
  exists (c :: s), (DecodeRune (c :: s)).2. split; [apply DecodeRune_form|done].
Qed.

(** Sanitizing changes nothing in a well-formed text. *)
Lemma sanitize_valid s : ValidString s = true → sanitize s = s.
Proof.
  unfold ValidString. rewrite forallb_forall. intros H. unfold sanitize.
  rewrite <- (text_runes s) at 2. unfold text. f_equal. apply list_fmap_ext.
  intros i rb Hi%list_elem_of_lookup_2. destruct (runes_form s rb Hi) as (s' & w & Hf & E).
  rewrite E. eapply EncodeRune_form; [done|]. rewrite <- E.
  by apply negb_true_iff, H, list_elem_of_In.
Qed.

(** ** Text made of runes *)

Definition scalar (r : Z) : Prop := 0 <= r < 55296 ∨ 57343 < r <= 1114111.

Definition well_formed (s : bytes) : Prop := ∃ rs, Forall scalar rs ∧ s = concat (EncodeRune <$> rs).

Lemma rune_form_eq s r r' w : rune_form s r w → r = r' → rune_form s r' w.
Proof. by intros ? <-. Qed.

Lemma cont_chr x : 0 <= x < 64 → in_range 128 191 (chr (128 + x)) = true ∧ cont (chr (128 + x)) = x.
Proof.
  intros H. assert (R : in_range 128 191 (chr (128 + x)) = true).
  { unfold in_range. rewrite code_chr, Z.mod_small, andb_true_iff, !Z.leb_le; lia. }
  split; [done|]. apply cont_val in R as [-> _]. rewrite code_chr, Z.mod_small; lia.
Qed.

(** What is written for a rune is read as it. *)
Lemma EncodeRune_rune r :
  scalar r → rune_form (EncodeRune r) r (length (EncodeRune r)) ∧ ill_formed (EncodeRune r) = false.
Proof.
  intros Hr. unfold scalar in Hr. rewrite EncodeRune_scalar by lia.
  destruct (Z.ltb_spec r 128); [|destruct (Z.ltb_spec r 2048); [|destruct (Z.ltb_spec r 65536)]];
    (split; [|done || (cbn; rewrite code_chr, Z.mod_small by lia; apply Z.leb_gt; lia)]).
  - assert (E : code (chr r) = r) by (rewrite code_chr, Z.mod_small; lia).
    eapply rune_form_eq; [by apply form_1; lia|done].
  - destruct (cont_chr (r mod 64)) as [R1 V1]; [Z.to_euclidean_division_equations; lia|].
    assert (E : code (chr (192 + r / 64)) = 192 + r / 64)
      by (rewrite code_chr, Z.mod_small; Z.to_euclidean_division_equations; lia).
    assert (B : 2 <= r / 64 <= 31) by (Z.to_euclidean_division_equations; lia).
    eapply rune_form_eq; [apply form_2; [lia|done]|].
    change 31 with (Z.ones 5). rewrite (lead_val _ 5 6), E, V1 by lia.
    pose proof (Z.div_mod r 64). lia.
  - destruct (cont_chr (r mod 64)) as [R1 V1]; [Z.to_euclidean_division_equations; lia|].
    destruct (cont_chr ((r / 64) mod 64)) as [R2 V2]; [Z.to_euclidean_division_equations; lia|].
    assert (E : code (chr (224 + r / 4096)) = 224 + r / 4096)
      by (rewrite code_chr, Z.mod_small; Z.to_euclidean_division_equations; lia).
    assert (B : 0 <= r / 4096 <= 15) by (Z.to_euclidean_division_equations; lia).
    assert (E2 : code (chr (128 + (r / 64) mod 64)) = 128 + (r / 64) mod 64)
      by (rewrite code_chr, Z.mod_small; Z.to_euclidean_division_equations; lia).
    eapply rune_form_eq; [apply form_3; [lia|done|done|rewrite E, E2|rewrite E, E2]|].
    + Z.to_euclidean_division_equations; lia.
    + Z.to_euclidean_division_equations; lia.
    + change 15 with (Z.ones 4). rewrite (lead_val _ 4 14), E, V1, V2 by lia.
      Z.to_euclidean_division_equations; lia.
  - destruct (cont_chr (r mod 64)) as [R1 V1]; [Z.to_euclidean_division_equations; lia|].
    destruct (cont_chr ((r / 64) mod 64)) as [R2 V2]; [Z.to_euclidean_division_equations; lia|].
    destruct (cont_chr ((r / 4096) mod 64)) as [R3 V3]; [Z.to_euclidean_division_equations; lia|].
    assert (E : code (chr (240 + r / 262144)) = 240 + r / 262144)
      by (rewrite code_chr, Z.mod_small; Z.to_euclidean_division_equations; lia).
    assert (B : 0 <= r / 262144 <= 4) by (Z.to_euclidean_division_equations; lia).
    assert (E2 : code (chr (128 + (r / 4096) mod 64)) = 128 + (r / 4096) mod 64)
      by (rewrite code_chr, Z.mod_small; Z.to_euclidean_division_equations; lia).
    eapply rune_form_eq; [apply form_4; [lia|done|done|done|rewrite E, E2|rewrite E, E2]|].
    + Z.to_euclidean_division_equations; lia.
    + Z.to_euclidean_division_equations; lia.
    + change 7 with (Z.ones 3). rewrite (lead_val _ 3 30), E, V1, V2, V3 by lia.
      Z.to_euclidean_division_equations; lia.
Qed.

Lemma runes_encode rs :
  Forall scalar rs → runes (concat (EncodeRune <$> rs)) = (λ r, (r, EncodeRune r)) <$> rs.
Proof.
  induction 1 as [|r rs Hr _ IH]; [done|]. cbn [fmap list_fmap concat].
  destruct (EncodeRune_rune r Hr) as [Hf Hi]. set (t := concat _) in *.
  pose proof (DecodeRune_app _ _ _ t Hf) as Hd. rewrite firstn_all in Hd. specialize (Hd Hi).
  assert (Hne : EncodeRune r ≠ []) by (by destruct Hf).
  destruct (EncodeRune r) as [|c b]; [done|]. cbn [app] in *. rewrite runes_cons, Hd. cbn [fst snd]. cbn zeta.
  change (c :: b ++ t) with ((c :: b) ++ t). by rewrite take_app_length, drop_app_length, IH.
Qed.

Lemma sanitize_well_formed s : well_formed s → sanitize s = s.
Proof.
  intros (rs & Hrs & ->). unfold sanitize. rewrite runes_encode by done. f_equal.
  by rewrite <- list_fmap_compose.
Qed.

Lemma rune_scalar s r w : rune_form s r w → scalar r.
Proof.
  unfold scalar, RuneError.
  destruct 1 as [c s H|c s H|c0 c1 s H R1|c0 c1 c2 s H R1 R2 L U|c0 c1 c2 c3 s H R1 R2 R3 L U].
  - right. unfold RuneError. lia.
  - pose proof (code_range c). lia.
  - apply cont_val in R1 as [E1 B1]. change 31 with (Z.ones 5). rewrite (lead_val c0 5 6); lia.
  - apply cont_val in R1 as [E1 B1], R2 as [E2 B2]. change 15 with (Z.ones 4).
    rewrite (lead_val c0 4 14); lia.
  - apply cont_val in R1 as [E1 B1], R2 as [E2 B2], R3 as [E3 B3]. change 7 with (Z.ones 3).
    rewrite (lead_val c0 3 30); lia.
Qed.

Lemma well_formed_app s t : well_formed s → well_formed t → well_formed (s ++ t).
Proof.
  intros (rs & Hr & ->) (qs & Hq & ->). exists (rs ++ qs). rewrite fmap_app, concat_app.
  split; [by apply Forall_app_2|done].
Qed.

Lemma well_formed_nil : well_formed [].
Proof. by exists []. Qed.

Lemma well_formed_rune r : well_formed (EncodeRune r).
Proof.
  assert (∃ r', scalar r' ∧ EncodeRune r = EncodeRune r') as (r' & Hr & ->).
  { unfold scalar. destruct ((r <? 0) || (1114111 <? r) || ((55296 <=? r) && (r <=? 57343))) eqn:E.
    - exists RuneError. unfold RuneError. split; [lia|]. unfold EncodeRune. by rewrite E.
    - exists r. split; [|done]. rewrite !orb_false_iff, andb_false_iff, !Z.ltb_ge, !Z.leb_gt in E. lia. }
  exists [r']. split; [by constructor|]. cbn. by rewrite app_nil_r.
Qed.

Lemma well_formed_ascii c : code c < 128 → well_formed [c].
Proof.
  intros H. pose proof (code_range c). assert (EncodeRune (code c) = [c]) as <-; [|apply well_formed_rune].
  rewrite EncodeRune_scalar, (proj2 (Z.ltb_lt _ _)), chr_code by lia. done.
Qed.

Lemma well_formed_plain s : forallb (λ c, code c <? 128) s = true → well_formed s.
Proof.
  induction s as [|c s IH]; [intros _; apply well_formed_nil|]. cbn. rewrite andb_true_iff, Z.ltb_lt.
  intros [Hc Hs]. apply (well_formed_app [c]); auto using well_formed_ascii.
Qed.

End Utf8.

(** ** Package [strings] *)

Module Strings.
Import Utf8.

(** [unicode.IsSpace] *)
Definition IsSpace (r : Z) : bool :=
  ((9 <=? r) && (r <=? 13)) || (r =? 32) || (r =? 133) || (r =? 160)
  || (r =? 5760) || ((8192 <=? r) && (r <=? 8202)) || (r =? 8232) || (r =? 8233)
  || (r =? 8239) || (r =? 8287) || (r =? 12288).

(** Maximal runs of non-space runes; [cur] is the field being read. *)
Fixpoint fields_go (rs : list (Z * bytes)) (cur : bytes) : list bytes :=
  match rs with
  | [] => if bool_decide (cur = []) then [] else [cur]
  | (r, b) :: rs =>
      if IsSpace r
      then (if bool_decide (cur = []) then fields_go rs []
            else cur :: fields_go rs [])
      else fields_go rs (cur ++ b)
  end.

(** [strings.Fields] *)
Definition Fields (s : bytes) : list bytes := fields_go (runes s) [].

Fixpoint trim_left (rs : list (Z * bytes)) : list (Z * bytes) :=
  match rs with
  | (r, b) :: rs' => if IsSpace r then trim_left rs' else rs
  | [] => []
  end.

Definition trim_right (rs : list (Z * bytes)) : list (Z * bytes) :=
  reverse (trim_left (reverse rs)).

(** [strings.TrimSpace] *)
Definition TrimSpace (s : bytes) : bytes := text (trim_right (trim_left (runes s))).

Definition is_ascii (s : bytes) : bool := forallb (λ c, code c <? 128) s.

Definition upper_ascii (c : ascii) : ascii :=
  if (97 <=? code c) && (code c <=? 122) then chr (code c - 32) else c.

Section ToUpper.
(** The case table of package [unicode] for runes above U+007F. *)
Context (unicode_upper : Z → Z).

Definition unicode_ToUpper (r : Z) : Z :=
  if r <? 128 then code (upper_ascii (chr r)) else unicode_upper r.

(** [strings.ToUpper]: a byte-wise fast path for ASCII input, otherwise
    [strings.Map(unicode.ToUpper, s)]. *)
Definition ToUpper (s : bytes) : bytes :=
  if is_ascii s then upper_ascii <$> s
  else runes s ≫= λ '(r, _), EncodeRune (unicode_ToUpper r).

End ToUpper.

(** On ASCII words without white space, the rune view is the byte view. *)
Definition plain (s : bytes) : Prop :=
  Forall (λ c, code c < 128 ∧ IsSpace (code c) = false) s.

Lemma runes_fuel_ascii fuel s :
  (length s <= fuel)%nat → Forall (λ c, code c < 128) s →
  runes_fuel fuel s = (λ c, (code c, [c])) <$> s.
Proof.
  revert s; induction fuel as [|fuel IH]; intros [|c s] Hl Hs; try done.
  { cbn in Hl; lia. }
  apply Forall_cons_1 in Hs as [Hc Hs]. cbn. rewrite (proj2 (Z.ltb_lt _ _) Hc). cbn.
  cbn in Hl. rewrite drop_0, IH by (done || lia). done.
Qed.

Lemma runes_ascii s :
  Forall (λ c, code c < 128) s → runes s = (λ c, (code c, [c])) <$> s.
Proof. intros. by apply runes_fuel_ascii. Qed.

Lemma fields_go_word w rs cur :
  plain w →
  fields_go (((λ c, (code c, [c])) <$> w) ++ rs) cur = fields_go rs (cur ++ w).
Proof.
  intros Hw. revert cur. induction Hw as [|c w [_ Hc] Hw IH]; intros cur; cbn.
  { by rewrite app_nil_r. }
  rewrite Hc, IH, <- app_assoc. done.
Qed.

Abbreviation blank := (Forall (λ rb : Z * bytes, IsSpace rb.1 = true)).

Lemma trim_left_split rs : ∃ sp, rs = sp ++ trim_left rs ∧ blank sp.
Proof.
  induction rs as [|[r b] rs (sp & E & Hsp)]; cbn; [by exists []|].
  destruct (IsSpace r) eqn:Hr; [|by exists []].
  exists ((r, b) :: sp). cbn. split; [by f_equal|by constructor].
Qed.

Lemma trim_right_split rs : ∃ sp, rs = trim_right rs ++ sp ∧ blank sp.
Proof.
  destruct (trim_left_split (reverse rs)) as (sp & E & Hsp). exists (reverse sp). split.
  - unfold trim_right. by rewrite <- reverse_app, <- E, reverse_involutive.
  - by apply Forall_reverse.
Qed.

Lemma fields_go_blank_l sp rs : blank sp → fields_go (sp ++ rs) [] = fields_go rs [].
Proof. induction 1 as [|[r b] sp Hr _ IH]; cbn in *; [done|]. by rewrite Hr. Qed.

Lemma fields_go_blank_r sp rs cur : blank sp → fields_go (rs ++ sp) cur = fields_go rs cur.
Proof.
  intros Hsp. revert cur. induction rs as [|[r b] rs IH]; intros cur; cbn.
  - destruct Hsp as [|[r b] sp Hr Hsp]; [done|]. cbn in *. rewrite Hr.
    pose proof (fields_go_blank_l sp [] Hsp) as H. rewrite app_nil_r in H. rewrite H.
    by case_bool_decide.
  - by rewrite !IH.
Qed.

(** Trimming first does not change the fields. *)
Lemma Fields_TrimSpace s : Fields (TrimSpace s) = Fields s.
Proof.
  unfold Fields, TrimSpace. destruct (trim_left_split (runes s)) as (l & El & Hl).
  destruct (trim_right_split (trim_left (runes s))) as (r & Er & Hr).
  rewrite (runes_prefix (text (trim_left (runes s))) _ r).
  - rewrite El at 2. rewrite fields_go_blank_l by done. rewrite Er at 2.
    by rewrite fields_go_blank_r.
  - rewrite (runes_suffix s l) by done. done.
Qed.

(** The words of a well-formed text are well formed. *)
Lemma fields_go_well_formed rs cur :
  Forall (λ rb, well_formed rb.2) rs → well_formed cur → Forall well_formed (fields_go rs cur).
Proof.
  intros H. revert cur. induction H as [|[r b] rs Hb _ IH]; intros cur Hc; cbn [fields_go];
    repeat case_match; eauto using well_formed_nil, well_formed_app, Forall_cons_2, Forall_nil_2.
Qed.

Lemma Fields_well_formed s : well_formed s → Forall well_formed (Fields s).
Proof.
  intros (rs & Hr & ->). unfold Fields. rewrite runes_encode by done.
  apply fields_go_well_formed; [|apply well_formed_nil]. apply Forall_fmap, Forall_true.
  intros r. apply well_formed_rune.
Qed.

End Strings.

#[export] Hint Resolve Strconv.utoa_digits Strconv.utoa_nonempty : go.
