(* ===== verification/Resp.v ===== *)
(** * RESP, the wire protocol (src/internal/core/resp.go)

    [Module Slice]: Go byte slices with their spare capacity.
    [Module Resp]: the decoder ([DecodeOne] and its readers), the encoder
    ([Encode]) and [ParseCmd], one definition per Go function, with every
    bounds check the run time performs.  *)

From Stdlib Require Import ZArith Lia Ascii.
From stdpp Require Import base list strings numbers sets.
From S2P Require Import Prelude GoStrings.

(** ** Byte slices

    [vis] holds the [len] bytes of the slice, [extra] the bytes of its
    backing array between [len] and [cap].  An index is checked against
    [len], the upper bound of a slice expression against [cap]. *)

Module Slice.

Record slice := mk { vis : bytes; extra : bytes }.

Definition of_bytes (s : bytes) : slice := mk s [].

Definition len (d : slice) : Z := Z.of_nat (length (vis d)).
Definition cap (d : slice) : Z := Z.of_nat (length (vis d ++ extra d)).

(** [d[i]] *)
Definition index (d : slice) (i : Z) : outcome ascii :=
  if i <? 0 then Panic IndexOutOfRange
  else match vis d !! Z.to_nat i with
       | Some c => Ret c
       | None => Panic IndexOutOfRange
       end.

(** [d[lo:]] *)
Definition from (d : slice) (lo : Z) : outcome slice :=
  if (0 <=? lo) && (lo <=? len d)
  then Ret (mk (drop (Z.to_nat lo) (vis d)) (extra d))
  else Panic SliceOutOfRange.

(** [string(d[lo:hi])] *)
Definition sub (d : slice) (lo hi : Z) : outcome bytes :=
  if (0 <=? lo) && (lo <=? hi) && (hi <=? cap d)
  then Ret (take (Z.to_nat (hi - lo)) (drop (Z.to_nat lo) (vis d ++ extra d)))
  else Panic SliceOutOfRange.

Lemma from_Ret d lo d' :
  from d lo = Ret d' → 0 <= lo <= len d ∧ vis d' = drop (Z.to_nat lo) (vis d).
Proof.
  unfold from. case_match eqn:E; [|done]. intros [= <-].
  apply andb_true_iff in E as [?%Z.leb_le ?%Z.leb_le]. done.
Qed.

Lemma from_app a b x : from (mk (a ++ b) x) (Z.of_nat (length a)) = Ret (mk b x).
Proof.
  unfold from, len; cbn. rewrite length_app.
  rewrite (proj2 (Z.leb_le 0 _)), (proj2 (Z.leb_le _ _)) by lia. cbn.
  by rewrite Nat2Z.id, drop_app_length.
Qed.

Lemma sub_app a b c x lo hi :
  lo = Z.of_nat (length a) → hi = Z.of_nat (length a + length b) →
  sub (mk (a ++ b ++ c) x) lo hi = Ret b.
Proof.
  intros -> ->. unfold sub, cap; cbn. rewrite !length_app.
  rewrite (proj2 (Z.leb_le 0 _)), (proj2 (Z.leb_le _ _)), (proj2 (Z.leb_le _ _)) by lia.
  cbn. rewrite Nat2Z.id, <- !app_assoc, drop_app_length.
  replace (Z.to_nat _) with (length b) by lia. by rewrite take_app_length.
Qed.

Lemma index_app a c b x i :
  i = Z.of_nat (length a) → index (mk (a ++ c :: b) x) i = Ret c.
Proof.
  intros ->. unfold index; cbn. rewrite (proj2 (Z.ltb_ge _ 0)) by lia.
  by rewrite Nat2Z.id, list_lookup_middle.
Qed.

End Slice.

Module Resp.
Import Slice.

(** ** Data *)

(** The dynamic values that reach [Encode] or leave [DecodeOne]. [VNil] also
    stands for a value whose type has no case in [Encode]'s switch. *)
Inductive value :=
  | VNil
  | VStr (s : bytes)
  | VInt (n : Z)
  | VErr (msg : bytes)
  | VStrs (l : list bytes)
  | VStrss (l : list (list bytes))
  | VArr (l : list value).

Inductive decoded :=
  | DVal (v : value) (delta : Z)
  | DErr (err : bytes).

Record Command := mkCommand { Cmd : bytes; Args : list bytes }.

Definition CR : ascii := chr 13.
Definition LF : ascii := chr 10.
Definition CRLF : bytes := [CR; LF].

Definition RespNil : bytes := bs "$-1" ++ CRLF.

(** ** Decoder *)

(** [for data[pos] != '\r' { pos += 1 }], on the bytes from [pos] on. *)
Fixpoint skip_to_cr (rest : bytes) (pos : Z) : outcome Z :=
  match rest with
  | [] => Panic IndexOutOfRange
  | c :: rest => if decide (c = CR) then Ret pos else skip_to_cr rest (pos + 1)
  end.

Definition readSimpleString (data : slice) : outcome (bytes * Z) :=
  pos ← skip_to_cr (drop 1 (vis data)) 1;
  s ← sub data 1 pos;
  Ret (s, pos + 2).

(** [for data[pos] != '\r' { res = res*10 + int64(data[pos]-'0'); pos += 1 }];
    the subtraction is on bytes and wraps modulo 256. *)
Fixpoint read_digits (rest : bytes) (pos res : Z) : outcome (Z * Z) :=
  match rest with
  | [] => Panic IndexOutOfRange
  | c :: rest =>
      if decide (c = CR) then Ret (res, pos)
      else read_digits rest (pos + 1) (s64 (s64 (res * 10) + (code c - 48) mod 256))
  end.

Definition readInt64 (data : slice) : outcome (Z * Z) :=
  let res := 0 in
  let sign := 1 in
  let pos := 1 in
  c ← index data pos;
  let '(sign, pos) := if decide (c = chr 45) then (-1, pos + 1) else (sign, pos) in
  c ← index data pos;
  let '(sign, pos) := if decide (c = chr 43) then (1, pos + 1) else (sign, pos) in
  '(res, pos) ← read_digits (drop (Z.to_nat pos) (vis data)) pos res;
  Ret (s64 (res * sign), pos + 2).

Definition readError (data : slice) : outcome (bytes * Z) := readSimpleString data.

Definition readLen (data : slice) : outcome (Z * Z) := readInt64 data.

Definition readBulkString (data : slice) : outcome (bytes * Z) :=
  '(length, pos) ← readLen data;
  if length =? -1 then Ret (bs "Null value", pos + 2)
  else
    s ← sub data pos (s64 (pos + length));
    Ret (s, s64 (pos + length + 2)).

(** The elements of an array; [n] of them remain, the next one at [pos]. *)
Fixpoint read_elems (DecodeOne : slice → outcome decoded) (data : slice)
    (n : nat) (pos : Z) (res : list value) : outcome decoded :=
  match n with
  | O => Ret (DVal (VArr res) pos)
  | S n =>
      d ← from data pos;
      r ← DecodeOne d;
      match r with
      | DErr err => Ret (DErr err)
      | DVal elem delta => read_elems DecodeOne data n (pos + delta) (res ++ [elem])
      end
  end.

(** [make([]interface{}, length)] panics on a negative length or when the
    16-byte elements exceed the address space of the allocator (2^48). *)
Definition make_interfaces_ok (length : Z) : bool :=
  (0 <=? length) && (length * 16 <=? 281474976710656).

Definition readArray (DecodeOne : slice → outcome decoded) (data : slice)
    : outcome decoded :=
  '(length, pos) ← readLen data;
  if make_interfaces_ok length
  then read_elems DecodeOne data (Z.to_nat length) pos []
  else Panic MakeSliceLen.

Definition dval (r : bytes * Z) : decoded := DVal (VStr r.1) r.2.

(** [fuel] bounds the nesting of arrays. *)
Fixpoint DecodeOne_fuel (fuel : nat) (data : slice) : outcome decoded :=
  match fuel with
  | O => NoFuel
  | S fuel =>
      if len data =? 0 then Ret (DErr (bs "no data"))
      else
        c ← index data 0;
        if decide (c = chr 43) then r ← readSimpleString data; Ret (dval r)
        else if decide (c = chr 58) then r ← readInt64 data; Ret (DVal (VInt r.1) r.2)
        else if decide (c = chr 45) then r ← readError data; Ret (dval r)
        else if decide (c = chr 36) then r ← readBulkString data; Ret (dval r)
        else if decide (c = chr 42) then readArray (DecodeOne_fuel fuel) data
        else Ret (DVal (VStr (bs "unknown prefix: " ++ Utf8.EncodeRune (code c))) 0)
  end.

(** Each nested array starts at least two bytes further on, so one unit of
    fuel per byte is enough ([DecodeOne_total]). *)
Definition DecodeOne (data : slice) : outcome decoded :=
  DecodeOne_fuel (S (length (vis data))) data.

Definition Decode (data : slice) : outcome (bytes + value) :=
  r ← DecodeOne data;
  match r with
  | DErr err => Ret (inl err)
  | DVal res _ => Ret (inr res)
  end.

(** ** Encoder *)

Definition len_line (prefix : ascii) (n : nat) : bytes :=
  prefix :: Strconv.itoa (Z.of_nat n) ++ CRLF.

Definition encodeString (s : bytes) : bytes :=
  len_line (chr 36) (length s) ++ s ++ CRLF.

Definition encodeStringArray (sa : list bytes) : bytes :=
  len_line (chr 42) (length sa) ++ concat (map encodeString sa).

Fixpoint Encode (v : value) (isSimpleString : bool) : bytes :=
  match v with
  | VStr s =>
      if isSimpleString then chr 43 :: s ++ CRLF
      else len_line (chr 36) (length s) ++ s ++ CRLF
  | VInt n => chr 58 :: Strconv.itoa n ++ CRLF
  | VErr msg => chr 45 :: msg ++ CRLF
  | VStrs sa => encodeStringArray sa
  | VStrss saa => len_line (chr 42) (length saa) ++ concat (map encodeStringArray saa)
  | VArr l => len_line (chr 42) (length l) ++ concat (map (λ x, Encode x false) l)
  | VNil => RespNil
  end.

(** ** Commands *)

Definition join (sep : bytes) (l : list bytes) : bytes :=
  match l with
  | [] => []
  | x :: l => x ++ concat (map (λ y, sep ++ y) l)
  end.

Definition brackets (l : list bytes) : bytes := bs "[" ++ join (bs " ") l ++ bs "]".

(** [fmt.Sprint] on the values the decoder builds. *)
Fixpoint Sprint (v : value) : bytes :=
  match v with
  | VNil => bs "<nil>"
  | VStr s => s
  | VInt n => Strconv.itoa n
  | VErr msg => msg
  | VStrs l => brackets l
  | VStrss l => brackets (map brackets l)
  | VArr l => brackets (map Sprint l)
  end.

Section Parse.
Context (unicode_upper : Z → Z).

(** The [switch v := value.(type)] of [ParseCmd]. *)
Definition tokens_of (v : value) : list bytes :=
  match v with
  | VNil => []
  | VArr l => map Sprint l
  | VStr s => Strings.Fields s
  | v => [Sprint v]
  end.

Definition ParseCmd (data : slice) : outcome (bytes + Command) :=
  if len data =? 0 then Ret (inl (bs "empty data"))
  else
    r ← Decode data;
    match r with
    | inl err => Ret (inl (bs "failed to decode RESP: " ++ err))
    | inr v =>
        match tokens_of v with
        | [] => Ret (inl (bs "no command found"))
        | t :: ts => Ret (inr (mkCommand (Strings.ToUpper unicode_upper t) ts))
        end
    end.

End Parse.

(** ** Induction on values *)

Section value_ind.
Context (P : value → Prop).
Hypotheses (HNil : P VNil) (HStr : ∀ s, P (VStr s)) (HInt : ∀ n, P (VInt n))
  (HErr : ∀ m, P (VErr m)) (HStrs : ∀ l, P (VStrs l)) (HStrss : ∀ l, P (VStrss l))
  (HArr : ∀ l, Forall P l → P (VArr l)).

Fixpoint value_nested_ind (v : value) : P v :=
  match v with
  | VNil => HNil
  | VStr s => HStr s
  | VInt n => HInt n
  | VErr m => HErr m
  | VStrs l => HStrs l
  | VStrss l => HStrss l
  | VArr l => HArr l ((fix go (l : list value) : Forall P l :=
                         match l with
                         | [] => List.Forall_nil P
                         | x :: l => List.Forall_cons P x l (value_nested_ind x) (go l)
                         end) l)
  end.
End value_ind.

(** ** The readers on well-formed input *)

Lemma CR_not_digit c : Strconv.is_digit c = true → c ≠ CR.
Proof. intros H ->. by apply Strconv.digit_not_sign in H as (_ & _ & []). Qed.

Lemma skip_to_cr_app s rest pos :
  CR ∉ s → skip_to_cr (s ++ CR :: rest) pos = Ret (pos + Z.of_nat (length s)).
Proof.
  revert pos; induction s as [|c s IH]; intros pos Hs; cbn.
  { rewrite decide_True by done. f_equal; lia. }
  apply not_elem_of_cons in Hs as [Hc Hs].
  rewrite decide_False by done. rewrite IH by done. f_equal; lia.
Qed.

Lemma skip_to_cr_none s pos : CR ∉ s → skip_to_cr s pos = Panic IndexOutOfRange.
Proof.
  revert pos; induction s as [|c s IH]; intros pos Hs; cbn; [done|].
  apply not_elem_of_cons in Hs as [Hc Hs]. rewrite decide_False by done. by apply IH.
Qed.

Lemma read_digits_none s pos res : CR ∉ s → read_digits s pos res = Panic IndexOutOfRange.
Proof.
  revert pos res; induction s as [|c s IH]; intros pos res Hs; cbn; [done|].
  apply not_elem_of_cons in Hs as [Hc Hs]. rewrite decide_False by done. by apply IH.
Qed.

(** On digits the loop computes the decimal value modulo 2^64. *)
Lemma read_digits_app ds rest pos r :
  Forall (λ c, Strconv.is_digit c = true) ds →
  read_digits (ds ++ CR :: rest) pos (s64 r)
  = Ret (s64 (fold_left Strconv.dec_step ds r), pos + Z.of_nat (length ds)).
Proof.
  intros Hds. revert pos r. induction Hds as [|c ds Hc Hds IH]; intros pos r; cbn -[s64].
  { rewrite decide_True by done. do 2 f_equal. lia. }
  rewrite decide_False by (by apply CR_not_digit).
  pose proof (Strconv.is_digit_val c Hc) as Hv. unfold Strconv.digit_val in Hv.
  rewrite (Z.mod_small (code c - 48)), s64_mul_l, s64_add_l by lia.
  change (r * 10 + (code c - 48)) with (Strconv.dec_step r c).
  rewrite IH. do 2 f_equal. lia.
Qed.

Lemma read_digits_value ds rest pos :
  Forall (λ c, Strconv.is_digit c = true) ds →
  read_digits (ds ++ CR :: rest) pos 0
  = Ret (s64 (Strconv.dec_value ds), pos + Z.of_nat (length ds)).
Proof. intros. change 0 with (s64 0) at 1. by apply read_digits_app. Qed.

Lemma s64_neg_neg n : is_s64 n → s64 (s64 (- n) * -1) = n.
Proof. intros H. rewrite s64_mul_l. replace (- n * -1) with n by lia. by apply s64_id. Qed.

Lemma index_0 c r x : index (mk (c :: r) x) 0 = Ret c.
Proof. done. Qed.

Lemma index_1 p c r x : index (mk (p :: c :: r) x) 1 = Ret c.
Proof. done. Qed.

Lemma digits_head_not_sign c ds :
  Forall (λ c, Strconv.is_digit c = true) (c :: ds) → c ≠ chr 45 ∧ c ≠ chr 43.
Proof.
  intros [Hc _]%Forall_cons_1. apply Strconv.digit_not_sign in Hc as (? & ? & _).
  split; by intros ->.
Qed.

(** Reading a printed number gives it back, [math.MinInt64] included (both
    the magnitude and the sign multiplication wrap there). *)
Lemma readInt64_itoa p n rest x :
  is_s64 n →
  readInt64 (mk (p :: Strconv.itoa n ++ CR :: LF :: rest) x)
  = Ret (n, Z.of_nat (length (Strconv.itoa n)) + 3).
Proof.
  intros Hn. unfold Strconv.itoa. destruct (Z.ltb_spec n 0) as [Hneg|Hpos].
  - pose proof (Strconv.utoa_digits (- n) ltac:(lia)) as Hd.
    pose proof (Strconv.utoa_nonempty (- n) ltac:(lia)).
    pose proof (Strconv.utoa_value (- n) ltac:(lia)) as Hv.
    destruct (Strconv.utoa (- n)) as [|c ds] eqn:E; [done|].
    unfold readInt64. cbn [app]. rewrite index_1. cbn [mbind outcome_bind].
    rewrite decide_True by done.
    change (index _ (1 + 1)) with (Ret c). cbn [mbind outcome_bind].
    rewrite decide_False by (by apply (digits_head_not_sign _ _ Hd)).
    change (drop (Z.to_nat (1 + 1)) _) with ((c :: ds) ++ CR :: LF :: rest).
    rewrite read_digits_value, Hv by done. cbn [mbind outcome_bind].
    rewrite s64_neg_neg by done. do 2 f_equal. cbn [length]. lia.
  - pose proof (Strconv.utoa_digits n ltac:(lia)) as Hd.
    pose proof (Strconv.utoa_nonempty n ltac:(lia)).
    pose proof (Strconv.utoa_value n ltac:(lia)) as Hv.
    destruct (Strconv.utoa n) as [|c ds] eqn:E; [done|].
    destruct (digits_head_not_sign _ _ Hd) as [? ?].
    unfold readInt64. cbn [app]. rewrite index_1. cbn [mbind outcome_bind].
    rewrite decide_False by done. rewrite index_1. cbn [mbind outcome_bind].
    rewrite decide_False by done.
    change (drop (Z.to_nat 1) _) with ((c :: ds) ++ CR :: LF :: rest).
    rewrite read_digits_value, Hv by done. cbn [mbind outcome_bind].
    rewrite s64_mul_l, Z.mul_1_r, s64_id by done. do 2 f_equal. cbn [length]. lia.
Qed.

(** ** Round trip *)

(** What the decoder makes of an encoded value: errors come back as strings,
    typed string lists as arrays. *)
Fixpoint norm (v : value) : value :=
  match v with
  | VNil => VStr (bs "Null value")
  | VErr m => VStr m
  | VStrs l => VArr (map VStr l)
  | VStrss l => VArr (map (λ sa, VArr (map VStr sa)) l)
  | VArr l => VArr (map norm l)
  | v => v
  end.

(** Lengths the decoder's [make] and the [int] arithmetic accept. *)
Definition small (n : nat) : Prop := Z.of_nat n <= 17592186044416.

Definition encodable_strs (l : list bytes) : Prop :=
  small (length l) ∧ Forall (λ s : bytes, small (length s)) l.

(** Values whose encoding the decoder reads back: no nil inside, integers of
    the type, error texts without a carriage return. *)
Fixpoint encodable (v : value) : Prop :=
  match v with
  | VNil => False
  | VStr s => small (length s)
  | VInt n => is_s64 n
  | VErr m => CR ∉ m
  | VStrs l => encodable_strs l
  | VStrss l => small (length l) ∧ Forall encodable_strs l
  | VArr l => small (length l) ∧ foldr (λ x P, encodable x ∧ P) True l
  end.

Lemma encodable_elems l : foldr (λ x P, encodable x ∧ P) True l ↔ Forall encodable l.
Proof.
  induction l as [|v l IH]; cbn; [by split; [constructor|]|].
  by rewrite Forall_cons_iff, IH.
Qed.

(** [dec] decodes chunk [b] to [v], whatever follows it. *)
Definition decodes (dec : slice → outcome decoded) (b : bytes) (v : value) : Prop :=
  ∀ rest x, dec (mk (b ++ rest) x) = Ret (DVal v (Z.of_nat (length b))).

Lemma read_elems_chunks dec chunks vs pre rest x acc :
  Forall2 (decodes dec) chunks vs →
  read_elems dec (mk (pre ++ concat chunks ++ rest) x) (length vs)
    (Z.of_nat (length pre)) acc
  = Ret (DVal (VArr (acc ++ vs)) (Z.of_nat (length (pre ++ concat chunks)))).
Proof.
  intros H. revert pre acc. induction H as [|b v bs' vs Hb H IH]; intros pre acc; cbn.
  { by rewrite !app_nil_r. }
  rewrite from_app. cbn. rewrite <- app_assoc, Hb. cbn.
  rewrite <- Nat2Z.inj_add, <- length_app, (app_assoc pre), IH.
  by rewrite <- !app_assoc.
Qed.

Lemma small_len_ok n : small n → is_s64 (Z.of_nat n).
Proof. unfold small. mlia. Qed.

Lemma make_interfaces_ok_small n : small n → make_interfaces_ok (Z.of_nat n) = true.
Proof. unfold small, make_interfaces_ok. lia. Qed.

Lemma len_line_app p n rest :
  len_line p n ++ rest = p :: Strconv.itoa (Z.of_nat n) ++ CR :: LF :: rest.
Proof. unfold len_line. cbn. by rewrite <- app_assoc. Qed.

Lemma length_len_line p n :
  Z.of_nat (length (len_line p n))
  = Z.of_nat (length (Strconv.itoa (Z.of_nat n))) + 3.
Proof. unfold len_line. cbn. rewrite length_app. cbn. lia. Qed.

Lemma length_len_line_small p n : small n → (length (len_line p n) < 100)%nat.
Proof.
  intros Hn. pose proof (length_len_line p n). unfold small in Hn.
  pose proof (Strconv.length_itoa_nonneg (Z.of_nat n) ltac:(lia)).
  pose proof (Z.log2_le_mono (Z.of_nat n) 17592186044416 Hn) as Hlog.
  change (Z.log2 17592186044416) with 44 in Hlog. lia.
Qed.

Lemma decodes_array fuel chunks vs :
  small (length vs) → Forall2 (decodes (DecodeOne_fuel fuel)) chunks vs →
  decodes (DecodeOne_fuel (S fuel)) (len_line (chr 42) (length vs) ++ concat chunks)
    (VArr vs).
Proof.
  intros Hs H rest x. rewrite <- app_assoc. cbn [DecodeOne_fuel].
  unfold len; cbn [vis]. rewrite length_app.
  rewrite (proj2 (Z.eqb_neq _ 0)) by (cbn; lia).
  rewrite len_line_app, index_0. cbn [mbind outcome_bind].
  do 4 rewrite decide_False by done. rewrite decide_True by done.
  unfold readArray, readLen. rewrite readInt64_itoa by (by apply small_len_ok).
  cbn [mbind outcome_bind]. rewrite make_interfaces_ok_small, Nat2Z.id by done.
  rewrite <- (length_len_line (chr 42)), <- len_line_app.
  by rewrite read_elems_chunks.
Qed.

Lemma decodes_bulk fuel s :
  small (length s) → decodes (DecodeOne_fuel (S fuel)) (encodeString s) (VStr s).
Proof.
  intros Hs rest x. pose proof (length_len_line_small (chr 36) _ Hs) as Hl.
  unfold small in Hs. unfold encodeString. rewrite <- !app_assoc. cbn [DecodeOne_fuel].
  unfold len; cbn [vis]. rewrite length_app.
  rewrite (proj2 (Z.eqb_neq _ 0)) by (cbn; lia).
  rewrite len_line_app, index_0. cbn [mbind outcome_bind].
  do 3 rewrite decide_False by done. rewrite decide_True by done.
  unfold readBulkString, readLen. rewrite readInt64_itoa by (by apply small_len_ok).
  cbn [mbind outcome_bind]. rewrite (proj2 (Z.eqb_neq _ (-1))) by lia.
  rewrite <- (length_len_line (chr 36)), <- len_line_app.
  rewrite <- Nat2Z.inj_add, !s64_id by mlia.
  rewrite sub_app by done. cbn [mbind outcome_bind]. unfold dval; cbn [fst snd].
  do 2 f_equal. rewrite !length_app. cbn [length CRLF]. lia.
Qed.

Lemma decodes_int fuel n :
  is_s64 n → decodes (DecodeOne_fuel (S fuel)) (Encode (VInt n) false) (VInt n).
Proof.
  intros Hn rest x. cbn [Encode]. rewrite <- !app_comm_cons, <- app_assoc.
  cbn [DecodeOne_fuel]. unfold len; cbn [vis length].
  rewrite (proj2 (Z.eqb_neq _ 0)) by lia. rewrite index_0. cbn [mbind outcome_bind].
  rewrite decide_False by done. rewrite decide_True by done.
  cbn [CRLF app]. rewrite readInt64_itoa by done. cbn [mbind outcome_bind fst snd].
  do 2 f_equal. cbn [length]. rewrite length_app. cbn [length CRLF]. lia.
Qed.

(** Simple strings and errors share [readSimpleString]. *)
Lemma readSimpleString_app c s rest x :
  CR ∉ s →
  readSimpleString (mk (c :: s ++ CRLF ++ rest) x)
  = Ret (s, Z.of_nat (length (c :: s ++ CRLF))).
Proof.
  intros Hs. unfold readSimpleString. cbn [vis CRLF app].
  change (drop 1 _) with (s ++ CR :: LF :: rest).
  rewrite skip_to_cr_app by done. cbn [mbind outcome_bind].
  change (c :: s ++ CR :: LF :: rest) with ([c] ++ s ++ CR :: LF :: rest).
  rewrite sub_app by (cbn [length]; lia). cbn [mbind outcome_bind].
  do 2 f_equal. cbn [length]. rewrite length_app. cbn [length CRLF]. lia.
Qed.

Lemma decodes_error fuel m :
  CR ∉ m → decodes (DecodeOne_fuel (S fuel)) (Encode (VErr m) false) (VStr m).
Proof.
  intros Hm rest x. cbn [Encode]. rewrite <- !app_comm_cons, <- app_assoc.
  cbn [DecodeOne_fuel]. unfold len; cbn [vis length].
  rewrite (proj2 (Z.eqb_neq _ 0)) by lia. rewrite index_0. cbn [mbind outcome_bind].
  do 2 rewrite decide_False by done. rewrite decide_True by done.
  unfold readError. rewrite readSimpleString_app by done. done.
Qed.

Lemma decodes_strings fuel l :
  encodable_strs l →
  decodes (DecodeOne_fuel (S (S fuel))) (encodeStringArray l) (VArr (map VStr l)).
Proof.
  intros [Hl Hs]. unfold encodeStringArray. rewrite <- (length_map VStr l).
  apply decodes_array; [by rewrite length_map|].
  induction Hs; cbn; constructor; [by apply decodes_bulk|].
  apply IHHs. unfold small in *. cbn in Hl. lia.
Qed.

(** The nesting depth of a value bounds the recursion of its decoding. *)
Fixpoint depth (v : value) : nat :=
  match v with
  | VStrs _ => 2
  | VStrss _ => 3
  | VArr l => S (foldr (λ x n, Nat.max (depth x) n) 0 l)
  | _ => 1
  end%nat.

Lemma decodes_encode v fuel :
  encodable v → (depth v <= fuel)%nat →
  decodes (DecodeOne_fuel fuel) (Encode v false) (norm v).
Proof.
  revert fuel. induction v as [| s | n | m | l | l | l IH] using value_nested_ind;
    intros fuel Hv Hd; cbn [encodable depth norm] in *;
    (destruct fuel as [|fuel]; [lia|]).
  - done.
  - by apply decodes_bulk.
  - by apply decodes_int.
  - by apply decodes_error.
  - destruct fuel as [|fuel]; [lia|]. by apply decodes_strings.
  - destruct fuel as [|[|fuel]]; [lia|lia|]. destruct Hv as [Hl Hs]. cbn [Encode].
    rewrite <- (length_map (λ sa, VArr (map VStr sa)) l).
    apply decodes_array; [by rewrite length_map|]. clear Hl Hd.
    induction Hs; cbn; constructor; [by apply decodes_strings|done].
  - destruct Hv as [Hl Hs]. cbn [Encode]. rewrite <- (length_map norm l).
    apply decodes_array; [by rewrite length_map|]. clear Hl.
    apply le_S_n in Hd. induction IH as [|v l Hv IH IHl]; cbn in *; constructor.
    + apply Hv; [apply Hs|lia].
    + apply IHl; [apply Hs|lia].
Qed.

Lemma len_line_length p n : (3 < length (len_line p n))%nat.
Proof.
  unfold len_line, Strconv.itoa. rewrite (proj2 (Z.ltb_ge _ 0)) by lia.
  pose proof (Strconv.utoa_nonempty (Z.of_nat n) ltac:(lia)).
  destruct (Strconv.utoa _); [done|]. cbn. rewrite length_app. cbn. lia.
Qed.

Lemma depth_Encode v : (depth v <= length (Encode v false))%nat.
Proof.
  induction v as [| | | | | |l IH] using value_nested_ind; cbn [depth Encode];
    unfold encodeStringArray, encodeString; rewrite ?length_app;
    try (pose proof (len_line_length (chr 42) (length l)); lia);
    try (cbn; lia).
  pose proof (len_line_length (chr 42) (length l)).
  assert (foldr (λ x n, Nat.max (depth x) n) 0%nat l
          <= length (concat (map (λ x, Encode x false) l)))%nat; [|lia].
  clear H. induction IH as [|v l Hv IH IHl]; cbn; [lia|]. rewrite length_app. lia.
Qed.

(** ** Termination

    Slices of a running program are smaller than the address space. *)
Definition addressable (d : slice) : Prop := cap d < 281474976710656.

Lemma from_addressable d lo d' : addressable d → from d lo = Ret d' → addressable d'.
Proof.
  unfold addressable, cap, from. intros H. case_match; [|done]. intros [= <-]. cbn in *.
  rewrite !length_app, length_drop in *. lia.
Qed.

Lemma skip_to_cr_pos r pos pos' : skip_to_cr r pos = Ret pos' → pos <= pos'.
Proof.
  revert pos; induction r as [|c r IH]; intros pos; cbn; [done|].
  case_decide; [intros [= ->]; lia|]. intros ?%IH. lia.
Qed.

Lemma read_digits_pos r pos acc n pos' : read_digits r pos acc = Ret (n, pos') → pos <= pos'.
Proof.
  revert pos acc; induction r as [|c r IH]; intros pos acc; cbn -[s64]; [done|].
  case_decide; [intros [= -> ->]; lia|]. intros ?%IH. lia.
Qed.

Lemma readInt64_pos d n pos : readInt64 d = Ret (n, pos) → 3 <= pos.
Proof.
  unfold readInt64. intros. ret_inv;
    match goal with H : read_digits _ _ _ = _ |- _ => apply read_digits_pos in H end; lia.
Qed.

(** Use what [readInt64_pos] says of a successful read in the context. *)
Ltac int_pos :=
  match goal with H : readInt64 _ = Ret _ |- _ => apply readInt64_pos in H end.

Lemma sub_bounds d lo hi s : sub d lo hi = Ret s → 0 <= lo <= hi ∧ hi <= cap d.
Proof. unfold sub. case_match eqn:E; [|done]. intros _. lia. Qed.

Lemma readBulkString_delta d s n :
  addressable d → readBulkString d = Ret (s, n) → 0 <= n.
Proof.
  unfold addressable, readBulkString, readLen. intros Hd ?.
  ret_inv; int_pos; [lia|].
  match goal with H : sub _ _ _ = _ |- _ => apply sub_bounds in H end.
  rewrite <- s64_add_l, s64_id; mlia.
Qed.

Lemma readSimpleString_delta d s n : readSimpleString d = Ret (s, n) → 0 <= n.
Proof.
  unfold readSimpleString. intros. ret_inv.
  match goal with H : skip_to_cr _ _ = _ |- _ => apply skip_to_cr_pos in H end. lia.
Qed.

Lemma read_elems_pos dec d n pos acc v n' :
  (∀ d' v δ, addressable d' → dec d' = Ret (DVal v δ) → 0 <= δ) →
  addressable d → 0 <= pos → read_elems dec d n pos acc = Ret (DVal v n') → 0 <= n'.
Proof.
  intros Hdec Hd. revert pos acc; induction n as [|n IH]; intros pos acc Hpos; cbn.
  { by intros [= <- <-]. }
  destruct (from d pos) as [d'| |] eqn:E; cbn; [|done..].
  pose proof (from_addressable _ _ _ Hd E).
  destruct (dec d') as [[v' δ|e]| |] eqn:E'; cbn; [|done..].
  apply IH. apply Hdec in E'; [lia|done].
Qed.

(** Decoding never moves backwards. *)
Lemma DecodeOne_delta fuel d v δ :
  addressable d → DecodeOne_fuel fuel d = Ret (DVal v δ) → 0 <= δ.
Proof.
  revert d v δ; induction fuel as [|fuel IH]; intros d v δ Hd H; [done|].
  cbn [DecodeOne_fuel] in H. ret_inv.
  all: try match goal with H : _ = Ret ?r |- _ => is_var r; destruct r end.
  all: unfold dval in *; simplify_eq/=.
  - by eapply readSimpleString_delta.
  - int_pos. lia.
  - by eapply readSimpleString_delta.
  - by eapply readBulkString_delta.
  - unfold readArray, readLen in *. ret_inv.
    int_pos.
    eapply read_elems_pos; [exact IH|done| |done]. lia.
  - lia.
Qed.

Lemma read_elems_ext dec dec' d n pos acc :
  (∀ d' v δ, addressable d' → dec d' = Ret (DVal v δ) → 0 <= δ) →
  (∀ d', addressable d' → len d' < len d → dec d' ≠ NoFuel ∧ dec' d' = dec d') →
  addressable d → 0 < pos →
  read_elems dec d n pos acc ≠ NoFuel
  ∧ read_elems dec' d n pos acc = read_elems dec d n pos acc.
Proof.
  intros Hdec Heq Hd. revert pos acc; induction n as [|n IH]; intros pos acc Hpos; [done|].
  cbn. destruct (from d pos) as [d'| |] eqn:E; cbn; [|done|].
  2:{ unfold from in E. by case_match. }
  pose proof (from_addressable _ _ _ Hd E).
  destruct (Heq d') as [Hn ->]; [done| |].
  { apply from_Ret in E as [Hl Hv]. unfold len in *. rewrite Hv, length_drop. lia. }
  destruct (dec d') as [[v' δ|e]| |] eqn:E'; cbn; [|done..].
  apply IH. apply Hdec in E'; [lia|done].
Qed.

Lemma skip_to_cr_fuelled r pos : fuelled (skip_to_cr r pos).
Proof. revert pos; induction r; intros; cbn; [done|]. by case_decide. Qed.

Lemma read_digits_fuelled r pos acc : fuelled (read_digits r pos acc).
Proof. revert pos acc; induction r; intros; cbn -[s64]; [done|]. by case_decide. Qed.

Lemma index_fuelled d i : fuelled (index d i).
Proof. unfold index. by repeat case_match. Qed.

Lemma sub_fuelled d lo hi : fuelled (sub d lo hi).
Proof. unfold sub. by repeat case_match. Qed.

Lemma readInt64_fuelled d : fuelled (readInt64 d).
Proof.
  unfold readInt64. apply fuelled_bind; [apply index_fuelled|intros c _].
  case_decide; (apply fuelled_bind; [apply index_fuelled|intros c' _]); case_decide;
    (apply fuelled_bind; [apply read_digits_fuelled|by intros [] _]).
Qed.

Lemma readSimpleString_fuelled d : fuelled (readSimpleString d).
Proof.
  apply fuelled_bind; [apply skip_to_cr_fuelled|intros p _].
  apply fuelled_bind; [apply sub_fuelled|done].
Qed.

Lemma readBulkString_fuelled d : fuelled (readBulkString d).
Proof.
  apply fuelled_bind; [apply readInt64_fuelled|intros [l p] _].
  case_match; [done|]. apply fuelled_bind; [apply sub_fuelled|done].
Qed.

(** One unit of fuel per byte is enough, and more fuel changes nothing. *)
Lemma DecodeOne_enough fuel fuel' d :
  addressable d → len d < Z.of_nat fuel → (fuel <= fuel')%nat →
  fuelled (DecodeOne_fuel fuel d) ∧ DecodeOne_fuel fuel' d = DecodeOne_fuel fuel d.
Proof.
  revert fuel' d; induction fuel as [|fuel IH]; intros fuel' d Hd Hl Hf.
  { unfold len in Hl. lia. }
  destruct fuel' as [|fuel']; [lia|]. cbn [DecodeOne_fuel].
  case_match; [done|].
  pose proof (index_fuelled d 0). destruct (index d 0) as [c| |]; cbn [mbind outcome_bind];
    [|done..].
  repeat case_decide; [| | | | |done].
  1-4: split; [apply fuelled_bind; [|done]|done];
    auto using readSimpleString_fuelled, readInt64_fuelled, readBulkString_fuelled.
  unfold readArray, readLen. pose proof (readInt64_fuelled d).
  destruct (readInt64 d) as [[n p]| |] eqn:E; cbn; [|done..].
  int_pos. case_match; [|done].
  apply read_elems_ext; [apply DecodeOne_delta| |done|lia].
  intros d' Hd' Hl'. apply IH; [done|lia|lia].
Qed.

Lemma DecodeOne_fuel_eq fuel d :
  addressable d → len d < Z.of_nat fuel → DecodeOne_fuel fuel d = DecodeOne d.
Proof.
  intros. unfold DecodeOne. apply DecodeOne_enough; [done|unfold len in *; lia|].
  unfold len in *. lia.
Qed.

Lemma DecodeOne_encode v rest x :
  encodable v →
  DecodeOne (mk (Encode v false ++ rest) x)
  = Ret (DVal (norm v) (Z.of_nat (length (Encode v false)))).
Proof.
  intros Hv. unfold DecodeOne. cbn [vis]. apply decodes_encode; [done|].
  rewrite length_app. pose proof (depth_Encode v). lia.
Qed.

(** ** Theorems *)

(** C39: the decoder always returns: on every addressable buffer [DecodeOne]
    either yields a value or an error or panics; the nesting bound of the
    model is never the reason it stops, and a larger bound changes nothing. *)
Theorem DecodeOne_total d :
  addressable d →
  DecodeOne d ≠ NoFuel
  ∧ ∀ fuel, len d < Z.of_nat fuel → DecodeOne_fuel fuel d = DecodeOne d.
Proof.
  intros Hd. split; [|intros; by apply DecodeOne_fuel_eq].
  unfold DecodeOne. set (f := S _).
  by apply (DecodeOne_enough f f d Hd); [unfold f, len; lia|].
Qed.

Lemma DecodeOne_total_witness :
  addressable (of_bytes (bs "*1" ++ CRLF ++ bs "$2" ++ CRLF ++ bs "ab" ++ CRLF)) ∧
  DecodeOne (of_bytes (bs "*1" ++ CRLF ++ bs "$2" ++ CRLF ++ bs "ab" ++ CRLF)) ≠ NoFuel.
Proof.
  assert (H : addressable (of_bytes (bs "*1" ++ CRLF ++ bs "$2" ++ CRLF ++ bs "ab" ++ CRLF)))
    by (vm_compute; reflexivity).
  split; [exact H|]. exact (proj1 (DecodeOne_total _ H)).
Defined.

(** C10: decoding the encoding of an encodable value (strings, 64-bit integers,
    errors without a carriage return, and lists of these, of addressable size; not
    the nil value, whose encoding the decoder measures wrongly) gives its normal
    form, which is the value with errors as strings and string lists as arrays, and
    consumes exactly its encoding, whatever bytes follow it in the buffer. *)
Theorem decode_encode_roundtrip v rest x :
  encodable v →
  DecodeOne (mk (Encode v false ++ rest) x)
  = Ret (DVal (norm v) (Z.of_nat (length (Encode v false)))).
Proof. apply DecodeOne_encode. Qed.

Lemma decode_encode_roundtrip_witness :
  encodable (VArr [VStr (bs "GET"); VInt (-7); VErr (bs "oops")]) ∧
  DecodeOne (mk (Encode (VArr [VStr (bs "GET"); VInt (-7); VErr (bs "oops")]) false ++ bs "+x") [])
  = Ret (DVal (VArr [VStr (bs "GET"); VInt (-7); VStr (bs "oops")]) 25).
Proof.
  assert (H : encodable (VArr [VStr (bs "GET"); VInt (-7); VErr (bs "oops")])).
  { split_and!; try done. apply (bool_decide_unpack _). vm_compute. exact I. }
  split; [exact H|]. exact (decode_encode_roundtrip _ (bs "+x") [] H).
Defined.

Definition encode_command (parts : list bytes) : bytes := Encode (VArr (map VStr parts)) false.

Lemma encodable_command parts :
  encodable_strs parts → encodable (VArr (map VStr parts)).
Proof.
  intros [Hl Hs]. cbn. rewrite length_map. split; [done|].
  apply encodable_elems, Forall_map. done.
Qed.

(** A client command sent as an array of bulk strings is parsed as that
    command: the first part, in upper case, is the name, the others are the
    arguments byte for byte; bytes after the frame are ignored. *)
Lemma ParseCmd_encode_command up p ps rest x :
  encodable_strs (p :: ps) →
  ParseCmd up (mk (encode_command (p :: ps) ++ rest) x)
  = Ret (inr (mkCommand (Strings.ToUpper up p) ps)).
Proof.
  intros H. unfold ParseCmd, encode_command, Decode.
  rewrite (proj2 (Z.eqb_neq _ 0)).
  - rewrite DecodeOne_encode by (by apply encodable_command). cbn.
    rewrite !map_map. cbn. by rewrite map_id.
  - unfold len; cbn [vis Encode]. rewrite !length_app.
    pose proof (len_line_length (chr 42) (length (map VStr (p :: ps)))). lia.
Qed.

(** The encoding is prefix-free: two frames that agree on a byte stream
    carry the same value and end at the same byte, so no payload can be read
    as a different frame. *)
Lemma encode_prefix_free v w r1 r2 :
  encodable v → encodable w →
  Encode v false ++ r1 = Encode w false ++ r2 → norm v = norm w ∧ r1 = r2.
Proof.
  intros Hv Hw E. pose proof (DecodeOne_encode v r1 [] Hv) as H1.
  pose proof (DecodeOne_encode w r2 [] Hw) as H2.
  rewrite E, H2 in H1. injection H1 as Hn Hl. split; [done|].
  eapply app_inj_1, E. lia.
Qed.

Lemma encode_prefix_free_witness :
  norm (VStrs [bs "a"; bs "b"]) = norm (VArr [VStr (bs "a"); VStr (bs "b")]) ∧ bs "x" = bs "x".
Proof.
  apply (encode_prefix_free (VStrs [bs "a"; bs "b"]) (VArr [VStr (bs "a"); VStr (bs "b")])
           (bs "x") (bs "x")); [|done|vm_compute; reflexivity].
  split; [done|]. by repeat constructor.
Defined.

(** *** Ill-formed input *)

(** The bytes on which [DecodeOne] calls a reader. *)
Definition is_prefix (c : ascii) : Prop :=
  c = chr 43 ∨ c = chr 58 ∨ c = chr 45 ∨ c = chr 36 ∨ c = chr 42.

Lemma index_cases d i : (∃ c, index d i = Ret c) ∨ index d i = Panic IndexOutOfRange.
Proof. unfold index. repeat case_match; eauto. Qed.

Lemma readInt64_no_cr d : CR ∉ vis d → readInt64 d = Panic IndexOutOfRange.
Proof.
  intros Hd. unfold readInt64.
  assert (∀ i r, read_digits (drop i (vis d)) r 0 = Panic IndexOutOfRange) as Hr.
  { intros i r. apply read_digits_none. rewrite <- (take_drop i (vis d)) in Hd.
    set_solver. }
  destruct (index_cases d 1) as [[c ->]| ->]; [|done]. cbn [mbind outcome_bind].
  destruct (if decide (c = chr 45) then _ else _) as [sign pos].
  destruct (index_cases d pos) as [[c' ->]| ->]; [|done]. cbn [mbind outcome_bind].
  destruct (if decide (c' = chr 43) then _ else _) as [sign' pos'].
  by rewrite Hr.
Qed.

(** A frame that never reaches its carriage return crashes the decoder: if
    the buffer starts with one of the five type bytes and holds no '\r', the
    scan runs off the end and panics with an index out of range. *)
Lemma DecodeOne_no_cr_panics c r x :
  is_prefix c → CR ∉ r → DecodeOne (mk (c :: r) x) = Panic IndexOutOfRange.
Proof.
  intros Hc Hr. assert (CR ∉ vis (mk (c :: r) x)) as Hd.
  { cbn. apply not_elem_of_cons. split; [|done]. by destruct Hc as [->|[->|[->|[->| ->]]]]. }
  unfold DecodeOne. cbn [DecodeOne_fuel vis]. unfold len; cbn [vis length].
  rewrite (proj2 (Z.eqb_neq _ 0)) by lia. rewrite index_0. cbn [mbind outcome_bind].
  unfold readBulkString, readArray, readLen, readError, readSimpleString.
  rewrite (readInt64_no_cr _ Hd). cbn [vis drop]. rewrite skip_to_cr_none by done.
  by destruct Hc as [->|[->|[->|[->| ->]]]].
Qed.

Lemma DecodeOne_no_cr_panics_witness :
  DecodeOne (mk (chr 36 :: bs "12") []) = Panic IndexOutOfRange.
Proof.
  apply (DecodeOne_no_cr_panics (chr 36) (bs "12") []).
  - right; right; right; left. reflexivity.
  - apply (bool_decide_unpack _). vm_compute. exact I.
Defined.

(** Negative lengths: a bulk length of -1 is the null string, but any
    other negative bulk length and any negative array length (the null array
    "*-1\r\n" included) crash the decoder. *)
Lemma DecodeOne_negative_length n rest x :
  is_s64 n → n < 0 →
  DecodeOne (mk (chr 42 :: Strconv.itoa n ++ CRLF ++ rest) x) = Panic MakeSliceLen
  ∧ DecodeOne (mk (chr 36 :: Strconv.itoa n ++ CRLF ++ rest) x)
    = if n =? -1 then Ret (DVal (VStr (bs "Null value")) 7) else Panic SliceOutOfRange.
Proof.
  intros Hn Hneg. unfold DecodeOne. cbn [DecodeOne_fuel]. unfold len; cbn [vis length].
  rewrite !(proj2 (Z.eqb_neq _ 0)) by lia. rewrite !index_0. cbn [mbind outcome_bind].
  unfold readArray, readBulkString, readLen. cbn [CRLF app].
  rewrite !readInt64_itoa by done. cbn [mbind outcome_bind]. split.
  - change (make_interfaces_ok n) with ((0 <=? n) && (n * 16 <=? 281474976710656)).
    by rewrite (proj2 (Z.leb_gt 0 n)) by done.
  - do 3 rewrite decide_False by done. rewrite decide_True by done.
    destruct (Z.eqb_spec n (-1)) as [->|]; [done|].
    pose proof (Strconv.length_itoa n Hn). rewrite !s64_id by mlia.
    unfold sub. rewrite (proj2 (Z.leb_gt _ (_ + n))) by lia.
    by rewrite andb_false_r.
Qed.

(** A bulk string whose payload is cut short is not rejected: as long as
    the buffer has spare capacity the missing bytes are taken from beyond the
    data that was received. *)
Lemma bulk_reads_past_data s n rest :
  small n → (length s <= n)%nat → (n <= length s + length rest)%nat →
  DecodeOne (mk (len_line (chr 36) n ++ s) rest)
  = Ret (DVal (VStr (s ++ take (n - length s) rest))
           (Z.of_nat (length (len_line (chr 36) n) + n + 2))).
Proof.
  intros Hn Hs Hr. pose proof (length_len_line_small (chr 36) n Hn) as Hl.
  unfold DecodeOne. cbn [DecodeOne_fuel]. unfold len; cbn [vis].
  rewrite (proj2 (Z.eqb_neq _ 0)) by (rewrite length_app; cbn; lia).
  rewrite len_line_app, index_0. cbn [mbind outcome_bind].
  do 3 rewrite decide_False by done. rewrite decide_True by done.
  unfold readBulkString, readLen. rewrite readInt64_itoa by (by apply small_len_ok).
  cbn [mbind outcome_bind]. rewrite (proj2 (Z.eqb_neq _ (-1))) by lia.
  rewrite <- (length_len_line (chr 36)), <- len_line_app.
  unfold small in Hn. rewrite !s64_id by mlia.
  unfold sub, cap. cbn [vis extra]. rewrite !length_app.
  rewrite (proj2 (Z.leb_le 0 _)), (proj2 (Z.leb_le _ _)), (proj2 (Z.leb_le _ _)) by lia.
  cbn [mbind outcome_bind andb]. unfold dval; cbn [fst snd].
  rewrite Nat2Z.id, <- app_assoc, drop_app_length, take_app_ge by lia.
  do 3 f_equal; [f_equal; f_equal; lia|lia].
Qed.

End Resp.
