(* ===== verification/IntParser.v ===== *)
(** * A stricter RESP integer reader (src/cmd/test/main.go)

    The program beside the server that reads [":<number>\r\n"] with every check
    the reader of resp.go leaves out: length, prefix, digits, overflow and
    terminator.  Its grammar, and how the two readers compare. *)

From Stdlib Require Import ZArith Lia Ascii.
From stdpp Require Import base list strings numbers sets.
From S2P Require Import Prelude GoStrings Resp.

Module IntParser.
Import Slice Strconv.

Definition MaxInt64 : Z := two63 - 1.

(** The loop over the digits, on the bytes from [pos] on: the error, or the
    number read, the position after it and the number of its digits. *)
Fixpoint digit_loop (rest : bytes) (pos res digitCount : Z) : bytes + Z * Z * Z :=
  match rest with
  | [] => inr (res, pos, digitCount)
  | ch :: rest =>
      if is_digit ch then
        if Z.quot (MaxInt64 - digit_val ch) 10 <? res
        then inl (bs "integer overflow")
        else digit_loop rest (pos + 1) (s64 (s64 (res * 10) + digit_val ch)) (digitCount + 1)
      else inr (res, pos, digitCount)
  end.

(** [pos+1 >= len(data) || data[pos] != '\r' || data[pos+1] != '\n'] *)
Definition bad_terminator (data : slice) (pos : Z) : outcome bool :=
  if len data <=? pos + 1 then Ret true
  else
    c ← index data pos;
    if decide (c ≠ Resp.CR) then Ret true
    else
      c ← index data (pos + 1);
      Ret (bool_decide (c ≠ Resp.LF)).

Definition readInt64 (data : slice) : outcome (bytes + Z * Z) :=
  if len data <? 4 then Ret (inl (bs "input data too short"))
  else
    c ← index data 0;
    if decide (c ≠ chr 58) then Ret (inl (bs "invalid prefix: must start with ':'"))
    else
      let pos := 1 in
      c ← index data pos;
      let '(sign, pos) :=
        if decide (c = chr 45) then (-1, pos + 1)
        else if decide (c = chr 43) then (1, pos + 1)
        else (1, pos) in
      match digit_loop (drop (Z.to_nat pos) (vis data)) pos 0 0 with
      | inl err => Ret (inl err)
      | inr (res, pos, digitCount) =>
          if digitCount =? 0 then Ret (inl (bs "no digits found"))
          else
            bad ← bad_terminator data pos;
            if bad : bool then Ret (inl (bs "invalid terminator"))
            else Ret (inr (s64 (res * sign), pos + 2))
      end.

(** ** The digits of the input *)

Fixpoint digits (s : bytes) : bytes :=
  match s with
  | c :: s => if is_digit c then c :: digits s else []
  | [] => []
  end.

Fixpoint after_digits (s : bytes) : bytes :=
  match s with
  | c :: s' => if is_digit c then after_digits s' else s
  | [] => []
  end.

Lemma digits_split s : s = digits s ++ after_digits s.
Proof. induction s as [|c s IH]; cbn; [done|]. case_match; cbn; congruence. Qed.

Lemma digits_all s : Forall (λ c, is_digit c = true) (digits s).
Proof. induction s as [|c s IH]; cbn; [done|]. case_match; by constructor. Qed.

Lemma digits_app ds c s :
  Forall (λ c, is_digit c = true) ds → is_digit c = false →
  digits (ds ++ c :: s) = ds ∧ after_digits (ds ++ c :: s) = c :: s.
Proof.
  intros Hd Hc. induction Hd as [|d ds Hd _ [IH1 IH2]]; cbn; [by rewrite Hc|].
  by rewrite Hd, IH1, IH2.
Qed.

Lemma fold_dec_ge ds a :
  Forall (λ c, is_digit c = true) ds → 0 <= a → a <= fold_left dec_step ds a.
Proof.
  intros Hd. revert a. induction Hd as [|d ds Hd _ IH]; intros a Ha; cbn; [lia|].
  pose proof (is_digit_val d Hd). specialize (IH (dec_step a d)). unfold dec_step in *. lia.
Qed.

(** The overflow test of the loop is exact. *)
Lemma overflow_test a d :
  0 <= d < 10 → (Z.quot (MaxInt64 - d) 10 <? a) = (MaxInt64 <? a * 10 + d).
Proof.
  intros Hd. unfold MaxInt64, two63. rewrite Z.quot_div_nonneg by lia.
  apply eq_true_iff_eq. rewrite !Z.ltb_lt. Z.to_euclidean_division_equations; lia.
Qed.

Lemma digit_loop_spec s pos a cnt :
  0 <= a <= MaxInt64 →
  let v := fold_left dec_step (digits s) a in
  let k := Z.of_nat (length (digits s)) in
  digit_loop s pos a cnt =
    if MaxInt64 <? v then inl (bs "integer overflow") else inr (v, pos + k, cnt + k).
Proof.
  revert pos a cnt. induction s as [|c s IH]; intros pos a cnt Ha; cbn.
  { rewrite (proj2 (Z.ltb_ge _ _)) by lia. by rewrite !Z.add_0_r. }
  destruct (is_digit c) eqn:Hc; cbn.
  2:{ rewrite (proj2 (Z.ltb_ge _ _)) by lia. by rewrite !Z.add_0_r. }
  pose proof (is_digit_val c Hc). rewrite overflow_test by done.
  pose proof (fold_dec_ge (digits s) (dec_step a c) (digits_all s)) as Hge.
  unfold dec_step in Hge at 1 2. destruct (Z.ltb_spec MaxInt64 (a * 10 + digit_val c)).
  { by rewrite (proj2 (Z.ltb_lt _ _)) by lia. }
  rewrite s64_add_l, s64_id by (unfold MaxInt64 in *; mlia). rewrite IH by lia.
  change (a * 10 + digit_val c) with (dec_step a c). case_match; [done|].
  do 2 f_equal; [f_equal|]; lia.
Qed.

(** ** The reader as a function of the text *)

Definition sign_of (s : bytes) : Z * nat :=
  match s with
  | c :: _ => if decide (c = chr 45) then (-1, 1%nat)
              else if decide (c = chr 43) then (1, 1%nat) else (1, 0%nat)
  | [] => (1, 0%nat)
  end.

Definition starts_crlf (s : bytes) : bool :=
  match s with
  | c :: d :: _ => bool_decide (c = Resp.CR) && bool_decide (d = Resp.LF)
  | _ => false
  end.

Definition reference (b : bytes) : bytes + Z * Z :=
  match b with
  | c :: s =>
      if Z.of_nat (length b) <? 4 then inl (bs "input data too short")
      else if decide (c ≠ chr 58) then inl (bs "invalid prefix: must start with ':'")
      else
        let '(sg, k) := sign_of s in
        let t := drop k s in
        let v := dec_value (digits t) in
        if MaxInt64 <? v then inl (bs "integer overflow")
        else if decide (digits t = []) then inl (bs "no digits found")
        else if starts_crlf (after_digits t)
             then inr (v * sg, Z.of_nat (1 + k + length (digits t) + 2))
             else inl (bs "invalid terminator")
  | [] => inl (bs "input data too short")
  end.

Lemma terminator_at pre s x pos :
  pos = Z.of_nat (length pre) →
  bad_terminator (mk (pre ++ s) x) pos = Ret (negb (starts_crlf s)).
Proof.
  intros ->. unfold bad_terminator, len; cbn. rewrite length_app.
  destruct s as [|c [|d s]]; cbn.
  1,2: by rewrite (proj2 (Z.leb_le _ _)) by lia.
  rewrite (proj2 (Z.leb_gt _ _)) by lia. rewrite (index_app pre _ _ _ (Z.of_nat (length pre))) by done. cbn.
  destruct (decide (c ≠ Resp.CR)) as [Hc|Hc].
  { by rewrite bool_decide_eq_false_2 by done. }
  rewrite cons_middle, (app_assoc pre), index_app by (rewrite length_app; cbn; lia).
  cbn. apply dec_stable in Hc as ->. rewrite (bool_decide_eq_true_2 (Resp.CR = _)) by done.
  cbn. f_equal. destruct (decide (d = Resp.LF)) as [->|]; by repeat case_bool_decide.
Qed.

(** What the reader does once the sign has been read. *)
Lemma after_sign pre t x sg :
  sg = 1 ∨ sg = -1 →
  (match digit_loop t (Z.of_nat (length pre)) 0 0 with
   | inl err => Ret (inl err)
   | inr (res, pos, digitCount) =>
       if digitCount =? 0 then Ret (inl (bs "no digits found"))
       else
         bad ← bad_terminator (mk (pre ++ t) x) pos;
         if bad : bool then Ret (inl (bs "invalid terminator"))
         else Ret (inr (s64 (res * sg), pos + 2))
   end)
  = Ret (if MaxInt64 <? dec_value (digits t) then inl (bs "integer overflow")
         else if decide (digits t = []) then inl (bs "no digits found")
         else if starts_crlf (after_digits t)
              then inr (dec_value (digits t) * sg, Z.of_nat (length pre + length (digits t) + 2))
              else inl (bs "invalid terminator")).
Proof.
  intros Hsg. rewrite digit_loop_spec by (unfold MaxInt64; mlia). fold (dec_value (digits t)).
  destruct (Z.ltb_spec MaxInt64 (dec_value (digits t))) as [|Hv]; [done|]. rewrite Z.add_0_l.
  destruct (decide (digits t = [])) as [->|Hne]; [done|].
  rewrite (proj2 (Z.eqb_neq _ _)) by (destruct (digits t); cbn; [done|lia]).
  rewrite (digits_split t) at 1. rewrite app_assoc, terminator_at by (rewrite length_app; lia).
  cbn. destruct (starts_crlf (after_digits t)); [|done]. cbn.
  pose proof (dec_value_nonneg _ (digits_all t)).
  rewrite s64_id by (unfold MaxInt64 in *; destruct Hsg as [->| ->]; mlia).
  do 3 f_equal. lia.
Qed.

Lemma readInt64_reference b x : readInt64 (mk b x) = Ret (reference b).
Proof.
  unfold readInt64, reference. unfold len at 1; cbn [vis].
  destruct (Z.ltb_spec (Z.of_nat (length b)) 4) as [Hl|Hl]; [by destruct b|].
  destruct b as [|c [|d s]]; [cbn in Hl; lia..|]. rewrite Resp.index_0. cbn [mbind outcome_bind].
  case_decide; [done|]. rewrite Resp.index_1. cbn [mbind outcome_bind sign_of].
  case_decide; [|case_decide].
  - apply (after_sign [c; d] s x (-1)). by right.
  - apply (after_sign [c; d] s x 1). by left.
  - apply (after_sign [c] (d :: s) x 1). by left.
Qed.

(** ** The grammar *)

Definition sign_text (sgn : bytes) : option Z :=
  if decide (sgn = []) then Some 1
  else if decide (sgn = [chr 45]) then Some (-1)
  else if decide (sgn = [chr 43]) then Some 1
  else None.

(** [b] starts with a well-formed line of value [n] and length [k]. *)
Definition integer_line (b : bytes) (n k : Z) : Prop :=
  ∃ sgn sg ds rest,
    b = chr 58 :: sgn ++ ds ++ Resp.CR :: Resp.LF :: rest
    ∧ sign_text sgn = Some sg ∧ ds ≠ [] ∧ Forall (λ c, is_digit c = true) ds
    ∧ dec_value ds <= MaxInt64 ∧ n = dec_value ds * sg
    ∧ k = Z.of_nat (1 + length sgn + length ds + 2).

Lemma starts_crlf_inv s : starts_crlf s = true ↔ ∃ rest, s = Resp.CR :: Resp.LF :: rest.
Proof.
  split; [|by intros [rest ->]]. destruct s as [|c [|d s]]; cbn; try done.
  intros [->%bool_decide_eq_true ->%bool_decide_eq_true]%andb_true_iff. eauto.
Qed.

Lemma sign_of_text s :
  ∃ sgn, sign_text sgn = Some (sign_of s).1 ∧ length sgn = (sign_of s).2
         ∧ s = sgn ++ drop (sign_of s).2 s.
Proof.
  destruct s as [|c s]; [by exists []|]. cbn.
  destruct (decide (c = chr 45)) as [->|]; [by exists [chr 45]|].
  destruct (decide (c = chr 43)) as [->|]; [by exists [chr 43]|]. by exists [].
Qed.

Lemma sign_of_app sgn sg c s :
  sign_text sgn = Some sg → is_digit c = true → sign_of (sgn ++ c :: s) = (sg, length sgn).
Proof.
  intros Hs Hc. apply digit_not_sign in Hc as (H1 & H2 & _). unfold sign_text in Hs.
  assert (c ≠ chr 45 ∧ c ≠ chr 43) as [? ?] by (split; intros ->; done).
  destruct (decide (sgn = [])) as [->|]; [simplify_eq; cbn; by rewrite !decide_False by done|].
  destruct (decide (sgn = _)) as [->|]; [by simplify_eq|].
  destruct (decide (sgn = _)) as [->|]; by simplify_eq.
Qed.

Lemma reference_accepts b n k : reference b = inr (n, k) → integer_line b n k.
Proof.
  unfold reference. destruct b as [|c s]; [done|]. case_match; [done|].
  destruct (decide (c ≠ chr 58)) as [|Hc]; [done|]. apply dec_stable in Hc as ->.
  destruct (sign_of_text s) as (sgn & Hsg & Hlen & Hs).
  destruct (sign_of s) as [sg j] eqn:E. cbn in *.
  destruct (Z.ltb_spec MaxInt64 (dec_value (digits (drop j s)))); [done|].
  destruct (decide (digits _ = [])); [done|].
  destruct (starts_crlf _) eqn:Ht; [|done]. intros [= <- <-].
  apply starts_crlf_inv in Ht as [rest Hr].
  exists sgn, sg, (digits (drop j s)), rest. split_and!; try done; [|by apply digits_all|lia].
  rewrite Hs at 1. f_equal. f_equal. by rewrite (digits_split (drop j s)) at 1; rewrite Hr.
Qed.

Lemma reference_line b n k : integer_line b n k → reference b = inr (n, k).
Proof.
  intros (sgn & sg & ds & rest & -> & Hsg & Hne & Hd & Hv & -> & ->). unfold reference.
  destruct ds as [|d ds]; [done|]. pose proof (Forall_cons_1 _ _ _ Hd) as [Hd0 _].
  rewrite (proj2 (Z.ltb_ge (Z.of_nat _) 4)) by (cbn [length]; rewrite !length_app; cbn [length]; lia).
  rewrite decide_False by (intros H; by apply H).
  rewrite <- app_comm_cons, (sign_of_app sgn sg) by done. rewrite drop_app_length, app_comm_cons.
  destruct (digits_app (d :: ds) Resp.CR (Resp.LF :: rest) Hd eq_refl) as [-> ->].
  rewrite (proj2 (Z.ltb_ge _ _)) by lia. rewrite decide_False by done. cbn -[Z.of_nat].
  do 2 f_equal.
Qed.

Lemma readInt64_line b x n k : readInt64 (mk b x) = Ret (inr (n, k)) ↔ integer_line b n k.
Proof.
  rewrite readInt64_reference. split.
  - intros [= H]. by apply reference_accepts.
  - intros H. by rewrite (reference_line b n k).
Qed.

(** C38: the strict reader never crashes, accepts exactly the lines
    [":" sign? digits "\r\n"] whose magnitude is at most [math.MaxInt64], and
    returns their value and length. *)
Theorem readInt64_exact b x :
  (∃ r, readInt64 (mk b x) = Ret r)
  ∧ ∀ n k, readInt64 (mk b x) = Ret (inr (n, k)) ↔ integer_line b n k.
Proof.
  split; [|by apply readInt64_line]. rewrite readInt64_reference. by eexists.
Qed.

(** ** Compared with the reader of resp.go *)

Lemma resp_reads_line b x n k :
  integer_line b n k → Resp.readInt64 (mk b x) = Ret (n, k).
Proof.
  intros (sgn & sg & ds & rest & -> & Hsg & Hne & Hd & Hv & -> & ->).
  destruct ds as [|d ds]; [done|].
  destruct (Resp.digits_head_not_sign _ _ Hd) as [? ?].
  pose proof (dec_value_nonneg _ Hd) as Hpos.
  assert (is_s64 (dec_value (d :: ds) * sg) ∧ is_s64 (dec_value (d :: ds))) as [Hr1 Hr2].
  { unfold sign_text in Hsg. unfold MaxInt64 in Hv. repeat case_decide; simplify_eq; mlia. }
  assert (∀ pos t, drop (Z.to_nat pos) t = (d :: ds) ++ Resp.CR :: Resp.LF :: rest →
    ('(res, pos') ← Resp.read_digits (drop (Z.to_nat pos) t) pos 0;
     Ret (s64 (res * sg), pos' + 2))
    = Ret (dec_value (d :: ds) * sg, pos + Z.of_nat (length (d :: ds)) + 2)) as Hgo.
  { intros pos t ->. rewrite Resp.read_digits_value by done. cbn [mbind outcome_bind].
    by rewrite s64_mul_l, (s64_id _ Hr1). }
  unfold Resp.readInt64. unfold sign_text in Hsg.
  destruct (decide (sgn = [])) as [->|]; [|destruct (decide (sgn = _)) as [->|];
    [|destruct (decide (sgn = _)) as [->|]; [|done]]]; simplify_eq;
    cbn [app]; rewrite Resp.index_1; cbn [mbind outcome_bind].
  - rewrite decide_False by done. rewrite Resp.index_1. cbn [mbind outcome_bind].
    rewrite decide_False by done. rewrite Hgo by done. do 2 f_equal; cbn [length]; lia.
  - rewrite decide_True by done. change (index _ (1 + 1)) with (Ret d).
    cbn [mbind outcome_bind]. rewrite decide_False by done. rewrite Hgo by done.
    do 2 f_equal; cbn [length]; lia.
  - rewrite decide_False by done. rewrite Resp.index_1. cbn [mbind outcome_bind].
    rewrite decide_True by done. rewrite Hgo by done. do 2 f_equal; cbn [length]; lia.
Qed.

Lemma itoa_line n rest :
  - MaxInt64 <= n <= MaxInt64 →
  integer_line (chr 58 :: itoa n ++ Resp.CR :: Resp.LF :: rest) n
    (Z.of_nat (length (itoa n)) + 3).
Proof.
  intros Hn. unfold itoa. destruct (Z.ltb_spec n 0).
  - exists [chr 45], (-1), (utoa (- n)), rest. rewrite utoa_value by lia.
    split_and!; try done; [by apply utoa_nonempty; lia|by apply utoa_digits; lia|lia..|cbn; lia].
  - exists [], 1, (utoa n), rest. rewrite utoa_value by lia.
    split_and!; try done; [by apply utoa_nonempty|by apply utoa_digits|lia..|cbn; lia].
Qed.

(** What the strict reader accepts, the reader of resp.go reads alike. *)
Lemma readers_agree b x n k :
  readInt64 (mk b x) = Ret (inr (n, k)) → Resp.readInt64 (mk b x) = Ret (n, k).
Proof. rewrite readInt64_line. apply resp_reads_line. Qed.

Lemma readers_agree_witness :
  readInt64 (of_bytes (bs ":-456" ++ Resp.CRLF)) = Ret (inr (-456, 7))
  ∧ Resp.readInt64 (of_bytes (bs ":-456" ++ Resp.CRLF)) = Ret (-456, 7).
Proof.
  split; [by vm_compute|]. apply (readers_agree (bs ":-456" ++ Resp.CRLF) [] (-456) 7).
  by vm_compute.
Defined.

(** The reader of the server wraps where the strict one reports an overflow, and
    the strict one refuses [math.MinInt64], which the server prints and reads. *)
Lemma readers_differ :
  readInt64 (of_bytes (bs ":9223372036854775808" ++ Resp.CRLF))
    = Ret (inl (bs "integer overflow"))
  ∧ Resp.readInt64 (of_bytes (bs ":9223372036854775808" ++ Resp.CRLF)) = Ret (- two63, 22)
  ∧ readInt64 (of_bytes (bs ":-9223372036854775808" ++ Resp.CRLF))
    = Ret (inl (bs "integer overflow"))
  ∧ Resp.readInt64 (of_bytes (bs ":-9223372036854775808" ++ Resp.CRLF)) = Ret (- two63, 23).
Proof. by vm_compute. Qed.

(** ** The program's own inputs *)

Definition hex_digit (n : Z) : ascii := if n <? 10 then chr (48 + n) else chr (87 + n).

(** [fmt]'s [%q] on the bytes below 128. *)
Definition quote_char (c : ascii) : bytes :=
  if decide (c = chr 34) then bs "\" ++ [chr 34]
  else if decide (c = chr 92) then bs "\\"
  else if decide (c = chr 7) then bs "\a" else if decide (c = chr 8) then bs "\b"
  else if decide (c = chr 12) then bs "\f" else if decide (c = chr 10) then bs "\n"
  else if decide (c = chr 13) then bs "\r" else if decide (c = chr 9) then bs "\t"
  else if decide (c = chr 11) then bs "\v"
  else if (32 <=? code c) && (code c <? 127) then [c]
  else bs "\x" ++ [hex_digit (code c / 16); hex_digit (code c mod 16)].

Definition quote (s : bytes) : bytes := [chr 34] ++ (s ≫= quote_char) ++ [chr 34].

Definition tests : list bytes :=
  (λ s, bs s ++ Resp.CRLF) <$> [":123"; ":-456"; ":+789"; ":"; ":9223372036854775808"]%string.

(** A line of [main]'s output, the line feed left out. *)
Definition report (input : bytes) : outcome bytes :=
  r ← readInt64 (of_bytes input);
  Ret (bs "Input " ++ quote input ++
       match r with
       | inl err => bs " -> Error: " ++ err
       | inr (num, n) => bs " -> Number: " ++ itoa num ++ bs ", Bytes read: " ++ itoa n
       end).

Fixpoint main_loop (inputs : list bytes) : outcome (list bytes) :=
  match inputs with
  | [] => Ret []
  | input :: inputs => line ← report input; lines ← main_loop inputs; Ret (line :: lines)
  end.

Definition main : outcome (list bytes) := main_loop tests.

(** The program accepts the three numbers and rejects the other two, as its
    comments say. *)
Example main_output :
  main = Ret ((λ '(a, b), bs "Input " ++ [chr 34] ++ bs a ++ [chr 34] ++ bs " -> " ++ bs b) <$>
    [(":123\r\n", "Number: 123, Bytes read: 6"); (":-456\r\n", "Number: -456, Bytes read: 7");
     (":+789\r\n", "Number: 789, Bytes read: 7"); (":\r\n", "Error: input data too short");
     (":9223372036854775808\r\n", "Error: integer overflow")]%string).
Proof. vm_compute. reflexivity. Qed.

End IntParser.
