(* ===== verification/GoFloat.v ===== *)
(** * [float64]: IEEE 754 binary64 as Go uses it

    Values are the [spec_float]s of the standard library (sign, mantissa,
    exponent, infinities, NaN), operations its correctly rounded ones at
    precision 53 and maximal exponent 1024.  Parsing ([strconv.ParseFloat])
    and printing ([fmt]'s [%f]) are exact-rational computations rounded once,
    as the documentation of package [strconv] promises. *)

From Stdlib Require Import ZArith Lia Ascii.
From Stdlib Require Import SpecFloat.
From stdpp Require Import base list strings numbers.
From S2P Require Import Prelude GoStrings.

Module F64.

Abbreviation float64 := spec_float.

Definition prec : Z := 53.
Definition emax : Z := 1024.

Definition mul : float64 → float64 → float64 := SFmul prec emax.
Definition div : float64 → float64 → float64 := SFdiv prec emax.
Definition abs : float64 → float64 := SFabs.
Definition opp : float64 → float64 := SFopp.

(** The comparison operators of the language: all false on NaN. *)
Definition ltb (x y : float64) : bool := SFltb x y.
Definition gtb (x y : float64) : bool := SFltb y x.
Definition leb (x y : float64) : bool := SFleb x y.
Definition geb (x y : float64) : bool := SFleb y x.
Definition eqb (x y : float64) : bool := SFeqb x y.

Definition is_nan (x : float64) : bool :=
  match x with S754_nan => true | _ => false end.

(** [float64(z)] *)
Definition of_Z (z : Z) : float64 := binary_normalize prec emax z 0 false.

(** The exact quotient [m / d] rounded to nearest even. *)
Definition of_ratio (neg : bool) (m d : positive) : float64 :=
  let '(mz, ez, lz) := SFdiv_core_binary prec emax (Z.pos m) 0 (Z.pos d) 0 in
  binary_round_aux prec emax neg mz ez lz.

(** Truncation towards zero of a finite value. *)
Definition trunc (x : float64) : option Z :=
  match x with
  | S754_zero _ => Some 0
  | S754_finite s m e =>
      let a := if 0 <=? e then Z.pos m * 2 ^ e else Z.pos m / 2 ^ (- e) in
      Some (if s then - a else a)
  | _ => None
  end.

(** [int64(x)]: outside the range (and on NaN) the amd64 instruction yields
    the smallest integer. *)
Definition to_int64 (x : float64) : Z :=
  match trunc x with
  | Some z => if (- two63 <=? z) && (z <? two63) then z else - two63
  | None => - two63
  end.

(** [uint64(x)]: values in range are truncated; the rest is
    implementation-defined by the language. *)
Definition to_uint64 (x : float64) : Z :=
  match trunc x with
  | Some z => if (- two63 <=? z) && (z <? two64) then u64 z else two63
  | None => two63
  end.

(** [math.Ceil] *)
Definition ceil (x : float64) : float64 :=
  match x with
  | S754_finite s m e =>
      if 0 <=? e then x
      else let d := 2 ^ (- e) in
           let z := if s then - (Z.pos m / d) else - ((- Z.pos m) / d) in
           binary_normalize prec emax z 0 s
  | _ => x
  end.

(** ** [strconv.ParseFloat(s, 64)]

    [None] is a non-nil error: bad syntax, or a magnitude that rounds to
    infinity. *)

Definition lower (c : ascii) : Z := Z.lor (code c) 32.

Definition hex_digit (c : ascii) : option Z :=
  if Strconv.is_digit c then Some (Strconv.digit_val c)
  else if (97 <=? lower c) && (lower c <=? 102) then Some (lower c - 87) else None.

(** The mantissa loop of [readFloat]: the digits read so far as an integer,
    how many of them follow the point, and what was seen. *)
Record mant := mkMant { m_val : Z; m_frac : Z; m_dot : bool; m_digits : bool; m_us : bool }.

Fixpoint read_mant (hex : bool) (s : bytes) (m : mant) : mant * bytes :=
  let base := if hex then 16 else 10 in
  match s with
  | [] => (m, [])
  | c :: s' =>
      if code c =? 95
      then read_mant hex s' (mkMant (m_val m) (m_frac m) (m_dot m) (m_digits m) true)
      else if code c =? 46
      then (if m_dot m then (m, s)
            else read_mant hex s' (mkMant (m_val m) (m_frac m) true (m_digits m) (m_us m)))
      else
        match (if hex then hex_digit c
               else if Strconv.is_digit c then Some (Strconv.digit_val c) else None) with
        | Some v =>
            read_mant hex s'
              (mkMant (m_val m * base + v) (m_frac m + (if m_dot m then 1 else 0))
                      (m_dot m) true (m_us m))
        | None => (m, s)
        end
  end.

(** Exponent digits; the accumulator stops growing at 10000. *)
Fixpoint read_exp (s : bytes) (e : Z) (us : bool) : Z * bool * bytes :=
  match s with
  | [] => (e, us, [])
  | c :: s' =>
      if code c =? 95 then read_exp s' e true
      else if Strconv.is_digit c
      then read_exp s' (if e <? 10000 then e * 10 + Strconv.digit_val c else e) us
      else (e, us, s)
  end.

(** [underscoreOK] on the text after the sign and base prefix: every
    underscore lies between digits (or after the prefix). [last] is the class
    of the previous byte: 0 start, 1 digit or prefix, 2 underscore, 3 other. *)
Fixpoint underscore_ok (hex : bool) (s : bytes) (last : Z) : bool :=
  match s with
  | [] => negb (last =? 2)
  | c :: s' =>
      if Strconv.is_digit c || (hex && match hex_digit c with Some _ => true | _ => false end)
      then underscore_ok hex s' 1
      else if code c =? 95 then (last =? 1) && underscore_ok hex s' 2
      else negb (last =? 2) && underscore_ok hex s' 3
  end.

(** Rounded value of [m * 10^x]; far out of range the power is not formed. *)
Definition scale10 (neg : bool) (m : Z) (x : Z) : float64 :=
  match m with
  | Z.pos p =>
      if 400 <? x then S754_infinity neg
      else if x <? - 400 - Z.log2 m then S754_zero neg
      else if 0 <=? x then binary_round prec emax neg (p * Z.to_pos (10 ^ x)) 0
      else of_ratio neg p (Z.to_pos (10 ^ (- x)))
  | _ => S754_zero neg
  end.

Definition scale2 (neg : bool) (m : Z) (x : Z) : float64 :=
  match m with
  | Z.pos p =>
      if x <? - 1200 - Z.log2 m then S754_zero neg
      else if 1200 <? x then S754_infinity neg
      else binary_round prec emax neg p x
  | _ => S754_zero neg
  end.

Definition lower_bytes (s : bytes) : list Z := lower <$> s.
Definition word (s : string) : list Z := code <$> bs s.

Definition split_sign (s : bytes) : bool * bytes :=
  match s with
  | c :: s' =>
      if code c =? 45 then (true, s') else if code c =? 43 then (false, s') else (false, s)
  | [] => (false, s)
  end.

(** "inf", "infinity" (optionally signed) and "nan", in any case. *)
Definition special (s : bytes) : option float64 :=
  let '(neg, body) := split_sign s in
  if bool_decide (lower_bytes body = word "inf" ∨ lower_bytes body = word "infinity")
  then Some (S754_infinity neg)
  else if bool_decide (lower_bytes s = word "nan") then Some S754_nan
  else None.

Definition in_range (x : float64) : option float64 :=
  match x with S754_infinity _ => None | _ => Some x end.

Definition ParseFloat (s : bytes) : option float64 :=
  match special s with
  | Some f => Some f
  | None =>
    let '(neg, body) := split_sign s in
    let '(hex, body') :=
      match body with
      | c0 :: c1 :: (_ :: _) as t =>
          if (code c0 =? 48) && (lower c1 =? 120) then (true, drop 2 body) else (false, body)
      | _ => (false, body)
      end in
    let '(m, rest) := read_mant hex body' (mkMant 0 0 false false false) in
    if negb (m_digits m) then None
    else
      let exp_char := if hex then 112 else 101 in
      let parsed :=
        match rest with
        | c :: r =>
            if lower c =? exp_char then
              let '(eneg, r') := split_sign r in
              match r' with
              | d :: _ =>
                  if Strconv.is_digit d then
                    let '(e, us, r'') := read_exp r' 0 false in
                    Some (if eneg then - e else e, us, r'')
                  else None
              | [] => None
              end
            else if hex then None else Some (0, false, rest)
        | [] => if hex then None else Some (0, false, rest)
        end in
      match parsed with
      | Some (e, us, []) =>
          if (m_us m || us) && negb (underscore_ok hex body' (if hex then 1 else 0))
          then None
          else in_range (if hex then scale2 neg (m_val m) (e - 4 * m_frac m)
                         else scale10 neg (m_val m) (e - m_frac m))
      | _ => None
      end
  end.

(** ** [fmt.Sprintf("%f", x)]: six decimals, ties to even. *)

Definition div_half_even (a d : Z) : Z :=
  let q := a / d in
  let r := a mod d in
  if 2 * r <? d then q
  else if d <? 2 * r then q + 1
  else if Z.even q then q else q + 1.

Definition pad6 (s : bytes) : bytes := replicate (6 - length s) (chr 48) ++ s.

Definition Sprintf_f (x : float64) : bytes :=
  match x with
  | S754_nan => bs "NaN"
  | S754_infinity s => if s then bs "-Inf" else bs "+Inf"
  | S754_zero s => (if s then bs "-" else []) ++ bs "0.000000"
  | S754_finite s m e =>
      let a := if 0 <=? e then Z.pos m * 2 ^ e * 1000000
               else div_half_even (Z.pos m * 1000000) (2 ^ (- e)) in
      (if s then bs "-" else [])
      ++ Strconv.utoa (a / 1000000) ++ bs "." ++ pad6 (Strconv.utoa (a mod 1000000))
  end.

(** ** Order

    [leb] is a total preorder on the values that are not NaN. *)

Lemma compare_antisym x y :
  SFcompare y x = CompOpp <$> SFcompare x y.
Proof.
  destruct x as [s|s| |s m e], y as [s'|s'| |s' m' e']; cbn; try done;
    try (by destruct s); try (by destruct s').
  - by destruct s, s'.
  - f_equal. rewrite (Z.compare_antisym e e').
    change (Pos.compare_cont Eq m' m) with (Pos.compare m' m).
    change (Pos.compare_cont Eq m m') with (Pos.compare m m').
    rewrite (Pos.compare_antisym m m').
    destruct s, s', (e ?= e'); cbn; try done; by destruct (m ?= m')%positive.
Qed.

(** An integer that orders the floats: sign, then exponent and mantissa,
    lexicographically, encoded as a pair. *)
Definition rank (x : float64) : option (Z * Z * Z) :=
  match x with
  | S754_nan => None
  | S754_infinity s => Some (if s then (-2, 0, 0) else (2, 0, 0))
  | S754_zero _ => Some (0, 0, 0)
  | S754_finite s m e => Some (if s then (-1, - e, - Z.pos m) else (1, e, Z.pos m))
  end.

Definition cmp3 (a b : Z * Z * Z) : comparison :=
  match Z.compare a.1.1 b.1.1 with
  | Eq => match Z.compare a.1.2 b.1.2 with Eq => Z.compare a.2 b.2 | c => c end
  | c => c
  end.

Lemma compare_rank x y :
  SFcompare x y = match rank x, rank y with
                  | Some a, Some b => Some (cmp3 a b)
                  | _, _ => None
                  end.
Proof.
  destruct x as [s|s| |s m e], y as [s'|s'| |s' m' e']; cbn; try done;
    repeat match goal with b : bool |- _ => destruct b end; cbn; try done.
  unfold cmp3; cbn. rewrite (Z.compare_opp e e'), (Z.compare_antisym e e').
  by destruct (e ?= e').
Qed.

Lemma cmp3_trans a b c :
  cmp3 a b ≠ Gt → cmp3 b c ≠ Gt →
  cmp3 a c ≠ Gt ∧ (cmp3 a c = Eq → cmp3 a b = Eq ∧ cmp3 b c = Eq).
Proof.
  destruct a as [[a1 a2] a3], b as [[b1 b2] b3], c as [[c1 c2] c3]; unfold cmp3; cbn.
  destruct (Z.compare_spec a1 b1), (Z.compare_spec b1 c1), (Z.compare_spec a1 c1);
    try lia; try done;
  destruct (Z.compare_spec a2 b2), (Z.compare_spec b2 c2), (Z.compare_spec a2 c2);
    try lia; try done;
  destruct (Z.compare_spec a3 b3), (Z.compare_spec b3 c3), (Z.compare_spec a3 c3);
    try lia; try done.
Qed.

Lemma leb_rank x y :
  leb x y = match rank x, rank y with
            | Some a, Some b => match cmp3 a b with Gt => false | _ => true end
            | _, _ => false
            end.
Proof.
  unfold leb, SFleb. rewrite compare_rank. by destruct (rank x), (rank y).
Qed.

Lemma ltb_rank x y :
  ltb x y = match rank x, rank y with
            | Some a, Some b => match cmp3 a b with Lt => true | _ => false end
            | _, _ => false
            end.
Proof.
  unfold ltb, SFltb. rewrite compare_rank. by destruct (rank x), (rank y).
Qed.

Lemma eqb_rank x y :
  eqb x y = match rank x, rank y with
            | Some a, Some b => match cmp3 a b with Eq => true | _ => false end
            | _, _ => false
            end.
Proof.
  unfold eqb, SFeqb. rewrite compare_rank. by destruct (rank x), (rank y).
Qed.

Lemma leb_trans x y z : leb x y = true → leb y z = true → leb x z = true.
Proof.
  rewrite !leb_rank. destruct (rank x) as [a|], (rank y) as [b|], (rank z) as [c|]; try done.
  pose proof (cmp3_trans a b c). destruct (cmp3 a b), (cmp3 b c), (cmp3 a c); naive_solver.
Qed.

Lemma ltb_leb_trans x y z : ltb x y = true → leb y z = true → ltb x z = true.
Proof.
  rewrite !leb_rank, !ltb_rank.
  destruct (rank x) as [a|], (rank y) as [b|], (rank z) as [c|]; try done.
  pose proof (cmp3_trans a b c). destruct (cmp3 a b), (cmp3 b c), (cmp3 a c); naive_solver.
Qed.

Lemma leb_ltb_trans x y z : leb x y = true → ltb y z = true → ltb x z = true.
Proof.
  rewrite !leb_rank, !ltb_rank.
  destruct (rank x) as [a|], (rank y) as [b|], (rank z) as [c|]; try done.
  pose proof (cmp3_trans a b c). destruct (cmp3 a b), (cmp3 b c), (cmp3 a c); naive_solver.
Qed.

Lemma ltb_leb x y : ltb x y = true → leb x y = true.
Proof.
  rewrite leb_rank, ltb_rank. destruct (rank x), (rank y); try done. by destruct (cmp3 _ _).
Qed.

Lemma leb_refl x : is_nan x = false → leb x x = true.
Proof.
  rewrite leb_rank. destruct x; try done; intros _; unfold rank, cmp3; cbn;
    rewrite ?Z.compare_refl; cbn; try done; by destruct s; rewrite ?Z.compare_refl.
Qed.

(** Two numbers are ordered one way or the other. *)
Lemma ltb_or_leb x y :
  is_nan x = false → is_nan y = false → ltb x y = true ∨ leb y x = true.
Proof.
  unfold ltb, leb, SFltb, SFleb. rewrite (compare_antisym x y), compare_rank.
  destruct x, y; try done; intros _ _; cbn [rank]; destruct (cmp3 _ _); cbn; auto.
Qed.

Lemma eqb_sym x y : eqb x y = eqb y x.
Proof.
  unfold eqb, SFeqb. rewrite (compare_antisym y x). by destruct (SFcompare y x) as [[]|].
Qed.

Lemma ltb_or_eqb x y :
  is_nan x = false → is_nan y = false →
  ltb x y = true ∨ eqb x y = true ∨ ltb y x = true.
Proof.
  unfold ltb, eqb, SFltb, SFeqb. rewrite (compare_antisym x y), compare_rank.
  destruct x, y; try done; intros _ _; cbn [rank]; destruct (cmp3 _ _); cbn; auto.
Qed.

Lemma ltb_not_leb x y : ltb x y = true → leb y x = false.
Proof.
  unfold ltb, leb, SFltb, SFleb. rewrite (compare_antisym x y).
  destruct (SFcompare x y) as [[]|]; done.
Qed.

Lemma eqb_refl x : is_nan x = false → eqb x x = true.
Proof.
  intros H. destruct (ltb_or_eqb x x) as [E|[E|E]]; try done;
    apply ltb_not_leb in E; by rewrite leb_refl in E.
Qed.

End F64.
