(* ===== verification/Config.v ===== *)
(** * Configuration and constants
    (src/internal/config/config.go, src/internal/constant/constant.go)

    The process environment is the function [env] ([os.Getenv]: the empty
    string for an unset variable). *)

From Stdlib Require Import ZArith Lia Ascii.
From Stdlib Require Import SpecFloat.
From stdpp Require Import base list strings numbers.
From S2P Require Import Prelude GoStrings GoFloat Resp.

Module Config.
Import F64.

Section Env.
Context (env : bytes → bytes).

Definition getEnv (key defaultValue : bytes) : bytes :=
  let value := env key in
  if bool_decide (value ≠ []) then value else defaultValue.

Definition getEnvAsFloat (key : bytes) (defaultValue : float64) : float64 :=
  let value := env key in
  if bool_decide (value ≠ []) then
    match ParseFloat value with
    | Some floatValue => floatValue
    | None => defaultValue
    end
  else defaultValue.

Definition getEnvAsInt (key : bytes) (defaultValue : Z) : Z :=
  let value := env key in
  if bool_decide (value ≠ []) then
    match Strconv.ParseInt value with
    | Some intValue => intValue
    | None => defaultValue
    end
  else defaultValue.

(** The package variables the key space reads. *)
Record config := mkConfig {
  Protocol : bytes;
  Port : bytes;
  MaxConnection : Z;
  MaxKeyNumber : Z;
  EvictionRatio : float64;
  EvictionPolicy : bytes;
  EpoolMaxSize : Z;
  EpoolLRUSampleSize : Z
}.

Definition zero_point_one : float64 := of_ratio false 1 10.

Definition load : config := {|
  Protocol := getEnv (bs "REDIS_PROTOCOL") (bs "tcp");
  Port := getEnv (bs "REDIS_PORT") (bs ":6379");
  MaxConnection := getEnvAsInt (bs "REDIS_MAX_CONNECTION") 20000;
  MaxKeyNumber := getEnvAsInt (bs "REDIS_MAX_KEY_NUMBER") 1000000;
  EvictionRatio := getEnvAsFloat (bs "REDIS_EVICTION_RATIO") zero_point_one;
  EvictionPolicy := getEnv (bs "REDIS_EVICTION_POLICY") (bs "allkeys-random");
  EpoolMaxSize := getEnvAsInt (bs "REDIS_EPOOL_MAX_SIZE") 16;
  EpoolLRUSampleSize := getEnvAsInt (bs "REDIS_EPOOL_LRU_SAMPLE_SIZE") 5
|}.

(** The package variables the gateway reads, and the number of listeners of
    the multi-listener server.  Timeouts are in seconds. *)
Record gateway_config := mkGateway {
  HTTPPort : bytes;
  HTTPReadTimeout : Z;
  HTTPWriteTimeout : Z;
  ListenerNumber : Z;
  RedisConnTimeout : Z;
  RedisRWTimeout : Z;
  RedisAddr : bytes
}.

Definition load_gateway : gateway_config := {|
  HTTPPort := getEnv (bs "HTTP_PORT") (bs ":8080");
  HTTPReadTimeout := getEnvAsInt (bs "HTTP_READ_TIMEOUT") 15;
  HTTPWriteTimeout := getEnvAsInt (bs "HTTP_WRITE_TIMEOUT") 15;
  ListenerNumber := getEnvAsInt (bs "LISTENER_NUM") 4;
  RedisConnTimeout := getEnvAsInt (bs "REDIS_CONN_TIMEOUT") 5;
  RedisRWTimeout := getEnvAsInt (bs "REDIS_RW_TIMEOUT") 10;
  RedisAddr := getEnv (bs "REDIS_ADDR") (bs "localhost:6379")
|}.

End Env.

(** The configuration of a process started with an empty environment. *)
Definition default : config := load (λ _, []).

(** [int64(config.EvictionRatio * float64(config.MaxKeyNumber))], computed
    the same way by the three eviction routines. *)
Definition evict_count (cfg : config) : Z :=
  to_int64 (mul (EvictionRatio cfg) (of_Z (MaxKeyNumber cfg))).

End Config.

Module Constant.
Import Resp.

Definition RespNil : bytes := bs "$-1" ++ CRLF.
Definition RespOk : bytes := bs "+OK" ++ CRLF.
Definition RespZero : bytes := bs ":0" ++ CRLF.
Definition RespOne : bytes := bs ":1" ++ CRLF.
Definition TtlKeyNotExist : bytes := bs ":-2" ++ CRLF.
Definition TtlKeyExistNoExpire : bytes := bs ":-1" ++ CRLF.
Definition ActiveExpireSampleSize : Z := 20.
Definition ActiveExpireThreshold : F64.float64 := F64.of_ratio false 1 10.
Definition DefaultBPlusTreeDegree : Z := 4.
(** In nanoseconds, the unit of [time.Duration]. *)
Definition ActiveExpireFrequency : Z := 100 * 1000000.

Definition BfDefaultInitCapacity : Z := 100.
Definition BfDefaultErrRate : F64.float64 := F64.of_ratio false 1 100.

Definition ServerStatusIdle : Z := 0.
Definition ServerStatusShutdown : Z := 1.
Definition ServerStatusRunning : Z := 2.

End Constant.
