(* ===== verification/EvictionPool.v ===== *)
(** * The LRU eviction pool (src/internal/data_structure/hash_table/eviction_lru.go)

    A bounded list of eviction candidates, oldest access first.  [sort.Sort]
    is used through its documented contract, the class [Sorter]: the result
    is a sorted permutation, with no promise about equal elements. *)

From Stdlib Require Import ZArith Lia Ascii.
From stdpp Require Import base list strings numbers sets sorting.
From S2P Require Import Prelude GoStrings.

(** ** Package [sort] *)

Class Sorter {A : Type} (less : A → A → bool) := {
  sort : list A → list A;
  sort_perm l : sort l ≡ₚ l;
  sort_sorted l : StronglySorted (λ a b, less b a = false) (sort l)
}.

(** ** The pool *)

Module EvictionPool.

Record LruEvictionCandidate := mkCand { key : bytes; lastAccessTime : Z }.

#[global] Instance cand_eq_dec : EqDecision LruEvictionCandidate.
Proof. solve_decision. Defined.

(** [ByLastAccessTime.Less] on the two candidates. *)
Definition Less (a b : LruEvictionCandidate) : bool :=
  lastAccessTime a <? lastAccessTime b.

Record LruEvictionPool := mkPool { pool : list LruEvictionCandidate }.

(** [var ePool = newEpool(0)]. *)
Definition ePool_init : LruEvictionPool := mkPool [].

Section Push.
Context `{!Sorter Less} (EpoolMaxSize : Z).

Definition Push (p : LruEvictionPool) (k : bytes) (t : Z) : LruEvictionPool :=
  let newItem := mkCand k t in
  let exist := existsb (λ c, bool_decide (key c = k)) (pool p) in
  let replaced := map (λ c, if bool_decide (key c = k) then newItem else c) (pool p) in
  let appended := if exist then replaced else replaced ++ [newItem] in
  let sorted := sort appended in
  if EpoolMaxSize <? Z.of_nat (length sorted)
  then mkPool (take (length sorted - 1) sorted)
  else mkPool sorted.

End Push.

Definition Pop (p : LruEvictionPool) : option LruEvictionCandidate * LruEvictionPool :=
  match pool p with
  | [] => (None, p)
  | oldest :: rest => (Some oldest, mkPool rest)
  end.

(** ** Invariant *)

Definition older (a b : LruEvictionCandidate) : Prop := lastAccessTime a <= lastAccessTime b.

Record inv (max : Z) (p : LruEvictionPool) : Prop := {
  inv_sorted : StronglySorted older (pool p);
  inv_nodup : NoDup (key <$> pool p);
  inv_size : Z.of_nat (length (pool p)) <= max
}.

Lemma Less_older a b : Less b a = false ↔ older a b.
Proof. unfold Less, older. rewrite Z.ltb_ge. done. Qed.

Lemma sort_older `{!Sorter Less} l : StronglySorted older (sort l).
Proof.
  eapply StronglySorted_weaken; [|apply sort_sorted]. intros. by apply Less_older.
Qed.

(** The pool before it is sorted and trimmed. *)
Definition with_candidate (p : LruEvictionPool) (k : bytes) (t : Z) : list LruEvictionCandidate :=
  if existsb (λ c, bool_decide (key c = k)) (pool p)
  then map (λ c, if bool_decide (key c = k) then mkCand k t else c) (pool p)
  else map (λ c, if bool_decide (key c = k) then mkCand k t else c) (pool p) ++ [mkCand k t].

Lemma existsb_key k l :
  existsb (λ c, bool_decide (key c = k)) l = true ↔ k ∈ key <$> l.
Proof.
  rewrite existsb_exists, list_elem_of_fmap. setoid_rewrite bool_decide_eq_true.
  setoid_rewrite <- list_elem_of_In. naive_solver.
Qed.

Lemma replace_keys k t l :
  key <$> map (λ c, if bool_decide (key c = k) then mkCand k t else c) l = key <$> l.
Proof.
  induction l as [|c l IH]; cbn; [done|]. rewrite IH. f_equal. by case_bool_decide.
Qed.

Lemma with_candidate_keys p k t :
  key <$> with_candidate p k t
  = (key <$> pool p) ++ (if bool_decide (k ∈ key <$> pool p) then [] else [k]).
Proof.
  unfold with_candidate. destruct (existsb _ _) eqn:E.
  - apply existsb_key in E. rewrite bool_decide_eq_true_2, app_nil_r by done.
    apply replace_keys.
  - rewrite bool_decide_eq_false_2.
    + rewrite fmap_app, replace_keys. done.
    + rewrite <- existsb_key, E. done.
Qed.

Lemma with_candidate_nodup p k t :
  NoDup (key <$> pool p) → NoDup (key <$> with_candidate p k t).
Proof.
  intros H. rewrite with_candidate_keys. case_bool_decide; [by rewrite app_nil_r|].
  apply NoDup_app. split; [done|]. split; [|apply NoDup_singleton]. set_solver.
Qed.

Lemma with_candidate_length p k t :
  (length (with_candidate p k t) <= S (length (pool p)))%nat.
Proof.
  rewrite <- (length_fmap key), with_candidate_keys, length_app, length_fmap.
  case_bool_decide; cbn; lia.
Qed.

Lemma Push_inv `{!Sorter Less} max p k t :
  0 <= max → inv max p → inv max (Push max p k t).
Proof.
  intros Hmax [Hs Hn Hz]. unfold Push. fold (with_candidate p k t).
  pose proof (sort_perm (with_candidate p k t)) as Hp.
  pose proof (sort_older (with_candidate p k t)) as Hsrt.
  pose proof (with_candidate_nodup p k t Hn) as Hnd. rewrite <- Hp in Hnd.
  pose proof (with_candidate_length p k t) as Hl. rewrite <- Hp in Hl.
  case_match eqn:E; split; cbn.
  - by apply StronglySorted_take.
  - rewrite fmap_take. eapply sublist_NoDup; [exact Hnd|]. apply sublist_take.
  - rewrite length_take. lia.
  - done.
  - done.
  - apply Z.ltb_ge in E. lia.
Qed.

Lemma Pop_inv max p : inv max p → inv max (Pop p).2.
Proof.
  intros [Hs Hn Hz]. unfold Pop. destruct p as [[|c l]]; cbn; [done|]. cbn in *. split; cbn.
  - by inversion Hs.
  - by inversion Hn.
  - lia.
Qed.

(** The pool's invariant: it starts sorted by last access, without two
    candidates for one key and within its bound, and [Push] and [Pop] keep it
    so, whatever order the sort leaves equal access times in. *)
Lemma pool_invariant `{!Sorter Less} max p k t :
  0 <= max → inv max p →
  inv max ePool_init ∧ inv max (Push max p k t) ∧ inv max (Pop p).2.
Proof.
  intros Hmax Hi. split_and!; auto using Push_inv, Pop_inv.
  split; cbn; [constructor|constructor|done].
Qed.

(** What [Push] keeps: the pool afterwards together with at most one
    dropped candidate is the pool before with the key's entry replaced or
    added, and a dropped candidate is at least as recent as all that stay. *)
Lemma Push_drops_newest `{!Sorter Less} max p k t :
  ∃ dropped,
    pool (Push max p k t) ++ dropped ≡ₚ with_candidate p k t
    ∧ (length dropped <= 1)%nat
    ∧ ∀ c d, c ∈ pool (Push max p k t) → d ∈ dropped → older c d.
Proof.
  unfold Push. fold (with_candidate p k t).
  pose proof (sort_perm (with_candidate p k t)) as Hp.
  pose proof (sort_older (with_candidate p k t)) as Hs.
  set (l := sort (with_candidate p k t)) in *. case_match; cbn.
  - exists (drop (length l - 1) l). split_and!.
    + by rewrite take_drop.
    + rewrite length_drop. lia.
    + intros c d Hc Hd. rewrite <- (take_drop (length l - 1) l) in Hs.
      by eapply StronglySorted_app_1_elem_of.
  - exists []. rewrite app_nil_r. split_and!; [done|cbn; lia|]. intros ? ? ? []%not_elem_of_nil.
Qed.

(** [Pop] returns a candidate no other one in the pool is older than, and
    removes exactly it; on an empty pool it returns nil and changes nothing. *)
Lemma Pop_oldest max p :
  inv max p →
  match Pop p with
  | (Some c, p') => pool p = c :: pool p' ∧ ∀ d, d ∈ pool p → older c d
  | (None, p') => pool p = [] ∧ p' = p
  end.
Proof.
  intros [Hs _ _]. unfold Pop. destruct (pool p) as [|c l] eqn:E; [done|].
  split; [done|]. intros d Hd. apply StronglySorted_inv in Hs as [_ Hc].
  apply elem_of_cons in Hd as [->|Hd]; [unfold older; lia|].
  by eapply Forall_forall in Hd.
Qed.

(** ** A sorter

    Package sort sees the candidates through [sort.Interface]; for up to 12
    elements [sort.Sort] is the insertion sort below, written with the three
    methods.  It obeys the contract, so the model can be run with it. *)

(** [ByLastAccessTime]'s [Len], [Less] and [Swap] by index. *)
Definition Len (a : list LruEvictionCandidate) : Z := Z.of_nat (length a).

Definition at_index (a : list LruEvictionCandidate) (i : nat) : outcome LruEvictionCandidate :=
  match a !! i with Some c => Ret c | None => Panic IndexOutOfRange end.

Definition Less_at (i j : nat) (a : list LruEvictionCandidate) : outcome bool :=
  x ← at_index a i; y ← at_index a j; Ret (Less x y).

Definition Swap (i j : nat) (a : list LruEvictionCandidate) : outcome (list LruEvictionCandidate) :=
  x ← at_index a j; y ← at_index a i; Ret (<[j := y]> (<[i := x]> a)).

(** [for j := i; j > 0 && data.Less(j, j-1); j-- { data.Swap(j, j-1) }] *)
Fixpoint sift (j : nat) (a : list LruEvictionCandidate) : outcome (list LruEvictionCandidate) :=
  match j with
  | O => Ret a
  | S j' =>
      lt ← Less_at j j' a;
      if lt : bool then a ← Swap j j' a; sift j' a else Ret a
  end.

(** [n] rounds of the outer loop, from [i] on. *)
Fixpoint sort_rounds (n i : nat) (a : list LruEvictionCandidate) : outcome (list LruEvictionCandidate) :=
  match n with
  | O => Ret a
  | S n => a ← sift i a; sort_rounds n (S i) a
  end.

Definition insertionSort (a : list LruEvictionCandidate) : outcome (list LruEvictionCandidate) :=
  sort_rounds (Z.to_nat (Len a - 1)) 1 a.

Lemma sorted_snoc l y :
  StronglySorted older (l ++ [y]) ↔ StronglySorted older l ∧ Forall (λ x, older x y) l.
Proof.
  induction l as [|x l IH]; cbn; [by repeat constructor|]. split.
  - intros [H1 H2]%StronglySorted_inv. apply IH in H1 as [H1 H3].
    apply Forall_app in H2 as [H2 H4]. apply Forall_cons_1 in H4 as [H4 _]. by repeat constructor.
  - intros [[H1 H2]%StronglySorted_inv [H3 H4]%Forall_cons_1]. constructor; [by apply IH|].
    apply Forall_app. by repeat constructor.
Qed.

(** Sifting the element after a sorted prefix puts it in its place. *)
Lemma sift_spec l x r :
  StronglySorted older l →
  ∃ l', sift (length l) (l ++ x :: r) = Ret (l' ++ r) ∧ l' ≡ₚ x :: l ∧ StronglySorted older l'.
Proof.
  revert r. induction l as [|y l IH] using rev_ind; intros r Hs.
  { exists [x]. by repeat constructor. }
  apply sorted_snoc in Hs as [Hs Hy]. rewrite length_app, Nat.add_comm. cbn [length Nat.add sift].
  assert (Ex : ((l ++ [y]) ++ x :: r) !! S (length l) = Some x).
  { replace (S (length l)) with (length (l ++ [y])) by (rewrite length_app; cbn; lia).
    by apply list_lookup_middle. }
  assert (Ey : ((l ++ [y]) ++ x :: r) !! length l = Some y).
  { rewrite <- app_assoc. by apply list_lookup_middle. }
  unfold Less_at, Swap, at_index. rewrite Ex, Ey. cbn [mbind outcome_bind].
  destruct (Less x y) eqn:El; cbn [mbind outcome_bind].
  - assert (E : <[length l := x]> (<[S (length l) := y]> ((l ++ [y]) ++ x :: r)) = l ++ x :: y :: r).
    { rewrite <- app_assoc. replace (S (length l)) with (length l + 1)%nat by lia.
      rewrite insert_app_r. cbn. rewrite <- (Nat.add_0_r (length l)) at 1. by rewrite insert_app_r. }
    rewrite E. destruct (IH (y :: r) Hs) as (l' & E' & Hp & Hs').
    exists (l' ++ [y]). rewrite E', <- app_assoc. split; [done|]. split.
    + by rewrite Hp.
    + apply sorted_snoc. split; [done|]. rewrite Hp. constructor; [|done].
      unfold Less in El. unfold older. lia.
  - exists ((l ++ [y]) ++ [x]). split; [by rewrite <- !app_assoc|]. split.
    + symmetry. apply Permutation_cons_append.
    + apply Less_older in El. apply sorted_snoc. split; [by apply sorted_snoc|].
      apply Forall_app. split; [|by repeat constructor].
      eapply Forall_impl; [exact Hy|]. intros z Hz. unfold older in *. lia.
Qed.

Lemma sort_rounds_spec l r :
  StronglySorted older l →
  ∃ l', sort_rounds (length r) (length l) (l ++ r) = Ret l' ∧ l' ≡ₚ l ++ r ∧ StronglySorted older l'.
Proof.
  revert l. induction r as [|x r IH]; intros l Hs; cbn [length sort_rounds].
  { exists l. by rewrite app_nil_r. }
  destruct (sift_spec l x r Hs) as (l1 & E & Hp & Hs1). rewrite E. cbn [mbind outcome_bind].
  destruct (IH l1 Hs1) as (l2 & E2 & Hp2 & Hs2). exists l2. split_and!; [|rewrite Hp2, Hp|done].
  - replace (S (length l)) with (length l1) by (by rewrite Hp). done.
  - cbn. apply Permutation_middle.
Qed.

Lemma insertionSort_spec a :
  ∃ l, insertionSort a = Ret l ∧ l ≡ₚ a ∧ StronglySorted older l.
Proof.
  destruct a as [|x a]; [exists []; by repeat constructor|].
  unfold insertionSort, Len. replace (Z.to_nat _) with (length a) by (cbn [length]; lia).
  apply (sort_rounds_spec [x] a). by repeat constructor.
Qed.

#[refine, global] Instance insertion_sorter : Sorter Less :=
  {| sort a := match insertionSort a with Ret l => l | _ => a end |}.
Proof.
  - intros a. destruct (insertionSort_spec a) as (l & -> & Hp & _). done.
  - intros a. destruct (insertionSort_spec a) as (l & -> & _ & Hs).
    eapply StronglySorted_weaken; [|exact Hs]. intros. by apply Less_older.
Defined.

Lemma pool_invariant_witness :
  inv 2 (Push 2 (mkPool [mkCand (bs "a") 5; mkCand (bs "b") 9]) (bs "c") 7).
Proof.
  apply (pool_invariant 2 (mkPool [mkCand (bs "a") 5; mkCand (bs "b") 9]) (bs "c") 7); [lia|].
  split; cbn; [|apply (bool_decide_unpack _); vm_compute; exact I|lia].
  repeat constructor; unfold older; cbn; lia.
Defined.

End EvictionPool.
