(* ===== verification/EvictionRace.v ===== *)
(** * The eviction pool, access by access
    ([LruEvictionPool.Push] and [Pop] of
    src/internal/data_structure/hash_table/eviction_lru.go)

    The pool is a package variable that the workers of the multi-threaded server
    use without a lock.  Here it is a Go slice, a window of an array that other
    slices may share, and a goroutine in [Push] or [Pop] takes one step per
    access to it.  Alone such a goroutine never panics and does what the
    functions of [EvictionPool] do ([pool_alone]); between the test of the length
    and the access to the element another goroutine can shorten the pool, and the
    access panics ([pool_race_panics], [pool_race_pops]).  [sort.Sort] works on the
    slice it was given, whose length does not change, and is one step; a slice
    header is read and written as a whole. *)

From Stdlib Require Import ZArith Lia Ascii.
From stdpp Require Import base gmap list strings numbers sorting relations.
From S2P Require Import Prelude GoStrings EvictionPool.

Module EvictionRace.
Import EvictionPool.

(** ** Slices *)

(** A slice header: an array, the window's start, its length and its capacity. *)
Record slice := mkSlice { arr : nat; off : nat; len : nat; cap : nat }.

(** The arrays (of pointers, [None] is nil) and the variable [ePool.pool]. *)
Record memory := mkMemory {
  arrays : gmap nat (list (option LruEvictionCandidate));
  ePool : slice
}.

(** [var ePool = newEpool(0)] *)
Definition newEpool : memory := mkMemory {[ 0%nat := [] ]} (mkSlice 0 0 0 0).

Definition with_pool (m : memory) (s : slice) : memory := mkMemory (arrays m) s.
Definition with_array (m : memory) (a : nat) (l : list (option LruEvictionCandidate)) : memory :=
  mkMemory (<[a := l]> (arrays m)) (ePool m).

Definition array (m : memory) (s : slice) : list (option LruEvictionCandidate) :=
  default [] (arrays m !! arr s).

(** [s[i]] *)
Definition read (m : memory) (s : slice) (i : nat) : outcome (option LruEvictionCandidate) :=
  if decide (i < len s)%nat then
    match array m s !! (off s + i)%nat with Some c => Ret c | None => Panic IndexOutOfRange end
  else Panic IndexOutOfRange.

(** [s[i] = c] *)
Definition write (m : memory) (s : slice) (i : nat) (c : LruEvictionCandidate) : outcome memory :=
  if decide (i < len s)%nat then
    Ret (with_array m (arr s) (<[(off s + i)%nat := Some c]> (array m s)))
  else Panic IndexOutOfRange.

(** The elements of the slice. *)
Definition window (m : memory) (s : slice) : list (option LruEvictionCandidate) :=
  take (len s) (drop (off s) (array m s)).

(** [append(s, c)]: in place when there is room, or else in a new array with
    [spare] cells left. *)
Definition append (spare : nat) (m : memory) (s : slice) (c : LruEvictionCandidate) : memory * slice :=
  if decide (len s < cap s)%nat then
    (with_array m (arr s) (<[(off s + len s)%nat := Some c]> (array m s)),
     mkSlice (arr s) (off s) (S (len s)) (cap s))
  else
    let a := fresh (dom (arrays m)) in
    (with_array m a (window m s ++ [Some c] ++ replicate spare None),
     mkSlice a 0 (S (len s)) (S (len s) + spare)).

(** [s[:hi]] and [s[lo:]] *)
Definition slice_to (s : slice) (hi : Z) : outcome slice :=
  if (0 <=? hi) && (hi <=? Z.of_nat (cap s))
  then Ret (mkSlice (arr s) (off s) (Z.to_nat hi) (cap s)) else Panic SliceOutOfRange.
Definition slice_from (s : slice) (lo : nat) : outcome slice :=
  if decide (lo <= len s)%nat
  then Ret (mkSlice (arr s) (off s + lo) (len s - lo) (cap s - lo)) else Panic SliceOutOfRange.

(** ** Goroutines *)

(** Where a goroutine is: [Push] with its key and time, [Pop], or done. *)
Inductive place :=
  | PushTest (i : nat) (found : bool)     (** [i < len(p.pool)] *)
  | PushKey (i : nat) (found : bool)      (** [p.pool[i].key == key] *)
  | PushSet (i : nat)                     (** [p.pool[i] = newItem] *)
  | PushAppend                            (** [append(p.pool, newItem)] *)
  | PushGrow (s : slice)
  | PushStore (s : slice)                 (** [p.pool = ...] *)
  | PushSort                              (** [sort.Sort(ByLastAccessTime(p.pool))] *)
  | PushSorting (s : slice)
  | PushLen                               (** [len(p.pool) > config.EpoolMaxSize] *)
  | PushLast                              (** [lastIndex := len(p.pool) - 1] *)
  | PushTrim (lastIndex : Z)              (** [p.pool[:lastIndex]] *)
  | PushTrimmed (s : slice)
  | PopTest                               (** [len(p.pool) == 0] *)
  | PopRead                               (** [oldestItem := p.pool[0]] *)
  | PopRest (item : option LruEvictionCandidate)       (** [p.pool[1:]] *)
  | PopStore (item : option LruEvictionCandidate) (s : slice)
  | Done (item : option LruEvictionCandidate).

Section Steps.
Context `{!Sorter Less} (EpoolMaxSize : Z) (spare : nat → nat).

(** [sort.Sort] on the slice [s]: the elements of its window, sorted. *)
Definition sort_slice (m : memory) (s : slice) : outcome memory :=
  match mapM id (window m s) with
  | Some l =>
      Ret (with_array m (arr s)
             (take (off s) (array m s) ++ (Some <$> sort l) ++ drop (off s + len s) (array m s)))
  | None => Panic NilDereference
  end.

(** One access by a goroutine that pushes [k] with time [t], or pops. *)
Definition access (k : bytes) (t : Z) (p : place) (m : memory) : outcome (place * memory) :=
  let newItem := mkCand k t in
  match p with
  | PushTest i found =>
      Ret (if decide (i < len (ePool m))%nat then PushKey i found
           else if (found : bool) then PushSort else PushAppend, m)
  | PushKey i found =>
      c ← (read m (ePool m) i : outcome (option LruEvictionCandidate));
      match c with
      | None => Panic NilDereference
      | Some c => Ret (if decide (key c = k) then PushSet i else PushTest (S i) found, m)
      end
  | PushSet i => m ← (write m (ePool m) i newItem : outcome memory); Ret (PushTest (S i) true, m)
  | PushAppend => Ret (PushGrow (ePool m), m)
  | PushGrow s => let '(m, s) := append (spare (len s)) m s newItem in Ret (PushStore s, m)
  | PushStore s => Ret (PushSort, with_pool m s)
  | PushSort => Ret (PushSorting (ePool m), m)
  | PushSorting s => m ← (sort_slice m s : outcome memory); Ret (PushLen, m)
  | PushLen => Ret (if EpoolMaxSize <? Z.of_nat (len (ePool m)) then PushLast else Done None, m)
  | PushLast => Ret (PushTrim (Z.of_nat (len (ePool m)) - 1), m)
  | PushTrim lastIndex => s ← (slice_to (ePool m) lastIndex : outcome slice); Ret (PushTrimmed s, m)
  | PushTrimmed s => Ret (Done None, with_pool m s)
  | PopTest => Ret (if decide (len (ePool m) = 0%nat) then Done None else PopRead, m)
  | PopRead => c ← (read m (ePool m) 0 : outcome (option LruEvictionCandidate)); Ret (PopRest c, m)
  | PopRest c => s ← (slice_from (ePool m) 1 : outcome slice); Ret (PopStore c s, m)
  | PopStore c s => Ret (Done c, with_pool m s)
  | Done c => Ret (Done c, m)
  end.

(** A goroutine alone. *)
Definition alone (k : bytes) (t : Z) (x y : place * memory) : Prop := access k t x.1 x.2 = Ret y.

(** Goroutines with their keys and times, one access of one of them at a time. *)
Record goroutine := mkGoroutine { g_key : bytes; g_time : Z; g_at : place }.

Definition interleave (x y : list goroutine * memory) : Prop :=
  ∃ i g p m, x.1 !! i = Some g ∧ access (g_key g) (g_time g) (g_at g) x.2 = Ret (p, m) ∧
             y = (<[i := mkGoroutine (g_key g) (g_time g) p]> x.1, m).

(** ** The pool a slice holds *)

Definition holds (m : memory) (l : list LruEvictionCandidate) : Prop :=
  ∃ pre post, arrays m !! arr (ePool m) = Some (pre ++ (Some <$> l) ++ post) ∧
    length pre = off (ePool m) ∧ len (ePool m) = length l ∧
    cap (ePool m) = (length l + length post)%nat.

Lemma holds_len m l : holds m l → len (ePool m) = length l.
Proof. by intros (pre & post & _ & _ & H & _). Qed.

Lemma holds_read m l1 c l2 : holds m (l1 ++ c :: l2) → read m (ePool m) (length l1) = Ret (Some c).
Proof.
  intros (pre & post & Ha & Ho & Hl & _). unfold read, array. rewrite Hl, length_app, Ha, <- Ho. cbn.
  rewrite decide_True by lia. rewrite lookup_app_r by lia.
  replace (length pre + length l1 - length pre)%nat with (length l1) by lia.
  rewrite fmap_app, fmap_cons, <- app_assoc. cbn [app].
  by rewrite (list_lookup_middle _ _ _ (length l1)) by (by rewrite length_fmap).
Qed.

Lemma holds_write m l1 c l2 c' :
  holds m (l1 ++ c :: l2) →
  ∃ m', write m (ePool m) (length l1) c' = Ret m' ∧ ePool m' = ePool m ∧ holds m' (l1 ++ c' :: l2).
Proof.
  intros (pre & post & Ha & Ho & Hl & Hc). unfold write, array. rewrite Hl, length_app, Ha, <- Ho. cbn.
  rewrite decide_True by lia. eexists. split; [done|]. split; [done|]. exists pre, post. cbn.
  rewrite lookup_insert_eq. split_and!; [|done|rewrite Hl, !length_app; done|rewrite Hc, !length_app; done].
  f_equal. rewrite insert_app_r, !fmap_app, !fmap_cons, <- !app_assoc. f_equal.
  rewrite <- (length_fmap Some l1) at 1. rewrite <- (Nat.add_0_r (length (Some <$> l1))), insert_app_r. done.
Qed.

Lemma holds_append n m l c :
  holds m l → let x := append n m (ePool m) c in holds (with_pool x.1 x.2) (l ++ [c]).
Proof.
  intros (pre & post & Ha & Ho & Hl & Hc). unfold append, window, array. rewrite Ha, Hl, Hc. cbn [from_option id].
  case_decide as Hr; cbn.
  - destruct post as [|x post]; [cbn in Hr; lia|]. exists pre, post. cbn. rewrite lookup_insert_eq.
    split_and!; [|done|rewrite length_app; cbn; lia|rewrite length_app; cbn in *; lia].
    f_equal. rewrite <- Ho, insert_app_r, fmap_app, <- app_assoc. f_equal.
    rewrite <- (length_fmap Some l) at 1. rewrite <- (Nat.add_0_r (length (Some <$> l))), insert_app_r. done.
  - exists [], (replicate n None). cbn. rewrite lookup_insert_eq.
    rewrite length_replicate, length_app. cbn. split_and!; [|done|lia|lia].
    rewrite <- Ho, drop_app_length, <- (length_fmap Some l) at 1.
    by rewrite take_app_length, fmap_app, <- app_assoc.
Qed.

Lemma holds_sort m l :
  holds m l → ∃ m', sort_slice m (ePool m) = Ret m' ∧ ePool m' = ePool m ∧ holds m' (sort l).
Proof.
  intros (pre & post & Ha & Ho & Hl & Hc). unfold sort_slice, window, array. rewrite Ha, Hl. cbn [from_option id].
  assert (Hw : take (length l) (drop (off (ePool m)) (pre ++ (Some <$> l) ++ post)) = Some <$> l).
  { rewrite <- Ho, drop_app_length. rewrite <- (length_fmap Some l) at 1. apply take_app_length. }
  rewrite Hw. assert (Em : mapM id (Some <$> l) = Some l).
  { clear. induction l as [|c l IH]; [done|]. cbn. by rewrite IH. }
  rewrite Em. eexists. split; [done|]. split; [done|]. exists pre, post. cbn. rewrite lookup_insert_eq.
  assert (length (sort l) = length l) by (apply Permutation_length, sort_perm).
  split_and!; [|done|congruence|congruence]. f_equal. rewrite <- Ho, take_app_length. f_equal. f_equal.
  rewrite app_assoc. rewrite <- (length_fmap Some l), <- length_app. apply drop_app_length.
Qed.

(** ** A goroutine alone *)

Abbreviation steps k t := (rtc (alone k t)).

Lemma step_alone k t p m p' m' y :
  access k t p m = Ret (p', m') → steps k t (p', m') y → steps k t (p, m) y.
Proof. intros H. by apply rtc_l. Qed.

Definition replace (k : bytes) (t : Z) (c : LruEvictionCandidate) : LruEvictionCandidate :=
  if bool_decide (key c = k) then mkCand k t else c.
Definition has_key (k : bytes) (l : list LruEvictionCandidate) : bool :=
  existsb (λ c, bool_decide (key c = k)) l.

(** The loop over the pool. *)
Lemma loop_alone k t l2 l1 ex m :
  holds m (l1 ++ l2) →
  ∃ m', steps k t (PushTest (length l1) ex, m) (PushTest (length (l1 ++ l2)) (ex || has_key k l2), m') ∧
        holds m' (l1 ++ map (replace k t) l2).
Proof.
  revert l1 ex m. induction l2 as [|c l2 IH]; intros l1 ex m Hm.
  { exists m. cbn. rewrite app_nil_r, orb_false_r in *. split; [apply rtc_refl|done]. }
  assert (Ht : access k t (PushTest (length l1) ex) m = Ret (PushKey (length l1) ex, m)).
  { cbn. rewrite (holds_len _ _ Hm), length_app, decide_True by (cbn; lia). done. }
  assert (Hk : access k t (PushKey (length l1) ex) m =
               Ret (if decide (key c = k) then PushSet (length l1) else PushTest (S (length l1)) ex, m)).
  { cbn. by rewrite (holds_read _ _ _ _ Hm). }
  assert (El : ∀ x : LruEvictionCandidate, S (length l1) = length (l1 ++ [x]))
    by (intros; rewrite length_app; cbn; lia).
  unfold replace at 1, has_key. cbn [map existsb]. case_decide as E.
  - destruct (holds_write m l1 c l2 (mkCand k t) Hm) as (m1 & Ew & _ & H1).
    destruct (IH (l1 ++ [mkCand k t]) true m1) as (m2 & Hs & H2); [by rewrite <- app_assoc|].
    exists m2. rewrite (bool_decide_eq_true_2 _ E). rewrite <- !app_assoc in *. split; [|done].
    eapply step_alone; [exact Ht|]. eapply step_alone; [exact Hk|].
    eapply step_alone; [cbn; by rewrite Ew|]. rewrite (El (mkCand k t)), orb_true_r.
    rewrite !length_app in *. exact Hs.
  - destruct (IH (l1 ++ [c]) ex m) as (m2 & Hs & H2); [by rewrite <- app_assoc|].
    exists m2. rewrite (bool_decide_eq_false_2 _ E). rewrite <- !app_assoc in *. split; [|done].
    eapply step_alone; [exact Ht|]. eapply step_alone; [exact Hk|]. rewrite (El c). exact Hs.
Qed.

(** From the sort on. *)
Lemma tail_alone k t l m :
  holds m l → l ≠ [] →
  ∃ m', steps k t (PushSort, m) (Done None, m') ∧
        holds m' (if EpoolMaxSize <? Z.of_nat (length (sort l))
                  then take (length (sort l) - 1) (sort l) else sort l).
Proof.
  intros Hm Hne. destruct (holds_sort m l Hm) as (m1 & Es & Ep & H1).
  assert (Hlen : len (ePool m1) = length (sort l)) by (by apply holds_len).
  assert (Hpre : ∀ y, steps k t (PushLen, m1) y → steps k t (PushSort, m) y).
  { intros y Hy. eapply step_alone; [done|]. eapply step_alone; [cbn; by rewrite Es|exact Hy]. }
  assert (Hpos : length (sort l) ≠ 0%nat).
  { rewrite sort_perm. by destruct l. }
  destruct (EpoolMaxSize <? Z.of_nat (length (sort l))) eqn:E.
  - destruct H1 as (pre & post & Ha & Ho & Hl & Hc).
    set (s := mkSlice (arr (ePool m1)) (off (ePool m1)) (length (sort l) - 1) (cap (ePool m1))).
    exists (with_pool m1 s). split.
    + apply Hpre. eapply step_alone; [cbn; by rewrite Hlen, E|]. eapply step_alone; [done|].
      eapply step_alone.
      { cbn. unfold slice_to. rewrite Hlen, (proj2 (Z.leb_le 0 _)), (proj2 (Z.leb_le _ _)) by lia. done. }
      cbn. rewrite Z2Nat.inj_sub, Nat2Z.id by lia. eapply step_alone; [done|]. apply rtc_refl.
    + rewrite <- (take_drop (length (sort l) - 1) (sort l)), fmap_app, <- app_assoc in Ha.
      eexists pre, _. cbn. split; [exact Ha|]. split; [done|].
      rewrite length_take, length_app, length_fmap, length_drop. lia.
  - exists m1. split; [|done]. apply Hpre. eapply step_alone; [cbn; by rewrite Hlen, E|]. apply rtc_refl.
Qed.

Lemma push_alone k t l m :
  holds m l →
  ∃ m', steps k t (PushTest 0 false, m) (Done None, m') ∧
        holds m' (pool (Push EpoolMaxSize (mkPool l) k t)).
Proof.
  intros Hm. destruct (loop_alone k t l [] false m Hm) as (m1 & S1 & H1). cbn [app length orb] in S1, H1.
  assert (Hlen : len (ePool m1) = length l) by (by rewrite (holds_len _ _ H1), length_map).
  set (l1 := if has_key k l then map (replace k t) l else map (replace k t) l ++ [mkCand k t]).
  assert (∃ m2, steps k t (PushTest (length l) (has_key k l), m1) (PushSort, m2) ∧ holds m2 l1)
    as (m2 & S2 & H2).
  { unfold l1. destruct (has_key k l) eqn:Ek.
    - exists m1. split; [|done]. eapply step_alone; [cbn; by rewrite Hlen, decide_False by lia|]. apply rtc_refl.
    - pose proof (holds_append (spare (len (ePool m1))) m1 _ (mkCand k t) H1) as H3.
      destruct (append _ _ _ _) as [m3 s] eqn:Ea. exists (with_pool m3 s). split; [|exact H3].
      eapply step_alone; [cbn; by rewrite Hlen, decide_False by lia|]. eapply step_alone; [done|].
      eapply step_alone; [cbn; by rewrite Ea|]. eapply step_alone; [done|]. apply rtc_refl. }
  destruct (tail_alone k t l1 m2 H2) as (m3 & S3 & H3).
  { unfold l1. destruct (has_key k l) eqn:Ek; [by destruct l|by destruct (map _ l)]. }
  exists m3. split; [by do 2 (etrans; [eassumption|])|].
  unfold Push. cbn [pool]. fold (has_key k l). change (map (λ c, if bool_decide (key c = k) then mkCand k t else c) l)
    with (map (replace k t) l). fold l1. by destruct (EpoolMaxSize <? _).
Qed.

Lemma pop_alone k t l m :
  holds m l →
  ∃ m', steps k t (PopTest, m) (Done (Pop (mkPool l)).1, m') ∧ holds m' (pool (Pop (mkPool l)).2).
Proof.
  intros Hm. pose proof (holds_len _ _ Hm) as Hlen. destruct l as [|c l]; cbn [Pop pool fst snd].
  - exists m. split; [|done]. eapply step_alone; [cbn; by rewrite Hlen|]. apply rtc_refl.
  - pose proof Hm as (pre & post & Ha & Ho & Hl & Hc).
    set (s := mkSlice (arr (ePool m)) (off (ePool m) + 1) (len (ePool m) - 1) (cap (ePool m) - 1)).
    exists (with_pool m s). split.
    + eapply step_alone; [cbn; by rewrite Hlen|]. rewrite decide_False by (cbn; lia).
      eapply step_alone; [cbn [access]; by rewrite (holds_read m [] c l Hm : read m (ePool m) 0 = _)|].
      eapply step_alone; [cbn; unfold slice_from; rewrite Hlen, decide_True by (cbn; lia); done|].
      rewrite <- Hlen. eapply step_alone; [done|]. apply rtc_refl.
    + exists (pre ++ [Some c]), post. cbn. rewrite length_app, <- app_assoc. cbn in *. split_and!; [done|lia..].
Qed.

End Steps.

(** C13: alone the pool is what the atomic operations make of it: executed one
    access at a time (the sort counting as one) on a slice that holds the list [l], whatever other slices
    share its array and however the run time grows it, a goroutine's [Push] and
    [Pop] run to their end without a panic and leave a slice that holds the list,
    and return the candidate, of the atomic [Push] and [Pop]. *)
Theorem pool_alone `{!Sorter Less} max spare k t l m :
  holds m l →
  (∃ m', rtc (alone max spare k t) (PushTest 0 false, m) (Done None, m') ∧
         holds m' (pool (Push max (mkPool l) k t))) ∧
  (∃ m', rtc (alone max spare k t) (PopTest, m) (Done (Pop (mkPool l)).1, m') ∧
         holds m' (pool (Pop (mkPool l)).2)).
Proof. intros Hm. split; [by apply push_alone|by apply pop_alone]. Qed.

Lemma holds_new : holds newEpool [].
Proof. exists [], []. split_and!; [exact (lookup_singleton_eq 0%nat _)|done..]. Qed.

(** ** Races *)

(** A pool with one candidate. *)
Definition demo_cand : LruEvictionCandidate := mkCand (bs "a") 1.
Definition demo_pool : memory := mkMemory {[ 0%nat := [Some demo_cand] ]} (mkSlice 0 0 1 1).

Lemma demo_holds : holds demo_pool [demo_cand].
Proof. exists [], []. split_and!; [exact (lookup_singleton_eq 0%nat _)|done..]. Qed.

Lemma interleave_step `{!Sorter Less} max spare gs m i g p m' y :
  gs !! i = Some g → access max spare (g_key g) (g_time g) (g_at g) m = Ret (p, m') →
  rtc (interleave max spare) (<[i := mkGoroutine (g_key g) (g_time g) p]> gs, m') y →
  rtc (interleave max spare) (gs, m) y.
Proof. intros Hi Ha. apply rtc_l. by exists i, g, p, m'. Qed.

(** A goroutine has tested the length in [Push] when another one pops the last
    candidate: the access to the element panics. *)
Lemma pool_race_panics `{!Sorter Less} max spare :
  ∃ gs m g, rtc (interleave max spare)
              ([mkGoroutine (bs "b") 2 (PushTest 0 false); mkGoroutine [] 0 PopTest], demo_pool) (gs, m) ∧
            gs !! 0%nat = Some g ∧
            access max spare (g_key g) (g_time g) (g_at g) m = Panic IndexOutOfRange.
Proof.
  eexists _, _, _. split.
  - eapply (interleave_step _ _ _ _ 0); [done|done|]. eapply (interleave_step _ _ _ _ 1); [done|done|].
    eapply (interleave_step _ _ _ _ 1); [done|vm_compute; reflexivity|].
    eapply (interleave_step _ _ _ _ 1); [done|vm_compute; reflexivity|].
    eapply (interleave_step _ _ _ _ 1); [done|done|]. apply rtc_refl.
  - split; [done|]. vm_compute. reflexivity.
Qed.

(** Two goroutines pop the only candidate: one of them indexes an empty slice. *)
Lemma pool_race_pops `{!Sorter Less} max spare :
  ∃ gs m g, rtc (interleave max spare)
              ([mkGoroutine [] 0 PopTest; mkGoroutine [] 0 PopTest], demo_pool) (gs, m) ∧
            gs !! 0%nat = Some g ∧
            access max spare (g_key g) (g_time g) (g_at g) m = Panic IndexOutOfRange.
Proof.
  eexists _, _, _. split.
  - eapply (interleave_step _ _ _ _ 0); [done|done|]. eapply (interleave_step _ _ _ _ 1); [done|done|].
    eapply (interleave_step _ _ _ _ 1); [done|vm_compute; reflexivity|].
    eapply (interleave_step _ _ _ _ 1); [done|vm_compute; reflexivity|].
    eapply (interleave_step _ _ _ _ 1); [done|done|]. apply rtc_refl.
  - split; [done|]. vm_compute. reflexivity.
Qed.

(** The witness pops the one candidate. *)
Lemma pool_alone_witness :
  ∃ m, rtc (alone 16 (λ _, 0%nat) (bs "b") 2) (PopTest, demo_pool) (Done (Some demo_cand), m) ∧ holds m [].
Proof.
  destruct (pool_alone 16 (λ _, 0%nat) (bs "b") 2 [demo_cand] demo_pool demo_holds) as [_ H]. exact H.
Defined.

End EvictionRace.
