(* ===== verification/Dict.v ===== *)
(** * The key space: dictionary, expiry and eviction
    (src/internal/data_structure/hash_table/dict.go, eviction_lru.go,
    eivction_lfu.go)

    State: the two Go maps of [Dict] as finite maps, and the process-wide
    eviction pool passed along.  Effects the program does not control are
    arguments: each reading of the clock is a value in milliseconds
    ([time.Now().UnixMilli()]; [now] is the same instant in seconds), and
    each [range] over a map is the list of keys in the order the run time
    chose ([iter_order] says which lists are possible). *)

From Stdlib Require Import ZArith Lia Ascii.
From stdpp Require Import base gmap list strings numbers sorting.
From S2P Require Import Prelude GoStrings GoFloat Resp Config EvictionPool.

(** A list in which [range m] may visit the keys of the map [m]. *)
Definition iter_order {V} (m : gmap bytes V) (ord : list bytes) : Prop :=
  ord ≡ₚ (map_to_list m).*1.

Module Dict.
Import Config EvictionPool.

Record Obj := mkObj { Value : Resp.value; LastAccessTime : Z }.

Record Dict := mkDict {
  dictStore : gmap bytes Obj;
  expiredDictStore : gmap bytes Z
}.

Definition CreateDict : Dict := mkDict ∅ ∅.

Definition GetExpireDictStore (d : Dict) : gmap bytes Z := expiredDictStore d.
Definition GetDictStore (d : Dict) : gmap bytes Obj := dictStore d.

(** [uint32(time.Now().Unix())] for a clock reading in milliseconds. *)
Definition now (ms : Z) : Z := u32 (ms / 1000).

Definition Persist (d : Dict) (k : bytes) : Dict :=
  mkDict (dictStore d) (delete k (expiredDictStore d)).

Definition SetExpiry (ms : Z) (d : Dict) (k : bytes) (ttlMs : Z) : Dict :=
  mkDict (dictStore d) (<[k := u64 (u64 ms + u64 ttlMs)]> (expiredDictStore d)).

(** [t0]: the reading for the access time, [t1]: the one in [SetExpiry]. *)
Definition NewObj (t0 t1 : Z) (d : Dict) (k : bytes) (v : Resp.value) (ttlMs : Z)
    : Obj * Dict :=
  let obj := mkObj v (now t0) in
  if 0 <? ttlMs then (obj, SetExpiry t1 d k ttlMs)
  else (obj, Persist d k).

Definition GetExpiry (d : Dict) (k : bytes) : option Z := expiredDictStore d !! k.

Definition HasExpired (ms : Z) (d : Dict) (k : bytes) : bool :=
  match expiredDictStore d !! k with
  | None => false
  | Some exp => exp <=? u64 ms
  end.

Definition Del (d : Dict) (k : bytes) : bool * Dict :=
  match dictStore d !! k with
  | Some _ => (true, mkDict (delete k (dictStore d)) (delete k (expiredDictStore d)))
  | None => (false, d)
  end.

(** [t0]: the new access time, [t1]: the reading in [HasExpired]. *)
Definition Get (t0 t1 : Z) (d : Dict) (k : bytes) : option Obj * Dict :=
  match dictStore d !! k with
  | Some v =>
      let v := mkObj (Value v) (now t0) in
      let d := mkDict (<[k := v]> (dictStore d)) (expiredDictStore d) in
      if HasExpired t1 d k then (None, (Del d k).2) else (Some v, d)
  | None => (None, d)
  end.

(** ** Eviction *)

Fixpoint evictRandom_loop (ord : list bytes) (evictCount : Z) (d : Dict) : Dict :=
  match ord with
  | [] => d
  | k :: ord =>
      let d := (Del d k).2 in
      let evictCount := s64 (evictCount - 1) in
      if evictCount =? 0 then d else evictRandom_loop ord evictCount d
  end.

Section Evict.
Context `{!Sorter Less} (cfg : config).

Definition evictRandom (ord : list bytes) (d : Dict) : Dict :=
  evictRandom_loop ord (evict_count cfg) d.

Fixpoint populate_loop (ord : list bytes) (remain : Z) (d : Dict) (p : LruEvictionPool)
    : LruEvictionPool :=
  match ord with
  | [] => p
  | k :: ord =>
      let p := match dictStore d !! k with
               | Some o => Push (EpoolMaxSize cfg) p k (LastAccessTime o)
               | None => p
               end in
      let remain := s64 (remain - 1) in
      if remain =? 0 then p else populate_loop ord remain d p
  end.

Definition populateEpool (ord : list bytes) (d : Dict) (p : LruEvictionPool)
    : LruEvictionPool :=
  populate_loop ord (EpoolLRUSampleSize cfg) d p.

(** [for i := 0; i < evictCount && len(ePool.pool) > 0; i++]; every round
    pops one candidate, so [fuel] is the length of the pool. *)
Fixpoint pop_loop (fuel : nat) (i evictCount : Z) (d : Dict) (p : LruEvictionPool)
    : Dict * LruEvictionPool :=
  match fuel with
  | O => (d, p)
  | S fuel =>
      if (i <? evictCount) && (0 <? Z.of_nat (length (pool p))) then
        let '(item, p) := Pop p in
        let d := match item with Some c => (Del d (key c)).2 | None => d end in
        pop_loop fuel (i + 1) evictCount d p
      else (d, p)
  end.

Definition evictLru (ord : list bytes) (d : Dict) (p : LruEvictionPool)
    : Dict * LruEvictionPool :=
  let p := populateEpool ord d p in
  pop_loop (length (pool p)) 0 (evict_count cfg) d p.

Definition evictLfu (d : Dict) (p : LruEvictionPool) : Dict * LruEvictionPool :=
  pop_loop (length (pool p)) 0 (evict_count cfg) d p.

Definition evict (ord : list bytes) (d : Dict) (p : LruEvictionPool)
    : Dict * LruEvictionPool :=
  if bool_decide (EvictionPolicy cfg = bs "allkeys-random") then (evictRandom ord d, p)
  else if bool_decide (EvictionPolicy cfg = bs "allkeys-lru") then evictLru ord d p
  else (evictRandom ord d, p).

Definition Set_ (ord : list bytes) (d : Dict) (p : LruEvictionPool) (k : bytes) (obj : Obj)
    : Dict * LruEvictionPool :=
  let '(d, p) :=
    if MaxKeyNumber cfg <=? Z.of_nat (size (dictStore d)) then evict ord d p else (d, p) in
  (mkDict (<[k := obj]> (dictStore d)) (expiredDictStore d), p).

(** The statement [dictStore.Set(key, dictStore.NewObj(key, value, ttlMs))] of
    the SET handlers: the argument is evaluated first. *)
Definition SetNew (t0 t1 : Z) (ord : list bytes) (d : Dict) (p : LruEvictionPool)
    (k : bytes) (v : Resp.value) (ttlMs : Z) : Dict * LruEvictionPool :=
  let '(obj, d) := NewObj t0 t1 d k v ttlMs in
  Set_ ord d p k obj.

End Evict.

(** ** Statistics, one pass over the expiry table in the order [ord] *)

Definition range_values (m : gmap bytes Z) (ord : list bytes) : list Z :=
  omap (λ k, m !! k) ord.

Definition ExpiringKeysCount (ms : Z) (ord : list bytes) (d : Dict) : Z :=
  let now := u64 ms in
  fold_left (λ count exp, if now <? exp then count + 1 else count)
    (range_values (expiredDictStore d) ord) 0.

Definition TLL_Avg (ms : Z) (ord : list bytes) (d : Dict) : Z :=
  let now := u64 ms in
  let '(res, cnt) :=
    fold_left (λ '(res, cnt) exp,
                 if now <? exp then (u64 (res + (exp - now)), u64 (cnt + 1))
                 else (res, cnt))
      (range_values (expiredDictStore d) ord) (0, 0) in
  if cnt =? 0 then 0 else res / cnt.

(** ** Invariant

    Every key with an expiry is a key of the dictionary, and the stored
    expiries fit their type. *)

Record wf (d : Dict) : Prop := {
  wf_dom : dom (expiredDictStore d) ⊆ dom (dictStore d);
  wf_u64 : map_Forall (λ _ e, is_u64 e) (expiredDictStore d)
}.

(** ** Deletion *)

Definition delete_all (d : Dict) (ks : list bytes) : Dict :=
  foldl (λ d k, (Del d k).2) d ks.

Lemma Del_dict d k : dictStore (Del d k).2 = delete k (dictStore d).
Proof.
  unfold Del. case_match eqn:E; [done|]. cbn. by rewrite delete_id.
Qed.

Lemma Del_expired d k :
  wf d → expiredDictStore (Del d k).2 = delete k (expiredDictStore d).
Proof.
  intros [Hd _]. unfold Del. case_match eqn:E; [done|]. cbn. rewrite delete_id; [done|].
  apply not_elem_of_dom. intros Hk%Hd. by apply not_elem_of_dom in E.
Qed.

Lemma Del_wf d k : wf d → wf (Del d k).2.
Proof.
  intros Hd. split; rewrite ?Del_dict, Del_expired by done.
  - rewrite !dom_delete_L. pose proof (wf_dom _ Hd). set_solver.
  - apply map_Forall_delete, Hd.
Qed.

Lemma delete_all_wf d ks : wf d → wf (delete_all d ks).
Proof. revert d; induction ks; intros d Hd; cbn; [done|]. by apply IHks, Del_wf. Qed.

Lemma delete_all_dict d ks k :
  dictStore (delete_all d ks) !! k = if bool_decide (k ∈ ks) then None else dictStore d !! k.
Proof.
  revert d; induction ks as [|k' ks IH]; intros d; cbn; [done|].
  rewrite IH, Del_dict. repeat case_bool_decide; try done; try set_solver.
  - apply elem_of_cons in H0 as [->|]; [|done]. apply lookup_delete_eq.
  - rewrite lookup_delete_ne; [done|]. set_solver.
Qed.

Lemma delete_all_expired d ks k :
  wf d → expiredDictStore (delete_all d ks) !! k
         = if bool_decide (k ∈ ks) then None else expiredDictStore d !! k.
Proof.
  revert d; induction ks as [|k' ks IH]; intros d Hd; cbn; [done|].
  rewrite IH, Del_expired by auto using Del_wf.
  repeat case_bool_decide; try done; try set_solver.
  - apply elem_of_cons in H0 as [->|]; [|done]. apply lookup_delete_eq.
  - rewrite lookup_delete_ne; [done|]. set_solver.
Qed.

Lemma delete_all_size d ks :
  NoDup ks → (∀ k, k ∈ ks → k ∈ dom (dictStore d)) →
  size (dictStore (delete_all d ks)) = (size (dictStore d) - length ks)%nat.
Proof.
  intros Hn. revert d; induction Hn as [|k ks Hk Hn IH]; intros d Hin; cbn; [lia|].
  destruct (proj1 (elem_of_dom (dictStore d) k)) as [o Ho]; [set_solver|].
  rewrite IH; rewrite Del_dict.
  - rewrite map_size_delete, Ho. cbn. lia.
  - intros k' Hk'. rewrite dom_delete_L. set_solver.
Qed.

(** ** What the eviction loops delete *)

Lemma evictRandom_loop_spec ord c d :
  is_s64 c → Z.of_nat (length ord) < two63 →
  evictRandom_loop ord c d
  = delete_all d (if 0 <? c then take (Z.to_nat c) ord else ord).
Proof.
  revert c d; induction ord as [|k ord IH]; intros c d Hc Hl; cbn [evictRandom_loop].
  { destruct (0 <? c); [|done]. by rewrite take_nil. }
  cbn [length] in Hl. rewrite IH by (apply s64_range || lia).
  destruct (Z.ltb_spec 0 c) as [Hp|Hn].
  - rewrite s64_id by mlia. replace (Z.to_nat c) with (S (Z.to_nat (c - 1))) by lia. cbn.
    destruct (Z.eqb_spec (c - 1) 0) as [->|]; [done|].
    by rewrite (proj2 (Z.ltb_lt 0 (c - 1))) by lia.
  - rewrite (proj2 (Z.eqb_neq (s64 (c - 1)) 0)) by mlia. cbn.
    destruct (Z.ltb_spec 0 (s64 (c - 1))) as [Hw|]; [|done].
    rewrite take_ge; [done|]. mlia.
Qed.

Lemma pop_loop_spec fuel i c d p :
  length (pool p) = fuel →
  pop_loop fuel i c d p
  = (delete_all d (key <$> take (Z.to_nat (c - i)) (pool p)),
     mkPool (drop (Z.to_nat (c - i)) (pool p))).
Proof.
  revert i d p; induction fuel as [|fuel IH]; intros i d [[|it l]] Hf; try done.
  { cbn. by rewrite take_nil, drop_nil. }
  injection Hf as Hf. cbn [pop_loop pool length].
  destruct (Z.ltb_spec i c) as [Hi|Hi]; cbn -[Z.of_nat].
  - rewrite (proj2 (Z.ltb_lt 0 _)) by lia. cbn. rewrite IH by done. cbn.
    replace (Z.to_nat (c - i)) with (S (Z.to_nat (c - (i + 1)))) by lia. done.
  - by replace (Z.to_nat (c - i)) with 0%nat by lia.
Qed.

(** What eviction promises to [Set]: it only deletes keys. *)
Lemma evict_deletes `{!Sorter Less} cfg ord d p :
  Z.of_nat (length ord) < two63 → ∃ ks, (evict cfg ord d p).1 = delete_all d ks.
Proof.
  intros Hl. unfold evict, evictRandom, evictLru.
  assert (is_s64 (evict_count cfg)) as Hc.
  { unfold evict_count, F64.to_int64. repeat case_match; mlia. }
  rewrite evictRandom_loop_spec by done.
  repeat case_bool_decide; cbn; eauto. rewrite pop_loop_spec by done. cbn. eauto.
Qed.

Lemma evict_wf `{!Sorter Less} cfg ord d p :
  Z.of_nat (length ord) < two63 → wf d → wf (evict cfg ord d p).1.
Proof. intros Hl Hd. destruct (evict_deletes cfg ord d p Hl) as [ks ->]. by apply delete_all_wf. Qed.

(** ** Shape of the state after each operation *)

Lemma Get_dict t0 t1 d k :
  dom (dictStore (Get t0 t1 d k).2)
  = if HasExpired t1 d k then dom (dictStore d) ∖ {[k]} else dom (dictStore d).
Proof.
  unfold Get. destruct (dictStore d !! k) as [o|] eqn:E.
  - change (HasExpired t1 (mkDict _ (expiredDictStore d)) k) with (HasExpired t1 d k).
    case_match; cbn; rewrite ?Del_dict; cbn.
    + rewrite dom_delete_L, dom_insert_L. set_solver.
    + apply dom_insert_lookup_L. eauto.
  - apply not_elem_of_dom in E. cbn. case_match; set_solver.
Qed.

Lemma Get_wf t0 t1 d k : wf d → wf (Get t0 t1 d k).2.
Proof.
  intros Hd. unfold Get. destruct (dictStore d !! k) as [o|] eqn:E; [|done].
  assert (wf (mkDict (<[k:=mkObj (Value o) (now t0)]> (dictStore d)) (expiredDictStore d))) as H.
  { split; cbn; [|apply Hd]. rewrite dom_insert_L. pose proof (wf_dom _ Hd). set_solver. }
  case_match; [by apply Del_wf|done].
Qed.

(** Between [NewObj] and the insertion in [Set], the key being set may have
    an expiry without being in the dictionary yet. *)
Record almost_wf (k : bytes) (d : Dict) : Prop := {
  almost_dom : dom (expiredDictStore d) ⊆ dom (dictStore d) ∪ {[k]};
  almost_u64 : map_Forall (λ _ e, is_u64 e) (expiredDictStore d)
}.

Lemma NewObj_almost t0 t1 d k v ttl : wf d → almost_wf k (NewObj t0 t1 d k v ttl).2.
Proof.
  intros [Hd Hu]. unfold NewObj. case_match; cbn; split; cbn.
  - rewrite dom_insert_L. set_solver.
  - apply map_Forall_insert_2; [apply u64_range|done].
  - rewrite dom_delete_L. set_solver.
  - by apply map_Forall_delete.
Qed.

Lemma delete_all_almost k d ks : almost_wf k d → almost_wf k (delete_all d ks).
Proof.
  revert d; induction ks as [|k' ks IH]; intros d Hd; cbn; [done|]. apply IH.
  unfold Del. case_match eqn:E; [|done]. destruct Hd as [Hd Hu]. split; cbn.
  - rewrite !dom_delete_L. set_solver.
  - by apply map_Forall_delete.
Qed.

Lemma almost_insert k d o :
  almost_wf k d → wf (mkDict (<[k := o]> (dictStore d)) (expiredDictStore d)).
Proof. intros [Hd Hu]. split; cbn; [|done]. rewrite dom_insert_L. set_solver. Qed.

(** [Set] in terms of what eviction deletes. *)
Lemma Set_spec `{!Sorter Less} cfg ord d p k o :
  Z.of_nat (length ord) < two63 →
  ∃ ks, (Set_ cfg ord d p k o).1
        = mkDict (<[k := o]> (dictStore (delete_all d ks))) (expiredDictStore (delete_all d ks))
        ∧ (Z.of_nat (size (dictStore d)) < MaxKeyNumber cfg → ks = []).
Proof.
  intros Hl. unfold Set_. destruct (Z.leb_spec (MaxKeyNumber cfg) (Z.of_nat (size (dictStore d)))).
  - destruct (evict_deletes cfg ord d p Hl) as [ks Hks].
    destruct (evict cfg ord d p) as [d' p']. cbn in *. subst. exists ks. split; [done|lia].
  - by exists [].
Qed.

Lemma NewObj_dict t0 t1 d k v ttl : dictStore (NewObj t0 t1 d k v ttl).2 = dictStore d.
Proof. unfold NewObj. by case_match. Qed.

Lemma SetNew_wf `{!Sorter Less} cfg t0 t1 ord d p k v ttl :
  Z.of_nat (length ord) < two63 → wf d → wf (SetNew cfg t0 t1 ord d p k v ttl).1.
Proof.
  intros Hl Hd. unfold SetNew. pose proof (NewObj_almost t0 t1 d k v ttl Hd) as Ha.
  destruct (NewObj _ _ _ _ _ _) as [o d1]. cbn in Ha.
  destruct (Set_spec cfg ord d1 p k o Hl) as (ks & -> & _).
  by apply almost_insert, delete_all_almost.
Qed.

(** Below capacity nothing is evicted. *)
Lemma SetNew_below `{!Sorter Less} cfg t0 t1 ord d p k v ttl :
  Z.of_nat (size (dictStore d)) < MaxKeyNumber cfg →
  SetNew cfg t0 t1 ord d p k v ttl
  = (mkDict (<[k := mkObj v (now t0)]> (dictStore d))
            (if 0 <? ttl then <[k := u64 (u64 t1 + u64 ttl)]> (expiredDictStore d)
             else delete k (expiredDictStore d)), p).
Proof.
  intros Hl. unfold SetNew, NewObj, Set_.
  destruct (0 <? ttl); cbn; by rewrite (proj2 (Z.leb_gt _ _)) by done.
Qed.

(** ** A pool shared with other goroutines

    The pool is a package variable without a lock, and the workers of the
    multi-threaded server evict at the same time.  What one of them pops is then
    whatever the others left in the pool: [race] gives the keys of its candidates
    and the pool afterwards; a key of another worker's dictionary is no key of
    this one and [Del] does nothing.  (An eviction can also panic then: see
    [Server.work_panics] and [EvictionRace].) *)

(** The eviction goes through the pool. *)
Definition reaches_pool (cfg : config) (d : Dict) : bool :=
  bool_decide (EvictionPolicy cfg = bs "allkeys-lru") &&
  (MaxKeyNumber cfg <=? Z.of_nat (size (dictStore d))).

Definition SetNew_shared `{!Sorter Less} (cfg : config) (t0 t1 : Z) (ord : list bytes)
    (race : option (list bytes * LruEvictionPool)) (d : Dict) (p : LruEvictionPool)
    (k : bytes) (v : Resp.value) (ttlMs : Z) : Dict * LruEvictionPool :=
  match race with
  | Some (popped, p') =>
      if reaches_pool cfg d then
        let '(obj, d) := NewObj t0 t1 d k v ttlMs in
        let d := delete_all d popped in
        (mkDict (<[k := obj]> (dictStore d)) (expiredDictStore d), p')
      else SetNew cfg t0 t1 ord d p k v ttlMs
  | None => SetNew cfg t0 t1 ord d p k v ttlMs
  end.

(** Below capacity, and under another policy, nobody can interfere. *)
Lemma SetNew_shared_alone `{!Sorter Less} cfg t0 t1 ord race d p k v ttl :
  Z.of_nat (size (dictStore d)) < MaxKeyNumber cfg ∨ EvictionPolicy cfg ≠ bs "allkeys-lru" →
  SetNew_shared cfg t0 t1 ord race d p k v ttl = SetNew cfg t0 t1 ord d p k v ttl.
Proof.
  intros H. unfold SetNew_shared, reaches_pool. destruct race as [[popped p']|]; [|done].
  destruct H as [H|H].
  - by rewrite (proj2 (Z.leb_gt _ _)), andb_false_r by done.
  - by rewrite bool_decide_eq_false_2.
Qed.

Lemma SetNew_shared_wf `{!Sorter Less} cfg t0 t1 ord race d p k v ttl :
  Z.of_nat (length ord) < two63 → wf d → wf (SetNew_shared cfg t0 t1 ord race d p k v ttl).1.
Proof.
  intros Hl Hd. unfold SetNew_shared. destruct race as [[popped p']|]; [|by apply SetNew_wf].
  destruct (reaches_pool cfg d); [|by apply SetNew_wf].
  pose proof (NewObj_almost t0 t1 d k v ttl Hd) as Ha. destruct (NewObj _ _ _ _ _ _) as [o d1].
  cbn in Ha |- *. by apply almost_insert, delete_all_almost.
Qed.

(** ** Theorems *)

(** C15: the dictionary's invariant (an expiry only for a stored key, expiries
    within [uint64]) holds initially and is kept by SET ([NewObj] and then [Set],
    also when other goroutines use the pool during its eviction), GET, deletion and
    eviction, for any clock readings, map orders, eviction policy and pool
    contents. *)
Theorem dict_invariant `{!Sorter Less} cfg t0 t1 ord race d p k v ttl :
  Z.of_nat (length ord) < two63 → wf d →
  wf CreateDict ∧ wf (SetNew cfg t0 t1 ord d p k v ttl).1
  ∧ wf (SetNew_shared cfg t0 t1 ord race d p k v ttl).1 ∧ wf (Get t0 t1 d k).2
  ∧ wf (Del d k).2 ∧ wf (evict cfg ord d p).1.
Proof.
  intros Hl Hd. split_and!; auto using SetNew_wf, SetNew_shared_wf, Get_wf, Del_wf, evict_wf.
  split; cbn; [set_solver|apply map_Forall_empty].
Qed.

(** Set then get: below capacity, the value set with a positive TTL is
    returned by every lookup before [t1 + ttl] and by none from then on, when
    the key is also deleted; without a TTL it is always returned. *)
Lemma set_then_get `{!Sorter Less} cfg t0 t1 ord d p k v ttl t2 t3 :
  Z.of_nat (size (dictStore d)) < MaxKeyNumber cfg →
  0 <= t1 → 0 <= t3 < two64 → t1 + Z.max 0 ttl < two64 →
  let d' := (SetNew cfg t0 t1 ord d p k v ttl).1 in
  if bool_decide (0 < ttl ∧ t1 + ttl <= t3)
  then (Get t2 t3 d' k).1 = None ∧ dictStore (Get t2 t3 d' k).2 !! k = None
  else (Get t2 t3 d' k).1 = Some (mkObj v (now t2)).
Proof.
  intros Hsz H1 H3 Hov. rewrite SetNew_below by done. cbn zeta. unfold Get. cbn.
  rewrite lookup_insert_eq. cbn. unfold HasExpired; cbn.
  rewrite (u64_id t3), (u64_id t1) by mlia.
  destruct (Z.ltb_spec 0 ttl); cbn.
  - rewrite lookup_insert_eq, (u64_id ttl), u64_id by mlia.
    case_bool_decide; destruct (Z.leb_spec (t1 + ttl) t3); cbn; try lia; [|done].
    rewrite Del_dict. cbn. by rewrite lookup_delete_eq.
  - rewrite lookup_delete_eq. by rewrite bool_decide_eq_false_2 by lia.
Qed.

(** Frame: below capacity, setting one key changes neither the value nor
    the expiry of any other, and a lookup changes no other key. *)
Lemma set_get_frame `{!Sorter Less} cfg t0 t1 ord d p k v ttl k' :
  k ≠ k' → wf d → Z.of_nat (size (dictStore d)) < MaxKeyNumber cfg →
  let d1 := (SetNew cfg t0 t1 ord d p k v ttl).1 in
  let d2 := (Get t0 t1 d k).2 in
  dictStore d1 !! k' = dictStore d !! k'
  ∧ expiredDictStore d1 !! k' = expiredDictStore d !! k'
  ∧ dictStore d2 !! k' = dictStore d !! k'
  ∧ expiredDictStore d2 !! k' = expiredDictStore d !! k'.
Proof.
  intros Hk Hd Hsz. rewrite SetNew_below by done. cbn. split_and!.
  - by rewrite lookup_insert_ne.
  - case_match; by rewrite ?lookup_insert_ne, ?lookup_delete_ne.
  - unfold Get. repeat case_match; cbn; rewrite ?Del_dict; cbn;
      rewrite ?lookup_delete_ne, ?lookup_insert_ne; done.
  - unfold Get. repeat case_match; cbn; try done.
    unfold Del. cbn. rewrite lookup_insert_eq. cbn. by rewrite lookup_delete_ne.
Qed.

Lemma iter_order_nodup {V} (m : gmap bytes V) ord : iter_order m ord → NoDup ord.
Proof. intros ->. apply NoDup_fst_map_to_list. Qed.

Lemma iter_order_dom {V} (m : gmap bytes V) ord k : iter_order m ord → k ∈ ord ↔ k ∈ dom m.
Proof.
  intros ->. rewrite elem_of_dom, list_elem_of_fmap. split.
  - intros ([k' x] & -> & H%elem_of_map_to_list). eauto.
  - intros [x H]. exists (k, x). by rewrite elem_of_map_to_list.
Qed.

Lemma iter_order_length {V} (m : gmap bytes V) ord : iter_order m ord → length ord = size m.
Proof. intros ->. rewrite length_fmap. apply length_map_to_list. Qed.

Lemma evict_count_s64 cfg : is_s64 (evict_count cfg).
Proof. unfold evict_count, F64.to_int64. repeat case_match; mlia. Qed.

(** The keys random eviction removes: the first [evict_count] of the map's
    iteration order, or all of them when that count is not positive. *)
Definition random_victims (cfg : config) (ord : list bytes) : list bytes :=
  if 0 <? evict_count cfg then take (Z.to_nat (evict_count cfg)) ord else ord.

Lemma evictRandom_victims cfg ord d :
  Z.of_nat (length ord) < two63 → evictRandom cfg ord d = delete_all d (random_victims cfg ord).
Proof. intros. apply evictRandom_loop_spec; [apply evict_count_s64|done]. Qed.

Lemma random_victims_sublist cfg ord : random_victims cfg ord `sublist_of` ord.
Proof. unfold random_victims. case_match; [apply sublist_take|done]. Qed.

Lemma evictRandom_size cfg ord d :
  iter_order (dictStore d) ord → Z.of_nat (length ord) < two63 →
  size (dictStore (evictRandom cfg ord d))
  = (size (dictStore d) - length (random_victims cfg ord))%nat.
Proof.
  intros Ho Hl. rewrite evictRandom_victims by done. apply delete_all_size.
  - eapply sublist_NoDup, random_victims_sublist. by eapply iter_order_nodup.
  - intros k Hk. eapply iter_order_dom; [done|].
    by eapply elem_of_submseteq, sublist_submseteq, random_victims_sublist.
Qed.

(** Random eviction removes exactly [min(evictCount, n)] of the [n] keys
    when the count is positive, together with their expiries, and touches no
    other key; when the count is zero or negative (a small
    [REDIS_MAX_KEY_NUMBER] or ratio) it removes every key. *)
Lemma evictRandom_exact cfg ord d :
  wf d → iter_order (dictStore d) ord → Z.of_nat (length ord) < two63 →
  (0 < evict_count cfg →
     size (dictStore (evictRandom cfg ord d))
     = (size (dictStore d) - Z.to_nat (evict_count cfg))%nat)
  ∧ (evict_count cfg <= 0 → dictStore (evictRandom cfg ord d) = ∅)
  ∧ ∀ k, k ∈ dom (dictStore (evictRandom cfg ord d)) →
      dictStore (evictRandom cfg ord d) !! k = dictStore d !! k
      ∧ expiredDictStore (evictRandom cfg ord d) !! k = expiredDictStore d !! k.
Proof.
  intros Hd Ho Hl. pose proof (iter_order_length _ _ Ho) as Hn. split_and!.
  - intros Hc. rewrite evictRandom_size by done. unfold random_victims.
    rewrite (proj2 (Z.ltb_lt _ _)) by done. rewrite length_take. lia.
  - intros Hc. apply map_size_empty_iff. rewrite evictRandom_size by done.
    unfold random_victims. rewrite (proj2 (Z.ltb_ge _ _)) by done. lia.
  - intros k Hk. rewrite evictRandom_victims in * by done.
    rewrite delete_all_expired, delete_all_dict by done.
    apply elem_of_dom in Hk as [o Hk]. rewrite delete_all_dict in Hk.
    by case_bool_decide.
Qed.

(** Every policy but "allkeys-lru" is the random one, known or not. *)
Lemma evict_not_lru `{!Sorter Less} cfg ord d p :
  EvictionPolicy cfg ≠ bs "allkeys-lru" → evict cfg ord d p = (evictRandom cfg ord d, p).
Proof.
  intros. unfold evict. rewrite (bool_decide_eq_false_2 (_ = bs "allkeys-lru")) by done.
  by case_match.
Qed.

Lemma populate_inv `{!Sorter Less} cfg ord d p :
  0 <= EpoolMaxSize cfg → inv (EpoolMaxSize cfg) p →
  inv (EpoolMaxSize cfg) (populateEpool cfg ord d p).
Proof.
  intros Hm. unfold populateEpool. generalize (EpoolLRUSampleSize cfg).
  revert p; induction ord as [|k ord IH]; intros p n Hi; cbn -[s64]; [done|].
  repeat case_match; auto using Push_inv.
Qed.

(** C36: capacity: under the random policy with a positive eviction count, a
    dictionary at or below [MaxKeyNumber] keys stays so after a SET. *)
Theorem set_within_capacity `{!Sorter Less} cfg t0 t1 ord d p k v ttl :
  EvictionPolicy cfg ≠ bs "allkeys-lru" → 0 < evict_count cfg →
  iter_order (dictStore d) ord → Z.of_nat (length ord) < two63 →
  0 < MaxKeyNumber cfg → Z.of_nat (size (dictStore d)) <= MaxKeyNumber cfg →
  Z.of_nat (size (dictStore (SetNew cfg t0 t1 ord d p k v ttl).1)) <= MaxKeyNumber cfg.
Proof.
  intros Hp Hc Ho Hl Hm Hsz. unfold SetNew. pose proof (NewObj_dict t0 t1 d k v ttl) as Hd.
  destruct (NewObj _ _ _ _ _ _) as [o d1]. cbn in Hd. rewrite <- Hd in *.
  assert (∀ m : gmap bytes Obj, (size (<[k:=o]> m) <= S (size m))%nat) as Hins.
  { intros m. rewrite map_size_insert. case_match; cbn; lia. }
  unfold Set_. rewrite evict_not_lru by done.
  destruct (Z.leb_spec (MaxKeyNumber cfg) (Z.of_nat (size (dictStore d1)))).
  - cbn. specialize (Hins (dictStore (evictRandom cfg ord d1))).
    rewrite evictRandom_size in Hins by done. unfold random_victims in Hins.
    rewrite (proj2 (Z.ltb_lt _ _)), length_take in Hins by done.
    pose proof (iter_order_length _ _ Ho). lia.
  - cbn. specialize (Hins (dictStore d1)). lia.
Qed.

(** A TTL can be lost: when the dictionary is full, the key being set is
    already stored and random eviction happens to pick it, the expiry that
    [NewObj] has just recorded is deleted with the old entry, so the key set
    with a TTL never expires. *)
Lemma set_full_loses_ttl `{!Sorter Less} cfg t0 t1 ord d p k v ttl :
  EvictionPolicy cfg ≠ bs "allkeys-lru" →
  MaxKeyNumber cfg <= Z.of_nat (size (dictStore d)) → Z.of_nat (length ord) < two63 →
  k ∈ dom (dictStore d) → k ∈ random_victims cfg ord → wf d →
  let d' := (SetNew cfg t0 t1 ord d p k v ttl).1 in
  dictStore d' !! k = Some (mkObj v (now t0)) ∧ GetExpiry d' k = None.
Proof.
  intros Hp Hm Hl Hk Hv Hd. unfold SetNew.
  pose proof (NewObj_dict t0 t1 d k v ttl) as Hdict.
  pose proof (NewObj_almost t0 t1 d k v ttl Hd) as Ha.
  assert ((NewObj t0 t1 d k v ttl).1 = mkObj v (now t0)) as Hobj.
  { unfold NewObj. by case_match. }
  destruct (NewObj _ _ _ _ _ _) as [o d1]. cbn in Hdict, Ha, Hobj. subst o.
  assert (wf d1) as Hd1.
  { destruct Ha as [Ha Hu]. split; [|done]. rewrite Hdict in *. set_solver. }
  unfold Set_. rewrite evict_not_lru, Hdict, (proj2 (Z.leb_le _ _)) by done.
  cbn. rewrite lookup_insert_eq. split; [done|]. unfold GetExpiry; cbn.
  rewrite evictRandom_victims, delete_all_expired by done.
  by rewrite bool_decide_eq_true_2.
Qed.

(** C35: LRU eviction deletes the oldest candidates: the pool built from the
    sample is in access order, its first [evictCount] entries are deleted from
    the dictionary and leave the pool, the others stay in the pool. *)
Theorem evictLru_oldest `{!Sorter Less} cfg ord d p :
  inv (EpoolMaxSize cfg) p → 0 <= EpoolMaxSize cfg →
  ∃ victims rest,
    pool (populateEpool cfg ord d p) = victims ++ rest
    ∧ evictLru cfg ord d p = (delete_all d (key <$> victims), mkPool rest)
    ∧ Z.of_nat (length victims)
      = Z.min (Z.max 0 (evict_count cfg)) (Z.of_nat (length (victims ++ rest)))
    ∧ ∀ a b, a ∈ victims → b ∈ rest → older a b.
Proof.
  intros Hi Hm. unfold evictLru. set (q := populateEpool cfg ord d p).
  assert (inv (EpoolMaxSize cfg) q) as Hq by (by apply populate_inv).
  rewrite pop_loop_spec, Z.sub_0_r by done.
  set (n := Z.to_nat (evict_count cfg)).
  exists (take n (pool q)), (drop n (pool q)). rewrite take_drop. split_and!; try done.
  - rewrite length_take. lia.
  - destruct Hq as [Hs _ _]. rewrite <- (take_drop n (pool q)) in Hs.
    intros a b. by apply StronglySorted_app_1_elem_of.
Qed.

(** ** Statistics *)

(** The remaining times of the keys that have not expired at [ms]. *)
Definition remaining (ms : Z) (d : Dict) : list Z :=
  (λ e, e - u64 ms) <$> filter (λ e, u64 ms < e) (map_to_list (expiredDictStore d)).*2.

Definition sumZ (l : list Z) : Z := foldr Z.add 0 l.

Lemma sumZ_perm l l' : l ≡ₚ l' → sumZ l = sumZ l'.
Proof. unfold sumZ. induction 1; cbn; lia. Qed.

Lemma range_values_perm (m : gmap bytes Z) ord :
  iter_order m ord → range_values m ord ≡ₚ (map_to_list m).*2.
Proof.
  intros Ho. unfold range_values.
  assert (omap (λ k, m !! k) ord ≡ₚ omap (λ k, m !! k) (map_to_list m).*1) as ->
    by (unfold iter_order in Ho; by rewrite Ho).
  assert (∀ l, (∀ k x, (k, x) ∈ l → m !! k = Some x) → omap (λ k, m !! k) l.*1 = l.*2) as H.
  { induction l as [|[k x] l IH]; intros Hl; cbn; [done|].
    rewrite (Hl k x) by left. rewrite IH; [done|]. intros. apply Hl. by right. }
  rewrite H; [done|]. intros k x. by rewrite elem_of_map_to_list.
Qed.

Lemma count_fold now l n :
  fold_left (λ count e, if now <? e then count + 1 else count) l n
  = n + Z.of_nat (length (filter (λ e, now < e) l)).
Proof.
  revert n; induction l as [|e l IH]; intros n; cbn [fold_left]; [cbn; lia|].
  rewrite IH, filter_cons. destruct (Z.ltb_spec now e).
  - rewrite decide_True by done. cbn [length]. lia.
  - rewrite decide_False by lia. lia.
Qed.

Lemma avg_fold now l r n :
  fold_left (λ '(res, cnt) exp,
     if now <? exp then (u64 (res + (exp - now)), u64 (cnt + 1)) else (res, cnt)) l
     (u64 r, u64 n)
  = (u64 (r + sumZ ((λ e, e - now) <$> filter (λ e, now < e) l)),
     u64 (n + Z.of_nat (length (filter (λ e, now < e) l)))).
Proof.
  revert r n; induction l as [|e l IH]; intros r n; cbn [fold_left]; [by rewrite !Z.add_0_r|].
  rewrite filter_cons. destruct (Z.ltb_spec now e).
  - rewrite decide_True by done. rewrite !u64_add_l, IH.
    f_equal; f_equal; unfold sumZ; cbn; lia.
  - rewrite decide_False by lia. apply IH.
Qed.

Lemma remaining_sum now l :
  Z.of_nat (length (filter (λ e, now < e) l))
  <= sumZ ((λ e, e - now) <$> filter (λ e, now < e) l).
Proof.
  induction l as [|e l IH]; [cbn; lia|]. rewrite filter_cons. case_decide; [|done].
  unfold sumZ in *. cbn [length fmap list_fmap foldr] in *. lia.
Qed.

(** The INFO counters do not depend on the order the run time walks the
    map in: [ExpiringKeysCount] is the number of keys with an expiry in the
    future, and [TLL_Avg] the integer average of their remaining times (0 if
    there are none), as long as the sum fits [uint64]. *)
Lemma stats_exact ms d ord :
  iter_order (expiredDictStore d) ord →
  ExpiringKeysCount ms ord d = Z.of_nat (length (remaining ms d))
  ∧ (sumZ (remaining ms d) < two64 →
     TLL_Avg ms ord d
     = if bool_decide (remaining ms d = []) then 0
       else sumZ (remaining ms d) / Z.of_nat (length (remaining ms d))).
Proof.
  intros Ho. apply range_values_perm in Ho.
  assert (Z.of_nat (length (remaining ms d)) <= sumZ (remaining ms d)) as Hlen.
  { unfold remaining. rewrite length_fmap. apply remaining_sum. }
  split.
  - unfold ExpiringKeysCount. rewrite count_fold, Ho. unfold remaining.
    rewrite length_fmap. lia.
  - intros Hs. unfold TLL_Avg. change (0, 0) with (u64 0, u64 0). rewrite avg_fold.
    assert (∀ l, (λ e, e - u64 ms) <$> filter (λ e, u64 ms < e) l ≡ₚ remaining ms d → 
            sumZ ((λ e, e - u64 ms) <$> filter (λ e, u64 ms < e) l) = sumZ (remaining ms d)
            ∧ length (filter (λ e, u64 ms < e) l) = length (remaining ms d)) as Hp.
    { intros l Hl. split; [by apply sumZ_perm|]. by rewrite <- Hl, length_fmap. }
    destruct (Hp (range_values (expiredDictStore d) ord)) as [-> ->].
    { by rewrite Ho. }
    rewrite !u64_id by mlia. case_bool_decide as E.
    + by rewrite E.
    + destruct (remaining ms d); [done|]. rewrite (proj2 (Z.eqb_neq _ 0)); [done|].
      cbn [length]. lia.
Qed.

(** ** Witnesses: a dictionary of two keys, one with an expiry, and a
    configuration that holds two keys and evicts half of them *)

Definition demo : Dict :=
  mkDict (<[bs "a" := mkObj (Resp.VStr (bs "1")) 5]> (<[bs "b" := mkObj (Resp.VStr (bs "2")) 9]> ∅))
         (<[bs "a" := 7000]> ∅).

Definition demo_order : list bytes := [bs "a"; bs "b"].

Definition demo_config (policy : string) : config :=
  mkConfig (bs "tcp") (bs ":6379") 20000 2 (F64.of_ratio false 1 2) (bs policy) 16 5.

Lemma demo_wf : wf demo.
Proof.
  split; cbn.
  - apply (bool_decide_unpack _). vm_compute. exact I.
  - apply map_Forall_insert_2; [|apply map_Forall_empty]. split; vm_compute; congruence.
Qed.

Lemma demo_iter : iter_order (dictStore demo) demo_order.
Proof. unfold iter_order. apply (bool_decide_unpack _). vm_compute. exact I. Qed.

Lemma dict_invariant_witness :
  wf (SetNew (demo_config "allkeys-lru") 0 0 demo_order demo ePool_init (bs "c")
        (Resp.VStr (bs "3")) 10).1.
Proof.
  apply (dict_invariant (demo_config "allkeys-lru") 0 0 demo_order None demo ePool_init (bs "c")
           (Resp.VStr (bs "3")) 10); [vm_compute; reflexivity|exact demo_wf].
Defined.

Lemma set_then_get_witness :
  (Get 1999 1999
     (SetNew Config.default 1000 1000 [] demo ePool_init (bs "c") (Resp.VStr (bs "3")) 1000).1
     (bs "c")).1 = Some (mkObj (Resp.VStr (bs "3")) 1).
Proof.
  assert (H := set_then_get Config.default 1000 1000 [] demo ePool_init (bs "c")
                 (Resp.VStr (bs "3")) 1000 1999 1999 ltac:(vm_compute; reflexivity) ltac:(lia)
                 ltac:(unfold two64; lia) ltac:(vm_compute; reflexivity)).
  cbv zeta in H. rewrite bool_decide_eq_false_2 in H by lia. exact H.
Defined.

Lemma set_get_frame_witness :
  dictStore (SetNew Config.default 0 0 [] demo ePool_init (bs "c") (Resp.VStr (bs "3")) 10).1
    !! bs "a" = dictStore demo !! bs "a".
Proof.
  apply (set_get_frame Config.default 0 0 [] demo ePool_init (bs "c") (Resp.VStr (bs "3")) 10
           (bs "a")); [|exact demo_wf|vm_compute; reflexivity].
  intros E. vm_compute in E. congruence.
Defined.

Lemma evictRandom_exact_witness :
  size (dictStore (evictRandom (demo_config "allkeys-random") demo_order demo)) = 1%nat.
Proof.
  rewrite (proj1 (evictRandom_exact (demo_config "allkeys-random") demo_order demo demo_wf demo_iter
                    ltac:(vm_compute; reflexivity))); vm_compute; reflexivity.
Defined.

Lemma set_within_capacity_witness :
  Z.of_nat (size (dictStore (SetNew (demo_config "allkeys-random") 0 0 demo_order demo ePool_init
                               (bs "c") (Resp.VStr (bs "3")) 10).1)) <= 2.
Proof.
  apply (set_within_capacity (demo_config "allkeys-random") 0 0 demo_order demo ePool_init (bs "c")
           (Resp.VStr (bs "3")) 10); [|vm_compute; reflexivity|exact demo_iter|..];
    vm_compute; congruence.
Defined.

Lemma set_full_loses_ttl_witness :
  GetExpiry (SetNew (demo_config "allkeys-random") 0 0 demo_order demo ePool_init
               (bs "a") (Resp.VStr (bs "3")) 10).1 (bs "a") = None.
Proof.
  apply (set_full_loses_ttl (demo_config "allkeys-random") 0 0 demo_order demo ePool_init (bs "a")
           (Resp.VStr (bs "3")) 10); [..|exact demo_wf];
    try (apply (bool_decide_unpack _)); vm_compute; try exact I; congruence.
Defined.

Lemma evictLru_oldest_witness :
  ∃ victims rest, evictLru (demo_config "allkeys-lru") demo_order demo ePool_init
                  = (delete_all demo (key <$> victims), mkPool rest).
Proof.
  destruct (evictLru_oldest (demo_config "allkeys-lru") demo_order demo ePool_init)
    as (v & r & _ & E & _); [|vm_compute; congruence|exists v, r; exact E].
  split; cbn; [constructor|constructor|vm_compute; congruence].
Defined.

Lemma stats_exact_witness : ExpiringKeysCount 3000 [bs "a"] demo = 1.
Proof.
  rewrite (proj1 (stats_exact 3000 demo [bs "a"] ltac:(unfold iter_order; apply (bool_decide_unpack _); vm_compute; exact I))).
  vm_compute. reflexivity.
Defined.

End Dict.
