(* ===== verification/SimpleSet.v ===== *)
(** * Sets of strings (src/internal/data_structure/simple_set/simple_set.go) *)

From Stdlib Require Import ZArith Lia Ascii.
From stdpp Require Import base gmap list strings numbers fin_sets.
From S2P Require Import Prelude.

Module SimpleSet.

Record SimpleSet := mkSet { key : bytes; dict : gset bytes }.

Definition NewSimpleSet (k : bytes) : SimpleSet := mkSet k ∅.

Definition add_step (st : Z * gset bytes) (m : bytes) : Z * gset bytes :=
  let '(added, dict) := st in
  if bool_decide (m ∈ dict) then st else (added + 1, {[m]} ∪ dict).

Definition Add (s : SimpleSet) (members : list bytes) : Z * SimpleSet :=
  let '(added, d) := foldl add_step (0, dict s) members in (added, mkSet (key s) d).

Definition rem_step (st : Z * gset bytes) (m : bytes) : Z * gset bytes :=
  let '(removed, dict) := st in
  if bool_decide (m ∈ dict) then (removed + 1, dict ∖ {[m]}) else st.

Definition Rem (s : SimpleSet) (members : list bytes) : Z * SimpleSet :=
  let '(removed, d) := foldl rem_step (0, dict s) members in (removed, mkSet (key s) d).

Definition IsMember (s : SimpleSet) (member : bytes) : Z :=
  if bool_decide (member ∈ dict s) then 1 else 0.

(** [ord] is the order in which [range s.dict] visits the members. *)
Definition Members (s : SimpleSet) (ord : list bytes) : list bytes :=
  fold_left (λ m k, m ++ [k]) ord [].

Definition member_order (s : SimpleSet) (ord : list bytes) : Prop := ord ≡ₚ elements (dict s).

(** ** Lemmas *)

Lemma size_insert (m : bytes) (X : gset bytes) : m ∉ X → size ({[m]} ∪ X) = S (size X).
Proof. intros. rewrite size_union, size_singleton by set_solver. done. Qed.

Lemma add_steps n d ms :
  foldl add_step (n, d) ms
  = (n + Z.of_nat (size (list_to_set ms ∖ d : gset bytes)), list_to_set ms ∪ d).
Proof.
  revert n d; induction ms as [|m ms IH]; intros n d; cbn [foldl list_to_set].
  { f_equal; [|set_solver]. replace (∅ ∖ d) with (∅ : gset bytes) by set_solver.
    rewrite size_empty. lia. }
  unfold add_step at 2. case_bool_decide as Hm; rewrite IH.
  - f_equal; [|set_solver]. do 3 f_equal. set_solver.
  - f_equal; [|set_solver].
    replace (({[m]} ∪ list_to_set ms) ∖ d)
      with ({[m]} ∪ (list_to_set ms ∖ ({[m]} ∪ d)) : gset bytes).
    + rewrite size_insert by set_solver. lia.
    + apply set_eq. intros x. destruct (decide (x = m)); set_solver.
Qed.

Lemma rem_steps n d ms :
  foldl rem_step (n, d) ms
  = (n + Z.of_nat (size (list_to_set ms ∩ d : gset bytes)), d ∖ list_to_set ms).
Proof.
  revert n d; induction ms as [|m ms IH]; intros n d; cbn [foldl list_to_set].
  { f_equal; [|set_solver]. replace (∅ ∩ d) with (∅ : gset bytes) by set_solver.
    rewrite size_empty. lia. }
  unfold rem_step at 2. case_bool_decide as Hm; rewrite IH.
  - f_equal; [|set_solver].
    replace (({[m]} ∪ list_to_set ms) ∩ d)
      with ({[m]} ∪ (list_to_set ms ∩ (d ∖ {[m]})) : gset bytes).
    + rewrite size_insert by set_solver. lia.
    + apply set_eq. intros x. destruct (decide (x = m)); set_solver.
  - f_equal; [|set_solver]. do 3 f_equal. set_solver.
Qed.

Lemma members_snoc (ord acc : list bytes) : fold_left (λ m k, m ++ [k]) ord acc = acc ++ ord.
Proof.
  revert acc; induction ord as [|k ord IH]; intros acc; cbn; [by rewrite app_nil_r|].
  by rewrite IH, <- app_assoc.
Qed.

(** ** The operations as set operations *)

(** SADD implements union: the stored set grows by exactly the given
    members and the reply counts the distinct ones that were new, however
    often they are repeated in the arguments. *)
Lemma Add_union s ms :
  Add s ms = (Z.of_nat (size (list_to_set ms ∖ dict s : gset bytes)),
              mkSet (key s) (list_to_set ms ∪ dict s)).
Proof. unfold Add. by rewrite add_steps. Qed.

(** SREM implements difference and counts the members it removed. *)
Lemma Rem_difference s ms :
  Rem s ms = (Z.of_nat (size (list_to_set ms ∩ dict s : gset bytes)),
              mkSet (key s) (dict s ∖ list_to_set ms)).
Proof. unfold Rem. by rewrite rem_steps. Qed.

(** SMEMBERS lists each member exactly once, in whatever order the map is
    walked, and SISMEMBER answers membership in that list. *)
Lemma Members_exact s ord m :
  member_order s ord →
  NoDup (Members s ord) ∧ (m ∈ Members s ord ↔ m ∈ dict s)
  ∧ IsMember s m = if bool_decide (m ∈ Members s ord) then 1 else 0.
Proof.
  intros Ho. unfold Members, member_order in *. rewrite members_snoc. cbn.
  assert (m ∈ ord ↔ m ∈ dict s) as Hm by (rewrite Ho; apply elem_of_elements).
  split_and!.
  - rewrite Ho. apply NoDup_elements.
  - done.
  - unfold IsMember. by rewrite (bool_decide_ext _ _ Hm).
Qed.

End SimpleSet.
