(* ===== verification/Murmur3.v ===== *)
(** * MurmurHash3, 128- and 64-bit (src/vendor/github.com/spaolacci/murmur3)

    The hash the Count-Min sketch and the Bloom filter use, as the vendored
    package computes it on a little-endian machine (the block loads go
    through an unsafe pointer cast). *)

From Stdlib Require Import ZArith Lia Ascii.
From stdpp Require Import base list strings numbers.
From S2P Require Import Prelude.

Module Murmur3.

Definition c1_128 : Z := 0x87c37b91114253d5.
Definition c2_128 : Z := 0x4cf5ad432745937f.

(** [(x << r) | (x >> (64-r))] *)
Definition rotl64 (x r : Z) : Z := u64 (Z.lor (Z.shiftl x r) (Z.shiftr x (64 - r))).

Record digest128 := mkDigest {
  clen : Z;
  tail : bytes;
  seed : Z;
  h1 : Z;
  h2 : Z
}.

(** [New128WithSeed]: [Reset] clears the lengths and loads the seed. *)
Definition New128WithSeed (seed : Z) : digest128 := mkDigest 0 [] seed (u64 seed) (u64 seed).

(** A little-endian [uint64] read of up to eight bytes. *)
Fixpoint load_le (l : bytes) : Z :=
  match l with
  | [] => 0
  | c :: l => Z.lor (code c) (Z.shiftl (load_le l) 8)
  end.

Definition mix_k1 (k1 : Z) : Z := u64 (rotl64 (u64 (k1 * c1_128)) 31 * c2_128).
Definition mix_k2 (k2 : Z) : Z := u64 (rotl64 (u64 (k2 * c2_128)) 33 * c1_128).

(** One round of the loop of [bmix]. *)
Definition bmix_block (h : Z * Z) (block : bytes) : Z * Z :=
  let '(h1, h2) := h in
  let k1 := load_le (take 8 block) in
  let k2 := load_le (take 8 (drop 8 block)) in
  let h1 := Z.lxor h1 (mix_k1 k1) in
  let h1 := rotl64 h1 27 in
  let h1 := u64 (h1 + h2) in
  let h1 := u64 (h1 * 5 + 0x52dce729) in
  let h2 := Z.lxor h2 (mix_k2 k2) in
  let h2 := rotl64 h2 31 in
  let h2 := u64 (h2 + h1) in
  let h2 := u64 (h2 * 5 + 0x38495ab5) in
  (h1, h2).

(** [for i := 0; i < nblocks; i++] over the 16-byte blocks of [p]; the rest
    is returned as the tail. *)
Fixpoint bmix_blocks (nblocks : nat) (p : bytes) (h : Z * Z) : Z * Z :=
  match nblocks with
  | O => h
  | S n => bmix_blocks n (drop 16 p) (bmix_block h (take 16 p))
  end.

Definition bmix (d : digest128) (p : bytes) : digest128 * bytes :=
  let nblocks := (length p / 16)%nat in
  let '(h1, h2) := bmix_blocks nblocks p (h1 d, h2 d) in
  (mkDigest (clen d) (tail d) (seed d) h1 h2, drop (nblocks * 16) p).

Definition with_tail (d : digest128) (t : bytes) : digest128 :=
  mkDigest (clen d) t (seed d) (h1 d) (h2 d).

Definition Write (d : digest128) (p : bytes) : digest128 :=
  let d := mkDigest (clen d + Z.of_nat (length p)) (tail d) (seed d) (h1 d) (h2 d) in
  let '(d, p) :=
    if bool_decide (tail d = []) then (d, p)
    else
      let nfree := (16 - length (tail d))%nat in
      if bool_decide (nfree < length p)%nat then
        let block := tail d ++ take nfree p in
        ((bmix d block).1, drop nfree p)
      else (d, tail d ++ p) in
  let '(d, t) := bmix d p in
  with_tail d (take 16 t).

Definition fmix64 (k : Z) : Z :=
  let k := Z.lxor k (Z.shiftr k 33) in
  let k := u64 (k * 0xff51afd7ed558ccd) in
  let k := Z.lxor k (Z.shiftr k 33) in
  let k := u64 (k * 0xc4ceb9fe1a85ec53) in
  Z.lxor k (Z.shiftr k 33).

(** [k ^= uint64(tail[i]) << (8*i)] for the bytes of [l], from [k = 0]. *)
Fixpoint xor_bytes (l : bytes) (shift : Z) (k : Z) : Z :=
  match l with
  | [] => k
  | c :: l => xor_bytes l (shift + 8) (Z.lxor k (u64 (Z.shiftl (code c) shift)))
  end.

Definition Sum128 (d : digest128) : Z * Z :=
  let h1 := h1 d in
  let h2 := h2 d in
  let t := take (Z.to_nat (Z.land (Z.of_nat (length (tail d))) 15)) (tail d) in
  let h2 := if bool_decide (8 < length t)%nat
            then Z.lxor h2 (mix_k2 (xor_bytes (drop 8 t) 0 0)) else h2 in
  let h1 := if bool_decide (0 < length t)%nat
            then Z.lxor h1 (mix_k1 (xor_bytes (take 8 t) 0 0)) else h1 in
  let h1 := Z.lxor h1 (u64 (clen d)) in
  let h2 := Z.lxor h2 (u64 (clen d)) in
  let h1 := u64 (h1 + h2) in
  let h2 := u64 (h2 + h1) in
  let h1 := fmix64 h1 in
  let h2 := fmix64 h2 in
  let h1 := u64 (h1 + h2) in
  let h2 := u64 (h2 + h1) in
  (h1, h2).

(** [digest64] is half a [digest128]. *)
Definition Sum64 (d : digest128) : Z := (Sum128 d).1.

Lemma Sum128_range d : is_u64 (Sum128 d).1 ∧ is_u64 (Sum128 d).2.
Proof. split; apply u64_range. Qed.

(** Reference values of the algorithm. *)
Example murmur_hello :
  Sum128 (Write (New128WithSeed 0) (bs "hello")) = (0xcbd8a7b341bd9b02, 0x5b1e906a48ae1d19).
Proof. vm_compute. reflexivity. Qed.

Example murmur_fox :
  Sum128 (Write (New128WithSeed 0) (bs "The quick brown fox jumps over the lazy dog"))
  = (0xe34bbc7bbc071b6c, 0x7a433ca9c49a9347).
Proof. vm_compute. reflexivity. Qed.

End Murmur3.
