(* ===== verification/Cms.v ===== *)
(** * Count-Min sketch (src/internal/data_structure/probabilistic/cms.go)

    The counters are one flat slice; index arithmetic, the bounds check of
    every access and the saturation at [math.MaxUint64] are as in the code. *)

From Stdlib Require Import ZArith Lia Ascii.
From stdpp Require Import base list strings numbers list_numbers sets.
From S2P Require Import Prelude GoFloat Murmur3.

Module Cms.

Record CMS := mkCMS { width : Z; depth : Z; counter : list Z }.

(** [make([]uint64, n)] panics when [8*n] exceeds the allocator's limit. *)
Definition make_uint64s (n : Z) : outcome (list Z) :=
  if (0 <=? n) && (n * 8 <=? 281474976710656)
  then Ret (replicate (Z.to_nat n) 0) else Panic MakeSliceLen.

Definition NewCMS (w d : Z) : outcome CMS :=
  counter ← make_uint64s (u64 (w * d));
  Ret (mkCMS w d counter).

(** [math.Log] and the constant [math.E] at [float64]. *)
Definition math_E : F64.float64 := SpecFloat.S754_finite false 6121026514868073 (-51).

Definition CalcCMSDim (math_Log : F64.float64 → F64.float64) (errRate probRate : F64.float64)
    : Z * Z :=
  let w := F64.to_uint64 (F64.ceil (F64.div math_E errRate)) in
  let d := F64.to_uint64 (F64.ceil (math_Log (F64.div (F64.of_Z 1) probRate))) in
  (w, d).

Definition getIndex (c : CMS) (row col : Z) : Z := u64 (u64 (row * width c) + col).

Definition calcHash (item : bytes) (seed : Z) : Z :=
  Murmur3.Sum64 (Murmur3.Write (Murmur3.New128WithSeed seed) item).

(** [hash % c.width], which panics on a zero width, then the index of row [i]. *)
Definition cell_index (c : CMS) (item : bytes) (i : Z) : outcome Z :=
  let hash := calcHash item (u32 i) in
  if width c =? 0 then Panic DivideByZero
  else Ret (getIndex c i (hash mod width c)).

Definition get_counter (l : list Z) (idx : Z) : outcome Z :=
  match l !! Z.to_nat idx with Some v => Ret v | None => Panic IndexOutOfRange end.

Definition sat_add (v value : Z) : Z :=
  if MaxUint64 - v <? value then MaxUint64 else u64 (v + value).

(** The loop of [IncrBy]; [n] rows remain, from row [i]. *)
Fixpoint incr_loop (c : CMS) (item : bytes) (value : Z) (n : nat) (i : Z)
    (counter : list Z) (minCount : Z) : outcome (Z * list Z) :=
  match n with
  | O => Ret (minCount, counter)
  | S n =>
      idx ← cell_index c item i;
      v ← get_counter counter idx;
      let v := sat_add v value in
      let counter := <[Z.to_nat idx := v]> counter in
      let minCount := if v <? minCount then v else minCount in
      incr_loop c item value n (i + 1) counter minCount
  end.

Definition IncrBy (c : CMS) (item : bytes) (value : Z) : outcome (Z * CMS) :=
  '(minCount, counter) ←
    incr_loop c item value (Z.to_nat (depth c)) 0 (counter c) MaxUint64;
  Ret (minCount, mkCMS (width c) (depth c) counter).

Fixpoint count_loop (c : CMS) (item : bytes) (n : nat) (i : Z) (minCount : Z) : outcome Z :=
  match n with
  | O => Ret minCount
  | S n =>
      idx ← cell_index c item i;
      v ← get_counter (counter c) idx;
      count_loop c item n (i + 1) (if v <? minCount then v else minCount)
  end.

Definition Count (c : CMS) (item : bytes) : outcome Z :=
  count_loop c item (Z.to_nat (depth c)) 0 MaxUint64.

(** ** Abstract specification

    A sketch stands for the list of increments it has received. *)

Definition ops := list (bytes * Z).

(** The column of [item] in row [i]. *)
Definition column (w : Z) (item : bytes) (i : Z) : Z := calcHash item (u32 i) mod w.

Fixpoint sum_with (P : bytes → bool) (os : ops) : Z :=
  match os with
  | [] => 0
  | (x, v) :: os => (if P x then v else 0) + sum_with P os
  end.

(** What cell ([i], [j]) must hold: the saturated sum of the increments whose
    item falls into column [j] of row [i]. *)
Definition cell_spec (w : Z) (os : ops) (i j : Z) : Z :=
  Z.min MaxUint64 (sum_with (λ x, column w x i =? j) os).

(** What [Count] must return: the least of the item's cells. *)
Definition count_spec (w d : Z) (os : ops) (item : bytes) : Z :=
  foldl (λ m i, Z.min (cell_spec w os i (column w item i)) m) MaxUint64 (seqZ 0 d).

Record represents (c : CMS) (os : ops) : Prop := {
  rep_width : 0 < width c;
  rep_depth : 0 <= depth c;
  rep_bound : width c * depth c < two64;
  rep_values : Forall (λ o, is_u64 o.2) os;
  rep_cells i j : 0 <= i < depth c → 0 <= j < width c →
    counter c !! Z.to_nat (i * width c + j) = Some (cell_spec (width c) os i j)
}.

(** ** Lemmas *)

Lemma calcHash_range item seed : is_u64 (calcHash item seed).
Proof. unfold calcHash, Murmur3.Sum64. exact (proj1 (Murmur3.Sum128_range _)). Qed.

#[global] Opaque calcHash.

Lemma column_range w item i : 0 < w → 0 <= column w item i < w.
Proof. intros. unfold column. by apply Z.mod_pos_bound. Qed.

Lemma cell_index_ok c item i :
  0 < width c → width c * depth c < two64 → 0 <= i < depth c →
  cell_index c item i = Ret (i * width c + column (width c) item i).
Proof.
  intros Hw Hb Hi. unfold cell_index, getIndex, column.
  pose proof (column_range (width c) item i Hw) as Hc. unfold column in Hc.
  rewrite (proj2 (Z.eqb_neq (width c) 0)) by lia.
  assert (0 <= i * width c) by nia.
  assert (i * width c + width c <= width c * depth c) by nia.
  rewrite (u64_id (i * width c)), u64_id by (unfold is_u64; lia). done.
Qed.

Lemma sat_add_min v value :
  is_u64 v → is_u64 value → sat_add v value = Z.min MaxUint64 (v + value).
Proof.
  intros Hv Hx. unfold sat_add. destruct (Z.ltb_spec (MaxUint64 - v) value).
  - mlia.
  - rewrite u64_id; mlia.
Qed.

Lemma sum_with_nonneg P os : Forall (λ o, is_u64 o.2) os → 0 <= sum_with P os.
Proof.
  induction 1 as [|[x v] os Hv Hos IH]; cbn; [lia|]. unfold is_u64 in Hv. cbn in Hv.
  destruct (P x); lia.
Qed.

Lemma cell_spec_range w os i j : Forall (λ o, is_u64 o.2) os → is_u64 (cell_spec w os i j).
Proof.
  intros H. unfold cell_spec. pose proof (sum_with_nonneg (λ x, column w x i =? j) os H). mlia.
Qed.

(** Recording one more increment updates exactly the item's cells. *)
Lemma cell_spec_cons w os i j item value :
  Forall (λ o, is_u64 o.2) os → is_u64 value →
  cell_spec w ((item, value) :: os) i j
  = if column w item i =? j then sat_add (cell_spec w os i j) value else cell_spec w os i j.
Proof.
  intros Hos Hv. pose proof (sum_with_nonneg (λ x, column w x i =? j) os Hos).
  pose proof (cell_spec_range w os i j Hos).
  unfold cell_spec at 1. cbn. case_match; [|done].
  rewrite sat_add_min by done. unfold cell_spec. mlia.
Qed.

(** The cells of [item] in rows [i], ..., [i + n - 1]. *)
Definition touched (c : CMS) (item : bytes) (i : Z) (n : nat) : list nat :=
  (λ r, Z.to_nat (r * width c + column (width c) item r)) <$> seqZ i (Z.of_nat n).

Lemma cell_inj w i j i' j' :
  0 <= j < w → 0 <= j' < w → i * w + j = i' * w + j' → i = i' ∧ j = j'.
Proof. intros. assert (i = i') by nia. subst. split; [done|lia]. Qed.

Lemma touched_S c item i n :
  touched c item i (S n)
  = Z.to_nat (i * width c + column (width c) item i) :: touched c item (i + 1) n.
Proof.
  unfold touched. rewrite seqZ_cons by lia. cbn.
  replace (Z.pred (Z.of_nat (S n))) with (Z.of_nat n) by lia.
  by rewrite <- Z.add_1_r.
Qed.

Lemma not_touched_later c item i n :
  0 < width c → 0 <= i →
  Z.to_nat (i * width c + column (width c) item i) ∉ touched c item (i + 1) n.
Proof.
  intros Hw Hi. unfold touched. rewrite list_elem_of_fmap. intros (r & E & Hr).
  apply elem_of_seqZ in Hr.
  pose proof (column_range (width c) item i Hw).
  pose proof (column_range (width c) item r Hw).
  assert (i * width c + column (width c) item i = r * width c + column (width c) item r).
  { apply Z2Nat.inj; nia. }
  eapply cell_inj in H1 as [? _]; [lia|done|done].
Qed.

Lemma incr_loop_spec c item value n i l m :
  0 < width c → width c * depth c < two64 → 0 <= i → i + Z.of_nat n <= depth c →
  (∀ r, i <= r < i + Z.of_nat n →
     is_Some (l !! Z.to_nat (r * width c + column (width c) item r))) →
  ∃ m' l', incr_loop c item value n i l m = Ret (m', l')
    ∧ length l' = length l
    ∧ (∀ k, l' !! k = if bool_decide (k ∈ touched c item i n)
                      then (λ v, sat_add v value) <$> l !! k else l !! k)
    ∧ m' = foldl (λ m k, Z.min (default m (l' !! k)) m) m (touched c item i n).
Proof.
  intros Hw Hb. revert i l m; induction n as [|n IH]; intros i l m Hi Hn Hl.
  { exists m, l. split_and!; try done. }
  cbn [incr_loop]. rewrite cell_index_ok by (done || lia). cbn [mbind outcome_bind].
  destruct (Hl i ltac:(lia)) as [v Hv]. unfold get_counter. rewrite Hv.
  cbn [mbind outcome_bind]. set (k0 := Z.to_nat (i * width c + column (width c) item i)) in *.
  destruct (IH (i + 1) (<[k0:=sat_add v value]> l)
              (if sat_add v value <? m then sat_add v value else m))
    as (m' & l' & -> & Hlen & Hlk & Hm); [lia|lia| |].
  { intros r Hr. apply lookup_lt_is_Some. rewrite length_insert.
    apply lookup_lt_is_Some, Hl. lia. }
  exists m', l'. rewrite touched_S. fold k0.
  pose proof (not_touched_later c item i n Hw Hi) as Hk0. fold k0 in Hk0.
  rewrite length_insert in Hlen.
  assert (l' !! k0 = Some (sat_add v value)) as Hl0.
  { rewrite Hlk, bool_decide_eq_false_2 by done.
    apply list_lookup_insert_eq. by eapply lookup_lt_Some. }
  split_and!; [done|done| |].
  - intros k. destruct (decide (k = k0)) as [->|Hne].
    + rewrite bool_decide_eq_true_2 by set_solver. by rewrite Hl0, Hv.
    + rewrite Hlk, list_lookup_insert_ne by done.
      repeat case_bool_decide; set_solver.
  - rewrite Hm. cbn [foldl]. rewrite Hl0. cbn. f_equal. case_match; lia.
Qed.

Lemma count_loop_spec c item n i m :
  0 < width c → width c * depth c < two64 → 0 <= i → i + Z.of_nat n <= depth c →
  (∀ r, i <= r < i + Z.of_nat n →
     is_Some (counter c !! Z.to_nat (r * width c + column (width c) item r))) →
  count_loop c item n i m
  = Ret (foldl (λ m k, Z.min (default m (counter c !! k)) m) m (touched c item i n)).
Proof.
  intros Hw Hb. revert i m; induction n as [|n IH]; intros i m Hi Hn Hl; [done|].
  cbn [count_loop]. rewrite cell_index_ok by (done || lia). cbn [mbind outcome_bind].
  destruct (Hl i ltac:(lia)) as [v Hv]. unfold get_counter. rewrite Hv.
  cbn [mbind outcome_bind]. rewrite IH by (lia || (intros; apply Hl; lia)).
  rewrite touched_S. cbn [foldl]. rewrite Hv. cbn. do 2 f_equal. case_match; lia.
Qed.

Lemma rep_item c os item r :
  represents c os → 0 <= r < depth c →
  counter c !! Z.to_nat (r * width c + column (width c) item r)
  = Some (cell_spec (width c) os r (column (width c) item r)).
Proof. intros H Hr. apply (rep_cells _ _ H); [done|]. apply column_range, H. Qed.

(** Folding over the item's cells is folding over the rows. *)
Lemma fold_touched c os item n i m :
  represents c os → 0 <= i → i + Z.of_nat n <= depth c →
  foldl (λ m k, Z.min (default m (counter c !! k)) m) m (touched c item i n)
  = foldl (λ m r, Z.min (cell_spec (width c) os r (column (width c) item r)) m) m
      (seqZ i (Z.of_nat n)).
Proof.
  intros Hr. revert i m; induction n as [|n IH]; intros i m Hi Hn; [done|].
  rewrite touched_S, seqZ_cons by lia. cbn [foldl].
  rewrite (rep_item _ os) by (done || lia). cbn [default].
  rewrite IH by lia. do 2 f_equal. lia.
Qed.

Lemma Count_spec c os item :
  represents c os → Count c item = Ret (count_spec (width c) (depth c) os item).
Proof.
  intros Hr. pose proof (rep_depth _ _ Hr). unfold Count.
  rewrite count_loop_spec; [|apply Hr|apply Hr|lia|lia|].
  - rewrite (fold_touched _ os) by (done || lia). unfold count_spec.
    by rewrite Z2Nat.id by lia.
  - intros r Hrr. rewrite (rep_item _ os) by (done || lia). done.
Qed.

Lemma fold_min_le (f : Z → Z) l m :
  foldl (λ m i, Z.min (f i) m) m l <= m
  ∧ (∀ i, i ∈ l → foldl (λ m i, Z.min (f i) m) m l <= f i).
Proof.
  revert m; induction l as [|x l IH]; intros m; cbn.
  { split; [lia|]. intros i []%not_elem_of_nil. }
  destruct (IH (Z.min (f x) m)) as [H1 H2]. split; [lia|].
  intros i [->|Hi]%elem_of_cons; [lia|by apply H2].
Qed.

Lemma fold_min_ge (f : Z → Z) l m b :
  b <= m → (∀ i, i ∈ l → b <= f i) → b <= foldl (λ m i, Z.min (f i) m) m l.
Proof.
  revert m; induction l as [|x l IH]; intros m Hm Hl; cbn; [done|].
  apply IH; [|set_solver]. pose proof (Hl x ltac:(by left)). lia.
Qed.

Lemma sum_with_mono P Q os :
  Forall (λ o, is_u64 o.2) os → (∀ x, P x = true → Q x = true) →
  sum_with P os <= sum_with Q os.
Proof.
  intros Hos HPQ. induction Hos as [|[x v] os Hv Hos IH]; cbn; [lia|].
  unfold is_u64 in Hv; cbn in Hv. specialize (HPQ x).
  destruct (P x), (Q x); try lia.
Qed.

Lemma IncrBy_spec c os item value :
  represents c os → is_u64 value →
  ∃ c', IncrBy c item value
        = Ret (count_spec (width c) (depth c) ((item, value) :: os) item, c')
        ∧ width c' = width c ∧ depth c' = depth c
        ∧ represents c' ((item, value) :: os).
Proof.
  intros Hr Hv. pose proof (rep_depth _ _ Hr) as Hd. pose proof (rep_width _ _ Hr) as Hw.
  destruct (incr_loop_spec c item value (Z.to_nat (depth c)) 0 (counter c) MaxUint64)
    as (m & l & Hi & Hlen & Hl & Hm); [done|apply Hr|lia|lia| |].
  { intros r Hrr. rewrite (rep_item _ os) by (done || lia). done. }
  set (c' := mkCMS (width c) (depth c) l).
  assert (represents c' ((item, value) :: os)) as Hc'.
  { split; cbn; [apply Hr..| |].
    - constructor; [done|apply Hr].
    - intros i j Hi' Hj. rewrite Hl, cell_spec_cons by (apply Hr || done).
      rewrite (rep_cells _ _ Hr) by done.
      pose proof (column_range (width c) item i Hw).
      destruct (Z.eqb_spec (column (width c) item i) j) as [Hj'|Hne]; [subst j|].
      + rewrite bool_decide_eq_true_2; [done|]. apply list_elem_of_fmap.
        exists i. split; [done|]. apply elem_of_seqZ. lia.
      + rewrite bool_decide_eq_false_2; [done|]. unfold touched.
        rewrite list_elem_of_fmap. intros (r & E & Hrr%elem_of_seqZ).
        pose proof (column_range (width c) item r Hw).
        apply Z2Nat.inj in E; [|nia|nia]. apply cell_inj in E as [-> ->]; done. }
  exists c'. unfold IncrBy. rewrite Hi. cbn [mbind outcome_bind]. split_and!; try done.
  do 2 f_equal. rewrite Hm.
  change l with (counter c'). change (touched c item) with (touched c' item).
  rewrite (fold_touched c' ((item, value) :: os)) by (done || (cbn; lia)).
  cbn. unfold count_spec. by rewrite Z2Nat.id.
Qed.

(** ** Theorems *)

(** A sketch of positive width whose counters fit in memory is created
    without a panic and stands for no increments. *)
Lemma NewCMS_empty w d :
  0 < w → 0 <= d → w * d * 8 <= 281474976710656 →
  ∃ c, NewCMS w d = Ret c ∧ width c = w ∧ depth c = d ∧ represents c [].
Proof.
  intros Hw Hd Hb. assert (0 <= w * d) by nia. unfold NewCMS, make_uint64s.
  rewrite u64_id by mlia. rewrite (proj2 (Z.leb_le 0 _)), (proj2 (Z.leb_le _ _)) by lia.
  eexists. split_and!; [done..|]. split; cbn; [lia|lia|mlia|constructor|].
  intros i j Hi Hj. apply lookup_replicate. unfold cell_spec; cbn.
  split; [mlia|]. nia.
Qed.

(** C25: [IncrBy] implements the specification: on a sketch that stands for
    [os] it does not panic, returns the specified estimate after the
    increment, and leaves a sketch that stands for [os] with the increment
    recorded; no counter ever wraps. *)
Theorem IncrBy_refines c os item value :
  represents c os → is_u64 value →
  ∃ c', IncrBy c item value
        = Ret (count_spec (width c) (depth c) ((item, value) :: os) item, c')
        ∧ width c' = width c ∧ depth c' = depth c
        ∧ represents c' ((item, value) :: os).
Proof. apply IncrBy_spec. Qed.

Lemma Count_estimate c os item :
  represents c os →
  ∃ n, Count c item = Ret n
    ∧ Z.min MaxUint64 (sum_with (λ x, bool_decide (x = item)) os) <= n
    ∧ (0 < depth c → n <= Z.min MaxUint64 (sum_with (λ _, true) os)).
Proof.
  intros Hr. pose proof (rep_values _ _ Hr) as Hos. eexists.
  split; [by apply Count_spec|]. unfold count_spec.
  set (f := λ i, cell_spec (width c) os i (column (width c) item i)).
  split.
  - apply (fold_min_ge f); [lia|]. intros i _. unfold f, cell_spec.
    pose proof (sum_with_mono (λ x, bool_decide (x = item))
      (λ x, column (width c) x i =? column (width c) item i) os Hos) as Hmono.
    enough (sum_with (λ x, bool_decide (x = item)) os
            <= sum_with (λ x, column (width c) x i =? column (width c) item i) os) by lia.
    apply Hmono. intros x ->%bool_decide_eq_true. apply Z.eqb_refl.
  - intros Hd. destruct (fold_min_le f (seqZ 0 (depth c)) MaxUint64) as [_ Hle].
    specialize (Hle 0 ltac:(apply elem_of_seqZ; lia)).
    pose proof (sum_with_mono (λ x, column (width c) x 0 =? column (width c) item 0)
      (λ _, true) os Hos ltac:(done)).
    unfold f in *. unfold cell_spec in Hle at 2. lia.
Qed.

(** With at least one row the estimate lies between the item's total and the
    total of all increments. *)
Lemma Count_between c os item :
  represents c os → 0 < depth c →
  ∃ n, Count c item = Ret n
    ∧ Z.min MaxUint64 (sum_with (λ x, bool_decide (x = item)) os) <= n
        <= Z.min MaxUint64 (sum_with (λ _, true) os).
Proof.
  intros Hr Hd. destruct (Count_estimate c os item Hr) as (n & E & H1 & H2). exists n. auto.
Qed.

(** C26: the Count-Min guarantee: the estimate is never below the true total of
    the item (saturated at the largest [uint64]) and, if the sketch has at least
    one row, never above the total of all increments (saturated likewise); a sketch
    without rows, which CMS.INITBYDIM k 1 0 makes, has only the lower bound. *)
Theorem count_bounds c os item :
  represents c os →
  ∃ n, Count c item = Ret n
    ∧ Z.min MaxUint64 (sum_with (λ x, bool_decide (x = item)) os) <= n
    ∧ (0 < depth c → n <= Z.min MaxUint64 (sum_with (λ _, true) os)).
Proof. apply Count_estimate. Qed.

(** The sizes a client can ask for are not checked: a zero width makes the
    first increment of a sketch with rows divide by zero. *)
Lemma zero_width_panics d item value :
  0 < d → ∃ c, NewCMS 0 d = Ret c ∧ IncrBy c item value = Panic DivideByZero
               ∧ Count c item = Panic DivideByZero.
Proof.
  intros Hd. eexists. split; [done|]. unfold IncrBy, Count. cbn [depth].
  replace (Z.to_nat d) with (S (Z.to_nat (d - 1))) by lia. done.
Qed.

(** A new 3 by 2 sketch, for the witnesses. *)
Definition demo : CMS := mkCMS 3 2 (replicate 6 0).

Lemma demo_empty : represents demo [].
Proof.
  destruct (NewCMS_empty 3 2) as (c & E & _ & _ & H); [lia..|].
  vm_compute in E. injection E as <-. exact H.
Qed.

Lemma IncrBy_refines_witness :
  ∃ c', IncrBy demo (bs "x") 5 = Ret (5, c') ∧ represents c' [(bs "x", 5)].
Proof.
  destruct (IncrBy_refines demo [] (bs "x") 5 demo_empty) as (c' & E & _ & _ & H).
  { split; vm_compute; congruence. }
  exists c'. split; [|exact H]. rewrite E. vm_compute. reflexivity.
Defined.

Lemma count_bounds_witness : ∃ n, Count demo (bs "x") = Ret n ∧ n <= 0.
Proof.
  destruct (count_bounds demo [] (bs "x") demo_empty) as (n & E & _ & H).
  exists n. split; [exact E|]. specialize (H ltac:(vm_compute; reflexivity)).
  etrans; [exact H|]. vm_compute. congruence.
Defined.

End Cms.
