(* ===== verification/Bloom.v ===== *)
(** * Bloom filter (src/internal/data_structure/probabilistic/bloom.go)

    The bit array is a slice of 64-bit words; the shift and mask arithmetic,
    the modulo by the number of bits (which panics on zero) and the bounds
    checks are as in the code.  [math.Log] is a parameter: its value depends
    on the platform's implementation. *)

From Stdlib Require Import ZArith Lia Ascii.
From Stdlib Require Import SpecFloat.
From stdpp Require Import base list strings numbers list_numbers sets.
From S2P Require Import Prelude GoFloat Murmur3 Cms.

Module Bloom.
Import F64.

(** The constants 0.693147180559945, 0.480453013918201 and 0x9747b28c. *)
Definition Ln2 : float64 := of_ratio false 693147180559945 1000000000000000.
Definition Ln2Square : float64 := of_ratio false 480453013918201 1000000000000000.
Definition ABigSeed : Z := 0x9747b28c.

Record Bloom := mkBloom {
  Hashes : Z;
  Entries : Z;
  Error : float64;
  bitPerEntry : float64;
  bf : list Z;
  bits : Z;
  words : Z
}.

Record HashValue := mkHash { a : Z; b : Z }.

Section New.
Context (math_Log : float64 → float64).

Definition calcBpe (err : float64) : float64 :=
  let num := math_Log err in
  abs (opp (div num Ln2Square)).

Definition NewBloomFilter (entries : Z) (errorRate : float64) : outcome Bloom :=
  let bpe := calcBpe errorRate in
  let bits := to_uint64 (mul (of_Z entries) bpe) in
  let bits := if negb (bits mod 64 =? 0) then u64 ((bits / 64 + 1) * 64) else bits in
  let words := bits / 64 in
  let Hashes := to_int64 (ceil (mul Ln2 bpe)) in
  bf ← Cms.make_uint64s words;
  Ret (mkBloom Hashes entries errorRate bpe bf bits words).

End New.

Definition CalcHash (entry : bytes) : HashValue :=
  let '(x, y) :=
    Murmur3.Sum128 (Murmur3.Write (Murmur3.New128WithSeed ABigSeed) entry) in
  mkHash x y.

(** [(initHash.a + initHash.b*uint64(i)) % b.bits] *)
Definition position (f : Bloom) (h : HashValue) (i : Z) : outcome Z :=
  if bits f =? 0 then Panic DivideByZero
  else Ret (u64 (a h + u64 (b h * u64 i)) mod bits f).

Definition get_word (l : list Z) (w : Z) : outcome Z :=
  match l !! Z.to_nat w with Some x => Ret x | None => Panic IndexOutOfRange end.

(** The loop of [AddHash]; [n] hash functions remain, from number [i]. *)
Fixpoint add_loop (f : Bloom) (h : HashValue) (n : nat) (i : Z) (bf : list Z)
    : outcome (list Z) :=
  match n with
  | O => Ret bf
  | S n =>
      hash ← position f h i;
      let word := Z.shiftr hash 6 in
      let bit := Z.land hash 0x3F in
      x ← get_word bf word;
      add_loop f h n (i + 1) (<[Z.to_nat word := Z.lor x (Z.shiftl 1 bit)]> bf)
  end.

Definition with_bf (f : Bloom) (l : list Z) : Bloom :=
  mkBloom (Hashes f) (Entries f) (Error f) (bitPerEntry f) l (bits f) (words f).

Definition AddHash (f : Bloom) (h : HashValue) : outcome Bloom :=
  l ← add_loop f h (Z.to_nat (Hashes f)) 0 (bf f); Ret (with_bf f l).

Definition Add (f : Bloom) (entry : bytes) : outcome Bloom :=
  let initHash := CalcHash entry in
  l ← add_loop f initHash (Z.to_nat (Hashes f)) 0 (bf f); Ret (with_bf f l).

Fixpoint exist_loop (f : Bloom) (h : HashValue) (n : nat) (i : Z) : outcome bool :=
  match n with
  | O => Ret true
  | S n =>
      hash ← position f h i;
      let word := Z.shiftr hash 6 in
      let bit := Z.land hash 0x3F in
      x ← get_word (bf f) word;
      if Z.land x (Z.shiftl 1 bit) =? 0 then Ret false
      else exist_loop f h n (i + 1)
  end.

Definition ExistHash (f : Bloom) (h : HashValue) : outcome bool :=
  exist_loop f h (Z.to_nat (Hashes f)) 0.

Definition Exist (f : Bloom) (entry : bytes) : outcome bool :=
  let initHash := CalcHash entry in
  exist_loop f initHash (Z.to_nat (Hashes f)) 0.

(** ** Abstract specification: a filter stands for the hashes added to it *)

Definition pos (f : Bloom) (h : HashValue) (i : Z) : Z :=
  u64 (a h + u64 (b h * u64 i)) mod bits f.

(** The bit positions of hash [h]. *)
Definition positions (f : Bloom) (h : HashValue) : list Z := pos f h <$> seqZ 0 (Hashes f).

Definition bit_at (l : list Z) (p : Z) : option bool :=
  (λ x, Z.testbit x (p mod 64)) <$> l !! Z.to_nat (p / 64).

Record represents (f : Bloom) (hs : list HashValue) : Prop := {
  rep_bits : 0 < bits f;
  rep_bit p : 0 <= p < bits f →
    bit_at (bf f) p = Some (bool_decide (Exists (λ h, p ∈ positions f h) hs))
}.

(** ** Lemmas *)

Lemma pos_range f h i : 0 < bits f → 0 <= pos f h i < bits f.
Proof. intros. unfold pos. by apply Z.mod_pos_bound. Qed.

Lemma position_ok f h i : 0 < bits f → position f h i = Ret (pos f h i).
Proof. intros. unfold position. by rewrite (proj2 (Z.eqb_neq _ 0)) by lia. Qed.

Lemma word_div p : Z.shiftr p 6 = p / 64.
Proof. by rewrite Z.shiftr_div_pow2. Qed.

Lemma bit_mod p : Z.land p 0x3F = p mod 64.
Proof. change 0x3F with (Z.ones 6). by rewrite Z.land_ones. Qed.

Lemma testbit_set x n m :
  0 <= n → Z.testbit (Z.lor x (Z.shiftl 1 n)) m = Z.testbit x m || (n =? m).
Proof. intros. by rewrite Z.lor_spec, Z.shiftl_1_l, Z.pow2_bits_eqb. Qed.

Lemma land_bit_zero x n :
  0 <= n → (Z.land x (Z.shiftl 1 n) =? 0) = negb (Z.testbit x n).
Proof.
  intros Hn. rewrite Z.shiftl_1_l. destruct (Z.testbit x n) eqn:E; cbn.
  - apply Z.eqb_neq. intros H. apply (f_equal (λ z, Z.testbit z n)) in H.
    rewrite Z.land_spec, E, Z.pow2_bits_true, Z.bits_0 in H by done. done.
  - apply Z.eqb_eq. apply Z.bits_inj'. intros m Hm. rewrite Z.land_spec, Z.bits_0.
    destruct (decide (n = m)) as [->|Hne]; [by rewrite E|].
    by rewrite Z.pow2_bits_false, andb_false_r by done.
Qed.

Lemma word_bit_eq p q :
  0 <= p → 0 <= q → Z.to_nat (p / 64) = Z.to_nat (q / 64) → p mod 64 = q mod 64 → p = q.
Proof.
  intros Hp Hq Hw Hb. apply Z2Nat.inj in Hw; [|apply Z.div_pos; lia..].
  rewrite (Z.div_mod p 64), (Z.div_mod q 64), Hw, Hb by lia. done.
Qed.

(** Setting the bit of position [q] in its word sets bit [q] and no other. *)
Lemma bit_at_set l q x p :
  0 <= q → 0 <= p → l !! Z.to_nat (q / 64) = Some x →
  bit_at (<[Z.to_nat (q / 64) := Z.lor x (Z.shiftl 1 (q mod 64))]> l) p
  = (λ v, v || bool_decide (p = q)) <$> bit_at l p.
Proof.
  intros Hq Hp Hx. pose proof (Z.mod_pos_bound q 64 ltac:(lia)). unfold bit_at.
  destruct (decide (Z.to_nat (p / 64) = Z.to_nat (q / 64))) as [E|E].
  - rewrite E, Hx, list_lookup_insert_eq by (by eapply lookup_lt_Some). cbn. f_equal.
    rewrite testbit_set by lia. f_equal. case_bool_decide as Hpq.
    + subst. apply Z.eqb_refl.
    + apply Z.eqb_neq. intros Hb. apply Hpq. by apply word_bit_eq.
  - rewrite list_lookup_insert_ne by done.
    rewrite bool_decide_eq_false_2 by (by intros ->).
    destruct (l !! Z.to_nat (p / 64)); cbn; [|done]. by rewrite orb_false_r.
Qed.

Lemma add_loop_spec f h n i l :
  0 < bits f → (∀ p, 0 <= p < bits f → is_Some (bit_at l p)) →
  ∃ l', add_loop f h n i l = Ret l'
    ∧ ∀ p, 0 <= p < bits f →
        bit_at l' p = (λ v, v || bool_decide (p ∈ pos f h <$> seqZ i (Z.of_nat n))) <$> bit_at l p.
Proof.
  intros Hb. revert i l; induction n as [|n IH]; intros i l Hl.
  { exists l. split; [done|]. intros p Hp. destruct (Hl p Hp) as [v ->]. cbn.
    by rewrite orb_false_r. }
  cbn [add_loop]. rewrite position_ok by done. cbn [mbind outcome_bind].
  pose proof (pos_range f h i Hb) as Hq. set (q := pos f h i) in *.
  rewrite word_div, bit_mod. destruct (Hl q Hq) as [v Hv]. unfold bit_at in Hv.
  apply fmap_Some in Hv as (x & Hx & _). unfold get_word. rewrite Hx. cbn [mbind outcome_bind].
  destruct (IH (i + 1) (<[Z.to_nat (q / 64):=Z.lor x (Z.shiftl 1 (q mod 64))]> l))
    as (l' & -> & Hl').
  { intros p Hp. rewrite bit_at_set by (done || lia).
    destruct (Hl p Hp) as [? ->]. cbn. eauto. }
  exists l'. split; [done|]. intros p Hp. rewrite Hl', bit_at_set by (done || lia).
  destruct (Hl p Hp) as [w ->]. cbn. f_equal. rewrite <- orb_assoc. f_equal.
  rewrite (seqZ_cons i) by lia. rewrite fmap_cons. fold q.
  replace (Z.pred (Z.of_nat (S n))) with (Z.of_nat n) by lia.
  change (Z.succ i) with (i + 1).
  rewrite <- bool_decide_or. apply bool_decide_ext. by rewrite elem_of_cons.
Qed.

Lemma exist_loop_spec f h n i :
  0 < bits f → (∀ p, 0 <= p < bits f → is_Some (bit_at (bf f) p)) →
  exist_loop f h n i
  = Ret (forallb (λ r, default false (bit_at (bf f) (pos f h r))) (seqZ i (Z.of_nat n))).
Proof.
  intros Hb Hl. revert i; induction n as [|n IH]; intros i; [done|].
  cbn [exist_loop]. rewrite position_ok by done. cbn [mbind outcome_bind].
  pose proof (pos_range f h i Hb) as Hq.
  rewrite word_div, bit_mod, seqZ_cons by lia. cbn [forallb].
  destruct (Hl (pos f h i) Hq) as [v Hv]. rewrite Hv. unfold bit_at in Hv.
  apply fmap_Some in Hv as (x & Hx & ->). unfold get_word. rewrite Hx. cbn [mbind outcome_bind].
  pose proof (Z.mod_pos_bound (pos f h i) 64 ltac:(lia)).
  rewrite land_bit_zero by lia. destruct (Z.testbit x _); cbn; [|done].
  rewrite IH. by replace (Z.pred (Z.of_nat (S n))) with (Z.of_nat n) by lia.
Qed.

Lemma rep_some f hs p : represents f hs → 0 <= p < bits f → is_Some (bit_at (bf f) p).
Proof. intros Hr Hp. rewrite (rep_bit _ _ Hr) by done. eauto. Qed.

Lemma seqZ_to_nat i n : seqZ i (Z.of_nat (Z.to_nat n)) = seqZ i n.
Proof.
  destruct (decide (0 <= n)); [by rewrite Z2Nat.id|].
  rewrite !seqZ_nil by lia. done.
Qed.

Lemma AddHash_spec f hs h :
  represents f hs → ∃ f', AddHash f h = Ret f' ∧ represents f' (h :: hs).
Proof.
  intros Hr. destruct (add_loop_spec f h (Z.to_nat (Hashes f)) 0 (bf f)) as (l & Hl & Hbit).
  { apply Hr. }
  { intros. by eapply rep_some. }
  exists (with_bf f l). unfold AddHash. rewrite Hl. split; [done|].
  split; [apply Hr|]. intros p Hp. cbn. rewrite Hbit, (rep_bit _ _ Hr) by done. cbn.
  rewrite seqZ_to_nat. f_equal. change (positions (with_bf f l)) with (positions f).
  rewrite <- bool_decide_or. apply bool_decide_ext. by rewrite Exists_cons, (comm or).
Qed.

Lemma forallb_bits f hs h l :
  represents f hs →
  forallb (λ r, default false (bit_at (bf f) (pos f h r))) l
  = bool_decide (Forall (λ r, Exists (λ h', pos f h r ∈ positions f h') hs) l).
Proof.
  intros Hr. induction l as [|r l IH]; [by rewrite bool_decide_eq_true_2|]. cbn [forallb].
  rewrite IH, (rep_bit _ _ Hr) by (apply pos_range, Hr). cbn.
  rewrite <- bool_decide_and. by apply bool_decide_ext; rewrite Forall_cons_iff.
Qed.

Lemma ExistHash_spec f hs h :
  represents f hs →
  ExistHash f h
  = Ret (bool_decide (Forall (λ p, Exists (λ h', p ∈ positions f h') hs) (positions f h))).
Proof.
  intros Hr. unfold ExistHash.
  rewrite exist_loop_spec; [|apply Hr|intros; by eapply rep_some].
  f_equal. rewrite seqZ_to_nat, (forallb_bits _ hs) by done.
  apply bool_decide_ext. change (positions f h) with (pos f h <$> seqZ 0 (Hashes f)).
  by rewrite Forall_fmap.
Qed.

(** ** Theorems *)

(** A filter returned by [NewBloomFilter] has a whole number of words and
    as many words as its bit count says; if it has any bits it stands for the
    empty list of entries. *)
Lemma NewBloomFilter_empty math_Log n err f :
  NewBloomFilter math_Log n err = Ret f →
  bits f = 64 * words f ∧ length (bf f) = Z.to_nat (words f)
  ∧ (0 < bits f → represents f []).
Proof.
  unfold NewBloomFilter, Cms.make_uint64s. intros. ret_inv.
  set (m := to_uint64 _) in *. clearbody m. cbn in *.
  set (k := if negb (m mod 64 =? 0) then _ else m) in *.
  assert (k mod 64 = 0) as Hk.
  { unfold k. destruct (Z.eqb_spec (m mod 64) 0); cbn; [done|]. unfold u64.
    rewrite <- Znumtheory.Zmod_div_mod; [by rewrite Z.mod_mul|lia|done|].
    by exists 288230376151711744. }
  clearbody k. pose proof (Z.div_mod k 64 ltac:(lia)).
  split_and!; [lia|by rewrite length_replicate|].
  intros Hb. split; [done|]. cbn. intros p Hp. unfold bit_at.
  rewrite lookup_replicate_2 by (apply Z2Nat.inj_lt; [apply Z.div_pos; lia..|];
    apply Z.div_lt_upper_bound; lia).
  cbn. by rewrite Z.bits_0.
Qed.

(** [Add] implements insertion: on a filter with at least one bit it does
    not panic and the result stands for the entries so far and the new one;
    [AddHash] is the same operation on a precomputed hash. *)
Lemma filter_Add_refines f hs entry :
  represents f hs →
  ∃ f', Add f entry = Ret f' ∧ AddHash f (CalcHash entry) = Ret f'
        ∧ represents f' (CalcHash entry :: hs).
Proof.
  intros Hr. destruct (AddHash_spec f hs (CalcHash entry) Hr) as (f' & Hf & Hr').
  exists f'. split_and!; [|done|done]. unfold AddHash in Hf. done.
Qed.

Lemma Exist_spec f hs entry :
  represents f hs →
  Exist f entry
  = Ret (bool_decide (Forall (λ p, Exists (λ h, p ∈ positions f h) hs)
                             (positions f (CalcHash entry))))
  ∧ (CalcHash entry ∈ hs → Exist f entry = Ret true).
Proof.
  intros Hr. change (Exist f entry) with (ExistHash f (CalcHash entry)).
  rewrite (ExistHash_spec _ _ _ Hr). split; [done|]. intros Hin.
  rewrite bool_decide_eq_true_2; [done|]. apply Forall_forall. intros p Hp.
  apply Exists_exists. eauto.
Qed.

Lemma Exist_total f hs entry :
  represents f hs → ∃ b, Exist f entry = Ret b ∧ (CalcHash entry ∈ hs → b = true).
Proof.
  intros Hr. destruct (Exist_spec f hs entry Hr) as [E Hin]. eexists. split; [exact E|].
  intros H. specialize (Hin H). rewrite E in Hin. by injection Hin.
Qed.

(** C34: [Exist] answers exactly whether every bit of the entry is set by some
    added entry; in particular there are no false negatives: an entry that was
    added, before any number of others, is always reported present. *)
Theorem Exist_refines f hs entry :
  represents f hs →
  Exist f entry
  = Ret (bool_decide (Forall (λ p, Exists (λ h, p ∈ positions f h) hs)
                             (positions f (CalcHash entry))))
  ∧ (CalcHash entry ∈ hs → Exist f entry = Ret true).
Proof. apply Exist_spec. Qed.

(** The filter for 10 entries when the logarithm of the error rate is -7. *)
Definition demo : Bloom :=
  match NewBloomFilter (λ _, of_Z (-7)) 10 (of_ratio false 1 1000) with
  | Ret f => f
  | _ => mkBloom 0 0 (of_Z 0) (of_Z 0) [] 0 0
  end.

Lemma demo_filter_empty : represents demo [].
Proof.
  destruct (NewBloomFilter_empty (λ _, of_Z (-7)) 10 (of_ratio false 1 1000) demo)
    as (_ & _ & H); [vm_compute; reflexivity|]. apply H. vm_compute. reflexivity.
Qed.

Lemma filter_Add_refines_witness :
  ∃ f, Add demo (bs "x") = Ret f ∧ represents f [CalcHash (bs "x")].
Proof.
  destruct (filter_Add_refines demo [] (bs "x") demo_filter_empty) as (f & E & _ & H).
  exact (ex_intro _ f (conj E H)).
Defined.

Lemma Exist_refines_witness : Exist demo (bs "x") = Ret false.
Proof.
  rewrite (proj1 (Exist_refines demo [] (bs "x") demo_filter_empty)). vm_compute. reflexivity.
Defined.

End Bloom.
