(* ===== verification/Probabilistic.v ===== *)
(** * The probabilistic interfaces
    (src/internal/data_structure/probabilistic/probabilistic_interfaces.go)

    [FrequencyEstimator] and [MembershipTester] as classes of operations, what a
    client may rely on as laws, the sketch and the filter as instances.  The
    histories are proved of the interface: no call fails, an estimate is between
    the item's total and the total of everything, and what was added is found. *)

From Stdlib Require Import ZArith Lia.
From stdpp Require Import base list numbers.
From S2P Require Import Prelude GoStrings GoFloat Cms Bloom.

Module Probabilistic.

(** ** The interfaces *)

Class FrequencyEstimator (E : Type) := {
  fe_IncrBy : E → bytes → Z → outcome (Z * E);
  fe_Count : E → bytes → outcome Z
}.

Class MembershipTester (E : Type) := {
  mt_Add : E → bytes → outcome E;
  mt_Exist : E → bytes → outcome bool
}.

(** The saturated total of the increments of one item, and of all. *)
Definition total (os : Cms.ops) (item : bytes) : Z :=
  Z.min MaxUint64 (Cms.sum_with (λ x, bool_decide (x = item)) os).
Definition grand_total (os : Cms.ops) : Z := Z.min MaxUint64 (Cms.sum_with (λ _, true) os).

(** [fe_holds e os]: the increments [os] were made on [e]. *)
Class EstimatorLaws (E : Type) `{FrequencyEstimator E} := {
  fe_holds : E → Cms.ops → Prop;
  fe_incr e os item v :
    fe_holds e os → is_u64 v →
    ∃ n e', fe_IncrBy e item v = Ret (n, e') ∧ fe_holds e' ((item, v) :: os) ∧
            fe_Count e' item = Ret n;
  fe_count e os item :
    fe_holds e os → ∃ n, fe_Count e item = Ret n ∧ total os item <= n <= grand_total os
}.

Class TesterLaws (E : Type) `{MembershipTester E} := {
  mt_holds : E → list bytes → Prop;
  mt_add e es x : mt_holds e es → ∃ e', mt_Add e x = Ret e' ∧ mt_holds e' (x :: es);
  mt_exist e es x : mt_holds e es → ∃ b, mt_Exist e x = Ret b ∧ (x ∈ es → b = true)
}.

(** ** Histories of a client *)

Inductive fcall := FIncrBy (item : bytes) (v : Z) | FCount (item : bytes).
Inductive mcall := MAdd (x : bytes) | MExist (x : bytes).

Section Clients.
Context {E : Type}.

Fixpoint estimates `{FrequencyEstimator E} (cs : list fcall) (e : E) : outcome (list Z * E) :=
  match cs with
  | [] => Ret ([], e)
  | FIncrBy item v :: cs =>
      '(n, e) ← fe_IncrBy e item v; '(ns, e) ← estimates cs e; Ret (n :: ns, e)
  | FCount item :: cs =>
      n ← fe_Count e item; '(ns, e) ← estimates cs e; Ret (n :: ns, e)
  end.

(** The bounds each answer has to meet, after the increments [os]. *)
Fixpoint bounded (cs : list fcall) (os : Cms.ops) (ns : list Z) : Prop :=
  match cs, ns with
  | [], [] => True
  | FIncrBy item v :: cs, n :: ns =>
      let os := (item, v) :: os in total os item <= n <= grand_total os ∧ bounded cs os ns
  | FCount item :: cs, n :: ns => total os item <= n <= grand_total os ∧ bounded cs os ns
  | _, _ => False
  end.

Definition fits (c : fcall) : Prop := match c with FIncrBy _ v => is_u64 v | FCount _ => True end.

Lemma estimates_bounded `{EstimatorLaws E} cs e os :
  fe_holds e os → Forall fits cs → ∃ ns e', estimates cs e = Ret (ns, e') ∧ bounded cs os ns.
Proof.
  revert e os. induction cs as [|[item v|item] cs IH]; intros e os He Hf; cbn [estimates].
  - by exists [], e.
  - apply Forall_cons_1 in Hf as [Hv Hf].
    destruct (fe_incr e os item v He Hv) as (n & e1 & -> & H1 & Hn).
    destruct (fe_count e1 _ item H1) as (n' & E' & Hb). rewrite Hn in E'. injection E' as <-.
    destruct (IH e1 _ H1 Hf) as (ns & e' & Ens & Hns). cbn. rewrite Ens. by exists (n :: ns), e'.
  - apply Forall_cons_1 in Hf as [_ Hf]. destruct (fe_count e os item He) as (n & -> & Hb).
    destruct (IH e os He Hf) as (ns & e' & Ens & Hns). cbn. rewrite Ens. by exists (n :: ns), e'.
Qed.

Fixpoint lookups `{MembershipTester E} (cs : list mcall) (e : E) : outcome (list bool * E) :=
  match cs with
  | [] => Ret ([], e)
  | MAdd x :: cs => e ← mt_Add e x; lookups cs e
  | MExist x :: cs => b ← mt_Exist e x; '(bs, e) ← lookups cs e; Ret (b :: bs, e)
  end.

(** An answer is [true] where the entry was added before. *)
Fixpoint found (cs : list mcall) (es : list bytes) (bs : list bool) : Prop :=
  match cs, bs with
  | [], [] => True
  | MAdd x :: cs, bs => found cs (x :: es) bs
  | MExist x :: cs, b :: bs => (x ∈ es → b = true) ∧ found cs es bs
  | _, _ => False
  end.

Lemma lookups_found `{TesterLaws E} cs e es :
  mt_holds e es → ∃ bs e', lookups cs e = Ret (bs, e') ∧ found cs es bs.
Proof.
  revert e es. induction cs as [|[x|x] cs IH]; intros e es He; cbn [lookups].
  - by exists [], e.
  - destruct (mt_add e es x He) as (e1 & -> & H1). cbn. by apply IH.
  - destruct (mt_exist e es x He) as (b & -> & Hb). destruct (IH e es He) as (bs & e' & Ebs & Hbs).
    cbn. rewrite Ebs. by exists (b :: bs), e'.
Qed.

End Clients.

(** ** The sketch and the filter implement them *)

#[export] Instance cms_estimator : FrequencyEstimator Cms.CMS :=
  {| fe_IncrBy := Cms.IncrBy; fe_Count := Cms.Count |}.

#[export] Instance bloom_tester : MembershipTester Bloom.Bloom :=
  {| mt_Add := Bloom.Add; mt_Exist := Bloom.Exist |}.

#[export] Program Instance cms_laws : EstimatorLaws Cms.CMS :=
  {| fe_holds c os := Cms.represents c os ∧ 0 < Cms.depth c |}.
Next Obligation.
  intros c os item v [Hr Hd] Hv. destruct (Cms.IncrBy_spec c os item v Hr Hv) as (c' & E & Ew & Ed & Hr').
  exists (Cms.count_spec (Cms.width c) (Cms.depth c) ((item, v) :: os) item), c'.
  split_and!; [done..|lia|]. cbn. by rewrite (Cms.Count_spec _ _ _ Hr'), Ew, Ed.
Qed.
Next Obligation. intros c os item [Hr Hd]. by apply Cms.Count_between. Qed.

#[export] Program Instance bloom_laws : TesterLaws Bloom.Bloom :=
  {| mt_holds f es := Bloom.represents f (Bloom.CalcHash <$> es) |}.
Next Obligation.
  intros f es x Hf. destruct (Bloom.filter_Add_refines f _ x Hf) as (f' & E & _ & Hf'). by exists f'.
Qed.
Next Obligation.
  intros f es x Hf. destruct (Bloom.Exist_total f _ x Hf) as (b & E & Hb). exists b. split; [done|].
  intros Hx. apply Hb. by apply list_elem_of_fmap_2.
Qed.

(** A new sketch of at least one row and column serves every client. *)
Lemma new_sketch_serves w d cs :
  0 < w → 0 < d → w * d * 8 <= 281474976710656 → Forall fits cs →
  ∃ c ns c', Cms.NewCMS w d = Ret c ∧ estimates cs c = Ret (ns, c') ∧ bounded cs [] ns.
Proof.
  intros Hw Hd Hb Hf. destruct (Cms.NewCMS_empty w d Hw ltac:(lia) Hb) as (c & E & Ew & Ed & Hr).
  destruct (estimates_bounded cs c []) as (ns & c' & En & Hn); [split; [done|lia]|done|]. by exists c, ns, c'.
Qed.

(** A new filter with at least one bit serves every client, without false negatives. *)
Lemma new_filter_serves math_Log n err f cs :
  Bloom.NewBloomFilter math_Log n err = Ret f → 0 < Bloom.bits f →
  ∃ bs f', lookups cs f = Ret (bs, f') ∧ found cs [] bs.
Proof.
  intros (_ & _ & Hr)%Bloom.NewBloomFilter_empty Hb. by apply lookups_found, Hr.
Qed.

End Probabilistic.
