(* ===== verification/Item.v ===== *)
(** * Sorted-set items and their order
    (src/internal/data_structure/sorted_set/item.go)

    Go compares strings byte-wise; [float64] comparisons are those of
    [F64], all false on NaN. *)

From Stdlib Require Import ZArith Lia Ascii.
From Stdlib Require Import SpecFloat.
From stdpp Require Import base list strings numbers sorting sets.
From S2P Require Import Prelude GoFloat.

(** [strings.Compare], and the operators [<] and [>] on strings. *)
Fixpoint bytes_cmp (s t : bytes) : comparison :=
  match s, t with
  | [], [] => Eq
  | [], _ :: _ => Lt
  | _ :: _, [] => Gt
  | c :: s, d :: t =>
      match Z.compare (code c) (code d) with Eq => bytes_cmp s t | r => r end
  end.

Definition bytes_ltb (s t : bytes) : bool :=
  match bytes_cmp s t with Lt => true | _ => false end.

Module Item.
Import F64.

Record Item := mkItem { Score : float64; Member : bytes }.

Definition CompareTo (i other : Item) : Z :=
  if ltb (Score i) (Score other) then -1
  else if gtb (Score i) (Score other) then 1
  else if bytes_ltb (Member i) (Member other) then -1
  else if bytes_ltb (Member other) (Member i) then 1
  else 0.

(** ** Lists of items

    What an index holds: the position of a member, insertion at the place
    [CompareTo] gives, and removal of a member. *)

Definition rank_of (member : bytes) (its : list Item) : Z :=
  match list_find (λ it, Member it = member) its with
  | Some (i, _) => Z.of_nat i
  | None => -1
  end.

Fixpoint insert_item (it : Item) (its : list Item) : list Item :=
  match its with
  | [] => [it]
  | x :: its' => if 0 <? CompareTo it x then x :: insert_item it its' else it :: its
  end.

Definition drop_member (member : bytes) (its : list Item) : list Item :=
  filter (λ it, Member it ≠ member) its.

Definition item_lt (a b : Item) : Prop := CompareTo a b = -1.

#[global] Instance item_lt_dec a b : Decision (item_lt a b) :=
  decide (CompareTo a b = -1).

(** Strictly ascending, without NaN scores, one item per member. *)
Record wf_items (its : list Item) : Prop := {
  wf_sorted : StronglySorted item_lt its;
  wf_nan : Forall (λ it, is_nan (Score it) = false) its;
  wf_members : NoDup (Member <$> its)
}.

End Item.

(** ** The two orders *)

Lemma bytes_cmp_eq s t : bytes_cmp s t = Eq ↔ s = t.
Proof.
  revert t; induction s as [|c s IH]; intros [|d t]; cbn; try done.
  destruct (Z.compare_spec (code c) (code d)) as [E|E|E].
  - rewrite IH. apply (inj code) in E. naive_solver.
  - split; [done|]. intros [= -> ->]. lia.
  - split; [done|]. intros [= -> ->]. lia.
Qed.

Lemma bytes_cmp_antisym s t : bytes_cmp t s = CompOpp (bytes_cmp s t).
Proof.
  revert t; induction s as [|c s IH]; intros [|d t]; cbn; try done.
  rewrite (Z.compare_antisym (code c)). destruct (code c ?= code d); cbn; auto.
Qed.

Lemma bytes_cmp_trans s t u :
  bytes_cmp s t = Lt → bytes_cmp t u = Lt → bytes_cmp s u = Lt.
Proof.
  revert t u; induction s as [|c s IH]; intros [|d t] [|e u]; cbn; try done.
  destruct (Z.compare_spec (code c) (code d)), (Z.compare_spec (code d) (code e));
    try done; destruct (Z.compare_spec (code c) (code e)); try lia; try done; eauto.
Qed.

Lemma bytes_ltb_irrefl s : bytes_ltb s s = false.
Proof. unfold bytes_ltb. by rewrite (proj2 (bytes_cmp_eq s s)). Qed.

Lemma bytes_ltb_trans s t u :
  bytes_ltb s t = true → bytes_ltb t u = true → bytes_ltb s u = true.
Proof.
  unfold bytes_ltb. destruct (bytes_cmp s t) eqn:E1; try done.
  destruct (bytes_cmp t u) eqn:E2; try done. by rewrite (bytes_cmp_trans _ _ _ E1 E2).
Qed.

Lemma bytes_trichotomy s t : bytes_ltb s t = true ∨ s = t ∨ bytes_ltb t s = true.
Proof.
  unfold bytes_ltb. rewrite (bytes_cmp_antisym s t).
  destruct (bytes_cmp s t) eqn:E; cbn; auto. right; left. by apply bytes_cmp_eq.
Qed.

(** ** [CompareTo] is a strict order on items without NaN *)

Module ItemFacts.
Import F64 Item.

Definition key_cmp (a b : Item) : comparison :=
  match rank (Score a), rank (Score b) with
  | Some x, Some y => match cmp3 x y with Eq => bytes_cmp (Member a) (Member b) | c => c end
  | _, _ => Eq
  end.

Lemma rank_not_nan x : is_nan x = false → ∃ r, rank x = Some r.
Proof. destruct x; cbn; eauto; done. Qed.

Lemma cmp3_antisym a b : cmp3 b a = CompOpp (cmp3 a b).
Proof.
  unfold cmp3. rewrite (Z.compare_antisym a.1.1), (Z.compare_antisym a.1.2), (Z.compare_antisym a.2).
  destruct (a.1.1 ?= b.1.1); cbn; try done. by destruct (a.1.2 ?= b.1.2).
Qed.

Lemma CompareTo_cmp a b :
  is_nan (Score a) = false → is_nan (Score b) = false →
  CompareTo a b = match key_cmp a b with Lt => -1 | Eq => 0 | Gt => 1 end.
Proof.
  intros Ha Hb. unfold CompareTo, gtb, key_cmp. fold (ltb (Score b) (Score a)).
  rewrite !ltb_rank.
  destruct (rank_not_nan _ Ha) as [x ->], (rank_not_nan _ Hb) as [y ->].
  rewrite (cmp3_antisym x y). unfold bytes_ltb. rewrite (bytes_cmp_antisym (Member a)).
  destruct (cmp3 x y); cbn; try done. by destruct (bytes_cmp _ _).
Qed.

Section Order.
Context (a b c : Item).
Hypothesis Ha : is_nan (Score a) = false.
Hypothesis Hb : is_nan (Score b) = false.
Hypothesis Hc : is_nan (Score c) = false.

Lemma item_lt_cmp : item_lt a b ↔ key_cmp a b = Lt.
Proof. unfold item_lt. rewrite CompareTo_cmp by done. by destruct (key_cmp a b). Qed.

Lemma key_cmp_antisym : key_cmp b a = CompOpp (key_cmp a b).
Proof.
  unfold key_cmp. destruct (rank_not_nan _ Ha) as [x ->], (rank_not_nan _ Hb) as [y ->].
  rewrite (cmp3_antisym x y), (bytes_cmp_antisym (Member a)). by destruct (cmp3 x y).
Qed.

Lemma key_cmp_lt_trans : key_cmp a b = Lt → key_cmp b c = Lt → key_cmp a c = Lt.
Proof.
  unfold key_cmp. destruct (rank_not_nan _ Ha) as [x ->], (rank_not_nan _ Hb) as [y ->],
    (rank_not_nan _ Hc) as [z ->].
  pose proof (cmp3_trans x y z). pose proof (bytes_cmp_trans (Member a) (Member b) (Member c)).
  destruct (cmp3 x y), (cmp3 y z), (cmp3 x z); naive_solver.
Qed.

(** Distinct members are never equivalent. *)
Lemma key_cmp_eq_member : key_cmp a b = Eq → Member a = Member b.
Proof.
  unfold key_cmp. destruct (rank_not_nan _ Ha) as [x ->], (rank_not_nan _ Hb) as [y ->].
  destruct (cmp3 x y); try done. apply bytes_cmp_eq.
Qed.

Lemma item_lt_irrefl : ~ item_lt a a.
Proof.
  unfold item_lt, CompareTo, gtb. fold (ltb (Score a) (Score a)). rewrite ltb_rank.
  destruct (rank_not_nan _ Ha) as [x ->].
  pose proof (cmp3_antisym x x). rewrite bytes_ltb_irrefl. by destruct (cmp3 x x).
Qed.

Lemma CompareTo_pos : 0 <? CompareTo a b = true ↔ item_lt b a.
Proof.
  unfold item_lt. rewrite !CompareTo_cmp by done. rewrite key_cmp_antisym.
  by destruct (key_cmp a b).
Qed.

Lemma item_lt_total : Member a ≠ Member b → ~ item_lt b a → item_lt a b.
Proof.
  unfold item_lt. rewrite !CompareTo_cmp by done. rewrite key_cmp_antisym.
  pose proof key_cmp_eq_member. destruct (key_cmp a b); cbn; try done. naive_solver.
Qed.

End Order.

Lemma item_lt_trans a b c :
  is_nan (Score a) = false → is_nan (Score b) = false → is_nan (Score c) = false →
  item_lt a b → item_lt b c → item_lt a c.
Proof.
  intros Ha Hb Hc. rewrite !item_lt_cmp by done. eauto using key_cmp_lt_trans.
Qed.

(** ** Insertion and removal *)

Lemma elem_of_insert_item it its x : x ∈ insert_item it its ↔ x = it ∨ x ∈ its.
Proof.
  induction its as [|y its IH]; cbn; [set_solver|].
  destruct (0 <? CompareTo it y); set_solver.
Qed.

Lemma insert_item_perm it its : insert_item it its ≡ₚ it :: its.
Proof.
  induction its as [|y its IH]; cbn; [done|].
  destruct (0 <? CompareTo it y); [|done]. rewrite IH. constructor.
Qed.

Lemma insert_item_wf it its :
  wf_items its → is_nan (Score it) = false → Member it ∉ Member <$> its →
  wf_items (insert_item it its).
Proof.
  intros [Hs Hn Hm] Hit Hnew. split.
  - revert Hn Hnew. clear Hm. induction Hs as [|x its Hs IH Hx]; intros Hn Hnew.
    { cbn. by repeat constructor. }
    apply Forall_cons_1 in Hn as [Hnx Hn]. cbn in *.
    rewrite not_elem_of_cons in Hnew. destruct Hnew as [Hne Hnew].
    destruct (0 <? CompareTo it x) eqn:E.
    + apply CompareTo_pos in E; [|done..]. constructor; [by apply IH|].
      rewrite insert_item_perm. by constructor.
    + assert (Hlt : item_lt it x).
      { apply item_lt_total; [done..|]. rewrite <- CompareTo_pos by done. by rewrite E. }
      constructor; [by constructor|]. constructor; [done|].
      rewrite Forall_forall in Hx, Hn |- *. intros y Hy.
      eapply item_lt_trans; [done| | |exact Hlt|]; eauto.
  - rewrite insert_item_perm. by constructor.
  - rewrite insert_item_perm. by constructor.
Qed.

Lemma drop_member_elem m its x : x ∈ drop_member m its ↔ x ∈ its ∧ Member x ≠ m.
Proof. unfold drop_member. rewrite list_elem_of_filter. naive_solver. Qed.

Lemma drop_member_wf m its : wf_items its → wf_items (drop_member m its).
Proof.
  intros [Hs Hn Hm]. unfold drop_member. split.
  - by apply StronglySorted_filter.
  - rewrite Forall_forall in Hn |- *. intros x Hx. apply list_elem_of_filter in Hx. naive_solver.
  - eapply sublist_NoDup; [exact Hm|]. apply fmap_sublist, sublist_filter.
Qed.

Lemma drop_member_absent m its : m ∉ Member <$> drop_member m its.
Proof. rewrite list_elem_of_fmap. intros (x & -> & Hx). apply drop_member_elem in Hx. naive_solver. Qed.

Lemma drop_member_id m its : m ∉ Member <$> its → drop_member m its = its.
Proof.
  intros H. unfold drop_member. induction its as [|x its IH]; [done|].
  cbn in H. rewrite not_elem_of_cons in H. destruct H as [Hx H].
  rewrite filter_cons_True by auto. f_equal. auto.
Qed.

(** One item per member: an item is determined by its member. *)
Lemma member_unique its x y :
  NoDup (Member <$> its) → x ∈ its → y ∈ its → Member x = Member y → x = y.
Proof.
  intros HN Hx Hy E. apply list_elem_of_lookup_1 in Hx as [i Hi], Hy as [j Hj].
  assert (i = j) as ->; [|naive_solver].
  eapply (NoDup_lookup (Member <$> its)); [done|rewrite list_lookup_fmap, Hi; done|].
  by rewrite list_lookup_fmap, Hj, E.
Qed.

(** ** The rank of an item is the number of smaller ones *)

Lemma rank_of_absent m its : m ∉ Member <$> its → rank_of m its = -1.
Proof.
  intros H. unfold rank_of. rewrite (proj2 (list_find_None _ its)); [done|].
  apply Forall_forall. intros x Hx E. apply H. apply list_elem_of_fmap. eauto.
Qed.

Lemma count_smaller its i it :
  StronglySorted item_lt its → Forall (λ it, is_nan (Score it) = false) its →
  its !! i = Some it → length (filter (λ x, item_lt x it) its) = i.
Proof.
  intros Hs. revert i. induction Hs as [|x its Hs IH Hx]; intros i Hn Hi; [done|].
  apply Forall_cons_1 in Hn as [Hnx Hn]. destruct i as [|i]; cbn in Hi.
  - injection Hi as <-. rewrite filter_cons_False by (by apply item_lt_irrefl).
    rewrite filter_none; [done|]. apply Forall_forall.
    rewrite Forall_forall in Hx, Hn. intros y Hy Hlt.
    apply (item_lt_irrefl x); [done|]. eapply item_lt_trans; [| | |exact (Hx _ Hy)|]; eauto.
  - rewrite Forall_forall in Hx.
    rewrite filter_cons_True by (eapply Hx, list_elem_of_lookup_2, Hi).
    cbn. f_equal. eauto.
Qed.

Lemma rank_of_count its it :
  wf_items its → it ∈ its →
  rank_of (Member it) its = Z.of_nat (length (filter (λ x, item_lt x it) its)).
Proof.
  intros [Hs Hn Hm] Hin. unfold rank_of.
  destruct (list_find_elem_of (λ x, Member x = Member it) its it Hin eq_refl) as [[i y] E].
  rewrite E. apply list_find_Some in E as (Hi & Hy & _).
  assert (y = it) as -> by eauto using member_unique, list_elem_of_lookup_2.
  by rewrite (count_smaller its i it).
Qed.

End ItemFacts.
