(* ===== verification/Json.v ===== *)
(** * Package encoding/json, as the gateway uses it
    (src/cmd/gateway/main.go: the requests and responses of its handlers)

    [marshal] is what the encoder writes for the values a reply decodes to,
    [readValue] the reader, and [sanitize] what both make of text that is not UTF-8.
    The reader of what the encoder wrote gives the tree of the value
    ([reads_marshal], [readValue_reads]), and nothing the encoder writes can be taken for markup
    ([marshal_inert]). *)

From Stdlib Require Import ZArith Lia Ascii.
From stdpp Require Import base gmap list strings numbers sorting.
From S2P Require Import Prelude GoStrings Resp GoFloat Item.

Module Json.
Import Strconv Utf8 Resp.

Inductive json :=
  | JNull
  | JBool (b : bool)
  | JNum (literal : bytes)
  | JStr (s : bytes)
  | JArr (l : list json)
  | JObj (l : list (bytes * json)).

(** ** The encoder *)

Definition QUOTE : ascii := chr 34.
Definition BACKSLASH : ascii := chr 92.

Definition hex (n : Z) : ascii := if n <? 10 then chr (48 + n) else chr (87 + n).

(** The table [htmlSafeSet]. *)
Definition html_safe (x : Z) : bool :=
  (32 <=? x) && negb (bool_decide (x ∈ [34; 38; 60; 62; 92])).

(** One rune of [appendString], with the bytes it was read from; a single byte
    from 128 on is ill-formed. *)
Definition escape_rune (rb : Z * bytes) : bytes :=
  match rb.2 with
  | [c] =>
      let x := code c in
      if 128 <=? x then bs "\ufffd"
      else if html_safe x then [c]
      else if (x =? 92) || (x =? 34) then [BACKSLASH; c]
      else if x =? 8 then bs "\b" else if x =? 12 then bs "\f"
      else if x =? 10 then bs "\n" else if x =? 13 then bs "\r" else if x =? 9 then bs "\t"
      else bs "\u00" ++ [hex (x / 16); hex (x mod 16)]
  | b => if (rb.1 =? 8232) || (rb.1 =? 8233) then bs "\u202" ++ [hex (rb.1 mod 16)] else b
  end.

Definition appendString (s : bytes) : bytes :=
  QUOTE :: concat (escape_rune <$> runes s) ++ [QUOTE].

(** Texts separated by commas. *)
Fixpoint commas (l : list bytes) : bytes :=
  match l with
  | [] => []
  | [x] => x
  | x :: l => x ++ bs "," ++ commas l
  end.

Lemma commas_cons x y l : commas (x :: y :: l) = x ++ chr 44 :: commas (y :: l).
Proof. done. Qed.

Definition brackets (l : list bytes) : bytes := bs "[" ++ commas l ++ bs "]".
Definition braces (l : list bytes) : bytes := bs "{" ++ commas l ++ bs "}".
Definition field (k x : bytes) : bytes := appendString k ++ bs ":" ++ x.

(** An [interface{}]; an [error] has no exported fields. *)
Fixpoint marshal (v : value) : bytes :=
  match v with
  | VNil => bs "null"
  | VStr s => appendString s
  | VInt n => itoa n
  | VErr _ => braces []
  | VStrs l => brackets (map appendString l)
  | VStrss l => brackets (map (λ x, brackets (map appendString x)) l)
  | VArr l => brackets (map marshal l)
  end.

(** A [map[string]interface{}] of strings, by its keys in order. *)
Definition key_le (x y : bytes * bytes) : Prop := bytes_cmp x.1 y.1 ≠ Gt.
#[export] Instance comparison_eq_dec : EqDecision comparison.
Proof. solve_decision. Defined.
#[export] Instance key_le_dec x y : Decision (key_le x y).
Proof. unfold key_le. apply _. Defined.

Definition marshal_map (m : gmap bytes bytes) : bytes :=
  braces (map (λ kv, field kv.1 (appendString kv.2)) (merge_sort key_le (map_to_list m))).

(** ** The reader *)

Definition is_ws (c : ascii) : bool := bool_decide (code c ∈ [32; 9; 13; 10]).

Fixpoint skip_ws (s : bytes) : bytes :=
  match s with c :: r => if is_ws c then skip_ws r else s | [] => [] end.

Definition unhex (c : ascii) : option Z :=
  let x := code c in
  if (48 <=? x) && (x <=? 57) then Some (x - 48)
  else if (97 <=? x) && (x <=? 102) then Some (x - 87)
  else if (65 <=? x) && (x <=? 70) then Some (x - 55) else None.

(** The four digits of [\uXXXX]. *)
Definition getu4 (s : bytes) : option (Z * bytes) :=
  match s with
  | a :: b :: c :: d :: r =>
      a ← unhex a; b ← unhex b; c ← unhex c; d ← unhex d;
      Some (4096 * a + 256 * b + 16 * c + d, r)
  | _ => None
  end.

Definition surrogate (r : Z) : bool := (55296 <=? r) && (r <? 57344).

(** [utf16.DecodeRune] *)
Definition utf16_DecodeRune (r1 r2 : Z) : Z :=
  if (55296 <=? r1) && (r1 <? 56320) && (56320 <=? r2) && (r2 <? 57344)
  then (r1 - 55296) * 1024 + (r2 - 56320) + 65536 else RuneError.

(** What follows [\u]: an unpaired surrogate is replaced. *)
Definition unescape_u (s : bytes) : option (bytes * bytes) :=
  '(rr, r) ← getu4 s;
  if surrogate rr then
    let pair :=
      match r with
      | c :: u :: r1 =>
          if decide (c = BACKSLASH ∧ u = chr 117) then getu4 r1 else None
      | _ => None
      end in
    match pair with
    | Some (rr1, r1) =>
        let dec := utf16_DecodeRune rr rr1 in
        if dec =? RuneError then Some (EncodeRune RuneError, r) else Some (EncodeRune dec, r1)
    | None => Some (EncodeRune RuneError, r)
    end
  else Some (EncodeRune rr, r).

(** What follows a backslash. *)
Definition unescape (s : bytes) : option (bytes * bytes) :=
  match s with
  | [] => None
  | c :: r =>
      let x := code c in
      if bool_decide (x ∈ [34; 92; 47]) then Some ([c], r)
      else if x =? 98 then Some ([chr 8], r) else if x =? 102 then Some ([chr 12], r)
      else if x =? 110 then Some ([LF], r) else if x =? 114 then Some ([CR], r)
      else if x =? 116 then Some ([chr 9], r)
      else if x =? 117 then unescape_u r else None
  end.

(** The text of a string behind its opening quote. *)
Fixpoint unquote_fuel (fuel : nat) (s : bytes) : option (bytes * bytes) :=
  match fuel, s with
  | S fuel, c :: r =>
      if decide (c = QUOTE) then Some ([], r)
      else if decide (c = BACKSLASH) then
        '(t, r) ← unescape r; '(s, r) ← unquote_fuel fuel r; Some (t ++ s, r)
      else if code c <? 32 then None
      else
        let '(rr, w) := DecodeRune s in
        '(s, r) ← unquote_fuel fuel (drop w s); Some (EncodeRune rr ++ s, r)
  | _, _ => None
  end.
Definition unquote (s : bytes) : option (bytes * bytes) := unquote_fuel (length s) s.

(** ** Numbers *)

Fixpoint span_digits (s : bytes) : bytes * bytes :=
  match s with
  | c :: r => if is_digit c then let '(ds, r) := span_digits r in (c :: ds, r) else ([], s)
  | [] => ([], [])
  end.

Definition digits1 (s : bytes) : option (bytes * bytes) :=
  let '(ds, r) := span_digits s in if decide (ds = []) then None else Some (ds, r).

Definition int_part (s : bytes) : option (bytes * bytes) :=
  match s with
  | c :: r => if decide (c = chr 48) then Some ([c], r) else digits1 s
  | [] => None
  end.

Definition frac_part (s : bytes) : option (bytes * bytes) :=
  match s with
  | c :: r => if decide (c = chr 46) then '(ds, r) ← digits1 r; Some (c :: ds, r) else Some ([], s)
  | [] => Some ([], s)
  end.

Definition exp_part (s : bytes) : option (bytes * bytes) :=
  match s with
  | c :: r =>
      if decide (c = chr 101 ∨ c = chr 69) then
        let '(sg, r) := match r with
                        | d :: r' => if decide (d = chr 43 ∨ d = chr 45) then ([d], r') else ([], r)
                        | [] => ([], r)
                        end in
        '(ds, r) ← digits1 r; Some (c :: sg ++ ds, r)
      else Some ([], s)
  | [] => Some ([], s)
  end.

Definition number (s : bytes) : option (bytes * bytes) :=
  let '(sg, s) := match s with
                  | c :: r => if decide (c = chr 45) then ([c], r) else ([], s)
                  | [] => ([], s)
                  end in
  '(i, s) ← int_part s; '(f, s) ← frac_part s; '(e, s) ← exp_part s; Some (sg ++ i ++ f ++ e, s).

(** ** Values *)

(** A literal word. *)
Definition word (w : bytes) (v : json) (s : bytes) : option (json * bytes) :=
  if decide (take (length w) s = w) then Some (v, drop (length w) s) else None.

(** [room]: how many more arrays and objects may be nested. *)
Fixpoint read_fuel (fuel : nat) (room : nat) (s : bytes) : option (json * bytes) :=
  match fuel with
  | O => None
  | S fuel =>
      match skip_ws s with
      | [] => None
      | c :: r =>
          if decide (c = chr 123) then
            match room with
            | O => None
            | S room =>
                match skip_ws r with
                | d :: r' =>
                    if decide (d = chr 125) then Some (JObj [], r')
                    else '(l, r) ← members fuel room r; Some (JObj l, r)
                | [] => None
                end
            end
          else if decide (c = chr 91) then
            match room with
            | O => None
            | S room =>
                match skip_ws r with
                | d :: r' =>
                    if decide (d = chr 93) then Some (JArr [], r')
                    else '(l, r) ← elements fuel room r; Some (JArr l, r)
                | [] => None
                end
            end
          else if decide (c = QUOTE) then '(x, r) ← unquote r; Some (JStr x, r)
          else if decide (c = chr 116) then word (bs "true") (JBool true) (c :: r)
          else if decide (c = chr 102) then word (bs "false") (JBool false) (c :: r)
          else if decide (c = chr 110) then word (bs "null") JNull (c :: r)
          else '(n, r) ← number (c :: r); Some (JNum n, r)
      end
  end
with members (fuel : nat) (room : nat) (s : bytes) : option (list (bytes * json) * bytes) :=
  match fuel with
  | O => None
  | S fuel =>
      match skip_ws s with
      | c :: r =>
          if decide (c = QUOTE) then
            '(k, r) ← unquote r;
            match skip_ws r with
            | d :: r =>
                if decide (d = chr 58) then
                  '(v, r) ← read_fuel fuel room r;
                  match skip_ws r with
                  | e :: r =>
                      if decide (e = chr 44) then
                        '(l, r) ← members fuel room r; Some ((k, v) :: l, r)
                      else if decide (e = chr 125) then Some ([(k, v)], r) else None
                  | [] => None
                  end
                else None
            | [] => None
            end
          else None
      | [] => None
      end
  end
with elements (fuel : nat) (room : nat) (s : bytes) : option (list json * bytes) :=
  match fuel with
  | O => None
  | S fuel =>
      '(v, r) ← read_fuel fuel room s;
      match skip_ws r with
      | e :: r =>
          if decide (e = chr 44) then '(l, r) ← elements fuel room r; Some (v :: l, r)
          else if decide (e = chr 93) then Some ([v], r) else None
      | [] => None
      end
  end.

(** A value at the start of [s]; every second call reads a byte. *)
Definition readValue (room : nat) (s : bytes) : option (json * bytes) :=
  read_fuel (2 * length s) room s.

Definition maxNestingDepth : nat := Z.to_nat 10000.

(** ** Strings are read back *)

Lemma unquote_mono f f' s x :
  (f <= f')%nat → unquote_fuel f s = Some x → unquote_fuel f' s = Some x.
Proof.
  revert f' s x. induction f as [|f IH]; intros [|f'] [|c s] x Hf H; cbn [unquote_fuel] in *; try done; [lia|].
  case_decide; [done|]. case_decide.
  - destruct (unescape s) as [[t r]|]; [|done]. cbn in *.
    destruct (unquote_fuel f r) as [y|] eqn:E; [|done]. by rewrite (IH f' r y ltac:(lia) E).
  - case_match; [done|]. destruct (DecodeRune (c :: s)) as [rr w].
    destruct (unquote_fuel f (drop w (c :: s))) as [y|] eqn:E; [|done].
    by rewrite (IH f' _ y ltac:(lia) E).
Qed.

(** The next rune of a string, in any of its three spellings. *)
Lemma unquote_rune s r w fuel rest :
  rune_form s r w →
  unquote_fuel (S fuel) (escape_rune (r, take w s) ++ rest) =
    ('(x, q) ← unquote_fuel fuel rest; Some (EncodeRune r ++ x, q)).
Proof.
  intros Hf. destruct (ill_formed (take w s)) eqn:Hi.
  { destruct Hf as [c s H|c s H| | |]; try done; cbn [take ill_formed] in Hi; unfold escape_rune;
      cbn [snd take]; [|apply Z.leb_le in Hi; lia]. by rewrite (proj2 (Z.leb_le _ _)) by lia. }
  pose proof (DecodeRune_app s r w rest Hf Hi) as Hd.
  destruct (take w s) as [|c [|c' b]] eqn:Et.
  - by destruct Hf.
  - cbn [ill_formed] in Hi. apply Z.leb_gt in Hi.
    assert (r = code c) as ->.
    { destruct Hf; cbn in Et; injection Et as ->; try done. lia. }
    clear -Hi. destruct c as [[] [] [] [] [] [] [] []]; try done; reflexivity.
  - assert (Hc : 128 <= code c).
    { destruct Hf; cbn in Et; simplify_eq/=; lia. }
    unfold escape_rune. cbn [fst snd].
    destruct ((r =? 8232) || (r =? 8233)) eqn:Er.
    + apply orb_true_iff in Er as [->%Z.eqb_eq| ->%Z.eqb_eq]; reflexivity.
    + assert (w = length (c :: c' :: b)) as Hw.
      { rewrite <- Et, length_take. destruct Hf; cbn; lia. }
      cbn [app] in Hd |- *. cbn [unquote_fuel].
      rewrite decide_False by (intros ->; vm_compute in Hc; done).
      rewrite decide_False by (intros ->; vm_compute in Hc; done).
      rewrite (proj2 (Z.ltb_ge _ _)) by lia. rewrite Hd, Hw.
      change (c :: c' :: b ++ rest) with ((c :: c' :: b) ++ rest). by rewrite drop_app_length.
Qed.

Lemma escape_nonempty s r w : rune_form s r w → (1 <= length (escape_rune (r, take w s)))%nat.
Proof.
  intros Hf. assert (H : take w s ≠ []) by (by destruct Hf).
  unfold escape_rune. cbn [fst snd]. destruct (take w s) as [|c [|c' b]]; [done| |];
    repeat case_match; cbn; lia.
Qed.

Lemma unquote_runes rs rest fuel :
  Forall (λ rb, ∃ s w, rune_form s rb.1 w ∧ rb.2 = take w s) rs →
  (length (concat (escape_rune <$> rs)) < fuel)%nat →
  unquote_fuel fuel (concat (escape_rune <$> rs) ++ QUOTE :: rest) =
    Some (concat ((λ rb, EncodeRune rb.1) <$> rs), rest).
Proof.
  intros H. revert fuel. induction H as [|[r b] rs (s & w & Hf & E) _ IH]; intros fuel Hl.
  - destruct fuel as [|fuel]; [cbn in Hl; lia|]. done.
  - cbn in E. subst b. cbn [fmap list_fmap concat fst] in *. rewrite length_app in Hl.
    pose proof (escape_nonempty s r w Hf). destruct fuel as [|fuel]; [lia|].
    rewrite <- app_assoc, (unquote_rune s r w) by done. by rewrite IH by lia.
Qed.

Lemma unquote_appendString s rest :
  unquote (concat (escape_rune <$> runes s) ++ QUOTE :: rest) = Some (sanitize s, rest).
Proof.
  apply unquote_runes; [|rewrite length_app; cbn; lia].
  apply Forall_forall. apply runes_form.
Qed.

(** ** Numbers are read back *)

(** What may follow a number without becoming part of it. *)
Definition stops (rest : bytes) : Prop :=
  match rest with
  | [] => True
  | c :: _ => is_digit c = false ∧ c ≠ chr 46 ∧ c ≠ chr 101 ∧ c ≠ chr 69
  end.

Lemma span_digits_app ds rest :
  Forall (λ c, is_digit c = true) ds → stops rest → span_digits (ds ++ rest) = (ds, rest).
Proof.
  intros Hd Hr. induction Hd as [|c ds Hc _ IH]; cbn [app span_digits].
  - destruct rest as [|c r]; [done|]. destruct Hr as [Hc _]. cbn. by rewrite Hc.
  - by rewrite Hc, IH.
Qed.

Lemma frac_exp_stops rest : stops rest → frac_part rest = Some ([], rest) ∧ exp_part rest = Some ([], rest).
Proof.
  destruct rest as [|c r]; [done|]. intros (_ & H1 & H2 & H3). cbn.
  rewrite !decide_False by naive_solver. done.
Qed.

Lemma int_part_utoa n rest : 0 <= n → stops rest → int_part (utoa n ++ rest) = Some (utoa n, rest).
Proof.
  intros Hn Hr. destruct (decide (n = 0)) as [->|Hz].
  { change (utoa 0) with [chr 48]. cbn. done. }
  destruct (utoa_head n ltac:(lia)) as (d & r & E & Hd).
  pose proof (span_digits_app _ _ (utoa_digits n Hn) Hr) as Hs.
  rewrite E in Hs |- *. cbn [app int_part]. rewrite decide_False.
  - unfold digits1. cbn [app] in Hs. rewrite Hs. by rewrite decide_False.
  - unfold digit. intros He%(f_equal code). rewrite !code_chr, !Z.mod_small in He by lia. lia.
Qed.

Lemma number_itoa n rest : stops rest → number (itoa n ++ rest) = Some (itoa n, rest).
Proof.
  intros Hr. destruct (frac_exp_stops rest Hr) as [Hf He]. unfold number, itoa.
  destruct (Z.ltb_spec n 0).
  - cbn [app]. rewrite decide_True by done. rewrite int_part_utoa by (done || lia). cbn [mbind option_bind].
    rewrite Hf. cbn [mbind option_bind]. rewrite He. cbn. by rewrite app_nil_r.
  - pose proof (utoa_nonempty n ltac:(lia)) as Hne. pose proof (utoa_digits n ltac:(lia)) as Hd.
    pose proof (int_part_utoa n rest ltac:(lia) Hr) as Hi.
    destruct (utoa n) as [|c u]; [done|]. cbn [app] in *. apply Forall_cons_1 in Hd as [Hd _].
    rewrite decide_False by (intros ->; done). rewrite Hi. cbn [mbind option_bind].
    rewrite Hf. cbn [mbind option_bind]. rewrite He. cbn. by rewrite !app_nil_r.
Qed.

(** ** Texts that stand for a value wherever they are *)

(** The first byte does not end a list and is no space. *)
Definition starts (t : bytes) : Prop :=
  ∃ c r, t = c :: r ∧ is_ws c = false ∧ c ≠ chr 93 ∧ c ≠ chr 125.

Definition reads (room : nat) (t : bytes) (j : json) : Prop :=
  starts t ∧ ∀ fuel rest, (2 * length t <= fuel)%nat → stops rest →
                          read_fuel fuel room (t ++ rest) = Some (j, rest).

Lemma starts_skip t rest : starts t → skip_ws (t ++ rest) = t ++ rest.
Proof. intros (c & r & -> & Hc & _). cbn. by rewrite Hc. Qed.

Lemma starts_length t : starts t → (1 <= length t)%nat.
Proof. intros (c & r & -> & _). cbn. lia. Qed.

Lemma reads_string room s : reads room (appendString s) (JStr (sanitize s)).
Proof.
  split; [by eexists _, _|]. intros [|fuel] rest Hf _; [cbn in Hf; lia|].
  unfold appendString. cbn [app read_fuel skip_ws]. change (is_ws QUOTE) with false. cbn [read_fuel].
  rewrite !(decide_False (P := QUOTE = _)) by done. rewrite decide_True by done.
  rewrite <- app_assoc. cbn [app]. by rewrite unquote_appendString.
Qed.

Lemma reads_null room : reads room (bs "null") JNull.
Proof. split; [by eexists _, _|]. intros [|fuel] rest Hf _; [cbn in Hf; lia|]. done. Qed.

Lemma itoa_head n : ∃ c r, itoa n = c :: r ∧ (c = chr 45 ∨ is_digit c = true).
Proof.
  unfold itoa. destruct (Z.ltb_spec n 0); [by eexists _, _; eauto|].
  pose proof (utoa_nonempty n ltac:(lia)). pose proof (utoa_digits n ltac:(lia)) as Hd.
  destruct (utoa n) as [|c u]; [done|]. apply Forall_cons_1 in Hd as [Hd _]. eauto.
Qed.

Lemma reads_int room n : reads room (itoa n) (JNum (itoa n)).
Proof.
  destruct (itoa_head n) as (c & r & E & Hc).
  assert (Hn : Forall (λ x, c ≠ x) [chr 93; chr 125; chr 123; chr 91; QUOTE; chr 116; chr 102; chr 110]
               ∧ is_ws c = false).
  { split; [|destruct Hc as [->|Hc]; [done|]].
    - repeat constructor; intros ->; by destruct Hc.
    - unfold is_ws. apply bool_decide_eq_false. unfold is_digit in Hc.
      rewrite andb_true_iff, !Z.leb_le in Hc. set_unfold. lia. }
  destruct Hn as [Hn Hw]. rewrite !Forall_cons in Hn.
  split; [exists c, r; naive_solver|]. intros [|fuel] rest Hf Hr; [rewrite E in Hf; cbn in Hf; lia|].
  pose proof (number_itoa n rest Hr) as Hm. rewrite E in Hm |- *. cbn [app] in Hm |- *.
  cbn [read_fuel skip_ws]. rewrite Hw. rewrite !decide_False by naive_solver. by rewrite Hm.
Qed.

(** ** Arrays *)

Lemma stops_delim c r : c ∈ [chr 44; chr 93; chr 125; chr 58; chr 10] → stops (c :: r).
Proof. rewrite !elem_of_cons, elem_of_nil. intros H. destruct_or! H; subst; done. Qed.

Ltac delim := apply stops_delim; set_solver.

Lemma elements_commas room ts js fuel rest :
  Forall2 (reads room) ts js → ts ≠ [] → (2 * length (commas ts) + 1 <= fuel)%nat →
  elements fuel room (commas ts ++ chr 93 :: rest) = Some (js, rest).
Proof.
  intros H. revert fuel. induction H as [|t j ts js [Ht Hj] H IH]; intros fuel Hne Hf; [done|].
  destruct fuel as [|fuel]; [lia|]. pose proof (starts_length t Ht). cbn [elements].
  destruct H as [|t' j' ts js Ht' H].
  - cbn [commas] in *. by rewrite Hj by (lia || delim).
  - rewrite commas_cons, length_app in Hf. cbn [length] in Hf. rewrite commas_cons, <- app_assoc. cbn [app].
    rewrite Hj by (lia || delim). cbn [mbind option_bind skip_ws]. change (is_ws (chr 44)) with false.
    cbn match. rewrite decide_True by done. by rewrite IH by (done || lia).
Qed.

Lemma reads_brackets room ts js :
  Forall2 (reads room) ts js → reads (S room) (brackets ts) (JArr js).
Proof.
  intros H. split; [by eexists _, _|]. intros [|fuel] rest Hf Hr; [cbn in Hf; lia|].
  unfold brackets in *. rewrite !length_app in Hf. cbn [length bs String.list_ascii_of_string] in Hf.
  rewrite <- !app_assoc. change (bs "[" ++ ?x) with (chr 91 :: x). change (bs "]" ++ ?x) with (chr 93 :: x).
  cbn [read_fuel skip_ws]. change (is_ws (chr 91)) with false. cbn match.
  rewrite decide_False, decide_True by done. destruct H as [|t j ts js Ht H].
  - done.
  - assert (Hs : starts (commas (t :: ts))).
    { destruct Ht as [(c & r & -> & Hc) _]. destruct ts; by eexists _, _. }
    rewrite (starts_skip _ _ Hs). pose proof Hs as (c & r & E & _ & Hc & _). rewrite E at 1. cbn [app].
    rewrite decide_False by done. change (c :: r ++ ?x) with ((c :: r) ++ x). 
    rewrite (elements_commas room (t :: ts) (j :: js)); [done|by constructor|done|lia].
Qed.

(** ** Objects *)

(** A key, its colon and its value. *)
Lemma members_field room k t j fuel tl :
  reads room t j → (2 * length t <= fuel)%nat → stops tl →
  members (S fuel) room (field k t ++ tl) =
    match skip_ws tl with
    | e :: r =>
        if decide (e = chr 44) then '(l, r) ← members fuel room r; Some ((sanitize k, j) :: l, r)
        else if decide (e = chr 125) then Some ([(sanitize k, j)], r) else None
    | [] => None
    end.
Proof.
  intros [Ht Hj] Hl Hs. unfold field, appendString. rewrite <- !app_assoc. cbn [app members skip_ws].
  change (is_ws QUOTE) with false. cbn match. rewrite decide_True by done.
  rewrite <- app_assoc. cbn [app]. rewrite unquote_appendString. cbn [mbind option_bind].
  change (bs ":" ++ ?x) with (chr 58 :: x). cbn [skip_ws]. change (is_ws (chr 58)) with false. cbn match.
  rewrite decide_True by done. by rewrite Hj by done.
Qed.

Lemma length_field k t : (length t + 3 <= length (field k t))%nat.
Proof. unfold field, appendString. rewrite !length_app. cbn. rewrite length_app. cbn. lia. Qed.

Definition fields (kts : list (bytes * bytes)) : list bytes := (λ kt, field kt.1 kt.2) <$> kts.

Lemma members_commas room kts js fuel rest :
  Forall2 (λ kt j, reads room kt.2 j) kts js → kts ≠ [] →
  (2 * length (commas (fields kts)) <= fuel)%nat →
  members fuel room (commas (fields kts) ++ chr 125 :: rest) =
    Some (zip_with (λ kt j, (sanitize kt.1, j)) kts js, rest).
Proof.
  intros H. revert fuel. induction H as [|[k t] j kts js Ht H IH]; intros fuel Hne Hf; [done|].
  change (fields ((k, t) :: kts)) with (field k t :: fields kts) in *. pose proof (length_field k t).
  destruct H as [|[k' t'] j' kts js Ht' H].
  - cbn [commas fields fmap list_fmap] in *. destruct fuel as [|fuel]; [lia|]. by rewrite (members_field _ _ _ j) by (done || lia || delim).
  - change (fields ((k', t') :: kts)) with (field k' t' :: fields kts) in *.
    rewrite commas_cons, length_app in Hf. cbn [length] in Hf. rewrite commas_cons, <- app_assoc. cbn [app].
    destruct fuel as [|fuel]; [lia|]. rewrite (members_field _ _ _ j) by (done || lia || delim).
    cbn [skip_ws]. change (is_ws (chr 44)) with false. cbn match. rewrite decide_True by done.
    by rewrite IH by (done || lia).
Qed.

Lemma reads_braces room kts js :
  Forall2 (λ kt j, reads room kt.2 j) kts js →
  reads (S room) (braces (fields kts)) (JObj (zip_with (λ kt j, (sanitize kt.1, j)) kts js)).
Proof.
  intros H. split; [by eexists _, _|]. intros [|fuel] rest Hf Hr; [cbn in Hf; lia|].
  unfold braces in *. rewrite !length_app in Hf. cbn [length bs String.list_ascii_of_string] in Hf.
  rewrite <- !app_assoc. change (bs "{" ++ ?x) with (chr 123 :: x). change (bs "}" ++ ?x) with (chr 125 :: x).
  cbn [read_fuel skip_ws]. change (is_ws (chr 123)) with false. cbn match. rewrite decide_True by done.
  destruct H as [|[k t] j kts js Ht H]; [done|].
  assert (∃ c r, commas (fields ((k, t) :: kts)) = c :: r ∧ is_ws c = false ∧ c ≠ chr 125) as (c & r & E & Hc & Hq).
  { exists QUOTE. destruct kts; eexists; (split; [reflexivity|done]). }
  rewrite E. cbn [app skip_ws]. rewrite Hc, decide_False by done. change (c :: r ++ ?x) with ((c :: r) ++ x).
  rewrite <- E, (members_commas room ((k, t) :: kts) (j :: js)); [done|by constructor|done|lia].
Qed.

(** ** The round trip *)

Fixpoint tree (v : value) : json :=
  match v with
  | VNil => JNull
  | VStr s => JStr (sanitize s)
  | VInt n => JNum (itoa n)
  | VErr _ => JObj []
  | VStrs l => JArr (map (λ s, JStr (sanitize s)) l)
  | VStrss l => JArr (map (λ x, JArr (map (λ s, JStr (sanitize s)) x)) l)
  | VArr l => JArr (map tree l)
  end.

(** How deep arrays and objects are nested. *)
Fixpoint depth (v : value) : nat :=
  match v with
  | VNil | VStr _ | VInt _ => 0
  | VErr _ | VStrs _ => 1
  | VStrss _ => 2
  | VArr l => S (foldr (λ x n, Nat.max (depth x) n) 0%nat l)
  end.

Lemma reads_strings room l : reads (S room) (brackets (map appendString l)) (JArr (map (λ s, JStr (sanitize s)) l)).
Proof.
  apply reads_brackets. induction l as [|s l IH]; constructor; [apply reads_string|exact IH].
Qed.

Lemma reads_marshal v room : (depth v <= room)%nat → reads room (marshal v) (tree v).
Proof.
  revert room. induction v as [|s|n|m|l|l|l IH] using value_nested_ind; intros room Hd; cbn [marshal tree].
  - apply reads_null.
  - apply reads_string.
  - apply reads_int.
  - destruct room as [|room]; [cbn in Hd; lia|]. by apply (reads_braces room [] []).
  - destruct room as [|room]; [cbn in Hd; lia|]. apply reads_strings.
  - destruct room as [|[|room]]; [cbn in Hd; lia..|]. apply reads_brackets.
    induction l as [|x l IH]; constructor; [apply reads_strings|apply IH, Hd].
  - destruct room as [|room]; [cbn in Hd; lia|]. apply reads_brackets. cbn [depth] in Hd.
    induction IH as [|x l Hx _ IHl]; cbn [map foldr] in *; constructor; [apply Hx; lia|apply IHl; lia].
Qed.

Lemma readValue_reads room t j rest :
  reads room t j → stops rest → readValue room (t ++ rest) = Some (j, rest).
Proof. intros [_ H] Hr. apply H; [rewrite length_app; lia|done]. Qed.

(** ** Maps are written by their keys in order *)

#[export] Instance key_le_total : Total key_le.
Proof.
  intros x y. unfold key_le. rewrite (bytes_cmp_antisym x.1 y.1).
  destruct (bytes_cmp x.1 y.1); cbn; auto.
Qed.

#[export] Instance key_le_trans : Transitive key_le.
Proof.
  intros x y z. unfold key_le. intros H1 H2 H3.
  destruct (bytes_cmp x.1 y.1) eqn:E1; [apply bytes_cmp_eq in E1; congruence| |done].
  destruct (bytes_cmp y.1 z.1) eqn:E2; [apply bytes_cmp_eq in E2; congruence| |done].
  by rewrite (bytes_cmp_trans _ _ _ E1 E2) in H3.
Qed.

(** The entries of a map given in the order of their keys. *)
Lemma sorted_entries (l : list (bytes * bytes)) :
  NoDup l.*1 → StronglySorted key_le l → merge_sort key_le (map_to_list (list_to_map l : gmap _ _)) = l.
Proof.
  intros Hn Hs. apply (StronglySorted_unique_strong key_le).
  - intros [k1 v1] [k2 v2]. rewrite merge_sort_Permutation, map_to_list_to_map by done.
    intros H1 H2 L1 L2. assert (k1 = k2) as <-.
    { unfold key_le in L1, L2. cbn [fst] in L1, L2. rewrite (bytes_cmp_antisym k1 k2) in L2.
      destruct (bytes_cmp k1 k2) eqn:E; [by apply bytes_cmp_eq| |done]. by cbn in L2. }
    pose proof (elem_of_list_to_map_1 (M := gmap bytes) l k1 v1 Hn H1) as E1.
    pose proof (elem_of_list_to_map_1 (M := gmap bytes) l k1 v2 Hn H2) as E2. congruence.
  - apply StronglySorted_merge_sort; apply _.
  - done.
  - by rewrite merge_sort_Permutation, map_to_list_to_map.
Qed.

Lemma reads_marshal_map room (l : list (bytes * bytes)) :
  NoDup l.*1 → StronglySorted key_le l →
  reads (S room) (marshal_map (list_to_map l)) (JObj ((λ kv, (sanitize kv.1, JStr (sanitize kv.2))) <$> l)).
Proof.
  intros Hn Hs. unfold marshal_map. rewrite sorted_entries by done.
  set (kts := (λ kv : bytes * bytes, (kv.1, appendString kv.2)) <$> l).
  assert (map (λ kv, field kv.1 (appendString kv.2)) l = fields kts) as ->.
  { unfold fields, kts. by rewrite <- list_fmap_compose. }
  assert ((λ kv, (sanitize kv.1, JStr (sanitize kv.2))) <$> l =
          zip_with (λ kt j, (sanitize kt.1, j)) kts ((λ kv, JStr (sanitize kv.2)) <$> l)) as ->.
  { unfold kts. clear. induction l as [|[k v] l IH]; [done|]. cbn. by f_equal. }
  apply reads_braces. unfold kts. clear. induction l as [|[k v] l IH]; constructor; [apply reads_string|done].
Qed.

(** ** The reader always has enough fuel *)

Abbreviation shorter r s := (length (A := ascii) r < length (A := ascii) s)%nat.

Lemma skip_ws_length s : (length (skip_ws s) <= length s)%nat.
Proof. induction s as [|c s IH]; cbn; [done|]. case_match; cbn; lia. Qed.

Lemma getu4_shorter s x r : getu4 s = Some (x, r) → shorter r s.
Proof.
  destruct s as [|a [|b [|c [|d s]]]]; cbn; try done.
  destruct (unhex a), (unhex b), (unhex c), (unhex d); cbn; try done. intros [= <- <-]. lia.
Qed.

Lemma unescape_u_shorter s t r : unescape_u s = Some (t, r) → shorter r s.
Proof.
  unfold unescape_u. destruct (getu4 s) as [[x q]|] eqn:E; cbn; [|done].
  apply getu4_shorter in E. case_match; [|by intros [= <- <-]].
  destruct q as [|c [|u q]]; cbn; [by intros [= <- <-]..|].
  case_decide; [|by intros [= <- <-]].
  destruct (getu4 q) as [[y p]|] eqn:E'; [|by intros [= <- <-]].
  apply getu4_shorter in E'. cbn in E. case_match; intros [= <- <-]; cbn; lia.
Qed.

Lemma unescape_shorter s t r : unescape s = Some (t, r) → shorter r s.
Proof.
  destruct s as [|c s]; cbn; [done|]. repeat case_match; try done; try (intros [= <- <-]; lia).
  intros Hu%unescape_u_shorter. lia.
Qed.

Lemma unquote_shorter f s x r : unquote_fuel f s = Some (x, r) → shorter r s.
Proof.
  revert s x r. induction f as [|f IH]; intros [|c s] x r; cbn [unquote_fuel]; try done.
  case_decide; [intros [= <- <-]; cbn; lia|]. case_decide.
  - destruct (unescape s) as [[t q]|] eqn:E; [|done]. apply unescape_shorter in E. cbn.
    destruct (unquote_fuel f q) as [[y p]|] eqn:E'; [|done]. intros [= <- <-].
    apply IH in E'. lia.
  - case_match; [done|]. pose proof (DecodeRune_width c s).
    destruct (DecodeRune (c :: s)) as [rr w]. cbn [snd] in *.
    destruct (unquote_fuel f (drop w (c :: s))) as [[y p]|] eqn:E'; [|done]. intros [= <- <-].
    apply IH in E'. rewrite length_drop in E'. lia.
Qed.

Lemma span_digits_length s ds r : span_digits s = (ds, r) → length s = (length ds + length r)%nat.
Proof.
  revert ds r. induction s as [|c s IH]; intros ds r; cbn; [by intros [= <- <-]|].
  destruct (is_digit c); [|by intros [= <- <-]]. destruct (span_digits s) as [ds' r'].
  intros [= <- <-]. cbn. by rewrite (IH ds' r').
Qed.

Lemma digits1_shorter s ds r : digits1 s = Some (ds, r) → shorter r s.
Proof.
  unfold digits1. destruct (span_digits s) as [d q] eqn:E. apply span_digits_length in E.
  case_decide; [done|]. intros [= <- <-]. destruct d; [done|]. cbn in E. lia.
Qed.

Lemma number_shorter s n r : number s = Some (n, r) → shorter r s.
Proof.
  unfold number. set (p := match s with [] => _ | _ => _ end).
  assert (Hp : (length p.2 <= length s)%nat) by (unfold p; destruct s; [done|]; case_decide; cbn; lia).
  destruct p as [sg q]. cbn [snd] in Hp.
  destruct (int_part q) as [[i q1]|] eqn:Ei; [|done]. cbn.
  assert (H1 : shorter q1 q).
  { destruct q as [|c q]; [done|]. cbn in Ei. case_decide; [injection Ei as <- <-; cbn; lia|].
    by eapply digits1_shorter. }
  destruct (frac_part q1) as [[f q2]|] eqn:Ef; [|done]. cbn.
  assert (H2 : (length q2 <= length q1)%nat).
  { destruct q1 as [|c q1]; cbn in Ef; [by injection Ef as <- <-|]. case_decide; [|by injection Ef as <- <-].
    destruct (digits1 q1) as [[ds q3]|] eqn:Ed; [|done]. apply digits1_shorter in Ed.
    injection Ef as <- <-. cbn. lia. }
  destruct (exp_part q2) as [[e q3]|] eqn:Ee; [|done]. cbn. intros [= <- <-].
  enough (length q3 <= length q2)%nat by lia.
  destruct q2 as [|c q2]; cbn in Ee; [by injection Ee as <- <-|]. case_decide; [|by injection Ee as <- <-].
  set (p := match q2 with [] => _ | _ => _ end) in Ee.
  assert (Hq : (length p.2 <= length q2)%nat) by (unfold p; destruct q2; [done|]; case_decide; cbn; lia).
  destruct p as [sg' q4]. destruct (digits1 q4) as [[ds q5]|] eqn:Ed; [|done].
  apply digits1_shorter in Ed. cbn in Ee, Hq. injection Ee as <- <-. cbn. lia.
Qed.

Lemma word_shorter w v s x r : w ≠ [] → word w v s = Some (x, r) → shorter r s.
Proof.
  intros Hw. unfold word. case_decide as E; [|done]. intros [= <- <-].
  apply (f_equal length) in E. rewrite length_take in E. rewrite length_drop.
  destruct w; [done|]. cbn [length] in *. lia.
Qed.

(** The bytes behind the spaces of [s]. *)
Lemma skip_shorter s c r : skip_ws s = c :: r → shorter r s.
Proof. intros E. pose proof (skip_ws_length s) as H. rewrite E in H. cbn in H. lia. Qed.

(** Step into a failing or succeeding sub-reader. *)
Ltac sub_reader :=
  match goal with
  | H : ?m ≫= _ = Some _ |- _ => destruct m as [[? ?]|] eqn:?; cbn [mbind option_bind] in H; [|done]
  | H : match skip_ws ?s with _ => _ end = Some _ |- _ =>
      destruct (skip_ws s) as [|? ?] eqn:?; [done|]
  | H : (if decide ?P then _ else _) = Some _ |- _ => destruct (decide P)
  | H : Some _ = Some _ |- _ => injection H as ? ?; subst
  | H : skip_ws _ = _ :: _ |- _ => apply skip_shorter in H
  | H : unquote _ = Some _ |- _ => apply unquote_shorter in H
  | H : number _ = Some _ |- _ => apply number_shorter in H
  | H : word _ _ _ = Some _ |- _ => apply word_shorter in H; [|done]
  end.

Lemma read_shorter f :
  (∀ room s v r, read_fuel f room s = Some (v, r) → shorter r s) ∧
  (∀ room s l r, members f room s = Some (l, r) → shorter r s) ∧
  (∀ room s l r, elements f room s = Some (l, r) → shorter r s).
Proof.
  induction f as [|f (IHv & IHm & IHe)]; [done|]. split_and!; intros room s x q H; cbn in H.
  - destruct (skip_ws s) as [|c r] eqn:E; [done|]. apply skip_shorter in E.
    repeat case_decide; try destruct room as [|room]; try done; repeat sub_reader; cbn [length] in *;
      repeat match goal with
      | H : members _ _ _ = Some _ |- _ => apply IHm in H
      | H : elements _ _ _ = Some _ |- _ => apply IHe in H
      end; try lia.
  - repeat sub_reader; try done;
      repeat match goal with
      | H : read_fuel _ _ _ = Some _ |- _ => apply IHv in H
      | H : members _ _ _ = Some _ |- _ => apply IHm in H
      end; lia.
  - repeat sub_reader; try done;
      repeat match goal with
      | H : read_fuel _ _ _ = Some _ |- _ => apply IHv in H
      | H : elements _ _ _ = Some _ |- _ => apply IHe in H
      end; lia.
Qed.

Lemma read_enough n s :
  (length s <= n)%nat →
  (∀ f f' room, (2 * length s <= f)%nat → (2 * length s <= f')%nat →
     read_fuel f room s = read_fuel f' room s ∧ members f room s = members f' room s) ∧
  (∀ f f' room, (2 * length s < f)%nat → (2 * length s < f')%nat →
     elements f room s = elements f' room s).
Proof.
  revert s. induction n as [|n IH]; intros s Hn.
  { destruct s; [|cbn in Hn; lia]. split; [by intros [|f] [|f'] room|].
    intros [|[|f]] [|[|f']] room; cbn; lia || done. }
  assert (Hv : ∀ f f' room, (2 * length s <= f)%nat → (2 * length s <= f')%nat →
                 read_fuel f room s = read_fuel f' room s).
  { destruct s as [|c0 s0]; [by intros [|f] [|f'] room|].
    intros [|f] [|f'] room Hf Hf'; [cbn in *; lia..|]. cbn [read_fuel].
    destruct (skip_ws (c0 :: s0)) as [|c r] eqn:E; [done|]. apply skip_shorter in E.
    destruct (IH r ltac:(lia)) as [Hm He].
    case_decide; [destruct room as [|room]; [done|]|case_decide; [destruct room as [|room]; [done|]|done]].
    - by rewrite (proj2 (Hm f f' room ltac:(lia) ltac:(lia))).
    - by rewrite (He f f' room ltac:(lia) ltac:(lia)). }
  split; [intros f f' room Hf Hf'; split; [by apply Hv|]|].
  - destruct s as [|c0 s0]; [by destruct f, f'|]. destruct f as [|f], f' as [|f']; [cbn in *; lia..|].
    cbn [members]. destruct (skip_ws (c0 :: s0)) as [|c r] eqn:E; [done|]. apply skip_shorter in E.
    case_decide; [|done]. destruct (unquote r) as [[k r1]|] eqn:E1; [|done]. apply unquote_shorter in E1. cbn.
    destruct (skip_ws r1) as [|d r2] eqn:E2; [done|]. apply skip_shorter in E2. case_decide; [|done].
    rewrite (proj1 (proj1 (IH r2 ltac:(lia)) f f' room ltac:(lia) ltac:(lia))).
    destruct (read_fuel f' room r2) as [[v r3]|] eqn:E3; [|done]. apply read_shorter in E3. cbn.
    destruct (skip_ws r3) as [|e r4] eqn:E4; [done|]. apply skip_shorter in E4. case_decide; [|done].
    by rewrite (proj2 (proj1 (IH r4 ltac:(lia)) f f' room ltac:(lia) ltac:(lia))).
  - intros [|f] [|f'] room Hf Hf'; [lia..|]. cbn [elements]. rewrite (Hv f f' room) by lia.
    destruct (read_fuel f' room s) as [[v r1]|] eqn:E1; [|done]. apply read_shorter in E1. cbn.
    destruct (skip_ws r1) as [|e r2] eqn:E2; [done|]. apply skip_shorter in E2. case_decide; [|done].
    by rewrite (proj2 (IH r2 ltac:(lia)) f f' room ltac:(lia) ltac:(lia)).
Qed.

(** More fuel than [readValue] gives changes nothing. *)
Lemma readValue_fuel room s f : (2 * length s <= f)%nat → read_fuel f room s = readValue room s.
Proof. intros Hf. by apply (read_enough (length s) s). Qed.

(** ** What is read is UTF-8 *)

Lemma unescape_well_formed s t r : unescape s = Some (t, r) → well_formed t.
Proof.
  destruct s as [|c s]; cbn; [done|].
  destruct (bool_decide (code c ∈ [34; 92; 47])) eqn:E.
  { apply bool_decide_eq_true in E. set_unfold. intros [= <- <-]. apply well_formed_ascii. lia. }
  repeat (case_match; [by intros [= <- <-]; apply well_formed_ascii|]).
  case_match; [|done]. unfold unescape_u. destruct (getu4 s) as [[x q]|]; cbn [mbind option_bind]; [|done].
  case_match; [|intros [= <- <-]; apply well_formed_rune].
  destruct q as [|a [|b q]]; [by intros [= <- <-]; apply (well_formed_rune RuneError)..|].
  destruct (decide _); [destruct (getu4 q) as [[y p]|]; [case_match|]|];
    intros [= <- <-]; apply well_formed_rune || apply (well_formed_rune RuneError).
Qed.

Lemma unquote_well_formed f s x r : unquote_fuel f s = Some (x, r) → well_formed x.
Proof.
  revert s x r. induction f as [|f IH]; intros [|c s] x r; cbn [unquote_fuel]; try done.
  case_decide; [intros [= <- <-]; apply well_formed_nil|]. case_decide.
  - destruct (unescape s) as [[t q]|] eqn:E; [|done]. cbn.
    destruct (unquote_fuel f q) as [[y p]|] eqn:E'; [|done]. intros [= <- <-].
    eauto using well_formed_app, unescape_well_formed.
  - case_match; [done|]. destruct (DecodeRune (c :: s)) as [rr w].
    destruct (unquote_fuel f (drop w (c :: s))) as [[y p]|] eqn:E'; [|done]. intros [= <- <-].
    eauto using well_formed_app, well_formed_rune.
Qed.

(** Every string of a tree, keys included. *)
Inductive all_strings (P : bytes → Prop) : json → Prop :=
  | all_null : all_strings P JNull
  | all_bool b : all_strings P (JBool b)
  | all_num n : all_strings P (JNum n)
  | all_str s : P s → all_strings P (JStr s)
  | all_arr l : Forall (all_strings P) l → all_strings P (JArr l)
  | all_obj l : Forall (λ kv, P kv.1 ∧ all_strings P kv.2) l → all_strings P (JObj l).

Lemma word_literal w v s x r : word w v s = Some (x, r) → x = v.
Proof. unfold word. case_decide; by intros [= <- _]. Qed.

(** Keep what is known of a string that was read. *)
Ltac sub_string :=
  match goal with
  | H : unquote ?s = Some (?x, _) |- _ =>
      lazymatch goal with
      | _ : well_formed x |- _ => fail
      | |- _ => pose proof (unquote_well_formed _ _ _ _ H)
      end
  end.

Lemma read_well_formed f :
  (∀ room s v r, read_fuel f room s = Some (v, r) → all_strings well_formed v) ∧
  (∀ room s l r, members f room s = Some (l, r) →
     Forall (λ kv, well_formed kv.1 ∧ all_strings well_formed kv.2) l) ∧
  (∀ room s l r, elements f room s = Some (l, r) → Forall (all_strings well_formed) l).
Proof.
  induction f as [|f (IHv & IHm & IHe)]; [done|]. split_and!; intros room s x q H; cbn in H.
  - destruct (skip_ws s) as [|c r] eqn:E; [done|].
    repeat case_decide; try destruct room as [|room]; try done;
      try (apply word_literal in H as ->; by constructor);
      repeat (sub_string || sub_reader); by constructor; eauto.
  - repeat (sub_string || sub_reader); try done; repeat constructor; cbn; eauto.
  - repeat (sub_string || sub_reader); try done; repeat constructor; cbn; eauto.
Qed.

Lemma readValue_well_formed room s v r : readValue room s = Some (v, r) → all_strings well_formed v.
Proof. apply read_well_formed. Qed.

(** ** Nothing written can be taken for markup *)

(** Not a control byte and none of [<], [>], [&]. *)
Definition inert (c : ascii) : Prop := 32 <= code c ∧ code c ≠ 60 ∧ code c ≠ 62 ∧ code c ≠ 38.

Definition inertb (c : ascii) : bool := (32 <=? code c) && negb (bool_decide (code c ∈ [60; 62; 38])).

Lemma forallb_inert l : forallb inertb l = true → Forall inert l.
Proof.
  rewrite forallb_forall. intros H. apply Forall_forall. intros c Hc%list_elem_of_In%H.
  unfold inertb in Hc. rewrite andb_true_iff, negb_true_iff, Z.leb_le, bool_decide_eq_false in Hc.
  unfold inert. set_unfold. lia.
Qed.

Lemma escape_inert s r w : rune_form s r w → Forall inert (escape_rune (r, take w s)).
Proof.
  intros Hf. assert (Hh : ∀ c c' b, take w s = c :: c' :: b → Forall inert (c :: c' :: b)).
  { intros c c' b E. rewrite <- E. unfold inert.
    destruct Hf as [| |c0 c1 q H R1|c0 c1 c2 q H R1 R2|c0 c1 c2 c3 q H R1 R2 R3]; cbn in E; try done;
      unfold in_range in *; rewrite ?andb_true_iff, ?Z.leb_le in *; cbn; repeat constructor; lia. }
  assert (Hne : take w s ≠ []) by (by destruct Hf).
  unfold escape_rune. cbn [fst snd]. destruct (take w s) as [|c [|c' b]]; [done| |].
  - apply forallb_inert. clear. by destruct c as [[] [] [] [] [] [] [] []].
  - case_match eqn:E; [|by apply Hh].
    by apply orb_true_iff in E as [->%Z.eqb_eq| ->%Z.eqb_eq]; apply forallb_inert.
Qed.

Lemma appendString_inert s : Forall inert (appendString s).
Proof.
  unfold appendString. assert (Hq : Forall inert [QUOTE]) by (by apply forallb_inert).
  apply Forall_cons_2; [by inversion Hq|]. apply Forall_app_2; [|done].
  apply Forall_concat, Forall_fmap, Forall_forall. intros [r b] (q & w & Hf & E)%runes_form.
  cbn in *. subst b. by eapply escape_inert.
Qed.

Lemma commas_inert l : Forall (Forall inert) l → Forall inert (commas l).
Proof.
  induction 1 as [|x l Hx Hl IH]; [constructor|]. destruct l as [|y l]; [done|]. rewrite commas_cons.
  apply Forall_app_2; [done|]. apply (Forall_app_2 _ [_]); [by apply forallb_inert|done].
Qed.

Lemma brackets_inert l : Forall (Forall inert) l → Forall inert (brackets l).
Proof.
  intros H. unfold brackets. repeat apply Forall_app_2; [by apply forallb_inert| |by apply forallb_inert].
  by apply commas_inert.
Qed.

Lemma braces_inert l : Forall (Forall inert) l → Forall inert (braces l).
Proof.
  intros H. unfold braces. repeat apply Forall_app_2; [by apply forallb_inert| |by apply forallb_inert].
  by apply commas_inert.
Qed.

Lemma field_inert k x : Forall inert x → Forall inert (field k x).
Proof.
  intros H. unfold field. repeat apply Forall_app_2; [apply appendString_inert|by apply forallb_inert|done].
Qed.

Lemma itoa_inert n : Forall inert (itoa n).
Proof.
  assert (Hu : ∀ m, 0 <= m → Forall inert (utoa m)).
  { intros m Hm. eapply Forall_impl; [exact (utoa_digits m Hm)|]. cbn. unfold is_digit, inert.
    intros c. rewrite andb_true_iff, !Z.leb_le. lia. }
  unfold itoa. destruct (Z.ltb_spec n 0); [|by apply Hu]. apply (Forall_app_2 _ [_]); [by apply forallb_inert|]. apply Hu. lia.
Qed.

Lemma strings_inert l : Forall (Forall inert) (map appendString l).
Proof. apply Forall_fmap, Forall_true. apply appendString_inert. Qed.

Lemma marshal_inert v : Forall inert (marshal v).
Proof.
  induction v as [|s|n|m|l|l|l IH] using value_nested_ind; cbn [marshal].
  - by apply forallb_inert.
  - apply appendString_inert.
  - apply itoa_inert.
  - by apply forallb_inert.
  - apply brackets_inert, strings_inert.
  - apply brackets_inert, Forall_fmap, Forall_true. intros x. apply brackets_inert, strings_inert.
  - by apply brackets_inert, Forall_fmap.
Qed.

End Json.
