(* ===== verification/BTree.v ===== *)
(** * The B+ tree index (src/internal/data_structure/sorted_set/btree_index.go)

    Nodes and items are heap objects: the code follows [Parent] and [Next]
    pointers, compares node pointers, and shares one [*Item] between a leaf and
    the separators above it, whose score an update in place changes for both.
    The state therefore is a store of nodes and items with the root pointer;
    a [nil] pointer that is followed and every out-of-range index or slice is a
    panic.  Slices of pointers are lists: no two live slices of the code share
    a backing array.  Loops over pointers take fuel; [fuel_of] gives one unit
    per node of the store. *)

From Stdlib Require Import ZArith Lia Ascii.
From Stdlib Require Import SpecFloat.
From stdpp Require Import base gmap list strings numbers.
From S2P Require Import Prelude GoFloat Item.

Module BTree.
Import F64 Item.

(** ** State *)

Abbreviation loc := positive.

Record BTreeNode := mkNode {
  Items : list loc;
  Children : list loc;
  IsLeaf : bool;
  Parent : option loc;
  Next : option loc
}.

Record BTreeIndex := mkTree {
  Root : loc;
  Degree : Z;
  nodes : gmap loc BTreeNode;
  items : gmap loc Item;
  next_loc : loc
}.

Abbreviation M := (ST BTreeIndex).

Definition NewBTreeIndex (degree : Z) : BTreeIndex :=
  mkTree 1 degree {[ 1%positive := mkNode [] [] true None None ]} ∅ 2.

(** ** Store access *)

Definition with_nodes (t : BTreeIndex) (ns : gmap loc BTreeNode) : BTreeIndex :=
  mkTree (Root t) (Degree t) ns (items t) (next_loc t).
Definition with_items (t : BTreeIndex) (its : gmap loc Item) : BTreeIndex :=
  mkTree (Root t) (Degree t) (nodes t) its (next_loc t).
Definition with_root (t : BTreeIndex) (r : loc) : BTreeIndex :=
  mkTree r (Degree t) (nodes t) (items t) (next_loc t).

Definition of_option {A} (o : option A) (p : panic) : outcome A :=
  match o with Some a => Ret a | None => Panic p end.

Definition get_node (l : loc) : M BTreeNode :=
  λ t, n ← of_option (nodes t !! l) NilDereference; Ret (n, t).
Definition get_item (l : loc) : M Item :=
  λ t, i ← of_option (items t !! l) NilDereference; Ret (i, t).
Definition set_node (l : loc) (n : BTreeNode) : M unit :=
  λ t, Ret (tt, with_nodes t (<[l := n]> (nodes t))).
Definition set_item (l : loc) (i : Item) : M unit :=
  λ t, Ret (tt, with_items t (<[l := i]> (items t))).
Definition alloc_node (n : BTreeNode) : M loc :=
  λ t, Ret (next_loc t, mkTree (Root t) (Degree t) (<[next_loc t := n]> (nodes t))
                               (items t) (Pos.succ (next_loc t))).
Definition alloc_item (i : Item) : M loc :=
  λ t, Ret (next_loc t, mkTree (Root t) (Degree t) (nodes t)
                               (<[next_loc t := i]> (items t)) (Pos.succ (next_loc t))).
Definition get_root : M loc := λ t, Ret (Root t, t).
Definition set_root (r : loc) : M unit := λ t, Ret (tt, with_root t r).
Definition get_degree : M Z := λ t, Ret (Degree t, t).
Definition fuel_of : M nat := λ t, Ret (S (size (nodes t)), t).

(** Following a pointer field that may be nil. *)
Definition deref (o : option loc) : M loc := st_lift (of_option o NilDereference).
(** [l[i]] *)
Definition nth {A} (l : list A) (i : Z) : M A :=
  st_lift (if i <? 0 then Panic IndexOutOfRange
           else of_option (l !! Z.to_nat i) IndexOutOfRange).
(** [l[:i]] and [l[i:]] *)
Definition upto {A} (l : list A) (i : Z) : M (list A) :=
  st_lift (if (0 <=? i) && (i <=? Z.of_nat (length l))
           then Ret (take (Z.to_nat i) l) else Panic SliceOutOfRange).
Definition from {A} (l : list A) (i : Z) : M (list A) :=
  st_lift (if (0 <=? i) && (i <=? Z.of_nat (length l))
           then Ret (drop (Z.to_nat i) l) else Panic SliceOutOfRange).
(** [append(l[:i], append([]T{x}, l[i:]...)...)] *)
Definition insert_at {A} (l : list A) (i : Z) (x : A) : M (list A) :=
  r ← from l i; a ← upto l i; mret (a ++ x :: r).
(** [append(l[:i], l[j:]...)] *)
Definition cut {A} (l : list A) (i j : Z) : M (list A) :=
  a ← upto l i; r ← from l j; mret (a ++ r).
(** [l[i] = x] *)
Definition set_nth {A} (l : list A) (i : Z) (x : A) : M (list A) :=
  _ ← nth l i; mret (<[Z.to_nat i := x]> l).

Definition lenZ {A} (l : list A) : Z := Z.of_nat (length l).

Definition with_Items (n : BTreeNode) (its : list loc) : BTreeNode :=
  mkNode its (Children n) (IsLeaf n) (Parent n) (Next n).
Definition with_Children (n : BTreeNode) (cs : list loc) : BTreeNode :=
  mkNode (Items n) cs (IsLeaf n) (Parent n) (Next n).
Definition with_Parent (n : BTreeNode) (p : option loc) : BTreeNode :=
  mkNode (Items n) (Children n) (IsLeaf n) p (Next n).
Definition with_Next (n : BTreeNode) (x : option loc) : BTreeNode :=
  mkNode (Items n) (Children n) (IsLeaf n) (Parent n) x.

(** [l.f = ...] for a node pointer [l]. *)
Definition upd_node (l : loc) (f : BTreeNode → BTreeNode) : M unit :=
  n ← get_node l; set_node l (f n).

Fixpoint for_each {A} (f : A → M unit) (l : list A) : M unit :=
  match l with
  | [] => mret tt
  | x :: l => _ ← f x; for_each f l
  end.

(** ** Search *)

(** [i := 0; for i < len(node.Items) && score >= node.Items[i].Score { i++ }] *)
Fixpoint child_index (score : float64) (its : list loc) (i : Z) : M Z :=
  match its with
  | [] => mret i
  | l :: its =>
      it ← get_item l;
      if geb score (Score it) then child_index score its (i + 1) else mret i
  end.

(** [for !node.IsLeaf { ...; node = node.Children[i] }] *)
Fixpoint find_leaf (fuel : nat) (score : float64) (node : loc) : M loc :=
  match fuel with
  | O => λ _, NoFuel
  | S fuel =>
      n ← get_node node;
      if IsLeaf n then mret node
      else
        i ← child_index score (Items n) 0;
        c ← nth (Children n) i;
        find_leaf fuel score c
  end.

(** [for childIndex < len(parent.Children) { if ... == node { break } ... }] *)
Fixpoint index_of (node : loc) (cs : list loc) (i : Z) : Z :=
  match cs with
  | [] => i
  | c :: cs => if decide (c = node) then i else index_of node cs (i + 1)
  end.

(** ** Splitting; [splitNode] is the recursive call on the parent *)

Section Split.
Context (splitNode : loc → M unit).

(** The common end of both splits: insert the promoted item and the new node
    after [node] in the parent and split the parent if it overflows. *)
Definition link_split (parent node : loc) (promotedItem newNode : loc) : M unit :=
  p ← get_node parent;
  let childIndex := index_of node (Children p) 0 in
  its ← insert_at (Items p) childIndex promotedItem;
  cs ← insert_at (Children p) (childIndex + 1) newNode;
  _ ← set_node parent (with_Children (with_Items p its) cs);
  degree ← get_degree;
  if degree - 1 <? lenZ its then splitNode parent else mret tt.

Definition splitLeaf (node : loc) : M unit :=
  n ← get_node node;
  let medianIndex := lenZ (Items n) / 2 in
  right ← from (Items n) medianIndex;
  left ← upto (Items n) medianIndex;
  newLeaf ← alloc_node (mkNode right [] true (Parent n) (Next n));
  _ ← set_node node (with_Next (with_Items n left) (Some newLeaf));
  parent ← deref (Parent n);
  promotedItem ← nth right 0;
  link_split parent node promotedItem newLeaf.

Definition splitInternal (node : loc) : M unit :=
  n ← get_node node;
  let medianIndex := lenZ (Items n) / 2 in
  promotedItem ← nth (Items n) medianIndex;
  rightItems ← from (Items n) (medianIndex + 1);
  rightChildren ← from (Children n) (medianIndex + 1);
  leftItems ← upto (Items n) medianIndex;
  leftChildren ← upto (Children n) (medianIndex + 1);
  newInternal ← alloc_node (mkNode rightItems rightChildren false (Parent n) None);
  _ ← set_node node (with_Children (with_Items n leftItems) leftChildren);
  _ ← for_each (λ child, upd_node child (λ c, with_Parent c (Some newInternal))) rightChildren;
  parent ← deref (Parent n);
  link_split parent node promotedItem newInternal.

Definition splitRoot : M unit :=
  oldRoot ← get_root;
  newRoot ← alloc_node (mkNode [] [] false None None);
  _ ← set_root newRoot;
  _ ← upd_node oldRoot (λ n, with_Parent n (Some newRoot));
  _ ← upd_node newRoot (λ n, with_Children n (Children n ++ [oldRoot]));
  o ← get_node oldRoot;
  if IsLeaf o then splitLeaf oldRoot else splitInternal oldRoot.

End Split.

Fixpoint splitNode (fuel : nat) (node : loc) : M unit :=
  match fuel with
  | O => λ _, NoFuel
  | S fuel =>
      n ← get_node node;
      match Parent n with
      | None => splitRoot (splitNode fuel)
      | Some _ =>
          if IsLeaf n then splitLeaf (splitNode fuel) node
          else splitInternal (splitNode fuel) node
      end
  end.

(** ** Add *)

(** [for i, existingItem := range node.Items { if existingItem.Member == member ... }] *)
Fixpoint find_member (member : bytes) (its : list loc) : M (option loc) :=
  match its with
  | [] => mret None
  | l :: its =>
      it ← get_item l;
      if decide (Member it = member) then mret (Some l) else find_member member its
  end.

(** [for i < len(node.Items) && item.CompareTo(node.Items[i]) > 0 { i++ }] *)
Fixpoint insert_pos (item : Item) (its : list loc) (i : Z) : M Z :=
  match its with
  | [] => mret i
  | l :: its =>
      it ← get_item l;
      if 0 <? CompareTo item it then insert_pos item its (i + 1) else mret i
  end.

Definition Add (score : float64) (member : bytes) : M Z :=
  item ← alloc_item (mkItem score member);
  if decide (member = []) then mret 0
  else
    fuel ← fuel_of;
    root ← get_root;
    node ← find_leaf fuel score root;
    n ← get_node node;
    existing ← find_member member (Items n);
    match existing with
    | Some l => _ ← set_item l (mkItem score member); mret 0
    | None =>
        i ← insert_pos (mkItem score member) (Items n) 0;
        its ← insert_at (Items n) i item;
        _ ← set_node node (with_Items n its);
        degree ← get_degree;
        _ ← (if degree - 1 <? lenZ its then splitNode fuel node else mret tt);
        mret 1
    end.

(** ** Rebalancing; [handleUnderflow] is the recursive call on the parent *)

(** [findChildIndex]: -1 when the child is not there. *)
Definition findChildIndex (p : BTreeNode) (child : loc) : Z :=
  let i := index_of child (Children p) 0 in
  if i <? lenZ (Children p) then i else -1.

Definition last_index {A} (l : list A) : Z := lenZ l - 1.

Definition borrowFromLeftSibling (node leftSibling : loc) (separatorIndex : Z) : M unit :=
  n ← get_node node;
  ls ← get_node leftSibling;
  parent ← deref (Parent n);
  borrowedItem ← nth (Items ls) (last_index (Items ls));
  lsItems ← upto (Items ls) (last_index (Items ls));
  if IsLeaf n then
    _ ← set_node leftSibling (with_Items ls lsItems);
    _ ← upd_node node (λ n, with_Items n (borrowedItem :: Items n));
    p ← get_node parent;
    its ← set_nth (Items p) separatorIndex borrowedItem;
    set_node parent (with_Items p its)
  else
    p ← get_node parent;
    separatorItem ← nth (Items p) separatorIndex;
    borrowedChild ← nth (Children ls) (last_index (Children ls));
    lsChildren ← upto (Children ls) (last_index (Children ls));
    _ ← set_node leftSibling (with_Children (with_Items ls lsItems) lsChildren);
    _ ← upd_node node (λ n, with_Children (with_Items n (separatorItem :: Items n))
                                          (borrowedChild :: Children n));
    _ ← upd_node borrowedChild (λ c, with_Parent c (Some node));
    p ← get_node parent;
    its ← set_nth (Items p) separatorIndex borrowedItem;
    set_node parent (with_Items p its).

Definition borrowFromRightSibling (node rightSibling : loc) (separatorIndex : Z) : M unit :=
  n ← get_node node;
  rs ← get_node rightSibling;
  parent ← deref (Parent n);
  borrowedItem ← nth (Items rs) 0;
  rsItems ← from (Items rs) 1;
  if IsLeaf n then
    _ ← set_node rightSibling (with_Items rs rsItems);
    _ ← upd_node node (λ n, with_Items n (Items n ++ [borrowedItem]));
    match rsItems with
    | first :: _ =>
        p ← get_node parent;
        its ← set_nth (Items p) separatorIndex first;
        set_node parent (with_Items p its)
    | [] => mret tt
    end
  else
    p ← get_node parent;
    separatorItem ← nth (Items p) separatorIndex;
    borrowedChild ← nth (Children rs) 0;
    rsChildren ← from (Children rs) 1;
    _ ← set_node rightSibling (with_Children (with_Items rs rsItems) rsChildren);
    _ ← upd_node node (λ n, with_Children (with_Items n (Items n ++ [separatorItem]))
                                          (Children n ++ [borrowedChild]));
    _ ← upd_node borrowedChild (λ c, with_Parent c (Some node));
    p ← get_node parent;
    its ← set_nth (Items p) separatorIndex borrowedItem;
    set_node parent (with_Items p its).

Section Merge.
Context (handleUnderflow : loc → M unit).

(** Remove the separator and the child to its right from the parent. *)
Definition unlink (parent : loc) (separatorIndex : Z) : M unit :=
  p ← get_node parent;
  its ← cut (Items p) separatorIndex (separatorIndex + 1);
  cs ← cut (Children p) (separatorIndex + 1) (separatorIndex + 2);
  set_node parent (with_Children (with_Items p its) cs).

(** The common end of both merges. *)
Definition after_merge (parent : loc) : M unit :=
  root ← get_root;
  if decide (parent ≠ root) then handleUnderflow parent
  else
    p ← get_node parent;
    if (lenZ (Items p) =? 0) && (lenZ (Children p) =? 1) then
      r ← nth (Children p) 0;
      _ ← set_root r;
      upd_node r (λ n, with_Parent n None)
    else mret tt.

Definition mergeWithLeftSibling (node leftSibling : loc) (separatorIndex : Z) : M unit :=
  n ← get_node node;
  ls ← get_node leftSibling;
  parent ← deref (Parent n);
  _ ← (if IsLeaf n then
         _ ← set_node leftSibling (with_Next (with_Items ls (Items ls ++ Items n)) (Next n));
         unlink parent separatorIndex
       else
         p ← get_node parent;
         separatorItem ← nth (Items p) separatorIndex;
         _ ← set_node leftSibling
               (with_Children (with_Items ls (Items ls ++ [separatorItem] ++ Items n))
                              (Children ls ++ Children n));
         _ ← for_each (λ child, upd_node child (λ c, with_Parent c (Some leftSibling)))
               (Children n);
         unlink parent separatorIndex);
  after_merge parent.

Definition mergeWithRightSibling (node rightSibling : loc) (separatorIndex : Z) : M unit :=
  n ← get_node node;
  rs ← get_node rightSibling;
  parent ← deref (Parent n);
  _ ← (if IsLeaf n then
         _ ← set_node node (with_Next (with_Items n (Items n ++ Items rs)) (Next rs));
         unlink parent separatorIndex
       else
         p ← get_node parent;
         separatorItem ← nth (Items p) separatorIndex;
         _ ← set_node node
               (with_Children (with_Items n (Items n ++ [separatorItem] ++ Items rs))
                              (Children n ++ Children rs));
         _ ← for_each (λ child, upd_node child (λ c, with_Parent c (Some node)))
               (Children rs);
         unlink parent separatorIndex);
  after_merge parent.

End Merge.

(** Merge [node] with a sibling: the branch taken when neither sibling can
    lend an item. *)
Definition merge_step (handleUnderflow : loc → M unit) (node : loc) (p : BTreeNode)
    (nodeIndex : Z) : M unit :=
  if 0 <? nodeIndex then
    leftSibling ← nth (Children p) (nodeIndex - 1);
    mergeWithLeftSibling handleUnderflow node leftSibling (nodeIndex - 1)
  else if nodeIndex <? lenZ (Children p) - 1 then
    rightSibling ← nth (Children p) (nodeIndex + 1);
    mergeWithRightSibling handleUnderflow node rightSibling nodeIndex
  else mret tt.

(** Try the right sibling, then merge. *)
Definition right_or_merge (handleUnderflow : loc → M unit) (node : loc) (p : BTreeNode)
    (nodeIndex minItems : Z) : M unit :=
  if nodeIndex <? lenZ (Children p) - 1 then
    rightSibling ← nth (Children p) (nodeIndex + 1);
    rs ← get_node rightSibling;
    if minItems <? lenZ (Items rs) then borrowFromRightSibling node rightSibling nodeIndex
    else merge_step handleUnderflow node p nodeIndex
  else merge_step handleUnderflow node p nodeIndex.

Fixpoint handleUnderflow (fuel : nat) (node : loc) : M unit :=
  match fuel with
  | O => λ _, NoFuel
  | S fuel =>
      n ← get_node node;
      match Parent n with
      | None => mret tt
      | Some parent =>
          degree ← get_degree;
          let minItems := Z.quot (degree - 1) 2 in
          if minItems <=? lenZ (Items n) then mret tt
          else
            p ← get_node parent;
            let nodeIndex := findChildIndex p node in
            if 0 <? nodeIndex then
              leftSibling ← nth (Children p) (nodeIndex - 1);
              ls ← get_node leftSibling;
              if minItems <? lenZ (Items ls)
              then borrowFromLeftSibling node leftSibling (nodeIndex - 1)
              else right_or_merge (handleUnderflow fuel) node p nodeIndex minItems
            else right_or_merge (handleUnderflow fuel) node p nodeIndex minItems
      end
  end.

(** [for i, item := range node.Items { if item.Member == member && item.Score == score ...] *)
Fixpoint find_item (score : float64) (member : bytes) (its : list loc) (i : Z) : M (option Z) :=
  match its with
  | [] => mret None
  | l :: its =>
      it ← get_item l;
      if bool_decide (Member it = member) && eqb (Score it) score then mret (Some i)
      else find_item score member its (i + 1)
  end.

Definition RemoveByScore (score : float64) (member : bytes) : M Z :=
  fuel ← fuel_of;
  root ← get_root;
  node ← find_leaf fuel score root;
  n ← get_node node;
  found ← find_item score member (Items n) 0;
  match found with
  | Some i =>
      its ← cut (Items n) i (i + 1);
      _ ← set_node node (with_Items n its);
      degree ← get_degree;
      _ ← (if (lenZ its <? Z.quot (degree - 1) 2) && bool_decide (Parent n ≠ None)
           then handleUnderflow fuel node else mret tt);
      mret 1
  | None => mret 0
  end.

(** ** Queries along the leaf chain *)

(** [for !node.IsLeaf { node = node.Children[0] }] *)
Fixpoint first_leaf (fuel : nat) (node : loc) : M loc :=
  match fuel with
  | O => λ _, NoFuel
  | S fuel =>
      n ← get_node node;
      if IsLeaf n then mret node else c ← nth (Children n) 0; first_leaf fuel c
  end.

(** [for node != nil { for _, item := range node.Items {...}; node = node.Next }]:
    [step] is the body of the inner loop on the accumulator, [inr] of a result
    when it returns. *)
Section Scan.
Context {T R : Type} (step : T → Item → T + R).

Fixpoint scan_items (its : list loc) (s : T) : M (T + R) :=
  match its with
  | [] => mret (inl s)
  | l :: its =>
      it ← get_item l;
      match step s it with inl s => scan_items its s | inr r => mret (inr r) end
  end.

Fixpoint scan_leaves (fuel : nat) (node : option loc) (s : T) : M (T + R) :=
  match fuel with
  | O => λ _, NoFuel
  | S fuel =>
      match node with
      | None => mret (inl s)
      | Some l =>
          n ← get_node l;
          r ← scan_items (Items n) s;
          match r with
          | inr r => mret (inr r)
          | inl s => scan_leaves fuel (Next n) s
          end
      end
  end.

Definition scan_all (s : T) : M (T + R) :=
  fuel ← fuel_of;
  root ← get_root;
  node ← first_leaf fuel root;
  scan_leaves fuel (Some node) s.

End Scan.

Definition GetRank (member : bytes) : M Z :=
  r ← scan_all (λ rank it,
        if decide (Member it = member) then inr rank else inl (rank + 1)) 0;
  mret (match r with inr rank => rank | inl _ => -1 end).

Definition GetByRank (rank : Z) : M (option Item) :=
  if rank <? 0 then mret None
  else
    r ← scan_all (λ currentRank it,
          if currentRank =? rank then inr it else inl (currentRank + 1)) 0;
    mret (match r with inr it => Some it | inl _ => None end).

Definition GetRange (min max : float64) : M (list Item) :=
  r ← scan_all (λ result it,
        let result := if geb (Score it) min && leb (Score it) max
                      then result ++ [it] else result in
        if gtb (Score it) max then inr result else inl result) [];
  mret (match r with inr l => l | inl l => l end).

Definition GetRangeByRank (start end_ : Z) : M (list Item) :=
  if (start <? 0) || (end_ <? start) then mret []
  else
    r ← scan_all (λ '(result, currentRank) it,
          let result := if (start <=? currentRank) && (currentRank <=? end_)
                        then result ++ [it] else result in
          if end_ <? currentRank then inr result else inl (result, currentRank + 1)) ([], 0);
    mret (match r with inr l => l | inl (l, _) => l end).

(** [for node != nil { count += len(node.Items); node = node.Next }] *)
Fixpoint count_leaves (fuel : nat) (node : option loc) (count : Z) : M Z :=
  match fuel with
  | O => λ _, NoFuel
  | S fuel =>
      match node with
      | None => mret count
      | Some l => n ← get_node l; count_leaves fuel (Next n) (count + lenZ (Items n))
      end
  end.

Definition Count : M Z :=
  fuel ← fuel_of;
  root ← get_root;
  node ← first_leaf fuel root;
  count_leaves fuel (Some node) 0.

Definition Clear : M unit :=
  r ← alloc_node (mkNode [] [] true None None);
  set_root r.

End BTree.
