(* ===== verification/BTreeQuery.v ===== *)
(** * Read-only operations of the B+ tree index

    A tree *represents* a list of items when the leftmost path from the root
    ends in a leaf from which the [Next] chain, free of cycles, enumerates the
    list.  Under this shape the queries of btree_index.go return, within the
    fuel they take, what the corresponding list function returns. *)

From Stdlib Require Import ZArith Lia Ascii.
From Stdlib Require Import SpecFloat.
From stdpp Require Import base gmap list strings numbers sorting fin_maps sets.
From S2P Require Import Prelude GoFloat Item BTree.

Module BTreeQuery.
Import F64 Item BTree.

(** ** Shape *)

(** The leftmost path [p] from [node] down to the leaf [first]. *)
Inductive spine (t : BTreeIndex) : loc → loc → list loc → Prop :=
  | spine_leaf l n :
      nodes t !! l = Some n → IsLeaf n = true → spine t l l [l]
  | spine_node l n c first p :
      nodes t !! l = Some n → IsLeaf n = false → Children n !! 0%nat = Some c →
      spine t c first p → spine t l first (l :: p).

(** The leaves [ls] reached from a pointer and the items they hold. *)
Inductive chain (t : BTreeIndex) : option loc → list loc → list Item → Prop :=
  | chain_nil : chain t None [] []
  | chain_cons l n its ls rest :
      nodes t !! l = Some n →
      Forall2 (λ l it, items t !! l = Some it) (Items n) its →
      chain t (Next n) ls rest →
      chain t (Some l) (l :: ls) (its ++ rest).

Definition represents (t : BTreeIndex) (its : list Item) : Prop :=
  ∃ first p ls, spine t (Root t) first p ∧ NoDup p ∧
                chain t (Some first) ls its ∧ NoDup ls.

(** ** The list functions the queries implement *)

Definition in_range (min max : float64) (it : Item) : bool :=
  geb (Score it) min && leb (Score it) max.

(** [for _, item := range ...] over one list. *)
Fixpoint scan_list {T R} (step : T → Item → T + R) (its : list Item) (s : T) : T + R :=
  match its with
  | [] => inl s
  | it :: its => match step s it with inl s => scan_list step its s | inr r => inr r end
  end.

Definition sorted_by_score (its : list Item) : Prop :=
  StronglySorted (λ a b, leb (Score a) (Score b) = true) its.

(** ** Fuel *)

Lemma NoDup_size (t : BTreeIndex) (p : list loc) :
  NoDup p → (∀ l, l ∈ p → is_Some (nodes t !! l)) → (length p <= size (nodes t))%nat.
Proof.
  intros Hp Hin. rewrite <- (size_dom (D := gset loc)), <- (size_list_to_set (C := gset loc) p Hp).
  apply subseteq_size. intros l Hl. apply elem_of_list_to_set, Hin in Hl. by apply elem_of_dom.
Qed.

Lemma spine_nodes t l first p : spine t l first p → ∀ x, x ∈ p → is_Some (nodes t !! x).
Proof.
  induction 1; intros x Hx; apply elem_of_cons in Hx as [->|Hx]; eauto.
  by apply not_elem_of_nil in Hx.
Qed.

Lemma chain_nodes t o ls its : chain t o ls its → ∀ x, x ∈ ls → is_Some (nodes t !! x).
Proof.
  induction 1; intros x Hx; [by apply not_elem_of_nil in Hx|].
  apply elem_of_cons in Hx as [->|Hx]; eauto.
Qed.

(** ** Steps of the store monad *)

Lemma bind_step {A B} (m : ST BTreeIndex A) (f : A → ST BTreeIndex B) t a t' :
  m t = Ret (a, t') → (m ≫= f) t = f a t'.
Proof. intros H. unfold mbind, ST_bind. by rewrite H. Qed.

Lemma get_node_step {B} l n (f : BTreeNode → ST BTreeIndex B) t :
  nodes t !! l = Some n → (get_node l ≫= f) t = f n t.
Proof. intros H. apply bind_step. unfold get_node. by rewrite H. Qed.

Lemma get_item_step {B} l it (f : Item → ST BTreeIndex B) t :
  items t !! l = Some it → (get_item l ≫= f) t = f it t.
Proof. intros H. apply bind_step. unfold get_item. by rewrite H. Qed.

Lemma nth_step {A B} (l : list A) i a (f : A → ST BTreeIndex B) t :
  0 <= i → l !! Z.to_nat i = Some a → (nth l i ≫= f) t = f a t.
Proof.
  intros Hi H. apply bind_step. unfold nth, st_lift.
  rewrite (proj2 (Z.ltb_ge i 0)) by lia. by rewrite H.
Qed.

(** ** Loops *)

Lemma first_leaf_spine t l first p fuel :
  spine t l first p → (length p <= fuel)%nat → first_leaf fuel l t = Ret (first, t).
Proof.
  intros H. revert fuel. induction H as [l n Hl Hn|l n c first p Hl Hn Hc H IH];
    intros [|fuel] Hf; cbn in Hf; try lia;
    cbn [first_leaf]; rewrite (get_node_step _ _ _ _ Hl), Hn; [done|].
  rewrite (nth_step _ 0 c); [|lia|done]. apply IH. lia.
Qed.

Lemma scan_items_list {T R} (step : T → Item → T + R) t ls its s :
  Forall2 (λ l it, items t !! l = Some it) ls its →
  scan_items step ls s t = Ret (scan_list step its s, t).
Proof.
  intros H. revert s. induction H as [|l it ls its Hl H IH]; intros s; [done|].
  cbn [scan_items scan_list]. rewrite (get_item_step _ _ _ _ Hl). by destruct (step s it).
Qed.

Lemma scan_list_app {T R} (step : T → Item → T + R) a b s :
  scan_list step (a ++ b) s =
  match scan_list step a s with inl s => scan_list step b s | inr r => inr r end.
Proof. revert s. induction a as [|it a IH]; intros s; cbn; [done|]. by destruct (step s it). Qed.

Lemma scan_leaves_chain {T R} (step : T → Item → T + R) t o ls its fuel s :
  chain t o ls its → (length ls < fuel)%nat →
  scan_leaves step fuel o s t = Ret (scan_list step its s, t).
Proof.
  intros H. revert fuel s. induction H as [|l n its ls rest Hl Hits H IH];
    intros [|fuel] s Hf; cbn in Hf; try lia; [done|].
  cbn [scan_leaves]. rewrite (get_node_step _ _ _ _ Hl).
  rewrite (bind_step _ _ _ _ _ (scan_items_list _ _ _ _ _ Hits)), scan_list_app.
  destruct (scan_list step its s); [|done]. apply IH. lia.
Qed.

Lemma count_leaves_chain t o ls its fuel c :
  chain t o ls its → (length ls < fuel)%nat →
  count_leaves fuel o c t = Ret (c + lenZ its, t).
Proof.
  intros H. revert fuel c. induction H as [|l n its ls rest Hl Hits H IH];
    intros [|fuel] c Hf; cbn in Hf; try lia.
  - cbn. unfold lenZ. cbn. by rewrite Z.add_0_r.
  - cbn [count_leaves]. rewrite (get_node_step _ _ _ _ Hl).
    rewrite IH by lia. do 2 f_equal. apply Forall2_length in Hits. unfold lenZ.
    rewrite length_app. lia.
Qed.

(** The entry of every query: the scan from the first leaf. *)
Lemma scan_all_represents {T R} (step : T → Item → T + R) t its s :
  represents t its → scan_all step s t = Ret (scan_list step its s, t).
Proof.
  intros (first & p & ls & Hp & Np & Hc & Nc).
  pose proof (NoDup_size t p Np (spine_nodes _ _ _ _ Hp)).
  pose proof (NoDup_size t ls Nc (chain_nodes _ _ _ _ Hc)).
  unfold scan_all. do 2 (erewrite bind_step; [|done]).
  rewrite (bind_step _ _ _ _ _ (first_leaf_spine _ _ _ _ (S (size (nodes t))) Hp ltac:(lia))).
  apply (scan_leaves_chain step t (Some first) ls its); [done|lia].
Qed.

(** A query that is a scan followed by a pure function of its result. *)
Lemma query_represents {T R B} (step : T → Item → T + R) (f : T + R → B) t its s :
  represents t its →
  (r ← scan_all step s; mret (f r)) t = Ret (f (scan_list step its s), t).
Proof. intros H. by rewrite (bind_step _ _ _ _ _ (scan_all_represents step t its s H)). Qed.

(** ** The scans as list functions *)

Lemma scan_rank member its k :
  scan_list (λ rank it, if decide (Member it = member) then inr rank else inl (rank + 1)) its k =
  match list_find (λ it, Member it = member) its with
  | Some (i, _) => inr (k + Z.of_nat i)
  | None => inl (k + lenZ its)
  end.
Proof.
  revert k. induction its as [|it its IH]; intros k; unfold lenZ; cbn.
  - by rewrite Z.add_0_r.
  - case_decide; [by rewrite Z.add_0_r|]. rewrite IH.
    destruct (list_find _ its) as [[i x]|]; cbn; f_equal; unfold lenZ; lia.
Qed.

Lemma scan_nth rank its k :
  0 <= k <= rank →
  scan_list (λ cur it, if cur =? rank then inr it else inl (cur + 1)) its k =
  match its !! Z.to_nat (rank - k) with
  | Some it => inr it
  | None => inl (k + lenZ its)
  end.
Proof.
  revert k. induction its as [|it its IH]; intros k Hk; unfold lenZ; cbn.
  - by rewrite Z.add_0_r.
  - destruct (Z.eqb_spec k rank) as [->|Hne]; [by rewrite Z.sub_diag|].
    rewrite IH by lia. replace (Z.to_nat (rank - k)) with (S (Z.to_nat (rank - (k + 1)))) by lia.
    cbn. destruct (its !! _); f_equal; unfold lenZ; lia.
Qed.

Definition range_step (min max : float64) (result : list Item) (it : Item) :
    list Item + list Item :=
  let result := if geb (Score it) min && leb (Score it) max then result ++ [it] else result in
  if gtb (Score it) max then inr result else inl result.

Definition either {A} (r : A + A) : A := match r with inl a => a | inr a => a end.

Lemma filter_above min max its :
  Forall (λ it, gtb (Score it) max = true) its → filter (λ it, in_range min max it) its = [].
Proof.
  induction 1 as [|it its H _ IH]; [done|]. rewrite filter_cons_False; [done|].
  unfold in_range, geb. rewrite (ltb_not_leb _ _ H), andb_false_r. auto.
Qed.

Lemma scan_range min max its acc :
  sorted_by_score its →
  either (scan_list (range_step min max) its acc) =
  acc ++ filter (λ it, in_range min max it) its.
Proof.
  intros H. revert acc. induction H as [|it its Hs IH Hf]; intros acc.
  - cbn. by rewrite app_nil_r.
  - rewrite filter_cons. cbn [scan_list]. unfold range_step at 1.
    fold (in_range min max it).
    destruct (gtb (Score it) max) eqn:Eg; cbn [either].
    + rewrite filter_above.
      2: { eapply Forall_impl; [exact Hf|]. cbn. intros x Hx. by eapply ltb_leb_trans. }
      destruct (in_range min max it) eqn:E; cbn; [done|by rewrite app_nil_r].
    + rewrite IH. destruct (in_range min max it); cbn; [by rewrite <- app_assoc|done].
Qed.

Definition rank_step (start end_ : Z) : list Item * Z → Item → (list Item * Z) + list Item :=
  λ '(result, currentRank) it,
    let result := if (start <=? currentRank) && (currentRank <=? end_)
                  then result ++ [it] else result in
    if end_ <? currentRank then inr result else inl (result, currentRank + 1).

Lemma scan_rank_range start end_ its acc k :
  0 <= start <= end_ → 0 <= k <= end_ + 1 →
  match scan_list (rank_step start end_) its (acc, k) with inr l => l | inl (l, _) => l end =
  acc ++ take (Z.to_nat (end_ + 1 - Z.max start k)) (drop (Z.to_nat (start - k)) its).
Proof.
  intros Hse. revert acc k. induction its as [|it its IH]; intros acc k Hk.
  - cbn. by rewrite drop_nil, take_nil, app_nil_r.
  - cbn [scan_list]. unfold rank_step at 1.
    destruct (Z.ltb_spec end_ k) as [Hlt|Hge].
    + rewrite (proj2 (Z.leb_gt k end_)) by lia. rewrite andb_false_r.
      replace (Z.to_nat (end_ + 1 - Z.max start k)) with 0%nat by lia. by rewrite app_nil_r.
    + rewrite (proj2 (Z.leb_le k end_)), andb_true_r by lia. rewrite IH by lia.
      destruct (Z.leb_spec start k).
      * replace (Z.to_nat (start - k)) with 0%nat by lia.
        replace (Z.to_nat (start - (k + 1))) with 0%nat by lia.
        rewrite <- app_assoc. f_equal.
        replace (Z.to_nat (end_ + 1 - Z.max start k))
          with (S (Z.to_nat (end_ + 1 - Z.max start (k + 1)))) by lia. done.
      * replace (Z.to_nat (start - k)) with (S (Z.to_nat (start - (k + 1)))) by lia.
        cbn [drop]. do 2 f_equal. lia.
Qed.

(** ** The queries *)

(** [GetRank] returns the position of the first item with the member in
    leaf order, -1 when there is none, and leaves the tree alone. *)
Lemma GetRank_position t its member :
  represents t its → GetRank member t = Ret (rank_of member its, t).
Proof.
  intros H. unfold GetRank. rewrite (query_represents _ _ t its _ H), scan_rank.
  unfold rank_of. by destruct (list_find _ its) as [[i x]|].
Qed.

(** [GetByRank] is indexing into the leaf order, [nil] out of range. *)
Lemma GetByRank_nth t its rank :
  represents t its →
  GetByRank rank t = Ret (if rank <? 0 then None else its !! Z.to_nat rank, t).
Proof.
  intros H. unfold GetByRank. destruct (Z.ltb_spec rank 0); [done|].
  rewrite (query_represents _ _ t its _ H), scan_nth, Z.sub_0_r by lia.
  by destruct (its !! _).
Qed.

(** On items sorted by score, [GetRange] returns exactly the items whose
    score lies in the range, in order: stopping at the first score above the
    maximum loses nothing. *)
Lemma GetRange_filter t its min max :
  represents t its → sorted_by_score its →
  GetRange min max t = Ret (filter (λ it, in_range min max it) its, t).
Proof.
  intros H Hs. unfold GetRange. rewrite (query_represents _ _ t its _ H).
  change (λ result it, _) with (range_step min max).
  change (filter _ its) with ([] ++ filter (λ it, in_range min max it) its).
  by rewrite <- (scan_range min max its [] Hs).
Qed.

(** [GetRangeByRank] returns the items of ranks [start] to [end]
    inclusive, as many of them as there are. *)
Lemma GetRangeByRank_slice t its start end_ :
  represents t its → 0 <= start <= end_ →
  GetRangeByRank start end_ t =
  Ret (take (Z.to_nat (end_ + 1 - start)) (drop (Z.to_nat start) its), t).
Proof.
  intros H Hs. unfold GetRangeByRank.
  rewrite (proj2 (Z.ltb_ge start 0)), (proj2 (Z.ltb_ge end_ start)) by lia. cbn [orb].
  rewrite (query_represents _ _ t its _ H).
  pose proof (scan_rank_range start end_ its [] 0 Hs ltac:(lia)) as E.
  rewrite Z.sub_0_r, Z.max_l in E by lia. rewrite app_nil_l in E. by rewrite <- E.
Qed.

(** [Count] is the number of items. *)
Lemma Count_length t its :
  represents t its → Count t = Ret (lenZ its, t).
Proof.
  intros (first & p & ls & Hp & Np & Hc & Nc).
  pose proof (NoDup_size t p Np (spine_nodes _ _ _ _ Hp)).
  pose proof (NoDup_size t ls Nc (chain_nodes _ _ _ _ Hc)).
  unfold Count. do 2 (erewrite bind_step; [|done]).
  rewrite (bind_step _ _ _ _ _ (first_leaf_spine _ _ _ _ (S (size (nodes t))) Hp ltac:(lia))).
  rewrite (count_leaves_chain t (Some first) ls its) by first [done | lia].
  do 2 f_equal.
Qed.

(** C33: every query of the B+ tree returns, without a panic or a change of
    the tree, what the list of its items in leaf order gives: the position of a
    member or -1, the item at a rank, the number of items, the items of a rank
    interval, and, when the items are in score order, exactly the items whose
    score lies in a range. *)
Theorem queries_refine t its :
  represents t its →
  (∀ member, GetRank member t = Ret (rank_of member its, t)) ∧
  (∀ rank, GetByRank rank t = Ret (if rank <? 0 then None else its !! Z.to_nat rank, t)) ∧
  Count t = Ret (lenZ its, t) ∧
  (∀ start end_, 0 <= start <= end_ →
     GetRangeByRank start end_ t =
     Ret (take (Z.to_nat (end_ + 1 - start)) (drop (Z.to_nat start) its), t)) ∧
  (sorted_by_score its → ∀ min max,
     GetRange min max t = Ret (filter (λ it, in_range min max it) its, t)).
Proof.
  intros H. split_and!; intros;
    auto using GetRank_position, GetByRank_nth, Count_length, GetRangeByRank_slice,
      GetRange_filter.
Qed.

(** The tree after adding five members, one leaf split included. *)
Definition demo : BTreeIndex :=
  match (_ ← Add (of_Z 3) (bs "c"); _ ← Add (of_Z 1) (bs "a"); _ ← Add (of_Z 2) (bs "b");
         _ ← Add (of_Z 5) (bs "e"); Add (of_Z 4) (bs "d")) (NewBTreeIndex 4) with
  | Ret (_, t) => t
  | _ => NewBTreeIndex 4
  end.

Definition demo_items : list Item :=
  [mkItem (of_Z 1) (bs "a"); mkItem (of_Z 2) (bs "b"); mkItem (of_Z 3) (bs "c");
   mkItem (of_Z 4) (bs "d"); mkItem (of_Z 5) (bs "e")].

Lemma demo_represents : represents demo demo_items.
Proof.
  eexists _, _, _. split_and!.
  - eapply spine_node; [vm_compute; reflexivity..|].
    eapply spine_leaf; vm_compute; reflexivity.
  - apply (bool_decide_unpack _). vm_compute. exact I.
  - eapply (chain_cons _ _ _ [_; _]); [vm_compute; reflexivity|repeat constructor|].
    eapply (chain_cons _ _ _ [_; _; _] _ []); [vm_compute; reflexivity|repeat constructor|].
    vm_compute. constructor.
  - apply (bool_decide_unpack _). vm_compute. exact I.
Qed.

Lemma queries_refine_witness : GetRank (bs "d") demo = Ret (3, demo).
Proof. exact (proj1 (queries_refine demo demo_items demo_represents) (bs "d")). Defined.

End BTreeQuery.
