(* ===== verification/BTreeShape.v ===== *)
(** * The shape of the B+ tree store

    A ghost tree describes the part of the store of [BTree.v] that hangs below
    the root: [layout] computes from it the exact node record each location
    must hold, parent and [Next] pointers included, and [bst] says that it is
    balanced and that the separators bound the scores below them.  The
    algorithms walk up from a leaf, so a node is reached through a context of
    frames, and one lemma ([layout_fill]) separates a subtree from the rest of
    the store. *)

From Stdlib Require Import ZArith Lia Ascii.
From Stdlib Require Import SpecFloat.
From stdpp Require Import base gmap list strings numbers sorting fin_maps sets.
From S2P Require Import Prelude GoFloat Item BTree BTreeQuery.

Module BTreeShape.
Import F64 Item BTree BTreeQuery.

(** ** Ghost trees *)

Inductive tree :=
  | TLeaf (l : loc) (its : list loc)
  | TNode (l : loc) (seps : list loc) (kids : list tree).

Definition root (tr : tree) : loc := match tr with TLeaf l _ | TNode l _ _ => l end.
Definition entries (tr : tree) : list loc := match tr with TLeaf _ s | TNode _ s _ => s end.
Definition is_leaf (tr : tree) : bool := match tr with TLeaf _ _ => true | _ => false end.
Definition kids_of (tr : tree) : list tree := match tr with TLeaf _ _ => [] | TNode _ _ ks => ks end.

(** The leftmost leaf. *)
Fixpoint leftmost (tr : tree) : loc :=
  match tr with
  | TLeaf l _ => l
  | TNode l _ [] => l
  | TNode _ _ (k :: _) => leftmost k
  end.

(** Item pointers of the leaves, left to right. *)
Fixpoint contents (tr : tree) : list loc :=
  match tr with
  | TLeaf _ its => its
  | TNode _ _ kids => concat (contents <$> kids)
  end.

(** The leaf that follows the subtrees before [ks]. *)
Definition first_of (nxt : option loc) (ks : list tree) : option loc :=
  match ks with [] => nxt | k :: _ => Some (leftmost k) end.

(** The node records of a subtree, given its parent and the leaf after it. *)
Fixpoint layout (par nxt : option loc) (tr : tree) : list (loc * BTreeNode) :=
  match tr with
  | TLeaf l its => [(l, mkNode its [] true par nxt)]
  | TNode l seps kids =>
      (l, mkNode seps (root <$> kids) false par None) ::
      (fix go (ks : list tree) : list (loc * BTreeNode) :=
         match ks with
         | [] => []
         | k :: ks => layout (Some l) (first_of nxt ks) k ++ go ks
         end) kids
  end.

Fixpoint layout_kids (par nxt : option loc) (ks : list tree) : list (loc * BTreeNode) :=
  match ks with
  | [] => []
  | k :: ks => layout par (first_of nxt ks) k ++ layout_kids par nxt ks
  end.

(** The store holds these records, at distinct locations. *)
Definition has (ns : gmap loc BTreeNode) (lay : list (loc * BTreeNode)) : Prop :=
  NoDup (lay.*1) ∧ Forall (λ p, ns !! p.1 = Some p.2) lay.

(** ** Order *)

Abbreviation bound := (option float64).

(** A number (not NaN) that is at least [lo]. *)
Definition above (lo : bound) (s : float64) : Prop :=
  match lo with None => is_nan s = false | Some x => leb x s = true end.
Definition below (s : float64) (hi : bound) : Prop :=
  match hi with None => True | Some y => ltb s y = true end.
Definition gap (lo hi : bound) : Prop :=
  match lo, hi with
  | Some x, Some y => leb x y = true
  | Some x, None | None, Some x => is_nan x = false
  | None, None => True
  end.

Section Order.
Context (its : gmap loc Item).

Definition entry (lo hi : bound) (l : loc) : Prop :=
  ∃ it, its !! l = Some it ∧ above lo (Score it) ∧ below (Score it) hi.

(** Each separator bounds the child before it from above and the one after it
    from below; there is one child more than separators. *)
Fixpoint kids_ok (P : bound → bound → tree → Prop) (lo hi : bound)
    (seps : list loc) (kids : list tree) : Prop :=
  match seps, kids with
  | [], [k] => P lo hi k
  | s :: seps, k :: kids =>
      ∃ it, its !! s = Some it ∧ P lo (Some (Score it)) k ∧
            kids_ok P (Some (Score it)) hi seps kids
  | _, _ => False
  end.

(** All leaves at depth [h]. *)
Fixpoint bst (h : nat) (lo hi : bound) (tr : tree) : Prop :=
  match h, tr with
  | O, TLeaf _ ls => Forall (entry lo hi) ls ∧ gap lo hi
  | S h, TNode _ seps kids => kids_ok (bst h) lo hi seps kids
  | _, _ => False
  end.

End Order.

(** ** Contexts *)

Record frame := mkFrame {
  f_loc : loc;
  f_seps : list loc;
  f_left : list tree;
  f_right : list tree
}.

Definition plug (f : frame) (x : tree) : tree :=
  TNode (f_loc f) (f_seps f) (f_left f ++ x :: f_right f).

(** Innermost frame first. *)
Fixpoint fill (ctx : list frame) (x : tree) : tree :=
  match ctx with [] => x | f :: ctx => fill ctx (plug f x) end.

Definition par_of (ctx : list frame) : option loc :=
  match ctx with [] => None | f :: _ => Some (f_loc f) end.
Fixpoint nxt_of (ctx : list frame) : option loc :=
  match ctx with [] => None | f :: ctx => first_of (nxt_of ctx) (f_right f) end.

(** ** What an index state satisfies *)

Definition fresh (t : BTreeIndex) : Prop :=
  ∀ l, (next_loc t <= l)%positive → nodes t !! l = None ∧ items t !! l = None.

Record good (t : BTreeIndex) (tr : tree) : Prop := {
  good_has : has (nodes t) (layout None None tr);
  good_root : Root t = root tr;
  good_bst : ∃ h, bst (items t) h None None tr;
  good_fresh : fresh t
}.

(** ** Layout *)

Lemma layout_node par nxt l seps kids :
  layout par nxt (TNode l seps kids) =
  (l, mkNode seps (root <$> kids) false par None) :: layout_kids (Some l) nxt kids.
Proof. cbn. f_equal. induction kids as [|k kids IH]; cbn; congruence. Qed.

Lemma first_of_app nxt a b : first_of nxt (a ++ b) = first_of (first_of nxt b) a.
Proof. by destruct a. Qed.

Lemma layout_kids_app par nxt a b :
  layout_kids par nxt (a ++ b) = layout_kids par (first_of nxt b) a ++ layout_kids par nxt b.
Proof.
  induction a as [|k a IH]; cbn; [done|]. by rewrite IH, first_of_app, app_assoc.
Qed.

(** The record of the root of a subtree, and those below it. *)
Definition top (par nxt : option loc) (k : tree) : BTreeNode :=
  match k with
  | TLeaf _ its => mkNode its [] true par nxt
  | TNode _ seps kids => mkNode seps (root <$> kids) false par None
  end.
Definition rest (nxt : option loc) (k : tree) : list (loc * BTreeNode) :=
  match k with TLeaf _ _ => [] | TNode l _ kids => layout_kids (Some l) nxt kids end.

Lemma layout_top par nxt k : layout par nxt k = (root k, top par nxt k) :: rest nxt k.
Proof. destruct k; [done|]. apply layout_node. Qed.

Lemma top_parent par par' nxt k : with_Parent (top par nxt k) par' = top par' nxt k.
Proof. by destruct k. Qed.

Lemma leftmost_plug f x y : leftmost x = leftmost y → leftmost (plug f x) = leftmost (plug f y).
Proof. intros H. unfold plug. cbn. by destruct (f_left f). Qed.

Lemma root_fill ctx x y : root x = root y → root (fill ctx x) = root (fill ctx y).
Proof. revert x y. induction ctx as [|f ctx IH]; intros x y H; cbn; [done|]. by apply IH. Qed.

(** A subtree is one block of the layout; the rest depends on it only through
    its root and its leftmost leaf. *)
Lemma layout_fill ctx x :
  ∃ C, ∀ y, root y = root x → leftmost y = leftmost x →
    layout None None (fill ctx y) ≡ₚ C ++ layout (par_of ctx) (nxt_of ctx) y.
Proof.
  revert x. induction ctx as [|f ctx IH]; intros x; cbn [fill].
  { exists []. by intros y. }
  destruct (IH (plug f x)) as [C HC].
  exists (C ++ (f_loc f, mkNode (f_seps f) (root <$> (f_left f ++ x :: f_right f)) false (par_of ctx) None)
            :: layout_kids (Some (f_loc f)) (Some (leftmost x)) (f_left f)
            ++ layout_kids (Some (f_loc f)) (nxt_of ctx) (f_right f)).
  intros y Hr Hl. rewrite HC by (done || by apply leftmost_plug).
  unfold plug. rewrite layout_node, layout_kids_app. cbn [layout_kids first_of].
  rewrite !fmap_app. cbn [fmap list_fmap]. rewrite Hr, Hl. cbn [par_of nxt_of].
  rewrite <- app_assoc. apply Permutation_app_head. cbn. apply perm_skip.
  rewrite <- app_assoc. apply Permutation_app_head. apply Permutation_app_comm.
Qed.

(** The same for a segment [mid] of the children of a node: what is outside
    it depends only on its first leaf. *)
Lemma layout_frame ctx l (seps : list loc) left mid right :
  mid ≠ [] →
  ∃ C, ∀ seps' mid', mid' ≠ [] → first_of None mid' = first_of None mid →
    layout None None (fill ctx (TNode l seps' (left ++ mid' ++ right))) ≡ₚ
    C ++ (l, mkNode seps' (root <$> (left ++ mid' ++ right)) false (par_of ctx) None)
      :: layout_kids (Some l) (first_of (nxt_of ctx) right) mid'.
Proof.
  intros Hm. destruct (layout_fill ctx (TNode l seps (left ++ mid ++ right))) as [C HC].
  exists (C ++ layout_kids (Some l) (first_of None mid) left
            ++ layout_kids (Some l) (nxt_of ctx) right).
  intros seps' mid' Hm' Hf.
  assert (Hfirst : first_of (first_of (nxt_of ctx) right) mid' = first_of None mid).
  { rewrite <- Hf. by destruct mid'. }
  rewrite HC; [|done|].
  2: { destruct left; [|done]. destruct mid, mid'; try done. cbn in *. congruence. }
  rewrite layout_node, !layout_kids_app, first_of_app, Hfirst. solve_Permutation.
Qed.

(** ** The store *)

#[global] Instance has_perm ns : Proper ((≡ₚ) ==> iff) (has ns).
Proof. intros a b H. unfold has. by rewrite H. Qed.

Lemma has_lookup ns l n R : has ns ((l, n) :: R) → ns !! l = Some n.
Proof. intros [_ H]. by apply Forall_cons_1 in H as [H _]. Qed.

Lemma has_elem ns lay l n : has ns lay → (l, n) ∈ lay → ns !! l = Some n.
Proof. intros [_ H] Hin. rewrite Forall_forall in H. by apply (H (l, n)). Qed.

Lemma has_other (ns : gmap loc BTreeNode) l n' (R : list (loc * BTreeNode)) :
  l ∉ R.*1 → Forall (λ p, ns !! p.1 = Some p.2) R →
  Forall (λ p, <[l := n']> ns !! p.1 = Some p.2) R.
Proof.
  intros Hl. rewrite !Forall_forall. intros H [l' n] Hin. cbn.
  rewrite lookup_insert_ne; [by apply (H (l', n))|]. intros ->.
  apply Hl, list_elem_of_fmap. by exists (l', n).
Qed.

Lemma has_set ns l n n' R : has ns ((l, n) :: R) → has (<[l := n']> ns) ((l, n') :: R).
Proof.
  intros [HN HF]. cbn in HN. apply NoDup_cons in HN as [Hl HN]. apply Forall_cons_1 in HF as [_ HF].
  split; [by apply NoDup_cons|]. constructor; [by rewrite lookup_insert_eq|].
  by apply has_other.
Qed.

Lemma has_mp ns lay lay' : has ns lay → lay ≡ₚ lay' → has ns lay'.
Proof. by intros H <-. Qed.

(** Writing one record, wherever it stands. *)
Lemma has_set_mid ns A l n n' B :
  has ns (A ++ (l, n) :: B) → has (<[l := n']> ns) (A ++ (l, n') :: B).
Proof. rewrite <- !Permutation_middle. apply has_set. Qed.

Lemma has_alloc ns l n R : has ns R → ns !! l = None → has (<[l := n]> ns) ((l, n) :: R).
Proof.
  intros [HN HF] Hl.
  assert (Hnew : l ∉ R.*1).
  { intros Hin. apply list_elem_of_fmap in Hin as ([l' n'] & -> & Hin).
    rewrite Forall_forall in HF. specialize (HF _ Hin). cbn in *. congruence. }
  split; [by apply NoDup_cons|]. constructor; [by rewrite lookup_insert_eq|].
  by apply has_other.
Qed.

Lemma has_drop ns A R : has ns (A ++ R) → has ns R.
Proof.
  intros [HN HF]. rewrite fmap_app in HN. apply NoDup_app in HN as (_ & _ & HN).
  apply Forall_app in HF as [_ HF]. done.
Qed.

Lemma fresh_root r r' d ns its nl : fresh (mkTree r d ns its nl) → fresh (mkTree r' d ns its nl).
Proof. done. Qed.

Lemma fresh_set r d ns its nl l n n' :
  ns !! l = Some n → fresh (mkTree r d ns its nl) →
  fresh (mkTree r d (<[l := n']> ns) its nl).
Proof.
  intros Hl Hf x Hx. destruct (Hf x Hx) as [H1 H2]. cbn in *. split; [|done].
  rewrite lookup_insert_ne; [done|]. intros <-. congruence.
Qed.

Lemma fresh_alloc r d ns its nl n :
  fresh (mkTree r d ns its nl) → fresh (mkTree r d (<[nl := n]> ns) its (Pos.succ nl)).
Proof.
  intros Hf x Hx. cbn in *. destruct (Hf x) as [H1 H2]; cbn in *; [lia|]. split; [|done].
  rewrite lookup_insert_ne; [done|]. lia.
Qed.

Lemma fresh_none r d ns its nl : fresh (mkTree r d ns its nl) → ns !! nl = None.
Proof. intros Hf. destruct (Hf nl) as [H _]; [cbn; lia|done]. Qed.

(** ** Bounds *)

Lemma leb_number x y : leb x y = true → is_nan x = false ∧ is_nan y = false.
Proof. rewrite leb_rank. by destruct x, y. Qed.

Lemma ltb_number x y : ltb x y = true → is_nan x = false ∧ is_nan y = false.
Proof. intros H. by apply leb_number, ltb_leb. Qed.

Lemma above_number lo s : above lo s → is_nan s = false.
Proof. destruct lo; cbn; [|done]. intros H. apply (leb_number _ _ H). Qed.

Lemma gap_number lo m : gap lo (Some m) → is_nan m = false.
Proof. destruct lo; cbn; [|done]. intros H. apply (leb_number _ _ H). Qed.

Lemma gap_above lo s : above lo s → gap lo (Some s).
Proof. by destruct lo. Qed.

Lemma gap_below s hi : is_nan s = false → below s hi → gap (Some s) hi.
Proof. destruct hi; cbn; [|done]. intros _. apply ltb_leb. Qed.

Lemma gap_trans lo m hi : gap lo (Some m) → gap (Some m) hi → gap lo hi.
Proof.
  destruct lo, hi; cbn; try done.
  - apply leb_trans.
  - intros H _. apply (leb_number _ _ H).
  - intros _ H. apply (leb_number _ _ H).
Qed.

Lemma above_gap lo m s : gap lo (Some m) → leb m s = true → above lo s.
Proof.
  destruct lo; cbn; [|intros _ H; apply (leb_number _ _ H)]. apply leb_trans.
Qed.

Lemma below_gap s m hi : ltb s m = true → gap (Some m) hi → below s hi.
Proof. destruct hi; cbn; [|done]. apply ltb_leb_trans. Qed.

(** ** Children between bounds *)

Section Kids.
Context (its : gmap loc Item) (P : bound → bound → tree → Prop).
Implicit Types (a b seps : list loc) (ks left mid right : list tree).

Lemma kids_length lo hi seps ks : kids_ok its P lo hi seps ks → length ks = S (length seps).
Proof.
  revert lo ks. induction seps as [|s seps IH]; intros lo [|k ks]; cbn; try done.
  - by destruct ks.
  - intros (it & _ & _ & H). by rewrite (IH _ _ H).
Qed.

Lemma kids_join lo hi a s it b left right :
  kids_ok its P lo (Some (Score it)) a left → its !! s = Some it →
  kids_ok its P (Some (Score it)) hi b right →
  kids_ok its P lo hi (a ++ s :: b) (left ++ right).
Proof.
  intros Ha Hs Hb. revert lo left Ha. induction a as [|x a IH]; intros lo [|k left]; cbn; try done.
  - destruct left; [|done]. eauto.
  - intros (ix & Hx & Hk & Ha). eauto 6.
Qed.

Lemma kids_unjoin lo hi a s b left right :
  kids_ok its P lo hi (a ++ s :: b) (left ++ right) → length left = S (length a) →
  ∃ it, its !! s = Some it ∧ kids_ok its P lo (Some (Score it)) a left ∧
        kids_ok its P (Some (Score it)) hi b right.
Proof.
  revert lo left. induction a as [|x a IH]; intros lo [|k left]; cbn; try done.
  - destruct left; [|done]. naive_solver.
  - intros (ix & Hx & Hk & Ha) Hl. destruct (IH _ _ Ha ltac:(lia)) as (it & ? & ? & ?). eauto 8.
Qed.

(** A segment of the children can be replaced by any other that fits between
    the same bounds. *)
Lemma kids_segment lo hi seps left mid right :
  mid ≠ [] → kids_ok its P lo hi seps (left ++ mid ++ right) →
  ∃ a m b lo' hi', seps = a ++ m ++ b ∧ length a = length left ∧ length b = length right ∧
    kids_ok its P lo' hi' m mid ∧
    ∀ m' mid', kids_ok its P lo' hi' m' mid' →
               kids_ok its P lo hi (a ++ m' ++ b) (left ++ mid' ++ right).
Proof.
  intros Hm. revert lo seps. induction left as [|k left IH]; intros lo seps H; cbn in H |- *.
  - destruct right as [|r right].
    + rewrite app_nil_r in H. exists [], seps, [], lo, hi. rewrite app_nil_r.
      split_and!; try done. intros m' mid'. by rewrite !app_nil_r.
    + destruct mid as [|x mid]; [done|]. pose proof (kids_length _ _ _ _ H) as Hlen.
      rewrite length_app in Hlen. cbn in Hlen.
      rewrite <- (take_drop (length mid) seps) in H.
      destruct (drop (length mid) seps) as [|s b] eqn:Ed.
      { apply (f_equal length) in Ed. rewrite length_drop in Ed. cbn in Ed. lia. }
      apply kids_unjoin in H as (it & Hs & Ha & Hb); [|cbn; rewrite length_take; lia].
      exists [], (take (length mid) seps), (s :: b), lo, (Some (Score it)).
      split_and!; [by rewrite <- Ed, take_drop|done| |done|].
      * apply kids_length in Hb. cbn in *. lia.
      * intros m' mid' H'. by eapply kids_join.
  - destruct seps as [|s seps]; [by destruct left, mid|].
    destruct H as (it & Hs & Hk & H).
    destruct (IH _ _ H) as (a & m & b & lo' & hi' & -> & Ha & Hb & Hmid & Hrep).
    exists (s :: a), m, b, lo', hi'. split_and!; [done|cbn; lia|done|done|].
    intros m' mid' H'. exists it. auto.
Qed.

Lemma kids_gap lo hi seps ks :
  (∀ lo hi k, P lo hi k → gap lo hi) → kids_ok its P lo hi seps ks → gap lo hi.
Proof.
  intros HP. revert lo ks. induction seps as [|s seps IH]; intros lo [|k ks]; cbn; try done.
  - destruct ks; [|done]. eauto.
  - intros (it & _ & Hk & H). eapply gap_trans; eauto.
Qed.

End Kids.

Lemma kids_mono (its its' : gmap loc Item) (P P' : bound → bound → tree → Prop) lo hi seps ks :
  its ⊆ its' → (∀ lo hi k, P lo hi k → P' lo hi k) →
  kids_ok its P lo hi seps ks → kids_ok its' P' lo hi seps ks.
Proof.
  intros Hi HP. revert lo ks. induction seps as [|s seps IH]; intros lo [|k ks]; cbn; try done.
  - destruct ks; [|done]. eauto.
  - intros (it & Hs & Hk & H). exists it. split_and!; [by eapply lookup_weaken|auto|auto].
Qed.

Lemma entry_up its lo m hi l : gap lo (Some m) → entry its (Some m) hi l → entry its lo hi l.
Proof. intros Hg (it & Hl & Ha & Hb). exists it. split_and!; [done|by eapply above_gap|done]. Qed.

Lemma entry_down its lo m hi l : gap (Some m) hi → entry its lo (Some m) l → entry its lo hi l.
Proof. intros Hg (it & Hl & Ha & Hb). exists it. split_and!; [done|done|by eapply below_gap]. Qed.

Lemma entry_mono (its its' : gmap loc Item) lo hi l :
  its ⊆ its' → entry its lo hi l → entry its' lo hi l.
Proof. intros Hi (it & H & ?). exists it. split; [by eapply lookup_weaken|done]. Qed.

Lemma bst_mono (its its' : gmap loc Item) h lo hi tr :
  its ⊆ its' → bst its h lo hi tr → bst its' h lo hi tr.
Proof.
  intros Hi. revert lo hi tr. induction h as [|h IH]; intros lo hi [l ls|l seps ks]; cbn; try done.
  - intros [H ?]. split; [|done]. eapply Forall_impl; [done|]. intros. by eapply entry_mono.
  - by apply kids_mono.
Qed.

Lemma bst_gap its h lo hi tr : bst its h lo hi tr → gap lo hi.
Proof.
  revert lo hi tr. induction h as [|h IH]; intros lo hi [l ls|l seps ks]; cbn; try done.
  - by intros [_ ?].
  - by apply kids_gap.
Qed.

Lemma bst_is_leaf its h lo hi tr : bst its h lo hi tr → is_leaf tr = bool_decide (h = 0%nat).
Proof. by destruct h, tr. Qed.

(** Every item below a subtree lies between its bounds. *)
Lemma bst_contents its h lo hi tr :
  bst its h lo hi tr → Forall (entry its lo hi) (contents tr).
Proof.
  revert lo hi tr. induction h as [|h IH]; intros lo hi [l ls|l seps ks]; cbn; try done.
  { by intros [? _]. }
  revert lo ks. induction seps as [|s seps IHs]; intros lo [|k ks]; cbn; try done.
  - destruct ks; [|done]. cbn. rewrite app_nil_r. auto.
  - intros (it & Hs & Hk & H). apply Forall_app. split.
    + eapply Forall_impl; [by apply IH|]. intros x. apply entry_down.
      eapply kids_gap; [|done]. intros *. apply bst_gap.
    + eapply Forall_impl; [by apply IHs|]. intros x. apply entry_up. by eapply bst_gap.
Qed.

(** ** Contexts *)

Definition contents_of (ks : list tree) : list loc := concat (contents <$> ks).

Lemma contents_of_app a b : contents_of (a ++ b) = contents_of a ++ contents_of b.
Proof. unfold contents_of. by rewrite fmap_app, concat_app. Qed.

Lemma contents_node l seps ks : contents (TNode l seps ks) = contents_of ks.
Proof. done. Qed.

Lemma contents_plug f x :
  contents (plug f x) = contents_of (f_left f) ++ contents x ++ contents_of (f_right f).
Proof.
  unfold plug. rewrite contents_node, contents_of_app. done.
Qed.

(** The items before and after the hole of a context. *)
Fixpoint before (ctx : list frame) : list loc :=
  match ctx with [] => [] | f :: ctx => before ctx ++ contents_of (f_left f) end.
Fixpoint after (ctx : list frame) : list loc :=
  match ctx with [] => [] | f :: ctx => contents_of (f_right f) ++ after ctx end.

Lemma contents_fill ctx x : contents (fill ctx x) = before ctx ++ contents x ++ after ctx.
Proof.
  revert x. induction ctx as [|f ctx IH]; intros x; cbn; [by rewrite app_nil_r|].
  rewrite IH, contents_plug. by rewrite <- !app_assoc.
Qed.

(** A subtree can be replaced by any other that fits between the same bounds. *)
Lemma bst_fill its ctx h0 x :
  bst its h0 None None (fill ctx x) →
  ∃ h lo hi, bst its h lo hi x ∧
    ∀ y, bst its h lo hi y → bst its h0 None None (fill ctx y).
Proof.
  revert x. induction ctx as [|f ctx IH]; intros x H; cbn in H |- *.
  { by exists h0, None, None. }
  destruct (IH _ H) as (h & lo & hi & Hx & Hrep). destruct h as [|h]; [done|].
  destruct (kids_segment its (bst its h) lo hi (f_seps f) (f_left f) [x] (f_right f))
    as (a & m & b & lo' & hi' & Es & Ha & Hb & Hm & Hseg); [done|done|].
  pose proof (kids_length _ _ _ _ _ _ Hm) as Hl. destruct m; [|done].
  exists h, lo', hi'. split; [done|]. intros y Hy. apply Hrep.
  cbn. rewrite Es. by apply (Hseg [] [y]).
Qed.

(** Replacing a segment of the children of a node. *)
Lemma bst_frame its ctx h0 l seps left mid right :
  mid ≠ [] → bst its h0 None None (fill ctx (TNode l seps (left ++ mid ++ right))) →
  ∃ h a m b lo hi, seps = a ++ m ++ b ∧ length a = length left ∧ length b = length right ∧
    kids_ok its (bst its h) lo hi m mid ∧
    ∀ m' mid', kids_ok its (bst its h) lo hi m' mid' →
      bst its h0 None None (fill ctx (TNode l (a ++ m' ++ b) (left ++ mid' ++ right))).
Proof.
  intros Hm H. destruct (bst_fill _ _ _ _ H) as (h & lo & hi & Hx & Hrep).
  destruct h as [|h]; [done|].
  destruct (kids_segment _ _ _ _ _ _ _ _ Hm Hx) as (a & m & b & lo' & hi' & -> & Ha & Hb & Hk & Hs).
  exists h, a, m, b, lo', hi'. split_and!; [done..|]. intros m' mid' H'. apply Hrep. by apply Hs.
Qed.

(** ** Positions of children *)

Lemma roots_sublist par nxt ks : root <$> ks `sublist_of` (layout_kids par nxt ks).*1.
Proof.
  induction ks as [|k ks IH]; [constructor|]. cbn. rewrite layout_top. cbn.
  apply sublist_skip. rewrite fmap_app. by apply sublist_inserts_l.
Qed.

Lemma kids_nodup ns ctx l seps ks :
  has ns (layout None None (fill ctx (TNode l seps ks))) → NoDup (l :: (root <$> ks)).
Proof.
  destruct (layout_fill ctx (TNode l seps ks)) as [C HC]. rewrite HC by done.
  intros [HN _]%has_drop. rewrite layout_node in HN. eapply sublist_NoDup; [exact HN|].
  cbn. apply sublist_skip, roots_sublist.
Qed.

Lemma index_of_app l a b k : l ∉ a → index_of l (a ++ l :: b) k = k + lenZ a.
Proof.
  revert k. induction a as [|x a IH]; intros k Hl; unfold lenZ; cbn.
  - rewrite decide_True by done. lia.
  - apply not_elem_of_cons in Hl as [Hx Hl]. rewrite decide_False by done.
    rewrite IH by done. unfold lenZ. lia.
Qed.

Lemma index_of_kid x left right :
  NoDup (root <$> (left ++ x :: right)) →
  index_of (root x) (root <$> (left ++ x :: right)) 0 = lenZ left.
Proof.
  rewrite fmap_app. intros H. cbn. apply NoDup_app in H as (_ & H & _).
  rewrite index_of_app; [unfold lenZ; by rewrite length_fmap|].
  intros Hin. apply (H _ Hin). by left.
Qed.

(** ** Steps of the store monad *)

Section Steps.
Context {B : Type} (r : loc) (d : Z) (ns : gmap loc BTreeNode) (its : gmap loc Item) (nl : loc).

Lemma set_node_step l n (f : unit → M B) :
  (set_node l n ≫= f) (mkTree r d ns its nl) = f tt (mkTree r d (<[l := n]> ns) its nl).
Proof. done. Qed.

Lemma upd_node_ret l n g :
  ns !! l = Some n →
  upd_node l g (mkTree r d ns its nl) = Ret (tt, mkTree r d (<[l := g n]> ns) its nl).
Proof. intros H. unfold upd_node. by rewrite (get_node_step l n). Qed.

Lemma upd_node_step l n g (f : unit → M B) :
  ns !! l = Some n →
  (upd_node l g ≫= f) (mkTree r d ns its nl) = f tt (mkTree r d (<[l := g n]> ns) its nl).
Proof. intros H. exact (bind_step _ _ _ _ _ (upd_node_ret l n g H)). Qed.

Lemma alloc_node_step n (f : loc → M B) :
  (alloc_node n ≫= f) (mkTree r d ns its nl) =
  f nl (mkTree r d (<[nl := n]> ns) its (Pos.succ nl)).
Proof. done. Qed.

Lemma get_degree_step (f : Z → M B) t : (get_degree ≫= f) t = f (Degree t) t.
Proof. done. Qed.

Lemma get_root_step (f : loc → M B) t : (get_root ≫= f) t = f (Root t) t.
Proof. done. Qed.

Lemma set_root_step r' (f : unit → M B) :
  (set_root r' ≫= f) (mkTree r d ns its nl) = f tt (mkTree r' d ns its nl).
Proof. done. Qed.

Lemma deref_step l (f : loc → M B) t : (deref (Some l) ≫= f) t = f l t.
Proof. done. Qed.

Context {A : Type}.
Implicit Types l : list A.

Lemma upto_ret l i t :
  0 <= i <= lenZ l → upto l i t = Ret (take (Z.to_nat i) l, t).
Proof.
  intros H. unfold upto, st_lift. unfold lenZ in H.
  by rewrite (proj2 (Z.leb_le 0 i)), (proj2 (Z.leb_le i _)) by lia.
Qed.

Lemma from_ret l i t :
  0 <= i <= lenZ l → from l i t = Ret (drop (Z.to_nat i) l, t).
Proof.
  intros H. unfold from, st_lift. unfold lenZ in H.
  by rewrite (proj2 (Z.leb_le 0 i)), (proj2 (Z.leb_le i _)) by lia.
Qed.

Lemma upto_step l i (f : list A → M B) t :
  0 <= i <= lenZ l → (upto l i ≫= f) t = f (take (Z.to_nat i) l) t.
Proof. intros H. exact (bind_step _ _ _ _ _ (upto_ret l i t H)). Qed.

Lemma from_step l i (f : list A → M B) t :
  0 <= i <= lenZ l → (from l i ≫= f) t = f (drop (Z.to_nat i) l) t.
Proof. intros H. exact (bind_step _ _ _ _ _ (from_ret l i t H)). Qed.

(** Indexing and slicing at the boundary of two parts of a list. *)
Lemma nth_mid_step a x b (f : A → M B) t :
  (nth (a ++ x :: b) (lenZ a) ≫= f) t = f x t.
Proof.
  apply nth_step; unfold lenZ; [lia|]. rewrite Nat2Z.id. by apply list_lookup_middle.
Qed.

Lemma insert_at_step a b x (f : list A → M B) t :
  (insert_at (a ++ b) (lenZ a) x ≫= f) t = f (a ++ x :: b) t.
Proof.
  apply bind_step. unfold insert_at, lenZ.
  assert (0 <= Z.of_nat (length a) <= lenZ (a ++ b)) by (unfold lenZ; rewrite length_app; lia).
  rewrite (bind_step _ _ _ _ _ (from_ret _ _ t H)), (bind_step _ _ _ _ _ (upto_ret _ _ t H)).
  by rewrite Nat2Z.id, take_app_length, drop_app_length.
Qed.

Lemma cut_step a x b i j (f : list A → M B) t :
  i = lenZ a → j = lenZ a + 1 → (cut (a ++ x :: b) i j ≫= f) t = f (a ++ b) t.
Proof.
  intros -> ->. apply bind_step. unfold cut, lenZ.
  erewrite (bind_step _ _ _ _ _ (upto_ret _ _ t _)), (bind_step _ _ _ _ _ (from_ret _ _ t _)).
  rewrite Nat2Z.id, take_app_length. replace (Z.to_nat _) with (length a + 1)%nat by lia.
  by rewrite drop_app_add.
  Unshelve. all: unfold lenZ; rewrite length_app; cbn; lia.
Qed.

Lemma set_nth_step a x y b i (f : list A → M B) t :
  i = lenZ a → (set_nth (a ++ x :: b) i y ≫= f) t = f (a ++ y :: b) t.
Proof.
  intros ->. apply bind_step. unfold set_nth.
  assert (E : nth (a ++ x :: b) (lenZ a) t = Ret (x, t)).
  { unfold nth, st_lift, lenZ. rewrite (proj2 (Z.ltb_ge _ 0)) by lia.
    rewrite Nat2Z.id, list_lookup_middle by done. done. }
  rewrite (bind_step _ _ _ _ _ E). unfold lenZ. rewrite Nat2Z.id.
  by rewrite insert_app_r_alt, Nat.sub_diag by lia.
Qed.

End Steps.

(** ** Computations on a tree *)

(** A computation that returns and keeps tree, items and degree. *)
Definition keeps (t : BTreeIndex) (tr : tree) (m : M unit) : Prop :=
  ∃ t' tr', m t = Ret (tt, t') ∧ good t' tr' ∧ contents tr' = contents tr ∧
            items t' = items t ∧ Degree t' = Degree t.

(** The last part of a computation decides it. *)
Lemma keeps_from t2 tr2 (k : M unit) t tr (m : M unit) :
  m t = k t2 → keeps t2 tr2 k → contents tr2 = contents tr →
  items t2 = items t → Degree t2 = Degree t → keeps t tr m.
Proof.
  intros E (t' & tr' & Hk & Hg & Hc & Hi & Hd) Ec Ei Ed. exists t', tr'.
  rewrite E. split_and!; congruence.
Qed.

(** The record of the node at the hole. *)
Lemma fill_top ns ctx x :
  has ns (layout None None (fill ctx x)) →
  ns !! root x = Some (top (par_of ctx) (nxt_of ctx) x).
Proof.
  destruct (layout_fill ctx x) as [C HC]. rewrite HC, layout_top by done.
  intros H. eapply has_elem; [exact H|set_solver].
Qed.

Lemma top_fields par nxt x :
  IsLeaf (top par nxt x) = is_leaf x ∧ Parent (top par nxt x) = par ∧
  Items (top par nxt x) = entries x ∧ Children (top par nxt x) = root <$> kids_of x.
Proof. by destruct x. Qed.

(** [for _, child := range cs { child.Parent = q }] *)
Lemma reparent_ok q par nxt ks C r d ns its nl :
  has ns (C ++ layout_kids par nxt ks) → fresh (mkTree r d ns its nl) →
  ∃ ns', for_each (λ c, upd_node c (λ n, with_Parent n (Some q))) (root <$> ks)
           (mkTree r d ns its nl) = Ret (tt, mkTree r d ns' its nl) ∧
         has ns' (C ++ layout_kids (Some q) nxt ks) ∧ fresh (mkTree r d ns' its nl).
Proof.
  revert C ns. induction ks as [|k ks IH]; intros C ns Hh Hf; cbn [fmap list_fmap for_each].
  { by exists ns. }
  cbn [layout_kids] in *. rewrite layout_top in Hh |- *. cbn [app] in Hh.
  assert (Hk : ns !! root k = Some (top par (first_of nxt ks) k))
    by (eapply has_elem; [exact Hh|set_solver]).
  rewrite (upd_node_step r d ns its nl _ _ _ _ Hk), top_parent.
  apply (has_set_mid _ _ _ _ (top (Some q) (first_of nxt ks) k)) in Hh.
  apply (fresh_set _ _ _ _ _ _ _ (top (Some q) (first_of nxt ks) k) Hk) in Hf.
  edestruct (IH (C ++ (root k, top (Some q) (first_of nxt ks) k) :: rest (first_of nxt ks) k))
    as (ns' & E & Hh' & Hf').
  { by rewrite <- app_assoc. }
  { exact Hf. }
  exists ns'. split_and!; [exact E| |exact Hf']. by rewrite <- app_assoc in Hh'.
Qed.

End BTreeShape.
