(* ===== verification/BTreeSearch.v ===== *)
(** * Descent in the B+ tree and the items it holds

    [find_leaf] reaches the leaf whose bounds contain the score, and leaves to
    its left only smaller scores and to its right only larger ones; the fuel
    taken from the size of the store suffices.  The second half relates the
    item pointers of the leaves to the list of items they stand for. *)

From Stdlib Require Import ZArith Lia Ascii.
From Stdlib Require Import SpecFloat.
From stdpp Require Import base gmap list strings numbers sorting fin_maps sets.
From S2P Require Import Prelude GoFloat Item BTree BTreeQuery BTreeShape.

Module BTreeSearch.
Import F64 Item BTree BTreeQuery BTreeShape.

(** Strictly ascending scores along a list of item pointers. *)
Definition lower (its : gmap loc Item) (a b : loc) : Prop :=
  ∃ ia ib, its !! a = Some ia ∧ its !! b = Some ib ∧ ltb (Score ia) (Score ib) = true.
Definition ascending (its : gmap loc Item) (ls : list loc) : Prop := StronglySorted (lower its) ls.

(** All scores below, above a given one. *)
Definition all_lt (its : gmap loc Item) (ls : list loc) (s : float64) : Prop :=
  Forall (λ l, ∃ it, its !! l = Some it ∧ ltb (Score it) s = true) ls.
Definition all_gt (its : gmap loc Item) (s : float64) (ls : list loc) : Prop :=
  Forall (λ l, ∃ it, its !! l = Some it ∧ ltb s (Score it) = true) ls.

Lemma ascending_fill its ctx x : ascending its (contents (fill ctx x)) → ascending its (contents x).
Proof.
  rewrite contents_fill. intros H. by eapply StronglySorted_app_1_l, StronglySorted_app_1_r.
Qed.

(** ** The child to descend into *)

Lemma child_index_ok h lo hi seps kids s t j :
  kids_ok (items t) (bst (items t) h) lo hi seps kids → above lo s → below s hi →
  ∃ left k right lo' hi',
    kids = left ++ k :: right ∧
    child_index s seps j t = Ret (j + lenZ left, t) ∧
    bst (items t) h lo' hi' k ∧
    (∀ y, bst (items t) h lo' hi' y →
          kids_ok (items t) (bst (items t) h) lo hi seps (left ++ y :: right)) ∧
    above lo' s ∧ below s hi' ∧
    all_lt (items t) (contents_of left) s ∧ all_gt (items t) s (contents_of right).
Proof.
  revert lo kids j. induction seps as [|x seps IH]; intros lo [|k kids] j; cbn [kids_ok]; try done.
  - destruct kids; [|done]. intros Hk Hlo Hhi. exists [], k, [], lo, hi.
    unfold lenZ. cbn. rewrite Z.add_0_r. split_and!; try done; constructor.
  - intros (it & Hx & Hk & Hks) Hlo Hhi. cbn [child_index].
    erewrite get_item_step by exact Hx. unfold geb. fold (leb (Score it) s).
    assert (Hc : Forall (entry (items t) (Some (Score it)) hi) (contents_of kids)).
    { apply (bst_contents _ (S h) _ _ (TNode 1 seps kids)). exact Hks. }
    destruct (leb (Score it) s) eqn:E.
    + destruct (IH _ _ (j + 1) Hks E Hhi)
        as (left & k' & right & lo' & hi' & -> & Ei & Hb & Hrep & Ha & Hb' & Hl & Hr).
      exists (k :: left), k', right, lo', hi'. split_and!; try done.
      * rewrite Ei. unfold lenZ. cbn [length]. do 2 f_equal. lia.
      * intros y Hy. exists it. auto.
      * apply Forall_app. split; [|done]. eapply Forall_impl; [by eapply bst_contents|].
        intros l (il & Hl' & _ & Hlt). exists il. split; [done|]. by eapply ltb_leb_trans.
    + assert (Hlt : ltb s (Score it) = true).
      { destruct (ltb_or_leb s (Score it)) as [|H]; [by eapply above_number| |done|congruence].
        by eapply gap_number, bst_gap. }
      exists [], k, kids, lo, (Some (Score it)). unfold lenZ. cbn. rewrite Z.add_0_r.
      split_and!; try done; [|constructor|].
      { intros y Hy. exists it. auto. }
      eapply Forall_impl; [exact Hc|]. intros l (il & Hl' & Ha & _). exists il. split; [done|].
      by eapply ltb_leb_trans.
Qed.

(** ** The leaf *)

Lemma find_leaf_ok h0 s t h fuel ctx x lo hi :
  (h < fuel)%nat → has (nodes t) (layout None None (fill ctx x)) →
  bst (items t) h lo hi x → (∀ y, bst (items t) h lo hi y → bst (items t) h0 None None (fill ctx y)) →
  above lo s → below s hi → all_lt (items t) (before ctx) s → all_gt (items t) s (after ctx) →
  ∃ ctx' l ls lo' hi',
    fill ctx x = fill ctx' (TLeaf l ls) ∧ length ctx' = (h + length ctx)%nat ∧
    find_leaf fuel s (root x) t = Ret (l, t) ∧
    bst (items t) 0 lo' hi' (TLeaf l ls) ∧
    (∀ y, bst (items t) 0 lo' hi' y → bst (items t) h0 None None (fill ctx' y)) ∧
    above lo' s ∧ below s hi' ∧
    all_lt (items t) (before ctx') s ∧ all_gt (items t) s (after ctx').
Proof.
  revert fuel ctx x lo hi. induction h as [|h IH]; intros [|fuel] ctx x lo hi Hf Hh Hx Hrep Hlo Hhi Hb Ha;
    try lia; pose proof (fill_top _ _ _ Hh) as Hn;
    destruct (top_fields (par_of ctx) (nxt_of ctx) x) as (El & _ & Ei & Ec);
    destruct x as [l ls|l seps kids]; try done; cbn [find_leaf root] in *;
    erewrite get_node_step by exact Hn; rewrite El; cbn [is_leaf].
  - exists ctx, l, ls, lo, hi. by split_and!.
  - cbn in Hx. destruct (child_index_ok h lo hi seps kids s t 0 Hx Hlo Hhi)
      as (left & k & right & lo' & hi' & -> & Eidx & Hk & Hkr & Hlo' & Hhi' & Hl & Hr).
    rewrite Ei, Ec. cbn [entries kids_of]. erewrite bind_step by exact Eidx.
    rewrite (nth_step _ _ (root k)); [|unfold lenZ; lia|].
    2: { unfold lenZ. rewrite Z.add_0_l, Nat2Z.id, fmap_app. apply list_lookup_middle. by rewrite length_fmap. }
    set (f := mkFrame l seps left right).
    destruct (IH fuel (f :: ctx) k lo' hi') as (ctx' & l' & ls' & lo3 & hi3 & E3 & L3 & F3 & R3); try done.
    + lia.
    + intros y Hy. cbn [fill]. by apply Hrep, Hkr.
    + cbn. apply Forall_app. by split.
    + cbn. apply Forall_app. by split.
    + exists ctx', l', ls', lo3, hi3. rewrite <- E3, F3. split_and!; try done; try apply R3.
      cbn in L3. lia.
Qed.

(** ** Fuel *)

Lemma layout_height its h lo hi tr par nxt :
  bst its h lo hi tr → (h < length (layout par nxt tr))%nat.
Proof.
  revert lo hi tr par nxt. induction h as [|h IH]; intros lo hi [l ls|l seps kids] par nxt; cbn [bst];
    try done.
  - cbn. lia.
  - intros H. rewrite layout_node. destruct kids as [|k kids]; [by destruct seps|].
    cbn [layout_kids length]. rewrite length_app.
    enough (h < length (layout (Some l) (first_of nxt kids) k))%nat by lia.
    destruct seps; cbn in H; [destruct kids; [|done]; eauto|]. destruct H as (it & _ & Hk & _). eauto.
Qed.

Lemma has_length t lay : has (nodes t) lay → (length lay <= size (nodes t))%nat.
Proof.
  intros [HN HF]. rewrite <- (length_fmap fst). apply NoDup_size; [done|].
  intros l Hl. apply list_elem_of_fmap in Hl as ([l' n] & -> & Hl).
  rewrite Forall_forall in HF. exists n. by apply (HF (l', n)).
Qed.

(** The descent from the root, with the fuel the operations give it. *)
Lemma find_leaf_root t tr s :
  good t tr → is_nan s = false →
  ∃ h0 ctx l ls lo hi,
    tr = fill ctx (TLeaf l ls) ∧ (length ctx < S (size (nodes t)))%nat ∧
    find_leaf (S (size (nodes t))) s (Root t) t = Ret (l, t) ∧
    Forall (entry (items t) lo hi) ls ∧ gap lo hi ∧
    (∀ y, bst (items t) 0 lo hi y → bst (items t) h0 None None (fill ctx y)) ∧
    above lo s ∧ below s hi ∧
    all_lt (items t) (before ctx) s ∧ all_gt (items t) s (after ctx).
Proof.
  intros [Hh Hr [h Hb] _] Hs.
  pose proof (layout_height _ _ _ _ _ None None Hb). pose proof (has_length _ _ Hh).
  destruct (find_leaf_ok h s t h (S (size (nodes t))) [] tr None None)
    as (ctx & l & ls & lo & hi & E & L & F & [Hl Hg] & R); try done; [lia|constructor|constructor|].
  cbn in E. subst tr.
  exists h, ctx, l, ls, lo, hi. rewrite Hr. split_and!; try done; try apply R. cbn in L. lia.
Qed.

(** ** Item pointers and items *)

Definition holds (its : gmap loc Item) : list loc → list Item → Prop :=
  Forall2 (λ l it, its !! l = Some it).

Definition asc (L : list Item) : Prop :=
  StronglySorted (λ a b, ltb (Score a) (Score b) = true) L.

Lemma holds_mono its its' ls L : its ⊆ its' → holds its ls L → holds its' ls L.
Proof. intros Hi H. eapply Forall2_impl; [exact H|]. intros l it Hl. cbn in *. by eapply lookup_weaken. Qed.

Lemma holds_ascending its ls L : holds its ls L → asc L → ascending its ls.
Proof.
  intros H Ha. induction H as [|l it ls L Hl H IH]; [constructor|].
  apply StronglySorted_inv in Ha as [Ha Hf]. constructor; [by apply IH|].
  clear IH Ha. induction H as [|l' it' ls L Hl' H IH]; constructor.
  - exists it, it'. split_and!; [done..|]. by apply Forall_cons_1 in Hf as [? _].
  - apply IH. by apply Forall_cons_1 in Hf as [_ ?].
Qed.

Lemma holds_lt its ls L s : holds its ls L → all_lt its ls s → Forall (λ x, ltb (Score x) s = true) L.
Proof.
  induction 1 as [|l it ls L Hl H IH]; intros Ha; constructor;
    apply Forall_cons_1 in Ha as [(i & Hi & ?) Ha]; [congruence|auto].
Qed.

Lemma holds_gt its ls L s : holds its ls L → all_gt its s ls → Forall (λ x, ltb s (Score x) = true) L.
Proof.
  induction 1 as [|l it ls L Hl H IH]; intros Ha; constructor;
    apply Forall_cons_1 in Ha as [(i & Hi & ?) Ha]; [congruence|auto].
Qed.

(** ** What the index holds *)

(** Strictly ascending scores: the precondition under which the separators of
    the code tell the leaves apart. *)
Definition tree_view (t : BTreeIndex) (L : list Item) : Prop :=
  2 <= Degree t ∧ asc L ∧ ∃ tr, good t tr ∧ holds (items t) (contents tr) L.

End BTreeSearch.
