(* ===== verification/BTreeSplit.v ===== *)
(** * Insertion into the B+ tree

    [splitNode] and [Add] of btree_index.go on trees whose scores are distinct:
    splitting keeps the store a well-formed tree with the same items, whatever
    the depth to which it propagates, and [Add] inserts at the place of the
    order. *)

From Stdlib Require Import ZArith Lia Ascii.
From Stdlib Require Import SpecFloat.
From stdpp Require Import base gmap list strings numbers sorting fin_maps sets.
From S2P Require Import Prelude GoFloat Item BTree BTreeQuery BTreeShape BTreeSearch.

Module BTreeSplit.
Import F64 Item BTree BTreeQuery BTreeShape BTreeSearch.

(** What [splitNode] does at the hole of a context. *)
Definition splits (m : loc → M unit) (ctx : list frame) : Prop :=
  ∀ t x, 2 <= Degree t → good t (fill ctx x) → entries x ≠ [] →
         ascending (items t) (contents (fill ctx x)) → keeps t (fill ctx x) (m (root x)).

(** ** The parent after a split *)

Lemma link_split_ok m ctx l left x right y1 y2 (a b : list loc) s C h0 r d ns its nl :
  2 <= d → (d - 1 < lenZ (a ++ b) + 1 → splits m ctx) → length a = length left → root y1 = root x →
  NoDup (l :: (root <$> (left ++ x :: right))) →
  let y := TNode l (a ++ s :: b) (left ++ y1 :: y2 :: right) in
  let node seps kids := mkNode seps (root <$> (left ++ kids ++ right)) false (par_of ctx) None in
  layout None None (fill ctx y) ≡ₚ C ++ (l, node (a ++ s :: b) [y1; y2]) ::
    layout_kids (Some l) (first_of (nxt_of ctx) right) [y1; y2] →
  has ns (C ++ (l, node (a ++ b) [x]) ::
    layout_kids (Some l) (first_of (nxt_of ctx) right) [y1; y2]) →
  r = root (fill ctx y) → bst its h0 None None (fill ctx y) → fresh (mkTree r d ns its nl) →
  ascending its (contents (fill ctx y)) →
  keeps (mkTree r d ns its nl) (fill ctx y) (link_split m l (root x) s (root y2)).
Proof.
  intros Hdeg Hrec Ha Hr Hnd y node Hlay Hhas Hroot Hbst Hfr Hasc. unfold link_split, keeps.
  apply NoDup_cons in Hnd as [_ Hnd]. rewrite <- Permutation_middle in Hhas.
  assert (Hp := has_lookup _ _ _ _ Hhas). erewrite get_node_step by exact Hp.
  unfold node. cbv zeta. cbn [Children Items app]. rewrite (index_of_kid x) by done.
  assert (Hla : lenZ left = lenZ a) by (unfold lenZ; lia).
  rewrite Hla, insert_at_step, fmap_app. cbn [fmap list_fmap].
  replace (lenZ a + 1) with (lenZ ((root <$> left) ++ [root x]))
    by (unfold lenZ; rewrite length_app, length_fmap; cbn; lia).
  rewrite (cons_middle (root x)), (app_assoc (root <$> left)), insert_at_step, set_node_step.
  set (p' := with_Children _ _).
  assert (Hp' : p' = node (a ++ s :: b) [y1; y2]).
  { unfold p', node, with_Children, with_Items. cbn. f_equal. rewrite fmap_app. cbn.
    by rewrite Hr, <- app_assoc. }
  set (t' := mkTree r d _ its nl).
  assert (Hgood : good t' (fill ctx y)).
  { split; [|done|by exists h0|by eapply fresh_set]. cbn.
    rewrite Hlay, <- Permutation_middle, <- Hp'. by eapply has_set. }
  rewrite get_degree_step. destruct (Z.ltb_spec (Degree t' - 1) (lenZ (a ++ s :: b))) as [Hd|].
  - assert (Hd' : d - 1 < lenZ (a ++ b) + 1).
    { unfold lenZ in *. rewrite length_app in *. cbn in Hd. lia. }
    destruct (Hrec Hd' t' y) as (t2 & tr2 & E & H); [done|done| |done|].
    + cbn. by destruct a.
    + exists t2, tr2. split; [exact E|exact H].
  - by exists t', (fill ctx y).
Qed.

(** ** Leaves *)

Lemma leaf_cut its lo hi ls s rs :
  Forall (entry its lo hi) (ls ++ s :: rs) → ascending its (ls ++ s :: rs) →
  ∃ it, its !! s = Some it ∧ Forall (entry its lo (Some (Score it))) ls ∧
        gap lo (Some (Score it)) ∧ Forall (entry its (Some (Score it)) hi) (s :: rs) ∧
        gap (Some (Score it)) hi.
Proof.
  intros HF HS. apply Forall_app in HF as [HL HR]. pose proof HR as HR'.
  apply Forall_cons_1 in HR' as [(it & Hs & Ha & Hb) HR'].
  exists it. unfold ascending in HS. assert (Hnn := above_number _ _ Ha).
  split_and!; [done| |by apply gap_above| |by apply gap_below].
  - rewrite Forall_forall in HL |- *. intros x Hx. destruct (HL x Hx) as (ix & Hix & Hlo & _).
    exists ix. split_and!; [done..|].
    destruct (StronglySorted_app_1_elem_of _ _ _ x s HS Hx ltac:(by left)) as (i1 & i2 & ? & ? & ?).
    cbn. congruence.
  - apply StronglySorted_app_1_r in HS. apply StronglySorted_inv in HS as [_ HS].
    constructor; [exists it; split_and!; [done|by apply leb_refl|done]|].
    rewrite Forall_forall in HR', HS |- *. intros x Hx. destruct (HR' x Hx) as (ix & Hix & _ & Hhi).
    exists ix. split_and!; [done| |done].
    destruct (HS x Hx) as (i1 & i2 & ? & ? & ?). cbn. apply ltb_leb. congruence.
Qed.

Lemma half_range {A} (ls : list A) : ls ≠ [] → 0 <= lenZ ls / 2 < lenZ ls.
Proof.
  intros H. assert (0 < lenZ ls) by (destruct ls; [done|unfold lenZ; cbn; lia]).
  split; [apply Z.div_pos; lia|apply Z.div_lt; lia].
Qed.

(** The two halves of a split, around the entry [s] in the middle. *)
Lemma half_cut {A} (ls : list A) (i := Z.to_nat (lenZ ls / 2)) :
  ls ≠ [] → ∃ s rs, drop i ls = s :: rs ∧ ls = take i ls ++ s :: rs ∧ ls !! i = Some s ∧
                    drop (S i) ls = rs.
Proof.
  intros Hne. pose proof (half_range ls Hne). destruct (drop i ls) as [|s rs] eqn:Ed.
  { apply (f_equal length) in Ed. rewrite length_drop in Ed. unfold i, lenZ in *. cbn in Ed. lia. }
  exists s, rs. split_and!; [done|by rewrite <- Ed, take_drop| |].
  - by rewrite <- (Nat.add_0_r i), <- lookup_drop, Ed.
  - replace (S i) with (i + 1)%nat by lia. by rewrite <- drop_drop, Ed.
Qed.

(** Replacing a child by its halves keeps the items. *)
Lemma contents_halves ctx l (seps seps' : list loc) left x y1 y2 right :
  contents_of [y1; y2] = contents x →
  contents (fill ctx (TNode l seps (left ++ y1 :: y2 :: right))) =
  contents (fill ctx (TNode l seps' (left ++ x :: right))).
Proof.
  intros E. rewrite !contents_fill, !contents_node. change (y1 :: y2 :: right) with ([y1; y2] ++ right).
  by rewrite !contents_of_app, E.
Qed.

Lemma splitLeaf_ok m ctx f l ls t :
  2 <= Degree t → (Degree t - 1 < lenZ (f_seps f) + 1 → splits m ctx) →
  good t (fill ctx (plug f (TLeaf l ls))) → ls ≠ [] →
  ascending (items t) (contents (fill ctx (plug f (TLeaf l ls)))) →
  keeps t (fill ctx (plug f (TLeaf l ls))) (splitLeaf m l).
Proof.
  intros Hdeg Hrec [Hhas Hroot [h0 Hbst] Hfr] Hne Hasc.
  destruct t as [r d ns its nl], f as [pl seps left right]. unfold plug in *. cbn in *.
  pose proof (kids_nodup _ _ _ _ _ Hhas) as Hnd.
  destruct (layout_frame ctx pl seps left [TLeaf l ls] right) as [C HC]; [done|].
  destruct (bst_frame its ctx h0 pl seps left [TLeaf l ls] right)
    as (h & a & m0 & b & lo & hi & -> & Ha & Hb & Hk & Hrep); [done|done|].
  destruct m0; [|by apply kids_length in Hk]. destruct h as [|h]; [|done]. destruct Hk as [Hk _].
  cbn [app] in *.
  pose proof (half_range ls Hne) as Hhalf. destruct (half_cut ls Hne) as (s & rs & Ed & Els & _).
  set (i := Z.to_nat (lenZ ls / 2)) in *.
  assert (Hasc' := ascending_fill its (mkFrame pl (a ++ b) left right :: ctx) (TLeaf l ls) Hasc).
  cbn in Hasc'.
  rewrite Els in Hk, Hasc'. destruct (leaf_cut _ _ _ _ _ _ Hk Hasc') as (it & Hs & Hl1 & Hg1 & Hl2 & Hg2).
  set (y1 := TLeaf l (take i ls)). set (y2 := TLeaf nl (s :: rs)).
  assert (Hc : contents (fill ctx (TNode pl (a ++ s :: b) (left ++ y1 :: y2 :: right))) =
               contents (fill ctx (TNode pl (a ++ b) (left ++ TLeaf l ls :: right)))).
  { apply contents_halves. cbn. by rewrite app_nil_r, <- Els. }
  assert (Hx := HC (a ++ b) [TLeaf l ls] ltac:(done) ltac:(done)). cbn [app] in Hx.
  rewrite Hx in Hhas. cbn in Hhas.
  assert (Hn : ns !! l = Some (mkNode ls [] true (Some pl) (first_of (nxt_of ctx) right)))
    by (eapply has_elem; [exact Hhas|set_solver]).
  assert (Hnew := fresh_none _ _ _ _ _ Hfr).
  assert (Hlnl : l ≠ nl) by congruence.
  eapply keeps_from; [| |exact Hc|..].
  { unfold splitLeaf. erewrite get_node_step by exact Hn. cbv zeta. cbn [Items Parent Next].
    rewrite from_step, upto_step by lia. fold i. rewrite Ed.
    rewrite alloc_node_step, set_node_step, deref_step.
    rewrite (nth_step (s :: rs) 0 s) by (lia || done). reflexivity. }
  { apply (link_split_ok m ctx pl left (TLeaf l ls) right y1 y2 a b s C h0); try done.
    - by apply (HC (a ++ s :: b) [y1; y2]).
    - apply (has_alloc _ nl (mkNode (s :: rs) [] true (Some pl) (first_of (nxt_of ctx) right)))
        in Hhas; [|done].
      rewrite (cons_middle _ C), app_assoc, app_comm_cons in Hhas.
      eapply has_mp; [eapply has_set_mid, Hhas|]. cbn. solve_Permutation.
    - rewrite Hroot. by apply root_fill.
    - apply (Hrep [s] [y1; y2]). exists it. done.
    - eapply fresh_set; [|by eapply fresh_alloc]. rewrite lookup_insert_ne; [exact Hn|done].
    - by rewrite Hc. }
  all: done.
Qed.

(** ** Internal nodes *)

(** What [splitInternal] does before it reaches the parent. *)
Lemma splitInternal_run m l seps ks p s r d ns its nl ns' (i := Z.to_nat (lenZ seps / 2)) :
  ns !! l = Some (mkNode seps ks false (Some p) None) → length ks = S (length seps) → seps ≠ [] →
  seps !! i = Some s →
  for_each (λ c, upd_node c (λ n, with_Parent n (Some nl))) (drop (S i) ks)
    (mkTree r d (<[l := mkNode (take i seps) (take (S i) ks) false (Some p) None]>
                  (<[nl := mkNode (drop (S i) seps) (drop (S i) ks) false (Some p) None]> ns))
            its (Pos.succ nl)) = Ret (tt, mkTree r d ns' its (Pos.succ nl)) →
  splitInternal m l (mkTree r d ns its nl) =
  link_split m p l s nl (mkTree r d ns' its (Pos.succ nl)).
Proof.
  intros Hn Hl Hne Es E. pose proof (half_range seps Hne). unfold splitInternal.
  erewrite get_node_step by exact Hn. cbv zeta. cbn [Items Children Parent Next].
  rewrite (nth_step seps _ s) by (done || lia).
  rewrite !from_step, !upto_step by (unfold lenZ in *; lia).
  replace (Z.to_nat (lenZ seps / 2 + 1)) with (S i) by (unfold i; lia). fold i.
  rewrite alloc_node_step, set_node_step. erewrite bind_step by exact E.
  by rewrite deref_step.
Qed.

Lemma splitInternal_ok m ctx f l seps kids t :
  2 <= Degree t → (Degree t - 1 < lenZ (f_seps f) + 1 → splits m ctx) →
  good t (fill ctx (plug f (TNode l seps kids))) → seps ≠ [] →
  ascending (items t) (contents (fill ctx (plug f (TNode l seps kids)))) →
  keeps t (fill ctx (plug f (TNode l seps kids))) (splitInternal m l).
Proof.
  intros Hdeg Hrec [Hhas Hroot [h0 Hbst] Hfr] Hne Hasc.
  destruct t as [r d ns its nl], f as [pl pseps left right]. unfold plug in *. cbn [f_loc f_seps f_left f_right nodes items Root] in *.
  pose proof (kids_nodup _ _ _ _ _ Hhas) as Hnd.
  set (x := TNode l seps kids) in *.
  destruct (layout_frame ctx pl pseps left [x] right) as [C HC]; [done|].
  destruct (bst_frame its ctx h0 pl pseps left [x] right)
    as (h & a & m0 & b & lo & hi & -> & Ha & Hb & Hk & Hrep); [done|done|].
  destruct m0; [|by apply kids_length in Hk]. destruct h as [|h]; [done|]. cbn in Hk.
  cbn [app] in *. pose proof (kids_length _ _ _ _ _ _ Hk) as Hlen.
  pose proof (half_range seps Hne) as Hhalf.
  destruct (half_cut seps Hne) as (s & rs & _ & Eseps & Es & Er).
  set (i := Z.to_nat (lenZ seps / 2)) in *.
  assert (Ekids : kids = take (S i) kids ++ drop (S i) kids) by (by rewrite take_drop).
  assert (Hk' := Hk). rewrite Eseps, Ekids in Hk'.
  apply kids_unjoin in Hk' as (it & Hs & Hk1 & Hk2);
    [|rewrite !length_take; unfold i, lenZ in *; lia].
  set (y1 := TNode l (take i seps) (take (S i) kids)).
  set (y2 := TNode nl rs (drop (S i) kids)).
  assert (Hc : contents (fill ctx (TNode pl (a ++ s :: b) (left ++ y1 :: y2 :: right))) =
               contents (fill ctx (TNode pl (a ++ b) (left ++ x :: right)))).
  { apply contents_halves. unfold x, y1, y2. unfold contents_of at 1. cbn [fmap list_fmap concat].
    rewrite !contents_node, app_nil_r.
    by rewrite <- contents_of_app, <- Ekids. }
  assert (Hx := HC (a ++ b) [x] ltac:(done) ltac:(done)). cbn [app] in Hx.
  apply (has_mp _ _ _ Hhas) in Hx as Hh. cbn [layout_kids] in Hh. unfold x in Hh at 2.
  rewrite layout_node, app_nil_r in Hh. set (nx := first_of (nxt_of ctx) right) in *.
  cbn [first_of] in Hh. rewrite Ekids in Hh at 2. rewrite layout_kids_app in Hh.
  assert (Hfirst : first_of nx (drop (S i) kids) = Some (leftmost y2)).
  { apply kids_length in Hk2. unfold y2. by destruct (drop (S i) kids). }
  rewrite Hfirst in Hh. set (K1 := take (S i) kids) in *. set (K2 := drop (S i) kids) in *.
  assert (Hn : ns !! l = Some (mkNode seps (root <$> kids) false (Some pl) None))
    by (eapply has_elem; [exact Hh|set_solver]).
  assert (Hnew := fresh_none _ _ _ _ _ Hfr).
  assert (Hlnl : l ≠ nl) by congruence.
  apply (has_alloc _ nl (mkNode rs (root <$> K2) false (Some pl) None)) in Hh; [|done].
  rewrite (cons_middle _ C), app_assoc, app_comm_cons in Hh.
  apply (has_set_mid _ _ _ _ (mkNode (take i seps) (root <$> K1) false (Some pl) None)) in Hh.
  apply (fresh_alloc _ _ _ _ _ (mkNode rs (root <$> K2) false (Some pl) None)) in Hfr.
  eapply fresh_set in Hfr; [|rewrite lookup_insert_ne; [exact Hn|done]].
  rewrite (cons_middle _ (_ :: C ++ _)), !app_assoc in Hh.
  destruct (reparent_ok nl _ _ _ _ _ _ _ _ _ Hh Hfr) as (ns' & E & Hh' & Hf').
  eapply keeps_from; [| |exact Hc|..].
  { eapply (splitInternal_run m l); [exact Hn|by rewrite length_fmap|done|exact Es|].
    fold i. rewrite Er, <- !fmap_drop, <- !fmap_take. exact E. }
  { apply (link_split_ok m ctx pl left x right y1 y2 a b s C h0); try done.
    - apply (HC (a ++ s :: b) [y1; y2]); [done|]. unfold y1, x. rewrite Ekids. cbn.
      unfold K1. by destruct kids.
    - eapply has_mp; [exact Hh'|]. cbn [layout_kids first_of]. unfold y1, y2. rewrite !layout_node.
      fold nx. cbn [app]. rewrite app_nil_r. solve_Permutation.
    - rewrite Hroot. by apply root_fill.
    - apply (Hrep [s] [y1; y2]). exists it. done.
    - by rewrite Hc. }
  all: done.
Qed.

(** ** [splitNode] *)

Lemma split_dispatch m ctx f x t :
  2 <= Degree t → (Degree t - 1 < lenZ (f_seps f) + 1 → splits m ctx) →
  good t (fill ctx (plug f x)) → entries x ≠ [] →
  ascending (items t) (contents (fill ctx (plug f x))) →
  keeps t (fill ctx (plug f x))
    (if is_leaf x then splitLeaf m (root x) else splitInternal m (root x)).
Proof. destruct x; [apply splitLeaf_ok|apply splitInternal_ok]. Qed.

(** A new root over the old one. *)
Lemma splitRoot_ok m t x :
  2 <= Degree t → good t x → entries x ≠ [] → ascending (items t) (contents x) →
  keeps t x (splitRoot m).
Proof.
  intros Hd [Hhas Hroot [h0 Hbst] Hfr] Hne Hasc. destruct t as [r d ns its nl]. cbn in *. subst r.
  assert (Hnew := fresh_none _ _ _ _ _ Hfr). set (f := mkFrame nl [] [] []).
  rewrite layout_top in Hhas. assert (Hx := has_lookup _ _ _ _ Hhas).
  assert (Hne' : root x ≠ nl) by congruence.
  set (n0 := mkNode [] [] false None None).
  apply (has_alloc _ nl n0) in Hhas; [|done].
  apply (has_set_mid _ [_] _ _ (top (Some nl) None x)) in Hhas.
  apply (has_set _ _ _ (mkNode [] [root x] false None None)) in Hhas.
  assert (Hc : contents (plug f x) = contents x).
  { rewrite contents_plug. cbn. by rewrite app_nil_r. }
  eapply (keeps_from (mkTree nl d (<[nl := mkNode [] [root x] false None None]>
                        (<[root x := top (Some nl) None x]> (<[nl := n0]> ns))) its (Pos.succ nl))
                     (plug f x)); [|apply (split_dispatch m [] f x)|done..].
  { unfold splitRoot. rewrite get_root_step, alloc_node_step, set_root_step. cbn [Root].
    erewrite upd_node_step by (rewrite lookup_insert_ne; [exact Hx|done]). rewrite top_parent.
    erewrite upd_node_step by (rewrite lookup_insert_ne, lookup_insert_eq; done).
    erewrite get_node_step by (cbn; rewrite lookup_insert_ne, lookup_insert_eq; done).
    rewrite (proj1 (top_fields _ _ x)). unfold n0, with_Children. cbn. destruct (is_leaf x); reflexivity. }
  all: cbn [fill Degree items f_seps f]; try done.
  - unfold lenZ. cbn. lia.
  - split; cbn [Root nodes items plug root f f_loc]; [|done| |].
    + unfold plug. rewrite layout_node. cbn. rewrite app_nil_r, layout_top. exact Hhas.
    + exists (S h0). cbn. exact Hbst.
    + eapply fresh_set; [rewrite lookup_insert_ne, lookup_insert_eq; done|].
      eapply fresh_set; [rewrite lookup_insert_ne; [exact Hx|done]|].
      eapply fresh_root. by eapply fresh_alloc.
  - by rewrite Hc.
Qed.

Lemma splitNode_ok fuel ctx : (length ctx < fuel)%nat → splits (splitNode fuel) ctx.
Proof.
  revert ctx. induction fuel as [|fuel IH]; intros ctx Hf; [lia|].
  intros t x Hd Hg Hne Hasc. pose proof (fill_top _ _ _ (good_has _ _ Hg)) as Hx.
  destruct (top_fields (par_of ctx) (nxt_of ctx) x) as (Hl & Hp & _).
  destruct ctx as [|f ctx]; cbn [fill par_of] in *.
  - eapply (keeps_from t); [|by eapply (splitRoot_ok (splitNode fuel))|done..].
    cbn [splitNode]. erewrite get_node_step by exact Hx. by rewrite Hp.
  - eapply (keeps_from t); [|eapply (split_dispatch (splitNode fuel) ctx f x); try done|done..].
    + cbn [splitNode]. erewrite get_node_step by exact Hx. rewrite Hp, Hl. by destruct (is_leaf x).
    + intros _. apply IH. cbn in Hf. lia.
Qed.

(** ** [Add] *)

Lemma find_member_none t member ls L :
  holds (items t) ls L → member ∉ Member <$> L → find_member member ls t = Ret (None, t).
Proof.
  induction 1 as [|l it ls L Hl H IH]; intros Hm; cbn [find_member]; [done|].
  cbn in Hm. apply not_elem_of_cons in Hm as [Hne Hm].
  erewrite get_item_step by exact Hl. rewrite decide_False by done. auto.
Qed.

(** The loop that looks for the position and the list insertion agree. *)
Lemma insert_pos_ok it t ls L k :
  holds (items t) ls L →
  ∃ a b A B, ls = a ++ b ∧ L = A ++ B ∧ length a = length A ∧
    insert_pos it ls k t = Ret (k + lenZ a, t) ∧ insert_item it L = A ++ it :: B.
Proof.
  intros H. revert k. induction H as [|l x ls L Hl H IH]; intros k; cbn [insert_pos insert_item].
  - exists [], [], [], []. unfold lenZ. cbn. by rewrite Z.add_0_r.
  - erewrite get_item_step by exact Hl. destruct (0 <? CompareTo it x).
    + destruct (IH (k + 1)) as (a & b & A & B & -> & -> & Hlen & E & Ei).
      exists (l :: a), b, (x :: A), B. split_and!; [done|done|cbn; lia| |by rewrite Ei].
      rewrite E. unfold lenZ. cbn [length]. do 2 f_equal. lia.
    + exists [], (l :: ls), [], (x :: L). unfold lenZ. cbn. by rewrite Z.add_0_r.
Qed.

Lemma CompareTo_lower a b : ltb (Score a) (Score b) = true → CompareTo a b = -1 ∧ CompareTo b a = 1.
Proof.
  intros H. unfold CompareTo, gtb. fold (ltb (Score a) (Score b)) (ltb (Score b) (Score a)).
  rewrite H. split; [done|]. destruct (ltb (Score b) (Score a)) eqn:E; [|done].
  apply ltb_not_leb in H. apply ltb_leb in E. congruence.
Qed.

(** Items with smaller scores before and larger ones after do not matter. *)
Lemma insert_item_between it A L B :
  Forall (λ x, ltb (Score x) (Score it) = true) A →
  Forall (λ x, ltb (Score it) (Score x) = true) B →
  insert_item it (A ++ L ++ B) = A ++ insert_item it L ++ B.
Proof.
  intros HA HB. induction HA as [|x A Hx HA IH]; cbn.
  - induction L as [|y L IH]; cbn.
    + destruct HB as [|b B Hb HB]; [done|]. cbn. by rewrite (proj1 (CompareTo_lower _ _ Hb)).
    + by destruct (0 <? CompareTo it y); [rewrite IH|].
  - rewrite (proj2 (CompareTo_lower _ _ Hx)). cbn. by rewrite IH.
Qed.

Lemma insert_item_asc it L :
  asc L → is_nan (Score it) = false →
  Forall (λ x, is_nan (Score x) = false ∧ eqb (Score it) (Score x) = false) L →
  asc (insert_item it L).
Proof.
  intros Ha Hn. induction Ha as [|x L Ha IH Hx]; intros HF; cbn.
  { repeat constructor. }
  apply Forall_cons_1 in HF as [[Hnx Hne] HF].
  destruct (0 <? CompareTo it x) eqn:E.
  - constructor; [by apply IH|]. rewrite ItemFacts.insert_item_perm. constructor; [|done].
    destruct (ltb_or_eqb (Score x) (Score it)) as [|[|]]; try done.
    + rewrite eqb_sym in H. congruence.
    + by rewrite (proj1 (CompareTo_lower _ _ H)) in E.
  - assert (Hlt : ltb (Score it) (Score x) = true).
    { destruct (ltb_or_eqb (Score it) (Score x)) as [|[|]]; try done; [congruence|].
      by rewrite (proj2 (CompareTo_lower _ _ H)) in E. }
    constructor; [by constructor|]. constructor; [done|].
    eapply Forall_impl; [exact Hx|]. cbn. intros y Hy. eapply ltb_leb_trans; [exact Hlt|].
    by apply ltb_leb.
Qed.

(** Allocating an item leaves the tree alone. *)
Lemma good_alloc_item r d ns its nl it tr :
  good (mkTree r d ns its nl) tr →
  its ⊆ <[nl := it]> its ∧ good (mkTree r d ns (<[nl := it]> its) (Pos.succ nl)) tr.
Proof.
  intros [Hh Hr [h Hb] Hf]. assert (Hs : its ⊆ <[nl := it]> its).
  { apply insert_subseteq. apply (Hf nl). cbn. lia. }
  split; [done|]. split; [done|done|exists h; by eapply bst_mono|].
  intros l Hl. cbn in *. destruct (Hf l) as [H1 H2]; cbn in *; [lia|]. split; [done|].
  rewrite lookup_insert_ne; [done|lia].
Qed.

(** Writing the leaf the descent found. *)
Lemma good_set_leaf r d ns its nl ctx h0 l ls ls' lo hi :
  good (mkTree r d ns its nl) (fill ctx (TLeaf l ls)) →
  (∀ y, bst its 0 lo hi y → bst its h0 None None (fill ctx y)) →
  Forall (entry its lo hi) ls' → gap lo hi →
  ns !! l = Some (mkNode ls [] true (par_of ctx) (nxt_of ctx)) ∧
  good (mkTree r d (<[l := mkNode ls' [] true (par_of ctx) (nxt_of ctx)]> ns) its nl)
       (fill ctx (TLeaf l ls')).
Proof.
  intros [Hh Hr _ Hf] Hrep Hls Hg. cbn in *. pose proof (fill_top _ _ _ Hh) as Hn.
  split; [exact Hn|]. split; cbn.
  - destruct (layout_fill ctx (TLeaf l ls)) as [C HC]. rewrite HC in Hh |- * by done.
    by eapply has_set_mid.
  - rewrite Hr. by apply root_fill.
  - exists h0. by apply Hrep.
  - by eapply fresh_set.
Qed.

Lemma tree_add t L s m :
  tree_view t L → is_nan s = false → Forall (λ x, is_nan (Score x) = false) L →
  Forall (λ x, eqb s (Score x) = false) L → m ≠ [] → m ∉ Member <$> L →
  ∃ t', Add s m t = Ret (1, t') ∧ tree_view t' (insert_item (mkItem s m) L).
Proof.
  intros (Hd & Hasc & tr & Hg & HL) Hs Hnan Hadm Hm Hnew. set (it := mkItem s m).
  destruct t as [r d ns its nl]. cbn in Hd, HL.
  destruct (good_alloc_item _ _ _ _ _ it _ Hg) as [Hsub Hg1].
  apply (holds_mono _ _ _ _ Hsub) in HL. set (its1 := <[nl := it]> its) in *.
  assert (Hit : its1 !! nl = Some it) by apply lookup_insert_eq.
  destruct (find_leaf_root _ _ s Hg1 Hs)
    as (h0 & ctx & l & ls & lo & hi & -> & Hfuel & Efind & Hls & Hgap & Hrep & Hlo & Hhi & Hlt & Hgt).
  cbn [nodes items Root] in *. rewrite contents_fill in HL.
  apply Forall2_app_inv_l in HL as (A & L' & HA & HL & ->).
  apply Forall2_app_inv_l in HL as (V & B & HV & HB & ->). cbn [contents] in HV.
  destruct (insert_pos_ok it (mkTree r d ns its1 (Pos.succ nl)) ls V 0 HV)
    as (a & b & VA & VB & -> & -> & Hlen & Epos & Eins).
  destruct (good_set_leaf _ _ _ _ _ _ _ _ _ (a ++ nl :: b) _ _ Hg1 Hrep) as [Hn Hg2]; [|done|].
  { apply Forall_app in Hls as [? ?]. apply Forall_app. split; [done|]. constructor; [|done].
    by exists it. }
  set (t2 := mkTree r d _ its1 _) in Hg2.
  assert (Hbetween : insert_item it (A ++ (VA ++ VB) ++ B) = A ++ (VA ++ it :: VB) ++ B).
  { rewrite insert_item_between, Eins; [done|by eapply holds_lt|by eapply holds_gt]. }
  assert (Hasc2 : asc (insert_item it (A ++ (VA ++ VB) ++ B))).
  { apply insert_item_asc; [done|done|]. rewrite Forall_forall in Hnan, Hadm |- *. auto. }
  assert (HL2 : holds its1 (contents (fill ctx (TLeaf l (a ++ nl :: b))))
                     (insert_item it (A ++ (VA ++ VB) ++ B))).
  { rewrite Hbetween, contents_fill. repeat (apply Forall2_app; [done|]).
    apply Forall2_app; [|done]. apply Forall2_app_inv in HV as [? ?]; [|done].
    apply Forall2_app; [done|]. by constructor. }
  assert (Hkeep : keeps t2 (fill ctx (TLeaf l (a ++ nl :: b)))
            (if d - 1 <? lenZ (a ++ nl :: b) then splitNode (S (size ns)) l else mret tt)).
  { destruct (d - 1 <? _); [|by exists t2, (fill ctx (TLeaf l (a ++ nl :: b)))].
    apply (splitNode_ok _ ctx Hfuel t2 (TLeaf l (a ++ nl :: b))); [done|done|by destruct a|].
    eapply holds_ascending; [exact HL2|exact Hasc2]. }
  destruct Hkeep as (t3 & tr3 & E3 & Hg3 & Hc3 & Hi3 & Hd3).
  exists t3. split.
  - unfold Add. erewrite bind_step by reflexivity. rewrite decide_False by done.
    erewrite bind_step by reflexivity. rewrite get_root_step.
    erewrite bind_step by exact Efind. erewrite get_node_step by exact Hn. cbn [Items].
    erewrite bind_step.
    2: { eapply find_member_none; [exact HV|]. rewrite !fmap_app in *. set_solver. }
    cbv beta iota. erewrite bind_step by exact Epos. rewrite Z.add_0_l, insert_at_step, set_node_step, get_degree_step.
    erewrite bind_step by exact E3. done.
  - split_and!; [by rewrite Hd3|exact Hasc2|]. exists tr3. split; [exact Hg3|].
    rewrite Hi3, Hc3. exact HL2.
Qed.

End BTreeSplit.
