(* ===== verification/BTreeMerge.v ===== *)
(** * Deletion from the B+ tree

    [handleUnderflow] with its borrowing and merging branches and
    [RemoveByScore] of btree_index.go: on a tree with distinct scores every
    branch keeps the store a well-formed tree with the same items, also when a
    chain of merges reaches the root and the tree loses a level. *)

From Stdlib Require Import ZArith Lia Ascii.
From Stdlib Require Import SpecFloat.
From stdpp Require Import base gmap list strings numbers sorting fin_maps sets.
From S2P Require Import Prelude GoFloat Item BTree BTreeQuery BTreeShape BTreeSearch BTreeSplit.

Module BTreeMerge.
Import F64 Item BTree BTreeQuery BTreeShape BTreeSearch BTreeSplit.

(** ** Two neighbouring children of a node *)

Section Pair.
Context (ctx : list frame) (pl : loc) (left right : list tree).

Definition nx : option loc := first_of (nxt_of ctx) right.
Definition parent (seps : list loc) (mid : list tree) : BTreeNode :=
  mkNode seps ((root <$> left) ++ (root <$> mid) ++ (root <$> right)) false (par_of ctx) None.
Definition whole (seps : list loc) (mid : list tree) : tree :=
  fill ctx (TNode pl seps (left ++ mid ++ right)).

(** What the store holds around the pair, and what may replace it. *)
Record pair (its : gmap loc Item) (h0 h : nat) (a b : list loc) (s : loc) (it : Item)
    (lo hi : bound) (L R : tree) (C : list (loc * BTreeNode)) : Prop := {
  pair_sep : its !! s = Some it;
  pair_left : bst its h lo (Some (Score it)) L;
  pair_right : bst its h (Some (Score it)) hi R;
  pair_a : length a = length left;
  pair_b : length b = length right;
  pair_bst m' mid' : kids_ok its (bst its h) lo hi m' mid' →
    bst its h0 None None (whole (a ++ m' ++ b) mid');
  pair_layout seps mid' : mid' ≠ [] → first_of None mid' = Some (leftmost L) →
    layout None None (whole seps mid') ≡ₚ
    C ++ (pl, parent seps mid') :: layout_kids (Some pl) nx mid'
}.

Lemma pair_facts its h0 h a b s it lo hi L R C :
  pair its h0 h a b s it lo hi L R C →
  its !! s = Some it ∧ bst its h lo (Some (Score it)) L ∧ bst its h (Some (Score it)) hi R ∧
  length a = length left.
Proof. by intros []. Qed.

Lemma pair_open r d ns its nl seps L R :
  good (mkTree r d ns its nl) (whole seps [L; R]) →
  ∃ h0 h a b s it lo hi C,
    seps = a ++ s :: b ∧ pair its h0 h a b s it lo hi L R C ∧
    has ns ((pl, parent (a ++ s :: b) [L; R]) :: (root L, top (Some pl) (Some (leftmost R)) L) ::
            (root R, top (Some pl) nx R) :: C ++ rest (Some (leftmost R)) L ++ rest nx R).
Proof.
  intros [Hh Hr [h0 Hb] Hf]. unfold whole in *.
  destruct (bst_frame its ctx h0 pl seps left [L; R] right)
    as (h & a & m & b & lo & hi & -> & Ha & Hlb & Hk & Hrep); [done|done|].
  destruct (layout_frame ctx pl (a ++ m ++ b) left [L; R] right) as [C HC]; [done|].
  pose proof (kids_length _ _ _ _ _ _ Hk) as Hl. destruct m as [|s [|]]; try done.
  destruct Hk as (it & Hs & HL & HR).
  exists h0, h, a, b, s, it, lo, hi, C. split; [done|]. split.
  - split; try done. intros seps mid' Hm Hfst. unfold parent.
    rewrite (HC seps mid' Hm Hfst). by rewrite !fmap_app.
  - pose proof (has_mp _ _ _ Hh (HC (a ++ [s] ++ b) [L; R] ltac:(done) ltac:(done))) as H.
    eapply has_mp; [exact H|]. cbn [layout_kids first_of]. rewrite app_nil_r, !layout_top.
    rewrite !fmap_app. cbn [app]. solve_Permutation.
Qed.

(** The pair after a change. *)
Lemma pair_close r d ns' its nl h0 h a b s it lo hi L R C m' mid' :
  pair its h0 h a b s it lo hi L R C → r = root (whole (a ++ s :: b) [L; R]) →
  mid' ≠ [] → first_of None mid' = Some (leftmost L) → kids_ok its (bst its h) lo hi m' mid' →
  has ns' (C ++ (pl, parent (a ++ m' ++ b) mid') :: layout_kids (Some pl) nx mid') →
  fresh (mkTree r d ns' its nl) →
  good (mkTree r d ns' its nl) (whole (a ++ m' ++ b) mid').
Proof.
  intros Hp Hr Hm Hf Hk Hh Hfr. split; cbn.
  - by rewrite (pair_layout _ _ _ _ _ _ _ _ _ _ _ _ Hp).
  - rewrite Hr. unfold whole. by apply root_fill.
  - exists h0. by apply (pair_bst _ _ _ _ _ _ _ _ _ _ _ _ Hp).
  - done.
Qed.

Lemma whole_contents seps seps' mid mid' :
  contents_of mid = contents_of mid' → contents (whole seps mid) = contents (whole seps' mid').
Proof.
  intros E. unfold whole. by rewrite !contents_fill, !contents_node, !contents_of_app, E.
Qed.

(** ** Borrowing *)

Lemma last_index_app {A} (xs : list A) x : last_index (xs ++ [x]) = lenZ xs.
Proof. unfold last_index, lenZ. rewrite length_app. cbn. lia. Qed.

Lemma upto_app_step {A B} (xs : list A) x (f : list A → M B) t :
  (upto (xs ++ [x]) (lenZ xs) ≫= f) t = f xs t.
Proof.
  rewrite upto_step by (unfold lenZ; rewrite length_app; cbn; lia).
  unfold lenZ. by rewrite Nat2Z.id, take_app_length.
Qed.

(** What a computation leaves behind when it rewrites the pair. *)
Lemma pair_keeps r d ns ns' its nl h0 h a b s it lo hi L R C s' L' R' (m : M unit) :
  pair its h0 h a b s it lo hi L R C → r = root (whole (a ++ s :: b) [L; R]) →
  m (mkTree r d ns its nl) = Ret (tt, mkTree r d ns' its nl) →
  leftmost L' = leftmost L → kids_ok its (bst its h) lo hi [s'] [L'; R'] →
  has ns' ((pl, parent (a ++ s' :: b) [L'; R']) :: (root L', top (Some pl) (Some (leftmost R')) L') ::
           (root R', top (Some pl) nx R') :: C ++ rest (Some (leftmost R')) L' ++ rest nx R') →
  fresh (mkTree r d ns' its nl) →
  contents L' ++ contents R' = contents L ++ contents R →
  keeps (mkTree r d ns its nl) (whole (a ++ s :: b) [L; R]) m.
Proof.
  intros Hp Hr Hm Hl Hk Hh Hf Hc. eexists _, (whole (a ++ [s'] ++ b) [L'; R']).
  split; [exact Hm|]. split_and!; [|..|done|done].
  - eapply pair_close; try done.
    + cbn. by rewrite Hl.
    + eapply has_mp; [exact Hh|]. cbn [layout_kids first_of app].
      rewrite app_nil_r, !layout_top. cbn [app]. solve_Permutation.
  - apply whole_contents. unfold contents_of. cbn. by rewrite !app_nil_r.
Qed.

Lemma has3 ns a na b nb c nc Z :
  has ns ((a, na) :: (b, nb) :: (c, nc) :: Z) →
  ns !! a = Some na ∧ ns !! b = Some nb ∧ ns !! c = Some nc ∧ a ≠ b ∧ a ≠ c ∧ b ≠ c.
Proof.
  intros H. split_and!; [by eapply has_elem; [exact H|set_solver]..| | |];
    destruct H as [HN _]; cbn in HN; rewrite !NoDup_cons in HN; set_solver.
Qed.

Lemma has4 ns a na b nb c nc e ne Z :
  has ns ((a, na) :: (b, nb) :: (c, nc) :: (e, ne) :: Z) →
  ns !! e = Some ne ∧ a ≠ e ∧ b ≠ e ∧ c ≠ e.
Proof.
  intros H. split; [by eapply has_elem; [exact H|set_solver]|].
  destruct H as [HN _]. cbn in HN. rewrite !NoDup_cons in HN. set_solver.
Qed.

Ltac fresh_tac :=
  cbn [nodes]; repeat (eapply fresh_set; [rewrite ?lookup_insert_ne by done; eassumption|]); assumption.

Lemma borrow_left_leaf l1 l2 xs x ys seps t :
  let L := TLeaf l1 (xs ++ [x]) in let R := TLeaf l2 ys in
  good t (whole seps [L; R]) → ascending (items t) (contents L) →
  keeps t (whole seps [L; R]) (borrowFromLeftSibling l2 l1 (lenZ left)).
Proof.
  intros L R Hg Hasc. subst L R. destruct t as [r d ns its nl].
  pose proof (good_root _ _ Hg) as Hr. pose proof (good_fresh _ _ Hg) as Hfr.
  destruct (pair_open _ _ _ _ _ _ _ _ Hg) as (h0 & h & a & b & s & it & lo & hi & C & -> & Hp & Hh).
  pose proof (pair_facts _ _ _ _ _ _ _ _ _ _ _ _ Hp) as (Hs & HL & HR & Ha).
  destruct h as [|h]; [|done]. destruct HL as [HL HgL], HR as [HR HgR].
  destruct (leaf_cut _ _ _ _ _ _ HL Hasc) as (ix & Hx & HL1 & Hg1 & HL2 & Hg2).
  destruct (has3 _ _ _ _ _ _ _ _ Hh) as (Hpl & Hl1 & Hl2 & N1 & N2 & N3).
  apply (has_set_mid _ [_] _ _ (mkNode xs [] true (Some pl) (Some l2))) in Hh.
  apply (has_set_mid _ [_; _] _ _ (mkNode (x :: ys) [] true (Some pl) nx)) in Hh.
  apply (has_set _ _ _ (parent (a ++ x :: b) [TLeaf l1 xs; TLeaf l2 ys])) in Hh.
  eapply (pair_keeps _ _ _ _ _ _ _ _ _ _ _ _ _ _ _ _ _ x (TLeaf l1 xs) (TLeaf l2 (x :: ys)) _ Hp);
    [exact Hr| |done| |exact Hh| |].
  - unfold borrowFromLeftSibling. do 2 (erewrite get_node_step by done). cbn [Parent Items IsLeaf top].
    rewrite deref_step, last_index_app, nth_mid_step, upto_app_step, set_node_step.
    erewrite upd_node_step by (rewrite lookup_insert_ne by done; exact Hl2).
    erewrite get_node_step by (cbn; rewrite !lookup_insert_ne by done; exact Hpl).
    unfold parent at 1. cbn [Items]. rewrite (set_nth_step a s x b) by (unfold lenZ; lia).
    done.
  - exists ix. split_and!; [done..|]. split; [|by eapply gap_trans].
    apply Forall_cons_1 in HL2 as [Hx2 _]. constructor; [by eapply entry_down|].
    eapply Forall_impl; [exact HR|]. intros y Hy. by eapply entry_up.
  - fresh_tac.
  - cbn. by rewrite <- app_assoc.
Qed.

Lemma from_one_step {A B} (x : A) xs (f : list A → M B) t : (from (x :: xs) 1 ≫= f) t = f xs t.
Proof. rewrite from_step; [done|]. unfold lenZ. cbn. lia. Qed.

Lemma nth_zero_step {A B} (x : A) xs (f : A → M B) t : (nth (x :: xs) 0 ≫= f) t = f x t.
Proof. by apply nth_step. Qed.

Lemma borrow_right_leaf l1 l2 xs y y' ys seps t :
  let L := TLeaf l1 xs in let R := TLeaf l2 (y :: y' :: ys) in
  good t (whole seps [L; R]) → ascending (items t) (contents R) →
  keeps t (whole seps [L; R]) (borrowFromRightSibling l1 l2 (lenZ left)).
Proof.
  intros L R Hg Hasc. subst L R. destruct t as [r d ns its nl].
  pose proof (good_root _ _ Hg) as Hr. pose proof (good_fresh _ _ Hg) as Hfr.
  destruct (pair_open _ _ _ _ _ _ _ _ Hg) as (h0 & h & a & b & s & it & lo & hi & C & -> & Hp & Hh).
  pose proof (pair_facts _ _ _ _ _ _ _ _ _ _ _ _ Hp) as (Hs & HL & HR & Ha).
  destruct h as [|h]; [|done]. destruct HL as [HL HgL], HR as [HR HgR].
  destruct (leaf_cut _ _ _ [y] y' ys HR Hasc) as (ix & Hx & HR1 & Hg1 & HR2 & Hg2).
  destruct (has3 _ _ _ _ _ _ _ _ Hh) as (Hpl & Hl1 & Hl2 & N1 & N2 & N3).
  apply (has_set_mid _ [_; _] _ _ (mkNode (y' :: ys) [] true (Some pl) nx)) in Hh.
  apply (has_set_mid _ [_] _ _ (mkNode (xs ++ [y]) [] true (Some pl) (Some l2))) in Hh.
  apply (has_set _ _ _ (parent (a ++ y' :: b) [TLeaf l1 xs; TLeaf l2 ys])) in Hh.
  eapply (pair_keeps _ _ _ _ _ _ _ _ _ _ _ _ _ _ _ _ _ y' (TLeaf l1 (xs ++ [y])) (TLeaf l2 (y' :: ys)) _ Hp);
    [exact Hr| |done| |exact Hh| |].
  - unfold borrowFromRightSibling. do 2 (erewrite get_node_step by done). cbn [Parent Items IsLeaf top].
    rewrite deref_step, nth_zero_step, from_one_step, set_node_step.
    erewrite upd_node_step by (rewrite lookup_insert_ne by done; exact Hl1).
    erewrite get_node_step by (cbn; rewrite !lookup_insert_ne by done; exact Hpl).
    unfold parent at 1. cbn [Items]. rewrite (set_nth_step a s y' b) by (unfold lenZ; lia).
    done.
  - exists ix. split_and!; [done|split; [|by eapply gap_trans]|done].
    apply Forall_app. split; [|by eapply Forall_impl; [exact HR1|]; intros z Hz; eapply entry_up].
    eapply Forall_impl; [exact HL|]. intros z Hz. by eapply entry_down.
  - fresh_tac.
  - cbn. by rewrite <- app_assoc.
Qed.

Lemma borrow_left_node l1 l2 xs x lk c ys rk seps t :
  let L := TNode l1 (xs ++ [x]) (lk ++ [c]) in let R := TNode l2 ys rk in
  good t (whole seps [L; R]) →
  keeps t (whole seps [L; R]) (borrowFromLeftSibling l2 l1 (lenZ left)).
Proof.
  intros L R Hg. subst L R. destruct t as [r d ns its nl].
  pose proof (good_root _ _ Hg) as Hr. pose proof (good_fresh _ _ Hg) as Hfr.
  destruct (pair_open _ _ _ _ _ _ _ _ Hg) as (h0 & h & a & b & s & it & lo & hi & C & -> & Hp & Hh).
  pose proof (pair_facts _ _ _ _ _ _ _ _ _ _ _ _ Hp) as (Hs & HL & HR & Ha).
  destruct h as [|h]; [done|]. cbn [bst] in HL, HR.
  pose proof (kids_length _ _ _ _ _ _ HL) as Hlen. rewrite !length_app in Hlen. cbn in Hlen.
  apply kids_unjoin in HL as (ix & Hx & HL1 & HL2); [|lia].
  destruct rk as [|k rk]; [by destruct ys|].
  set (lm := Some (leftmost k)).
  assert (Hh4 : has ns ((pl, parent (a ++ s :: b) [TNode l1 (xs ++ [x]) (lk ++ [c]); TNode l2 ys (k :: rk)])
     :: (l1, mkNode (xs ++ [x]) (root <$> (lk ++ [c])) false (Some pl) None)
     :: (l2, mkNode ys (root <$> (k :: rk)) false (Some pl) None)
     :: (root c, top (Some l1) lm c)
     :: C ++ layout_kids (Some l1) (Some (leftmost c)) lk ++ rest lm c ++ layout_kids (Some l2) nx (k :: rk))).
  { eapply has_mp; [exact Hh|]. cbn [rest leftmost root top]. rewrite layout_kids_app.
    cbn [layout_kids first_of]. rewrite app_nil_r, (layout_top _ _ c). fold lm. solve_Permutation. }
  clear Hh. destruct (has3 _ _ _ _ _ _ _ _ Hh4) as (Hpl & Hl1 & Hl2 & N1 & N2 & N3).
  destruct (has4 _ _ _ _ _ _ _ _ _ _ Hh4) as (Hc & N4 & N5 & N6).
  apply (has_set_mid _ [_] _ _ (mkNode xs (root <$> lk) false (Some pl) None)) in Hh4.
  apply (has_set_mid _ [_; _] _ _ (mkNode (s :: ys) (root <$> (c :: k :: rk)) false (Some pl) None)) in Hh4.
  apply (has_set_mid _ [_; _; _] _ _ (top (Some l2) lm c)) in Hh4.
  apply (has_set _ _ _ (parent (a ++ x :: b) [TNode l1 [] []; TNode l2 [] []])) in Hh4.
  eapply (pair_keeps _ _ _ _ _ _ _ _ _ _ _ _ _ _ _ _ _ x
            (TNode l1 xs lk) (TNode l2 (s :: ys) (c :: k :: rk)) _ Hp); [exact Hr| | | | | |].
  - unfold borrowFromLeftSibling. do 2 (erewrite get_node_step by done).
    cbn [Parent Items IsLeaf top Children root].
    rewrite deref_step, last_index_app, nth_mid_step, upto_app_step.
    erewrite get_node_step by exact Hpl. cbn [parent Items].
    assert (Hla : lenZ left = lenZ a) by (unfold lenZ; lia). rewrite Hla, nth_mid_step.
    rewrite (fmap_app root lk [c] : _ = (root <$> lk) ++ [root c]).
    rewrite last_index_app, nth_mid_step, upto_app_step, set_node_step.
    erewrite upd_node_step by (rewrite lookup_insert_ne by done; exact Hl2).
    erewrite upd_node_step by (rewrite !lookup_insert_ne by done; exact Hc). rewrite top_parent.
    erewrite get_node_step by (cbn; rewrite !lookup_insert_ne by done; exact Hpl).
    cbn [parent Items]. rewrite (set_nth_step a s x b) by done. reflexivity.
  - cbn. destruct lk; [cbn in Hlen; lia|done].
  - exists ix. split_and!; [done|done|]. exists it. done.
  - eapply has_mp; [exact Hh4|]. cbn [rest leftmost root top layout_kids first_of].
    rewrite (layout_top _ _ c). fold lm. solve_Permutation.
  - fresh_tac.
  - cbn. rewrite fmap_app, concat_app. cbn. by rewrite app_nil_r, <- app_assoc.
Qed.

Lemma borrow_right_node l1 l2 xs lk y ys c k rk seps t :
  let L := TNode l1 xs lk in let R := TNode l2 (y :: ys) (c :: k :: rk) in
  good t (whole seps [L; R]) →
  keeps t (whole seps [L; R]) (borrowFromRightSibling l1 l2 (lenZ left)).
Proof.
  intros L R Hg. subst L R. destruct t as [r d ns its nl].
  pose proof (good_root _ _ Hg) as Hr. pose proof (good_fresh _ _ Hg) as Hfr.
  destruct (pair_open _ _ _ _ _ _ _ _ Hg) as (h0 & h & a & b & s & it & lo & hi & C & -> & Hp & Hh).
  pose proof (pair_facts _ _ _ _ _ _ _ _ _ _ _ _ Hp) as (Hs & HL & HR & Ha).
  destruct h as [|h]; [done|]. cbn [bst] in HL, HR. destruct HR as (iy & Hy & HR1 & HR2).
  set (lm := Some (leftmost k)).
  assert (Hh4 : has ns ((pl, parent (a ++ s :: b) [TNode l1 xs lk; TNode l2 (y :: ys) (c :: k :: rk)])
     :: (l1, mkNode xs (root <$> lk) false (Some pl) None)
     :: (l2, mkNode (y :: ys) (root <$> (c :: k :: rk)) false (Some pl) None)
     :: (root c, top (Some l2) lm c)
     :: C ++ layout_kids (Some l1) (Some (leftmost c)) lk ++ rest lm c ++ layout_kids (Some l2) nx (k :: rk))).
  { eapply has_mp; [exact Hh|]. cbn [rest leftmost root top layout_kids first_of].
    rewrite (layout_top _ _ c). fold lm. solve_Permutation. }
  clear Hh. destruct (has3 _ _ _ _ _ _ _ _ Hh4) as (Hpl & Hl1 & Hl2 & N1 & N2 & N3).
  destruct (has4 _ _ _ _ _ _ _ _ _ _ Hh4) as (Hc & N4 & N5 & N6).
  apply (has_set_mid _ [_; _] _ _ (mkNode ys (root <$> (k :: rk)) false (Some pl) None)) in Hh4.
  apply (has_set_mid _ [_] _ _ (mkNode (xs ++ [s]) ((root <$> lk) ++ [root c]) false (Some pl) None)) in Hh4.
  apply (has_set_mid _ [_; _; _] _ _ (top (Some l1) lm c)) in Hh4.
  apply (has_set _ _ _ (parent (a ++ y :: b) [TNode l1 [] []; TNode l2 [] []])) in Hh4.
  eapply (pair_keeps _ _ _ _ _ _ _ _ _ _ _ _ _ _ _ _ _ y
            (TNode l1 (xs ++ [s]) (lk ++ [c])) (TNode l2 ys (k :: rk)) _ Hp); [exact Hr| | | | | |].
  - unfold borrowFromRightSibling. do 2 (erewrite get_node_step by done).
    cbn [Parent Items IsLeaf top Children root].
    rewrite deref_step, nth_zero_step, from_one_step.
    erewrite get_node_step by exact Hpl. cbn [parent Items].
    assert (Hla : lenZ left = lenZ a) by (unfold lenZ; lia). rewrite Hla, nth_mid_step.
    cbn [fmap list_fmap]. rewrite nth_zero_step, from_one_step, set_node_step.
    erewrite upd_node_step by (rewrite lookup_insert_ne by done; exact Hl1).
    erewrite upd_node_step by (rewrite !lookup_insert_ne by done; exact Hc). rewrite top_parent.
    erewrite get_node_step by (cbn; rewrite !lookup_insert_ne by done; exact Hpl).
    cbn [parent Items]. rewrite (set_nth_step a s y b) by done. reflexivity.
  - cbn. destruct lk; [by destruct xs|done].
  - exists iy. split_and!; [done| |done]. by eapply kids_join.
  - eapply has_mp; [exact Hh4|]. cbn [rest leftmost root top].
    rewrite layout_kids_app, fmap_app. cbn [layout_kids first_of fmap list_fmap].
    rewrite app_nil_r, (layout_top _ _ c). fold lm. solve_Permutation.
  - fresh_tac.
  - cbn. rewrite fmap_app, concat_app. cbn. by rewrite app_nil_r, <- app_assoc.
Qed.

(** ** Merging *)

(** Merging with the left sibling is merging the left sibling with its right
    neighbour. *)
Lemma merge_sym hu l1 l2 n1 n2 i t :
  nodes t !! l1 = Some n1 → nodes t !! l2 = Some n2 → IsLeaf n1 = IsLeaf n2 →
  Parent n1 = Parent n2 →
  mergeWithLeftSibling hu l2 l1 i t = mergeWithRightSibling hu l1 l2 i t.
Proof.
  intros H1 H2 Hl Hp. unfold mergeWithLeftSibling, mergeWithRightSibling.
  do 2 (erewrite get_node_step by done). symmetry. do 2 (erewrite get_node_step by done).
  by rewrite Hl, Hp.
Qed.

(** The parent loses the separator and the right child. *)
Lemma unlink_ret r d ns its nl a s b L R :
  length a = length left → ns !! pl = Some (parent (a ++ s :: b) [L; R]) →
  unlink pl (lenZ left) (mkTree r d ns its nl) =
  Ret (tt, mkTree r d (<[pl := parent (a ++ b) [L]]> ns) its nl).
Proof.
  intros Ha Hpl. unfold unlink. erewrite get_node_step by exact Hpl. cbn [parent Items Children].
  rewrite (cut_step a s b) by (unfold lenZ; lia).
  cbn [fmap list_fmap]. change ([root L; root R] ++ (root <$> right)) with ([root L] ++ root R :: (root <$> right)).
  rewrite (app_assoc (root <$> left)), cut_step.
  2,3: unfold lenZ; rewrite length_app, length_fmap; cbn; lia.
  unfold with_Children, with_Items. cbn. by rewrite <- app_assoc.
Qed.

Definition mends (m : loc → M unit) (c : list frame) : Prop :=
  ∀ t x, good t (fill c x) → ascending (items t) (contents (fill c x)) →
         keeps t (fill c x) (m (root x)).

Lemma fill_root_ne ns f c x :
  has ns (layout None None (fill (f :: c) x)) → root (fill (f :: c) x) ≠ root x.
Proof.
  intros H E. pose proof (fill_top _ _ _ H) as Hx. rewrite layout_top in H.
  apply has_lookup in H. rewrite E, Hx in H. injection H as H. apply (f_equal Parent) in H.
  destruct (top_fields (par_of (f :: c)) (nxt_of (f :: c)) x) as (_ & Hp & _).
  destruct (top_fields None None (fill (f :: c) x)) as (_ & Hp' & _). cbn in *. congruence.
Qed.

(** A root without separators gives way to its only child. *)
Lemma collapse_ok r d ns its nl l k :
  good (mkTree r d ns its nl) (TNode l [] [k]) →
  ∃ n, ns !! root k = Some n ∧
       good (mkTree (root k) d (<[root k := with_Parent n None]> ns) its nl) k.
Proof.
  intros [Hh Hr [h Hb] Hf]. cbn [nodes] in Hh. rewrite layout_node in Hh.
  cbn [layout_kids first_of] in Hh. rewrite app_nil_r, (layout_top _ _ k) in Hh.
  assert (Hk : ns !! root k = Some (top (Some l) None k)) by (eapply has_elem; [exact Hh|set_solver]).
  exists (top (Some l) None k). split; [done|]. split; cbn.
  - rewrite top_parent, layout_top. apply (has_drop _ [(l, mkNode [] [root k] false None None)]).
    by apply (has_set_mid _ [_] _ _ _ _ Hh).
  - done.
  - destruct h as [|h]; [done|]. by exists h.
  - eapply fresh_root. by eapply fresh_set.
Qed.

Lemma after_merge_ok m t seps kids :
  (ctx ≠ [] → mends m ctx) → good t (fill ctx (TNode pl seps kids)) →
  ascending (items t) (contents (fill ctx (TNode pl seps kids))) →
  keeps t (fill ctx (TNode pl seps kids)) (after_merge m pl).
Proof.
  intros Hm Hg Hasc. destruct t as [r d ns its nl].
  pose proof (good_root _ _ Hg) as Hr. cbn in Hr.
  eapply (keeps_from (mkTree r d ns its nl)); [unfold after_merge; by rewrite get_root_step| |done..].
  cbn [Root]. destruct ctx as [|f c]; cbn [fill] in *.
  - cbn [root] in Hr. subst r. rewrite decide_False by naive_solver.
    pose proof (fill_top _ [] _ (good_has _ _ Hg)) as Hpl. cbn in Hpl.
    destruct ((lenZ seps =? 0) && (lenZ (root <$> kids) =? 1)) eqn:E.
    + apply andb_true_iff in E as [E1%Z.eqb_eq E2%Z.eqb_eq]. unfold lenZ in E1, E2.
      destruct seps; [|done]. destruct kids as [|k [|]]; [done| |cbn in E2; lia].
      destruct (collapse_ok _ _ _ _ _ _ _ Hg) as (n & Hn & Hg').
      eexists _, k. split; [|split_and!; [exact Hg'| |done..]].
      * erewrite get_node_step by exact Hpl. cbn [Items Children fmap list_fmap].
        change ((lenZ (@nil loc) =? 0) && (lenZ [root k] =? 1)) with true. cbv iota.
        rewrite nth_zero_step, set_root_step. by apply (upd_node_ret _ _ _ _ _ _ n (λ n, with_Parent n None)).
      * cbn. by rewrite app_nil_r.
    + eexists _, _. split; [erewrite get_node_step by exact Hpl; cbn [Items Children]; by rewrite E|].
      by split_and!.
  - rewrite decide_True.
    + by apply (Hm ltac:(done) _ (TNode pl seps kids)).
    + rewrite Hr. intros E. by apply (fill_root_ne ns f c (TNode pl seps kids)), eq_sym; [apply Hg|].
Qed.

(** The end of a merge: the pair has become one child. *)
Lemma merged_keeps r d ns ns' its nl h0 h a b s it lo hi L R C L' m (mg : M unit) :
  pair its h0 h a b s it lo hi L R C → r = root (whole (a ++ s :: b) [L; R]) →
  (ctx ≠ [] → mends m ctx) →
  mg (mkTree r d ns its nl) = after_merge m pl (mkTree r d ns' its nl) →
  leftmost L' = leftmost L → bst its h lo hi L' →
  has ns' (C ++ (pl, parent (a ++ b) [L']) :: layout (Some pl) nx L') →
  fresh (mkTree r d ns' its nl) → contents L' = contents L ++ contents R →
  ascending its (contents (whole (a ++ s :: b) [L; R])) →
  keeps (mkTree r d ns its nl) (whole (a ++ s :: b) [L; R]) mg.
Proof.
  intros Hp Hr Hm Emg Hl Hk Hh Hf Hc Hasc.
  assert (Ec : contents (whole (a ++ [] ++ b) [L']) = contents (whole (a ++ s :: b) [L; R])).
  { apply whole_contents. unfold contents_of. cbn. by rewrite !app_nil_r. }
  eapply keeps_from; [exact Emg| |exact Ec|done|done].
  apply after_merge_ok; [done| |by unfold whole in Ec; cbn in *; rewrite Ec].
  apply (pair_close _ _ _ _ _ _ _ _ _ _ _ _ _ _ _ _ [] [L'] Hp); try done.
  - cbn. by rewrite Hl.
  - cbn [layout_kids first_of app]. by rewrite app_nil_r.
Qed.

Lemma merge_leaf m l1 l2 xs ys seps t :
  let L := TLeaf l1 xs in let R := TLeaf l2 ys in
  (ctx ≠ [] → mends m ctx) → good t (whole seps [L; R]) →
  ascending (items t) (contents (whole seps [L; R])) →
  keeps t (whole seps [L; R]) (mergeWithRightSibling m l1 l2 (lenZ left)).
Proof.
  intros L R Hm Hg Hasc. subst L R. destruct t as [r d ns its nl].
  pose proof (good_root _ _ Hg) as Hr. pose proof (good_fresh _ _ Hg) as Hfr.
  destruct (pair_open _ _ _ _ _ _ _ _ Hg) as (h0 & h & a & b & s & it & lo & hi & C & -> & Hp & Hh).
  pose proof (pair_facts _ _ _ _ _ _ _ _ _ _ _ _ Hp) as (Hs & HL & HR & Ha).
  destruct h as [|h]; [|done]. destruct HL as [HL HgL], HR as [HR HgR].
  destruct (has3 _ _ _ _ _ _ _ _ Hh) as (Hpl & Hl1 & Hl2 & N1 & N2 & N3).
  set (n1 := mkNode (xs ++ ys) [] true (Some pl) nx).
  apply (has_set_mid _ [_] _ _ n1) in Hh.
  apply (has_set _ _ _ (parent (a ++ b) [TLeaf l1 (xs ++ ys)])) in Hh.
  eapply (merged_keeps _ _ _ _ _ _ _ _ _ _ _ _ _ _ _ _ _ (TLeaf l1 (xs ++ ys)) m _ Hp Hr Hm);
    [| | | | |done|done].
  - unfold mergeWithRightSibling. do 2 (erewrite get_node_step by done).
    cbn [Parent Items IsLeaf top Next]. rewrite deref_step. erewrite bind_step; [reflexivity|].
    rewrite set_node_step. eapply (unlink_ret _ _ _ _ _ a s b (TLeaf l1 xs)); [done|].
    rewrite lookup_insert_ne by done. exact Hpl.
  - done.
  - split; [|by eapply gap_trans]. apply Forall_app.
    split; eapply Forall_impl; [exact HL| |exact HR|]; intros z Hz;
      [by eapply entry_down|by eapply entry_up].
  - apply (has_drop _ [(l2, top (Some pl) nx (TLeaf l2 ys))]). eapply has_mp; [exact Hh|].
    cbn. solve_Permutation.
  - fresh_tac.
Qed.

Lemma merge_node m l1 l2 xs ys lk rk seps t :
  let L := TNode l1 xs lk in let R := TNode l2 ys rk in
  (ctx ≠ [] → mends m ctx) → good t (whole seps [L; R]) →
  ascending (items t) (contents (whole seps [L; R])) →
  keeps t (whole seps [L; R]) (mergeWithRightSibling m l1 l2 (lenZ left)).
Proof.
  intros L R Hm Hg Hasc. subst L R. destruct t as [r d ns its nl].
  pose proof (good_root _ _ Hg) as Hr. pose proof (good_fresh _ _ Hg) as Hfr.
  destruct (pair_open _ _ _ _ _ _ _ _ Hg) as (h0 & h & a & b & s & it & lo & hi & C & -> & Hp & Hh).
  pose proof (pair_facts _ _ _ _ _ _ _ _ _ _ _ _ Hp) as (Hs & HL & HR & Ha).
  destruct h as [|h]; [done|]. cbn [bst] in HL, HR.
  destruct (has3 _ _ _ _ _ _ _ _ Hh) as (Hpl & Hl1 & Hl2 & N1 & N2 & N3).
  set (n1 := mkNode (xs ++ s :: ys) ((root <$> lk) ++ (root <$> rk)) false (Some pl) None).
  apply (has_set_mid _ [_] _ _ n1) in Hh. cbn [rest app root top] in Hh.
  rewrite !app_comm_cons, app_assoc in Hh.
  assert (Hfr1 : fresh (mkTree r d (<[l1 := n1]> ns) its nl)) by fresh_tac.
  destruct (reparent_ok l1 _ _ _ _ _ _ _ _ _ Hh Hfr1) as (ns' & E & Hh' & Hf').
  cbn [app] in Hh'. assert (Hpl' := has_lookup _ _ _ _ Hh').
  apply (has_set _ _ _ (parent (a ++ b) [TNode l1 [] []])) in Hh'.
  eapply (merged_keeps _ _ _ _ _ _ _ _ _ _ _ _ _ _ _ _ _ (TNode l1 (xs ++ s :: ys) (lk ++ rk)) m _ Hp Hr Hm);
    [| | | | | |done].
  - unfold mergeWithRightSibling. do 2 (erewrite get_node_step by done).
    cbn [Parent Items IsLeaf top Next Children]. rewrite deref_step. erewrite bind_step; [reflexivity|].
    erewrite get_node_step by exact Hpl. cbn [parent Items].
    assert (Hla : lenZ left = lenZ a) by (unfold lenZ; lia). rewrite Hla, nth_mid_step, <- Hla.
    rewrite set_node_step. erewrite bind_step by exact E.
    by eapply (unlink_ret _ _ _ _ _ a s b (TNode l1 xs lk) (TNode l2 ys rk)).
  - cbn. destruct lk; [by destruct xs|done].
  - cbn. by eapply kids_join.
  - apply (has_drop _ [(l2, mkNode ys (root <$> rk) false (Some pl) None)]). eapply has_mp; [exact Hh'|].
    rewrite layout_node, layout_kids_app, fmap_app. cbn [app].
    assert (first_of nx rk = Some (leftmost (TNode l2 ys rk))) as ->.
    { destruct rk; [by destruct ys|done]. }
    solve_Permutation.
  - by eapply fresh_set.
  - cbn. by rewrite fmap_app, concat_app.
Qed.

(** ** The branches, whatever the height *)

Lemma pair_ascending its seps L R :
  ascending its (contents (whole seps [L; R])) →
  ascending its (contents L) ∧ ascending its (contents R).
Proof.
  intros H. split.
  - exact (ascending_fill its (mkFrame pl seps left (R :: right) :: ctx) L H).
  - unfold whole in H. apply (ascending_fill its (mkFrame pl seps (left ++ [L]) right :: ctx) R).
    cbn. unfold plug. cbn. rewrite <- app_assoc. exact H.
Qed.

Lemma pair_heights t seps L R :
  good t (whole seps [L; R]) →
  (∃ l1 l2 xs ys, L = TLeaf l1 xs ∧ R = TLeaf l2 ys) ∨
  (∃ l1 l2 xs ys lk rk, L = TNode l1 xs lk ∧ R = TNode l2 ys rk ∧
     length lk = S (length xs) ∧ length rk = S (length ys)).
Proof.
  destruct t. intros Hg. destruct (pair_open _ _ _ _ _ _ _ _ Hg)
    as (h0 & h & a & b & s & it & lo & hi & C & _ & Hp & _).
  pose proof (pair_facts _ _ _ _ _ _ _ _ _ _ _ _ Hp) as (_ & HL & HR & _).
  destruct h, L, R; try done; [left; by repeat eexists|right].
  apply kids_length in HL, HR. naive_solver.
Qed.

Lemma borrow_left_ok seps L R t :
  good t (whole seps [L; R]) → ascending (items t) (contents (whole seps [L; R])) →
  entries L ≠ [] →
  keeps t (whole seps [L; R]) (borrowFromLeftSibling (root R) (root L) (lenZ left)).
Proof.
  intros Hg [HaL HaR]%pair_ascending Hne. destruct (pair_heights _ _ _ _ Hg)
    as [(l1 & l2 & xs & ys & -> & ->)|(l1 & l2 & xs & ys & lk & rk & -> & -> & Hl & _)]; cbn in Hne;
    destruct xs as [|x xs _] using rev_ind; try done.
  - by apply borrow_left_leaf.
  - destruct lk as [|c lk _] using rev_ind; [done|]. by apply borrow_left_node.
Qed.

Lemma borrow_right_ok seps L R t :
  good t (whole seps [L; R]) → ascending (items t) (contents (whole seps [L; R])) →
  1 < lenZ (entries R) →
  keeps t (whole seps [L; R]) (borrowFromRightSibling (root L) (root R) (lenZ left)).
Proof.
  intros Hg [HaL HaR]%pair_ascending Hne. destruct (pair_heights _ _ _ _ Hg)
    as [(l1 & l2 & xs & ys & -> & ->)|(l1 & l2 & xs & ys & lk & rk & -> & -> & _ & Hl)];
    unfold lenZ in Hne; cbn in Hne; destruct ys as [|y [|y' ys]]; cbn in Hne; try lia.
  - by apply borrow_right_leaf.
  - destruct rk as [|c [|k rk]]; try done. by apply borrow_right_node.
Qed.

Lemma merge_ok m seps L R t :
  (ctx ≠ [] → mends m ctx) → good t (whole seps [L; R]) →
  ascending (items t) (contents (whole seps [L; R])) →
  keeps t (whole seps [L; R]) (mergeWithRightSibling m (root L) (root R) (lenZ left)).
Proof.
  intros Hm Hg Ha. destruct (pair_heights _ _ _ _ Hg)
    as [(l1 & l2 & xs & ys & -> & ->)|(l1 & l2 & xs & ys & lk & rk & -> & -> & _)].
  - by apply merge_leaf.
  - by apply merge_node.
Qed.

Lemma merge_left_ok m seps L R t :
  (ctx ≠ [] → mends m ctx) → good t (whole seps [L; R]) →
  ascending (items t) (contents (whole seps [L; R])) →
  keeps t (whole seps [L; R]) (mergeWithLeftSibling m (root R) (root L) (lenZ left)).
Proof.
  intros Hm Hg Ha. eapply (keeps_from t); [|by apply (merge_ok m)|done..].
  destruct t as [r d ns its nl]. pose proof Hg as Hg'.
  destruct (pair_open _ _ _ _ _ _ _ _ Hg') as (h0 & h & a & b & s & it & lo & hi & C & _ & _ & Hh).
  destruct (has3 _ _ _ _ _ _ _ _ Hh) as (_ & H1 & H2 & _).
  eapply merge_sym; [exact H1|exact H2|..];
    destruct (pair_heights _ _ _ _ Hg)
      as [(? & ? & ? & ? & -> & ->)|(? & ? & ? & ? & ? & ? & -> & -> & _)]; done.
Qed.

End Pair.

(** ** [handleUnderflow] *)

Lemma right_kid left x R right (f : loc → M unit) t :
  (nth (root <$> (left ++ x :: R :: right)) (lenZ left + 1) ≫= f) t = f (root R) t.
Proof.
  apply nth_step; [unfold lenZ; lia|]. unfold lenZ.
  replace (Z.to_nat _) with (length (root <$> left) + 1)%nat by (rewrite length_fmap; lia).
  rewrite fmap_app. by rewrite lookup_app_r, Nat.add_comm, Nat.add_sub by lia.
Qed.

Lemma left_kid left L x right (f : loc → M unit) t :
  (nth (root <$> (left ++ L :: x :: right)) (lenZ left) ≫= f) t = f (root L) t.
Proof.
  apply nth_step; [unfold lenZ; lia|]. unfold lenZ. rewrite Nat2Z.id, fmap_app.
  apply list_lookup_middle. by rewrite length_fmap.
Qed.

(** The children of the parent around [x], as the sibling tests of the code
    see them. *)
Lemma sibling_cases (left right : list tree) (x : tree) :
  (lenZ left = 0 ∧ left = [] ∨ ∃ left' L, left = left' ++ [L] ∧ 0 < lenZ left ∧ lenZ left - 1 = lenZ left') ∧
  (lenZ left = lenZ (root <$> (left ++ x :: right)) - 1 ∧ right = [] ∨
   ∃ R right', right = R :: right' ∧ lenZ left < lenZ (root <$> (left ++ x :: right)) - 1).
Proof.
  unfold lenZ. rewrite length_fmap, length_app. cbn. split.
  - destruct left as [|L left' _] using rev_ind; [by left|right].
    exists left', L. rewrite length_app. cbn. split_and!; [done|lia..].
  - destruct right as [|R right']; [left; cbn; split; [lia|done]|right].
    exists R, right'. cbn. split; [done|lia].
Qed.

Section Underflow.
Context (m : loc → M unit) (ctx : list frame) (pl : loc) (seps : list loc) (t : BTreeIndex).
Hypothesis Hm : ctx ≠ [] → mends m ctx.

Definition around (left : list tree) (x : tree) (right : list tree) : tree :=
  fill ctx (TNode pl seps (left ++ x :: right)).
Definition above_node (left : list tree) (x : tree) (right : list tree) : BTreeNode :=
  mkNode seps (root <$> (left ++ x :: right)) false (par_of ctx) None.
Definition ready (left : list tree) (x : tree) (right : list tree) : Prop :=
  good t (around left x right) ∧ ascending (items t) (contents (around left x right)).

Lemma around_left left L x right :
  ready (left ++ [L]) x right →
  around (left ++ [L]) x right = whole ctx pl left right seps [L; x] ∧
  good t (whole ctx pl left right seps [L; x]) ∧
  ascending (items t) (contents (whole ctx pl left right seps [L; x])).
Proof. unfold ready, around, whole. rewrite <- app_assoc. by intros [? ?]. Qed.

Lemma merge_step_ok left x right :
  ready left x right →
  keeps t (around left x right) (merge_step m (root x) (above_node left x right) (lenZ left)).
Proof.
  intros Hr. unfold merge_step. cbn [above_node Children].
  destruct (sibling_cases left right x) as [HL HR].
  destruct HL as [[El ->]|(left' & L & -> & Hl & El)].
  - rewrite (proj2 (Z.ltb_ge 0 _)) by lia. destruct HR as [[Er ->]|(R & right' & -> & Er)].
    + rewrite (proj2 (Z.ltb_ge _ _)) by lia. destruct Hr. by exists t, (around [] x []).
    + rewrite (proj2 (Z.ltb_lt _ _)) by lia. destruct Hr.
      eapply (keeps_from t); [by rewrite right_kid| |done..].
      by apply (merge_ok ctx pl [] right' m seps x R).
  - rewrite (proj2 (Z.ltb_lt 0 _)) by lia.
    destruct (around_left left' L x right Hr) as (-> & Hg & Ha). rewrite El.
    eapply (keeps_from t); [rewrite <- app_assoc; cbn [app]; by rewrite left_kid| |done..]. by apply merge_left_ok.
Qed.

Lemma sibling_node left x right y :
  ready left x right → y ∈ left ++ x :: right →
  ∃ n, nodes t !! root y = Some n ∧ Items n = entries y.
Proof.
  intros [Hg _] Hy. apply list_elem_of_split in Hy as (a & b & E).
  unfold around in Hg. rewrite E in Hg.
  pose proof (fill_top _ (mkFrame pl seps a b :: ctx) y (good_has _ _ Hg)) as H.
  eexists. split; [exact H|]. apply top_fields.
Qed.

Lemma right_or_merge_ok left x right minItems :
  ready left x right → 1 <= minItems →
  keeps t (around left x right)
    (right_or_merge m (root x) (above_node left x right) (lenZ left) minItems).
Proof.
  intros Hr Hmin. unfold right_or_merge. cbn [above_node Children].
  destruct (sibling_cases left right x) as [_ [[Er ->]|(R & right' & -> & Er)]].
  - rewrite (proj2 (Z.ltb_ge _ _)) by lia. by apply merge_step_ok.
  - rewrite (proj2 (Z.ltb_lt _ _)) by lia.
    destruct (sibling_node left x (R :: right') R Hr) as (n & Hn & En); [set_solver|].
    eapply (keeps_from t); [by rewrite right_kid, (get_node_step _ _ _ _ Hn), En| |done..].
    destruct (Z.ltb_spec minItems (lenZ (entries R))); [|by apply merge_step_ok].
    destruct Hr. apply (borrow_right_ok ctx pl left right' seps x R); [done..|lia].
Qed.

(** One level of [handleUnderflow]. *)
Lemma underflow_level left x right minItems :
  ready left x right → 1 <= minItems →
  keeps t (around left x right)
    (if 0 <? lenZ left then
       leftSibling ← nth (Children (above_node left x right)) (lenZ left - 1);
       ls ← get_node leftSibling;
       if minItems <? lenZ (Items ls) then borrowFromLeftSibling (root x) leftSibling (lenZ left - 1)
       else right_or_merge m (root x) (above_node left x right) (lenZ left) minItems
     else right_or_merge m (root x) (above_node left x right) (lenZ left) minItems).
Proof.
  intros Hr Hmin.
  destruct (sibling_cases left right x) as [[[El ->]|(left' & L & -> & Hl & El)] _].
  - rewrite (proj2 (Z.ltb_ge 0 _)) by lia. by apply right_or_merge_ok.
  - rewrite (proj2 (Z.ltb_lt 0 _)) by lia. cbn [above_node Children]. fold (above_node (left' ++ [L]) x right).
    destruct (sibling_node (left' ++ [L]) x right L Hr) as (n & Hn & En); [set_solver|].
    rewrite El. eapply (keeps_from t);
      [rewrite <- app_assoc; cbn [app]; by rewrite left_kid, (get_node_step _ _ _ _ Hn), En| |done..].
    destruct (Z.ltb_spec minItems (lenZ (entries L))) as [Hlt|_].
    + destruct (around_left left' L x right Hr) as (-> & Hg & Ha).
      apply borrow_left_ok; [done..|]. intros E. rewrite E in Hlt. unfold lenZ in Hlt. cbn in Hlt. lia.
    + by apply (right_or_merge_ok (left' ++ [L])).
Qed.

End Underflow.

Lemma findChildIndex_kid p left x right :
  Children p = root <$> (left ++ x :: right) → NoDup (root <$> (left ++ x :: right)) →
  findChildIndex p (root x) = lenZ left.
Proof.
  intros E H. unfold findChildIndex. cbv zeta. rewrite E, index_of_kid by done.
  rewrite (proj2 (Z.ltb_lt _ _)); [done|]. unfold lenZ.
  rewrite length_fmap, length_app. cbn. lia.
Qed.

Lemma handleUnderflow_ok fuel ctx : (length ctx < fuel)%nat → mends (handleUnderflow fuel) ctx.
Proof.
  revert ctx. induction fuel as [|fuel IH]; intros ctx Hf; [lia|].
  intros t x Hg Hasc. pose proof (fill_top _ _ _ (good_has _ _ Hg)) as Hx.
  destruct (top_fields (par_of ctx) (nxt_of ctx) x) as (_ & Hp & Hi & _).
  set (n := top _ _ x) in *. clearbody n.
  destruct ctx as [|[pl seps left right] ctx]; cbn [handleUnderflow].
  { exists t, x. erewrite get_node_step by exact Hx. rewrite Hp. by split_and!. }
  assert (Hpl := fill_top _ ctx _ (good_has _ _ Hg)). cbn [plug root f_loc] in Hpl.
  pose proof (kids_nodup _ ctx _ _ _ (good_has _ _ Hg)) as Hnd. apply NoDup_cons in Hnd as [_ Hnd].
  cbn [f_left f_right] in Hnd.
  eapply (keeps_from t (fill ctx (TNode pl seps (left ++ x :: right)))); [|..|done|done|done].
  { erewrite get_node_step by exact Hx. rewrite Hp. cbn [par_of f_loc].
    rewrite get_degree_step, Hi. cbv zeta. reflexivity. }
  destruct (Z.leb_spec (Z.quot (Degree t - 1) 2) (lenZ (entries x))); [by exists t, (fill ctx (TNode pl seps (left ++ x :: right)))|].
  eapply (keeps_from t); [erewrite get_node_step by exact Hpl; by rewrite (findChildIndex_kid _ left x right)| |done..].
  apply underflow_level.
  - intros _. apply IH. cbn in Hf. lia.
  - by split.
  - unfold lenZ in *. lia.
Qed.

(** ** [RemoveByScore] *)

Lemma find_item_ok s m t ls V k :
  holds (items t) ls V → NoDup (Member <$> V) → mkItem s m ∈ V → is_nan s = false →
  ∃ a l b VA VB, ls = a ++ l :: b ∧ V = VA ++ mkItem s m :: VB ∧
    holds (items t) a VA ∧ holds (items t) b VB ∧
    find_item s m ls k t = Ret (Some (k + lenZ a), t).
Proof.
  intros H HN Hin Hs. revert k. induction H as [|l it ls V Hl H IH]; intros k; cbn [find_item].
  { by apply not_elem_of_nil in Hin. }
  cbn in HN. apply NoDup_cons in HN as [Hnew HN]. erewrite get_item_step by exact Hl.
  apply elem_of_cons in Hin as [<-|Hin].
  - cbn [Member Score]. rewrite bool_decide_eq_true_2, eqb_refl by done. cbn [andb].
    exists [], l, ls, [], V. unfold lenZ. cbn. rewrite Z.add_0_r. split_and!; try done. constructor.
  - assert (Member it ≠ m).
    { intros <-. apply Hnew, list_elem_of_fmap. by exists (mkItem s (Member it)). }
    rewrite bool_decide_eq_false_2 by done. cbn [andb].
    destruct (IH HN Hin (k + 1)) as (a & l' & b & VA & VB & -> & -> & HA & HB & E).
    exists (l :: a), l', b, (it :: VA), VB. split_and!; [done|done|by constructor|done|].
    rewrite E. unfold lenZ. cbn [length]. do 3 f_equal. lia.
Qed.

Lemma drop_member_split A it B :
  NoDup (Member <$> (A ++ it :: B)) → drop_member (Member it) (A ++ it :: B) = A ++ B.
Proof.
  intros H. rewrite fmap_app in H. cbn in H. apply NoDup_app in H as (_ & H1 & H2).
  apply NoDup_cons in H2 as [H2 _]. unfold drop_member. rewrite filter_app, filter_cons_False by naive_solver.
  f_equal; apply ItemFacts.drop_member_id; [|done]. intros Hin. apply (H1 _ Hin). by left.
Qed.

(** The item lies in the leaf the descent finds. *)
Lemma in_the_leaf its ctx A V B s m :
  holds its (before ctx) A → holds its (after ctx) B →
  all_lt its (before ctx) s → all_gt its s (after ctx) → is_nan s = false →
  mkItem s m ∈ A ++ V ++ B → mkItem s m ∈ V.
Proof.
  intros HA HB Hlt Hgt Hs Hin. assert (Hself : ltb s s ≠ true).
  { intros E. apply ltb_not_leb in E. by rewrite leb_refl in E. }
  apply (holds_lt _ _ _ _ HA) in Hlt. apply (holds_gt _ _ _ _ HB) in Hgt.
  rewrite Forall_forall in Hlt, Hgt. rewrite !elem_of_app in Hin.
  destruct Hin as [Hin|[Hin|Hin]]; [|done|]; exfalso.
  - by apply Hlt in Hin.
  - by apply Hgt in Hin.
Qed.

Lemma tree_remove t L s m :
  tree_view t L → wf_items L → mkItem s m ∈ L →
  ∃ t', RemoveByScore s m t = Ret (1, t') ∧ tree_view t' (drop_member m L).
Proof.
  intros (Hd & Hasc & tr & Hg & HL) [_ Hnan HND] Hin. set (it := mkItem s m) in *.
  assert (Hs : is_nan s = false).
  { rewrite Forall_forall in Hnan. exact (Hnan _ Hin). }
  destruct (find_leaf_root _ _ s Hg Hs)
    as (h0 & ctx & l & ls & lo & hi & -> & Hfuel & Efind & Hls & Hgap & Hrep & _ & _ & Hlt & Hgt).
  rewrite contents_fill in HL.
  apply Forall2_app_inv_l in HL as (A & L' & HA & HL & ->).
  apply Forall2_app_inv_l in HL as (V & B & HV & HB & ->). cbn [contents] in HV.
  apply (in_the_leaf _ _ _ _ _ _ _ HA HB Hlt Hgt Hs) in Hin.
  assert (HNV : NoDup (Member <$> V)).
  { rewrite !fmap_app in HND. apply NoDup_app in HND as (_ & _ & H). by apply NoDup_app in H as (H & _). }
  destruct (find_item_ok s m t ls V 0 HV HNV Hin Hs) as (a & li & b & VA & VB & -> & -> & Ha & Hb & Efi).
  assert (Edrop : drop_member m (A ++ (VA ++ it :: VB) ++ B) = A ++ (VA ++ VB) ++ B).
  { assert (E : A ++ (VA ++ it :: VB) ++ B = (A ++ VA) ++ it :: VB ++ B) by (by rewrite <- !app_assoc).
    rewrite E. fold it in HND. rewrite E in HND.
    etransitivity; [exact (drop_member_split (A ++ VA) it (VB ++ B) HND)|]. by rewrite <- !app_assoc. }
  destruct t as [r d ns its nl]. cbn [nodes items Root Degree] in *.
  destruct (good_set_leaf _ _ _ _ _ _ _ _ _ (a ++ b) _ _ Hg Hrep) as [Hn Hg2]; [|done|].
  { apply Forall_app in Hls as [? H]. apply Forall_cons_1 in H as [_ ?]. by apply Forall_app. }
  set (t2 := mkTree r d _ its _) in Hg2.
  assert (Hasc2 : asc (A ++ (VA ++ VB) ++ B)).
  { rewrite <- Edrop. unfold drop_member. by apply StronglySorted_filter. }
  assert (HL2 : holds its (contents (fill ctx (TLeaf l (a ++ b)))) (A ++ (VA ++ VB) ++ B)).
  { rewrite contents_fill. cbn [contents]. unfold holds in *. auto using Forall2_app. }
  assert (Hkeep : keeps t2 (fill ctx (TLeaf l (a ++ b)))
            (if (lenZ (a ++ b) <? Z.quot (d - 1) 2) && bool_decide (par_of ctx ≠ None)
             then handleUnderflow (S (size ns)) l else mret tt)).
  { destruct (_ && _); [|by exists t2, (fill ctx (TLeaf l (a ++ b)))].
    apply (handleUnderflow_ok _ ctx Hfuel t2 (TLeaf l (a ++ b))); [done|].
    eapply holds_ascending; [exact HL2|exact Hasc2]. }
  destruct Hkeep as (t3 & tr3 & E3 & Hg3 & Hc3 & Hi3 & Hd3).
  exists t3. fold it. rewrite Edrop. split.
  - unfold RemoveByScore. erewrite bind_step by reflexivity. rewrite get_root_step.
    erewrite bind_step by exact Efind. erewrite get_node_step by exact Hn. cbn [Items].
    erewrite bind_step by exact Efi. cbv beta iota.
    rewrite cut_step by lia. rewrite set_node_step, get_degree_step. cbn [Parent Degree].
    erewrite bind_step by exact E3. done.
  - split_and!; [by rewrite Hd3|exact Hasc2|]. exists tr3. split; [exact Hg3|].
    rewrite Hi3, Hc3. exact HL2.
Qed.

End BTreeMerge.
