(* ===== verification/SkipList.v ===== *)
(** * The skip list index (src/internal/data_structure/sorted_set/skiplist_index.go)

    Nodes are heap objects linked by the [forward] pointers of their levels
    and by [backward].  [rnd.Intn(2) == 1] draws are the booleans of the list
    [rnd], consumed one by one; a run that needs more draws than the list
    holds is [NoFuel].  [uint32] ranks, spans and lengths wrap. *)

From Stdlib Require Import ZArith Lia Ascii.
From Stdlib Require Import SpecFloat.
From stdpp Require Import base gmap list strings numbers.
From S2P Require Import Prelude GoFloat Item.

Module SkipList.
Import F64 Item.

(** ** State *)

Abbreviation loc := positive.

Definition SkiplistMaxLevel : Z := 32.

Record SkiplistLevel := mkLevel { forward : option loc; span : Z }.

Record SkiplistNode := mkNode {
  ele : bytes;
  score : float64;
  backward : option loc;
  levels : list SkiplistLevel
}.

Record SkipListIndex := mkSkip {
  head : loc;
  tail : option loc;
  length_ : Z;
  level : Z;
  rnd : list bool;
  nodes : gmap loc SkiplistNode;
  next_loc : loc
}.

Abbreviation M := (ST SkipListIndex).

(** ** Store access *)

Definition of_option {A} (o : option A) (p : panic) : outcome A :=
  match o with Some a => Ret a | None => Panic p end.

Definition get_node (l : loc) : M SkiplistNode :=
  λ t, n ← of_option (nodes t !! l) NilDereference; Ret (n, t).
Definition set_node (l : loc) (n : SkiplistNode) : M unit :=
  λ t, Ret (tt, mkSkip (head t) (tail t) (length_ t) (level t) (rnd t)
                       (<[l := n]> (nodes t)) (next_loc t)).
Definition alloc_node (n : SkiplistNode) : M loc :=
  λ t, Ret (next_loc t, mkSkip (head t) (tail t) (length_ t) (level t) (rnd t)
                               (<[next_loc t := n]> (nodes t)) (Pos.succ (next_loc t))).
Definition set_tail (l : option loc) : M unit :=
  λ t, Ret (tt, mkSkip (head t) l (length_ t) (level t) (rnd t) (nodes t) (next_loc t)).
Definition set_length (n : Z) : M unit :=
  λ t, Ret (tt, mkSkip (head t) (tail t) n (level t) (rnd t) (nodes t) (next_loc t)).
Definition set_level (n : Z) : M unit :=
  λ t, Ret (tt, mkSkip (head t) (tail t) (length_ t) n (rnd t) (nodes t) (next_loc t)).
(** [sl.rnd.Intn(2) == 1] *)
Definition coin : M bool :=
  λ t, match rnd t with
       | [] => NoFuel
       | c :: r => Ret (c, mkSkip (head t) (tail t) (length_ t) (level t) r
                                  (nodes t) (next_loc t))
       end.
Definition fuel_of : M nat := λ t, Ret (S (size (nodes t)), t).

Definition deref (o : option loc) : M loc := st_lift (of_option o NilDereference).

(** [l[i]] and [l[i] = x] *)
Definition nth {A} (l : list A) (i : Z) : M A :=
  st_lift (if i <? 0 then Panic IndexOutOfRange
           else of_option (l !! Z.to_nat i) IndexOutOfRange).
Definition set_nth {A} (l : list A) (i : Z) (x : A) : M (list A) :=
  _ ← nth l i; mret (<[Z.to_nat i := x]> l).

(** [x.levels[i]] and [x.levels[i] = lv] for a node pointer [x]. *)
Definition get_level (x : loc) (i : Z) : M SkiplistLevel :=
  n ← get_node x; nth (levels n) i.
Definition put_level (x : loc) (i : Z) (lv : SkiplistLevel) : M unit :=
  n ← get_node x;
  ls ← set_nth (levels n) i lv;
  set_node x (mkNode (ele n) (score n) (backward n) ls).
Definition set_backward (x : loc) (b : option loc) : M unit :=
  n ← get_node x; set_node x (mkNode (ele n) (score n) b (levels n)).

(** [for i := lo; i < hi; i++ { body }] *)
Fixpoint for_from (n : nat) (i : Z) (body : Z → M unit) : M unit :=
  match n with
  | O => mret tt
  | S n => _ ← body i; for_from n (i + 1) body
  end.
Definition for_range (lo hi : Z) (body : Z → M unit) : M unit :=
  for_from (Z.to_nat (hi - lo)) lo body.

(** ** Construction *)

(** [for sl.rnd.Intn(2) == 1 { level++ }]: the draws bound the loop. *)
Fixpoint flip (fuel : nat) (lv : Z) : M Z :=
  match fuel with
  | O => λ _, NoFuel
  | S fuel => c ← coin; if (c : bool) then flip fuel (lv + 1) else mret lv
  end.

Definition randomLevel : M Z :=
  t ← st_get;
  lv ← flip (S (length (rnd t))) 1;
  mret (if SkiplistMaxLevel <? lv then SkiplistMaxLevel else lv).

Definition fresh_node (lv : Z) (sc : float64) (el : bytes) : SkiplistNode :=
  mkNode el sc None (replicate (Z.to_nat lv) (mkLevel None 0)).

Definition createNode (lv : Z) (sc : float64) (el : bytes) : M loc :=
  alloc_node (fresh_node lv sc el).

(** The argument [maxLevel] of the constructor is not used by the code. *)
Definition NewSkipListIndex (maxLevel : Z) (draws : list bool) : SkipListIndex :=
  mkSkip 1 None 0 1 draws {[ 1%positive := fresh_node SkiplistMaxLevel (S754_zero false) [] ]} 2.

(** ** Traversal *)

(** The key order of the conditions: the node is strictly before [(sc, el)],
    or before or at it. *)
Definition before (sc : float64) (el : bytes) (n : SkiplistNode) : bool :=
  ltb (score n) sc
  || eqb (score n) sc && match bytes_cmp (ele n) el with Lt => true | _ => false end.
Definition upto_key (sc : float64) (el : bytes) (n : SkiplistNode) : bool :=
  ltb (score n) sc
  || eqb (score n) sc && match bytes_cmp (ele n) el with Gt => false | _ => true end.

(** [for x.levels[i].forward != nil && (...) { rank += span; x = forward }] *)
Fixpoint walk (fuel : nat) (go_on : SkiplistNode → bool) (i : Z) (x : loc) (rank : Z) :
    M (loc * Z) :=
  match fuel with
  | O => λ _, NoFuel
  | S fuel =>
      lv ← get_level x i;
      match forward lv with
      | None => mret (x, rank)
      | Some f =>
          n ← get_node f;
          if go_on n then walk fuel go_on i f (u32 (rank + span lv)) else mret (x, rank)
      end
  end.

(** The outer loop [for i := sl.level - 1; i >= 0; i--], [S i] levels left:
    the arrays [update] and [rank] are filled from the top. *)
Fixpoint descend (fuel : nat) (go_on : SkiplistNode → bool) (left : nat) (x : loc) (r : Z)
    (update : list (option loc)) (rank : list Z) :
    M (loc * list (option loc) * list Z) :=
  match left with
  | O => mret (x, update, rank)
  | S i =>
      '(x, r) ← walk fuel go_on (Z.of_nat i) x r;
      update ← set_nth update (Z.of_nat i) (Some x);
      rank ← set_nth rank (Z.of_nat i) r;
      descend fuel go_on i x r update rank
  end.

Definition no_update : list (option loc) := replicate (Z.to_nat SkiplistMaxLevel) None.
Definition no_rank : list Z := replicate (Z.to_nat SkiplistMaxLevel) 0.

Definition find_update (sc : float64) (el : bytes) :
    M (loc * list (option loc) * list Z) :=
  t ← st_get;
  fuel ← fuel_of;
  descend fuel (before sc el) (Z.to_nat (level t)) (head t) 0 no_update no_rank.

(** ** Insertion *)

(** [rank[i] = 0; update[i] = sl.head; update[i].levels[i].span = sl.length]
    for the levels the list did not have: [n] of them from [i] on. *)
Fixpoint raise_levels (n : nat) (i : Z) (update : list (option loc)) (rank : list Z) :
    M (list (option loc) * list Z) :=
  match n with
  | O => mret (update, rank)
  | S n =>
      rank ← set_nth rank i 0;
      t ← st_get;
      update ← set_nth update i (Some (head t));
      lv ← get_level (head t) i;
      _ ← put_level (head t) i (mkLevel (forward lv) (length_ t));
      raise_levels n (i + 1) update rank
  end.

(** The body of the linking loop at level [i]. *)
Definition link (update : list (option loc)) (rank : list Z) (x : loc) (i : Z) : M unit :=
  o ← nth update i;
  u ← deref o;
  lu ← get_level u i;
  r0 ← nth rank 0;
  ri ← nth rank i;
  _ ← put_level x i (mkLevel (forward lu) (u32 (span lu - u32 (r0 - ri))));
  put_level u i (mkLevel (Some x) (u32 (u32 (r0 - ri) + 1))).

Definition bump (delta : Z) (update : list (option loc)) (i : Z) : M unit :=
  o ← nth update i;
  u ← deref o;
  lu ← get_level u i;
  put_level u i (mkLevel (forward lu) (u32 (span lu + delta))).

Definition insert (sc : float64) (el : bytes) : M loc :=
  '(_, update, rank) ← find_update sc el;
  lv ← randomLevel;
  t ← st_get;
  '(update, rank) ←
    (if level t <? lv then
       r ← raise_levels (Z.to_nat (lv - level t)) (level t) update rank;
       _ ← set_level lv;
       mret r
     else mret (update, rank));
  x ← createNode lv sc el;
  _ ← for_range 0 lv (link update rank x);
  t ← st_get;
  _ ← for_range lv (level t) (bump 1 update);
  u0 ← nth update 0;
  _ ← set_backward x (if decide (u0 = Some (head t)) then None else u0);
  l0 ← get_level x 0;
  _ ← match forward l0 with
      | Some f => set_backward f (Some x)
      | None => set_tail (Some x)
      end;
  t ← st_get;
  _ ← set_length (u32 (length_ t + 1));
  mret x.

Definition Add (sc : float64) (member : bytes) : M Z :=
  _ ← insert sc member; mret 1.

(** ** Rank *)

(** [for x != nil { if x.ele == member { return x }; x = x.levels[0].forward }] *)
Fixpoint find_from (fuel : nat) (member : bytes) (o : option loc) : M (option loc) :=
  match fuel with
  | O => λ _, NoFuel
  | S fuel =>
      match o with
      | None => mret None
      | Some x =>
          n ← get_node x;
          if decide (ele n = member) then mret (Some x)
          else lv ← get_level x 0; find_from fuel member (forward lv)
      end
  end.

Definition findMember (member : bytes) : M (option loc) :=
  t ← st_get;
  fuel ← fuel_of;
  lv ← get_level (head t) 0;
  find_from fuel member (forward lv).

Fixpoint rank_descend (fuel : nat) (sc : float64) (el : bytes) (left : nat) (x : loc) (r : Z) :
    M Z :=
  match left with
  | O => mret 0
  | S i =>
      '(x, r) ← walk fuel (upto_key sc el) (Z.of_nat i) x r;
      n ← get_node x;
      if eqb (score n) sc && bool_decide (bytes_cmp (ele n) el = Eq) then mret r
      else rank_descend fuel sc el i x r
  end.

Definition getRankByScoreAndMember (sc : float64) (el : bytes) : M Z :=
  t ← st_get;
  fuel ← fuel_of;
  rank_descend fuel sc el (Z.to_nat (level t)) (head t) 0.

Definition GetRank (member : bytes) : M Z :=
  o ← findMember member;
  match o with
  | None => mret (-1)
  | Some x =>
      n ← get_node x;
      rank ← getRankByScoreAndMember (score n) member;
      mret (if 0 <? rank then rank - 1 else -1)
  end.

(** ** Removal *)

(** The body of the unlinking loop at level [i]. *)
Definition unlink (x : loc) (update : list (option loc)) (i : Z) : M unit :=
  o ← nth update i;
  u ← deref o;
  lu ← get_level u i;
  if decide (forward lu = Some x) then
    lx ← get_level x i;
    put_level u i (mkLevel (forward lx) (u32 (span lu + u32 (span lx - 1))))
  else put_level u i (mkLevel (forward lu) (u32 (span lu - 1))).

(** [for sl.level > 1 && sl.head.levels[sl.level-1].forward == nil { sl.level-- }] *)
Fixpoint shrink (lv : nat) : M unit :=
  match lv with
  | O => mret tt
  | S lv' =>
      t ← st_get;
      if level t <=? 1 then mret tt
      else
        l ← get_level (head t) (level t - 1);
        match forward l with
        | None => _ ← set_level (level t - 1); shrink lv'
        | Some _ => mret tt
        end
  end.

Definition deleteNode (x : loc) (update : list (option loc)) : M unit :=
  t ← st_get;
  _ ← for_range 0 (level t) (unlink x update);
  n ← get_node x;
  l0 ← get_level x 0;
  _ ← match forward l0 with
      | Some f => set_backward f (backward n)
      | None => set_tail (backward n)
      end;
  _ ← shrink (Z.to_nat (level t));
  t ← st_get;
  set_length (u32 (length_ t - 1)).

Definition deleteByNode (node : loc) : M unit :=
  n ← get_node node;
  '(_, update, _) ← find_update (score n) (ele n);
  deleteNode node update.

Definition RemoveByScore (sc : float64) (member : bytes) : M Z :=
  '(x, update, _) ← find_update sc member;
  l0 ← get_level x 0;
  match forward l0 with
  | None => mret 0
  | Some x =>
      n ← get_node x;
      if eqb (score n) sc && bool_decide (ele n = member)
      then _ ← deleteNode x update; mret 1
      else mret 0
  end.

End SkipList.
