(* ===== verification/SkipShape.v ===== *)
(** * The shape of a skip list

    A list of entries (location, item, height) in the order of level 0 stands
    for the heap: at level [j] an entry taller than [j] points to the next entry
    taller than [j], and its span is the distance to it, or to the end of the
    list when there is none, modulo 2^32.  [lvl] and [meta] are the two views of
    a node the operations use; writing one level changes only that level. *)

From Stdlib Require Import ZArith Lia Ascii.
From Stdlib Require Import SpecFloat.
From stdpp Require Import base gmap list strings numbers sorting sets fin_maps.
From S2P Require Import Prelude GoFloat Item SkipList.

Module SkipShape.
Import F64 Item SkipList.

Record entry := mkEntry { at_ : loc; item : Item; height : nat }.

Abbreviation tall j e := (j < height e)%nat.
Abbreviation flat j := (Forall (λ e, (height e <= j)%nat)).

(** ** Pointers and spans *)

Fixpoint hop (j : nat) (es : list entry) : SkiplistLevel :=
  match es with
  | [] => mkLevel None 0
  | e :: es =>
      if decide (tall j e) then mkLevel (Some (at_ e)) 1
      else mkLevel (forward (hop j es)) (span (hop j es) + 1)
  end.

Definition wrap (lv : SkiplistLevel) : SkiplistLevel := mkLevel (forward lv) (u32 (span lv)).

Lemma hop_flat j A B :
  flat j A →
  hop j (A ++ B) = mkLevel (forward (hop j B)) (Z.of_nat (length A) + span (hop j B)).
Proof.
  induction 1 as [|e A He HA IH]; cbn [app hop].
  { by destruct (hop j B). }
  rewrite decide_False by lia. rewrite IH. cbn [forward span length]. f_equal. lia.
Qed.

Lemma hop_tall j A e B : tall j e → hop j (A ++ e :: B) = hop j (A ++ [e]).
Proof.
  intros He. induction A as [|a A IH]; cbn [app hop]; [by rewrite !decide_True by done|].
  case_decide; [done|]. by rewrite IH.
Qed.

Lemma hop_flat_tall j A e B :
  flat j A → tall j e →
  hop j (A ++ e :: B) = mkLevel (Some (at_ e)) (Z.of_nat (length A) + 1).
Proof. intros HA He. rewrite hop_flat by done. cbn [hop]. by rewrite decide_True by done. Qed.

Lemma hop_none j es : forward (hop j es) = None ↔ flat j es.
Proof.
  induction es as [|e es IH]; cbn; [split; [constructor|done]|].
  destruct (decide (tall j e)) as [He|He]; cbn.
  - split; [done|]. intros [He' _]%Forall_cons_1. lia.
  - rewrite IH, Forall_cons. split; [intros; split; [lia|done]|tauto].
Qed.

Lemma hop_in j es l : forward (hop j es) = Some l → l ∈ at_ <$> es.
Proof.
  induction es as [|e es IH]; cbn; [done|]. destruct (decide (tall j e)); cbn.
  - intros [= ->]. by left.
  - intros Hl. right. by apply IH.
Qed.

(** The last entry taller than [j]: a list whose first entry is has one. *)
Lemma last_tall j e A :
  tall j e → ∃ A1 u A2, e :: A = A1 ++ u :: A2 ∧ tall j u ∧ flat j A2.
Proof.
  intros He. induction A as [|a A IH] using rev_ind.
  { by exists [], e, []. }
  destruct (decide (tall j a)).
  { exists (e :: A), a, []. done. }
  destruct IH as (A1 & u & A2 & E & Hu & H2). exists A1, u, (A2 ++ [a]).
  rewrite app_comm_cons, E, <- app_assoc. split_and!; [done..|].
  apply Forall_app. split; [done|]. constructor; [lia|done].
Qed.

(** ** Nodes *)

Definition lvl (ns : gmap loc SkiplistNode) (l : loc) (j : nat) : option SkiplistLevel :=
  n ← ns !! l; levels n !! j.
Definition meta (ns : gmap loc SkiplistNode) (l : loc) : option (Item * nat) :=
  n ← ns !! l; Some (mkItem (score n) (ele n), length (levels n)).

Definition put_lv (ns : gmap loc SkiplistNode) (l : loc) (j : nat) (lv : SkiplistLevel) :
    gmap loc SkiplistNode :=
  alter (λ n, mkNode (ele n) (score n) (backward n) (<[j := lv]> (levels n))) l ns.
Definition put_back (ns : gmap loc SkiplistNode) (l : loc) (b : option loc) :
    gmap loc SkiplistNode :=
  alter (λ n, mkNode (ele n) (score n) b (levels n)) l ns.

Definition with_nodes (t : SkipListIndex) (ns : gmap loc SkiplistNode) : SkipListIndex :=
  mkSkip (head t) (tail t) (length_ t) (level t) (rnd t) ns (next_loc t).

Lemma lvl_put ns l j lv l' j' :
  is_Some (lvl ns l j) →
  lvl (put_lv ns l j lv) l' j' = if decide (l' = l ∧ j' = j) then Some lv else lvl ns l' j'.
Proof.
  intros [lv0 H0]. unfold lvl, put_lv in *. destruct (decide (l' = l)) as [->|Hl].
  - rewrite lookup_alter_eq. destruct (ns !! l) as [n|]; cbn in *; [|done].
    destruct (decide (j' = j)) as [->|Hj].
    + rewrite decide_True by done. apply list_lookup_insert_eq. by eapply lookup_lt_Some.
    + rewrite decide_False by naive_solver. by rewrite list_lookup_insert_ne by done.
  - rewrite lookup_alter_ne by done. by rewrite decide_False by naive_solver.
Qed.

Lemma meta_put ns l j lv l' : meta (put_lv ns l j lv) l' = meta ns l'.
Proof.
  unfold meta, put_lv. destruct (decide (l' = l)) as [->|].
  - rewrite lookup_alter_eq. destruct (ns !! l); cbn; [|done]. by rewrite length_insert.
  - by rewrite lookup_alter_ne.
Qed.

Lemma lvl_back ns l b l' j : lvl (put_back ns l b) l' j = lvl ns l' j.
Proof.
  unfold lvl, put_back. destruct (decide (l' = l)) as [->|].
  - rewrite lookup_alter_eq. by destruct (ns !! l).
  - by rewrite lookup_alter_ne.
Qed.

Lemma meta_back ns l b l' : meta (put_back ns l b) l' = meta ns l'.
Proof.
  unfold meta, put_back. destruct (decide (l' = l)) as [->|].
  - rewrite lookup_alter_eq. by destruct (ns !! l).
  - by rewrite lookup_alter_ne.
Qed.

(** ** The store operations on them *)

Lemma nth_ok {A} (l : list A) (j : nat) x (t : SkipListIndex) :
  l !! j = Some x → nth l (Z.of_nat j) t = Ret (x, t).
Proof.
  intros H. unfold nth, st_lift. rewrite (proj2 (Z.ltb_ge _ _)) by lia. by rewrite Nat2Z.id, H.
Qed.

Lemma set_nth_ok {A} (l : list A) (j : nat) x (t : SkipListIndex) :
  (j < length l)%nat → set_nth l (Z.of_nat j) x t = Ret (<[j := x]> l, t).
Proof.
  intros [y H]%lookup_lt_is_Some_2. unfold set_nth, mbind, ST_bind.
  by rewrite (nth_ok _ _ y), Nat2Z.id.
Qed.

Lemma get_level_ok t l j lv :
  lvl (nodes t) l j = Some lv → get_level l (Z.of_nat j) t = Ret (lv, t).
Proof.
  unfold lvl. intros (n & Hn & Hl)%bind_Some. unfold get_level, get_node, mbind, ST_bind.
  rewrite Hn. cbn. by apply nth_ok.
Qed.

Lemma put_level_ok t l j lv :
  is_Some (lvl (nodes t) l j) →
  put_level l (Z.of_nat j) lv t = Ret (tt, with_nodes t (put_lv (nodes t) l j lv)).
Proof.
  intros [lv0 (n & Hn & Hl)%bind_Some].
  unfold put_level, get_node, set_node, mbind, ST_bind. rewrite Hn. cbn.
  rewrite set_nth_ok by (by eapply lookup_lt_Some). unfold with_nodes. do 3 f_equal.
  unfold put_lv. symmetry. apply map_eq. intros l'. destruct (decide (l' = l)) as [->|].
  - by rewrite lookup_alter_eq, lookup_insert_eq, Hn.
  - by rewrite lookup_alter_ne, lookup_insert_ne.
Qed.

Lemma set_backward_ok t l b :
  is_Some (meta (nodes t) l) →
  set_backward l b t = Ret (tt, with_nodes t (put_back (nodes t) l b)).
Proof.
  intros [x (n & Hn & _)%bind_Some].
  unfold set_backward, get_node, set_node, mbind, ST_bind. rewrite Hn. cbn.
  unfold with_nodes. do 3 f_equal. unfold put_back. symmetry. apply map_eq. intros l'.
  destruct (decide (l' = l)) as [->|].
  - by rewrite lookup_alter_eq, lookup_insert_eq, Hn.
  - by rewrite lookup_alter_ne, lookup_insert_ne.
Qed.

Lemma get_node_ok t l it h :
  meta (nodes t) l = Some (it, h) →
  ∃ n, get_node l t = Ret (n, t) ∧ score n = Score it ∧ ele n = Member it
       ∧ length (levels n) = h.
Proof.
  intros (n & Hn & [= <- <-])%bind_Some. exists n. unfold get_node. by rewrite Hn.
Qed.

(** ** One level of the list *)

(** Level [j] of the entries [A], which are followed by [B]. *)
Fixpoint level_in (ns : gmap loc SkiplistNode) (j : nat) (A B : list entry) : Prop :=
  match A with
  | [] => True
  | e :: A => (tall j e → lvl ns (at_ e) j = Some (wrap (hop j (A ++ B)))) ∧ level_in ns j A B
  end.

Definition level_ok (ns : gmap loc SkiplistNode) (j : nat) (es : list entry) : Prop :=
  level_in ns j es [].

Lemma level_in_app ns j A B C : level_in ns j (A ++ B) C ↔ level_in ns j A (B ++ C) ∧ level_in ns j B C.
Proof. induction A as [|e A IH]; cbn; [tauto|]. rewrite IH, <- app_assoc. tauto. Qed.

Lemma level_in_tall ns j A u B : tall j u → level_in ns j A (u :: B) ↔ level_in ns j A [u].
Proof.
  intros Hu. induction A as [|e A IH]; cbn; [done|]. by rewrite IH, (hop_tall j A u B).
Qed.

Lemma level_in_flat ns j A B : flat j A → level_in ns j A B.
Proof. induction 1 as [|e A He HA IH]; cbn; [done|]. split; [lia|done]. Qed.

(** Around the last tall entry [u] before [B]. *)
Lemma level_split ns j A1 u A2 B :
  tall j u → flat j A2 →
  level_ok ns j (A1 ++ u :: A2 ++ B) ↔
    level_in ns j A1 [u]
    ∧ lvl ns (at_ u) j = Some (wrap (mkLevel (forward (hop j B))
                                            (Z.of_nat (length A2) + span (hop j B))))
    ∧ level_ok ns j B.
Proof.
  intros Hu H2. unfold level_ok. rewrite level_in_app, app_nil_r, level_in_tall by done.
  cbn [level_in]. rewrite level_in_app, !app_nil_r, hop_flat by done.
  pose proof (level_in_flat ns j A2 B H2). tauto.
Qed.

(** A level depends only on its own pointers. *)
Lemma level_in_ext ns ns' j A B :
  (∀ e, e ∈ A → tall j e → lvl ns' (at_ e) j = lvl ns (at_ e) j) →
  level_in ns j A B → level_in ns' j A B.
Proof.
  induction A as [|e A IH]; cbn; [done|]. intros H [H1 H2]. split.
  - intros He. rewrite H by (done || set_solver). auto.
  - apply IH; [|done]. intros. apply H; set_solver.
Qed.

End SkipShape.
