(* ===== verification/SkipSearch.v ===== *)
(** * Searching a skip list

    The invariant of an index, and what the walks through it find: at every
    level the last entry taller than the level among those the condition
    accepts, and its position as the rank. *)

From Stdlib Require Import ZArith Lia Ascii.
From Stdlib Require Import SpecFloat.
From stdpp Require Import base gmap list strings numbers sorting sets fin_maps.
From S2P Require Import Prelude GoFloat Item SkipList SkipShape.

Module SkipSearch.
Import F64 Item SkipList SkipShape.

(** ** Invariant *)

Definition MaxLevel : nat := Z.to_nat SkiplistMaxLevel.

(** The head node as an entry. *)
Definition hd (t : SkipListIndex) : entry :=
  mkEntry (head t) (mkItem (S754_zero false) []) MaxLevel.

Definition top (t : SkipListIndex) : nat := Z.to_nat (level t).

(** What holds of the nodes whatever their pointers are. *)
Record nodes_ok (t : SkipListIndex) (es : list entry) : Prop := {
  ok_locs : NoDup (at_ <$> hd t :: es);
  ok_fresh : Forall (λ e, (at_ e < next_loc t)%positive) (hd t :: es);
  ok_level : 1 <= level t <= SkiplistMaxLevel;
  ok_heights : Forall (λ e, (1 <= height e <= top t)%nat) es;
  ok_meta : Forall (λ e, meta (nodes t) (at_ e) = Some (item e, height e)) (hd t :: es)
}.

(** The first [k] levels are linked, and the head has nothing above them. *)
Record levels_ok (t : SkipListIndex) (es : list entry) (k : nat) : Prop := {
  ok_linked j : (j < k)%nat → level_ok (nodes t) j (hd t :: es);
  ok_above j : (k <= j < MaxLevel)%nat → ∃ sp, lvl (nodes t) (head t) j = Some (mkLevel None sp)
}.

Record skip_ok (t : SkipListIndex) (es : list entry) : Prop := {
  ok_nodes : nodes_ok t es;
  ok_levels : levels_ok t es (top t);
  ok_length : length_ t = u32 (Z.of_nat (length es))
}.

Lemma top_bound t es : nodes_ok t es → (1 <= top t <= MaxLevel)%nat.
Proof. intros H. pose proof (ok_level _ _ H). unfold top, MaxLevel, SkiplistMaxLevel in *. lia. Qed.

(** ** Ranks modulo 2^32 *)

Lemma u32_add_l a b : u32 (u32 a + b) = u32 (a + b).
Proof. unfold u32. apply Zplus_mod_idemp_l. Qed.
Lemma u32_add_r a b : u32 (a + u32 b) = u32 (a + b).
Proof. unfold u32. apply Zplus_mod_idemp_r. Qed.
Lemma u32_sub_l a b : u32 (u32 a - b) = u32 (a - b).
Proof. unfold u32. apply Zminus_mod_idemp_l. Qed.
Lemma u32_sub_r a b : u32 (a - u32 b) = u32 (a - b).
Proof. unfold u32. apply Zminus_mod_idemp_r. Qed.
Lemma u32_small a : 0 <= a < two32 → u32 a = a.
Proof. apply Z.mod_small. Qed.

(** ** One level *)

Lemma first_tall j A : flat j A ∨ ∃ C v D, A = C ++ v :: D ∧ flat j C ∧ tall j v.
Proof.
  induction A as [|e A IH]; [left; constructor|].
  destruct (decide (tall j e)) as [He|He]; [right; by exists [], e, A|].
  destruct IH as [IH|(C & v & D & -> & HC & Hv)].
  - left. constructor; [lia|done].
  - right. exists (e :: C), v, D. split_and!; [done| |done]. constructor; [lia|done].
Qed.

Lemma level_at ns j A u R :
  level_ok ns j (A ++ u :: R) → tall j u → lvl ns (at_ u) j = Some (wrap (hop j R)).
Proof.
  unfold level_ok. rewrite level_in_app. cbn. rewrite app_nil_r. intros [_ [H _]] Hu. auto.
Qed.

(** The condition [go_on] accepts the nodes of [A] and not those of [B]. *)
Definition splits (go_on : SkiplistNode → bool) (A B : list entry) : Prop :=
  (∀ e n, e ∈ A → score n = Score (item e) → ele n = Member (item e) → go_on n = true) ∧
  (∀ e n, e ∈ B → score n = Score (item e) → ele n = Member (item e) → go_on n = false).

Lemma walk_ok fuel t go_on j A1 u A2 B :
  (length A2 < fuel)%nat → tall j u → level_ok (nodes t) j (A1 ++ u :: A2 ++ B) →
  Forall (λ e, meta (nodes t) (at_ e) = Some (item e, height e)) (A2 ++ B) →
  splits go_on A2 B →
  ∃ A1' u' A2', A1 ++ u :: A2 = A1' ++ u' :: A2' ∧ tall j u' ∧ flat j A2' ∧
    A2' `suffix_of` A2 ∧
    walk fuel go_on (Z.of_nat j) (at_ u) (u32 (Z.of_nat (length A1))) t
    = Ret ((at_ u', u32 (Z.of_nat (length A1'))), t).
Proof.
  revert A1 u A2. induction fuel as [|fuel IH]; intros A1 u A2 Hf Hu Hl Hm Hs; [lia|].
  pose proof (level_at _ _ _ _ _ Hl Hu) as Hlv.
  destruct (first_tall j A2) as [H2|(C & v & D & -> & HC & Hv)].
  - exists A1, u, A2. split_and!; [done..|]. cbn [walk]. unfold mbind, ST_bind.
    rewrite (get_level_ok _ _ _ _ Hlv). rewrite hop_flat by done. cbn [wrap forward].
    destruct (forward (hop j B)) as [f|] eqn:Ef; [|done].
    apply hop_in, list_elem_of_fmap in Ef as (e & -> & He).
    rewrite Forall_forall in Hm. specialize (Hm e ltac:(set_solver)).
    destruct (get_node_ok _ _ _ _ Hm) as (n & -> & E1 & E2 & _).
    by rewrite (proj2 Hs e n He E1 E2).
  - destruct (IH (A1 ++ u :: C) v D) as (A1' & u' & A2' & E & Hu' & H2' & Hsf & Ew).
    + rewrite length_app in Hf. cbn in Hf. lia.
    + done.
    + rewrite <- app_assoc in Hl |- *. cbn. exact Hl.
    + rewrite <- app_assoc, Forall_app in Hm. destruct Hm as [_ Hm].
      cbn [app] in Hm. by apply Forall_cons_1 in Hm as [_ Hm].
    + split; [|apply Hs]. intros e n He. apply Hs. set_solver.
    + exists A1', u', A2'. split_and!; [by rewrite <- E, <- app_assoc|done..|by apply suffix_app_r, suffix_cons_r|].
      cbn [walk]. unfold mbind, ST_bind. rewrite (get_level_ok _ _ _ _ Hlv).
      rewrite <- app_assoc. cbn [app]. rewrite hop_flat_tall by done. cbn [wrap forward span].
      assert (meta (nodes t) (at_ v) = Some (item v, height v)) as Hmv.
      { rewrite Forall_forall in Hm. apply Hm. set_solver. }
      destruct (get_node_ok _ _ _ _ Hmv) as (n & -> & E1 & E2 & _).
      rewrite (proj1 Hs v n ltac:(set_solver) E1 E2), u32_add_l, u32_add_r, <- Ew. do 2 f_equal.
      rewrite length_app. cbn [length]. f_equal. lia.
Qed.

(** ** All levels *)

(** The last entry of [A] taller than [j], and its position. *)
Definition pos_at (A : list entry) (j : nat) (o : option loc) (r : Z) : Prop :=
  ∃ A1 u A2, A = A1 ++ u :: A2 ∧ tall j u ∧ flat j A2
             ∧ o = Some (at_ u) ∧ r = u32 (Z.of_nat (length A1)).

Lemma descend_ok fuel t go_on k A1 u A2 B update rank :
  (length A2 < fuel)%nat → (k <= height u)%nat → (k <= length update)%nat →
  (k <= length rank)%nat →
  (∀ j, (j < k)%nat → level_ok (nodes t) j (A1 ++ u :: A2 ++ B)) →
  Forall (λ e, meta (nodes t) (at_ e) = Some (item e, height e)) (A2 ++ B) →
  splits go_on A2 B →
  ∃ x update' rank',
    descend fuel go_on k (at_ u) (u32 (Z.of_nat (length A1))) update rank t
      = Ret ((x, update', rank'), t)
    ∧ length update' = length update ∧ length rank' = length rank
    ∧ (∀ j, (j < k)%nat → ∃ o r, update' !! j = Some o ∧ rank' !! j = Some r
                                 ∧ pos_at (A1 ++ u :: A2) j o r)
    ∧ (∀ j, (k <= j)%nat → update' !! j = update !! j ∧ rank' !! j = rank !! j)
    ∧ ((0 < k)%nat → update' !! 0%nat = Some (Some x)).
Proof.
  revert A1 u A2 update rank. induction k as [|k IH]; intros A1 u A2 update rank Hf Hu Hlu Hlr Hl Hm Hs.
  { exists (at_ u), update, rank. split_and!; [done..|lia|done|lia]. }
  destruct (walk_ok fuel t go_on k A1 u A2 B) as (A1' & u' & A2' & E & Hu' & H2' & Hsf & Ew);
    [done|lia|by apply Hl; lia|done..|].
  destruct Hsf as [P EP].
  assert (A1 ++ u :: A2 ++ B = A1' ++ u' :: A2' ++ B) as EB.
  { by rewrite !app_comm_cons, !app_assoc, E. }
  destruct (IH A1' u' A2' (<[k := Some (at_ u')]> update)
              (<[k := u32 (Z.of_nat (length A1'))]> rank))
    as (x & update' & rank' & Ed & L1 & L2 & Hin & Hout & H0).
  - rewrite EP, length_app in Hf. lia.
  - lia.
  - rewrite length_insert. lia.
  - rewrite length_insert. lia.
  - intros j Hj. rewrite <- EB. apply Hl. lia.
  - rewrite EP, <- app_assoc, Forall_app in Hm. tauto.
  - destruct Hs as [Hs1 Hs2]. split; [|done]. intros e n He. apply Hs1. set_solver.
  - rewrite length_insert in L1. rewrite length_insert in L2. exists x, update', rank'.
    assert (update' !! k = Some (Some (at_ u')) ∧ rank' !! k = Some (u32 (Z.of_nat (length A1'))))
      as [Ku Kr].
    { destruct (Hout k ltac:(lia)) as [-> ->]. by rewrite !list_lookup_insert_eq by lia. }
    split_and!; [|done|done| | |].
    + cbn [descend]. unfold mbind, ST_bind. rewrite Ew, !set_nth_ok by lia. exact Ed.
    + intros j Hj. destruct (decide (j = k)) as [->|].
      * eexists _, _. split_and!; [done..|]. exists A1', u', A2'. by rewrite E.
      * rewrite E. apply Hin. lia.
    + intros j Hj. destruct (Hout j ltac:(lia)) as [-> ->].
      by rewrite !list_lookup_insert_ne by lia.
    + intros _. destruct k as [|k]; [|by apply H0; lia].
      cbn in Ed. injection Ed as <- <- <-. by rewrite list_lookup_insert_eq by lia.
Qed.

(** The nodes of the list are in the store, so its size bounds every walk. *)
Lemma fuel_enough t es : nodes_ok t es → (length es < size (nodes t))%nat.
Proof.
  intros H. pose proof (ok_locs _ _ H) as HN. pose proof (ok_meta _ _ H) as Hm.
  assert (list_to_set (at_ <$> hd t :: es) ⊆ dom (nodes t)) as Hsub.
  { intros l. rewrite elem_of_list_to_set, list_elem_of_fmap. intros (e & -> & He).
    rewrite Forall_forall in Hm. apply Hm, bind_Some in He as (n & Hn & _).
    by apply elem_of_dom_2 in Hn. }
  apply subseteq_size in Hsub. rewrite size_list_to_set, size_dom in Hsub by done.
  rewrite length_fmap in Hsub. cbn in Hsub. lia.
Qed.

(** What the arrays of a search hold, for the levels up to [k]. *)
Record found (A : list entry) (k : nat) (update : list (option loc)) (rank : list Z) : Prop := {
  found_update : length update = MaxLevel;
  found_rank : length rank = MaxLevel;
  found_at j : (j < k)%nat → ∃ o r, update !! j = Some o ∧ rank !! j = Some r ∧ pos_at A j o r
}.

Lemma search_ok t es go_on A B :
  skip_ok t es → es = A ++ B → splits go_on A B →
  ∃ x update rank,
    descend (S (size (nodes t))) go_on (top t) (head t) 0 no_update no_rank t
      = Ret ((x, update, rank), t)
    ∧ found (hd t :: A) (top t) update rank ∧ update !! 0%nat = Some (Some x).
Proof.
  intros H -> Hs. pose proof (ok_nodes _ _ H) as Hn. pose proof (top_bound _ _ Hn) as Ht.
  pose proof (fuel_enough _ _ Hn) as Hf. rewrite length_app in Hf.
  destruct (descend_ok (S (size (nodes t))) t go_on (top t) [] (hd t) A B no_update no_rank)
    as (x & up & rk & E & L1 & L2 & Hin & _ & H0).
  - lia.
  - apply Ht.
  - unfold no_update. rewrite length_replicate. apply Ht.
  - unfold no_rank. rewrite length_replicate. apply Ht.
  - intros j Hj. by apply (ok_linked _ _ _ (ok_levels _ _ H)).
  - pose proof (ok_meta _ _ Hn) as Hm. by apply Forall_cons_1 in Hm as [_ Hm].
  - done.
  - exists x, up, rk. split_and!; [exact E| |apply H0; lia].
    split; [rewrite L1; apply length_replicate|rewrite L2; apply length_replicate|exact Hin].
Qed.

(** ** The two conditions *)

Lemma before_cmp sc el n :
  is_nan (score n) = false → is_nan sc = false →
  before sc el n = match ItemFacts.key_cmp (mkItem (score n) (ele n)) (mkItem sc el) with
                   | Lt => true | _ => false end.
Proof.
  intros Hn Hs. unfold before, ItemFacts.key_cmp. rewrite ltb_rank, eqb_rank. cbn.
  destruct (ItemFacts.rank_not_nan _ Hn) as [a ->], (ItemFacts.rank_not_nan _ Hs) as [b ->].
  by destruct (cmp3 a b).
Qed.

Lemma upto_cmp sc el n :
  is_nan (score n) = false → is_nan sc = false →
  upto_key sc el n = match ItemFacts.key_cmp (mkItem (score n) (ele n)) (mkItem sc el) with
                     | Gt => false | _ => true end.
Proof.
  intros Hn Hs. unfold upto_key, ItemFacts.key_cmp. rewrite ltb_rank, eqb_rank. cbn.
  destruct (ItemFacts.rank_not_nan _ Hn) as [a ->], (ItemFacts.rank_not_nan _ Hs) as [b ->].
  by destruct (cmp3 a b).
Qed.

End SkipSearch.
