(* ===== verification/SkipInsert.v ===== *)
(** * Insertion into a skip list

    [insert] finds the place, raises the list if the new node is taller, and
    links the node level by level; each pass of a loop takes one level from the
    old list to the new one. *)

From Stdlib Require Import ZArith Lia Ascii.
From Stdlib Require Import SpecFloat.
From stdpp Require Import base gmap list strings numbers sorting sets fin_maps.
From S2P Require Import Prelude GoFloat Item SkipList SkipShape SkipSearch.

Module SkipInsert.
Import F64 Item SkipList SkipShape SkipSearch.

(** ** Loops and stores *)

Lemma for_from_ind (P : nat → SkipListIndex → Prop) (body : Z → M unit) n lo t :
  (∀ i t, (lo <= i < lo + n)%nat → P i t →
     ∃ t', body (Z.of_nat i) t = Ret (tt, t') ∧ P (S i) t') →
  P lo t → ∃ t', for_from n (Z.of_nat lo) body t = Ret (tt, t') ∧ P (lo + n)%nat t'.
Proof.
  revert lo t. induction n as [|n IH]; intros lo t Hb Hp; cbn [for_from].
  { exists t. by rewrite Nat.add_0_r. }
  destruct (Hb lo t ltac:(lia) Hp) as (t1 & E1 & H1).
  destruct (IH (S lo) t1) as (t2 & E2 & H2); [|done|].
  { intros i t' Hi. apply Hb. lia. }
  exists t2. unfold mbind, ST_bind. rewrite E1. replace (Z.of_nat lo + 1) with (Z.of_nat (S lo)) by lia.
  rewrite E2. split; [done|]. by replace (lo + S n)%nat with (S lo + n)%nat by lia.
Qed.

Lemma lvl_some ns l it h j : meta ns l = Some (it, h) → (j < h)%nat → is_Some (lvl ns l j).
Proof.
  intros (n & Hn & [= _ <-])%bind_Some Hj. unfold lvl. rewrite Hn. cbn.
  by apply lookup_lt_is_Some_2.
Qed.

Lemma nodes_ok_ext t es ns :
  nodes_ok t es → (∀ l, meta ns l = meta (nodes t) l) → nodes_ok (with_nodes t ns) es.
Proof.
  intros [H1 H2 H3 H4 H5] Hm. split; try done.
  eapply Forall_impl; [exact H5|]. cbn. intros e He. by rewrite Hm.
Qed.

Lemma level_ok_ext ns ns' j es :
  (∀ e, e ∈ es → lvl ns' (at_ e) j = lvl ns (at_ e) j) → level_ok ns j es → level_ok ns' j es.
Proof. intros H. apply level_in_ext. auto. Qed.

Lemma level_ok_put ns l i lv j es :
  is_Some (lvl ns l i) → j ≠ i ∨ l ∉ at_ <$> es →
  level_ok ns j es → level_ok (put_lv ns l i lv) j es.
Proof.
  intros Hs Hj. apply level_ok_ext. intros e He. rewrite lvl_put by done.
  rewrite decide_False; [done|]. intros [E1 E2]. destruct Hj as [Hj|Hj]; [done|].
  apply Hj. rewrite <- E1. by apply list_elem_of_fmap_2.
Qed.

(** Changing what follows the last tall entry [u]: only [u]'s pointer at that
    level is rewritten. *)
Lemma level_relink ns j A1 u A2 B B' lv :
  tall j u → flat j A2 → is_Some (lvl ns (at_ u) j) →
  at_ u ∉ at_ <$> A1 → at_ u ∉ at_ <$> B' →
  level_ok ns j (A1 ++ u :: A2 ++ B) → level_ok ns j B' →
  lv = wrap (mkLevel (forward (hop j B')) (Z.of_nat (length A2) + span (hop j B'))) →
  level_ok (put_lv ns (at_ u) j lv) j (A1 ++ u :: A2 ++ B').
Proof.
  intros Hu H2 Hs HA HB' Hold HB ->. apply level_split in Hold as (H1 & _ & _); [|done..].
  apply level_split; [done..|]. split_and!.
  - eapply level_in_ext; [|exact H1]. intros e He _. rewrite lvl_put by done.
    rewrite decide_False; [done|]. intros [E _]. apply HA. rewrite <- E.
    by apply list_elem_of_fmap_2.
  - rewrite lvl_put by done. by rewrite decide_True.
  - apply level_ok_put; auto.
Qed.

(** ** New levels *)

Lemma raise_step t es k :
  nodes_ok t es → levels_ok t es k → (top t <= k < MaxLevel)%nat →
  length_ t = u32 (Z.of_nat (length es)) →
  levels_ok (with_nodes t (put_lv (nodes t) (head t) k (mkLevel None (length_ t)))) es (S k).
Proof.
  intros Hn [Hl Ha] Hk Hlen.
  assert (is_Some (lvl (nodes t) (head t) k)) as Hs by (destruct (Ha k ltac:(lia)); eauto).
  assert (flat k es) as Hflat.
  { eapply Forall_impl; [exact (ok_heights _ _ Hn)|]. cbn. lia. }
  split; cbn [nodes with_nodes head].
  - intros j Hj. destruct (decide (j = k)) as [->|Hne].
    + split; [|by apply level_in_flat]. intros _. cbn [hd at_]. rewrite lvl_put by done.
      rewrite decide_True by done. f_equal. rewrite app_nil_r.
      rewrite <- (app_nil_r es), hop_flat by done. cbn. unfold wrap. cbn. by rewrite Hlen, Z.add_0_r.
    + apply level_ok_put; [done|by left|]. apply Hl. lia.
  - intros j Hj. rewrite lvl_put by done. rewrite decide_False by lia. apply Ha. lia.
Qed.

Lemma raise_ok n k t es A B up rk :
  nodes_ok t es → levels_ok t es k → (top t <= k)%nat → (k + n <= MaxLevel)%nat →
  length_ t = u32 (Z.of_nat (length es)) → es = A ++ B → found (hd t :: A) k up rk →
  ∃ up' rk' ns,
    raise_levels n (Z.of_nat k) up rk t = Ret ((up', rk'), with_nodes t ns)
    ∧ nodes_ok (with_nodes t ns) es ∧ levels_ok (with_nodes t ns) es (k + n)
    ∧ found (hd t :: A) (k + n) up' rk'.
Proof.
  revert k t up rk. induction n as [|n IH]; intros k t up rk Hn Hl Hk Hm Hlen HE Hf.
  { exists up, rk, (nodes t). rewrite Nat.add_0_r. by destruct t. }
  destruct (ok_above _ _ _ Hl k ltac:(lia)) as [sp Hsp].
  set (t1 := with_nodes t (put_lv (nodes t) (head t) k (mkLevel None (length_ t)))).
  destruct (IH (S k) t1 (<[k := Some (head t)]> up) (<[k := 0]> rk))
    as (up' & rk' & ns & E & Hn' & Hl' & Hf').
  - apply nodes_ok_ext; [done|]. intros l. apply meta_put.
  - apply raise_step; auto with lia.
  - change (top t1) with (top t). lia.
  - lia.
  - done.
  - done.
  - destruct Hf as [F1 F2 F3]. split; [by rewrite length_insert|by rewrite length_insert|].
    intros j Hj. destruct (decide (j = k)) as [->|].
    + exists (Some (head t)), 0. rewrite !list_lookup_insert_eq by lia. split_and!; [done..|].
      exists [], (hd t), A. split_and!; [done|cbn; lia| |done|done].
      pose proof (ok_heights _ _ Hn) as Hh. rewrite HE, Forall_app in Hh.
      eapply Forall_impl; [apply Hh|]. cbn. lia.
    + rewrite !list_lookup_insert_ne by lia. apply F3. lia.
  - exists up', rk', ns. rewrite Nat.add_succ_r. split_and!; [|exact Hn'|exact Hl'|exact Hf'].
    cbn [raise_levels]. unfold mbind, ST_bind. destruct Hf as [F1 F2 _].
    rewrite set_nth_ok by lia. unfold st_get. rewrite set_nth_ok by lia.
    rewrite (get_level_ok _ _ _ _ Hsp). cbn [forward].
    rewrite put_level_ok by (rewrite Hsp; eauto). fold t1.
    replace (Z.of_nat k + 1) with (Z.of_nat (S k)) by lia. exact E.
Qed.

(** ** Linking the new node *)

Lemma pos_zero A o r :
  Forall (λ e, (1 <= height e)%nat) A → pos_at A 0 o r →
  ∃ A1 u, A = A1 ++ [u] ∧ o = Some (at_ u) ∧ r = u32 (Z.of_nat (length A1)).
Proof.
  intros Hh (A1 & u & A2 & -> & _ & H2 & -> & ->). exists A1, u. split_and!; [|done..].
  destruct A2 as [|e A2]; [done|]. apply Forall_app in Hh as [_ Hh].
  apply Forall_cons_1 in Hh as [_ Hh]. apply Forall_cons_1 in Hh as [He _].
  apply Forall_cons_1 in H2 as [H2 _]. lia.
Qed.

Section Link.
Context (t : SkipListIndex) (x : entry) (A B : list entry).
Context (up : list (option loc)) (rk : list Z).
Hypothesis Hlocs : NoDup (at_ <$> hd t :: A ++ x :: B).
Hypothesis Hmeta :
  Forall (λ e, meta (nodes t) (at_ e) = Some (item e, height e)) (hd t :: A ++ x :: B).
Hypothesis Hheights : Forall (λ e, (1 <= height e)%nat) (hd t :: A).
Hypothesis Htop : (height x <= top t <= MaxLevel)%nat.
Hypothesis Hfound : found (hd t :: A) (top t) up rk.

(** The first [i] levels have the new node, the others are as before. *)
Definition linking (i : nat) (t' : SkipListIndex) : Prop :=
  ∃ ns, t' = with_nodes t ns ∧ (∀ l, meta ns l = meta (nodes t) l)
    ∧ (∀ j, (j < i)%nat → level_ok ns j (hd t :: A ++ x :: B))
    ∧ (∀ j, (i <= j < top t)%nat → level_ok ns j (hd t :: A ++ B))
    ∧ (∀ j, (top t <= j < MaxLevel)%nat → ∃ sp, lvl ns (head t) j = Some (mkLevel None sp)).

Lemma meta_of e : e ∈ hd t :: A ++ x :: B → meta (nodes t) (at_ e) = Some (item e, height e).
Proof. rewrite Forall_forall in Hmeta. apply Hmeta. Qed.

Lemma x_apart : at_ x ∉ at_ <$> hd t :: A ++ B.
Proof.
  clear -Hlocs. rewrite app_comm_cons, fmap_app in Hlocs |- *. cbn [fmap list_fmap] in Hlocs.
  apply NoDup_app in Hlocs as (_ & H1 & H2). apply NoDup_cons in H2 as [H2 _].
  rewrite elem_of_app. intros [H|H]; [|done]. apply (H1 _ H). by left.
Qed.

(** The entry to relink at level [i], apart from all others. *)
Lemma place i :
  (i < top t)%nat →
  ∃ A1 u A2, hd t :: A = A1 ++ u :: A2 ∧ tall i u ∧ flat i A2
    ∧ up !! i = Some (Some (at_ u)) ∧ rk !! i = Some (u32 (Z.of_nat (length A1)))
    ∧ rk !! 0%nat = Some (u32 (Z.of_nat (length A1 + length A2)))
    ∧ at_ u ∉ at_ <$> A1 ∧ at_ u ∉ at_ <$> x :: B ∧ u ∈ hd t :: A ++ x :: B.
Proof.
  intros Hi. destruct Hfound as [_ _ Hf].
  destruct (Hf i Hi) as (o & r & Eo & Er & A1 & u & A2 & E & Hu & H2 & -> & ->).
  destruct (Hf 0%nat ltac:(lia)) as (o0 & r0 & _ & E0 & Hp).
  destruct (pos_zero _ _ _ Hheights Hp) as (A0 & u0 & EA & _ & ->).
  exists A1, u, A2. split_and!; try done.
  - rewrite E0. do 3 f_equal. apply (f_equal length) in E. rewrite EA, !length_app in E. cbn in E. lia.
  - rewrite app_comm_cons, E, fmap_app in Hlocs. cbn in Hlocs. rewrite fmap_app in Hlocs.
    apply NoDup_app in Hlocs as (H & _ & _). apply NoDup_app in H as (_ & H & _).
    intros Hin. apply (H _ Hin). by left.
  - rewrite app_comm_cons, E, fmap_app in Hlocs.
    apply NoDup_app in Hlocs as (_ & H & _). apply H. rewrite fmap_app. set_solver.
  - rewrite app_comm_cons, E. set_solver.
Qed.

Lemma linking_split i ns A1 u A2 C :
  hd t :: A = A1 ++ u :: A2 → level_ok ns i (hd t :: A ++ C) = level_ok ns i (A1 ++ u :: A2 ++ C).
Proof. intros E. by rewrite app_comm_cons, E, <- app_assoc. Qed.

Lemma link_pass i t' :
  (i < height x)%nat → linking i t' →
  ∃ t'', link up rk (at_ x) (Z.of_nat i) t' = Ret (tt, t'') ∧ linking (S i) t''.
Proof.
  intros Hi (ns & -> & Hm & Hnew & Hold & Habove).
  destruct (place i ltac:(lia)) as (A1 & u & A2 & E & Hu & H2 & Eu & Er & E0 & Ha & Hb & Hin).
  pose proof (Hold i ltac:(lia)) as Hl. rewrite (linking_split i ns A1 u A2 B E) in Hl.
  pose proof Hl as Hl'. apply level_split in Hl' as (_ & Elu & HB); [|done..].
  assert (is_Some (lvl ns (at_ x) i)) as Hsx.
  { eapply lvl_some; [rewrite Hm; apply meta_of; set_solver|done]. }
  set (lx := wrap (hop i B)). set (ns1 := put_lv ns (at_ x) i lx).
  assert (is_Some (lvl ns1 (at_ u) i)) as Hsu.
  { unfold ns1. rewrite lvl_put by done. case_decide; [by eexists|]. by rewrite Elu. }
  set (lu := mkLevel (Some (at_ x)) (u32 (Z.of_nat (length A2) + 1))).
  set (ns2 := put_lv ns1 (at_ u) i lu).
  exists (with_nodes t ns2). split.
  - unfold link, mbind, ST_bind. rewrite (nth_ok _ _ _ _ Eu). cbn [deref st_lift of_option].
    unfold deref, st_lift. cbn [of_option mbind outcome_bind].
    rewrite (get_level_ok (with_nodes t ns) _ _ _ Elu).
    change 0 with (Z.of_nat 0). rewrite (nth_ok _ _ _ _ E0), (nth_ok _ _ _ _ Er).
    rewrite put_level_ok by done. cbn [nodes with_nodes wrap forward span].
    assert (u32 (u32 (Z.of_nat (length A1 + length A2)) - u32 (Z.of_nat (length A1)))
            = u32 (Z.of_nat (length A2))) as ->.
    { rewrite u32_sub_l, u32_sub_r. f_equal. lia. }
    rewrite u32_sub_l, u32_sub_r, u32_add_l.
    replace (Z.of_nat (length A2) + span (hop i B) - Z.of_nat (length A2)) with (span (hop i B)) by lia.
    fold lx. fold ns1.
    rewrite put_level_ok by done. done.
  - exists ns2. split; [done|]. split_and!.
    + intros l. unfold ns2, ns1. by rewrite !meta_put.
    + intros j Hj. destruct (decide (j = i)) as [->|Hne].
      * rewrite (linking_split i _ A1 u A2 (x :: B) E).
        apply (level_relink _ _ _ _ _ B); [done..| | |].
        -- apply level_ok_put; [done|right|done].
           pose proof x_apart as Hx. by rewrite app_comm_cons, E, <- app_assoc in Hx.
        -- split; [intros _; unfold ns1; rewrite lvl_put by done; rewrite decide_True, app_nil_r by done; done|].
           apply level_ok_put; [done|right|done]. pose proof x_apart. set_solver.
        -- unfold lu, wrap. cbn [hop]. by rewrite decide_True by done.
      * unfold ns2, ns1. do 2 (apply level_ok_put; [done|by left|]). apply Hnew. lia.
    + intros j Hj. unfold ns2, ns1. do 2 (apply level_ok_put; [done|left; lia|]). apply Hold. lia.
    + intros j Hj. unfold ns2, ns1. rewrite lvl_put by done. rewrite decide_False by lia.
      rewrite lvl_put by done. rewrite decide_False by lia. by apply Habove.
Qed.

Lemma bump_pass i t' :
  (height x <= i < top t)%nat → linking i t' →
  ∃ t'', bump 1 up (Z.of_nat i) t' = Ret (tt, t'') ∧ linking (S i) t''.
Proof.
  intros Hi (ns & -> & Hm & Hnew & Hold & Habove).
  destruct (place i ltac:(lia)) as (A1 & u & A2 & E & Hu & H2 & Eu & Er & E0 & Ha & Hb & Hin).
  pose proof (Hold i ltac:(lia)) as Hl. rewrite (linking_split i ns A1 u A2 B E) in Hl.
  pose proof Hl as Hl'. apply level_split in Hl' as (_ & Elu & HB); [|done..].
  assert (is_Some (lvl ns (at_ u) i)) as Hsu by (by rewrite Elu).
  set (lu := mkLevel (forward (hop i B)) (u32 (Z.of_nat (length A2) + (span (hop i B) + 1)))).
  exists (with_nodes t (put_lv ns (at_ u) i lu)). split.
  - unfold bump, mbind, ST_bind. rewrite (nth_ok _ _ _ _ Eu).
    unfold deref, st_lift. cbn [of_option mbind outcome_bind].
    rewrite (get_level_ok (with_nodes t ns) _ _ _ Elu), put_level_ok by done.
    cbn [nodes with_nodes wrap forward span]. rewrite u32_add_l. unfold lu.
    by rewrite Z.add_assoc.
  - exists (put_lv ns (at_ u) i lu). split; [done|]. split_and!.
    + intros l. by rewrite meta_put.
    + intros j Hj. destruct (decide (j = i)) as [->|Hne].
      * rewrite (linking_split i _ A1 u A2 (x :: B) E).
        apply (level_relink _ _ _ _ _ B); [done..| |].
        -- split; [lia|done].
        -- unfold lu, wrap. cbn [hop]. by rewrite decide_False by lia.
      * apply level_ok_put; [done|by left|]. apply Hnew. lia.
    + intros j Hj. apply level_ok_put; [done|left; lia|]. apply Hold. lia.
    + intros j Hj. rewrite lvl_put by done. rewrite decide_False by lia. by apply Habove.
Qed.

End Link.

(** ** States that agree on what the invariant reads *)

Record agree (t t' : SkipListIndex) : Prop := {
  agree_head : head t' = head t;
  agree_level : level t' = level t;
  agree_next : next_loc t' = next_loc t;
  agree_meta l : meta (nodes t') l = meta (nodes t) l;
  agree_lvl l j : lvl (nodes t') l j = lvl (nodes t) l j
}.

Lemma agree_nodes t t' es : agree t t' → nodes_ok t es → nodes_ok t' es.
Proof.
  intros [Eh El En Em _] [H1 H2 H3 H4 H5].
  assert (hd t' = hd t) as E by (unfold hd; by rewrite Eh).
  assert (top t' = top t) as Et by (unfold top; by rewrite El).
  split; rewrite ?E, ?El, ?En, ?Et; try done.
  eapply Forall_impl; [exact H5|]. cbn. intros e. by rewrite Em.
Qed.

Lemma agree_levels t t' es k : agree t t' → levels_ok t es k → levels_ok t' es k.
Proof.
  intros [Eh El En Em Ev] [H1 H2]. assert (hd t' = hd t) as E by (unfold hd; by rewrite Eh).
  split; intros j Hj.
  - rewrite E. eapply level_ok_ext; [|by apply H1]. intros. apply Ev.
  - rewrite Eh, Ev. by apply H2.
Qed.

Lemma agree_top t t' : agree t t' → top t' = top t.
Proof. intros [_ E _ _ _]. unfold top. by rewrite E. Qed.

Lemma agree_trans t1 t2 t3 : agree t1 t2 → agree t2 t3 → agree t1 t3.
Proof. intros [] []. split; intros; etrans; eauto. Qed.

Lemma agree_back t l b : agree t (with_nodes t (put_back (nodes t) l b)).
Proof. split; try done; cbn; intros; [apply meta_back|apply lvl_back]. Qed.

(** ** The height of the new node *)

Definition with_rnd (t : SkipListIndex) (r : list bool) : SkipListIndex :=
  mkSkip (head t) (tail t) (length_ t) (level t) r (nodes t) (next_loc t).

(** Each insertion uses up the draws up to the next tail. *)
Definition falses (r : list bool) : nat := length (filter (λ b, b = false) r).

Lemma flip_ok r fuel lv t :
  rnd t = r → (0 < falses r)%nat → (length r < fuel)%nat →
  ∃ lv' r', flip fuel lv t = Ret (lv', with_rnd t r') ∧ lv <= lv' ∧ S (falses r') = falses r.
Proof.
  revert fuel lv t. induction r as [|c r IH]; intros fuel lv t Er Hr Hf; [cbn in Hr; lia|].
  destruct fuel as [|fuel]; [lia|]. cbn [flip]. unfold mbind, ST_bind, coin. rewrite Er.
  unfold falses in Hr |- *. rewrite filter_cons in Hr |- *. destruct c.
  - rewrite decide_False in Hr |- * by done.
    destruct (IH fuel (lv + 1) (with_rnd t r)) as (lv' & r' & E & Hle & Hc);
      [done..|cbn in Hf; lia|].
    exists lv', r'. split_and!; [exact E|lia|exact Hc].
  - exists lv, r. rewrite decide_True by done. split_and!; [done|lia|done].
Qed.

Lemma randomLevel_ok t :
  (0 < falses (rnd t))%nat →
  ∃ lv r, randomLevel t = Ret (lv, with_rnd t r) ∧ 1 <= lv <= SkiplistMaxLevel
          ∧ S (falses r) = falses (rnd t).
Proof.
  intros Hr.
  destruct (flip_ok (rnd t) (S (length (rnd t))) 1 t) as (lv & r & E & Hle & Hc); [done..|lia|].
  exists (if SkiplistMaxLevel <? lv then SkiplistMaxLevel else lv), r.
  unfold randomLevel, mbind, ST_bind, st_get. rewrite E. split_and!; try done;
  destruct (Z.ltb_spec SkiplistMaxLevel lv); unfold SkiplistMaxLevel in *; lia.
Qed.

Lemma agree_rnd t r : agree t (with_rnd t r).
Proof. by split. Qed.

(** ** Raising the list to the new height *)

Lemma raise_all t es A B up rk lv :
  skip_ok t es → es = A ++ B → found (hd t :: A) (top t) up rk → 1 <= lv <= SkiplistMaxLevel →
  ∃ up' rk' t',
    (if level t <? lv then
       r ← raise_levels (Z.to_nat (lv - level t)) (level t) up rk;
       _ ← set_level lv;
       mret r
     else mret (up, rk)) t = Ret ((up', rk'), t')
    ∧ skip_ok t' es ∧ hd t' = hd t ∧ next_loc t' = next_loc t ∧ found (hd t :: A) (top t') up' rk'
    ∧ (Z.to_nat lv <= top t')%nat ∧ rnd t' = rnd t.
Proof.
  intros H HE Hf Hlv. pose proof (ok_nodes _ _ H) as Hn. pose proof (ok_level _ _ Hn) as Hl.
  destruct (Z.ltb_spec (level t) lv) as [Hlt|Hge].
  - destruct (raise_ok (Z.to_nat (lv - level t)) (top t) t es A B up rk)
      as (up' & rk' & ns & E & Hn' & Hl' & Hf'); [done|apply H|done| |apply H|done..|].
    { unfold top, MaxLevel, SkiplistMaxLevel in *. lia. }
    replace (top t + Z.to_nat (lv - level t))%nat with (Z.to_nat lv) in Hl', Hf'
      by (unfold top; lia).
    exists up', rk', (mkSkip (head t) (tail t) (length_ t) lv (rnd t) ns (next_loc t)).
    unfold mbind, ST_bind. replace (level t) with (Z.of_nat (top t)) at 2 by (unfold top; lia).
    rewrite E. split_and!; try done. destruct Hn' as [N1 N2 _ N4 N5]. split; [split|..]; try done.
    + eapply Forall_impl; [exact N4|]. cbn. unfold top; cbn. intros. lia.
    + by destruct Hl'.
    + apply H.
  - exists up, rk, t. split_and!; try done. unfold top. lia.
Qed.

(** ** The new node *)

Definition alloc (t : SkipListIndex) (n : SkiplistNode) : SkipListIndex :=
  mkSkip (head t) (tail t) (length_ t) (level t) (rnd t) (<[next_loc t := n]> (nodes t))
         (Pos.succ (next_loc t)).

Definition new_entry (t : SkipListIndex) (s : float64) (m : bytes) (lv : Z) : entry :=
  mkEntry (next_loc t) (mkItem s m) (Z.to_nat lv).

Lemma alloc_other t n l j :
  l ≠ next_loc t →
  lvl (nodes (alloc t n)) l j = lvl (nodes t) l j ∧ meta (nodes (alloc t n)) l = meta (nodes t) l.
Proof. intros Hl. unfold lvl, meta; cbn. by rewrite lookup_insert_ne. Qed.

Lemma alloc_linking t A B s m lv :
  skip_ok t (A ++ B) → 1 <= lv → (Z.to_nat lv <= top t)%nat →
  let t1 := alloc t (fresh_node lv s m) in
  let x := new_entry t s m lv in
  nodes_ok t1 (A ++ x :: B) ∧ linking t1 x A B 0 t1.
Proof.
  intros [[N1 N2 N3 N4 N5] [L1 L2] _] Hlv Ht t1 x.
  assert (∀ e, e ∈ hd t :: A ++ B → at_ e ≠ next_loc t) as Hfr.
  { rewrite Forall_forall in N2. intros e He E. apply N2 in He. rewrite E in He. lia. }
  split.
  - split; cbn [hd head t1 alloc].
    + change (hd t1) with (hd t).
      assert (hd t :: A ++ x :: B ≡ₚ x :: hd t :: A ++ B) as -> by solve_Permutation.
      cbn [fmap list_fmap]. apply NoDup_cons. split; [|exact N1].
      change (at_ x ∉ at_ <$> hd t :: A ++ B). intros Hin.
      apply list_elem_of_fmap in Hin as (e & E & He). by apply (Hfr e).
    + change (hd t1) with (hd t). rewrite app_comm_cons in N2 |- *.
      apply Forall_app in N2 as [N2a N2b]. apply Forall_app. cbn [next_loc].
      split; [|constructor; [cbn; lia|]]; (eapply Forall_impl; [eassumption|]; cbn; lia).
    + exact N3.
    + apply Forall_app in N4 as [N4a N4b]. apply Forall_app. split; [exact N4a|].
      constructor; [|exact N4b]. change (top t1) with (top t). cbn. lia.
    + change (hd t1) with (hd t). rewrite Forall_forall in N5 |- *. intros e He.
      assert (e = x ∨ e ∈ hd t :: A ++ B) as [->|He'] by set_solver.
      * unfold meta. cbn. rewrite lookup_insert_eq. cbn. by rewrite length_replicate.
      * etrans; [apply (alloc_other t (fresh_node lv s m) (at_ e) 0), Hfr, He'|]. by apply N5.
  - exists (nodes t1). split; [done|]. split_and!; [done|lia| |].
    + intros j Hj. eapply level_ok_ext; [|apply L1; apply Hj]. intros e He.
      apply alloc_other. by apply Hfr.
    + intros j Hj. destruct (L2 j Hj) as [sp Hsp]. exists sp.
      etrans; [|exact Hsp]. apply alloc_other. apply (Hfr (hd t)). set_solver.
Qed.

(** ** Insertion *)

Lemma find_update_eq s m t :
  find_update s m t =
    descend (S (size (nodes t))) (before s m) (top t) (head t) 0 no_update no_rank t.
Proof. done. Qed.

(** The end of [insert]: backward pointers, tail and length. *)
Lemma insert_finish t es l0 x b :
  nodes_ok t es → levels_ok t es (top t) →
  is_Some (meta (nodes t) x) → lvl (nodes t) x 0 = Some l0 →
  (∀ f, forward l0 = Some f → is_Some (meta (nodes t) f)) →
  ∃ t', (_ ← set_backward x b;
         l0 ← get_level x 0;
         _ ← match forward l0 with
             | Some f => set_backward f (Some x)
             | None => set_tail (Some x)
             end;
         t ← st_get;
         _ ← set_length (u32 (length_ t + 1));
         mret x) t = Ret (x, t')
    ∧ nodes_ok t' es ∧ levels_ok t' es (top t') ∧ length_ t' = u32 (length_ t + 1)
    ∧ rnd t' = rnd t.
Proof.
  intros Hn Hl Hx Hl0 Hf. unfold mbind, ST_bind, st_get. rewrite set_backward_ok by done.
  change 0 with (Z.of_nat 0) at 1. set (t1 := with_nodes t (put_back (nodes t) x b)).
  assert (agree t t1) as H1 by apply agree_back.
  rewrite (get_level_ok t1 x 0 l0) by (by rewrite (agree_lvl _ _ H1)).
  assert (∃ t2, (match forward l0 with
                 | Some f => set_backward f (Some x)
                 | None => set_tail (Some x)
                 end) t1 = Ret (tt, t2) ∧ agree t1 t2 ∧ length_ t2 = length_ t ∧ rnd t2 = rnd t)
    as (t2 & E & H2 & El & Er).
  { destruct (forward l0) as [f|].
    - rewrite set_backward_ok by (rewrite (agree_meta _ _ H1); by apply Hf).
      eexists. split_and!; [done|apply agree_back|done..].
    - eexists. split_and!; [done|by split|done..]. }
  rewrite E. eexists. split; [done|]. pose proof (agree_trans _ _ _ H1 H2) as H3.
  set (t3 := mkSkip _ _ _ _ _ _ _). assert (agree t t3) as H4 by (by destruct H3; split).
  split_and!; [by eapply agree_nodes| |by cbn; rewrite El|exact Er].
  rewrite (agree_top _ _ H4). by eapply agree_levels.
Qed.

(** Both loops: every level has the new node. *)
Lemma link_all t A B up rk s m lv :
  skip_ok t (A ++ B) → found (hd t :: A) (top t) up rk → 1 <= lv → (Z.to_nat lv <= top t)%nat →
  let t1 := alloc t (fresh_node lv s m) in
  let x := new_entry t s m lv in
  ∃ ns2 ns3,
    for_range 0 lv (link up rk (at_ x)) t1 = Ret (tt, with_nodes t1 ns2)
    ∧ for_range lv (level t1) (bump 1 up) (with_nodes t1 ns2) = Ret (tt, with_nodes t1 ns3)
    ∧ nodes_ok (with_nodes t1 ns3) (A ++ x :: B)
    ∧ levels_ok (with_nodes t1 ns3) (A ++ x :: B) (top t1).
Proof.
  intros H Hf Hlv Htop t1 x. destruct (alloc_linking t A B s m lv H Hlv Htop) as [Hn Hl].
  fold t1 x in Hn, Hl. destruct (top_bound _ _ Hn) as [_ Hmax].
  assert (Forall (λ e, (1 <= height e)%nat) (hd t1 :: A)) as Hh.
  { constructor; [cbn; unfold MaxLevel, SkiplistMaxLevel; lia|].
    pose proof (ok_heights _ _ Hn) as Hh. apply Forall_app in Hh as [Hh _].
    eapply Forall_impl; [exact Hh|]. cbn. lia. }
  assert (height x <= top t1 <= MaxLevel)%nat as Hx by (split; [exact Htop|exact Hmax]).
  destruct (for_from_ind (linking t1 x A B) (link up rk (at_ x)) (Z.to_nat lv) 0 t1)
    as (t2 & E2 & L2); [|done|].
  { intros i t' Hi. apply link_pass; try done; [apply Hn|apply Hn|cbn; lia]. }
  pose proof L2 as (ns2 & -> & _).
  destruct (for_from_ind (linking t1 x A B) (bump 1 up) (top t1 - Z.to_nat lv) (Z.to_nat lv)
              (with_nodes t1 ns2)) as (t3 & E3 & L3); [|done|].
  { intros i t' Hi. apply (bump_pass t1 x A B up rk); try done; [apply Hn|apply Hn|cbn; lia]. }
  replace (Z.to_nat lv + (top t1 - Z.to_nat lv))%nat with (top t1) in L3 by (cbn in Hx; lia).
  destruct L3 as (ns3 & -> & Hm & Hlk & _ & Ha). exists ns2, ns3. unfold for_range. split_and!.
  - by rewrite Z.sub_0_r.
  - rewrite Z2Nat.id in E3 by lia.
    by replace (Z.to_nat (level t1 - lv)) with (top t1 - Z.to_nat lv)%nat by (unfold top; lia).
  - by apply nodes_ok_ext.
  - split; [exact Hlk|exact Ha].
Qed.

Lemma insert_ok t A B s m :
  skip_ok t (A ++ B) → splits (before s m) A B → (0 < falses (rnd t))%nat →
  ∃ x t', insert s m t = Ret (at_ x, t') ∧ skip_ok t' (A ++ x :: B) ∧ item x = mkItem s m
          ∧ S (falses (rnd t')) = falses (rnd t).
Proof.
  intros H Hs Hr. destruct (search_ok t (A ++ B) (before s m) A B H eq_refl Hs)
    as (x0 & up & rk & Ed & Hf & _).
  destruct (randomLevel_ok t Hr) as (lv & r & Elv & Hlv & Hc).
  assert (skip_ok (with_rnd t r) (A ++ B)) as H1 by (by destruct H as [[] [] ?]; split).
  destruct (raise_all (with_rnd t r) (A ++ B) A B up rk lv H1 eq_refl Hf Hlv)
    as (up' & rk' & t2 & Er & H2 & Eh & _ & Hf2 & Htop & Ern). rewrite <- Eh in Hf2.
  destruct (link_all t2 A B up' rk' s m lv H2 Hf2 ltac:(lia) Htop)
    as (ns4 & ns5 & E4 & E5 & Hn5 & Hl5).
  set (t3 := alloc t2 (fresh_node lv s m)) in *. set (x := new_entry t2 s m lv) in *.
  assert (1 <= top t3)%nat as H1t by (apply (top_bound _ _ Hn5)).
  assert (∀ e, e ∈ A ++ x :: B → is_Some (meta ns5 (at_ e))) as Hm.
  { intros e He. pose proof (ok_meta _ _ Hn5) as Hm. rewrite Forall_forall in Hm.
    eexists. apply Hm. by right. }
  destruct (found_at _ _ _ _ Hf2 0%nat H1t) as (o0 & r0 & Eu0 & _).
  destruct (insert_finish (with_nodes t3 ns5) (A ++ x :: B) (wrap (hop 0 B)) (at_ x)
              (if decide (o0 = Some (head t3)) then None else o0))
    as (t6 & E6 & Hn6 & Hl6 & Hlen6 & Ern6); [done|exact Hl5|apply Hm; set_solver| | |].
  { apply (level_at ns5 0 (hd t3 :: A) x B); [apply (ok_linked _ _ _ Hl5 0%nat); lia|cbn; lia]. }
  { intros f Ef. cbn in Ef. apply hop_in, list_elem_of_fmap in Ef as (e & -> & He).
    apply Hm. set_solver. }
  exists x, t6. split; [|split_and!; [split; [done|done|]|done|by rewrite Ern6; cbn; rewrite Ern]].
  - unfold insert. unfold mbind at 1, ST_bind at 1. rewrite find_update_eq, Ed.
    unfold mbind at 1, ST_bind at 1. rewrite Elv.
    unfold mbind at 1, ST_bind at 1, st_get at 1.
    unfold mbind at 1, ST_bind at 1. rewrite Er.
    unfold mbind at 1, ST_bind at 1.
    rewrite (eq_refl : createNode lv s m t2 = Ret (at_ x, t3)).
    unfold mbind at 1, ST_bind at 1. rewrite E4.
    unfold mbind at 1, ST_bind at 1, st_get at 1.
    unfold mbind at 1, ST_bind at 1. change (level (with_nodes t3 ns4)) with (level t3). rewrite E5.
    unfold mbind at 1, ST_bind at 1.
    rewrite (nth_ok up' 0 o0 _ Eu0 : nth up' 0 (with_nodes t3 ns5) = _). exact E6.
  - rewrite Hlen6. cbn [length_ with_nodes t3 alloc]. rewrite (ok_length _ _ H2), u32_add_l.
    f_equal. rewrite !length_app. cbn [length]. lia.
Qed.

End SkipInsert.
