(* ===== verification/SkipRemove.v ===== *)
(** * Removal from a skip list, and ranks

    [deleteNode] unlinks a node level by level, the mirror image of the loops of
    [insert], and lowers the level of the list; [GetRank] finds the member on
    level 0 and adds the spans on the way down to it. *)

From Stdlib Require Import ZArith Lia Ascii.
From Stdlib Require Import SpecFloat.
From stdpp Require Import base gmap list strings numbers sorting sets fin_maps.
From S2P Require Import Prelude GoFloat Item SkipList SkipShape SkipSearch SkipInsert.

Module SkipRemove.
Import F64 Item SkipList SkipShape SkipSearch SkipInsert.

(** Put the span that is written into a given form. *)
Ltac rewrite_span z :=
  match goal with |- context [mkLevel _ (u32 ?y)] => replace y with z by lia end.

(** ** Unlinking *)

Section Unlink.
Context (t : SkipListIndex) (x : entry) (A B : list entry).
Context (up : list (option loc)) (rk : list Z).
Hypothesis Hok : skip_ok t (A ++ x :: B).
Hypothesis Hfound : found (hd t :: A) (top t) up rk.

(** The first [i] levels are without the node. *)
Definition unlinking (i : nat) (t' : SkipListIndex) : Prop :=
  ∃ ns, t' = with_nodes t ns ∧ (∀ l, meta ns l = meta (nodes t) l)
    ∧ (∀ j, lvl ns (at_ x) j = lvl (nodes t) (at_ x) j)
    ∧ (∀ j, (j < i)%nat → level_ok ns j (hd t :: A ++ B))
    ∧ (∀ j, (i <= j < top t)%nat → level_ok ns j (hd t :: A ++ x :: B))
    ∧ (∀ j, (top t <= j < MaxLevel)%nat → ∃ sp, lvl ns (head t) j = Some (mkLevel None sp)).

Lemma tall_head : Forall (λ e, (1 <= height e)%nat) (hd t :: A).
Proof.
  clear Hfound. constructor; [cbn; unfold MaxLevel, SkiplistMaxLevel; lia|].
  pose proof (ok_heights _ _ (ok_nodes _ _ Hok)) as Hh. apply Forall_app in Hh as [Hh _].
  eapply Forall_impl; [exact Hh|]. cbn. lia.
Qed.

Lemma x_bounds : (1 <= height x <= top t)%nat.
Proof.
  clear Hfound. pose proof (ok_heights _ _ (ok_nodes _ _ Hok)) as Hh.
  apply Forall_app in Hh as [_ Hh]. by apply Forall_cons_1 in Hh as [Hh _].
Qed.

Lemma unlink_pass i t' :
  (i < top t)%nat → unlinking i t' →
  ∃ t'', unlink (at_ x) up (Z.of_nat i) t' = Ret (tt, t'') ∧ unlinking (S i) t''.
Proof.
  intros Hi (ns & -> & Hm & Hx & Hnew & Hold & Habove). pose proof (ok_nodes _ _ Hok) as Hn.
  pose proof (top_bound _ _ Hn) as Hmax. pose proof x_bounds as Hxb.
  destruct (place t x A B up rk (ok_locs _ _ Hn) (ok_meta _ _ Hn) tall_head ltac:(lia) Hfound i Hi)
    as (A1 & u & A2 & E & Hu & H2 & Eu & _ & _ & Ha & Hb & _).
  pose proof (Hold i ltac:(lia)) as Hl. rewrite (linking_split t A i ns A1 u A2 (x :: B) E) in Hl.
  pose proof Hl as Hl'. apply level_split in Hl' as (_ & Elu & HB); [|done..].
  assert (is_Some (lvl ns (at_ u) i)) as Hsu by (by rewrite Elu).
  cbn [fmap list_fmap] in Hb. apply not_elem_of_cons in Hb as [Hux Hb].
  set (lu := wrap (mkLevel (forward (hop i B)) (Z.of_nat (length A2) + span (hop i B)))).
  exists (with_nodes t (put_lv ns (at_ u) i lu)). split.
  - unfold unlink, mbind, ST_bind. rewrite (nth_ok _ _ _ _ Eu).
    unfold deref, st_lift. cbn [of_option mbind outcome_bind].
    rewrite (get_level_ok (with_nodes t ns) _ _ _ Elu). cbn [wrap forward span].
    destruct (decide (tall i x)) as [Ht|Ht].
    + cbn [hop]. rewrite (decide_True (P := tall i x)) by done. cbn [forward span].
      rewrite decide_True by done.
      assert (lvl ns (at_ x) i = Some (wrap (hop i B))) as Elx.
      { destruct HB as [HB _]. by rewrite app_nil_r in HB; apply HB. }
      rewrite (get_level_ok (with_nodes t ns) _ _ _ Elx), put_level_ok by done.
      cbn [nodes with_nodes wrap forward span]. rewrite u32_sub_l, u32_add_l, u32_add_r.
      by rewrite_span (Z.of_nat (length A2) + span (hop i B)).
    + cbn [hop]. rewrite (decide_False (P := tall i x)) by done. cbn [forward span].
      rewrite decide_False.
      * rewrite put_level_ok by done. cbn [nodes with_nodes]. rewrite u32_sub_l.
        by rewrite_span (Z.of_nat (length A2) + span (hop i B)).
      * intros Ef%hop_in. apply (x_apart t x A B (ok_locs _ _ Hn)). set_solver.
  - exists (put_lv ns (at_ u) i lu). split; [done|]. split_and!.
    + intros l. by rewrite meta_put.
    + intros j. rewrite lvl_put, decide_False by naive_solver. apply Hx.
    + intros j Hj. destruct (decide (j = i)) as [->|Hne].
      * rewrite (linking_split t A i _ A1 u A2 B E).
        apply (level_relink _ _ _ _ _ (x :: B)); try done. by destruct HB as [_ HB].
      * apply level_ok_put; [done|by left|]. apply Hnew. lia.
    + intros j Hj. apply level_ok_put; [done|left; lia|]. apply Hold. lia.
    + intros j Hj. rewrite lvl_put, decide_False by (done || lia). by apply Habove.
Qed.

Lemma unlink_all :
  ∃ ns, for_range 0 (level t) (unlink (at_ x) up) t = Ret (tt, with_nodes t ns)
    ∧ unlinking (top t) (with_nodes t ns).
Proof.
  destruct (for_from_ind unlinking (unlink (at_ x) up) (top t) 0 t) as (t' & E & H').
  - intros i t' Hi. apply unlink_pass. lia.
  - exists (nodes t). split; [by destruct t|]. destruct (ok_levels _ _ Hok) as [L1 L2].
    split_and!; [done|done|lia| |done]. intros j Hj. apply L1. lia.
  - pose proof H' as (ns & -> & _). exists ns. split; [|exact H'].
    unfold for_range. rewrite Z.sub_0_r. exact E.
Qed.

End Unlink.

(** ** Lowering the level *)

Lemma shrink_ok n t es :
  nodes_ok t es → levels_ok t es (top t) →
  ∃ t', shrink n t = Ret (tt, t') ∧ nodes_ok t' es ∧ levels_ok t' es (top t')
        ∧ length_ t' = length_ t ∧ rnd t' = rnd t.
Proof.
  revert t. induction n as [|n IH]; intros t Hn Hl; cbn [shrink]; [by exists t|].
  unfold mbind, ST_bind, st_get. destruct (Z.leb_spec (level t) 1) as [|Hlt]; [by exists t|].
  pose proof (top_bound _ _ Hn) as Ht. pose proof (ok_level _ _ Hn) as Hlv.
  set (k := (top t - 1)%nat).
  replace (level t - 1) with (Z.of_nat k) by (unfold k, top in *; lia).
  pose proof (ok_linked _ _ _ Hl k ltac:(unfold k; lia)) as Hk.
  pose proof (level_at _ _ [] (hd t) es Hk ltac:(cbn; unfold k; lia)) as Eh. cbn in Eh.
  rewrite (get_level_ok _ _ _ _ Eh). cbn [wrap forward].
  destruct (forward (hop k es)) eqn:Ef; [by exists t|]. apply hop_none in Ef as Hflat.
  apply (IH (mkSkip (head t) (tail t) (length_ t) (Z.of_nat k) (rnd t) (nodes t) (next_loc t))).
  - destruct Hn as [N1 N2 N3 N4 N5]. split; try done.
    + cbn. unfold k, top, SkiplistMaxLevel in *. lia.
    + apply Forall_forall. intros e He. rewrite Forall_forall in N4, Hflat.
      specialize (N4 e He). specialize (Hflat e He). unfold top at 1. cbn. lia.
  - change (top _) with (Z.to_nat (Z.of_nat k)). rewrite Nat2Z.id. split; cbn.
    + intros j Hj. apply (ok_linked _ _ _ Hl). unfold k in *. lia.
    + intros j Hj. destruct (decide (j = k)) as [->|].
      * rewrite Eh. unfold wrap. rewrite Ef. by eexists.
      * apply (ok_above _ _ _ Hl). unfold k in *. lia.
Qed.

(** ** Removal *)

Lemma nodes_ok_drop t A x B : nodes_ok t (A ++ x :: B) → nodes_ok t (A ++ B).
Proof.
  intros [N1 N2 N3 N4 N5].
  assert (hd t :: A ++ x :: B ≡ₚ x :: hd t :: A ++ B) as EP by solve_Permutation.
  rewrite EP in N1, N2, N5. cbn [fmap list_fmap] in N1. apply NoDup_cons in N1 as [_ N1].
  apply Forall_cons_1 in N2 as [_ N2], N5 as [_ N5].
  assert (A ++ x :: B ≡ₚ x :: A ++ B) as EP' by solve_Permutation. rewrite EP' in N4.
  apply Forall_cons_1 in N4 as [_ N4]. by split.
Qed.

Lemma deleteNode_ok t A x B up rk :
  skip_ok t (A ++ x :: B) → found (hd t :: A) (top t) up rk →
  ∃ t', deleteNode (at_ x) up t = Ret (tt, t') ∧ skip_ok t' (A ++ B) ∧ rnd t' = rnd t.
Proof.
  intros H Hf. pose proof (ok_nodes _ _ H) as Hn. pose proof (top_bound _ _ Hn) as Ht.
  destruct (unlink_all t x A B up rk H Hf) as (ns & E & ns' & Ens & Hm & Hx & Hl & _ & Ha).
  assert (ns' = ns) as -> by (apply (f_equal nodes) in Ens; cbn in Ens; done). clear Ens.
  set (t1 := with_nodes t ns) in *.
  assert (nodes_ok t1 (A ++ x :: B)) as Hn1 by (by apply nodes_ok_ext).
  assert (levels_ok t1 (A ++ B) (top t1)) as Hl1 by (split; [exact Hl|exact Ha]).
  assert (∀ e, e ∈ A ++ x :: B → meta ns (at_ e) = Some (item e, height e)) as Hme.
  { pose proof (ok_meta _ _ Hn1) as Hme. rewrite Forall_forall in Hme. intros e He.
    apply Hme. by right. }
  destruct (get_node_ok t1 (at_ x) _ _ (Hme x ltac:(set_solver))) as (n & En & _).
  assert (lvl ns (at_ x) 0 = Some (wrap (hop 0 B))) as Ex0.
  { rewrite Hx. apply (level_at _ 0 (hd t :: A)); [apply (ok_linked _ _ _ (ok_levels _ _ H)); lia|].
    apply (x_bounds t x A B H). }
  assert (∃ t2, (match forward (wrap (hop 0 B)) with
                 | Some f => set_backward f (backward n)
                 | None => set_tail (backward n)
                 end) t1 = Ret (tt, t2) ∧ agree t1 t2 ∧ length_ t2 = length_ t ∧ rnd t2 = rnd t)
    as (t2 & E2 & H2 & El & Er).
  { cbn [wrap forward]. destruct (forward (hop 0 B)) as [f|] eqn:Ef.
    - apply hop_in, list_elem_of_fmap in Ef as (e & -> & He).
      rewrite set_backward_ok by (eexists; apply Hme; set_solver).
      eexists. split_and!; [done|apply agree_back|done..].
    - eexists. split_and!; [done|by split|done..]. }
  destruct (shrink_ok (Z.to_nat (level t)) t2 (A ++ B)) as (t3 & E3 & Hn3 & Hl3 & El3 & Er3).
  { eapply agree_nodes; [done|]. by eapply nodes_ok_drop. }
  { rewrite (agree_top _ _ H2). by eapply agree_levels. }
  eexists. unfold deleteNode, mbind, ST_bind, st_get. rewrite E, En.
  rewrite (get_level_ok t1 (at_ x) 0 _ Ex0 : get_level (at_ x) 0 t1 = _), E2, E3.
  split; [done|]. split; [|by cbn; rewrite Er3, Er].
  set (t4 := mkSkip _ _ _ _ _ _ _). assert (agree t3 t4) as H4 by (by split).
  split; [by eapply agree_nodes|rewrite (agree_top _ _ H4); by eapply agree_levels|].
  cbn. rewrite El3, El, (ok_length _ _ H), u32_sub_l. f_equal. rewrite !length_app. cbn. lia.
Qed.

Lemma RemoveByScore_ok t A x B s m :
  skip_ok t (A ++ x :: B) → splits (before s m) A (x :: B) → item x = mkItem s m →
  is_nan s = false →
  ∃ t', RemoveByScore s m t = Ret (1, t') ∧ skip_ok t' (A ++ B) ∧ rnd t' = rnd t.
Proof.
  intros H Hs Hi Hnan. pose proof (ok_nodes _ _ H) as Hn. pose proof (top_bound _ _ Hn) as Ht.
  destruct (search_ok t _ (before s m) A (x :: B) H eq_refl Hs) as (x0 & up & rk & Ed & Hf & E0).
  destruct (found_at _ _ _ _ Hf 0%nat ltac:(lia)) as (o & r & Eo & _ & Hp).
  destruct (pos_zero _ _ _ (tall_head t x A B H) Hp) as (A1 & u & EA & -> & _).
  assert (x0 = at_ u) as -> by congruence.
  assert (lvl (nodes t) (at_ u) 0 = Some (wrap (hop 0 (x :: B)))) as Eu.
  { apply (level_at _ 0 A1).
    - pose proof (ok_linked _ _ _ (ok_levels _ _ H) 0%nat ltac:(lia)) as Hl.
      rewrite app_comm_cons, EA, <- app_assoc in Hl. exact Hl.
    - pose proof (tall_head t x A B H) as Hh. rewrite EA in Hh. apply Forall_app in Hh as [_ Hh].
      by apply Forall_cons_1 in Hh as [Hh _]. }
  destruct (deleteNode_ok t A x B up rk H Hf) as (t' & Ed' & H' & Er).
  exists t'. split; [|done]. unfold RemoveByScore, mbind, ST_bind.
  rewrite find_update_eq, Ed.
  rewrite (get_level_ok t (at_ u) 0 _ Eu : get_level (at_ u) 0 t = _).
  assert (forward (wrap (hop 0 (x :: B))) = Some (at_ x)) as ->.
  { cbn. by rewrite decide_True by apply (x_bounds t x A B H). }
  assert (meta (nodes t) (at_ x) = Some (item x, height x)) as Hm.
  { pose proof (ok_meta _ _ Hn) as Hm. rewrite Forall_forall in Hm. apply Hm. set_solver. }
  destruct (get_node_ok t (at_ x) _ _ Hm) as (n & En & E1 & E2 & _).
  rewrite En, E1, E2, Hi. cbn [Score Member]. rewrite eqb_refl, bool_decide_true by done. cbn.
  by rewrite Ed'.
Qed.

End SkipRemove.
