(* ===== verification/SkipRank.v ===== *)
(** * Ranks in a skip list

    [findMember] scans level 0; [getRankByScoreAndMember] walks down the levels
    and adds spans until it stands on the member. *)

From Stdlib Require Import ZArith Lia Ascii.
From Stdlib Require Import SpecFloat.
From stdpp Require Import base gmap list strings numbers sorting sets fin_maps.
From S2P Require Import Prelude GoFloat Item SkipList SkipShape SkipSearch SkipInsert SkipRemove.

Module SkipRank.
Import F64 Item SkipList SkipShape SkipSearch SkipInsert SkipRemove.

(** ** The scan of level 0 *)

Lemma find_from_ok fuel t A es m :
  (length es < fuel)%nat → level_ok (nodes t) 0 (A ++ es) →
  Forall (λ e, (1 <= height e)%nat) es →
  Forall (λ e, meta (nodes t) (at_ e) = Some (item e, height e)) es →
  find_from fuel m (forward (hop 0 es)) t =
    Ret ((λ p, at_ p.2) <$> list_find (λ e, Member (item e) = m) es, t).
Proof.
  revert A es. induction fuel as [|fuel IH]; intros A es Hf Hl Hh Hm; [lia|].
  destruct es as [|e es]; [done|]. apply Forall_cons_1 in Hh as [He Hh], Hm as [Hme Hm].
  cbn [hop list_find]. rewrite decide_True by lia. cbn [find_from forward].
  destruct (get_node_ok t _ _ _ Hme) as (n & En & _ & E2 & _).
  unfold mbind, ST_bind. rewrite En, E2. destruct (decide (Member (item e) = m)); [done|].
  pose proof (level_at _ _ _ _ _ Hl ltac:(lia)) as Elv.
  rewrite (get_level_ok t (at_ e) 0 _ Elv : get_level (at_ e) 0 t = _). cbn [wrap forward].
  rewrite (IH (A ++ [e]) es); [|cbn in Hf; lia|by rewrite <- app_assoc|done|done].
  by destruct (list_find _ es) as [[]|].
Qed.

Lemma findMember_ok t es m :
  skip_ok t es →
  findMember m t = Ret ((λ p, at_ p.2) <$> list_find (λ e, Member (item e) = m) es, t).
Proof.
  intros H. pose proof (ok_nodes _ _ H) as Hn. pose proof (top_bound _ _ Hn) as Ht.
  pose proof (ok_linked _ _ _ (ok_levels _ _ H) 0%nat ltac:(lia)) as Hl.
  pose proof (level_at _ _ [] (hd t) es Hl ltac:(cbn; lia)) as Eh. cbn in Eh.
  unfold findMember, mbind, ST_bind, st_get, fuel_of.
  rewrite (get_level_ok t (head t) 0 _ Eh : get_level (head t) 0 t = _). cbn [wrap forward].
  apply (find_from_ok _ t [hd t]); [|done| |].
  - pose proof (fuel_enough _ _ Hn). lia.
  - eapply Forall_impl; [exact (ok_heights _ _ Hn)|]. cbn. lia.
  - pose proof (ok_meta _ _ Hn) as Hm. by apply Forall_cons_1 in Hm as [_ Hm].
Qed.

(** ** The way down *)

Lemma tail_in t A x A1 u A2 (e : entry) : hd t :: A ++ [x] = A1 ++ u :: A2 → e ∈ A2 → e ∈ A ++ [x].
Proof.
  intros E He. destruct A1 as [|a A1]; cbn in E; injection E as _ E.
  - by rewrite E.
  - rewrite E. set_solver.
Qed.

(** At a level below the member's height the walk ends on the member, at a
    higher one before it. *)
Lemma last_entry t A x k A1 u A2 :
  hd t :: A ++ [x] = A1 ++ u :: A2 → tall k u → flat k A2 →
  (u = x ∧ length A1 = S (length A)) ∨ (u ∈ hd t :: A ∧ ~ tall k x).
Proof.
  intros E Hu H2. destruct A2 as [|a A2 _] using rev_ind.
  - left. rewrite app_comm_cons in E. apply app_inj_tail in E as [<- ->]. done.
  - right. rewrite app_comm_cons, app_comm_cons, app_assoc in E. apply app_inj_tail in E as [E <-].
    split; [rewrite E; set_solver|]. apply Forall_app in H2 as [_ H2].
    apply Forall_cons_1 in H2 as [H2 _]. lia.
Qed.

Section Descent.
Context (t : SkipListIndex) (A : list entry) (x : entry) (B : list entry) (fuel : nat).
Hypothesis Hok : skip_ok t (A ++ x :: B).
Hypothesis Hs : splits (upto_key (Score (item x)) (Member (item x))) (A ++ [x]) B.
Hypothesis Hnan : is_nan (Score (item x)) = false.
Hypothesis Hnew : Forall (λ e, Member (item e) ≠ Member (item x)) (hd t :: A).
Hypothesis Hfuel : (S (length A) < fuel)%nat.

Lemma rank_descend_ok k A1 u A2 :
  hd t :: A ++ [x] = A1 ++ u :: A2 → (1 <= k)%nat → (k <= height u)%nat → (k <= top t)%nat →
  rank_descend fuel (Score (item x)) (Member (item x)) k (at_ u) (u32 (Z.of_nat (length A1))) t
  = Ret (u32 (Z.of_nat (S (length A))), t).
Proof.
  pose proof (ok_nodes _ _ Hok) as Hn. pose proof (x_bounds t x A B Hok) as Hx.
  pose proof (ok_meta _ _ Hn) as Hm. rewrite Forall_forall in Hm.
  revert A1 u A2. induction k as [|k IH]; intros A1 u A2 E Hk Hu Ht; [lia|].
  assert (hd t :: A ++ x :: B = A1 ++ u :: A2 ++ B) as EB.
  { trans ((hd t :: A ++ [x]) ++ B); [cbn; by rewrite <- app_assoc|by rewrite E, <- app_assoc]. }
  destruct (walk_ok fuel t (upto_key (Score (item x)) (Member (item x))) k A1 u A2 B)
    as (A1' & u' & A2' & E' & Hu' & H2' & _ & Ew).
  - apply (f_equal length) in E. rewrite length_app in E. cbn in E. rewrite length_app in E.
    cbn in E. lia.
  - lia.
  - rewrite <- EB. apply (ok_linked _ _ _ (ok_levels _ _ Hok)). lia.
  - apply Forall_forall. intros e He. apply Hm. rewrite EB. set_solver.
  - destruct Hs as [Hs1 Hs2]. split; [|done]. intros e n He. apply Hs1. by eapply tail_in.
  - rewrite <- E in E'. cbn [rank_descend]. unfold mbind, ST_bind. rewrite Ew.
    assert (meta (nodes t) (at_ u') = Some (item u', height u')) as Hmu.
    { apply Hm. assert (u' ∈ hd t :: A ++ [x]) by (rewrite E'; set_solver). set_solver. }
    destruct (get_node_ok t _ _ _ Hmu) as (n & -> & E1 & E2 & _). rewrite E1, E2.
    destruct (last_entry t A x k A1' u' A2' E' Hu' H2') as [[-> El]|[Hin Hnt]].
    + rewrite eqb_refl, bool_decide_true by (done || by apply bytes_cmp_eq). cbn. by rewrite El.
    + rewrite bool_decide_false, andb_false_r.
      * apply (IH A1' u' A2' E'); lia.
      * rewrite bytes_cmp_eq. rewrite Forall_forall in Hnew. by apply Hnew.
Qed.

End Descent.

(** ** Conditions and sorted entries *)

Lemma before_splits s m A B :
  is_nan s = false →
  (∀ e, e ∈ A → is_nan (Score (item e)) = false ∧ item_lt (item e) (mkItem s m)) →
  (∀ e, e ∈ B → is_nan (Score (item e)) = false ∧ ~ item_lt (item e) (mkItem s m)) →
  splits (before s m) A B.
Proof.
  intros Hs HA HB. split; intros e n He E1 E2.
  - destruct (HA e He) as [Hn Hlt]. rewrite before_cmp by (done || by rewrite E1).
    rewrite E1, E2. rewrite ItemFacts.item_lt_cmp in Hlt by done. destruct (item e). cbn in *.
    by rewrite Hlt.
  - destruct (HB e He) as [Hn Hlt]. rewrite before_cmp by (done || by rewrite E1).
    rewrite E1, E2. rewrite ItemFacts.item_lt_cmp in Hlt by done. destruct (item e). cbn in *.
    by destruct (ItemFacts.key_cmp _ _).
Qed.

(** Around an item of a sorted list. *)
Lemma sorted_around A x B :
  wf_items (item <$> A ++ x :: B) →
  is_nan (Score (item x)) = false
  ∧ (∀ e, e ∈ A → is_nan (Score (item e)) = false ∧ item_lt (item e) (item x))
  ∧ (∀ e, e ∈ B → is_nan (Score (item e)) = false ∧ item_lt (item x) (item e))
  ∧ Forall (λ e, Member (item e) ≠ Member (item x)) (A ++ B).
Proof.
  intros [W1 W2 W3]. rewrite Forall_forall in W2.
  assert (∀ e, e ∈ A ++ x :: B → is_nan (Score (item e)) = false) as Hn.
  { intros e He. apply W2. by apply list_elem_of_fmap_2. }
  rewrite fmap_app in W1. split_and!.
  - apply Hn. set_solver.
  - intros e He. split; [apply Hn; set_solver|].
    eapply (StronglySorted_app_1_elem_of item_lt); [exact W1|by apply list_elem_of_fmap_2|by left].
  - intros e He. split; [apply Hn; set_solver|]. apply StronglySorted_app_1_r in W1.
    cbn in W1. apply StronglySorted_inv in W1 as [_ W1]. rewrite Forall_forall in W1.
    apply W1. by apply list_elem_of_fmap_2.
  - assert (A ++ x :: B ≡ₚ x :: A ++ B) as EP by solve_Permutation. rewrite EP in W3.
    cbn in W3. apply NoDup_cons in W3 as [W3 _]. apply Forall_forall. intros e He Em. apply W3.
    rewrite <- Em. by do 2 apply list_elem_of_fmap_2.
Qed.

Lemma upto_splits A x B :
  wf_items (item <$> A ++ x :: B) →
  splits (upto_key (Score (item x)) (Member (item x))) (A ++ [x]) B.
Proof.
  intros (Hx & HA & HB & _)%sorted_around.
  assert (∀ a : Item, mkItem (Score a) (Member a) = a) as Eta by (by intros []).
  split; intros e n He E1 E2.
  - assert (is_nan (Score (item e)) = false) as Hn.
    { apply elem_of_app in He as [He| ->%list_elem_of_singleton]; [by apply HA|done]. }
    rewrite upto_cmp by (done || by rewrite E1). rewrite E1, E2, !Eta.
    apply elem_of_app in He as [He| ->%list_elem_of_singleton].
    + destruct (HA e He) as [_ Hlt]. rewrite ItemFacts.item_lt_cmp in Hlt by done. by rewrite Hlt.
    + pose proof (ItemFacts.key_cmp_antisym (item x) (item x) Hx Hx) as Ha.
      by destruct (ItemFacts.key_cmp (item x) (item x)).
  - destruct (HB e He) as [Hn Hlt]. rewrite upto_cmp by (done || by rewrite E1).
    rewrite E1, E2, !Eta. rewrite ItemFacts.item_lt_cmp in Hlt by done.
    rewrite (ItemFacts.key_cmp_antisym (item x) (item e)), Hlt by done. done.
Qed.

(** ** The rank of a member *)

Lemma GetRank_ok t es m :
  skip_ok t es → wf_items (item <$> es) → [] ∉ Member <$> (item <$> es) →
  Z.of_nat (length es) < two32 →
  GetRank m t = Ret (rank_of m (item <$> es), t).
Proof.
  intros H Hwf Hne Hlen. unfold GetRank, mbind, ST_bind. rewrite (findMember_ok t es m H).
  unfold rank_of. rewrite list_find_fmap. unfold compose.
  destruct (list_find (λ e, Member (item e) = m) es) as [[i x]|] eqn:Ef; [|done].
  apply list_find_Some in Ef as (Hi & Hm & _).
  apply list_elem_of_split_length in Hi as (A & B & -> & ->). cbn [fmap option_fmap option_map snd].
  pose proof (sorted_around A x B Hwf) as (Hx & _ & _ & Hnew).
  pose proof (ok_nodes _ _ H) as Hn. pose proof (top_bound _ _ Hn) as Ht.
  assert (meta (nodes t) (at_ x) = Some (item x, height x)) as Hmx.
  { pose proof (ok_meta _ _ Hn) as Hme. rewrite Forall_forall in Hme. apply Hme. set_solver. }
  destruct (get_node_ok t _ _ _ Hmx) as (n & -> & E1 & E2 & _). rewrite E1, <- Hm.
  rewrite length_app in Hlen. cbn in Hlen.
  unfold getRankByScoreAndMember, mbind, ST_bind, st_get, fuel_of.
  assert (Forall (λ e, Member (item e) ≠ Member (item x)) (hd t :: A)) as HnA.
  { constructor; [|by apply Forall_app in Hnew as [Hnew _]]. cbn. intros E. apply Hne. rewrite E.
    do 2 apply list_elem_of_fmap_2. set_solver. }
  assert (S (length A) < S (size (nodes t)))%nat as Hfuel.
  { pose proof (fuel_enough _ _ Hn) as Hf. rewrite length_app in Hf. cbn in Hf. lia. }
  rewrite (rank_descend_ok t A x B _ H (upto_splits A x B Hwf) Hx HnA Hfuel (top t) [] (hd t)
             (A ++ [x]) eq_refl (proj1 Ht) (proj2 Ht) (le_n _)
           : rank_descend (S (size (nodes t))) (Score (item x)) (Member (item x))
               (Z.to_nat (level t)) (head t) 0 t = _).
  rewrite u32_small by lia. rewrite (proj2 (Z.ltb_lt _ _)) by lia. cbn [mret ST_ret].
  unfold mret, ST_ret. do 2 f_equal. cbn. lia.
Qed.

End SkipRank.
