(* ===== verification/SortedSet.v ===== *)
(** * Sorted sets over an ordered index
    (src/internal/data_structure/sorted_set/sorted_set.go, ordered_index_factory.go,
    sorted_set_interfaces.go)

    The interface [OrderedIndex] is a class of operations with, separately,
    the laws a sorted set needs of them; the sorted set is proved against the
    laws.  The B+ tree, the skip list and the sum of the two are instances of
    the operations. *)

From Stdlib Require Import ZArith Lia Ascii.
From Stdlib Require Import SpecFloat.
From stdpp Require Import base gmap list strings numbers sorting fin_maps sets.
From S2P Require Import Prelude GoFloat Item BTree SkipList.

Import F64 Item.

(** ** The interface *)

Class OrderedIndex (I : Type) := {
  ix_Add : float64 → bytes → ST I Z;
  ix_GetRank : bytes → ST I Z;
  ix_RemoveByScore : float64 → bytes → ST I Z
}.

(** What a sorted set relies on.  [view i l]: the index [i] holds the items
    [l], in order.  [admits i s l]: the index [i] can take an item of score [s]
    beside [l]; a removal does not take this away.  [supply i n l]: besides [l]
    the index has room, and random draws, for [n] more insertions. *)
Class OrderedIndexLaws (I : Type) `{OrderedIndex I} := {
  view : I → list Item → Prop;
  admits : I → float64 → list Item → Prop;
  supply : I → nat → list Item → Prop;
  law_supply i n l : supply i (S n) l → supply i n l;
  law_add i l s m n :
    view i l → wf_items l → is_nan s = false → admits i s l → supply i (S n) l →
    m ≠ [] → m ∉ Member <$> l →
    ∃ i', ix_Add s m i = Ret (1, i') ∧ view i' (insert_item (mkItem s m) l)
          ∧ supply i' n (insert_item (mkItem s m) l);
  law_remove i l s m :
    view i l → wf_items l → mkItem s m ∈ l →
    ∃ i', ix_RemoveByScore s m i = Ret (1, i') ∧ view i' (drop_member m l)
          ∧ (∀ s', admits i s' (drop_member m l) → admits i' s' (drop_member m l))
          ∧ ∀ n, supply i n l → supply i' n (drop_member m l);
  law_rank i l m :
    view i l → wf_items l → ix_GetRank m i = Ret (rank_of m l, i)
}.

#[global] Instance btree_ops : OrderedIndex BTree.BTreeIndex := {
  ix_Add := BTree.Add;
  ix_GetRank := BTree.GetRank;
  ix_RemoveByScore := BTree.RemoveByScore
}.

#[global] Instance skiplist_ops : OrderedIndex SkipList.SkipListIndex := {
  ix_Add := SkipList.Add;
  ix_GetRank := SkipList.GetRank;
  ix_RemoveByScore := SkipList.RemoveByScore
}.

(** A value of the interface type: one of the two implementations. *)
Inductive AnyIndex :=
  | ABTree (t : BTree.BTreeIndex)
  | ASkipList (t : SkipList.SkipListIndex).

Definition on_any {A} (f : ST BTree.BTreeIndex A) (g : ST SkipList.SkipListIndex A) :
    ST AnyIndex A :=
  λ i, match i with
       | ABTree t => '(a, t) ← f t; Ret (a, ABTree t)
       | ASkipList t => '(a, t) ← g t; Ret (a, ASkipList t)
       end.

#[global] Instance any_ops : OrderedIndex AnyIndex := {
  ix_Add s m := on_any (ix_Add s m) (ix_Add s m);
  ix_GetRank m := on_any (ix_GetRank m) (ix_GetRank m);
  ix_RemoveByScore s m := on_any (ix_RemoveByScore s m) (ix_RemoveByScore s m)
}.

(** The items themselves, in order: the interface as its own specification. *)
#[global] Instance list_ops : OrderedIndex (list Item) := {
  ix_Add s m l := Ret (1, insert_item (mkItem s m) l);
  ix_GetRank m l := Ret (rank_of m l, l);
  ix_RemoveByScore s m l := Ret (1, drop_member m l)
}.

#[global] Instance list_laws : OrderedIndexLaws (list Item).
Proof.
  refine {| view i l := i = l; admits _ _ _ := True; supply _ _ _ := True |};
    cbn; intros; subst; eauto 6.
Defined.

Module SortedSet.

(** ** Construction *)

Definition IndexTypeBTree : bytes := bs "btree".
Definition IndexTypeSkipList : bytes := bs "skiplist".

Record IndexConfig := mkIndexConfig {
  Type_ : bytes;
  Degree : Z;
  MaxLevel : Z
}.

(** [draws] are the coin flips of the skip list's generator. *)
Definition NewOrderedIndex (draws : list bool) (config : IndexConfig) : bytes + AnyIndex :=
  if decide (Type_ config = IndexTypeBTree) then
    let degree := if Degree config <=? 0 then 4 else Degree config in
    inr (ABTree (BTree.NewBTreeIndex degree))
  else if decide (Type_ config = IndexTypeSkipList) then
    inr (ASkipList (SkipList.NewSkipListIndex (MaxLevel config) draws))
  else inl (bs "unsupported index type: " ++ Type_ config).

Record SortedSet (I : Type) := mkSortedSet {
  Index : I;
  MemberScore : gmap bytes float64
}.
Arguments mkSortedSet {I} _ _.
Arguments Index {I} _.
Arguments MemberScore {I} _.

Definition NewSortedSet (draws : list bool) (config : IndexConfig) :
    bytes + SortedSet AnyIndex :=
  match NewOrderedIndex draws config with
  | inl err => inl err
  | inr index => inr (mkSortedSet index ∅)
  end.

Definition NewSortedSetWithBTree (degree : Z) : bytes + SortedSet AnyIndex :=
  NewSortedSet [] (mkIndexConfig IndexTypeBTree degree 0).

(** ** Operations *)

Section Ops.
Context {I : Type} `{OrderedIndex I}.

(** [ss.Index.m(...)] *)
Definition call {A} (m : ST I A) : ST (SortedSet I) A :=
  λ ss, '(a, i) ← m (Index ss); Ret (a, mkSortedSet i (MemberScore ss)).

Definition set_score (member : bytes) (score : float64) : ST (SortedSet I) unit :=
  λ ss, Ret (tt, mkSortedSet (Index ss) (<[member := score]> (MemberScore ss))).

Definition del_score (member : bytes) : ST (SortedSet I) unit :=
  λ ss, Ret (tt, mkSortedSet (Index ss) (delete member (MemberScore ss))).

Definition Add (score : float64) (member : bytes) : ST (SortedSet I) Z :=
  if decide (member = []) then mret 0
  else
    ss ← st_get;
    match MemberScore ss !! member with
    | Some oldScore =>
        if eqb oldScore score then mret 0
        else
          _ ← call (ix_RemoveByScore oldScore member);
          _ ← call (ix_Add score member);
          _ ← set_score member score;
          mret 0
    | None =>
        result ← call (ix_Add score member);
        _ ← (if result =? 1 then set_score member score else mret tt);
        mret result
    end.

Definition GetScore (member : bytes) (ss : SortedSet I) : option float64 :=
  MemberScore ss !! member.

Definition GetRank (member : bytes) : ST (SortedSet I) Z := call (ix_GetRank member).

Definition Remove (member : bytes) : ST (SortedSet I) Z :=
  if decide (member = []) then mret 0
  else
    ss ← st_get;
    match MemberScore ss !! member with
    | None => mret 0
    | Some score =>
        result ← call (ix_RemoveByScore score member);
        _ ← (if result =? 1 then del_score member else mret tt);
        mret result
    end.

End Ops.

(** ** Invariant: the map and the index hold the same items *)

Section Laws.
Context {I : Type} `{Laws : OrderedIndexLaws I}.

Record inv (ss : SortedSet I) (l : list Item) : Prop := {
  inv_view : view (Index ss) l;
  inv_wf : wf_items l;
  inv_scores m s : MemberScore ss !! m = Some s ↔ mkItem s m ∈ l;
  inv_nonempty : [] ∉ Member <$> l
}.

(** The abstract step of [Add]: the reply and the new items. *)
Definition add_spec (score : float64) (member : bytes) (M : gmap bytes float64) (l : list Item) :
    Z * list Item :=
  if decide (member = []) then (0, l)
  else match M !! member with
       | Some old => if eqb old score then (0, l)
                     else (0, insert_item (mkItem score member) (drop_member member l))
       | None => (1, insert_item (mkItem score member) l)
       end.

Lemma member_absent ss l m : inv ss l → MemberScore ss !! m = None → m ∉ Member <$> l.
Proof.
  intros Hi HN Hm. apply list_elem_of_fmap in Hm as ([s m'] & -> & Hin).
  apply (inv_scores _ _ Hi) in Hin. cbn in HN. congruence.
Qed.

Lemma inv_delete i ss l m :
  inv ss l → view i (drop_member m l) →
  inv (mkSortedSet i (delete m (MemberScore ss))) (drop_member m l).
Proof.
  intros Hi Hv. split; cbn; [done|by apply ItemFacts.drop_member_wf, Hi| |].
  - intros m' s'. rewrite ItemFacts.drop_member_elem, lookup_delete_Some, (inv_scores _ _ Hi).
    cbn. naive_solver.
  - intros Hx. apply (inv_nonempty _ _ Hi). apply list_elem_of_fmap in Hx as (x & E & Hx).
    apply ItemFacts.drop_member_elem in Hx. apply list_elem_of_fmap. naive_solver.
Qed.

Lemma inv_insert i ss l s m :
  inv ss l → is_nan s = false → m ≠ [] → m ∉ Member <$> l →
  view i (insert_item (mkItem s m) l) →
  inv (mkSortedSet i (<[m := s]> (MemberScore ss))) (insert_item (mkItem s m) l).
Proof.
  intros Hi Hs Hm Hnew Hv. split; cbn; [done| | |].
  - apply ItemFacts.insert_item_wf; [apply Hi|done..].
  - intros m' s'. rewrite ItemFacts.elem_of_insert_item, <- (inv_scores _ _ Hi), lookup_insert_Some.
    split; [naive_solver|]. intros [[= -> ->]|Hl]; [by left|right]. split; [|done].
    intros <-. apply Hnew, list_elem_of_fmap. exists (mkItem s' m). split; [done|].
    by apply (inv_scores _ _ Hi).
  - rewrite ItemFacts.insert_item_perm. cbn. rewrite not_elem_of_cons. split; [done|].
    apply (inv_nonempty _ _ Hi).
Qed.

Lemma zset_add_ok ss l score member n :
  inv ss l → is_nan score = false → admits (Index ss) score (drop_member member l) →
  supply (Index ss) (S n) l →
  ∃ ss', Add score member ss = Ret ((add_spec score member (MemberScore ss) l).1, ss') ∧
         inv ss' (add_spec score member (MemberScore ss) l).2 ∧
         supply (Index ss') n (add_spec score member (MemberScore ss) l).2.
Proof.
  intros Hi Hs Ha Hn. pose proof (law_supply _ _ _ Hn) as Hn'.
  unfold Add, add_spec. case_decide as Hm; [by exists ss|].
  unfold mbind, ST_bind, st_get. destruct (MemberScore ss !! member) as [old|] eqn:E.
  - destruct (eqb old score); [by exists ss|].
    destruct (law_remove (Index ss) l old member) as (i1 & E1 & V1 & A1 & S1);
      [apply Hi|apply Hi|by apply (inv_scores _ _ Hi)|].
    destruct (law_add i1 (drop_member member l) score member n) as (i2 & E2 & V2 & S2);
      [done|by apply ItemFacts.drop_member_wf, Hi|done|by apply A1|by apply S1|done|
       apply ItemFacts.drop_member_absent|].
    eexists. unfold call. rewrite E1. cbn. rewrite E2. cbn. split; [done|]. split; [|done].
    pose proof (inv_insert i2 _ _ score member (inv_delete i1 ss l member Hi V1) Hs Hm
                  (ItemFacts.drop_member_absent _ _) V2) as Hr. cbn in Hr.
    by rewrite insert_delete_eq in Hr.
  - assert (Hnew := member_absent _ _ _ Hi E). rewrite ItemFacts.drop_member_id in Ha by done.
    destruct (law_add (Index ss) l score member n) as (i' & E1 & V1 & S1);
      [apply Hi|apply Hi|done..|].
    eexists. unfold call. rewrite E1. cbn. split; [done|]. split; [by apply inv_insert|done].
Qed.

(** C24: over an index that obeys its laws, [Add] never panics, replies 1
    exactly for a new member and 0 for an update or the empty member, and keeps
    index and score map in step with the abstract insertion, re-scoring by
    removing the old item first. *)
Theorem zset_Add_refines ss l score member n :
  inv ss l → is_nan score = false → admits (Index ss) score (drop_member member l) →
  supply (Index ss) (S n) l →
  ∃ ss', Add score member ss = Ret ((add_spec score member (MemberScore ss) l).1, ss') ∧
         inv ss' (add_spec score member (MemberScore ss) l).2 ∧
         supply (Index ss') n (add_spec score member (MemberScore ss) l).2.
Proof. apply zset_add_ok. Qed.

Lemma zset_remove_ok ss l member :
  inv ss l →
  ∃ ss', Remove member ss =
           Ret (if decide (is_Some (MemberScore ss !! member)) then 1 else 0, ss') ∧
         MemberScore ss' = delete member (MemberScore ss) ∧ inv ss' (drop_member member l) ∧
         ∀ n, supply (Index ss) n l → supply (Index ss') n (drop_member member l).
Proof.
  intros Hi. unfold Remove. destruct (MemberScore ss !! member) as [s|] eqn:E.
  - assert (Hin : mkItem s member ∈ l) by (by apply (inv_scores _ _ Hi)).
    destruct (decide (member = [])) as [->|Hm].
    { exfalso. apply (inv_nonempty _ _ Hi), list_elem_of_fmap. by exists (mkItem s []). }
    destruct (law_remove (Index ss) l s member) as (i1 & E1 & V1 & _ & S1);
      [apply Hi|apply Hi|done|].
    eexists. unfold mbind, ST_bind, st_get, call. rewrite E, E1, decide_True by eauto. cbn.
    split_and!; [done..|by apply inv_delete|done].
  - exists ss. rewrite (decide_False (P := is_Some _)) by (by intros [? ?]).
    rewrite delete_id, ItemFacts.drop_member_id by eauto using member_absent.
    split_and!; [|done..]. destruct (decide (member = [])); [done|].
    unfold mbind, ST_bind, st_get. by rewrite E.
Qed.

(** [Remove] replies 1 and deletes the member from index and map when it
    is there, and replies 0 without a change otherwise. *)
Lemma Remove_refines ss l member :
  inv ss l →
  ∃ ss', Remove member ss =
           Ret (if decide (is_Some (MemberScore ss !! member)) then 1 else 0, ss') ∧
         MemberScore ss' = delete member (MemberScore ss) ∧ inv ss' (drop_member member l).
Proof.
  intros Hi. destruct (zset_remove_ok ss l member Hi) as (ss' & ? & ? & ? & _). eauto.
Qed.

(** The members with a smaller (score, member) pair. *)
Definition smaller (s : float64) (m : bytes) (M : gmap bytes float64) : gmap bytes float64 :=
  filter (λ p, item_lt (mkItem p.2 p.1) (mkItem s m)) M.

Lemma size_smaller ss l s m :
  inv ss l →
  size (smaller s m (MemberScore ss)) = length (filter (λ x, item_lt x (mkItem s m)) l).
Proof.
  intros Hi. rewrite <- length_map_to_list, <- (length_fmap (λ p, mkItem p.2 p.1)).
  apply Permutation_length, NoDup_Permutation.
  - apply NoDup_fmap_2; [|apply NoDup_map_to_list]. intros [] []; cbn. congruence.
  - apply NoDup_filter. eapply NoDup_fmap_1, (inv_wf _ _ Hi).
  - intros [s' m']. rewrite list_elem_of_fmap, list_elem_of_filter, <- (inv_scores _ _ Hi).
    split.
    + intros ([m1 s1] & [= -> ->] & Hx). apply elem_of_map_to_list in Hx.
      unfold smaller in Hx. rewrite map_lookup_filter_Some in Hx. naive_solver.
    + intros [Hlt Hl]. exists (m', s'). split; [done|]. apply elem_of_map_to_list.
      unfold smaller. by rewrite map_lookup_filter_Some.
Qed.

Lemma zset_rank_ok ss l member :
  inv ss l →
  GetRank member ss =
  Ret (match GetScore member ss with
       | Some s => Z.of_nat (size (smaller s member (MemberScore ss)))
       | None => -1
       end, ss).
Proof.
  intros Hi. unfold GetRank, call, GetScore. rewrite (law_rank (Index ss) l) by apply Hi. cbn.
  destruct (MemberScore ss !! member) as [s|] eqn:E.
  - rewrite (size_smaller ss l) by done. destruct ss as [i M]. cbn in *. do 2 f_equal.
    apply (inv_scores _ _ Hi) in E. exact (ItemFacts.rank_of_count l _ (inv_wf _ _ Hi) E).
  - rewrite ItemFacts.rank_of_absent by eauto using member_absent. by destruct ss.
Qed.

(** [GetRank] is the number of members whose (score, member) pair is
    smaller, and -1 for a member that is not there. *)
Lemma GetRank_counts ss l member :
  inv ss l →
  GetRank member ss =
  Ret (match GetScore member ss with
       | Some s => Z.of_nat (size (smaller s member (MemberScore ss)))
       | None => -1
       end, ss).
Proof. apply zset_rank_ok. Qed.

End Laws.

(** Two members over the list index, for the witnesses. *)
Definition demo_items : list Item := [mkItem (of_Z 1) (bs "a"); mkItem (of_Z 2) (bs "b")].
Definition demo : SortedSet (list Item) :=
  mkSortedSet demo_items (<[bs "a" := of_Z 1]> (<[bs "b" := of_Z 2]> ∅)).

Lemma demo_inv : inv demo demo_items.
Proof.
  split.
  - done.
  - split; cbn.
    + repeat constructor.
    + repeat constructor.
    + apply (bool_decide_unpack _). vm_compute. exact I.
  - intros m s. unfold demo_items. cbn. rewrite !lookup_insert_Some, lookup_empty, !elem_of_cons, elem_of_nil.
    split; [naive_solver|]. intros [[= -> ->]|[[= -> ->]|[]]]; [by left|right].
    split; [|by left]. intros E. vm_compute in E. congruence.
  - apply (bool_decide_unpack _). vm_compute. exact I.
Qed.

Lemma zset_Add_refines_witness : ∃ ss, Add (of_Z 3) (bs "a") demo = Ret (0, ss).
Proof.
  destruct (zset_Add_refines demo demo_items (of_Z 3) (bs "a") 0 demo_inv) as (ss & E & _);
    [vm_compute; reflexivity|exact I|exact I|].
  exists ss. rewrite E. vm_compute. reflexivity.
Defined.

Lemma Remove_refines_witness :
  ∃ ss, Remove (bs "a") demo = Ret (1, ss) ∧ inv ss [mkItem (of_Z 2) (bs "b")].
Proof.
  destruct (Remove_refines demo demo_items (bs "a") demo_inv) as (ss & E & _ & H).
  exists ss. split; [exact E|exact H].
Defined.

Lemma GetRank_counts_witness : GetRank (bs "b") demo = Ret (1, demo).
Proof.
  rewrite (GetRank_counts demo demo_items (bs "b") demo_inv). vm_compute. reflexivity.
Defined.

End SortedSet.
