(* ===== verification/BTreeLaws.v ===== *)
(** * The B+ tree obeys the laws of an ordered index

    The tree of [BTreeShape.v] is the list its leaf chain enumerates, so the
    queries of [BTreeQuery.v] answer from that list; with insertion
    ([BTreeSplit.v]) and deletion ([BTreeMerge.v]) the B+ tree is an instance
    of the laws a sorted set relies on, for scores that are pairwise distinct.
    The last part runs whole histories of operations. *)

From Stdlib Require Import ZArith Lia Ascii.
From Stdlib Require Import SpecFloat.
From stdpp Require Import base gmap list strings numbers sorting fin_maps sets.
From S2P Require Import Prelude GoFloat Item BTree BTreeQuery BTreeShape BTreeSearch BTreeSplit BTreeMerge.
From S2P Require Import SkipList SortedSet.

Module BTreeLaws.
Import F64 Item BTree BTreeQuery BTreeShape BTreeSearch BTreeSplit BTreeMerge.

(** ** The leftmost path and the leaf chain *)

Definition stored (t : BTreeIndex) (lay : list (loc * BTreeNode)) : Prop :=
  Forall (λ p, nodes t !! p.1 = Some p.2) lay.

Lemma spine_ok t its h lo hi x par nxt :
  bst its h lo hi x → stored t (layout par nxt x) →
  ∃ p, spine t (root x) (leftmost x) p ∧ p `sublist_of` (layout par nxt x).*1.
Proof.
  revert lo hi x par nxt. induction h as [|h IH]; intros lo hi [l ls|l seps kids] par nxt Hb Hs; try done.
  - apply Forall_cons_1 in Hs as [Hs _]. exists [l]. split; [by eapply spine_leaf|done].
  - rewrite layout_node in Hs |- *. apply Forall_cons_1 in Hs as [Hn Hs]. cbn [bst] in Hb.
    destruct kids as [|k kids]; [by destruct seps|]. cbn [layout_kids] in Hs.
    apply Forall_app in Hs as [Hs _].
    assert (∃ hi', bst its h lo hi' k) as [hi' Hk].
    { destruct seps; cbn in Hb; [destruct kids; [|done]; eauto|]. destruct Hb as (it & _ & ? & _). eauto. }
    destruct (IH _ _ _ _ _ Hk Hs) as (p & Hp & Hsub).
    exists (l :: p). split; [by eapply spine_node|]. cbn. apply sublist_skip.
    rewrite fmap_app. by apply sublist_inserts_r.
Qed.

Lemma chain_ok t h lo hi x par nxt V ls rest :
  bst (items t) h lo hi x → stored t (layout par nxt x) →
  holds (items t) (contents x) V → chain t nxt ls rest →
  ∃ ls0, chain t (Some (leftmost x)) (ls0 ++ ls) (V ++ rest) ∧
         ls0 `sublist_of` (layout par nxt x).*1.
Proof.
  revert lo hi x par nxt V ls rest.
  induction h as [|h IH]; intros lo hi [l ps|l seps kids] par nxt V ls rest Hb Hs HV Hc; try done.
  { apply Forall_cons_1 in Hs as [Hs _]. exists [l]. split; [|done].
    by eapply chain_cons. }
  rewrite layout_node in Hs |- *. apply Forall_cons_1 in Hs as [_ Hs]. cbn [bst] in Hb.
  change (contents (TNode l seps kids)) with (contents_of kids) in HV.
  assert (Hkids : kids ≠ []) by (intros ->; by destruct seps).
  enough (∃ ls0, chain t (first_of nxt kids) (ls0 ++ ls) (V ++ rest) ∧
                 ls0 `sublist_of` (layout_kids (Some l) nxt kids).*1) as (ls0 & H1 & H2).
  { exists ls0. split; [by destruct kids|]. cbn. by apply sublist_cons. }
  clear Hkids. revert seps lo V Hb Hs HV.
  induction kids as [|k kids IHk]; intros seps lo V Hb Hs HV; [by destruct seps|].
  cbn [layout_kids] in *. apply Forall_app in Hs as [Hs1 Hs2].
  change (contents_of (k :: kids)) with (contents k ++ contents_of kids) in HV.
  apply Forall2_app_inv_l in HV as (V1 & V2 & HV1 & HV2 & ->).
  destruct seps as [|s seps]; cbn in Hb.
  - destruct kids; [|done]. inversion HV2; subst. rewrite app_nil_r in *.
    destruct (IH _ _ _ _ _ _ _ _ Hb Hs1 HV1 Hc) as (ls0 & H1 & H2). exists ls0.
    split; [done|]. cbn [layout_kids]. by rewrite app_nil_r.
  - destruct Hb as (it & _ & Hk & Hks).
    destruct (IHk _ _ _ Hks Hs2 HV2) as (ls2 & C2 & S2).
    destruct (IH _ _ _ _ _ _ _ _ Hk Hs1 HV1 C2) as (ls1 & C1 & S1).
    exists (ls1 ++ ls2). rewrite <- !app_assoc. split; [exact C1|].
    rewrite fmap_app. by apply sublist_app.
Qed.

Lemma tree_represents t L : tree_view t L → represents t L.
Proof.
  intros (_ & _ & tr & [[HN Hs] Hr [h Hb] _] & HL).
  destruct (spine_ok t _ _ _ _ _ _ _ Hb Hs) as (p & Hp & Hsub).
  destruct (chain_ok t _ _ _ _ _ _ _ _ _ Hb Hs HL (chain_nil t)) as (ls & Hc & Hsub').
  rewrite !app_nil_r in Hc. exists (leftmost tr), p, ls. rewrite Hr.
  split_and!; [done|by eapply sublist_NoDup|done|by eapply sublist_NoDup].
Qed.

(** ** The instance *)

(** A fresh index holds nothing. *)
Lemma new_view degree : 2 <= degree → tree_view (NewBTreeIndex degree) [].
Proof.
  intros Hd. split_and!; [done|constructor|]. exists (TLeaf 1 []). split; [split|constructor].
  - split; cbn; [apply NoDup_singleton|]. by repeat constructor.
  - done.
  - by exists 0%nat.
  - intros l Hl. cbn in *. split; [|done]. rewrite lookup_singleton_ne; [done|lia].
Qed.

(** No item of the list has the score. *)
Definition new_score (s : float64) (L : list Item) : Prop :=
  Forall (λ x, eqb s (Score x) = false) L.

#[global] Instance btree_laws : OrderedIndexLaws BTreeIndex.
Proof.
  refine {| view := tree_view; admits _ := new_score; supply _ _ _ := True |}.
  - done.
  - intros t L s m n Hv Hwf Hs Ha _ Hm Hnew.
    destruct (tree_add t L s m) as (t' & ? & ?); eauto. apply Hwf.
  - intros t L s m Hv Hwf Hin. destruct (tree_remove t L s m Hv Hwf Hin) as (t' & ? & ?).
    exists t'. by split_and!.
  - intros t L m Hv _. by apply GetRank_position, tree_represents.
Defined.

End BTreeLaws.
