(* ===== verification/SkipLaws.v ===== *)
(** * The skip list obeys the laws of an ordered index

    For all scores but NaN, equal ones included.  Its supply is the number of
    tails among the draws that are left, since each insertion stops drawing at
    the next one, and the room up to 2^32 items, where ranks would wrap. *)

From Stdlib Require Import ZArith Lia Ascii.
From Stdlib Require Import SpecFloat.
From stdpp Require Import base gmap list strings numbers sorting sets fin_maps.
From S2P Require Import Prelude GoFloat Item SkipList SkipShape SkipSearch SkipInsert SkipRemove SkipRank.
From S2P Require Import SortedSet.

Module SkipLaws.
Import F64 Item SkipList SkipShape SkipSearch SkipInsert SkipRemove SkipRank.

Definition skip_view (t : SkipListIndex) (L : list Item) : Prop :=
  ∃ es, skip_ok t es ∧ item <$> es = L ∧ Z.of_nat (length L) < two32 ∧ [] ∉ Member <$> L.

Definition skip_supply (t : SkipListIndex) (n : nat) (L : list Item) : Prop :=
  (n <= falses (rnd t))%nat ∧ Z.of_nat (length L + n) < two32.

(** A new index holds nothing. *)
Lemma new_skip_view maxLevel draws : skip_view (NewSkipListIndex maxLevel draws) [].
Proof.
  exists []. split; [|split_and!; [done|done|set_solver]].
  assert (∀ j, (j < MaxLevel)%nat →
    lvl (nodes (NewSkipListIndex maxLevel draws)) 1 j = Some (mkLevel None 0)) as Hl.
  { intros j Hj. unfold lvl. cbn [nodes NewSkipListIndex]. rewrite lookup_singleton_eq. cbn [mbind option_bind].
    unfold fresh_node. cbn [levels]. by apply lookup_replicate_2. }
  split; [split|split|done].
  - cbn. apply NoDup_singleton.
  - repeat constructor.
  - cbn. unfold SkiplistMaxLevel. lia.
  - constructor.
  - constructor; [|constructor]. unfold meta. cbn [nodes NewSkipListIndex hd at_ head].
    rewrite lookup_singleton_eq. cbn [mbind option_bind]. unfold fresh_node. cbn [levels score ele].
    by rewrite length_replicate.
  - intros j Hj. split; [|done]. intros _. cbn [hd at_ head NewSkipListIndex].
    rewrite Hl; [done|]. change (top _) with 1%nat in Hj. unfold MaxLevel, SkiplistMaxLevel. lia.
  - intros j Hj. exists 0. apply Hl. apply Hj.
Qed.

(** ** Insertion *)

(** The place of a new item. *)
Lemma insert_item_split it L :
  wf_items L → is_nan (Score it) = false → Member it ∉ Member <$> L →
  ∃ L1 L2, L = L1 ++ L2 ∧ insert_item it L = L1 ++ it :: L2
    ∧ Forall (λ x, item_lt x it) L1 ∧ Forall (λ x, ~ item_lt x it) L2.
Proof.
  intros Hwf Hit Hnew. pose proof (ItemFacts.insert_item_wf it L Hwf Hit Hnew) as [Hs _ _].
  assert (∃ L1 L2, L = L1 ++ L2 ∧ insert_item it L = L1 ++ it :: L2) as (L1 & L2 & E & EI).
  { clear. induction L as [|y L (L1 & L2 & E & EI)]; cbn; [by exists [], []|].
    case_match; [|by exists [], (y :: L)]. exists (y :: L1), L2. cbn. by rewrite EI, <- E. }
  exists L1, L2. split_and!; [done..| |].
  - apply Forall_forall. intros y Hy. rewrite EI in Hs.
    by eapply (StronglySorted_app_1_elem_of item_lt); [exact Hs|done|left].
  - rewrite EI in Hs. apply StronglySorted_app_1_r, StronglySorted_inv in Hs as [_ Hs].
    apply Forall_forall. intros y Hy Hlt. rewrite Forall_forall in Hs. specialize (Hs y Hy).
    pose proof (wf_nan _ Hwf) as Hn. rewrite Forall_forall in Hn.
    assert (is_nan (Score y) = false) as Hny by (apply Hn; rewrite E; set_solver).
    eapply (ItemFacts.item_lt_irrefl it Hit), (ItemFacts.item_lt_trans it y it); done.
Qed.

Lemma skip_add t L s m n :
  skip_view t L → wf_items L → is_nan s = false → skip_supply t (S n) L →
  m ≠ [] → m ∉ Member <$> L →
  ∃ t', Add s m t = Ret (1, t') ∧ skip_view t' (insert_item (mkItem s m) L)
        ∧ skip_supply t' n (insert_item (mkItem s m) L).
Proof.
  intros (es & H & EL & Hlen & Hne) Hwf Hs [Hf Hroom] Hm Hnew.
  destruct (insert_item_split (mkItem s m) L Hwf Hs Hnew) as (L1 & L2 & E & EI & H1 & H2).
  rewrite E in EL. apply fmap_app_inv in EL as (A & B & -> & -> & ->).
  pose proof (wf_nan _ Hwf) as Hn. rewrite E in Hn. rewrite Forall_forall in H1, H2, Hn.
  destruct (insert_ok t A B s m H) as (x & t' & Ei & H' & Ex & Hc); [|lia|].
  { apply before_splits; [done|..]; intros e He; split.
    - apply Hn. apply elem_of_app. left. by apply list_elem_of_fmap_2.
    - apply H1. by apply list_elem_of_fmap_2.
    - apply Hn. apply elem_of_app. right. by apply list_elem_of_fmap_2.
    - apply H2. by apply list_elem_of_fmap_2. }
  exists t'. unfold Add, mbind, ST_bind. rewrite Ei. split; [done|].
  assert (length (insert_item (mkItem s m) L) = S (length L)) as El
    by (by rewrite ItemFacts.insert_item_perm).
  split.
  - exists (A ++ x :: B). split; [done|]. split_and!.
    + by rewrite EI, fmap_app, <- Ex.
    + rewrite El. lia.
    + rewrite ItemFacts.insert_item_perm. cbn. rewrite not_elem_of_cons. done.
  - split; [lia|]. rewrite El. lia.
Qed.

(** ** Removal *)

Lemma skip_remove t L s m :
  skip_view t L → wf_items L → mkItem s m ∈ L →
  ∃ t', RemoveByScore s m t = Ret (1, t') ∧ skip_view t' (drop_member m L) ∧ rnd t' = rnd t
        ∧ (length (drop_member m L) <= length L)%nat.
Proof.
  intros (es & H & <- & Hlen & Hne) Hwf Hin.
  apply list_elem_of_fmap in Hin as (x & Ex & Hx).
  apply list_elem_of_split in Hx as (A & B & ->).
  pose proof (sorted_around A x B Hwf) as (Hnx & HA & HB & Hnew). rewrite <- Ex in HA, HB, Hnx, Hnew.
  destruct (RemoveByScore_ok t A x B s m H) as (t' & Er & H' & Ern); [|done|exact Hnx|].
  { apply before_splits; [exact Hnx|exact HA|]. intros e [-> |He]%elem_of_cons.
    - rewrite <- Ex. split; [exact Hnx|by apply ItemFacts.item_lt_irrefl].
    - destruct (HB e He) as [Hn Hlt]. split; [done|]. intros Hlt'.
      eapply (ItemFacts.item_lt_irrefl (mkItem s m) Hnx),
        (ItemFacts.item_lt_trans (mkItem s m) (item e) (mkItem s m)); done. }
  assert (drop_member m (item <$> A ++ x :: B) = item <$> A ++ B) as ED.
  { unfold drop_member. rewrite !fmap_app, filter_app. cbn [fmap list_fmap].
    rewrite filter_cons_False by (rewrite <- Ex; cbn; by intros []). rewrite <- filter_app, <- fmap_app.
    apply (ItemFacts.drop_member_id m). rewrite <- list_fmap_compose. intros Hc.
    apply list_elem_of_fmap in Hc as (e & Ee & He). rewrite Forall_forall in Hnew.
    by apply (Hnew e He). }
  exists t'. split; [done|]. rewrite ED. split_and!; [|done|].
  - exists (A ++ B). rewrite length_fmap, length_app in Hlen |- *. cbn in Hlen. split_and!; [done..|lia|].
    rewrite <- ED. intros Hc. apply Hne. apply list_elem_of_fmap in Hc as (y & -> & Hy).
    apply ItemFacts.drop_member_elem in Hy as [Hy _]. by apply list_elem_of_fmap_2.
  - rewrite !length_fmap, !length_app. cbn. lia.
Qed.

(** ** The instance *)

#[global] Instance skiplist_laws : OrderedIndexLaws SkipListIndex.
Proof.
  refine {| view := skip_view; admits _ _ _ := True; supply := skip_supply |}.
  - intros t n L [H1 H2]. split; lia.
  - intros t L s m n Hv Hwf Hs _ Hsup Hm Hnew. by apply skip_add.
  - intros t L s m Hv Hwf Hin. destruct (skip_remove t L s m Hv Hwf Hin) as (t' & E & Hv' & Er & Hl).
    exists t'. split_and!; [done|done|done|]. intros n [H1 H2]. split; [by rewrite Er|lia].
  - intros t L m (es & H & <- & Hlen & Hne) Hwf. rewrite length_fmap in Hlen. by apply GetRank_ok.
Defined.

End SkipLaws.
