(* ===== verification/Commands.v ===== *)
(** * The command interpreter of package core
    (src/internal/core: storage.go, executor.go, commands_set.go,
    commands_sorted_set.go, command_cms.go, command_info.go, command_help.go,
    expire.go)

    The package variables are the record [store]; a handler is a stateful
    computation that returns its reply.  What a command reads from outside is
    the record [world]: its clock readings in the order they are taken, and
    the orders in which the run time walks the maps it ranges over. *)

From Stdlib Require Import ZArith Lia Ascii.
From Stdlib Require Import SpecFloat.
From stdpp Require Import base gmap list strings numbers.
From S2P Require Import Prelude GoStrings Resp GoFloat Config EvictionPool Dict SimpleSet.
From S2P Require Import Cms Item BTree SkipList SortedSet.

Module Core.
Import Resp Config EvictionPool.

(** ** State and environment *)

Record store := mkStore {
  dictStore : Dict.Dict;
  ePool : LruEvictionPool;
  zsetStore : gmap bytes (SortedSet.SortedSet AnyIndex);
  setStore : gmap bytes SimpleSet.SimpleSet;
  cmsStore : gmap bytes Cms.CMS
}.

Definition init : store := mkStore Dict.CreateDict ePool_init ∅ ∅ ∅.

Record world := mkWorld {
  clock : nat → Z;
  dict_order : list bytes;
  expiry_order : nat → list bytes;
  member_order : list bytes;
  (** for a worker, what other workers do to the eviction pool they share while
      this one evicts (see [Dict.SetNew_shared]); the interpreter below runs in
      one goroutine and has none *)
  interference : option (list bytes * LruEvictionPool)
}.

Definition with_dict (s : store) (d : Dict.Dict) (p : LruEvictionPool) : store :=
  mkStore d p (zsetStore s) (setStore s) (cmsStore s).
Definition with_zset (s : store) (k : bytes) (z : SortedSet.SortedSet AnyIndex) : store :=
  mkStore (dictStore s) (ePool s) (<[k := z]> (zsetStore s)) (setStore s) (cmsStore s).
Definition with_set (s : store) (k : bytes) (x : SimpleSet.SimpleSet) : store :=
  mkStore (dictStore s) (ePool s) (zsetStore s) (<[k := x]> (setStore s)) (cmsStore s).
Definition with_cms (s : store) (k : bytes) (c : Cms.CMS) : store :=
  mkStore (dictStore s) (ePool s) (zsetStore s) (setStore s) (<[k := c]> (cmsStore s)).

Abbreviation M := (ST store).

(** [Encode(errors.New(msg), false)] *)
Definition error_reply (msg : bytes) : bytes := Encode (VErr msg) false.

Definition wrong_args (cmd : string) : bytes :=
  error_reply (bs "(error) ERR wrong number of arguments for '" ++ bs cmd ++ bs "' command").

Section Handlers.
Context (math_Log : F64.float64 → F64.float64).
Context `{!Sorter Less} (cfg : config) (w : world).

(** ** Strings (executor.go) *)

Definition cmdPING (args : list bytes) : M bytes :=
  mret (match args with
        | [] => Encode (VStr (bs "PONG")) true
        | [a] => Encode (VStr a) false
        | _ => Encode (VErr (bs "ERR wrong number of arguments for 'ping' command")) true
        end).

(** The end of SET: [dictStore.Set(key, dictStore.NewObj(key, value, ttlMs))]. *)
Definition store_new (key value : bytes) (ttlMs : Z) : M bytes :=
  s ← st_get;
  let '(d, p) := Dict.SetNew cfg (clock w 0) (clock w 1) (dict_order w)
                   (dictStore s) (ePool s) key (VStr value) ttlMs in
  _ ← st_put (with_dict s d p);
  mret Constant.RespOk.

Definition not_an_integer : bytes :=
  error_reply (bs "(error) ERR value is not an integer or out of range").

Definition cmdSET (args : list bytes) : M bytes :=
  match args with
  | [key; value] => store_new key value (-1)
  | [key; value; opt; ttl] =>
      if bool_decide (opt ≠ bs "EX") then
        mret (error_reply (bs "(error) ERR syntax error. Must be EX instead of " ++ opt))
      else match Strconv.ParseInt ttl with
           | None => mret not_an_integer
           | Some ttlSec => store_new key value (s64 (ttlSec * 1000))
           end
  | _ => mret (wrong_args "SET")
  end.

Definition cmdGET (args : list bytes) : M bytes :=
  match args with
  | [key] =>
      s ← st_get;
      let '(obj, d) := Dict.Get (clock w 0) (clock w 1) (dictStore s) key in
      _ ← st_put (with_dict s d (ePool s));
      match obj with
      | None => mret Constant.RespNil
      | Some obj =>
          if Dict.HasExpired (clock w 2) d key then mret Constant.RespNil
          else mret (Encode (Dict.Value obj) false)
      end
  | _ => mret (wrong_args "GET")
  end.

Definition cmdTTL (args : list bytes) : M bytes :=
  match args with
  | [key] =>
      s ← st_get;
      let '(obj, d) := Dict.Get (clock w 0) (clock w 1) (dictStore s) key in
      _ ← st_put (with_dict s d (ePool s));
      match obj with
      | None => mret Constant.TtlKeyNotExist
      | Some _ =>
          match Dict.GetExpiry d key with
          | None => mret Constant.TtlKeyExistNoExpire
          | Some exp =>
              let remainMs := u64 (exp - u64 (clock w 2)) in
              if exp <=? u64 (clock w 3) then mret Constant.TtlKeyNotExist
              else mret (Encode (VInt (s64 (remainMs / 1000))) false)
          end
      end
  | _ => mret (wrong_args "TTL")
  end.

(** ** Sorted sets (commands_sorted_set.go) *)

Abbreviation zset := (SortedSet.SortedSet AnyIndex).

(** [for i := scoreIndex; i < len(args); i += 2], [count] pairs added so far.
    The set is returned on every path: what an earlier pair added stays. *)
Fixpoint zadd_loop (args : list bytes) (count : Z) (z : zset) : outcome (bytes * zset) :=
  match args with
  | score :: member :: args =>
      match F64.ParseFloat score with
      | None => Ret (error_reply (bs "(error) Score must be floating point number"), z)
      | Some sc =>
          '(ret, z) ← SortedSet.Add sc member z;
          if ret =? 1 then zadd_loop args (count + 1) z
          else Ret (error_reply (bs "error when adding element"), z)
      end
  | _ => Ret (Encode (VInt count) false, z)
  end.

Definition cmdZADD (args : list bytes) : M bytes :=
  match args with
  | key :: pairs =>
      if Z.of_nat (length args) <? 3 then mret (wrong_args "ZADD")
      else
        let numScoreEleArgs := Z.of_nat (length pairs) in
        if (numScoreEleArgs mod 2 =? 1) || (numScoreEleArgs =? 0) then
          mret (error_reply (bs "(error) Wrong number of (score, member) arg: "
                             ++ Strconv.itoa numScoreEleArgs))
        else
          s ← st_get;
          match zsetStore s !! key with
          | Some z =>
              '(reply, z) ← st_lift (zadd_loop pairs 0 z);
              _ ← st_put (with_zset s key z);
              mret reply
          | None =>
              match SortedSet.NewSortedSet []
                      (SortedSet.mkIndexConfig SortedSet.IndexTypeBTree
                         Constant.DefaultBPlusTreeDegree 0) with
              | inl err =>
                  mret (error_reply (bs "(error) Can not initialize sorted set: " ++ err))
              | inr z =>
                  '(reply, z) ← st_lift (zadd_loop pairs 0 z);
                  _ ← st_put (with_zset s key z);
                  mret reply
              end
          end
  | [] => mret (wrong_args "ZADD")
  end.

Definition cmdZSCORE (args : list bytes) : M bytes :=
  match args with
  | [key; member] =>
      s ← st_get;
      match zsetStore s !! key with
      | None => mret Constant.RespNil
      | Some z =>
          match SortedSet.GetScore member z with
          | None => mret Constant.RespNil
          | Some score => mret (Encode (VStr (F64.Sprintf_f score)) false)
          end
      end
  | _ => mret (wrong_args "ZSCORE")
  end.

Definition cmdZRANK (args : list bytes) : M bytes :=
  match args with
  | [key; member] =>
      s ← st_get;
      match zsetStore s !! key with
      | None => mret Constant.RespNil
      | Some z =>
          '(rank, z) ← st_lift (SortedSet.GetRank member z);
          _ ← st_put (with_zset s key z);
          mret (Encode (VInt rank) false)
      end
  | _ => mret (wrong_args "ZRANK")
  end.

(** ** Sets (commands_set.go) *)

(** [set, exist := setStore[key]; if !exist { set = NewSimpleSet(key); ... }] *)
Definition set_or_new (s : store) (key : bytes) : SimpleSet.SimpleSet :=
  match setStore s !! key with
  | Some x => x
  | None => SimpleSet.NewSimpleSet key
  end.

Definition cmdSADD (args : list bytes) : M bytes :=
  match args with
  | key :: ((_ :: _) as members) =>
      s ← st_get;
      let '(count, x) := SimpleSet.Add (set_or_new s key) members in
      _ ← st_put (with_set s key x);
      mret (Encode (VInt count) false)
  | _ => mret (wrong_args "SADD")
  end.

Definition cmdSREM (args : list bytes) : M bytes :=
  match args with
  | key :: ((_ :: _) as members) =>
      s ← st_get;
      let '(count, x) := SimpleSet.Rem (set_or_new s key) members in
      _ ← st_put (with_set s key x);
      mret (Encode (VInt count) false)
  | _ => mret (wrong_args "SADD")
  end.

Definition cmdSMEMBERS (args : list bytes) : M bytes :=
  match args with
  | [key] =>
      s ← st_get;
      match setStore s !! key with
      | None => mret (Encode (VStrs []) false)
      | Some x => mret (Encode (VStrs (SimpleSet.Members x (member_order w))) false)
      end
  | _ => mret (wrong_args "SMEMBERS")
  end.

Definition cmdSISMEMBER (args : list bytes) : M bytes :=
  match args with
  | [key; member] =>
      s ← st_get;
      match setStore s !! key with
      | None => mret (Encode (VInt 0) false)
      | Some x => mret (Encode (VInt (SimpleSet.IsMember x member)) false)
      end
  | _ => mret (wrong_args "SISMEMBER")
  end.

(** ** Count-Min sketches (command_cms.go) *)

(** [cmsStore[key] = probabilistic.NewCMS(w, h); return RespOk] *)
Definition create_cms (key : bytes) (width height : Z) : M bytes :=
  c ← st_lift (Cms.NewCMS width height);
  s ← st_get;
  _ ← st_put (with_cms s key c);
  mret Constant.RespOk.

Definition cmdCMSINITBYDIM (args : list bytes) : M bytes :=
  match args with
  | [key; a1; a2] =>
      match Strconv.ParseInt a1 with
      | None => mret (error_reply (bs "width must be a integer number " ++ a1))
      | Some width =>
          match Strconv.ParseInt a2 with
          | None => mret (error_reply (bs "height must be a integer number " ++ a1))
          | Some height =>
              s ← st_get;
              match cmsStore s !! key with
              | Some _ => mret (error_reply (bs "CMS: key already exists"))
              | None => create_cms key (u64 width) (u64 height)
              end
          end
      end
  | _ => mret (wrong_args "CMS.INITBYDIM")
  end.

Definition one : F64.float64 := F64.of_Z 1.
Definition zero : F64.float64 := F64.of_Z 0.

(** [x >= 1 || x <= 0] *)
Definition outside_unit (x : F64.float64) : bool := F64.geb x one || F64.leb x zero.

Definition cmdCMSINITBYPROB (args : list bytes) : M bytes :=
  match args with
  | [key; a1; a2] =>
      match F64.ParseFloat a1 with
      | None => mret (error_reply (bs "errRate must be a floating point number " ++ a1))
      | Some errRate =>
          if outside_unit errRate then
            mret (error_reply (bs "CMS: invalid overestimation value"))
          else
            match F64.ParseFloat a2 with
            | None => mret (error_reply (bs "probability must be a floating poit number " ++ a2))
            | Some probability =>
                if outside_unit probability then
                  mret (error_reply (bs "CMS: invalid prob value"))
                else
                  s ← st_get;
                  match cmsStore s !! key with
                  | Some _ => mret (error_reply (bs "CMS: key already exists"))
                  | None =>
                      let '(wd, h) := Cms.CalcCMSDim math_Log errRate probability in
                      create_cms key wd h
                  end
            end
      end
  | _ => mret (wrong_args "CMS.INITBYPROB")
  end.

(** [for i := 1; i < len(args); i += 2]; [arg1] is the [args[1]] of the error
    text.  The sketch is returned on every path. *)
Fixpoint incrby_loop (arg1 : bytes) (args : list bytes) (c : Cms.CMS) (res : list bytes) :
    outcome (bytes * Cms.CMS) :=
  match args with
  | item :: v :: args =>
      match Strconv.ParseUint v with
      | None =>
          Ret (error_reply (bs "increment must be a non negative integer number " ++ arg1), c)
      | Some value =>
          '(count, c) ← Cms.IncrBy c item value;
          if count =? MaxUint64
          then incrby_loop arg1 args c (res ++ [bs "CMS: INCRBY overflow"])
          else incrby_loop arg1 args c (res ++ [Strconv.utoa count])
      end
  | _ => Ret (Encode (VStrs res) false, c)
  end.

Definition cmdCMSINCRBY (args : list bytes) : M bytes :=
  match args with
  | key :: ((arg1 :: _ :: _) as pairs) =>
      if Z.of_nat (length args) mod 2 =? 0 then mret (wrong_args "CMS.INCBY")
      else
        s ← st_get;
        match cmsStore s !! key with
        | None => mret (error_reply (bs "CMS: key does not exist"))
        | Some c =>
            '(reply, c) ← st_lift (incrby_loop arg1 pairs c []);
            _ ← st_put (with_cms s key c);
            mret reply
        end
  | _ => mret (wrong_args "CMS.INCBY")
  end.

Fixpoint query_loop (args : list bytes) (c : Cms.CMS) (res : list bytes) : outcome (list bytes) :=
  match args with
  | [] => Ret res
  | item :: args => n ← Cms.Count c item; query_loop args c (res ++ [Strconv.utoa n])
  end.

Definition cmdCMSQUERY (args : list bytes) : M bytes :=
  match args with
  | key :: ((_ :: _) as members) =>
      s ← st_get;
      match cmsStore s !! key with
      | None => mret (error_reply (bs "CMS: key does not exist"))
      | Some c => res ← st_lift (query_loop members c []); mret (Encode (VStrs res) false)
      end
  | _ => mret (wrong_args "CMS.QUERY")
  end.

(** ** INFO and HELP *)

Definition keyspace_line (keys expires avg : Z) : bytes :=
  bs "# Keyspace" ++ CRLF ++
  bs "db0:keys=" ++ Strconv.itoa keys ++ bs ",expires=" ++ Strconv.itoa expires ++
  bs ",avg_ttl=" ++ Strconv.itoa avg ++ CRLF.

Definition cmdINFO (args : list bytes) : M bytes :=
  match args with
  | [] =>
      mret (Encode (VStr (bs "All sections. I will implement later. You can try `INFO keyspace` command"
                          ++ [LF])) false)
  | [section] =>
      if bool_decide (section = bs "keyspace") then
        s ← st_get;
        let d := dictStore s in
        mret (Encode (VStr (keyspace_line
                (Z.of_nat (size (Dict.GetDictStore d)))
                (Dict.ExpiringKeysCount (clock w 0) (expiry_order w 0) d)
                (Dict.TLL_Avg (clock w 1) (expiry_order w 1) d))) false)
      else mret (error_reply (bs "(error) ERR unknown INFO section"))
  | _ => mret (wrong_args "INFO")
  end.

Definition helpCommands : list bytes := bs <$> [
  "--------------------------------";
  "PING [message] - Ping the server";
  "GET key - Get the value of a key";
  "SET key value - Set the value of a key";
  "EXISTS key - Check if a key exists";
  "TTL key - Get the time to live for a key";
  "SADD key member [member ...] - Add members to a set";
  "SREM key member [member ...] - Remove members from a set";
  "HELP - Show this help message";
  "CLEAR - Clear the terminal screen";
  "--------------------------------"
]%string.

Definition cmdHELP : M bytes := mret (Encode (VStrs helpCommands) false).

(** ** Dispatch: the reply written to the connection *)

Definition not_found : bytes := bs "-CMD NOT FOUND" ++ CRLF.

(** The [switch] as a table, in the order of the cases. *)
Definition table : list (bytes * (list bytes → M bytes)) := [
  (bs "PING", cmdPING);
  (bs "SET", cmdSET);
  (bs "GET", cmdGET);
  (bs "TTL", cmdTTL);
  (bs "ZADD", cmdZADD);
  (bs "ZSCORE", cmdZSCORE);
  (bs "ZRANK", cmdZRANK);
  (bs "SADD", cmdSADD);
  (bs "SREM", cmdSREM);
  (bs "SMEMBERS", cmdSMEMBERS);
  (bs "SISMEMBER", cmdSISMEMBER);
  (bs "CMS.INITBYDIM", cmdCMSINITBYDIM);
  (bs "CMS.INITBYPROB", cmdCMSINITBYPROB);
  (bs "CMS.INCRBY", cmdCMSINCRBY);
  (bs "CMS.QUERY", cmdCMSQUERY);
  (bs "INFO", cmdINFO);
  (bs "HELP", λ _, cmdHELP)
].

Fixpoint find_handler {A} (name : bytes) (t : list (bytes * A)) : option A :=
  match t with
  | [] => None
  | (n, h) :: t => if decide (name = n) then Some h else find_handler name t
  end.

Definition ExecuteAndResponse (cmd : Command) : M bytes :=
  match find_handler (Cmd cmd) table with
  | Some h => h (Args cmd)
  | None => mret not_found
  end.

End Handlers.

(** ** Active expiry (expire.go)

    [ord i d] is the order in which the [i]-th pass ranges over the expiry
    table of the dictionary [d]; [clk i j] is the [j]-th clock reading of that
    pass. *)

Section Expire.
Context (ord : nat → Dict.Dict → list bytes) (clk : nat → nat → Z).

(** One pass: at most [remain] keys are looked at. *)
Fixpoint expire_pass (i j : nat) (keys : list bytes) (remain : Z) (d : Dict.Dict) (expired : Z) :
    Dict.Dict * Z :=
  match keys with
  | [] => (d, expired)
  | key :: keys =>
      let remain := remain - 1 in
      if remain <? 0 then (d, expired)
      else
        match Dict.GetExpireDictStore d !! key with
        | Some expiredTime =>
            if s64 expiredTime <? clk i j
            then expire_pass i (S j) keys remain (Dict.Del d key).2 (expired + 1)
            else expire_pass i (S j) keys remain d expired
        | None => expire_pass i (S j) keys remain d expired
        end
  end.

(** [float64(expiredCount)/float64(sampleSize) <= threshold] *)
Definition few_expired (expired : Z) : bool :=
  F64.leb (F64.div (F64.of_Z expired) (F64.of_Z Constant.ActiveExpireSampleSize))
          Constant.ActiveExpireThreshold.

Fixpoint expire_loop (fuel i : nat) (d : Dict.Dict) : outcome Dict.Dict :=
  match fuel with
  | O => NoFuel
  | S fuel =>
      let '(d, expired) :=
        expire_pass i 0 (ord i d) Constant.ActiveExpireSampleSize d 0 in
      if few_expired expired then Ret d else expire_loop fuel (S i) d
  end.

(** Each pass that is followed by another deletes keys that have an expiry,
    so one pass per such key and a last one are enough
    ([ActiveDelete_terminates]). *)
Definition ActiveDeleteExpiredKeys (d : Dict.Dict) : outcome Dict.Dict :=
  expire_loop (S (size (Dict.expiredDictStore d))) 0 d.

End Expire.

End Core.
