(* ===== verification/Expire.v ===== *)
(** * Active expiry: termination and what it deletes
    (src/internal/core/expire.go)

    The sampling loop of [ActiveDeleteExpiredKeys] has no bound of its own.
    It ends because a pass that is followed by another has deleted keys, each
    of which leaves the expiry table as long as the dictionary is well formed. *)

From Stdlib Require Import ZArith Lia Ascii.
From Stdlib Require Import SpecFloat.
From stdpp Require Import base gmap list strings numbers list_numbers sorting sets.
From S2P Require Import Prelude GoStrings Resp GoFloat Config EvictionPool Dict Commands.

Module Expire.
Import Core Dict.

(** ** The threshold *)

Lemma few_expired_iff c : 0 <= c <= 20 → few_expired c = (c <=? 2).
Proof.
  intros Hc. assert (H : forallb (λ c, eqb (few_expired c) (c <=? 2)) (seqZ 0 21) = true)
    by (vm_compute; reflexivity).
  rewrite forallb_forall in H. apply eqb_prop, H. apply list_elem_of_In, elem_of_seqZ. lia.
Qed.

(** ** Deleting a list of keys *)

Lemma delete_all_app d a b : delete_all (delete_all d a) b = delete_all d (a ++ b).
Proof. unfold delete_all. by rewrite foldl_app. Qed.

Lemma delete_all_expired_size d ks :
  wf d → NoDup ks → (∀ k, k ∈ ks → is_Some (expiredDictStore d !! k)) →
  (size (expiredDictStore (delete_all d ks)) + length ks)%nat = size (expiredDictStore d).
Proof.
  intros Hd Hn. revert d Hd; induction Hn as [|k ks Hk Hn IH]; intros d Hd Hin; cbn.
  - lia.
  - destruct (Hin k ltac:(by left)) as [t Ht].
    assert (E : size (expiredDictStore (Del d k).2) = pred (size (expiredDictStore d))).
    { rewrite Del_expired by done. by rewrite map_size_delete, Ht. }
    assert (size (expiredDictStore d) ≠ 0%nat).
    { intros H0%map_size_empty_iff. by rewrite H0, lookup_empty in Ht. }
    assert (IH' := IH (Del d k).2 (Del_wf _ _ Hd)). rewrite E in IH'.
    unfold delete_all in IH'. rewrite Nat.add_succ_r, IH'; [lia|].
    intros k' Hk'. rewrite Del_expired by done. rewrite lookup_delete_ne by (by intros ->).
    apply Hin. by right.
Qed.

(** ** One pass *)

Section Pass.
Context (ord : nat → Dict → list bytes) (clk : nat → nat → Z).

(** Expired at some reading of the clock; expired at all of them. *)
Definition ever_expired (d : Dict) (k : bytes) : Prop :=
  ∃ t i j, expiredDictStore d !! k = Some t ∧ s64 t < clk i j.
Definition always_expired (d : Dict) (k : bytes) : Prop :=
  ∃ t, expiredDictStore d !! k = Some t ∧ ∀ i j, s64 t < clk i j.

Lemma expire_pass_spec i j keys remain d e :
  wf d → NoDup keys → 0 <= remain →
  ∃ ks, expire_pass clk i j keys remain d e = (delete_all d ks, e + Z.of_nat (length ks)) ∧
        ks `sublist_of` keys ∧ Z.of_nat (length ks) <= remain ∧
        (∀ k, k ∈ ks → ever_expired d k) ∧
        (Z.of_nat (length keys) <= remain → ∀ k, k ∈ keys → always_expired d k → k ∈ ks).
Proof.
  intros Hd Hn. revert j remain d e Hd.
  induction Hn as [|k keys Hk Hn IH]; intros j remain d e Hd Hr; cbn [expire_pass].
  { exists []. cbn. rewrite Z.add_0_r. split_and!; [done..|set_solver|done]. }
  destruct (Z.ltb_spec (remain - 1) 0) as [Hlt|Hge].
  { exists []. cbn [delete_all foldl length]. rewrite Z.add_0_r.
    split_and!; [done|apply sublist_nil_l|lia|set_solver|]. cbn [length]. lia. }
  assert (Hskip :
    (∀ t, expiredDictStore d !! k = Some t → ~ s64 t < clk i j) →
    ∃ ks, expire_pass clk i (S j) keys (remain - 1) d e = (delete_all d ks, e + Z.of_nat (length ks)) ∧
        ks `sublist_of` k :: keys ∧ Z.of_nat (length ks) <= remain ∧
        (∀ k, k ∈ ks → ever_expired d k) ∧
        (Z.of_nat (length (k :: keys)) <= remain →
         ∀ k', k' ∈ k :: keys → always_expired d k' → k' ∈ ks)).
  { intros Hne. destruct (IH (S j) (remain - 1) d e Hd Hge) as (ks & -> & H1 & H2 & H3 & H4).
    exists ks. split_and!; [done|by apply sublist_cons|lia|done|].
    intros Hl k' [->|Hk']%elem_of_cons Ha; [|apply H4; [cbn [length] in Hl; lia|done..]].
    destruct Ha as (t & Ht & Ha). by destruct (Hne t Ht). }
  unfold GetExpireDictStore. destruct (expiredDictStore d !! k) as [t|] eqn:Et; [|by apply Hskip].
  destruct (Z.ltb_spec (s64 t) (clk i j)) as [Hx|Hx].
  2: { apply Hskip. intros t' [= <-]. lia. }
  clear Hskip.
  destruct (IH (S j) (remain - 1) (Del d k).2 (e + 1) (Del_wf _ _ Hd) Hge)
    as (ks & -> & H1 & H2 & H3 & H4).
  assert (Hlook : ∀ k', k' ≠ k → expiredDictStore (Del d k).2 !! k' = expiredDictStore d !! k').
  { intros k' Hne. by rewrite Del_expired, lookup_delete_ne. }
  exists (k :: ks). split_and!.
  - f_equal. cbn [length]. lia.
  - by apply sublist_skip.
  - cbn [length]. lia.
  - intros k' [->|Hk']%elem_of_cons; [by exists t, i, j|].
    destruct (H3 k' Hk') as (t' & i' & j' & Ht' & Hlt'). exists t', i', j'.
    split; [|done]. rewrite Hlook in Ht'; [done|]. intros ->.
    by rewrite Del_expired, lookup_delete_eq in Ht'.
  - intros Hl k' [->|Hk']%elem_of_cons (t' & Ht' & Ha); [by left|]. right.
    apply H4; [cbn [length] in Hl; lia|done|]. exists t'. split; [|done].
    rewrite Hlook; [done|]. by intros ->.
Qed.

(** ** The loop *)

Context (Hord : ∀ i d, iter_order (expiredDictStore d) (ord i d)).

Lemma expire_loop_spec fuel i d :
  wf d → (size (expiredDictStore d) < fuel)%nat →
  ∃ ks, expire_loop ord clk fuel i d = Ret (delete_all d ks) ∧
        (∀ k, k ∈ ks → ever_expired d k) ∧
        (Z.of_nat (size (expiredDictStore d)) <= 20 → ∀ k, always_expired d k → k ∈ ks).
Proof.
  revert i d. induction fuel as [|fuel IH]; intros i d Hd Hf; [lia|]. cbn [expire_loop].
  pose proof (iter_order_nodup _ _ (Hord i d)) as Hn.
  destruct (expire_pass_spec i 0 (ord i d) Constant.ActiveExpireSampleSize d 0 Hd Hn)
    as (ks & -> & Hsub & Hlen & Hev & Hal); [done|].
  unfold Constant.ActiveExpireSampleSize in Hlen, Hal.
  assert (Hin : ∀ k, k ∈ ks → is_Some (expiredDictStore d !! k)).
  { intros k Hk. destruct (Hev k Hk) as (t & ? & ? & -> & _). eauto. }
  assert (Hnk : NoDup ks) by (by eapply sublist_NoDup).
  pose proof (delete_all_expired_size d ks Hd Hnk Hin) as Hsz.
  rewrite few_expired_iff by lia. destruct (Z.leb_spec (0 + Z.of_nat (length ks)) 2) as [Hle|Hgt].
  - exists ks. split_and!; [done..|]. intros Hsmall k Hk. apply Hal; [|  |done].
    + rewrite (iter_order_length _ _ (Hord i d)). done.
    + apply (iter_order_dom _ _ _ (Hord i d)). destruct Hk as (t & Ht & _).
      apply elem_of_dom. eauto.
  - destruct (IH (S i) (delete_all d ks)) as (ks' & -> & Hev' & Hal');
      [by apply delete_all_wf|lia|].
    exists (ks ++ ks'). rewrite delete_all_app. split_and!; [done| |].
    + intros k [Hk|Hk]%elem_of_app; [by apply Hev|].
      destruct (Hev' k Hk) as (t & i' & j' & Ht & Hx). exists t, i', j'. split; [|done].
      rewrite delete_all_expired in Ht by done. by case_bool_decide.
    + intros Hsmall k Hk. apply elem_of_app.
      destruct (decide (k ∈ ks)) as [|Hnot]; [by left|right].
      apply Hal'; [lia|]. destruct Hk as (t & Ht & Hx). exists t. split; [|done].
      rewrite delete_all_expired by done. by rewrite bool_decide_eq_false_2.
Qed.

(** C22: active expiry terminates on every well-formed dictionary, whatever the
    clock shows and however the run time orders the table in each pass; it
    deletes only keys that were past their expiry at some reading, with value
    and expiry, and leaves every other key untouched. *)
Theorem ActiveDelete_terminates d :
  wf d →
  ∃ d', ActiveDeleteExpiredKeys ord clk d = Ret d' ∧ wf d' ∧
        ∀ k, ~ ever_expired d k →
             dictStore d' !! k = dictStore d !! k ∧
             expiredDictStore d' !! k = expiredDictStore d !! k.
Proof.
  intros Hd. destruct (expire_loop_spec (S (size (expiredDictStore d))) 0 d Hd)
    as (ks & E & Hev & _); [lia|].
  exists (delete_all d ks). split_and!; [done|by apply delete_all_wf|].
  intros k Hk. rewrite delete_all_dict, delete_all_expired by done.
  rewrite bool_decide_eq_false_2; [done|]. intros Hin. by apply Hk, Hev.
Qed.

(** C23: with at most 20 keys that have an expiry (the sample size), active
    expiry removes every key that is past its expiry at all readings. *)
Theorem ActiveDelete_complete d :
  wf d → Z.of_nat (size (expiredDictStore d)) <= 20 →
  ∃ d', ActiveDeleteExpiredKeys ord clk d = Ret d' ∧
        ∀ k, always_expired d k → dictStore d' !! k = None ∧ expiredDictStore d' !! k = None.
Proof.
  intros Hd Hsm. destruct (expire_loop_spec (S (size (expiredDictStore d))) 0 d Hd)
    as (ks & E & _ & Hal); [lia|].
  exists (delete_all d ks). split; [done|]. intros k Hk.
  rewrite delete_all_dict, delete_all_expired by done.
  by rewrite !bool_decide_eq_true_2 by auto.
Qed.

End Pass.

(** ** Witnesses: the iteration order of the model's own maps, a clock at 8000 *)

Definition demo_ord (_ : nat) (d : Dict) : list bytes := (map_to_list (expiredDictStore d)).*1.
Definition demo_clk (_ _ : nat) : Z := 8000.

Lemma ActiveDelete_terminates_witness :
  ∃ d', ActiveDeleteExpiredKeys demo_ord demo_clk demo = Ret d' ∧ wf d'.
Proof.
  destruct (ActiveDelete_terminates demo_ord demo_clk) with (d := demo) as (d' & E & H & _);
    [intros; unfold iter_order; reflexivity|exact demo_wf|]. exists d'. split; [exact E|exact H].
Defined.

Lemma ActiveDelete_complete_witness :
  ∃ d', ActiveDeleteExpiredKeys demo_ord demo_clk demo = Ret d' ∧ dictStore d' !! bs "a" = None.
Proof.
  destruct (ActiveDelete_complete demo_ord demo_clk) with (d := demo) as (d' & E & H);
    [intros; unfold iter_order; reflexivity|exact demo_wf|vm_compute; congruence|].
  exists d'. split; [exact E|]. apply (H (bs "a")). exists 7000.
  split; [vm_compute; reflexivity|]. intros i j. vm_compute. reflexivity.
Defined.

End Expire.
