(* ===== verification/CommandFacts.v ===== *)
(** * Properties of the command interpreter (src/internal/core)

    Which commands always answer, what each leaves alone, and the replies a
    client sees: SET with GET and TTL, the set commands, the Count-Min
    commands, and the sorted-set commands on ties. *)

From Stdlib Require Import ZArith Lia Ascii.
From Stdlib Require Import SpecFloat.
From stdpp Require Import base gmap list strings numbers sorting sets.
From S2P Require Import Prelude GoStrings Resp GoFloat Config EvictionPool Dict SimpleSet.
From S2P Require Import Cms Item BTree SkipList SortedSet Commands.

Module CommandFacts.
Import Resp Config EvictionPool Core.

(** ** Well-formed stores and safe handlers *)

Record wf_store (cfg : config) (s : store) : Prop := {
  wf_dict : Dict.wf (dictStore s);
  wf_pool : inv (EpoolMaxSize cfg) (ePool s);
  wf_cms : map_Forall (λ _ c, ∃ os, Cms.represents c os) (cmsStore s)
}.

(** A handler that always answers and keeps the store well formed. *)
Definition safe (cfg : config) (m : ST store bytes) : Prop :=
  ∀ s, wf_store cfg s → ∃ r s', m s = Ret (r, s') ∧ wf_store cfg s'.

(** The commands whose handlers can panic: they allocate or walk the B+ tree. *)
Definition unsafe_commands : list bytes :=
  bs <$> ["ZADD"; "ZRANK"; "CMS.INITBYDIM"; "CMS.INITBYPROB"]%string.

Lemma safe_ret cfg r : safe cfg (mret r).
Proof. intros s Hs. by exists r, s. Qed.

Lemma wf_store_dict cfg s d p :
  wf_store cfg s → Dict.wf d → inv (EpoolMaxSize cfg) p → wf_store cfg (with_dict s d p).
Proof. by intros [] ??. Qed.

Lemma wf_store_set cfg s k x : wf_store cfg s → wf_store cfg (with_set s k x).
Proof. by intros []. Qed.

Lemma wf_store_cms cfg s k c os :
  wf_store cfg s → Cms.represents c os → wf_store cfg (with_cms s k c).
Proof. intros [] Hc. split; cbn; [done..|]. apply map_Forall_insert_2; eauto. Qed.

#[local] Hint Resolve safe_ret wf_store_dict wf_store_set : go.

(** The pool keeps its invariant through eviction. *)
Lemma pop_loop_pool max fuel i c d p :
  inv max p → inv max (Dict.pop_loop fuel i c d p).2.
Proof.
  revert i d p. induction fuel as [|fuel IH]; intros i d p Hp; cbn [Dict.pop_loop]; [done|].
  case_match; [|done]. pose proof (Pop_inv max p Hp) as Hq.
  destruct (Pop p) as [it q]. by apply IH.
Qed.

Lemma SetNew_pool `{!Sorter Less} cfg t0 t1 ord d p k v ttl :
  0 <= EpoolMaxSize cfg → inv (EpoolMaxSize cfg) p →
  inv (EpoolMaxSize cfg) (Dict.SetNew cfg t0 t1 ord d p k v ttl).2.
Proof.
  intros Hm Hp. unfold Dict.SetNew. destruct (Dict.NewObj _ _ _ _ _ _) as [o d1].
  unfold Dict.Set_. destruct (_ <=? _); [|done].
  assert (inv (EpoolMaxSize cfg) (Dict.evict cfg ord d1 p).2) as He.
  { unfold Dict.evict, Dict.evictLru. repeat case_bool_decide; cbn; try done.
    apply pop_loop_pool. by apply Dict.populate_inv. }
  by destruct (Dict.evict cfg ord d1 p).
Qed.

(** The sketch after a run of increments still stands for some increments. *)
Lemma incrby_loop_total arg1 args c os res :
  Cms.represents c os →
  ∃ r c' os', incrby_loop arg1 args c res = Ret (r, c') ∧ Cms.represents c' os'.
Proof.
  revert c os res. induction args as [| |item v args IH] using pairs_ind;
    intros c os res Hc; cbn [incrby_loop]; [by eauto..|].
  destruct (Strconv.ParseUint v) as [n|] eqn:Ev; [|by eauto].
  destruct (Cms.IncrBy_spec c os item n Hc (Strconv.ParseUint_range _ _ Ev))
    as (c' & -> & _ & _ & Hc'). cbn [mbind outcome_bind].
  case_match; by eapply IH.
Qed.

Lemma query_loop_total args c os res :
  Cms.represents c os → ∃ r, query_loop args c res = Ret r.
Proof.
  intros Hc. revert res. induction args as [|item args IH]; intros res; cbn [query_loop]; [by eauto|].
  rewrite (Cms.Count_spec _ _ _ Hc). cbn. apply IH.
Qed.

(** ** Each handler *)

Section Safe.
Context (math_Log : F64.float64 → F64.float64).
Context `{!Sorter Less} (cfg : config) (w : world).
Context (Hpool : 0 <= EpoolMaxSize cfg) (Hord : Z.of_nat (length (dict_order w)) < two63).

Lemma store_new_safe key value ttl : safe cfg (store_new cfg w key value ttl).
Proof.
  intros s Hs. unfold store_new, mbind, ST_bind, st_get, st_put.
  pose proof (Dict.SetNew_wf cfg (clock w 0) (clock w 1) (dict_order w) (dictStore s) (ePool s)
                key (VStr value) ttl Hord (wf_dict _ _ Hs)) as Hd.
  pose proof (SetNew_pool cfg (clock w 0) (clock w 1) (dict_order w) (dictStore s) (ePool s)
                key (VStr value) ttl Hpool (wf_pool _ _ Hs)) as Hp.
  destruct (Dict.SetNew _ _ _ _ _ _ _ _ _) as [d p]. eauto with go.
Qed.

(** A lookup followed by a continuation that is safe on the new store. *)
Lemma lookup_safe key (f : option Dict.Obj → Dict.Dict → ST store bytes) :
  (∀ o d, safe cfg (f o d)) →
  safe cfg (s ← st_get;
            let '(obj, d) := Dict.Get (clock w 0) (clock w 1) (dictStore s) key in
            _ ← st_put (with_dict s d (ePool s));
            f obj d).
Proof.
  intros Hf s Hs. unfold mbind, ST_bind, st_get, st_put.
  pose proof (Dict.Get_wf (clock w 0) (clock w 1) _ key (wf_dict _ _ Hs)) as Hd.
  destruct (Dict.Get _ _ _ _) as [o d]. pose proof (wf_pool _ _ Hs).
  apply Hf. eauto with go.
Qed.

(** Reading the store first. *)
Lemma get_safe (f : store → ST store bytes) :
  (∀ s, wf_store cfg s → ∃ r s', f s s = Ret (r, s') ∧ wf_store cfg s') →
  safe cfg (s ← st_get; f s).
Proof. intros Hf s Hs. exact (Hf s Hs). Qed.

Ltac args_cases :=
  repeat lazymatch goal with
  | |- safe _ (mret _) => apply safe_ret
  | |- safe _ (mbind _ _) => fail
  | _ => case_match
  end.

Lemma cmdPING_safe args : safe cfg (cmdPING args).
Proof. apply safe_ret. Qed.

Lemma cmdSET_safe args : safe cfg (cmdSET cfg w args).
Proof. unfold cmdSET. args_cases; apply store_new_safe. Qed.

Lemma cmdGET_safe args : safe cfg (cmdGET w args).
Proof. unfold cmdGET. args_cases. apply lookup_safe. intros o d. args_cases. Qed.

Lemma cmdTTL_safe args : safe cfg (cmdTTL w args).
Proof. unfold cmdTTL. args_cases. apply lookup_safe. intros o d. args_cases. Qed.

Lemma cmdZSCORE_safe args : safe cfg (cmdZSCORE args).
Proof.
  unfold cmdZSCORE. args_cases. apply get_safe. intros s Hs.
  repeat case_match; by eapply safe_ret.
Qed.

Lemma cmdSADD_safe args : safe cfg (cmdSADD args).
Proof.
  unfold cmdSADD. args_cases. apply get_safe. intros s Hs.
  destruct (SimpleSet.Add _ _) as [n x]. cbn. eauto with go.
Qed.

Lemma cmdSREM_safe args : safe cfg (cmdSREM args).
Proof.
  unfold cmdSREM. args_cases. apply get_safe. intros s Hs.
  destruct (SimpleSet.Rem _ _) as [n x]. cbn. eauto with go.
Qed.

Lemma cmdSMEMBERS_safe args : safe cfg (cmdSMEMBERS w args).
Proof.
  unfold cmdSMEMBERS. args_cases. apply get_safe. intros s Hs.
  repeat case_match; by eapply safe_ret.
Qed.

Lemma cmdSISMEMBER_safe args : safe cfg (cmdSISMEMBER args).
Proof.
  unfold cmdSISMEMBER. args_cases. apply get_safe. intros s Hs.
  repeat case_match; by eapply safe_ret.
Qed.

Lemma cmdINFO_safe args : safe cfg (cmdINFO w args).
Proof. unfold cmdINFO. args_cases. apply get_safe. intros s Hs. by eapply safe_ret. Qed.

Lemma cmdCMSINCRBY_safe args : safe cfg (cmdCMSINCRBY args).
Proof.
  unfold cmdCMSINCRBY. args_cases. apply get_safe. intros s Hs.
  destruct (cmsStore s !! _) as [c|] eqn:E; [|by eapply safe_ret].
  destruct (wf_cms _ _ Hs _ _ E) as [os Hc].
  edestruct (incrby_loop_total) as (r & c' & os' & Er & Hc'); [exact Hc|].
  unfold mbind, ST_bind, st_lift. rewrite Er. cbn. eauto using wf_store_cms.
Qed.

Lemma cmdCMSQUERY_safe args : safe cfg (cmdCMSQUERY args).
Proof.
  unfold cmdCMSQUERY. args_cases. apply get_safe. intros s Hs.
  destruct (cmsStore s !! _) as [c|] eqn:E; [|by eapply safe_ret].
  destruct (wf_cms _ _ Hs _ _ E) as [os Hc].
  edestruct (query_loop_total) as [r Er]; [exact Hc|].
  unfold mbind, ST_bind, st_lift. rewrite Er. cbn. eauto.
Qed.

#[local] Hint Resolve cmdPING_safe cmdSET_safe cmdGET_safe cmdTTL_safe cmdZSCORE_safe
  cmdSADD_safe cmdSREM_safe cmdSMEMBERS_safe cmdSISMEMBER_safe cmdINFO_safe
  cmdCMSINCRBY_safe cmdCMSQUERY_safe : go.

(** Every command other than ZADD, ZRANK and the two CMS initialisers is
    answered, never panics and keeps the store well formed (dictionary and pool
    invariants, every sketch standing for a list of increments), for all
    arguments, clock readings and map orders; a name that is not in the table
    gets the "not found" reply. *)
Lemma execute_safe cmd :
  Cmd cmd ∉ unsafe_commands → safe cfg (ExecuteAndResponse math_Log cfg w cmd).
Proof.
  intros Hc. unfold ExecuteAndResponse, table. cbn [find_handler].
  unfold unsafe_commands in Hc. cbn [fmap list_fmap] in Hc.
  rewrite !not_elem_of_cons in Hc. destruct Hc as (H1 & H2 & H3 & H4 & _).
  repeat (case_decide; [first [by eauto with go | done]|]). eauto with go.
Qed.

End Safe.

(** ** What a command can change *)

Definition dict_commands : list bytes := bs <$> ["SET"; "GET"; "TTL"]%string.
Definition zset_commands : list bytes := bs <$> ["ZADD"; "ZRANK"]%string.
Definition set_commands : list bytes := bs <$> ["SADD"; "SREM"]%string.
Definition cms_commands : list bytes :=
  bs <$> ["CMS.INITBYDIM"; "CMS.INITBYPROB"; "CMS.INCRBY"]%string.

(** The four shapes of a new store; the last three under the command's key. *)
Inductive effect (args : list bytes) (s : store) : list bytes → store → Prop :=
  | effect_none names : effect args s names s
  | effect_dict d p : effect args s dict_commands (with_dict s d p)
  | effect_zset k z : head args = Some k → effect args s zset_commands (with_zset s k z)
  | effect_set k x : head args = Some k → effect args s set_commands (with_set s k x)
  | effect_cms k c : head args = Some k → effect args s cms_commands (with_cms s k c).

Definition has_effect (names : list bytes) (h : list bytes → ST store bytes) : Prop :=
  ∀ args s r s', h args s = Ret (r, s') → effect args s names s'.

(** Run the handler to each of its ends and read off the effect. *)
Ltac solve_effect :=
  unfold create_cms, store_new, mbind, ST_bind, st_get, st_put, st_lift,
    mret, ST_ret, mbind, outcome_bind;
  intros E; repeat case_match; simplify_eq; eauto using effect.

Section Effects.
Context (math_Log : F64.float64 → F64.float64).
Context `{!Sorter Less} (cfg : config) (w : world).

Lemma cmdSET_effect : has_effect dict_commands (cmdSET cfg w).
Proof. intros args s r s'. unfold cmdSET. solve_effect. Qed.

Lemma cmdGET_effect : has_effect dict_commands (cmdGET w).
Proof. intros args s r s'. unfold cmdGET. solve_effect. Qed.

Lemma cmdTTL_effect : has_effect dict_commands (cmdTTL w).
Proof. intros args s r s'. unfold cmdTTL. solve_effect. Qed.

Lemma cmdZADD_effect : has_effect zset_commands cmdZADD.
Proof. intros args s r s'. unfold cmdZADD. solve_effect. Qed.

Lemma cmdZRANK_effect : has_effect zset_commands cmdZRANK.
Proof. intros args s r s'. unfold cmdZRANK. solve_effect. Qed.

Lemma cmdSADD_effect : has_effect set_commands cmdSADD.
Proof. intros args s r s'. unfold cmdSADD. solve_effect. Qed.

Lemma cmdSREM_effect : has_effect set_commands cmdSREM.
Proof. intros args s r s'. unfold cmdSREM. solve_effect. Qed.

Lemma cmdCMSINITBYDIM_effect : has_effect cms_commands cmdCMSINITBYDIM.
Proof. intros args s r s'. unfold cmdCMSINITBYDIM. solve_effect. Qed.

Lemma cmdCMSINITBYPROB_effect : has_effect cms_commands (cmdCMSINITBYPROB math_Log).
Proof. intros args s r s'. unfold cmdCMSINITBYPROB. solve_effect. Qed.

Lemma cmdCMSINCRBY_effect : has_effect cms_commands cmdCMSINCRBY.
Proof. intros args s r s'. unfold cmdCMSINCRBY. solve_effect. Qed.

(** The handlers that only read the store. *)
Definition readonly (m : ST store bytes) : Prop := ∀ s r s', m s = Ret (r, s') → s' = s.

Lemma readonly_ret b : readonly (mret b).
Proof. intros s r s' E. by injection E as _ <-. Qed.

Lemma readonly_get f : (∀ s, readonly (f s)) → readonly (s ← st_get; f s).
Proof. intros Hf s r s' E. exact (Hf s s r s' E). Qed.

Lemma readonly_lift {A} (o : outcome A) f :
  (∀ a, readonly (f a)) → readonly (a ← st_lift o; f a).
Proof.
  intros Hf s r s'. unfold mbind, ST_bind, st_lift. destruct o as [a| |]; [|done..].
  cbn. apply Hf.
Qed.

Ltac solve_readonly :=
  repeat lazymatch goal with
  | |- readonly (mret _) => apply readonly_ret
  | |- readonly (mbind _ st_get) => apply readonly_get; intros ?
  | |- readonly (mbind _ (st_lift _)) => apply readonly_lift; intros ?
  | _ => case_match
  end.

Lemma cmdPING_readonly args : readonly (cmdPING args).
Proof. apply readonly_ret. Qed.
Lemma cmdHELP_readonly : readonly cmdHELP.
Proof. apply readonly_ret. Qed.
Lemma cmdZSCORE_readonly args : readonly (cmdZSCORE args).
Proof. unfold cmdZSCORE. solve_readonly. Qed.
Lemma cmdSMEMBERS_readonly args : readonly (cmdSMEMBERS w args).
Proof. unfold cmdSMEMBERS. solve_readonly. Qed.
Lemma cmdSISMEMBER_readonly args : readonly (cmdSISMEMBER args).
Proof. unfold cmdSISMEMBER. solve_readonly. Qed.
Lemma cmdCMSQUERY_readonly args : readonly (cmdCMSQUERY args).
Proof. unfold cmdCMSQUERY. solve_readonly. Qed.
Lemma cmdINFO_readonly args : readonly (cmdINFO w args).
Proof. unfold cmdINFO. solve_readonly. Qed.

Lemma find_handler_elem {A} name (t : list (bytes * A)) h :
  find_handler name t = Some h → (name, h) ∈ t.
Proof.
  induction t as [|[n h'] t IH]; cbn; [done|]. case_decide as E.
  - intros [= ->]. subst. left.
  - intros. right. auto.
Qed.

(** A row of the table: its handler has the effect of the named commands, or
    none. *)
Definition row_ok (row : bytes * (list bytes → ST store bytes)) : Prop :=
  (∀ args, readonly (row.2 args)) ∨ ∃ names, row.1 ∈ names ∧ has_effect names row.2.

Lemma row_changes names name h :
  bool_decide (name ∈ names) = true → has_effect names h → row_ok (name, h).
Proof. intros H%bool_decide_eq_true Hh. right. by exists names. Qed.

Lemma row_reads name h : (∀ args, readonly (h args)) → row_ok (name, h).
Proof. by left. Qed.

Lemma table_ok : Forall row_ok (table math_Log cfg w).
Proof.
  unfold table. repeat apply Forall_cons_2; [..|by apply Forall_nil_2];
  first [ apply row_reads;
          first [ exact cmdPING_readonly | exact cmdZSCORE_readonly | exact cmdSMEMBERS_readonly
                | exact cmdSISMEMBER_readonly | exact cmdCMSQUERY_readonly
                | exact cmdINFO_readonly | intros _; exact cmdHELP_readonly ]
        | eapply row_changes; [|first [ exact cmdSET_effect | exact cmdGET_effect
                | exact cmdTTL_effect | exact cmdZADD_effect | exact cmdZRANK_effect
                | exact cmdSADD_effect | exact cmdSREM_effect | exact cmdCMSINITBYDIM_effect
                | exact cmdCMSINITBYPROB_effect | exact cmdCMSINCRBY_effect ]];
          vm_compute; reflexivity ].
Qed.

Lemma execute_effect cmd s r s' :
  ExecuteAndResponse math_Log cfg w cmd s = Ret (r, s') →
  ∃ names, (Cmd cmd ∈ names ∨ s' = s) ∧ effect (Args cmd) s names s'.
Proof.
  unfold ExecuteAndResponse. destruct (find_handler _ _) as [h|] eqn:Eh; intros E.
  - apply find_handler_elem in Eh. pose proof table_ok as Ht. rewrite Forall_forall in Ht.
    destruct (Ht _ Eh) as [Hro|(names & Hin & Hh)]; cbn in *.
    + apply Hro in E as ->. exists []. eauto using effect.
    + exists names. eauto.
  - injection E as _ <-. exists []. eauto using effect.
Qed.

(** Isolation: a command changes only the store of its own type, and in
    the sorted-set, set and sketch stores only the entry of its first
    argument; every other key of every type is left as it was. *)
Lemma execute_frame cmd s r s' :
  ExecuteAndResponse math_Log cfg w cmd s = Ret (r, s') →
  (Cmd cmd ∉ dict_commands → dictStore s' = dictStore s ∧ ePool s' = ePool s) ∧
  (Cmd cmd ∉ zset_commands → zsetStore s' = zsetStore s) ∧
  (Cmd cmd ∉ set_commands → setStore s' = setStore s) ∧
  (Cmd cmd ∉ cms_commands → cmsStore s' = cmsStore s) ∧
  ∀ k, head (Args cmd) ≠ Some k →
    zsetStore s' !! k = zsetStore s !! k ∧ setStore s' !! k = setStore s !! k ∧
    cmsStore s' !! k = cmsStore s !! k.
Proof.
  intros E. apply execute_effect in E as (names & Hin & He).
  destruct Hin as [Hin| ->]; [|by split_and!].
  destruct He; split_and!; cbn; try done; intros; split_and!; try done;
    apply lookup_insert_ne; congruence.
Qed.

End Effects.

(** ** SET, GET and TTL as a client sees them *)

Section Replies.
Context (math_Log : F64.float64 → F64.float64) `{!Sorter Less} (cfg : config).

Definition run (w : world) (name : string) (args : list bytes) : ST store bytes :=
  ExecuteAndResponse math_Log cfg w (mkCommand (bs name) args).

Lemma run_SET w args : run w "SET" args = cmdSET cfg w args.
Proof. reflexivity. Qed.
Lemma run_GET w args : run w "GET" args = cmdGET w args.
Proof. reflexivity. Qed.
Lemma run_TTL w args : run w "TTL" args = cmdTTL w args.
Proof. reflexivity. Qed.

(** The dictionary after a SET below capacity. *)
Definition dict_after (w : world) (s : store) (key value : bytes) (ttlMs : Z) : Dict.Dict :=
  Dict.mkDict (<[key := Dict.mkObj (VStr value) (Dict.now (clock w 0))]> (Dict.dictStore (dictStore s)))
    (if 0 <? ttlMs then <[key := u64 (u64 (clock w 1) + u64 ttlMs)]> (Dict.expiredDictStore (dictStore s))
     else delete key (Dict.expiredDictStore (dictStore s))).

Lemma SET_EX_step w s key value ttl n :
  Strconv.ParseInt ttl = Some n →
  Z.of_nat (size (Dict.dictStore (dictStore s))) < MaxKeyNumber cfg →
  run w "SET" [key; value; bs "EX"; ttl] s =
  Ret (Constant.RespOk, with_dict s (dict_after w s key value (s64 (n * 1000))) (ePool s)).
Proof.
  intros Hn Hsz. rewrite run_SET. unfold cmdSET.
  rewrite bool_decide_eq_false_2 by (intros H; by apply H).
  rewrite Hn. unfold store_new, mbind, ST_bind, st_get. by rewrite Dict.SetNew_below.
Qed.

(** A lookup of the key right after it was set with a TTL. *)
Lemma lookup_after w s key value ttlMs t0 t1 :
  let d := dict_after w s key value ttlMs in
  0 < ttlMs → 0 <= clock w 1 → clock w 1 + ttlMs < two63 → 0 <= t1 < two64 →
  ∃ d', Dict.Get t0 t1 d key =
        (if t1 <? clock w 1 + ttlMs then Some (Dict.mkObj (VStr value) (Dict.now t0)) else None, d') ∧
        (t1 < clock w 1 + ttlMs →
         Dict.expiredDictStore d' !! key = Some (clock w 1 + ttlMs)).
Proof.
  intros d Ht Hc Hb H1. unfold d, dict_after. rewrite (proj2 (Z.ltb_lt 0 ttlMs)) by done.
  assert (E : u64 (u64 (clock w 1) + u64 ttlMs) = clock w 1 + ttlMs).
  { rewrite (u64_id (clock w 1)), (u64_id ttlMs), u64_id; mlia. }
  unfold Dict.Get, Dict.HasExpired. cbn. rewrite !lookup_insert_eq, E, (u64_id t1) by mlia.
  rewrite Z.leb_antisym. destruct (Z.ltb_spec t1 (clock w 1 + ttlMs)); cbn.
  - eexists. split; [done|]. intros _. cbn. by rewrite lookup_insert_eq.
  - eexists. split; [done|]. lia.
Qed.

Lemma mul1000 n : 0 < n → n * 1000 < two63 → s64 (n * 1000) = n * 1000.
Proof. intros. apply s64_id. mlia. Qed.

(** C14: below the key limit, SET key value EX ttl with a positive ttl whose expiry
    does not overflow, followed by GET key: the client reads OK, then the value
    exactly as long as both clock readings of the GET are before the expiry, and
    the nil reply when one is not. *)
Theorem set_get_reply w1 w2 s key value ttl n :
  Strconv.ParseInt ttl = Some n → 0 < n → 0 <= clock w1 1 → clock w1 1 + n * 1000 < two63 →
  Z.of_nat (size (Dict.dictStore (dictStore s))) < MaxKeyNumber cfg →
  0 <= clock w2 1 < two64 → 0 <= clock w2 2 < two64 →
  let exp := clock w1 1 + n * 1000 in
  ∃ s1 s2, run w1 "SET" [key; value; bs "EX"; ttl] s = Ret (Constant.RespOk, s1) ∧
    run w2 "GET" [key] s1 =
    Ret (if (clock w2 1 <? exp) && (clock w2 2 <? exp) then Encode (VStr value) false
         else Constant.RespNil, s2).
Proof.
  intros Hp Hn Hc Hb Hsz H1 H2 exp. rewrite (SET_EX_step _ _ _ _ _ n) by done.
  rewrite mul1000 by mlia.
  destruct (lookup_after w1 s key value (n * 1000) (clock w2 0) (clock w2 1))
    as (d' & E & He); [lia|done..|]. eexists. eexists. split; [done|].
  rewrite run_GET. unfold cmdGET, mbind, ST_bind, st_get. cbn [dictStore with_dict]. rewrite E. fold exp in E, He |- *.
  destruct (Z.ltb_spec (clock w2 1) exp) as [Hlt|Hge]; cbn; [|done].
  unfold Dict.HasExpired. rewrite (He Hlt), (u64_id (clock w2 2)), Z.leb_antisym by done.
  by destruct (clock w2 2 <? exp).
Qed.

(** C29: below the key limit, SET key value EX ttl with a positive ttl whose expiry
    does not overflow, followed by TTL key under a clock that does not go back: the
    reply is the number of whole seconds left, counted from the expiry the SET
    recorded, and -2 from the expiry on. *)
Theorem set_ttl_reply w1 w2 s key value ttl n :
  Strconv.ParseInt ttl = Some n → 0 < n → 0 <= clock w1 1 → clock w1 1 + n * 1000 < two63 →
  Z.of_nat (size (Dict.dictStore (dictStore s))) < MaxKeyNumber cfg →
  0 <= clock w2 1 → clock w2 1 <= clock w2 2 <= clock w2 3 → clock w2 3 < two64 →
  let exp := clock w1 1 + n * 1000 in
  ∃ s1 s2, run w1 "SET" [key; value; bs "EX"; ttl] s = Ret (Constant.RespOk, s1) ∧
    run w2 "TTL" [key] s1 =
    Ret (if clock w2 3 <? exp then Encode (VInt ((exp - clock w2 2) / 1000)) false
         else Constant.TtlKeyNotExist, s2).
Proof.
  intros Hp Hn Hc Hb Hsz H1 H2 H3 exp. rewrite (SET_EX_step _ _ _ _ _ n) by done.
  rewrite mul1000 by mlia.
  destruct (lookup_after w1 s key value (n * 1000) (clock w2 0) (clock w2 1))
    as (d' & E & He); [lia|done..|lia|]. eexists. eexists. split; [done|].
  rewrite run_TTL. unfold cmdTTL, mbind, ST_bind, st_get. cbn [dictStore with_dict]. rewrite E.
  fold exp in E, He |- *. destruct (Z.ltb_spec (clock w2 1) exp) as [Hlt|Hge]; cbn.
  - unfold Dict.GetExpiry. rewrite He by done.
    rewrite (u64_id (clock w2 3)), (u64_id (clock w2 2)), Z.leb_antisym by mlia.
    destruct (Z.ltb_spec (clock w2 3) exp); cbn; [|done].
    rewrite u64_id, s64_id; [done| |]; unfold exp in *; mlia.
  - by rewrite (proj2 (Z.ltb_ge (clock w2 3) exp)) by lia.
Qed.

(** TTLs from 2^63 milliseconds on wrap: a SET whose [EX] seconds times
    1000 lies between 2^63 and 2^64 is acknowledged with OK but stores the key
    without any expiry. *)
Lemma set_ttl_overflow w s key value ttl n :
  Strconv.ParseInt ttl = Some n → two63 <= n * 1000 < two64 →
  Z.of_nat (size (Dict.dictStore (dictStore s))) < MaxKeyNumber cfg →
  ∃ s1, run w "SET" [key; value; bs "EX"; ttl] s = Ret (Constant.RespOk, s1) ∧
        Dict.GetExpiry (dictStore s1) key = None ∧
        is_Some (Dict.dictStore (dictStore s1) !! key).
Proof.
  intros Hp Hn Hsz. rewrite (SET_EX_step _ _ _ _ _ n) by done. eexists. split; [done|]. cbn.
  unfold Dict.GetExpiry, dict_after. cbn.
  rewrite (proj2 (Z.ltb_ge 0 (s64 (n * 1000)))) by mlia.
  rewrite lookup_delete_eq, lookup_insert_eq. eauto.
Qed.

(** ** The set commands *)

Definition members (s : store) (key : bytes) : gset bytes :=
  match setStore s !! key with Some x => SimpleSet.dict x | None => ∅ end.

Lemma members_or_new s key : SimpleSet.dict (set_or_new s key) = members s key.
Proof. unfold set_or_new, members. by destruct (setStore s !! key). Qed.

Lemma members_with_set s key x : members (with_set s key x) key = SimpleSet.dict x.
Proof. unfold members, with_set. cbn. by rewrite lookup_insert_eq. Qed.

(** C28: the set commands implement set algebra: SADD replies with the number
    of distinct new members, after it SISMEMBER answers membership in the
    union and SMEMBERS lists every element of it once, and SREM of the same
    members leaves the others. *)
Theorem set_commands_reply w s key m ms x :
  ∃ s1 s2,
    run w "SADD" (key :: m :: ms) s =
      Ret (Encode (VInt (Z.of_nat (size (list_to_set (m :: ms) ∖ members s key)))) false, s1) ∧
    members s1 key = list_to_set (m :: ms) ∪ members s key ∧
    run w "SISMEMBER" [key; x] s1 =
      Ret (Encode (VInt (if bool_decide (x ∈ members s1 key) then 1 else 0)) false, s1) ∧
    (∀ w', member_order w' ≡ₚ elements (members s1 key) →
       ∃ l, run w' "SMEMBERS" [key] s1 = Ret (Encode (VStrs l) false, s1) ∧
            l ≡ₚ elements (members s1 key)) ∧
    run w "SREM" (key :: m :: ms) s1 =
      Ret (Encode (VInt (Z.of_nat (size (list_to_set (m :: ms) : gset bytes)))) false, s2) ∧
    members s2 key = members s key ∖ list_to_set (m :: ms).
Proof.
  set (X := list_to_set (m :: ms) : gset bytes).
  set (x1 := SimpleSet.mkSet (SimpleSet.key (set_or_new s key)) (X ∪ members s key)).
  set (s1 := with_set s key x1).
  assert (H1 : setStore s1 !! key = Some x1) by (unfold s1; cbn; apply lookup_insert_eq).
  set (x2 := SimpleSet.mkSet (SimpleSet.key x1) (SimpleSet.dict x1 ∖ X)).
  assert (M1 : members s1 key = X ∪ members s key) by apply members_with_set.
  exists s1, (with_set s1 key x2). rewrite M1, members_with_set. split_and!.
  - change (run w "SADD") with cmdSADD. unfold cmdSADD, mbind, ST_bind, st_get.
    rewrite SimpleSet.Add_union, members_or_new. done.
  - done.
  - change (run w "SISMEMBER") with cmdSISMEMBER. unfold cmdSISMEMBER, mbind, ST_bind, st_get.
    rewrite H1. done.
  - intros w' Hw. exists (member_order w'). split; [|done].
    change (run w' "SMEMBERS") with (cmdSMEMBERS w').
    unfold cmdSMEMBERS, mbind, ST_bind, st_get. rewrite H1. unfold SimpleSet.Members.
    by rewrite SimpleSet.members_snoc.
  - change (run w "SREM") with cmdSREM. unfold cmdSREM, mbind, ST_bind, st_get, set_or_new.
    rewrite H1, SimpleSet.Rem_difference. cbn [SimpleSet.dict x1].
    replace (X ∩ (X ∪ members s key)) with X by set_solver. done.
  - cbn. set_solver.
Qed.

(** ** The Count-Min commands *)

Definition overflow_reply : bytes := bs "CMS: INCRBY overflow".

Fixpoint pair_args (pairs : Cms.ops) : list bytes :=
  match pairs with [] => [] | (x, v) :: ps => x :: Strconv.utoa v :: pair_args ps end.

(** The replies to a run of increments on a sketch that stands for [os]. *)
Fixpoint incr_replies (wd d : Z) (pairs os : Cms.ops) : list bytes :=
  match pairs with
  | [] => []
  | (x, v) :: ps =>
      let n := Cms.count_spec wd d ((x, v) :: os) x in
      (if n =? MaxUint64 then overflow_reply else Strconv.utoa n)
        :: incr_replies wd d ps ((x, v) :: os)
  end.

Lemma incrby_loop_replies arg1 pairs c os res :
  Cms.represents c os → Forall (λ p, is_u64 p.2) pairs →
  ∃ c', incrby_loop arg1 (pair_args pairs) c res =
          Ret (Encode (VStrs (res ++ incr_replies (Cms.width c) (Cms.depth c) pairs os)) false, c') ∧
        Cms.width c' = Cms.width c ∧ Cms.depth c' = Cms.depth c ∧
        Cms.represents c' (rev pairs ++ os).
Proof.
  intros Hc Hp. revert c os res Hc.
  induction Hp as [|[x v] pairs Hv Hp IH]; intros c os res Hc; cbn [pair_args incrby_loop].
  { exists c. cbn. by rewrite app_nil_r. }
  rewrite Strconv.ParseUint_utoa by done.
  destruct (Cms.IncrBy_spec c os x v Hc Hv) as (c1 & -> & Hw & Hd & Hc1).
  cbn [mbind outcome_bind incr_replies]. set (n := Cms.count_spec _ _ _ x).
  destruct (IH c1 _ (res ++ [if n =? MaxUint64 then overflow_reply else Strconv.utoa n]) Hc1)
    as (c' & E & Hw' & Hd' & Hc').
  exists c'. rewrite Hw, Hd in *. rewrite <- app_assoc in E. cbn [rev]. rewrite <- app_assoc.
  split_and!; [|done..]. destruct (n =? MaxUint64); exact E.
Qed.

Lemma query_loop_replies args c os res :
  Cms.represents c os →
  query_loop args c res =
  Ret (res ++ ((λ x, Strconv.utoa (Cms.count_spec (Cms.width c) (Cms.depth c) os x)) <$> args)).
Proof.
  intros Hc. revert res. induction args as [|x args IH]; intros res; cbn [query_loop].
  { cbn. by rewrite app_nil_r. }
  rewrite (Cms.Count_spec _ _ _ Hc). cbn [mbind outcome_bind]. rewrite IH, <- app_assoc. done.
Qed.

(** C27: CMS.INCRBY on a list of (item, increment) pairs replies, for each pair
    in turn, with the specified estimate after that increment (or the overflow
    text when it is saturated), and a CMS.QUERY that follows replies with the
    estimates over all increments received. *)
Theorem cms_commands_reply w s key c os p pairs q queries :
  cmsStore s !! key = Some c → Cms.represents c os → Forall (λ p, is_u64 p.2) (p :: pairs) →
  ∃ s1,
    run w "CMS.INCRBY" (key :: pair_args (p :: pairs)) s =
      Ret (Encode (VStrs (incr_replies (Cms.width c) (Cms.depth c) (p :: pairs) os)) false, s1) ∧
    run w "CMS.QUERY" (key :: q :: queries) s1 =
      Ret (Encode (VStrs ((λ x, Strconv.utoa
             (Cms.count_spec (Cms.width c) (Cms.depth c) (rev (p :: pairs) ++ os) x))
             <$> (q :: queries))) false, s1).
Proof.
  intros Hk Hc Hp.
  destruct (incrby_loop_replies p.1 (p :: pairs) c os [] Hc Hp) as (c' & E & Hw & Hd & Hc').
  exists (with_cms s key c'). split.
  - change (run w "CMS.INCRBY") with cmdCMSINCRBY. destruct p as [x v].
    cbn [pair_args] in *. unfold cmdCMSINCRBY.
    assert (Hlen : Z.of_nat (length (key :: x :: Strconv.utoa v :: pair_args pairs)) mod 2 = 1).
    { clear. assert (H : Z.of_nat (length (pair_args pairs)) mod 2 = 0).
      { induction pairs as [|[y u] ps IH]; cbn [pair_args length]; [done|].
        rewrite !Nat2Z.inj_succ. rewrite <- IH. Z.to_euclidean_division_equations; lia. }
      cbn [length]. rewrite !Nat2Z.inj_succ. Z.to_euclidean_division_equations; lia. }
    rewrite Hlen. cbn [Z.eqb Pos.eqb]. unfold mbind, ST_bind, st_get, st_lift.
    rewrite Hk. cbn [fst] in E. rewrite E. done.
  - change (run w "CMS.QUERY") with cmdCMSQUERY. unfold cmdCMSQUERY, mbind, ST_bind, st_get, st_lift.
    cbn [with_cms cmsStore]. rewrite lookup_insert_eq.
    rewrite (query_loop_replies _ _ _ _ Hc'), Hw, Hd. done.
Qed.

(** ** Replies that go wrong *)

(** An error text is not escaped: a client that sends a carriage return in
    the option of SET gets an error frame that ends at that point, and the
    bytes after it reach the client as if they were the next reply. *)
Lemma error_reply_splits w s key value a b ttl :
  CR ∉ a → a ++ CRLF ++ b ≠ bs "EX" →
  ∃ r s1 msg,
    run w "SET" [key; value; a ++ CRLF ++ b; ttl] s = Ret (r, s1) ∧
    DecodeOne (Slice.of_bytes r) =
      Ret (DVal (VStr msg) (Z.of_nat (length r) - Z.of_nat (length (b ++ CRLF)))).
Proof.
  intros Ha Hex. set (pre := bs "(error) ERR syntax error. Must be EX instead of ").
  assert (Hpre : CR ∉ pre) by (apply (bool_decide_unpack _); vm_compute; exact I).
  exists (error_reply (pre ++ a ++ CRLF ++ b)), s, (pre ++ a). split.
  - rewrite run_SET. unfold cmdSET. by rewrite bool_decide_eq_true_2.
  - set (v := VErr (pre ++ a)).
    assert (E : error_reply (pre ++ a ++ CRLF ++ b) = Encode v false ++ (b ++ CRLF)).
    { unfold error_reply, v. cbn [Encode]. rewrite <- !app_comm_cons. f_equal.
      by rewrite <- !app_assoc. }
    unfold Slice.of_bytes. rewrite E, DecodeOne_encode.
    + cbn [norm v]. do 2 f_equal. rewrite (length_app (Encode v false)). lia.
    + unfold v. cbn [encodable]. by rewrite not_elem_of_app.
Qed.

(** One client can stop the process: CMS.INITBYDIM accepts a zero width,
    and the first CMS.INCRBY on such a sketch divides by zero. *)
Lemma cms_zero_width_crash w s key item v :
  cmsStore s !! key = None → is_u64 v →
  ∃ s1, run w "CMS.INITBYDIM" [key; bs "0"; bs "1"] s = Ret (Constant.RespOk, s1) ∧
        run w "CMS.INCRBY" [key; item; Strconv.utoa v] s1 = Panic DivideByZero.
Proof.
  intros Hk Hv. destruct (Cms.zero_width_panics 1 item v ltac:(lia)) as (c & Hc & Hi & _).
  exists (with_cms s key c). split.
  - change (run w "CMS.INITBYDIM") with cmdCMSINITBYDIM.
    unfold cmdCMSINITBYDIM, create_cms, mbind, ST_bind, st_get, st_lift.
    change (Strconv.ParseInt (bs "0")) with (Some 0).
    change (Strconv.ParseInt (bs "1")) with (Some 1). cbv iota beta. rewrite Hk.
    change (Cms.NewCMS (u64 0) (u64 1)) with (Cms.NewCMS 0 1). by rewrite Hc.
  - change (run w "CMS.INCRBY") with cmdCMSINCRBY.
    assert (H1 : cmsStore (with_cms s key c) !! key = Some c) by apply lookup_insert_eq.
    unfold cmdCMSINCRBY, mbind, ST_bind, st_get, st_lift.
    change (Z.of_nat (length [key; item; Strconv.utoa v]) mod 2 =? 0) with false. cbv iota beta.
    rewrite H1. cbn [incrby_loop]. rewrite Strconv.ParseUint_utoa, Hi by done. done.
Qed.

(** Run commands one after the other and collect the replies. *)
Fixpoint session (w : world) (cmds : list (string * list string)) (s : store) :
    outcome (list bytes * store) :=
  match cmds with
  | [] => Ret ([], s)
  | (name, args) :: cmds =>
      '(r, s) ← run w name (bs <$> args) s;
      '(rs, s) ← session w cmds s;
      Ret (r :: rs, s)
  end.

(** Sorted sets with equal scores lose items: after four members of score 1
    have split the B+ tree, re-scoring one of them from the left leaf does not
    find its old entry.  ZADD answers the update with an error, ZSCORE shows
    the new score, and ZRANK still gives the old position, 0, although all
    three other members now have a smaller score. *)
Lemma zset_tie_history w :
  ∃ s, session w [("ZADD", ["z"; "1"; "a"; "1"; "b"; "1"; "c"; "1"; "d"]);
                  ("ZADD", ["z"; "2"; "a"]);
                  ("ZSCORE", ["z"; "a"]); ("ZRANK", ["z"; "a"]);
                  ("ZSCORE", ["z"; "b"]); ("ZSCORE", ["z"; "c"]); ("ZSCORE", ["z"; "d"])]%string
         init =
       Ret ([Encode (VInt 4) false; error_reply (bs "error when adding element");
             Encode (VStr (bs "2.000000")) false; Encode (VInt 0) false;
             Encode (VStr (bs "1.000000")) false; Encode (VStr (bs "1.000000")) false;
             Encode (VStr (bs "1.000000")) false], s).
Proof. eexists. vm_compute. reflexivity. Qed.

End Replies.

(** ** Witnesses: the initial store, a world whose clock stands still *)

Definition demo_world (ms : Z) : world := mkWorld (λ _, ms) [] (λ _, []) [] None.
Definition demo_log (x : F64.float64) : F64.float64 := x.

Lemma init_wf : wf_store Config.default init.
Proof.
  split; cbn.
  - split; cbn; [set_solver|apply map_Forall_empty].
  - split; cbn; [constructor|constructor|vm_compute; congruence].
  - apply map_Forall_empty.
Qed.

Lemma execute_frame_witness :
  ∃ r s', ExecuteAndResponse demo_log Config.default (demo_world 0)
            (mkCommand (bs "SADD") [bs "k"; bs "m"]) init = Ret (r, s')
          ∧ dictStore s' = dictStore init.
Proof.
  eexists _, _. split; [reflexivity|].
  eapply (execute_frame demo_log Config.default (demo_world 0)
            (mkCommand (bs "SADD") [bs "k"; bs "m"]) init); [reflexivity|].
  apply (bool_decide_unpack _). vm_compute. exact I.
Defined.

Lemma set_get_reply_witness :
  ∃ s1 s2,
    run demo_log Config.default (demo_world 1000) "SET" [bs "k"; bs "v"; bs "EX"; bs "2"] init
      = Ret (Constant.RespOk, s1) ∧
    run demo_log Config.default (demo_world 2999) "GET" [bs "k"] s1
      = Ret (Encode (VStr (bs "v")) false, s2).
Proof.
  apply (set_get_reply demo_log Config.default (demo_world 1000) (demo_world 2999) init
           (bs "k") (bs "v") (bs "2") 2);
    first [vm_compute; reflexivity | vm_compute; congruence | split; vm_compute; congruence].
Defined.

Lemma set_ttl_reply_witness :
  ∃ s1 s2,
    run demo_log Config.default (demo_world 1000) "SET" [bs "k"; bs "v"; bs "EX"; bs "5"] init
      = Ret (Constant.RespOk, s1) ∧
    run demo_log Config.default (demo_world 2500) "TTL" [bs "k"] s1
      = Ret (Encode (VInt 3) false, s2).
Proof.
  apply (set_ttl_reply demo_log Config.default (demo_world 1000) (demo_world 2500) init
           (bs "k") (bs "v") (bs "5") 5);
    first [vm_compute; reflexivity | vm_compute; congruence | split; vm_compute; congruence].
Defined.

Lemma set_ttl_overflow_witness :
  ∃ s1, run demo_log Config.default (demo_world 1000) "SET"
          [bs "k"; bs "v"; bs "EX"; bs "9223372036854776"] init = Ret (Constant.RespOk, s1)
        ∧ Dict.GetExpiry (dictStore s1) (bs "k") = None.
Proof.
  destruct (set_ttl_overflow demo_log Config.default (demo_world 1000) init (bs "k") (bs "v")
              (bs "9223372036854776") 9223372036854776) as (s1 & E & H & _);
    [vm_compute; reflexivity|split; vm_compute; congruence|vm_compute; reflexivity|].
  exists s1. split; [exact E|exact H].
Defined.

Lemma cms_commands_reply_witness :
  ∃ s1, run demo_log Config.default (demo_world 0) "CMS.INCRBY" [bs "c"; bs "x"; bs "5"]
          (with_cms init (bs "c") Cms.demo) = Ret (Encode (VStrs [bs "5"]) false, s1).
Proof.
  destruct (cms_commands_reply demo_log Config.default (demo_world 0)
              (with_cms init (bs "c") Cms.demo) (bs "c") Cms.demo [] (bs "x", 5) [] (bs "x") [])
    as (s1 & E & _); [vm_compute; reflexivity|exact Cms.demo_empty| |].
  - constructor; [split; vm_compute; congruence|constructor].
  - exists s1. etrans; [exact E|]. vm_compute. reflexivity.
Defined.

Lemma error_reply_splits_witness :
  ∃ r s1, run demo_log Config.default (demo_world 0) "SET"
            [bs "k"; bs "v"; bs "X" ++ CRLF ++ bs "+OK"; bs "1"] init = Ret (r, s1).
Proof.
  destruct (error_reply_splits demo_log Config.default (demo_world 0) init (bs "k") (bs "v")
              (bs "X") (bs "+OK") (bs "1")) as (r & s1 & msg & E & _).
  - apply (bool_decide_unpack _). vm_compute. exact I.
  - apply (bool_decide_unpack _). vm_compute. exact I.
  - exists r, s1. exact E.
Defined.

Lemma cms_zero_width_crash_witness :
  ∃ s1, run demo_log Config.default (demo_world 0) "CMS.INCRBY" [bs "c"; bs "x"; Strconv.utoa 1] s1
        = Panic DivideByZero.
Proof.
  destruct (cms_zero_width_crash demo_log Config.default (demo_world 0) init (bs "c") (bs "x") 1)
    as (s1 & _ & E); [vm_compute; reflexivity|split; vm_compute; congruence|].
  exists s1. exact E.
Defined.

End CommandFacts.
