(* ===== verification/ZSetFacts.v ===== *)
(** * Sorted sets over both indexes: whole histories, and the Z commands

    The B+ tree obeys the laws of an ordered index for distinct scores
    ([BTreeLaws.v]) and the skip list for all scores ([SkipLaws.v]), so a sorted
    set over either is a map from members to scores: every history of operations
    replies what the map replies.  The commands ZADD, ZSCORE and ZRANK, which use
    the tree, answer accordingly. *)

From Stdlib Require Import ZArith Lia Ascii.
From Stdlib Require Import SpecFloat.
From stdpp Require Import base gmap list strings numbers sorting fin_maps sets.
From S2P Require Import Prelude GoStrings Resp GoFloat Config EvictionPool Dict SimpleSet.
From S2P Require Import Cms Item BTree BTreeSearch SkipList SkipInsert SortedSet BTreeLaws SkipLaws.
From S2P Require Import Commands CommandFacts.

Import F64 Item.

(** ** An index behind the interface *)

(** The laws of the interface value, for a known implementation: the B+ tree
    when [tree] holds, the skip list otherwise. *)
Definition any_laws (tree : bool) : OrderedIndexLaws AnyIndex.
Proof.
  refine {| view i l := match i with
                        | ABTree t => tree = true ∧ view t l
                        | ASkipList t => tree = false ∧ view t l
                        end;
            admits i s l := match i with ABTree t => admits t s l | ASkipList t => admits t s l end;
            supply i n l := match i with ABTree t => supply t n l | ASkipList t => supply t n l end |}.
  - intros [t|t] n l; apply law_supply.
  - intros [t|t] l s m n [Hk Hv] Hwf Hs Ha Hn Hm Hnew;
      destruct (law_add t l s m n Hv Hwf Hs Ha Hn Hm Hnew) as (t' & E & Hv' & Hn');
      [exists (ABTree t')|exists (ASkipList t')]; (split_and!; [|done..]); cbn in *; by rewrite E.
  - intros [t|t] l s m [Hk Hv] Hwf Hin;
      destruct (law_remove t l s m Hv Hwf Hin) as (t' & E & Hv' & Ha & Hn);
      [exists (ABTree t')|exists (ASkipList t')]; (split_and!; [|done..]); cbn in *; by rewrite E.
  - intros [t|t] l m [_ Hv] Hwf; pose proof (law_rank t l m Hv Hwf) as E; cbn in *; by rewrite E.
Defined.

Module ZSet.
Import SortedSet.

(** ** Histories *)

Inductive zop :=
  | ZAdd (score : float64) (member : bytes)
  | ZRem (member : bytes)
  | ZRank (member : bytes)
  | ZScore (member : bytes).

Inductive zreply := RInt (z : Z) | RScore (o : option float64).

Section Run.
Context {I : Type} `{OrderedIndex I}.

Definition zstep (op : zop) : ST (SortedSet I) zreply :=
  match op with
  | ZAdd s m => r ← Add s m; mret (RInt r)
  | ZRem m => r ← Remove m; mret (RInt r)
  | ZRank m => r ← GetRank m; mret (RInt r)
  | ZScore m => ss ← st_get; mret (RScore (GetScore m ss))
  end.

Fixpoint zrun (ops : list zop) : ST (SortedSet I) (list zreply) :=
  match ops with
  | [] => mret []
  | op :: ops => r ← zstep op; rs ← zrun ops; mret (r :: rs)
  end.

End Run.

(** The specification: a map from members to scores. *)
Definition map_add (s : float64) (m : bytes) (M : gmap bytes float64) : Z * gmap bytes float64 :=
  if decide (m = []) then (0, M)
  else match M !! m with
       | Some old => (0, if eqb old s then M else <[m := s]> M)
       | None => (1, <[m := s]> M)
       end.

Definition map_rank (m : bytes) (M : gmap bytes float64) : Z :=
  match M !! m with Some s => Z.of_nat (size (smaller s m M)) | None => -1 end.

Definition map_step (op : zop) (M : gmap bytes float64) : zreply * gmap bytes float64 :=
  match op with
  | ZAdd s m => let '(r, M) := map_add s m M in (RInt r, M)
  | ZRem m => (RInt (if decide (is_Some (M !! m)) then 1 else 0), delete m M)
  | ZRank m => (RInt (map_rank m M), M)
  | ZScore m => (RScore (M !! m), M)
  end.

Fixpoint map_run (ops : list zop) (M : gmap bytes float64) : list zreply * gmap bytes float64 :=
  match ops with
  | [] => ([], M)
  | op :: ops =>
      let '(r, M) := map_step op M in
      let '(rs, M) := map_run ops M in (r :: rs, M)
  end.

(** A score that can be given to [m]: a number and, for the B+ tree, one no
    other member has. *)
Definition fresh_score (tree : bool) (s : float64) (m : bytes) (M : gmap bytes float64) : bool :=
  negb (is_nan s) &&
  (negb tree || forallb (λ p, bool_decide (p.1 = m) || negb (eqb s p.2)) (map_to_list M)).

Fixpoint fresh_scores (tree : bool) (ops : list zop) (M : gmap bytes float64) : bool :=
  match ops with
  | [] => true
  | op :: ops =>
      match op with ZAdd s m => fresh_score tree s m M | _ => true end &&
      fresh_scores tree ops (map_step op M).2
  end.

Abbreviation distinct_scores := (fresh_scores true).

(** ** The set is the map *)

Section Models.
Context (tree : bool).
#[local] Instance laws : OrderedIndexLaws AnyIndex := any_laws tree.

(** The set is well formed, holds the map [M] and can take [n] insertions. *)
Definition models (n : nat) (ss : SortedSet AnyIndex) (M : gmap bytes float64) : Prop :=
  MemberScore ss = M ∧ ∃ l, inv ss l ∧ supply (Index ss) n l.

Lemma models_less n ss M : models (S n) ss M → models n ss M.
Proof. intros (E & l & Hi & Hn). split; [done|]. exists l. split; [done|]. by apply law_supply. Qed.

Lemma fresh_admits (ss : SortedSet AnyIndex) l s m :
  inv ss l → fresh_score tree s m (MemberScore ss) = true →
  is_nan s = false ∧ admits (Index ss) s (drop_member m l).
Proof.
  intros Hi Hf. unfold fresh_score in Hf. apply andb_true_iff in Hf as [Hn Hf].
  apply negb_true_iff in Hn. split; [done|]. pose proof (inv_view _ _ Hi) as Hv. cbn in Hv |- *.
  destruct (Index ss) as [t|t]; destruct Hv as [Et _]; [|done]. rewrite Et in Hf. cbn in Hf |- *.
  unfold BTreeLaws.new_score.
  apply Forall_forall. intros x Hx. apply ItemFacts.drop_member_elem in Hx as [Hx Hne].
  destruct x as [sx mx]. apply (inv_scores _ _ Hi), elem_of_map_to_list, list_elem_of_In in Hx.
  rewrite forallb_forall in Hf. apply Hf in Hx. cbn in *.
  rewrite bool_decide_eq_false_2 in Hx by done. by apply negb_true_iff.
Qed.

(** The items determine the map. *)
Lemma scores_determined (ss' : SortedSet AnyIndex) l' M :
  inv ss' l' → (∀ m s, mkItem s m ∈ l' ↔ M !! m = Some s) → MemberScore ss' = M.
Proof.
  intros Hi H. apply map_eq. intros m. apply option_eq. intros s.
  by rewrite (inv_scores _ _ Hi), H.
Qed.

Lemma add_spec_map (ss : SortedSet AnyIndex) l s m :
  inv ss l →
  (add_spec s m (MemberScore ss) l).1 = (map_add s m (MemberScore ss)).1 ∧
  ∀ m' s', mkItem s' m' ∈ (add_spec s m (MemberScore ss) l).2 ↔
           (map_add s m (MemberScore ss)).2 !! m' = Some s'.
Proof.
  intros Hi. pose proof (inv_scores _ _ Hi) as Hsc. unfold add_spec, map_add.
  case_decide; [split; [done|]; intros; by rewrite Hsc|].
  destruct (MemberScore ss !! m) as [old|] eqn:E; cbn.
  - destruct (eqb old s); cbn; [split; [done|]; intros; by rewrite Hsc|]. split; [done|].
    intros m' s'. rewrite ItemFacts.elem_of_insert_item, ItemFacts.drop_member_elem, <- Hsc, lookup_insert_Some.
    cbn. split; [intros [[= -> ->]|]; naive_solver|]. intros [[-> ->]|[? ?]]; naive_solver.
  - split; [done|]. intros m' s'. rewrite ItemFacts.elem_of_insert_item, <- Hsc, lookup_insert_Some.
    split; [intros [[= -> ->]|]; [by left|right]|intros [[-> ->]|[? ?]]; naive_solver].
    split; [congruence|done].
Qed.

Lemma models_add n ss M s m :
  models (S n) ss M → fresh_score tree s m M = true →
  ∃ ss', Add s m ss = Ret ((map_add s m M).1, ss') ∧ models n ss' (map_add s m M).2.
Proof.
  intros (<- & l & Hi & Hn) Hf. destruct (fresh_admits _ _ _ _ Hi Hf) as [Hs Ha].
  destruct (zset_add_ok ss l s m n Hi Hs Ha Hn) as (ss' & E & Hi' & Hn').
  destruct (add_spec_map ss l s m Hi) as [E1 E2].
  exists ss'. rewrite E, E1. split; [done|]. split; [|by eexists].
  by eapply scores_determined.
Qed.

Lemma zstep_models n ss M op :
  models (S n) ss M → match op with ZAdd s m => fresh_score tree s m M | _ => true end = true →
  ∃ ss', zstep op ss = Ret ((map_step op M).1, ss') ∧ models n ss' (map_step op M).2.
Proof.
  intros Hm Hop. destruct op as [s m|m|m|m]; cbn [zstep map_step]; unfold mbind, ST_bind.
  - destruct (models_add n ss M s m Hm Hop) as (ss' & E & Hm'). exists ss'. rewrite E.
    by destruct (map_add s m M).
  - apply models_less in Hm as (<- & l & Hi & Hn).
    destruct (zset_remove_ok ss l m Hi) as (ss' & E & EM & Hi' & Hn'). exists ss'. rewrite E.
    split; [done|]. split; [done|]. eauto.
  - apply models_less in Hm. pose proof Hm as (<- & l & Hi & _). exists ss.
    by rewrite (zset_rank_ok ss l m Hi).
  - apply models_less in Hm. pose proof Hm as (<- & l & Hi & _). by exists ss.
Qed.

Lemma zrun_models ops ss M :
  models (length ops) ss M → fresh_scores tree ops M = true →
  ∃ ss', zrun ops ss = Ret ((map_run ops M).1, ss') ∧ models 0 ss' (map_run ops M).2.
Proof.
  revert ss M. induction ops as [|op ops IH]; intros ss M Hm Hd; cbn [zrun map_run].
  { by exists ss. }
  cbn [fresh_scores] in Hd. apply andb_true_iff in Hd as [Hop Hd].
  destruct (zstep_models _ ss M op Hm Hop) as (ss1 & E1 & Hm1).
  destruct (IH _ _ Hm1 Hd) as (ss2 & E2 & Hm2). exists ss2.
  unfold mbind, ST_bind. rewrite E1. destruct (map_step op M) as [r M1]. cbn in *.
  rewrite E2. by destruct (map_run ops M1).
Qed.

End Models.

(** The B+ tree can always take more. *)
Lemma models_tree n n' ss M : models true n ss M → models true n' ss M.
Proof.
  intros (E & l & Hi & _). split; [done|]. exists l. split; [done|].
  pose proof (inv_view _ _ Hi) as Hv. cbn in *. by destruct (Index ss) as [t|t]; destruct Hv.
Qed.

Lemma new_models degree n :
  degree ≠ 1 → ∃ ss, NewSortedSetWithBTree degree = inr ss ∧ models true n ss ∅.
Proof.
  intros Hd. set (d := if degree <=? 0 then 4 else degree).
  assert (2 <= d) by (subst d; destruct (Z.leb_spec degree 0); lia).
  exists (mkSortedSet (ABTree (BTree.NewBTreeIndex d)) ∅). split; [done|]. split; [done|].
  exists []. split; [|done]. split; cbn.
  - split; [done|]. by apply BTreeLaws.new_view.
  - repeat constructor.
  - intros m s. rewrite lookup_empty. set_solver.
  - set_solver.
Qed.

Lemma new_skip_models draws lv n :
  (n <= SkipInsert.falses draws)%nat → Z.of_nat n < two32 →
  ∃ ss, NewSortedSet draws (mkIndexConfig IndexTypeSkipList 0 lv) = inr ss ∧ models false n ss ∅.
Proof.
  intros Hn Hl. exists (mkSortedSet (ASkipList (SkipList.NewSkipListIndex lv draws)) ∅).
  split; [done|]. split; [done|]. exists []. split; [split; cbn|].
  - split; [done|]. apply SkipLaws.new_skip_view.
  - repeat constructor.
  - intros m s. rewrite lookup_empty. set_solver.
  - set_solver.
  - split; [done|]. cbn. lia.
Qed.

(** C6: a sorted set over a fresh B+ tree of any degree other than 1 is a map from members to
    scores: along every history of additions, re-scorings, removals, rank and
    score queries in which no two members ever share a score and no score is
    NaN, no operation panics, each reply is the one computed from the map
    (ranks included: the number of members with a smaller score), and the score
    map kept beside the index ends up equal to the abstract one. *)
Theorem zset_history degree ops :
  degree ≠ 1 → distinct_scores ops ∅ = true →
  ∃ ss ss', NewSortedSetWithBTree degree = inr ss ∧
            zrun ops ss = Ret ((map_run ops ∅).1, ss') ∧
            MemberScore ss' = (map_run ops ∅).2.
Proof.
  intros Hd Hops. destruct (new_models degree (length ops) Hd) as (ss & E & Hm).
  destruct (zrun_models true ops ss ∅ Hm Hops) as (ss' & E' & [Hm' _]). by exists ss, ss'.
Qed.

(** C7: a sorted set over a fresh skip list is a map from members to scores, also
    when members share scores: along every history without NaN scores, with one
    tail per operation among the coin flips and fewer than 2^32 operations, no
    operation panics, each reply is the one computed from the map, ranks counting
    the members with a smaller (score, member) pair, and the score map ends up
    equal to the abstract one. *)
Theorem zset_skiplist_history draws maxLevel ops :
  (length ops <= SkipInsert.falses draws)%nat → Z.of_nat (length ops) < two32 →
  fresh_scores false ops ∅ = true →
  ∃ ss ss', NewSortedSet draws (mkIndexConfig IndexTypeSkipList 0 maxLevel) = inr ss ∧
            zrun ops ss = Ret ((map_run ops ∅).1, ss') ∧
            MemberScore ss' = (map_run ops ∅).2.
Proof.
  intros Hd Hl Hops. destruct (new_skip_models draws maxLevel _ Hd Hl) as (ss & E & Hm).
  destruct (zrun_models false ops ss ∅ Hm Hops) as (ss' & E' & [Hm' _]). by exists ss, ss'.
Qed.

(** ** The commands *)

Import Resp Config Core CommandFacts.

Definition scores (s : store) (key : bytes) : gmap bytes float64 :=
  match zsetStore s !! key with Some z => MemberScore z | None => ∅ end.

Definition zsets_ok (s : store) : Prop :=
  map_Forall (λ _ z, models true 0 z (MemberScore z)) (zsetStore s).

Definition bad_score : bytes := error_reply (bs "(error) Score must be floating point number").
Definition not_new : bytes := error_reply (bs "error when adding element").

(** What ZADD replies to a list of score and member arguments, and the scores
    after it: it stops at the first argument that is not a number and at the
    first member that is not new, whose score it has updated by then. *)
Fixpoint zadd_spec (args : list bytes) (count : Z) (M : gmap bytes float64) :
    bytes * gmap bytes float64 :=
  match args with
  | score :: member :: args =>
      match ParseFloat score with
      | None => (bad_score, M)
      | Some sc =>
          let '(r, M) := map_add sc member M in
          if r =? 1 then zadd_spec args (count + 1) M else (not_new, M)
      end
  | _ => (Encode (VInt count) false, M)
  end.

(** The scores ZADD gets to are numbers, distinct from those of other members. *)
Fixpoint zadd_fresh (args : list bytes) (M : gmap bytes float64) : bool :=
  match args with
  | score :: member :: args =>
      match ParseFloat score with
      | None => true
      | Some sc =>
          fresh_score true sc member M &&
          (let '(r, M) := map_add sc member M in if r =? 1 then zadd_fresh args M else true)
      end
  | _ => true
  end.

Lemma zadd_loop_spec args z M count :
  models true 0 z M → zadd_fresh args M = true →
  ∃ z', zadd_loop args count z = Ret ((zadd_spec args count M).1, z') ∧
        models true 0 z' (zadd_spec args count M).2.
Proof.
  revert z M count. induction args as [|a|sc m args IH] using pairs_ind; intros z M count Hm Hf;
    cbn [zadd_loop zadd_spec]; [by exists z|by exists z|].
  cbn [zadd_fresh] in Hf. destruct (ParseFloat sc) as [s|]; [|by exists z].
  apply andb_true_iff in Hf as [Hs Hf]. destruct (models_add true 0 z M s m (models_tree _ 1 _ _ Hm) Hs) as (z1 & E & Hm1).
  unfold mbind, outcome_bind. rewrite E. destruct (map_add s m M) as [r M1]. cbn in *.
  destruct (r =? 1); [by apply IH|by exists z1].
Qed.

Lemma zsets_ok_with s key z :
  zsets_ok s → models true 0 z (MemberScore z) → zsets_ok (with_zset s key z).
Proof. intros Hs Hz. by apply map_Forall_insert_2. Qed.

Lemma scores_with s key z : scores (with_zset s key z) key = MemberScore z.
Proof. unfold scores. cbn. by rewrite lookup_insert_eq. Qed.

Section Replies.
Context (math_Log : float64 → float64) `{!Sorter EvictionPool.Less} (cfg : config) (w : world).

Lemma ZADD_step s key a b args :
  zsets_ok s → Nat.Even (length args) → zadd_fresh (a :: b :: args) (scores s key) = true →
  ∃ z, run math_Log cfg w "ZADD" (key :: a :: b :: args) s =
         Ret ((zadd_spec (a :: b :: args) 0 (scores s key)).1, with_zset s key z) ∧
       models true 0 z (zadd_spec (a :: b :: args) 0 (scores s key)).2.
Proof.
  intros Hs [n Hn] Hf. change (run math_Log cfg w "ZADD") with cmdZADD. unfold cmdZADD.
  rewrite (proj2 (Z.ltb_ge _ 3)) by (cbn [length]; lia). cbv zeta.
  assert (E : (Z.of_nat (length (a :: b :: args)) mod 2 =? 1)
              || (Z.of_nat (length (a :: b :: args)) =? 0) = false).
  { cbn [length]. rewrite Hn. apply orb_false_iff. split; apply Z.eqb_neq; [|lia].
    replace (Z.of_nat (S (S (2 * n)))) with (Z.of_nat (S n) * 2) by lia.
    by rewrite Z.mod_mul. }
  rewrite E. unfold mbind at 1, ST_bind at 1, st_get. unfold scores in *.
  destruct (zsetStore s !! key) as [z0|] eqn:Ez.
  - destruct (zadd_loop_spec (a :: b :: args) z0 (MemberScore z0) 0) as (z & El & Hz);
      [by apply (map_Forall_lookup_1 _ _ _ _ Hs Ez)|done|].
    exists z. split; [|done]. unfold mbind, ST_bind, st_lift, outcome_bind. rewrite El. done.
  - destruct (new_models Constant.DefaultBPlusTreeDegree 0) as (z0 & E0 & Hm0); [done|].
    destruct (zadd_loop_spec (a :: b :: args) z0 ∅ 0 Hm0 Hf) as (z & El & Hz).
    exists z. split; [|done]. unfold NewSortedSetWithBTree in E0. rewrite E0.
    unfold mbind, ST_bind, st_lift, outcome_bind. rewrite El. done.
Qed.

(** C19: the sorted-set commands answer from the map of scores: while the scores
    in play are numbers and pairwise distinct, ZADD replies the number of new
    members (or its error for an argument that is not a number or a member that
    is not new, whose score is updated all the same), after it ZSCORE prints
    the score of every member and nil for the others, ZRANK replies the number
    of members with a smaller score and -1 for a member that is not there, and
    every sorted set of the store stays well formed. *)
Theorem zset_commands_reply s key a b args :
  zsets_ok s → Nat.Even (length args) → zadd_fresh (a :: b :: args) (scores s key) = true →
  let '(reply, M) := zadd_spec (a :: b :: args) 0 (scores s key) in
  ∃ s', run math_Log cfg w "ZADD" (key :: a :: b :: args) s = Ret (reply, s') ∧
    scores s' key = M ∧ zsets_ok s' ∧
    (∀ m, run math_Log cfg w "ZSCORE" [key; m] s' =
          Ret (match M !! m with
               | Some sc => Encode (VStr (Sprintf_f sc)) false
               | None => Constant.RespNil
               end, s')) ∧
    (∀ m, run math_Log cfg w "ZRANK" [key; m] s' = Ret (Encode (VInt (map_rank m M)) false, s')).
Proof.
  intros Hs Ha Hf. destruct (ZADD_step s key a b args Hs Ha Hf) as (z & E & Hz).
  destruct (zadd_spec (a :: b :: args) 0 (scores s key)) as [reply M]. cbn in E, Hz.
  exists (with_zset s key z). pose proof Hz as (HM & l & Hi & _).
  assert (Hl : zsetStore (with_zset s key z) !! key = Some z) by apply lookup_insert_eq.
  split_and!; [done|by rewrite scores_with|apply zsets_ok_with; [done|]; by rewrite HM| |].
  - intros m. change (run math_Log cfg w "ZSCORE") with cmdZSCORE.
    unfold cmdZSCORE, mbind, ST_bind, st_get. rewrite Hl. unfold GetScore. rewrite HM.
    by destruct (M !! m).
  - intros m. change (run math_Log cfg w "ZRANK") with cmdZRANK.
    unfold cmdZRANK, mbind, ST_bind, st_get, st_lift, outcome_bind. rewrite Hl.
    pose proof (zset_rank_ok z l m Hi) as Er. unfold GetScore in Er. rewrite HM in Er. rewrite Er.
    cbn. unfold mret, ST_ret, map_rank. do 2 f_equal. unfold with_zset. cbn. f_equal.
    by rewrite insert_insert_eq.
Qed.

End Replies.

(** ** Witnesses *)

(** Enough members to split leaves and the root, then removals that borrow and
    merge. *)
Definition demo_ops : list zop :=
  [ZAdd (of_Z 5) (bs "e"); ZAdd (of_Z 1) (bs "a"); ZAdd (of_Z 3) (bs "c"); ZAdd (of_Z 2) (bs "b");
   ZAdd (of_Z 4) (bs "d"); ZAdd (of_Z 7) (bs "g"); ZAdd (of_Z 6) (bs "f"); ZAdd (of_Z 9) (bs "a");
   ZRank (bs "a"); ZRem (bs "b"); ZRem (bs "c"); ZRem (bs "d"); ZRem (bs "e"); ZRem (bs "zz");
   ZRank (bs "a"); ZScore (bs "g")].

Lemma zset_history_witness :
  ∃ ss ss', NewSortedSetWithBTree 4 = inr ss ∧
    zrun demo_ops ss =
    Ret ([RInt 1; RInt 1; RInt 1; RInt 1; RInt 1; RInt 1; RInt 1; RInt 0; RInt 6; RInt 1; RInt 1;
          RInt 1; RInt 1; RInt 0; RInt 2; RScore (Some (of_Z 7))], ss').
Proof.
  destruct (zset_history 4 demo_ops) as (ss & ss' & E & R & _); [lia|vm_compute; reflexivity|].
  exists ss, ss'. split; [exact E|]. etrans; [exact R|]. vm_compute. reflexivity.
Defined.

(** Equal scores, towers of heights 1 to 3, removals and re-scorings. *)
Definition demo_ties : list zop :=
  [ZAdd (of_Z 1) (bs "c"); ZAdd (of_Z 1) (bs "a"); ZAdd (of_Z 1) (bs "d"); ZAdd (of_Z 1) (bs "b");
   ZRank (bs "d"); ZAdd (of_Z 0) (bs "d"); ZRank (bs "d"); ZRem (bs "a"); ZRank (bs "c");
   ZScore (bs "d")].
Definition demo_draws : list bool :=
  concat (replicate 5 [true; false; false; true; true; false]).

Lemma zset_skiplist_history_witness :
  ∃ ss ss', NewSortedSet demo_draws (mkIndexConfig IndexTypeSkipList 0 32) = inr ss ∧
    zrun demo_ties ss =
    Ret ([RInt 1; RInt 1; RInt 1; RInt 1; RInt 3; RInt 0; RInt 0; RInt 1; RInt 2;
          RScore (Some (of_Z 0))], ss').
Proof.
  destruct (zset_skiplist_history demo_draws 32 demo_ties) as (ss & ss' & E & R & _);
    [apply Nat.leb_le; vm_compute; reflexivity|vm_compute; reflexivity|vm_compute; reflexivity|].
  exists ss, ss'. split; [exact E|]. etrans; [exact R|]. vm_compute. reflexivity.
Defined.

Lemma zset_commands_reply_witness :
  ∃ s', run demo_log Config.default (demo_world 0) "ZADD"
          [bs "z"; bs "2"; bs "b"; bs "1.5"; bs "a"] init = Ret (Encode (VInt 2) false, s') ∧
        run demo_log Config.default (demo_world 0) "ZRANK" [bs "z"; bs "b"] s' =
          Ret (Encode (VInt 1) false, s').
Proof.
  destruct (zset_commands_reply demo_log Config.default (demo_world 0) init (bs "z")
              (bs "2") (bs "b") [bs "1.5"; bs "a"]) as (s' & E & _ & _ & _ & R).
  - apply map_Forall_empty.
  - by exists 1%nat.
  - vm_compute. reflexivity.
  - exists s'. split; [exact E|]. etrans; [exact (R (bs "b"))|]. vm_compute. reflexivity.
Defined.

End ZSet.
