(* ===== verification/Iomux.v ===== *)
(** * I/O multiplexing (src/internal/core/iomux)

    The two back ends, epoll (epoll_linux.go, type_linux.go) and kqueue
    (kqueue_macos.go, type_macos.go), behind the interface of
    io_multiplexing.go.  The kernel is a parameter: a type of kernel states
    with the system calls the code makes, each of which answers and moves to a
    new state.  Errors are their messages.  [log.Fatal] ends the process. *)

From Stdlib Require Import ZArith Lia Ascii.
From stdpp Require Import base gmap list strings numbers sorting sets fin_maps.
From S2P Require Import Prelude GoStrings Resp GoFloat Config.

Module Iomux.
Import Config.

(** ** Generic events (io_multiplexing.go) *)

Definition OpRead : Z := 0.
Definition OpWrite : Z := 1.

Record Event := mkEvent { Fd : Z; Op : Z }.

#[global] Instance Event_eq_dec : EqDecision Event.
Proof. solve_decision. Defined.

(** [int32(z)] *)
Definition s32 (z : Z) : Z := (z + 2147483648) mod two32 - 2147483648.

(** ** Native events *)

(** [EpollEvent] of package syscall, and its constants on Linux. *)
Record EpollEvent := mkEpollEvent { ep_Events : Z; ep_Fd : Z }.
Definition EPOLLIN : Z := 1.
Definition EPOLLOUT : Z := 4.
Definition EPOLL_CTL_ADD : Z := 1.
Definition EPOLL_CTL_DEL : Z := 2.

(** [Kevent_t], and the constants of Darwin. *)
Record Kevent_t := mkKevent { Ident : Z; Filter : Z; Flags : Z }.
Definition EVFILT_READ : Z := -1.
Definition EVFILT_WRITE : Z := -2.
Definition EV_ADD : Z := 1.
Definition EV_DELETE : Z := 2.

Definition epoll_toNative (e : Event) : EpollEvent :=
  let event := EPOLLIN in
  let event := if Op e =? OpWrite then EPOLLOUT else event in
  mkEpollEvent event (s32 (Fd e)).

Definition epoll_createEvent (ep : EpollEvent) : Event :=
  let op := OpRead in
  let op := if ep_Events ep =? EPOLLOUT then OpWrite else op in
  mkEvent (ep_Fd ep) op.

Definition kqueue_toNative (flags : Z) (e : Event) : Kevent_t :=
  let filter := EVFILT_WRITE in
  let filter := if Op e =? OpRead then EVFILT_READ else filter in
  mkKevent (u64 (Fd e)) filter flags.

Definition kqueue_createEvent (kq : Kevent_t) : Event :=
  let op := OpWrite in
  let op := if Filter kq =? EVFILT_READ then OpRead else op in
  mkEvent (s64 (Ident kq)) op.

(** ** The kernel *)

Class EpollKernel (K : Type) := {
  EpollCreate1 : Z → ST K (bytes + Z);
  EpollCtl : Z → Z → Z → option EpollEvent → ST K (option bytes);
  (** at most the given number of events *)
  EpollWait : Z → Z → ST K (bytes + list EpollEvent);
  EpollClose : Z → ST K (option bytes)
}.

Class KqueueKernel (K : Type) := {
  Kqueue : ST K (bytes + Z);
  (** [Kevent] with a change and no room for events *)
  KeventChange : Z → Kevent_t → ST K (option bytes);
  (** [Kevent] without a change, with room for so many events *)
  KeventWait : Z → Z → ST K (bytes + list Kevent_t);
  KqueueClose : Z → ST K (option bytes)
}.

(** ** The interface *)

Class IOMultiplexer (T K : Type) := {
  Monitor : Event → ST (T * K) (option bytes);
  Wait : ST (T * K) (bytes + list Event);
  Close : ST (T * K) (option bytes)
}.

(** A system call from a method: the receiver does not change. *)
Definition sys {T K A} (m : ST K A) : ST (T * K) A :=
  λ '(x, k), '(a, k) ← m k; Ret (a, (x, k)).

(** [for i := 0; i < n; i++ { generic[i] = createEvent(native[i]) }; generic[:n]]:
    the new contents of the buffer and the slice returned. *)
Definition fill_events {N} (create : N → Event) (native : list N) (generic : list Event) :
    outcome (list Event * list Event) :=
  if decide (length native <= length generic)%nat
  then let generic := (create <$> native) ++ drop (length native) generic in
       Ret (generic, take (length native) generic)
  else Panic IndexOutOfRange.

(** ** epoll *)

Record Epoll := mkEpoll { ep_fd : Z; ep_capacity : Z; ep_genericEvents : list Event }.

Section Epoll.
Context {K : Type} `{EpollKernel K} (cfg : config).

(** [make] of a negative length panics. *)
Definition make_events (n : Z) : outcome (list Event) :=
  if n <? 0 then Panic MakeSliceLen else Ret (replicate (Z.to_nat n) (mkEvent 0 0)).

(** [None] when [log.Fatal] ends the process. *)
Definition epoll_CreateIOMultiplexer : ST K (option Epoll) :=
  r ← EpollCreate1 0;
  match r with
  | inl err => mret None
  | inr epollFD =>
      generic ← st_lift (make_events (MaxConnection cfg));
      mret (Some (mkEpoll epollFD (MaxConnection cfg) generic))
  end.

Definition epoll_Monitor (event : Event) : ST (Epoll * K) (option bytes) :=
  λ '(ep, k), sys (EpollCtl (ep_fd ep) EPOLL_CTL_ADD (Fd event) (Some (epoll_toNative event))) (ep, k).

Definition epoll_Unmonitor (event : Event) : ST (Epoll * K) (option bytes) :=
  λ '(ep, k), sys (EpollCtl (ep_fd ep) EPOLL_CTL_DEL (Fd event) None) (ep, k).

Definition epoll_Wait : ST (Epoll * K) (bytes + list Event) :=
  λ '(ep, k),
    '(r, k) ← EpollWait (ep_fd ep) (ep_capacity ep) k;
    match r with
    | inl err => Ret (inl err, (ep, k))
    | inr native =>
        '(generic, events) ← fill_events epoll_createEvent native (ep_genericEvents ep);
        Ret (inr events, (mkEpoll (ep_fd ep) (ep_capacity ep) generic, k))
    end.

Definition epoll_Close : ST (Epoll * K) (option bytes) :=
  λ '(ep, k), sys (EpollClose (ep_fd ep)) (ep, k).

#[global] Instance epoll_mux : IOMultiplexer Epoll K := {
  Monitor := epoll_Monitor;
  Wait := epoll_Wait;
  Close := epoll_Close
}.

End Epoll.

(** ** kqueue *)

Record KQueue := mkKQueue { kq_fd : Z; kq_capacity : Z; kq_genericEvents : list Event }.

Section Kqueue.
Context {K : Type} `{KqueueKernel K} (cfg : config).

Definition kqueue_CreateIOMultiplexer : ST K (option KQueue) :=
  r ← Kqueue;
  match r with
  | inl err => mret None
  | inr fd =>
      generic ← st_lift (make_events (MaxConnection cfg));
      mret (Some (mkKQueue fd (MaxConnection cfg) generic))
  end.

Definition kqueue_Monitor (event : Event) : ST (KQueue * K) (option bytes) :=
  λ '(kq, k), sys (KeventChange (kq_fd kq) (kqueue_toNative EV_ADD event)) (kq, k).

Definition kqueue_Unmonitor (event : Event) : ST (KQueue * K) (option bytes) :=
  λ '(kq, k), sys (KeventChange (kq_fd kq) (kqueue_toNative EV_DELETE event)) (kq, k).

Definition kqueue_Wait : ST (KQueue * K) (bytes + list Event) :=
  λ '(kq, k),
    '(r, k) ← KeventWait (kq_fd kq) (kq_capacity kq) k;
    match r with
    | inl err => Ret (inl err, (kq, k))
    | inr native =>
        '(generic, events) ← fill_events kqueue_createEvent native (kq_genericEvents kq);
        Ret (inr events, (mkKQueue (kq_fd kq) (kq_capacity kq) generic, k))
    end.

Definition kqueue_Close : ST (KQueue * K) (option bytes) :=
  λ '(kq, k), sys (KqueueClose (kq_fd kq)) (kq, k).

#[global] Instance kqueue_mux : IOMultiplexer KQueue K := {
  Monitor := kqueue_Monitor;
  Wait := kqueue_Wait;
  Close := kqueue_Close
}.

End Kqueue.

(** ** Events through the back ends *)

Definition is_s32 (z : Z) : Prop := -2147483648 <= z < 2147483648.

Lemma s32_id z : is_s32 z → s32 z = z.
Proof. intros H. unfold is_s32, s32, two32 in *. rewrite Z.mod_small; lia. Qed.

Lemma s64_u64 z : is_s64 z → s64 (u64 z) = z.
Proof.
  intros H. rewrite <- (s64_id z) at 2 by done. apply s64_eq_mod. unfold u64.
  rewrite Z.mod_mod; [done|unfold two64; lia].
Qed.

(** An event of the interface: a descriptor the kernel can give out, and one
    of the two operations. *)
Definition valid (e : Event) : Prop := is_s32 (Fd e) ∧ (Op e = OpRead ∨ Op e = OpWrite).

Lemma epoll_event_id e : valid e → epoll_createEvent (epoll_toNative e) = e.
Proof.
  destruct e as [fd op]. intros [Hf [E|E]]; cbn in *; subst op; cbn; unfold epoll_createEvent, epoll_toNative;
    cbn; by rewrite s32_id.
Qed.

Lemma kqueue_event_id flags e : valid e → kqueue_createEvent (kqueue_toNative flags e) = e.
Proof.
  destruct e as [fd op]. intros [Hf [E|E]]; cbn in *; subst op;
    unfold kqueue_createEvent, kqueue_toNative; cbn; rewrite s64_u64; try done;
    unfold is_s32, is_s64, two63 in *; lia.
Qed.

(** C32: the two back ends are interchangeable: for every descriptor in the
    kernel's range and either operation, converting an event to the native form
    and back gives the event again, with epoll and with kqueue, whatever the
    flags of the change. *)
Theorem backends_equivalent flags e :
  valid e →
  epoll_createEvent (epoll_toNative e) = e ∧
  kqueue_createEvent (kqueue_toNative flags e) = epoll_createEvent (epoll_toNative e).
Proof. intros H. by rewrite epoll_event_id, kqueue_event_id. Qed.

(** ** What epoll promises, and what the loops get from it *)

(** The documented behaviour of the calls: [interest k ep] is the interest
    list of the epoll instance [ep].  A successful ADD or DEL changes one
    entry; a wait changes none and reports, with the data registered for them,
    at most as many entries of the list as there is room for. *)
Class EpollLaws (K : Type) `{EpollKernel K} := {
  interest : K → Z → gmap Z EpollEvent;
  law_ctl_add k k' ep fd ev :
    EpollCtl ep EPOLL_CTL_ADD fd (Some ev) k = Ret (None, k') →
    interest k' ep = <[fd := ev]> (interest k ep);
  law_ctl_del k k' ep fd :
    EpollCtl ep EPOLL_CTL_DEL fd None k = Ret (None, k') →
    interest k' ep = delete fd (interest k ep);
  law_wait k k' ep n evs :
    EpollWait ep n k = Ret (inr evs, k') →
    interest k' ep = interest k ep ∧ Z.of_nat (length evs) <= Z.max 0 n ∧
    Forall (λ e, ∃ fd reg, interest k ep !! fd = Some reg ∧ ep_Fd e = ep_Fd reg) evs
}.

Section Laws.
Context {K : Type} `{EpollLaws K}.

(** The buffer has its capacity and every entry carries its own descriptor. *)
Definition epoll_inv (ep : Epoll) (k : K) : Prop :=
  Z.of_nat (length (ep_genericEvents ep)) = ep_capacity ep ∧
  map_Forall (λ fd ev, ep_Fd ev = fd) (interest k (ep_fd ep)).

Definition monitored (ep : Epoll) (k : K) : gset Z := dom (interest k (ep_fd ep)).

Lemma Monitor_ok ep k ep' k' e :
  epoll_inv ep k → is_s32 (Fd e) → epoll_Monitor e (ep, k) = Ret (None, (ep', k')) →
  epoll_inv ep' k' ∧ monitored ep' k' = {[ Fd e ]} ∪ monitored ep k.
Proof.
  intros [Hl Hf] He. unfold epoll_Monitor, sys.
  destruct (EpollCtl _ _ _ _ k) as [[r k1]| |] eqn:E; cbn; try done. intros [= -> <- <-].
  apply law_ctl_add in E. unfold epoll_inv, monitored. rewrite E. split; [split; [done|]|set_solver].
  apply map_Forall_insert_2; [|done]. cbn. by apply s32_id.
Qed.

Lemma Unmonitor_ok ep k ep' k' e :
  epoll_inv ep k → epoll_Unmonitor e (ep, k) = Ret (None, (ep', k')) →
  epoll_inv ep' k' ∧ monitored ep' k' = monitored ep k ∖ {[ Fd e ]}.
Proof.
  intros [Hl Hf]. unfold epoll_Unmonitor, sys.
  destruct (EpollCtl _ _ _ _ k) as [[r k1]| |] eqn:E; cbn; try done. intros [= -> <- <-].
  apply law_ctl_del in E. unfold epoll_inv, monitored. rewrite E. split; [split; [done|]|set_solver].
  by apply map_Forall_delete.
Qed.

(** The epoll back end is safe: in a state that [Monitor] and [Unmonitor]
    built, a wait that the kernel answers does not overrun the event buffer,
    every event it returns is for a descriptor under monitoring, there are no
    more of them than the buffer holds, and buffer and interest list are left
    as they were. *)
Lemma epoll_Wait_safe ep k native k' :
  epoll_inv ep k → EpollWait (ep_fd ep) (ep_capacity ep) k = Ret (inr native, k') →
  ∃ ep', epoll_Wait (ep, k) = Ret (inr (epoll_createEvent <$> native), (ep', k')) ∧
         Forall (λ e, Fd e ∈ monitored ep k) (epoll_createEvent <$> native) ∧
         Z.of_nat (length native) <= ep_capacity ep ∧
         epoll_inv ep' k' ∧ monitored ep' k' = monitored ep k.
Proof.
  intros [Hl Hf] E. pose proof (law_wait _ _ _ _ _ E) as (Hi & Hlen & Hev).
  unfold epoll_Wait, fill_events. rewrite E. cbn. rewrite decide_True by lia. cbn.
  eexists. rewrite take_app_length' by (by rewrite length_fmap). split; [done|].
  split_and!; [|lia| |unfold monitored; cbn; by rewrite Hi].
  - apply Forall_fmap, Forall_forall. intros e He. rewrite Forall_forall in Hev.
    destruct (Hev e He) as (fd & reg & Hfd & Ee). cbn. rewrite Ee, (map_Forall_lookup_1 _ _ _ _ Hf Hfd). by eapply elem_of_dom_2.
  - split; cbn; [|by rewrite Hi]. rewrite length_app, length_fmap, length_drop. lia.
Qed.

End Laws.

(** A kernel with one epoll instance whose descriptors are always readable. *)
#[local] Instance demo_kernel : EpollKernel (gmap Z EpollEvent) := {
  EpollCreate1 _ := mret (inr 3);
  EpollCtl _ op fd ev k :=
    match ev with
    | Some ev => if op =? EPOLL_CTL_ADD then Ret (None, <[fd := ev]> k) else Ret (Some (bs "EINVAL"), k)
    | None => Ret (None, delete fd k)
    end;
  EpollWait _ n k :=
    Ret (inr ((λ p, mkEpollEvent EPOLLIN (ep_Fd p.2)) <$> take (Z.to_nat n) (map_to_list k)), k);
  EpollClose _ := mret None
}.

#[local] Instance demo_laws : EpollLaws (gmap Z EpollEvent).
Proof.
  refine {| interest k _ := k |}.
  - intros k k' ep fd ev [= <-]. done.
  - intros k k' ep fd [= <-]. done.
  - intros k k' ep n evs. cbn. intros [= <- <-]. split_and!; [done| |].
    + rewrite length_fmap, length_take. lia.
    + apply Forall_fmap, Forall_forall. intros [fd ev] Hin.
      exists fd, ev. split; [|done]. apply elem_of_map_to_list.
      exact (elem_of_sublist _ _ _ Hin (sublist_take _ _)).
Defined.

Definition demo_epoll : Epoll := mkEpoll 3 2 [mkEvent 0 0; mkEvent 0 0].
Definition demo_interest : gmap Z EpollEvent := {[ 5 := mkEpollEvent EPOLLIN 5 ]}.

Lemma epoll_Wait_safe_witness :
  ∃ ep', epoll_Wait (demo_epoll, demo_interest) = Ret (inr [mkEvent 5 OpRead], (ep', demo_interest)).
Proof.
  destruct (epoll_Wait_safe demo_epoll demo_interest [mkEpollEvent EPOLLIN 5] demo_interest)
    as (ep' & E & _).
  - split; [reflexivity|]. apply map_Forall_singleton. reflexivity.
  - vm_compute. reflexivity.
  - exists ep'. exact E.
Defined.

Lemma backends_equivalent_witness :
  kqueue_createEvent (kqueue_toNative EV_ADD (mkEvent 7 OpWrite)) = mkEvent 7 OpWrite.
Proof.
  destruct (backends_equivalent EV_ADD (mkEvent 7 OpWrite)) as [E1 E2];
    [split; [split; vm_compute; congruence|right; reflexivity]|].
  rewrite E2. exact E1.
Defined.

End Iomux.
