(* ===== verification/Worker.v ===== *)
(** * Workers (src/internal/core/worker.go)

    A worker owns a dictionary and a buffered channel of tasks; it executes
    them one by one and sends each reply on the task's own channel.  The LRU
    pool is a package variable that all workers share, so it is an argument of
    the handlers.  What another worker does to the pool during an eviction is
    part of the world ([Core.interference]); alone a worker's handlers never
    fail, and [pool_used] says which commands can panic in such a race. *)

From Stdlib Require Import ZArith Lia Ascii.
From stdpp Require Import base gmap list strings numbers sorting sets.
From S2P Require Import Prelude GoStrings Resp GoFloat Config EvictionPool Dict Commands.

Module Worker.
Import Resp Config EvictionPool.
Import Core(world, clock, dict_order, interference, error_reply, wrong_args, not_an_integer, not_found).

(** ** State *)

(** [ReplyCh] names the task's reply channel.  In a worker [closed] is the state
    of its channel, [cancelled] that of its context, and [stopped] holds when no
    goroutine of the worker runs (the wait group is at zero). *)
Record Task := mkTask { Command_ : Command; ReplyCh : nat }.

Record Worker := mkWorker {
  id : Z;
  dictStore : Dict.Dict;
  TaskCh : list Task;
  bufferSize : Z;
  closed : bool;
  cancelled : bool;
  stopped : bool
}.

Definition NewWorker (id bufferSize : Z) : Worker :=
  mkWorker id Dict.CreateDict [] bufferSize false false true.

(** [Start]: a new context that is not cancelled, and a goroutine in [run]. *)
Definition Start (w : Worker) : Worker :=
  mkWorker (id w) (dictStore w) (TaskCh w) (bufferSize w) (closed w) false false.

(** [Stop] up to the wait for the goroutine: cancel the context, close the
    channel. *)
Definition Stop (w : Worker) : Worker :=
  mkWorker (id w) (dictStore w) (TaskCh w) (bufferSize w) true true (stopped w).

(** ** Handlers *)

Section Handlers.
Context `{!Sorter Less} (cfg : config) (w : world).

Abbreviation H := (Dict.Dict * LruEvictionPool → bytes * (Dict.Dict * LruEvictionPool))%type.

Definition cmdPING (args : list bytes) : H := λ s,
  (match args with
   | [] => Encode (VStr (bs "PONG")) true
   | [a] => Encode (VStr a) false
   | _ => error_reply (bs "ERR wrong number of arguments for 'ping' command")
   end, s).

Definition set_new (key value : bytes) (ttlMs : Z) : H := λ '(d, p),
  (Constant.RespOk,
   Dict.SetNew_shared cfg (clock w 0) (clock w 1) (dict_order w) (interference w) d p key
     (VStr value) ttlMs).

(** Unlike the handler of executor.go this one does not look at the option. *)
Definition cmdSET (args : list bytes) : H := λ s,
  match args with
  | [key; value] => set_new key value (-1) s
  | [key; value; _; ttl] =>
      match Strconv.ParseInt ttl with
      | None => (not_an_integer, s)
      | Some ttlSec => set_new key value (s64 (ttlSec * 1000)) s
      end
  | _ => (wrong_args "SET", s)
  end.

Definition cmdGET (args : list bytes) : H := λ '(d, p),
  match args with
  | [key] =>
      let '(obj, d) := Dict.Get (clock w 0) (clock w 1) d key in
      (match obj with
       | None => Constant.RespNil
       | Some obj =>
           if Dict.HasExpired (clock w 2) d key then Constant.RespNil
           else Encode (Dict.Value obj) false
       end, (d, p))
  | _ => (wrong_args "GET", (d, p))
  end.

(** The reply that [ExecuteAndResponse] sends on [task.ReplyCh]. *)
Definition ExecuteAndResponse (cmd : Command) : H :=
  if decide (Cmd cmd = bs "SET") then cmdSET (Args cmd)
  else if decide (Cmd cmd = bs "GET") then cmdGET (Args cmd)
  else if decide (Cmd cmd = bs "PING") then cmdPING (Args cmd)
  else λ s, (not_found, s).

End Handlers.

(** ** Interference *)

(** The same readings with the pool to itself. *)
Definition alone (w : world) : world :=
  Core.mkWorld (clock w) (dict_order w) (Core.expiry_order w) (Core.member_order w) None.

(** The commands that store a value. *)
Definition stores (cmd : Command) : bool :=
  bool_decide (Cmd cmd = bs "SET") &&
  match Args cmd with
  | [_; _] => true
  | [_; _; _; ttl] => match Strconv.ParseInt ttl with Some _ => true | None => false end
  | _ => false
  end.

(** The command evicts through the pool. *)
Definition pool_used (cfg : config) (cmd : Command) (d : Dict.Dict) : bool :=
  stores cmd && Dict.reaches_pool cfg d.

Lemma execute_alone `{!Sorter Less} cfg w cmd d p :
  pool_used cfg cmd d = false →
  ExecuteAndResponse cfg w cmd (d, p) = ExecuteAndResponse cfg (alone w) cmd (d, p).
Proof.
  unfold pool_used, stores, ExecuteAndResponse. case_decide as E; [|done].
  rewrite bool_decide_eq_true_2 by done. unfold cmdSET, set_new, Dict.SetNew_shared.
  destruct (Args cmd) as [|k [|v [|o [|t [|]]]]]; cbn; try done.
  - intros ->. by destruct (interference w) as [[]|].
  - destruct (Strconv.ParseInt t); cbn; [|done]. intros ->. by destruct (interference w) as [[]|].
Qed.

Lemma pool_unused cfg cmd d :
  Z.of_nat (size (Dict.dictStore d)) < MaxKeyNumber cfg → pool_used cfg cmd d = false.
Proof.
  intros H. unfold pool_used, Dict.reaches_pool.
  by rewrite (proj2 (Z.leb_gt _ _)), !andb_false_r by done.
Qed.

(** ** Locality

    Below capacity a command reads and writes only the key it names, so the
    dictionary it runs on matters only at that key. *)

Definition at_key (d : Dict.Dict) (k : bytes) : option Dict.Obj * option Z :=
  (Dict.dictStore d !! k, Dict.expiredDictStore d !! k).

Section Local.
Context `{!Sorter Less} (cfg : config) (w : world).

Lemma SetNew_local d p d' p' k v ttl :
  Z.of_nat (size (Dict.dictStore d)) < MaxKeyNumber cfg →
  Z.of_nat (size (Dict.dictStore d')) < MaxKeyNumber cfg →
  at_key (Dict.SetNew_shared cfg (clock w 0) (clock w 1) (dict_order w) (interference w) d p k v ttl).1 k =
  at_key (Dict.SetNew_shared cfg (clock w 0) (clock w 1) (dict_order w) (interference w) d' p' k v ttl).1 k.
Proof.
  intros H H'. rewrite !Dict.SetNew_shared_alone, !Dict.SetNew_below by auto. unfold at_key. cbn.
  destruct (0 <? ttl); by rewrite !lookup_insert_eq, ?lookup_delete_eq.
Qed.

Lemma SetNew_other d p k v ttl k' :
  Z.of_nat (size (Dict.dictStore d)) < MaxKeyNumber cfg → k' ≠ k →
  at_key (Dict.SetNew_shared cfg (clock w 0) (clock w 1) (dict_order w) (interference w) d p k v ttl).1 k' = at_key d k'.
Proof.
  intros H Hk. rewrite Dict.SetNew_shared_alone, Dict.SetNew_below by auto. unfold at_key. cbn.
  rewrite lookup_insert_ne by done. destruct (0 <? ttl);
    by rewrite ?lookup_insert_ne, ?lookup_delete_ne.
Qed.

(** The lookup as a function of what is stored at the key. *)
Definition get_at (t0 t1 : Z) (c : option Dict.Obj * option Z) :
    option Dict.Obj * (option Dict.Obj * option Z) :=
  match c with
  | (None, e) => (None, (None, e))
  | (Some o, e) =>
      let o := Dict.mkObj (Dict.Value o) (Dict.now t0) in
      if match e with Some x => x <=? u64 t1 | None => false end
      then (None, (None, None)) else (Some o, (Some o, e))
  end.

Lemma Get_at t0 t1 d k :
  (Dict.Get t0 t1 d k).1 = (get_at t0 t1 (at_key d k)).1 ∧
  at_key (Dict.Get t0 t1 d k).2 k = (get_at t0 t1 (at_key d k)).2.
Proof.
  unfold Dict.Get, at_key, get_at, Dict.HasExpired.
  destruct (Dict.dictStore d !! k) as [o|] eqn:E; cbn; [|by rewrite E].
  destruct (match Dict.expiredDictStore d !! k with Some x => x <=? u64 t1 | None => false end);
    cbn.
  - split; [done|]. unfold Dict.Del. cbn. by rewrite lookup_insert_eq; cbn; rewrite !lookup_delete_eq.
  - by rewrite lookup_insert_eq.
Qed.

Lemma Get_other t0 t1 d k k' : k' ≠ k → at_key (Dict.Get t0 t1 d k).2 k' = at_key d k'.
Proof.
  intros Hk. unfold Dict.Get, at_key. destruct (Dict.dictStore d !! k) as [o|]; [|done].
  case_match; cbn.
  - unfold Dict.Del. cbn. rewrite lookup_insert_eq. cbn.
    by rewrite !lookup_delete_ne, lookup_insert_ne.
  - by rewrite lookup_insert_ne.
Qed.

Lemma Get_size t0 t1 d k :
  (size (Dict.dictStore (Dict.Get t0 t1 d k).2) <= size (Dict.dictStore d))%nat.
Proof.
  rewrite <- !(size_dom (D := gset bytes)), Dict.Get_dict.
  destruct (Dict.HasExpired t1 d k); [|done]. apply subseteq_size. set_solver.
Qed.

(** The keys a command works on: its first argument. *)
Definition keyed (cmd : Command) (k : bytes) : Prop := head (Args cmd) = Some k.

Lemma SetNew_size d p k v ttl :
  Z.of_nat (size (Dict.dictStore d)) < MaxKeyNumber cfg →
  (size (Dict.dictStore (Dict.SetNew_shared cfg (clock w 0) (clock w 1) (dict_order w) (interference w) d p k v ttl).1)
   <= S (size (Dict.dictStore d)))%nat.
Proof.
  intros H. rewrite Dict.SetNew_shared_alone, Dict.SetNew_below by auto. cbn. rewrite map_size_insert.
  case_match; cbn; lia.
Qed.

(** The three kinds of dictionary a command can leave behind. *)
Lemma execute_cases cmd d p :
  (ExecuteAndResponse cfg w cmd (d, p)).2.1 = d ∨
  (∃ k, keyed cmd k ∧
     (ExecuteAndResponse cfg w cmd (d, p)).2.1 = (Dict.Get (clock w 0) (clock w 1) d k).2) ∨
  (∃ k v ttl, keyed cmd k ∧
     (ExecuteAndResponse cfg w cmd (d, p)).2.1 =
     (Dict.SetNew_shared cfg (clock w 0) (clock w 1) (dict_order w) (interference w) d p k v ttl).1).
Proof.
  unfold ExecuteAndResponse, keyed. repeat case_decide; [| |by left|by left].
  - unfold cmdSET, set_new. destruct (Args cmd) as [|k [|v [|o [|t [|]]]]]; try (by left).
    + right; right. by exists k, (VStr v), (-1).
    + destruct (Strconv.ParseInt t) as [n|]; [|by left].
      right; right. by exists k, (VStr v), (s64 (n * 1000)).
  - unfold cmdGET. destruct (Args cmd) as [|k [|]]; [by left| |by left].
    right; left. exists k. split; [done|]. by destruct (Dict.Get _ _ d k).
Qed.

Lemma execute_size cmd d p :
  Z.of_nat (size (Dict.dictStore d)) < MaxKeyNumber cfg →
  (size (Dict.dictStore (ExecuteAndResponse cfg w cmd (d, p)).2.1) <= S (size (Dict.dictStore d)))%nat.
Proof.
  intros H. destruct (execute_cases cmd d p) as [->|[(k & _ & ->)|(k & v & ttl & _ & ->)]].
  - lia.
  - pose proof (Get_size (clock w 0) (clock w 1) d k). lia.
  - by apply SetNew_size.
Qed.

Lemma execute_other cmd d p k' :
  Z.of_nat (size (Dict.dictStore d)) < MaxKeyNumber cfg → ~ keyed cmd k' →
  at_key (ExecuteAndResponse cfg w cmd (d, p)).2.1 k' = at_key d k'.
Proof.
  intros H Hk. destruct (execute_cases cmd d p) as [->|[(k & Hc & ->)|(k & v & ttl & Hc & ->)]].
  - done.
  - apply Get_other. by intros ->.
  - apply SetNew_other; [done|]. by intros ->.
Qed.

Lemma execute_at cmd d p d' p' :
  Z.of_nat (size (Dict.dictStore d)) < MaxKeyNumber cfg →
  Z.of_nat (size (Dict.dictStore d')) < MaxKeyNumber cfg →
  (∀ k, keyed cmd k → at_key d k = at_key d' k) →
  (ExecuteAndResponse cfg w cmd (d, p)).1 = (ExecuteAndResponse cfg w cmd (d', p')).1 ∧
  ∀ k, keyed cmd k → at_key (ExecuteAndResponse cfg w cmd (d, p)).2.1 k =
                     at_key (ExecuteAndResponse cfg w cmd (d', p')).2.1 k.
Proof.
  intros H H' Hk. unfold ExecuteAndResponse, cmdSET, set_new, cmdGET, cmdPING.
  repeat (case_decide; [|]); try done.
  - destruct (Args cmd) as [|k [|v [|o [|t [|]]]]] eqn:Ea; try done.
    + split; [done|]. intros k' E. unfold keyed in E. rewrite Ea in E.
      injection E as <-. by apply SetNew_local.
    + destruct (Strconv.ParseInt t); [|done]. split; [done|]. intros k' E.
      unfold keyed in E. rewrite Ea in E. injection E as <-. by apply SetNew_local.
  - destruct (Args cmd) as [|k [|]] eqn:Ea; [done| |done].
    assert (E : at_key d k = at_key d' k) by (apply Hk; unfold keyed; by rewrite Ea).
    destruct (Get_at (clock w 0) (clock w 1) d k) as [G1 G2].
    destruct (Get_at (clock w 0) (clock w 1) d' k) as [G1' G2'].
    rewrite E in G1, G2. rewrite <- G1' in G1. rewrite <- G2' in G2.
    destruct (Dict.Get _ _ d k) as [o d1], (Dict.Get _ _ d' k) as [o' d1']. cbn in *. subst o'.
    split.
    + destruct o; [|done]. unfold at_key in G2. injection G2 as _ G2.
      unfold Dict.HasExpired. by rewrite G2.
    + intros k' Ek. unfold keyed in Ek. rewrite Ea in Ek. by injection Ek as <-.
Qed.

End Local.

End Worker.
