(* ===== verification/Server.v ===== *)
(** * The multi-threaded server
    (src/internal/server/server.go, io_handler.go; workers of
    src/internal/core/worker.go)

    Goroutines are interleaved: a step of the system is the dispatch of one
    task by an I/O handler, one iteration of a worker's loop, or the start of
    the shutdown.  A reply channel has room for one reply, so a worker never
    blocks on it; it is a number, and [replies] records what was sent on it.
    A send on a full task channel blocks ([None]), on a closed one it panics.
    The workers share nothing but the eviction pool.  A command that does not
    evict through it is atomic for the others; one that does sees what they make
    of the pool meanwhile ([Core.interference]), or panics ([work_panics]). *)

From Stdlib Require Import ZArith Lia Ascii.
From stdpp Require Import base gmap list strings numbers sorting sets fin_maps.
From S2P Require Import Prelude GoStrings Resp GoFloat Config EvictionPool Dict Commands Worker.

Module Server.
Import Resp Config EvictionPool Worker.
Import Core(world, clock, dict_order).

(** ** State *)

Record Server := mkServer {
  workers : list Worker;
  numWorkers : Z;
  ePool : LruEvictionPool;
  next_ch : nat;
  replies : gmap nat bytes
}.

(** [numCPU] is [runtime.NumCPU()]. *)
Definition NewServer (numCPU : Z) : Server :=
  let numWorkers := numCPU / 2 in
  mkServer ((λ i, Start (NewWorker (Z.of_nat i) 1024)) <$> seq 0 (Z.to_nat numWorkers))
           numWorkers ePool_init 0 ∅.

(** ** Routing *)

(** [fnv.New32a]: xor with the byte, multiply by the prime, modulo 2^32. *)
Definition fnv_step (h : Z) (c : ascii) : Z := u32 (Z.lxor h (code c) * 16777619).
Definition fnv32a (key : bytes) : Z := fold_left fnv_step key 2166136261.

Definition getPartitionID (s : Server) (key : bytes) : outcome Z :=
  if numWorkers s =? 0 then Panic DivideByZero
  else Ret (Z.rem (fnv32a key) (numWorkers s)).

Definition with_workers (s : Server) (ws : list Worker) : Server :=
  mkServer ws (numWorkers s) (ePool s) (next_ch s) (replies s).

Definition push_task (w : Worker) (t : Task) : Worker :=
  mkWorker (id w) (dictStore w) (TaskCh w ++ [t]) (bufferSize w) (closed w) (cancelled w) (stopped w).

(** [s.workers[i].TaskCh <- task] *)
Definition send (s : Server) (i : Z) (task : Task) : outcome (option Server) :=
  if i <? 0 then Panic IndexOutOfRange
  else match workers s !! Z.to_nat i with
       | None => Panic IndexOutOfRange
       | Some w =>
           if closed w then Panic SendOnClosed
           else if bufferSize w <=? Z.of_nat (length (TaskCh w)) then Ret None
           else Ret (Some (with_workers s (<[Z.to_nat i := push_task w task]> (workers s))))
       end.

(** [choice] is the result of [rand.Intn(s.numWorkers)] when it is called. *)
Definition dispatch (choice : Z) (task : Task) (s : Server) : outcome (option Server) :=
  match Args (Command_ task) with
  | key :: _ => workerID ← getPartitionID s key; send s workerID task
  | [] => if numWorkers s <=? 0 then Panic InvalidArgument else send s choice task
  end.

(** The part of [IOHandler.Run] after a command was read: make the reply
    channel and the task, dispatch it. *)
Definition submit (choice : Z) (cmd : Command) (s : Server) : outcome (option Server) :=
  dispatch choice (mkTask cmd (next_ch s))
    (mkServer (workers s) (numWorkers s) (ePool s) (S (next_ch s)) (replies s)).

(** ** Workers' loops *)

(** What a worker did for a task. *)
Record event := mkEvent { ev_world : world; ev_task : Task; ev_reply : bytes }.

Section Work.
Context `{!Sorter Less} (cfg : config).

(** The branch [task, ok := <-w.TaskCh] of worker [i]'s loop; [None] when the
    worker is gone or the receive blocks. *)
Definition work (i : nat) (wd : world) (s : Server) : option (option event * Server) :=
  w ← workers s !! i;
  if stopped w then None
  else match TaskCh w with
       | task :: rest =>
           let '(reply, (d, p)) :=
             ExecuteAndResponse cfg wd (Command_ task) (dictStore w, ePool s) in
           Some (Some (mkEvent wd task reply),
                 mkServer (<[i := mkWorker (id w) d rest (bufferSize w) (closed w) (cancelled w)
                                           (stopped w)]> (workers s))
                          (numWorkers s) p (next_ch s) (<[ReplyCh task := reply]> (replies s)))
       | [] =>
           if closed w then
             Some (None, with_workers s (<[i := mkWorker (id w) (dictStore w) [] (bufferSize w)
                                                  (closed w) (cancelled w) true]> (workers s)))
           else None
       end.

(** Worker [i] evicts through the pool while there are other workers: it may
    then find the pool shorter than a moment before and index past its end. *)
Definition work_panics (i : nat) (s : Server) : bool :=
  match workers s !! i with
  | Some w =>
      negb (stopped w) && (1 <? numWorkers s) &&
      match TaskCh w with
      | task :: _ => pool_used cfg (Command_ task) (dictStore w)
      | [] => false
      end
  | None => false
  end.

(** The branch [<-ctx.Done()]. *)
Definition quit (i : nat) (s : Server) : option Server :=
  w ← workers s !! i;
  if negb (stopped w) && cancelled w then
    Some (with_workers s (<[i := mkWorker (id w) (dictStore w) (TaskCh w) (bufferSize w)
                                   (closed w) (cancelled w) true]> (workers s)))
  else None.

(** The loop [for i, worker := range s.workers { worker.Stop() }] up to the
    next cancel and close: a worker is reached once those before it have left
    their loops ([waitGroup.Wait]). *)
Fixpoint stop_next (ws : list Worker) : option (list Worker) :=
  match ws with
  | [] => None
  | w :: ws =>
      if closed w then
        if stopped w then cons w <$> stop_next ws else None
      else Some (Worker.Stop w :: ws)
  end.

Definition Stop (s : Server) : option Server :=
  ws ← stop_next (workers s); Some (with_workers s ws).

Inductive step (s : Server) : list event → Server → Prop :=
  | step_submit choice cmd s' :
      0 <= choice < numWorkers s → submit choice cmd s = Ret (Some s') → step s [] s'
  | step_work i wd ev s' :
      work i wd s = Some (Some ev, s') → step s [ev] s'
  | step_drained i wd s' :
      work i wd s = Some (None, s') → step s [] s'
  | step_quit i s' :
      quit i s = Some s' → step s [] s'
  | step_stop s' :
      Stop s = Some s' → step s [] s'.

Inductive steps : Server → list event → Server → Prop :=
  | steps_refl s : steps s [] s
  | steps_cons s evs s1 evs' s2 :
      step s evs s1 → steps s1 evs' s2 → steps s (evs ++ evs') s2.

(** ** The sequential specification: one dictionary, one command at a time *)

(** Nobody else uses the pool. *)
Fixpoint legal (D : Dict.Dict) (p : LruEvictionPool) (tr : list event) : Prop :=
  match tr with
  | [] => True
  | ev :: tr =>
      let '(reply, (D', p')) :=
        ExecuteAndResponse cfg (alone (ev_world ev)) (Command_ (ev_task ev)) (D, p) in
      reply = ev_reply ev ∧ legal D' p' tr
  end.

End Work.

(** ** Reading commands

    A read takes at most 512 of the bytes [avail] the client has sent into a
    zeroed buffer of that size. *)

Section Read.
Context (unicode_upper : Z → Z).

Definition zeros (data : bytes) : bytes := replicate (512 - length data) (chr 0).

(** The whole buffer is parsed, not only the bytes read. *)
Definition readCommand (r : bytes + bytes) : outcome (bytes + Command) :=
  match r with
  | inl err => Ret (inl err)
  | inr avail =>
      let data := take 512 avail in
      if decide (data = []) then Ret (inl (bs "EOF"))
      else ParseCmd unicode_upper (Slice.of_bytes (data ++ zeros data))
  end.

(** [core.ParseCmd(buf[:n])]: the rest of the buffer is spare capacity. *)
Definition readCommandConn (r : bytes + bytes) : outcome (bytes + Command) :=
  match r with
  | inl err => Ret (inl err)
  | inr avail =>
      let data := take 512 avail in
      ParseCmd unicode_upper (Slice.mk data (zeros data))
  end.

End Read.

(** ** Routing is total and in range *)

Lemma u32_range z : 0 <= u32 z < two32.
Proof. unfold u32, two32. apply Z.mod_pos_bound. lia. Qed.

Lemma fnv32a_range key : 0 <= fnv32a key < two32.
Proof.
  unfold fnv32a. assert (H : 0 <= 2166136261 < two32) by (unfold two32; lia).
  revert H. generalize 2166136261. induction key as [|c key IH]; intros h Hh; cbn [fold_left]; [done|].
  apply IH. unfold fnv_step. apply u32_range.
Qed.

(** The index of the worker that owns a key. *)
Definition owner (n : nat) (key : bytes) : nat := Z.to_nat (fnv32a key mod Z.of_nat n).

Lemma owner_lt n key : (0 < n)%nat → (owner n key < n)%nat.
Proof.
  intros Hn. unfold owner. pose proof (Z.mod_pos_bound (fnv32a key) (Z.of_nat n)). lia.
Qed.

Lemma getPartitionID_owner s key n :
  numWorkers s = Z.of_nat n → (0 < n)%nat → getPartitionID s key = Ret (Z.of_nat (owner n key)).
Proof.
  intros Hn Hp. unfold getPartitionID, owner. rewrite Hn, (proj2 (Z.eqb_neq _ 0)) by lia.
  pose proof (fnv32a_range key). pose proof (Z.mod_pos_bound (fnv32a key) (Z.of_nat n)).
  rewrite Z.rem_mod_nonneg by lia. f_equal. lia.
Qed.

(** ** The sharding invariant

    After [m] executed commands: worker [i] holds exactly the keys it owns,
    with the contents they have in the single dictionary [D], and every queued
    task waits at the owner of its key. *)

Record sharded (n m : nat) (s : Server) (D : Dict.Dict) : Prop := {
  sh_length : length (workers s) = n;
  sh_num : numWorkers s = Z.of_nat n;
  sh_size : (size (Dict.dictStore D) <= m)%nat;
  sh_worker i w : workers s !! i = Some w →
    (size (Dict.dictStore (dictStore w)) <= m)%nat ∧
    (∀ k, at_key (dictStore w) k = if decide (owner n k = i) then at_key D k else (None, None)) ∧
    ∀ t k, t ∈ TaskCh w → keyed (Command_ t) k → owner n k = i
}.

(** Changing one worker: the obligations are those of the new worker. *)
Lemma sharded_update n m s D i w w' p c r :
  sharded n m s D → workers s !! i = Some w → dictStore w' = dictStore w →
  (∀ t k, t ∈ TaskCh w' → keyed (Command_ t) k → owner n k = i) →
  sharded n m (mkServer (<[i := w']> (workers s)) (numWorkers s) p c r) D.
Proof.
  intros Hs Hi Hd Ht. split; cbn; [rewrite length_insert; apply Hs|apply Hs|apply Hs|].
  intros j v Hj. destruct (decide (j = i)) as [->|Hne].
  - rewrite list_lookup_insert_eq in Hj by (by eapply lookup_lt_Some).
    injection Hj as <-. destruct (sh_worker _ _ _ _ Hs i w Hi) as (H1 & H2 & _).
    rewrite Hd. by split_and!.
  - rewrite list_lookup_insert_ne in Hj by done. by apply (sh_worker _ _ _ _ Hs).
Qed.

(** The worker a shutdown step reaches. *)
Lemma Stop_inv s s' :
  Stop s = Some s' →
  ∃ i w, workers s !! i = Some w ∧ closed w = false ∧
         s' = with_workers s (<[i := Worker.Stop w]> (workers s)).
Proof.
  unfold Stop. destruct (stop_next (workers s)) as [ws'|] eqn:E; [|done]. intros [= <-].
  enough (∃ i w, workers s !! i = Some w ∧ closed w = false ∧ ws' = <[i := Worker.Stop w]> (workers s))
    as (i & w & H1 & H2 & ->) by eauto.
  revert ws' E. induction (workers s) as [|w ws IH]; intros ws' E; [done|]. cbn in E.
  destruct (closed w) eqn:Ec.
  - destruct (stopped w); [|done]. destruct (stop_next ws) as [ws1|]; [|done].
    injection E as <-. destruct (IH ws1 eq_refl) as (i & v & Hv & Hc & ->). by exists (S i), v.
  - injection E as <-. by exists 0%nat, w.
Qed.

(** A new server is sharded for the empty dictionary. *)
Lemma sharded_new numCPU :
  2 <= numCPU → sharded (Z.to_nat (numCPU / 2)) 0 (NewServer numCPU) Dict.CreateDict.
Proof.
  intros Hc. assert (E0 : size (Dict.dictStore Dict.CreateDict) = 0%nat) by apply map_size_empty.
  split; cbn [workers numWorkers NewServer].
  - by rewrite length_fmap, length_seq.
  - rewrite Z2Nat.id; [done|]. apply Z.div_pos; lia.
  - by rewrite E0.
  - intros i w Hi. rewrite list_lookup_fmap in Hi.
    destruct (seq 0 _ !! i); [|done]. injection Hi as <-. cbn [dictStore TaskCh Start NewWorker].
    split_and!; [by rewrite E0| |].
    + intros k. unfold at_key. cbn. by case_decide.
    + intros t k Ht. by apply not_elem_of_nil in Ht.
Qed.

Lemma send_inv s i t s' :
  send s i t = Ret (Some s') →
  ∃ w, 0 <= i ∧ workers s !! Z.to_nat i = Some w ∧ closed w = false ∧
       s' = with_workers s (<[Z.to_nat i := push_task w t]> (workers s)).
Proof.
  unfold send. destruct (Z.ltb_spec i 0); [done|].
  destruct (workers s !! _) as [w|]; [|done]. destruct (closed w) eqn:E; [done|].
  case_match; [done|]. intros [= <-]. eauto.
Qed.

Lemma push_sharded n m s D i t s' :
  sharded n m s D → send s i t = Ret (Some s') →
  (∀ k, keyed (Command_ t) k → owner n k = Z.to_nat i) → sharded n m s' D.
Proof.
  intros Hs E Hk. apply send_inv in E as (w & Hi & Hw & _ & ->).
  eapply sharded_update; [done|exact Hw|done|]. intros t' k Ht Hc. cbn in Ht.
  apply elem_of_app in Ht as [Ht|Ht%list_elem_of_singleton].
  - destruct (sh_worker _ _ _ _ Hs _ _ Hw) as (_ & _ & H). eauto.
  - subst. auto.
Qed.

Lemma submit_sharded n m s D choice cmd s' :
  (0 < n)%nat → sharded n m s D → submit choice cmd s = Ret (Some s') → sharded n m s' D.
Proof.
  intros Hn Hs. unfold submit, dispatch. cbn [Command_].
  set (s0 := mkServer _ _ _ _ _). assert (H0 : sharded n m s0 D) by (by destruct Hs).
  destruct (Args cmd) as [|key args] eqn:Ea.
  - case_match; [done|]. intros E. eapply push_sharded; [exact H0|exact E|].
    intros k Hk. unfold keyed in Hk. cbn in Hk. by rewrite Ea in Hk.
  - rewrite (getPartitionID_owner s0 key n) by (done || apply Hs). cbn. intros E.
    eapply push_sharded; [exact H0|exact E|]. intros k Hk. unfold keyed in Hk. cbn in Hk.
    rewrite Ea in Hk. injection Hk as <-. by rewrite Nat2Z.id.
Qed.

Section Simulation.
Context `{!Sorter Less} (cfg : config).

(** One executed command: the worker's reply is the reply of the single
    dictionary, and the invariant holds again. *)
Lemma work_sharded n m s D p i wd ev s' :
  sharded n m s D → Z.of_nat m < MaxKeyNumber cfg → work cfg i wd s = Some (Some ev, s') →
  ∃ D' p', ExecuteAndResponse cfg (alone (ev_world ev)) (Command_ (ev_task ev)) (D, p) =
             (ev_reply ev, (D', p')) ∧ sharded n (S m) s' D'.
Proof.
  intros Hs Hm. unfold work. destruct (workers s !! i) as [w|] eqn:Hw; [|done]. cbn.
  destruct (stopped w); [done|]. destruct (TaskCh w) as [|t rest] eqn:Et; [by case_match|].
  destruct (sh_worker _ _ _ _ Hs i w Hw) as (Hsz & Hat & Ht).
  assert (Hown : ∀ k, keyed (Command_ t) k → owner n k = i).
  { intros k. apply Ht. rewrite Et. left. }
  assert (HszD : Z.of_nat (size (Dict.dictStore D)) < MaxKeyNumber cfg)
    by (pose proof (sh_size _ _ _ _ Hs); lia).
  assert (HszW : Z.of_nat (size (Dict.dictStore (dictStore w))) < MaxKeyNumber cfg) by lia.
  destruct (execute_at cfg wd (Command_ t) (dictStore w) (ePool s) D p HszW HszD) as [Hr Hk].
  { intros k Hk. rewrite Hat, decide_True by auto. done. }
  pose proof (execute_size cfg wd (Command_ t) (dictStore w) (ePool s) HszW) as S1.
  pose proof (execute_size cfg wd (Command_ t) D p HszD) as S2.
  pose proof (λ k, execute_other cfg wd (Command_ t) (dictStore w) (ePool s) k HszW) as O1.
  pose proof (λ k, execute_other cfg wd (Command_ t) D p k HszD) as O2.
  destruct (ExecuteAndResponse cfg wd (Command_ t) (dictStore w, ePool s)) as [r [d1 p1]].
  destruct (ExecuteAndResponse cfg wd (Command_ t) (D, p)) as [r' [D1 q1]] eqn:ED.
  cbn in Hr, Hk, S1, S2, O1, O2. subst r'. intros [= <- <-]. exists D1, q1.
  split; [by rewrite <- execute_alone by (by apply pool_unused)|].
  pose proof (sh_size _ _ _ _ Hs).
  assert (Hkey : ∀ k, keyed (Command_ t) k ∨ ~ keyed (Command_ t) k)
    by (intros k; unfold keyed; destruct (decide (head (Args (Command_ t)) = Some k)); auto).
  split; cbn; [rewrite length_insert; apply Hs|apply Hs|lia|].
  intros j v Hj. destruct (decide (j = i)) as [->|Hne].
  - rewrite list_lookup_insert_eq in Hj by (by eapply lookup_lt_Some).
    injection Hj as <-. cbn. split_and!; [lia| |].
    + intros k. destruct (Hkey k) as [Hc|Hc].
      * rewrite decide_True by auto. by apply Hk.
      * rewrite (O1 k Hc), (O2 k Hc). apply Hat.
    + intros t' k Hin. apply Ht. rewrite Et. by right.
  - rewrite list_lookup_insert_ne in Hj by done.
    destruct (sh_worker _ _ _ _ Hs j v Hj) as (Hsz' & Hat' & Ht'). split_and!; [lia| |done].
    intros k. rewrite Hat'. case_decide as Ho; [|done]. symmetry. apply O2. intros Hc.
    apply Hne. by rewrite <- Ho, Hown.
Qed.

Lemma step_sharded n m s D p evs s' :
  (0 < n)%nat → sharded n m s D → Z.of_nat (m + length evs) <= MaxKeyNumber cfg →
  step cfg s evs s' →
  ∃ D' p', sharded n (m + length evs) s' D' ∧
    ∀ tr, legal cfg D' p' tr → legal cfg D p (evs ++ tr).
Proof.
  intros Hn Hs Hm Hst.
  destruct Hst as [choice cmd s' Hc E|i wd ev s' E|i wd s' E|i s' E|s' E]; cbn [length] in *.
  - exists D, p. rewrite Nat.add_0_r. split; [|done]. by eapply submit_sharded.
  - destruct (work_sharded n m s D p i wd ev s' Hs ltac:(lia) E) as (D' & p' & Ex & Hs').
    exists D', p'. split; [by rewrite Nat.add_1_r|]. intros tr Htr. cbn. by rewrite Ex.
  - exists D, p. rewrite Nat.add_0_r. split; [|done]. unfold work in E.
    destruct (workers s !! i) as [w|] eqn:Hw; [|done]. cbn in E. destruct (stopped w); [done|].
    destruct (TaskCh w) eqn:Et; [|by repeat case_match].
    destruct (closed w); [|done]. injection E as <-.
    eapply sharded_update; [done|exact Hw|done|]. intros t k Ht. by apply not_elem_of_nil in Ht.
  - exists D, p. rewrite Nat.add_0_r. split; [|done]. unfold quit in E.
    destruct (workers s !! i) as [w|] eqn:Hw; [|done]. cbn in E.
    case_match; [|done]. injection E as <-.
    eapply sharded_update; [done|exact Hw|done|]. cbn. intros t k Ht Hk.
    destruct (sh_worker _ _ _ _ Hs i w Hw) as (_ & _ & H'). eauto.
  - exists D, p. rewrite Nat.add_0_r. split; [|done]. apply Stop_inv in E as (i & w & Hw & _ & ->).
    eapply sharded_update; [done|exact Hw|done|]. apply (sh_worker _ _ _ _ Hs i w Hw).
Qed.

Lemma steps_sharded n m s D p evs s' :
  (0 < n)%nat → sharded n m s D → Z.of_nat (m + length evs) <= MaxKeyNumber cfg →
  steps cfg s evs s' →
  legal cfg D p evs ∧ ∃ D', sharded n (m + length evs) s' D'.
Proof.
  intros Hn Hs Hm Hst. revert m D p Hs Hm.
  induction Hst as [s|s evs s1 evs' s2 Hst _ IH]; intros m D p Hs Hm.
  { cbn. rewrite Nat.add_0_r. split; [done|]. by exists D. }
  rewrite length_app in *.
  destruct (step_sharded n m s D p evs s1 Hn Hs) as (D1 & p1 & Hs1 & Hl); [lia|done|].
  destruct (IH (m + length evs)%nat D1 p1 Hs1) as (Hleg & D2 & Hs2); [lia|].
  split; [by apply Hl|]. exists D2. by rewrite Nat.add_assoc.
Qed.

(** C3: up to the key limit sharding is invisible: on a machine with at least two
    cores, in a run of no more commands than there may be keys ([MaxKeyNumber], so
    that no worker evicts), whatever way the I/O handlers, the workers and a
    shutdown interleave, the replies the workers send are those of a single
    dictionary that executes the same commands one at a time in the order the
    workers did, and afterwards every worker holds exactly the keys it owns. *)
Theorem sharding_linearizable numCPU evs s' :
  2 <= numCPU → Z.of_nat (length evs) <= MaxKeyNumber cfg →
  steps cfg (NewServer numCPU) evs s' →
  legal cfg Dict.CreateDict ePool_init evs ∧
  ∃ D, ∀ i w k, workers s' !! i = Some w →
    at_key (dictStore w) k =
    if decide (owner (Z.to_nat (numCPU / 2)) k = i) then at_key D k else (None, None).
Proof.
  intros Hc Hm Hst.
  assert (Hn : (0 < Z.to_nat (numCPU / 2))%nat).
  { assert (1 <= numCPU / 2) by (apply Z.div_le_lower_bound; lia). lia. }
  destruct (steps_sharded _ 0 _ _ ePool_init evs s' Hn (sharded_new numCPU Hc) Hm Hst)
    as (Hl & D & HD).
  split; [done|]. exists D. intros i w k Hi. apply (sh_worker _ _ _ _ HD i w Hi).
Qed.

End Simulation.

Lemma steps_app `{!Sorter Less} cfg s evs s1 evs' s2 :
  steps cfg s evs s1 → steps cfg s1 evs' s2 → steps cfg s (evs ++ evs') s2.
Proof.
  intros H1 H2. induction H1 as [|s evs1 s1 evs2 s2' Hs _ IH]; [done|].
  rewrite <- app_assoc. econstructor; eauto.
Qed.

(** ** Every task is answered at most once, and waits or was answered *)

Definition queue (w : Worker) : list nat := ReplyCh <$> TaskCh w.
Definition queued (s : Server) : list nat := concat (queue <$> workers s).
Definition answered (s : Server) : list nat := (map_to_list (replies s)).*1.

(** The reply channels made so far are split between waiting and answered. *)
Definition conserved (s : Server) : Prop :=
  queued s ++ answered s ≡ₚ seq 0 (next_ch s).

Lemma queued_insert ws i w w' :
  ws !! i = Some w →
  concat (queue <$> <[i := w']> ws) ++ queue w ≡ₚ concat (queue <$> ws) ++ queue w'.
Proof.
  revert i. induction ws as [|v ws IH]; intros [|i] Hi; try done; cbn in *.
  - injection Hi as ->. rewrite <- !app_assoc, (Permutation_app_comm (queue w')), <- app_assoc.
    apply Permutation_app_swap_app.
  - rewrite <- !app_assoc. by rewrite (IH i Hi).
Qed.

(** The same with both queues known. *)
Lemma queued_update s i w w' :
  workers s !! i = Some w → queue w' = queue w →
  queued (with_workers s (<[i := w']> (workers s))) ≡ₚ queued s.
Proof.
  intros Hi Hq. pose proof (queued_insert (workers s) i w w' Hi) as H. rewrite Hq in H.
  by apply Permutation_app_inv_r in H.
Qed.

Lemma conserved_submit choice cmd s s' :
  conserved s → submit choice cmd s = Ret (Some s') → conserved s'.
Proof.
  intros Hc. unfold submit, dispatch. cbn [Command_]. set (s0 := mkServer _ _ _ _ _).
  set (t := mkTask cmd (next_ch s)). intros E.
  assert (∃ i, send s0 i t = Ret (Some s')) as [i Hi].
  { destruct (Args cmd); [case_match; eauto; done|].
    destruct (getPartitionID s0 _); [eauto|done..]. }
  clear E. apply send_inv in Hi as (w & _ & Hw & _ & ->). unfold conserved, answered, queued in *.
  cbn [workers replies next_ch with_workers s0] in *.
  pose proof (queued_insert (workers s) _ w (push_task w t) Hw) as H.
  unfold queue in H at 4. cbn in H. rewrite fmap_app in H. fold (queue w) in H.
  rewrite (Permutation_app_comm (queue w)), app_assoc in H. apply Permutation_app_inv_r in H.
  rewrite seq_S, H, <- Hc. cbn. by rewrite <- !app_assoc, (Permutation_app_comm [_]).
Qed.

Section Conservation.
Context `{!Sorter Less} (cfg : config).

Lemma conserved_work i wd ev s s' :
  conserved s → work cfg i wd s = Some (Some ev, s') →
  conserved s' ∧ replies s' = <[ReplyCh (ev_task ev) := ev_reply ev]> (replies s) ∧
  replies s !! ReplyCh (ev_task ev) = None.
Proof.
  intros Hc. unfold work. destruct (workers s !! i) as [w|] eqn:Hw; [|done]. cbn.
  destruct (stopped w); [done|]. destruct (TaskCh w) as [|t rest] eqn:Et; [by case_match|].
  destruct (ExecuteAndResponse _ _ _ _) as [r [d p]]. intros [= <- <-]. cbn.
  set (w' := mkWorker _ _ _ _ _ _ _).
  pose proof (queued_insert (workers s) i w w' Hw) as Hq. unfold queue in Hq at 2 4.
  rewrite Et in Hq. cbn in Hq. rewrite (Permutation_app_comm _ (_ :: _)) in Hq. cbn in Hq.
  rewrite (Permutation_app_comm (ReplyCh <$> rest)), app_comm_cons in Hq.
  apply Permutation_app_inv_r in Hq.
  assert (Hn : replies s !! ReplyCh t = None).
  { unfold conserved, queued in Hc. rewrite <- Hq in Hc.
    assert (HN : NoDup (seq 0 (next_ch s))) by apply NoDup_seq. rewrite <- Hc in HN.
    cbn in HN. apply NoDup_cons in HN as [HN _]. apply not_elem_of_app in HN as [_ HN].
    destruct (replies s !! ReplyCh t) as [x|] eqn:Ex; [|done]. exfalso. apply HN.
    apply list_elem_of_fmap. exists (ReplyCh t, x). split; [done|]. by apply elem_of_map_to_list. }
  split_and!; [|done..]. unfold conserved, queued, answered. cbn [workers replies next_ch].
  rewrite map_to_list_insert by done. cbn. rewrite <- Permutation_middle, app_comm_cons, Hq.
  exact Hc.
Qed.

Lemma conserved_step s evs s' :
  conserved s → step cfg s evs s' →
  conserved s' ∧ (∀ ev, ev ∈ evs → replies s' !! ReplyCh (ev_task ev) = Some (ev_reply ev)) ∧
  replies s ⊆ replies s'.
Proof.
  intros Hc Hst. destruct Hst as [choice cmd s' _ E|i wd ev s' E|i wd s' E|i s' E|s' E].
  - split_and!; [by eapply conserved_submit| |].
    + intros ev Hev. by apply not_elem_of_nil in Hev.
    + unfold submit, dispatch in E. destruct (Args _);
        [case_match; [done|]|destruct (getPartitionID _ _); [|done..]];
        apply send_inv in E as (? & _ & _ & _ & ->); done.
  - destruct (conserved_work i wd ev s s' Hc E) as (H1 & H2 & H3). split_and!; [done| |].
    + intros ev' ->%list_elem_of_singleton. by rewrite H2, lookup_insert_eq.
    + rewrite H2. by apply insert_subseteq.
  - unfold work in E. destruct (workers s !! i) as [w|] eqn:Hw; [|done]. cbn in E.
    destruct (stopped w); [done|]. destruct (TaskCh w) eqn:Et; [|by repeat case_match].
    destruct (closed w); [|done]. injection E as <-. split_and!; [| |done].
    + unfold conserved. rewrite (queued_update s i w); [done|done|]. unfold queue. by rewrite Et.
    + intros ev Hev. by apply not_elem_of_nil in Hev.
  - unfold quit in E. destruct (workers s !! i) as [w|] eqn:Hw; [|done]. cbn in E.
    case_match; [|done]. injection E as <-. split_and!; [| |done].
    + unfold conserved. by rewrite (queued_update s i w).
    + intros ev Hev. by apply not_elem_of_nil in Hev.
  - apply Stop_inv in E as (i & w & Hw & _ & ->). split_and!; [| |done].
    + unfold conserved. by rewrite (queued_update s i w).
    + intros ev Hev. by apply not_elem_of_nil in Hev.
Qed.

Lemma conserved_steps s evs s' :
  conserved s → steps cfg s evs s' →
  conserved s' ∧ (∀ ev, ev ∈ evs → replies s' !! ReplyCh (ev_task ev) = Some (ev_reply ev)) ∧
  replies s ⊆ replies s'.
Proof.
  intros Hc Hst. induction Hst as [s|s evs s1 evs' s2 Hst _ IH].
  { split_and!; [done| |done]. intros ev Hev. by apply not_elem_of_nil in Hev. }
  destruct (conserved_step s evs s1 Hc Hst) as (H1 & H2 & H3).
  destruct (IH H1) as (H4 & H5 & H6). split_and!; [done| |by etrans].
  intros ev [Hev|Hev]%elem_of_app; [|by apply H5]. eapply lookup_weaken; [by apply H2|done].
Qed.

(** Every event leaves one more reply. *)
Lemma replies_count s evs s' :
  conserved s → steps cfg s evs s' → size (replies s') = (size (replies s) + length evs)%nat.
Proof.
  intros Hc Hst. induction Hst as [s|s evs s1 evs' s2 Hst _ IH]; [cbn; lia|].
  destruct (conserved_step s evs s1 Hc Hst) as (H1 & _ & _). rewrite (IH H1), length_app.
  enough (size (replies s1) = (size (replies s) + length evs)%nat) by lia. clear IH.
  destruct Hst as [choice cmd s' _ E|i wd ev s' E|i wd s' E|i s' E|s' E].
  - unfold submit, dispatch in E. destruct (Args _);
      [case_match; [done|]|destruct (getPartitionID _ _); [|done..]];
      apply send_inv in E as (? & _ & _ & _ & ->); cbn; lia.
  - destruct (conserved_work i wd ev s s' Hc E) as (_ & H2 & H3). rewrite H2, map_size_insert_None by done.
    cbn. lia.
  - unfold work in E. destruct (workers s !! i) as [w|]; [|done]. cbn in E. destruct (stopped w); [done|].
    destruct (TaskCh w); [|by destruct (ExecuteAndResponse _ _ _ _) as [? []]]. case_match; [|done].
    injection E as <-. cbn. lia.
  - unfold quit in E. destruct (workers s !! i) as [w|]; [|done]. cbn in E. case_match; [|done].
    injection E as <-. cbn. lia.
  - apply Stop_inv in E as (? & ? & _ & _ & ->). cbn. lia.
Qed.

Lemma conserved_new numCPU : conserved (NewServer numCPU).
Proof.
  unfold conserved, queued, answered. cbn. rewrite map_to_list_empty. cbn.
  rewrite app_nil_r, <- list_fmap_compose.
  induction (seq 0 _) as [|i l IH]; [done|]. exact IH.
Qed.

(** C21: no task is lost, duplicated or answered twice: in every reachable
    state each reply channel ever made is either in exactly one queue or has
    exactly one reply, which is the one its worker produced; replies never
    change afterwards. *)
Theorem tasks_conserved numCPU evs s' evs' s'' :
  steps cfg (NewServer numCPU) evs s' → steps cfg s' evs' s'' →
  queued s' ++ answered s' ≡ₚ seq 0 (next_ch s') ∧ NoDup (queued s' ++ answered s') ∧
  (∀ ev, ev ∈ evs → replies s' !! ReplyCh (ev_task ev) = Some (ev_reply ev)) ∧
  replies s' ⊆ replies s''.
Proof.
  intros H1 H2. destruct (conserved_steps _ _ _ (conserved_new numCPU) H1) as (Hc & Hr & _).
  destruct (conserved_steps _ _ _ Hc H2) as (_ & _ & Hsub).
  split_and!; [done| |done|done]. unfold conserved in Hc. rewrite Hc. apply NoDup_seq.
Qed.

(** ** Shutdown *)

Definition dead (w : Worker) : Prop :=
  stopped w = true ∧ closed w = true ∧ cancelled w = true.

Lemma dead_step s evs s' i w :
  workers s !! i = Some w → dead w → step cfg s evs s' → workers s' !! i = Some w.
Proof.
  intros Hi (Hst & Hcl & Hca) Hs.
  assert (Hother : ∀ j v v', workers s !! j = Some v → stopped v = false ∨ closed v = false →
            <[j := v']> (workers s) !! i = Some w).
  { intros j v v' Hj Hv. rewrite list_lookup_insert_ne; [done|]. intros ->.
    rewrite Hi in Hj. injection Hj as <-. destruct Hv; congruence. }
  destruct Hs as [choice cmd s' _ E|j wd ev s' E|j wd s' E|j s' E|s' E].
  - unfold submit, dispatch in E. destruct (Args _);
      [case_match; [done|]|destruct (getPartitionID _ _); [|done..]];
      apply send_inv in E as (v & _ & Hv & Hnc & ->); cbn; eapply Hother; eauto.
  - unfold work in E. destruct (workers s !! j) as [v|] eqn:Hv; [|done]. cbn in E.
    destruct (stopped v) eqn:Es; [done|]. destruct (TaskCh v); [by case_match|].
    destruct (ExecuteAndResponse _ _ _ _) as [r [d p]]. injection E as _ <-. cbn. eauto.
  - unfold work in E. destruct (workers s !! j) as [v|] eqn:Hv; [|done]. cbn in E.
    destruct (stopped v) eqn:Es; [done|]. destruct (TaskCh v); [|by repeat case_match].
    destruct (closed v); [|done]. injection E as <-. cbn. eauto.
  - unfold quit in E. destruct (workers s !! j) as [v|] eqn:Hv; [|done]. cbn in E.
    destruct (stopped v) eqn:Es; [done|]. cbn in E. destruct (cancelled v); [|done].
    injection E as <-. cbn. eauto.
  - apply Stop_inv in E as (j & v & Hv & Hnc & ->). cbn. eauto.
Qed.

(** A shutdown strands tasks: the select of a cancelled worker may leave
    its loop with tasks still queued; these are never answered, whatever
    happens later, so the handlers that wait for the replies hang. *)
Lemma shutdown_strands_tasks numCPU evs s i w t evs' s' :
  steps cfg (NewServer numCPU) evs s → workers s !! i = Some w → dead w → t ∈ TaskCh w →
  steps cfg s evs' s' → replies s' !! ReplyCh t = None.
Proof.
  intros H1 Hi Hd Ht H2.
  destruct (conserved_steps _ _ _ (conserved_new numCPU) H1) as (Hc & _ & _).
  destruct (conserved_steps _ _ _ Hc H2) as (Hc' & _ & _).
  assert (Hi' : workers s' !! i = Some w).
  { clear Hc Hc' H1. induction H2 as [|s evs1 s1 evs2 s2 Hs _ IH]; [done|].
    apply IH. by eapply dead_step. }
  assert (HN : NoDup (queued s' ++ answered s')) by (unfold conserved in Hc'; rewrite Hc'; apply NoDup_seq).
  apply NoDup_app in HN as (_ & HN & _).
  destruct (replies s' !! ReplyCh t) as [x|] eqn:E; [|done]. exfalso. apply (HN (ReplyCh t)).
  - apply list_elem_of_In, in_concat. exists (queue w). split.
    + apply list_elem_of_In, list_elem_of_fmap. exists w. split; [done|].
      by eapply list_elem_of_lookup_2.
    + apply list_elem_of_In. unfold queue. apply list_elem_of_fmap. eauto.
  - apply list_elem_of_fmap. exists (ReplyCh t, x). split; [done|]. by apply elem_of_map_to_list.
Qed.

End Conservation.

(** A dispatch that meets the shutdown crashes the process: once the
    channel of a key's owner is closed, sending a command for that key panics. *)
Lemma dispatch_after_stop s choice name key args w :
  0 < numWorkers s → Z.of_nat (length (workers s)) = numWorkers s →
  workers s !! owner (length (workers s)) key = Some w → closed w = true →
  submit choice (mkCommand name (key :: args)) s = Panic SendOnClosed.
Proof.
  intros Hn Hl Hw Hc. unfold submit, dispatch. cbn [Command_ Args].
  rewrite (getPartitionID_owner _ key (length (workers s))) by (cbn; lia). cbn [mbind outcome_bind].
  unfold send. rewrite (proj2 (Z.ltb_ge _ 0)) by lia. rewrite Nat2Z.id. cbn [workers].
  by rewrite Hw, Hc.
Qed.

(** C11: a command of at most 512 bytes that arrives in one read is read back
    by both servers as the command that was sent: name in upper case, arguments
    byte for byte; the zero bytes behind it in the buffer do no harm. *)
Theorem read_command_roundtrip up p ps :
  encodable_strs (p :: ps) → (length (encode_command (p :: ps)) <= 512)%nat →
  readCommand up (inr (encode_command (p :: ps))) =
    Ret (inr (mkCommand (Strings.ToUpper up p) ps)) ∧
  readCommandConn up (inr (encode_command (p :: ps))) =
    Ret (inr (mkCommand (Strings.ToUpper up p) ps)).
Proof.
  intros He Hl. unfold readCommand, readCommandConn, Slice.of_bytes. rewrite take_ge by done.
  split.
  - rewrite decide_False.
    + by apply ParseCmd_encode_command.
    + unfold encode_command. cbn. unfold len_line. cbn. done.
  - rewrite <- (app_nil_r (encode_command (p :: ps))) at 1. by apply ParseCmd_encode_command.
Qed.

(** ** Witnesses: two workers, a SET and a GET of one key, then a shutdown *)

Definition demo_world (ms : Z) : world := Core.mkWorld (λ _, ms) [] (λ _, []) [] None.
Definition demo_set : Command := mkCommand (bs "SET") [bs "a"; bs "v"].
Definition demo_get : Command := mkCommand (bs "GET") [bs "a"].

Definition submitted (cmd : Command) (s : Server) : Server :=
  match submit 0 cmd s with Ret (Some s') => s' | _ => s end.
Definition worked (i : nat) (s : Server) : Server :=
  match work Config.default i (demo_world 1) s with Some (_, s') => s' | _ => s end.
Definition event_of (i : nat) (s : Server) : list event :=
  match work Config.default i (demo_world 1) s with Some (Some ev, _) => [ev] | _ => [] end.

Definition demo0 : Server := NewServer 4.
Definition demo1 : Server := submitted demo_get (submitted demo_set demo0).
Definition demo_i : nat := owner 2 (bs "a").
Definition demo2 : Server := worked demo_i demo1.
Definition demo3 : Server := match Stop demo2 with Some s => s | None => demo2 end.
Definition demo4 : Server :=
  match quit demo_i demo3 with Some s => s | None => demo3 end.

Lemma demo_steps1 : steps Config.default demo0 (event_of demo_i demo1) demo2.
Proof.
  change (event_of demo_i demo1) with ([] ++ [] ++ event_of demo_i demo1 ++ []).
  eapply steps_cons; [|eapply steps_cons; [|eapply steps_cons; [|apply steps_refl]]].
  - apply (step_submit _ _ 0 demo_set (submitted demo_set demo0));
      [split; vm_compute; congruence|vm_compute; reflexivity].
  - apply (step_submit _ _ 0 demo_get demo1);
      [split; vm_compute; congruence|vm_compute; reflexivity].
  - eapply (step_work _ _ demo_i (demo_world 1)). vm_compute. reflexivity.
Qed.

Lemma demo_steps2 : steps Config.default demo2 [] demo4.
Proof.
  change (@nil event) with (@nil event ++ [] ++ []).
  eapply steps_cons; [apply (step_stop _ _ demo3); vm_compute; reflexivity|eapply steps_cons; [|apply steps_refl]].
  apply (step_quit _ _ demo_i). vm_compute. reflexivity.
Qed.

Lemma sharding_linearizable_witness :
  legal Config.default Dict.CreateDict ePool_init (event_of demo_i demo1).
Proof.
  apply (sharding_linearizable Config.default 4 (event_of demo_i demo1) demo2);
    [lia|vm_compute; congruence|exact demo_steps1].
Defined.

Lemma tasks_conserved_witness : NoDup (queued demo2 ++ answered demo2).
Proof.
  exact (proj1 (proj2 (tasks_conserved Config.default 4 (event_of demo_i demo1) demo2 [] demo4
                         demo_steps1 demo_steps2))).
Defined.

Lemma shutdown_strands_tasks_witness :
  ∃ w, workers demo4 !! demo_i = Some w ∧ TaskCh w = [mkTask demo_get 1] ∧
       replies demo4 !! 1%nat = None.
Proof.
  destruct (workers demo4 !! demo_i) as [w|] eqn:E; [|vm_compute in E; congruence].
  exists w. assert (H : TaskCh w = [mkTask demo_get 1] ∧ dead w).
  { vm_compute in E. injection E as <-. repeat split. }
  destruct H as [Ht Hd]. split; [reflexivity|]. split; [exact Ht|].
  exact (shutdown_strands_tasks Config.default 4 _ demo4 demo_i w (mkTask demo_get 1) [] demo4
           (steps_app _ _ _ _ _ _ demo_steps1 demo_steps2) E Hd
           ltac:(rewrite Ht; left) (steps_refl _ demo4)).
Defined.

Lemma dispatch_after_stop_witness : submit 0 demo_set demo3 = Panic SendOnClosed.
Proof.
  destruct (workers demo3 !! demo_i) as [w|] eqn:E; [|vm_compute in E; congruence].
  apply (dispatch_after_stop demo3 0 (bs "SET") (bs "a") [bs "v"] w);
    [vm_compute; reflexivity..|exact E|]. vm_compute in E. injection E as <-. reflexivity.
Defined.

Lemma read_command_roundtrip_witness :
  readCommandConn (λ r, r) (inr (encode_command [bs "get"; bs "a"])) =
  Ret (inr (mkCommand (bs "GET") [bs "a"])).
Proof.
  apply (read_command_roundtrip (λ r, r) (bs "get") [bs "a"]).
  - split; [vm_compute; congruence|]. repeat constructor; vm_compute; congruence.
  - apply (bool_decide_unpack _). vm_compute. exact I.
Defined.

End Server.
