(* ===== verification/EventLoop.v ===== *)
(** * The single-threaded server
    ([RunIoMultiplexingServer] and [WaitForSignal] of src/internal/server/server.go)

    One goroutine runs the event loop, another one waits for a signal; they
    share the atomic word [serverStatus].  A program counter names the places
    of the loop between two atomic accesses, and a step of the system is what
    the loop does from one place to the next ([main]), the return of a blocked
    [Wait], which is up to the kernel ([wakes]), or the delivery of the signal.
    What the kernel answers to the other calls (an accept, a read, a write) is
    part of the loop's step.  [interest] is the interest list of the multiplexer and [clients] are
    the open client descriptors. *)

From Stdlib Require Import ZArith Lia Ascii.
From stdpp Require Import base gmap list strings numbers sorting sets fin_maps.
From S2P Require Import Prelude GoStrings Resp GoFloat Config EvictionPool Dict Commands Iomux Worker Server.

Module EventLoop.
Import Resp Config EvictionPool Core Iomux.
Import Server(readCommand).

(** ** State *)

Inductive place :=
  | LoopTest                      (** the condition of the outer loop *)
  | ExpireDue                     (** is the last expiry cycle 100 ms ago? *)
  | ExpireCas | ExpireLoad        (** Idle to Running, or else test for Shutdown *)
  | Expire | ExpireSwap | ExpireStamp
  | Waiting                       (** in [ioMultiplexer.Wait] *)
  | BusyCas (evs : list Event)
  | BusyLoad (evs : list Event)
  | Busy (evs : list Event)       (** [for i < len(events)] *)
  | Client (fd : Z) (evs : list Event)   (** the Shutdown test before a read *)
  | Serve (fd : Z) (evs : list Event)
  | BusySwap
  | Returned
  | Fatal.                        (** [log.Fatal], or a panic of a handler *)

Record loop := mkLoop {
  serverStatus : Z;
  pc : place;
  keys : store;
  lastActiveExpire : Z;
  interest : gset Z;
  clients : gset Z;
  written : list (Z * bytes);
  signalled : bool
}.

(** Before the loop: the listener is monitored. *)
Definition start (serverFd now : Z) : loop :=
  mkLoop Constant.ServerStatusIdle LoopTest init now {[ serverFd ]} ∅ [] false.

(** What comes before the loop, with the kernel's answers: [listen] to
    [net.Listen], [tcp] to the type assertion, [file] to [tcpListener.File]
    (with the descriptor), [mux] to [CreateIOMultiplexer], [monitor] to the
    first [Monitor]; the message of a [log.Fatal], or the loop's first state. *)
Definition boot (listen : option bytes) (tcp : bool) (file : bytes + Z) (mux monitor : option bytes)
    (now : Z) : bytes + Z * loop :=
  match listen with
  | Some err => inl err
  | None =>
      if negb tcp then inl (bs "listener is not a TCPListener")
      else
        match file with
        | inl err => inl err
        | inr serverFd =>
            match mux with
            | Some err => inl err
            | None =>
                match monitor with
                | Some err => inl err
                | None => inr (serverFd, start serverFd now)
                end
            end
        end
  end.

Definition at_ (l : loop) (p : place) : loop :=
  mkLoop (serverStatus l) p (keys l) (lastActiveExpire l) (interest l) (clients l) (written l)
         (signalled l).
Definition status_to (l : loop) (v : Z) : loop :=
  mkLoop v (pc l) (keys l) (lastActiveExpire l) (interest l) (clients l) (written l) (signalled l).
Definition keys_to (l : loop) (s : store) : loop :=
  mkLoop (serverStatus l) (pc l) s (lastActiveExpire l) (interest l) (clients l) (written l)
         (signalled l).
Definition stamp (l : loop) (now : Z) : loop :=
  mkLoop (serverStatus l) (pc l) (keys l) now (interest l) (clients l) (written l) (signalled l).
Definition open_client (l : loop) (fd : Z) : loop :=
  mkLoop (serverStatus l) (pc l) (keys l) (lastActiveExpire l) ({[ fd ]} ∪ interest l)
         ({[ fd ]} ∪ clients l) (written l) (signalled l).
(** [Unmonitor] and [syscall.Close]: closing takes the descriptor off the
    interest list also when [Unmonitor] failed. *)
Definition close_client (l : loop) (fd : Z) : loop :=
  mkLoop (serverStatus l) (pc l) (keys l) (lastActiveExpire l) (interest l ∖ {[ fd ]})
         (clients l ∖ {[ fd ]}) (written l) (signalled l).
Definition write (l : loop) (fd : Z) (reply : bytes) : loop :=
  mkLoop (serverStatus l) (pc l) (keys l) (lastActiveExpire l) (interest l) (clients l)
         (written l ++ [(fd, reply)]) (signalled l).

Definition shutdown (l : loop) : bool := serverStatus l =? Constant.ServerStatusShutdown.

(** [atomic.CompareAndSwapInt32(&serverStatus, Idle, Running)] *)
Definition cas (l : loop) : bool * loop :=
  if serverStatus l =? Constant.ServerStatusIdle
  then (true, status_to l Constant.ServerStatusRunning) else (false, l).

(** [err == io.EOF || err == syscall.ECONNRESET] *)
Definition disconnected (err : bytes) : bool :=
  bool_decide (err = bs "EOF" ∨ err = bs "connection reset by peer").

Section Loop.
Context (math_Log : F64.float64 → F64.float64) (unicode_upper : Z → Z).
Context `{!Sorter Less} (cfg : config) (serverFd : Z).

(** The kernel's answers around one client event: the read, the write.  A
    descriptor of [syscall.Accept] blocks, so a write without an error took the
    whole reply. *)
Record answer := mkAnswer { a_read : bytes + bytes; a_write : option bytes; a_world : world }.

(** Lines 229 to 260: read a command, execute it, write the reply. *)
Definition serve (a : answer) (fd : Z) (evs : list Event) (l : loop) : loop :=
  match readCommand unicode_upper (a_read a) with
  | Ret (inl err) =>
      if disconnected err then at_ (close_client l fd) (Busy evs) else at_ l (Busy evs)
  | Ret (inr cmd) =>
      match ExecuteAndResponse math_Log cfg (a_world a) cmd (keys l) with
      | Ret (reply, s) =>
          match a_write a with
          | None => at_ (write (keys_to l s) fd reply) (Busy evs)
          | Some err => at_ (close_client (keys_to l s) fd) (Busy evs)
          end
      | _ => at_ l Fatal
      end
  | _ => at_ l Fatal
  end.

(** Lines 210 to 224: accept and monitor the new connection. *)
Definition accept (r : bytes + Z) (monitor : option bytes) (evs : list Event) (l : loop) : loop :=
  match r with
  | inl err => at_ l (Busy evs)
  | inr connFd =>
      match monitor with
      | Some err => at_ l Fatal
      | None => at_ (open_client l connFd) (Busy evs)
      end
  end.

(** Steps of the loop's goroutine. *)
Inductive main (l : loop) : loop → Prop :=
  | main_test :
      pc l = LoopTest → main l (at_ l (if shutdown l then Returned else ExpireDue))
  | main_due now :
      pc l = ExpireDue →
      main l (at_ l (if lastActiveExpire l + Constant.ActiveExpireFrequency <? now
                     then ExpireCas else Waiting))
  | main_expire_cas ok l' :
      pc l = ExpireCas → cas l = (ok, l') →
      main l (at_ l' (if (ok : bool) then Expire else ExpireLoad))
  | main_expire_load :
      pc l = ExpireLoad → main l (at_ l (if shutdown l then Returned else Expire))
  | main_expire ord clk d :
      pc l = Expire → ActiveDeleteExpiredKeys ord clk (dictStore (keys l)) = Ret d →
      main l (at_ (keys_to l (with_dict (keys l) d (ePool (keys l)))) ExpireSwap)
  | main_expire_swap :
      pc l = ExpireSwap → main l (at_ (status_to l Constant.ServerStatusIdle) ExpireStamp)
  | main_stamp now :
      pc l = ExpireStamp → main l (at_ (stamp l now) Waiting)
  | main_busy_cas evs ok l' :
      pc l = BusyCas evs → cas l = (ok, l') →
      main l (at_ l' (if (ok : bool) then Busy evs else BusyLoad evs))
  | main_busy_load evs :
      pc l = BusyLoad evs → main l (at_ l (if shutdown l then Returned else Busy evs))
  | main_accept e evs r monitor :
      pc l = Busy (e :: evs) → Fd e = serverFd →
      (∀ fd, r = inr fd → fd ≠ serverFd ∧ fd ∉ clients l) →
      main l (accept r monitor evs l)
  | main_client e evs :
      pc l = Busy (e :: evs) → Fd e ≠ serverFd → main l (at_ l (Client (Fd e) evs))
  | main_client_load fd evs :
      pc l = Client fd evs → main l (at_ l (if shutdown l then Returned else Serve fd evs))
  | main_serve fd evs a :
      pc l = Serve fd evs → main l (serve a fd evs l)
  | main_done :
      pc l = Busy [] → main l (at_ l BusySwap)
  | main_busy_swap :
      pc l = BusySwap → main l (at_ (status_to l Constant.ServerStatusIdle) LoopTest).

(** The returns of [ioMultiplexer.Wait]: it blocks without a timeout
    ([EpollWait] with -1) until the kernel has events for descriptors of the
    interest list, or answers an error (an interrupted call).  The loop does not
    take this step by itself. *)
Inductive wakes (l : loop) : loop → Prop :=
  | wait_error :
      pc l = Waiting → wakes l (at_ l LoopTest)
  | wait_events evs :
      pc l = Waiting → evs ≠ [] → NoDup (Fd <$> evs) → Forall (λ e, Fd e ∈ interest l) evs →
      wakes l (at_ l (BusyCas evs)).

(** [<-sigChan; ...; atomic.StoreInt32(&serverStatus, Shutdown)], once. *)
Definition signal (l : loop) : loop :=
  mkLoop Constant.ServerStatusShutdown (pc l) (keys l) (lastActiveExpire l) (interest l)
         (clients l) (written l) true.

Inductive step (l : loop) : loop → Prop :=
  | step_main l' : main l l' → step l l'
  | step_wakes l' : wakes l l' → step l l'
  | step_signal : signalled l = false → step l (signal l).

(** ** Descriptors *)

(** The events still to handle. *)
Definition pending (p : place) : list Z :=
  match p with
  | BusyCas evs | BusyLoad evs | Busy evs => Fd <$> evs
  | Client fd evs | Serve fd evs => fd :: (Fd <$> evs)
  | _ => []
  end.

Record fds_ok (l : loop) : Prop := {
  fds_listener : serverFd ∉ clients l;
  fds_interest : interest l ⊆ {[ serverFd ]} ∪ clients l;
  fds_nodup : NoDup (pending (pc l));
  fds_pending fd : fd ∈ pending (pc l) → fd = serverFd ∨ fd ∈ clients l;
  fds_client fd evs : pc l = Client fd evs ∨ pc l = Serve fd evs → fd ≠ serverFd
}.

(** Moving to a place with no new descriptor to handle. *)
Lemma fds_move l l' :
  fds_ok l → clients l' = clients l → interest l' = interest l →
  sublist (pending (pc l')) (pending (pc l)) →
  (∀ fd evs, pc l' = Client fd evs ∨ pc l' = Serve fd evs → fd ≠ serverFd) → fds_ok l'.
Proof.
  intros [H1 H2 H3 H4 H5] Ec Ei Hs Hc. split.
  - by rewrite Ec.
  - by rewrite Ec, Ei.
  - by eapply sublist_NoDup.
  - intros fd Hfd. rewrite Ec. apply H4. by eapply elem_of_sublist.
  - done.
Qed.

Lemma fds_close l fd evs :
  fds_ok l → pc l = Serve fd evs → ∀ s, fds_ok (at_ (close_client (keys_to l s) fd) (Busy evs)).
Proof.
  intros [H1 H2 H3 H4 H5] Ep s. rewrite Ep in H3, H4. cbn in H3, H4.
  apply NoDup_cons in H3 as [Hne H3]. split; cbn; [set_solver..|done| |naive_solver].
  intros fd' Hfd. destruct (H4 fd' ltac:(by right)) as [|Hc]; [by left|right].
  apply elem_of_difference. split; [done|]. intros ->%elem_of_singleton. done.
Qed.

Lemma cas_frame l ok l' :
  cas l = (ok, l') → pc l' = pc l ∧ clients l' = clients l ∧ interest l' = interest l ∧
  keys l' = keys l ∧ written l' = written l ∧ signalled l' = signalled l.
Proof. unfold cas. case_match; by intros [= <- <-]. Qed.

Lemma accept_fds r monitor e evs l :
  fds_ok l → pc l = Busy (e :: evs) →
  (∀ fd, r = inr fd → fd ≠ serverFd ∧ fd ∉ clients l) → fds_ok (accept r monitor evs l).
Proof.
  intros Hf Ep Hr. pose proof Hf as [H1 H2 H3 H4 H5]. rewrite Ep in H3, H4. cbn in H3, H4.
  apply NoDup_cons in H3 as [Hne H3].
  assert (Hmove : ∀ p, pending p = [] ∨ p = Busy evs → fds_ok (at_ l p)).
  { intros p Hp. apply (fds_move l); [done..| |].
    - cbn. rewrite Ep. cbn. destruct Hp as [->| ->]; [apply sublist_nil_l|by apply sublist_cons].
    - cbn. intros fd evs' [->| ->]; naive_solver. }
  destruct r as [err|fd]; cbn; [by apply Hmove; right|].
  destruct monitor; [by apply Hmove; left|]. destruct (Hr fd eq_refl) as [Hs Hc].
  split; cbn; [set_solver..|done| |naive_solver]. intros fd' Hfd. destruct (H4 fd'); set_solver.
Qed.

Lemma serve_fds a fd evs l : fds_ok l → pc l = Serve fd evs → fds_ok (serve a fd evs l).
Proof.
  intros Hf Ep.
  assert (Hmove : ∀ l' p, pending p = [] ∨ p = Busy evs → clients l' = clients l →
                    interest l' = interest l → fds_ok (at_ l' p)).
  { intros l' p Hp Ec Ei. apply (fds_move l); [done..| |].
    - cbn. rewrite Ep. cbn. destruct Hp as [->| ->]; [apply sublist_nil_l|by apply sublist_cons].
    - cbn. intros fd' evs' [->| ->]; naive_solver. }
  unfold serve. destruct (readCommand _ _) as [[err|cmd]|p|]; [|..|by apply Hmove; auto|by apply Hmove; auto].
  - destruct (disconnected err); [|by apply Hmove; auto]. exact (fds_close l fd evs Hf Ep (keys l)).
  - destruct (ExecuteAndResponse _ _ _ _ _) as [[reply s]|p|]; [|by apply Hmove; auto..].
    destruct (a_write a); [by apply fds_close|by apply Hmove; auto].
Qed.

Lemma main_fds l l' : main l l' → fds_ok l → fds_ok l'.
Proof.
  intros H Hf. destruct H.
  all: try (apply (fds_move l); [done|done|done| |]; cbn; rewrite ?H; cbn;
            repeat case_match; cbn; auto using sublist_nil_l; naive_solver).
  - apply cas_frame in H0 as (_ & Ec & Ei & _). apply (fds_move l); [done..| |]; cbn.
    + by destruct ok; apply sublist_nil_l.
    + intros fd evs. destruct ok; naive_solver.
  - apply cas_frame in H0 as (_ & Ec & Ei & _). apply (fds_move l); [done..| |]; cbn; rewrite ?H.
    + by destruct ok.
    + intros fd evs'. destruct ok; naive_solver.
  - by eapply accept_fds.
  - apply (fds_move l); [done..| |]; cbn; rewrite ?H.
    + destruct (shutdown l); [apply sublist_nil_l|done].
    + assert (fd ≠ serverFd) by (apply (fds_client _ Hf fd evs); by left).
      intros fd' evs' Hp. destruct (shutdown l); naive_solver.
  - by apply serve_fds.
Qed.

Lemma wakes_fds l l' : wakes l l' → fds_ok l → fds_ok l'.
Proof.
  intros [H|evs H _ Hn Hi] Hf.
  - apply (fds_move l); [done|done|done| |]; cbn; [apply sublist_nil_l|naive_solver].
  - pose proof Hf as [H1 H2 _ _ _]. split; cbn; try done; [|naive_solver].
    intros fd Hfd. apply list_elem_of_fmap in Hfd as (e & -> & He).
    rewrite Forall_forall in Hi. apply Hi in He. set_solver.
Qed.

Lemma step_fds l l' : step l l' → fds_ok l → fds_ok l'.
Proof.
  intros [l1 H|l1 H|H] Hf; [by eapply main_fds|by eapply wakes_fds|].
  by apply (fds_move l); [..|apply Hf].
Qed.

Lemma start_fds now : fds_ok (start serverFd now).
Proof. split; cbn; [set_solver..|constructor|set_solver|naive_solver]. Qed.

Lemma reachable_fds now l : rtc step (start serverFd now) l → fds_ok l.
Proof.
  intros H. assert (Hs := start_fds now). revert Hs. induction H; intros Hs; [done|].
  eauto using step_fds.
Qed.

(** C30: no stale descriptor: in every state the event loop reaches, a
    descriptor it is about to read from belongs to an open client; serving it
    writes at most one reply, to that descriptor, and closes at most that one. *)
Theorem serves_open_clients now l fd evs a :
  rtc step (start serverFd now) l → pc l = Serve fd evs →
  fd ∈ clients l ∧ fd ≠ serverFd ∧
  (written (serve a fd evs l) = written l ∨
   ∃ reply, written (serve a fd evs l) = written l ++ [(fd, reply)] ∧
            clients (serve a fd evs l) = clients l) ∧
  clients l ∖ {[ fd ]} ⊆ clients (serve a fd evs l).
Proof.
  intros Hr Ep. apply reachable_fds in Hr.
  assert (Hne : fd ≠ serverFd) by (apply (fds_client _ Hr fd evs); by right).
  assert (Hc : fd ∈ clients l).
  { destruct (fds_pending _ Hr fd) as [|]; [rewrite Ep; by left|done..]. }
  split_and!; [done..| |]; unfold serve;
    destruct (readCommand _ _) as [[err|cmd]|p|]; cbn; try (by left); try set_solver.
  - destruct (disconnected err); by left.
  - destruct (ExecuteAndResponse _ _ _ _ _) as [[reply s]|p|]; cbn; [|by left..].
    destruct (a_write a); cbn; [by left|right; eauto].
  - destruct (disconnected err); cbn; set_solver.
  - destruct (ExecuteAndResponse _ _ _ _ _) as [[reply s]|p|]; cbn; [|set_solver..].
    destruct (a_write a); cbn; set_solver.
Qed.

(** ** Shutdown *)

(** Places at which the loop neither executes commands nor expires keys. *)
Definition rank (p : place) : option nat :=
  match p with
  | ExpireDue => Some 5%nat
  | Waiting => Some 4%nat
  | BusyCas _ => Some 3%nat
  | ExpireCas | BusyLoad _ => Some 2%nat
  | LoopTest | ExpireLoad => Some 1%nat
  | Returned => Some 0%nat
  | _ => None
  end.

Definition quiet (n : nat) (l : loop) : Prop :=
  serverStatus l = Constant.ServerStatusShutdown ∧ rank (pc l) = Some n.

Lemma quiet_step n l l' :
  quiet (S n) l → main l l' →
  keys l' = keys l ∧ written l' = written l ∧ ∃ m, (m <= n)%nat ∧ quiet m l'.
Proof.
  intros [Hs Hn] H. assert (Hsd : shutdown l = true) by (unfold shutdown; by rewrite Hs).
  assert (Hcas : cas l = (false, l)) by (unfold cas; by rewrite Hs).
  destruct H; rewrite ?H in Hn; try discriminate Hn; injection Hn as Hn;
    rewrite ?Hsd; try (rewrite Hcas in H0; injection H0 as <- <-).
  all: split_and!; [done|done|]; unfold quiet; cbn.
  all: first [ by exists 0%nat; split; [lia|]
             | case_match; eexists; (split; [|split; [done|reflexivity]]); lia
             | eexists; (split; [|split; [done|reflexivity]]); lia ].
Qed.

Lemma quiet_wakes n l l' :
  quiet (S n) l → wakes l l' →
  keys l' = keys l ∧ written l' = written l ∧ ∃ m, (m <= n)%nat ∧ quiet m l'.
Proof.
  intros [Hs Hn] [H|evs H _ _ _]; rewrite H in Hn; injection Hn as <-; split_and!; [done|done| |done|done|].
  - exists 1%nat. split; [lia|done].
  - exists 3%nat. split; [lia|done].
Qed.

(** The loop can go on by itself unless it is blocked. *)
Lemma quiet_progress n l :
  quiet (S n) l → (∃ l', main l l') ∨ pc l = Waiting ∧ ∀ l', ¬ main l l'.
Proof.
  intros [_ Hn]. assert (pc l = Waiting ∨ pc l ≠ Waiting) as [Ep|Ep] by (destruct (pc l); auto).
  { right. split; [done|]. intros l' H. destruct H; congruence. }
  left. destruct (pc l) eqn:El; try discriminate Hn; try done; eexists.
  - by apply main_test.
  - by apply (main_due _ 0).
  - eapply main_expire_cas; [done|apply surjective_pairing].
  - by apply main_expire_load.
  - eapply main_busy_cas; [done|apply surjective_pairing].
  - by apply main_busy_load.
Qed.

(** C31: a signal that finds the loop at one of its tests or in its wait stops the
    server's work: from then on the loop takes at most five more steps, the return
    of a wait included, executes no command, expires no key and writes nothing;
    at each point it has returned, can take its next step, or is blocked in [Wait],
    which the signal does not end: it goes on only when the kernel has an event or
    an error for it, and then returns within the same bound. *)
Theorem shutdown_when_idle n l k l' :
  quiet n l → nsteps (λ l l', main l l' ∨ wakes l l') k l l' →
  (n <= 5)%nat ∧ (k <= n)%nat ∧ keys l' = keys l ∧ written l' = written l ∧
  (pc l' = Returned ∨ (∃ l'', main l' l'') ∨ pc l' = Waiting ∧ ∀ l'', ¬ main l' l'').
Proof.
  intros Hq H. split; [destruct Hq as [_ Hn]; destruct (pc l); cbn in Hn; (congruence || injection Hn; lia)|].
  revert n Hq. induction H as [l|k l l1 l' H1 H IH]; intros n Hq.
  - split_and!; [lia|done|done|]. destruct n as [|n].
    + left. destruct Hq as [_ Hn]. destruct (pc l); cbn in Hn; congruence.
    + right. by eapply quiet_progress.
  - destruct n as [|n].
    { destruct Hq as [_ Hn]. exfalso. destruct H1 as [H1|H1]; destruct H1; rewrite ?H0 in Hn; discriminate Hn. }
    assert (keys l1 = keys l ∧ written l1 = written l ∧ ∃ m, (m <= n)%nat ∧ quiet m l1)
      as (E1 & E2 & m & Hm & Hq1) by (destruct H1; eauto using quiet_step, quiet_wakes).
    destruct (IH _ Hq1) as (? & ? & ? & ?). rewrite <- E1, <- E2. split_and!; try done. lia.
Qed.

(** An idle server does not stop on a signal: it has stored Shutdown, but the loop
    is blocked in [Wait] and has no step of its own until some client connects or
    sends something. *)
Lemma shutdown_waits_for_event now :
  ∃ l, rtc step (start serverFd now) l ∧ signalled l = true ∧
       serverStatus l = Constant.ServerStatusShutdown ∧ pc l = Waiting ∧ ∀ l', ¬ main l l'.
Proof.
  exists (signal (at_ (start serverFd now) Waiting)). split.
  - eapply rtc_l; [apply step_main, main_test; done|].
    eapply rtc_l; [apply step_main, (main_due _ now); done|].
    cbn. rewrite (proj2 (Z.ltb_ge _ _)) by (unfold Constant.ActiveExpireFrequency; lia).
    eapply rtc_l; [by apply step_signal|]. apply rtc_refl.
  - split_and!; [done..|]. intros l' H. by destruct H.
Qed.

(** The signal has come and its mark is gone. *)
Definition lost (l : loop) : Prop :=
  signalled l = true ∧ serverStatus l ≠ Constant.ServerStatusShutdown ∧ pc l ≠ Returned.

Lemma lost_step l l' : step l l' → lost l → lost l'.
Proof.
  intros [l1 H|l1 H|H] (H1 & H2 & H3); [|by destruct H|congruence].
  assert (Hsd : shutdown l = false) by (unfold shutdown; by apply Z.eqb_neq).
  assert (Hserve : ∀ a fd evs, lost (serve a fd evs l)).
  { intros a fd evs. unfold lost, serve. repeat case_match; by split_and!. }
  assert (Haccept : ∀ r m evs, lost (accept r m evs l)).
  { intros r m evs. unfold lost, accept. repeat case_match; by split_and!. }
  assert (Hc : ∀ ok l', cas l = (ok, l') → signalled l' = true ∧ serverStatus l' ≠ Constant.ServerStatusShutdown).
  { intros ok l2. unfold cas. case_match; by intros [= <- <-]. }
  destruct H; rewrite ?Hsd; auto; try (destruct (Hc _ _ H0));
    unfold lost; cbn; split_and!; try done; repeat case_match; done.
Qed.

Lemma lost_forever l l' : rtc step l l' → lost l → lost l'.
Proof. induction 1; eauto using lost_step. Qed.

Definition busy_run : list (loop → loop) :=
  [λ l, at_ l ExpireDue; λ l, at_ l Waiting; λ l, at_ l (BusyCas [mkEvent serverFd OpRead]);
   λ l, at_ (status_to l Constant.ServerStatusRunning) (Busy [mkEvent serverFd OpRead]);
   signal; λ l, at_ l (Busy []); λ l, at_ l BusySwap;
   λ l, at_ (status_to l Constant.ServerStatusIdle) LoopTest].

(** A signal that finds the loop busy is lost: while the server is
    accepting a connection the signal handler stores Shutdown, at the end of
    the batch the loop stores Idle over it, and from then on no continuation
    of the run makes the server return. *)
Lemma shutdown_lost now :
  ∃ l, rtc step (start serverFd now) l ∧ signalled l = true ∧ pc l = LoopTest ∧
       serverStatus l = Constant.ServerStatusIdle ∧
       ∀ l', rtc step l l' → pc l' ≠ Returned.
Proof.
  exists (fold_left (λ l f, f l) busy_run (start serverFd now)). split.
  - cbn. eapply rtc_l; [apply step_main, main_test; done|].
    eapply rtc_l; [apply step_main, (main_due _ now); done|].
    cbn. rewrite (proj2 (Z.ltb_ge _ _)) by (unfold Constant.ActiveExpireFrequency; lia).
    eapply rtc_l; [apply step_wakes, (wait_events _ [mkEvent serverFd OpRead]); cbn|].
    { done. }
    { done. }
    { apply NoDup_singleton. }
    { repeat constructor. cbn. set_solver. }
    eapply rtc_l; [apply step_main; eapply main_busy_cas; done|].
    eapply rtc_l; [by apply step_signal|].
    eapply rtc_l; [apply step_main, (main_accept _ (mkEvent serverFd OpRead) [] (inl (bs "EAGAIN")) None); done|].
    eapply rtc_l; [apply step_main, main_done; done|].
    eapply rtc_l; [apply step_main, main_busy_swap; done|]. apply rtc_refl.
  - split_and!; [done..|]. intros l' H. apply lost_forever in H; [apply H|]. by split_and!.
Qed.

End Loop.

(** ** Witnesses: a listener 3, a client 5 that sends PING *)

Definition demo_log (x : F64.float64) : F64.float64 := x.
Definition demo_upper (c : Z) : Z := c.
Definition demo_answer : answer :=
  mkAnswer (inr (bs "*1" ++ CRLF ++ bs "$4" ++ CRLF ++ bs "PING" ++ CRLF)) None
           (mkWorld (λ _, 0) [] (λ _, []) [] None).

(** Serving client 5 after it was accepted. *)
Definition demo_serving : loop :=
  mkLoop Constant.ServerStatusRunning (Serve 5 []) init 0 {[ 5; 3 ]} {[ 5 ]} [] false.

Lemma demo_reached : rtc (step demo_log demo_upper Config.default 3) (start 3 0) demo_serving.
Proof.
  eapply rtc_l; [apply step_main, main_test; done|].
  eapply rtc_l; [apply step_main, (main_due _ _ _ _ _ 0); done|].
  eapply rtc_l; [apply step_wakes, (wait_events _ [mkEvent 3 OpRead]);
                 [done|done|apply NoDup_singleton|apply Forall_singleton; cbn; set_solver]|].
  eapply rtc_l; [apply step_main; eapply main_busy_cas; done|].
  eapply rtc_l; [apply step_main, (main_accept _ _ _ _ _ (mkEvent 3 OpRead) [] (inr 5) None); try done|].
  { intros fd [= <-]. cbn. split; [lia|set_solver]. }
  eapply rtc_l; [apply step_main, main_done; done|].
  eapply rtc_l; [apply step_main, main_busy_swap; done|].
  eapply rtc_l; [apply step_main, main_test; done|].
  eapply rtc_l; [apply step_main, (main_due _ _ _ _ _ 0); done|].
  eapply rtc_l; [apply step_wakes, (wait_events _ [mkEvent 5 OpRead]);
                 [done|done|apply NoDup_singleton|apply Forall_singleton; cbn; set_solver]|].
  eapply rtc_l; [apply step_main; eapply main_busy_cas; done|].
  eapply rtc_l; [apply step_main, (main_client _ _ _ _ _ (mkEvent 5 OpRead) []); [done|cbn; lia]|].
  eapply rtc_l; [apply step_main, main_client_load; done|].
  apply reflexive_eq. vm_compute. reflexivity.
Qed.

Lemma serves_open_clients_witness :
  5 ∈ clients demo_serving ∧
  written (serve demo_log demo_upper Config.default demo_answer 5 [] demo_serving) =
    [(5, bs "+PONG" ++ CRLF)].
Proof.
  destruct (serves_open_clients demo_log demo_upper Config.default 3 0 demo_serving 5 [] demo_answer
              demo_reached eq_refl) as (H & _ & _). split; [exact H|]. vm_compute. reflexivity.
Defined.

Definition demo_waiting : loop := signal (at_ (start 3 0) Waiting).

Lemma shutdown_when_idle_witness : keys (at_ demo_waiting LoopTest) = init ∧ (1 <= 4)%nat.
Proof.
  destruct (shutdown_when_idle demo_log demo_upper Config.default 3 4 demo_waiting 1
              (at_ demo_waiting LoopTest)) as (_ & Hk & Hs & _);
    [split; reflexivity|apply nsteps_once; right; apply wait_error; reflexivity|].
  split; [exact Hs|exact Hk].
Defined.

End EventLoop.
