(* ===== verification/IOHandlers.v ===== *)
(** * I/O handlers and listeners
    (src/internal/server/io_handler.go, single_listener_server.go,
    multi_listeners_server.go)

    A listener hands each accepted connection to an I/O handler, round robin.
    A handler takes the events of one wait one by one: it reads a command from
    the connection, dispatches it, blocks on the reply channel and writes the
    reply.  The whole server is the server core of [Server.v] (workers and
    their queues) with its handlers; its steps interleave those of the handlers,
    the workers, the listener and the shutdown.  Connections are numbers;
    [log] records what the handlers read and wrote, and how much of each reply
    the kernel took: a handler writes to a non-blocking descriptor and drops the
    result of the write. *)

From Stdlib Require Import ZArith Lia Ascii.
From stdpp Require Import base gmap list strings numbers sorting sets fin_maps.
From S2P Require Import Prelude GoStrings Resp GoFloat Config EvictionPool Dict Commands Worker Server.

Module IOHandlers.
Import Resp Config EvictionPool Worker Server.
Import Core(world).

(** ** One handler *)

Record IOHandler := mkHandler {
  h_id : Z;
  conns : gmap Z nat;             (** descriptor to connection *)
  monitored : gset Z;             (** the interest list of its multiplexer *)
  events : list Z;                (** descriptors of the batch, still to handle *)
  blocked : option (Z * nat * nat);  (** descriptor, connection, reply channel *)
  muxClosed : bool
}.

Definition NewIOHandler (id : Z) : IOHandler := mkHandler id ∅ ∅ [] None false.

(** The networks whose listeners accept a [*net.TCPConn]. *)
Definition is_tcp (network : bytes) : bool :=
  bool_decide (network ∈ [bs "tcp"; bs "tcp4"; bs "tcp6"]).

(** [tcp] tells whether the connection is a [*net.TCPConn]: the assertion
    [conn.( *net.TCPConn)] panics for any other.  [control] is what [SyscallConn]
    and [Control] answer, [monitor] what the multiplexer answers; its error is
    dropped. *)
Definition AddConn (tcp : bool) (conn : nat) (control : bytes + Z) (monitor : option bytes)
    (h : IOHandler) : outcome (option bytes * IOHandler) :=
  if negb tcp then Panic InterfaceConversion
  else match control with
       | inl err => Ret (Some err, h)
       | inr connFd =>
           Ret (None, mkHandler (h_id h) (<[connFd := conn]> (conns h))
                        (match monitor with
                         | None => {[ connFd ]} ∪ monitored h
                         | Some _ => monitored h
                         end)
                        (events h) (blocked h) (muxClosed h))
       end.

(** The connection closed, if the descriptor was known, and the handler. *)
Definition closeConn (fd : Z) (h : IOHandler) : option nat * IOHandler :=
  match conns h !! fd with
  | Some conn =>
      (Some conn, mkHandler (h_id h) (delete fd (conns h)) (monitored h ∖ {[ fd ]})
                    (events h) (blocked h) (muxClosed h))
  | None => (None, h)
  end.

(** [h.ioMultiplexer.Close()] with its answer, which is only logged: the kernel
    releases the descriptor also when close(2) reports an error. *)
Definition Stop (close : option bytes) (h : IOHandler) : option bytes * IOHandler :=
  (close, mkHandler (h_id h) (conns h) (monitored h) (events h) (blocked h) true).

Definition with_events (h : IOHandler) (evs : list Z) : IOHandler :=
  mkHandler (h_id h) (conns h) (monitored h) evs (blocked h) (muxClosed h).
Definition with_blocked (h : IOHandler) (b : option (Z * nat * nat)) : IOHandler :=
  mkHandler (h_id h) (conns h) (monitored h) (events h) b (muxClosed h).

(** ** The whole server *)

(** [IOWrote]: the handler had [reply] to write and the kernel took its first [n]
    bytes. *)
Inductive io :=
  | IORead (h : nat) (conn ch : nat) (cmd : Command)
  | IOWrote (h : nat) (conn ch : nat) (reply : bytes) (n : nat)
  | IOClosed (h : nat) (conn : nat).

Record system := mkSystem {
  core : Server;
  ioHandlers : list IOHandler;
  numIOHandlers : Z;
  nextIOHandler : Z;
  log : list io
}.

Definition NewSystem (numCPU : Z) : system :=
  let numIOHandlers := numCPU / 2 in
  mkSystem (NewServer numCPU)
           ((λ i, NewIOHandler (Z.of_nat i)) <$> seq 0 (Z.to_nat numIOHandlers))
           numIOHandlers 0 [].

Definition with_handler (s : system) (i : nat) (h : IOHandler) (l : list io) : system :=
  mkSystem (core s) (<[i := h]> (ioHandlers s)) (numIOHandlers s) (nextIOHandler s) (log s ++ l).
Definition with_core (s : system) (c : Server) : system :=
  mkSystem c (ioHandlers s) (numIOHandlers s) (nextIOHandler s) (log s).

(** ** Listeners *)

Inductive listen := Exit | Again (s : system).

(** [s.ioHandlers[s.nextIOHandler%s.numIOHandlers]]: the index of the handler. *)
Definition choose (s : system) : outcome nat :=
  if numIOHandlers s =? 0 then Panic DivideByZero
  else
    let i := Z.rem (nextIOHandler s) (numIOHandlers s) in
    if i <? 0 then Panic IndexOutOfRange
    else match ioHandlers s !! Z.to_nat i with
         | None => Panic IndexOutOfRange
         | Some _ => Ret (Z.to_nat i)
         end.

Definition with_next (s : system) (v : Z) : system :=
  mkSystem (core s) (ioHandlers s) (numIOHandlers s) v (log s).

(** [handler.AddConn(conn)] of handler [i]; the connection is closed on an error. *)
Definition give (tcp : bool) (i : nat) (conn : nat) (control : bytes + Z) (monitor : option bytes)
    (s : system) : outcome system :=
  match ioHandlers s !! i with
  | None => Ret s
  | Some h =>
      '(err, h) ← (AddConn tcp conn control monitor h : outcome (option bytes * IOHandler));
      Ret (with_handler s i h (match err with Some _ => [IOClosed i conn] | None => [] end))
  end.

(** The end of an iteration of the single listener: choose the next handler,
    advance the counter, and give the handler the connection. *)
Definition assign (tcp : bool) (conn : nat) (control : bytes + Z) (monitor : option bytes)
    (s : system) : outcome system :=
  i ← choose s;
  give tcp i conn control monitor (with_next s (s64 (nextIOHandler s + 1))).

(** One iteration of [StartSingleListener]; [st1] and [st2] are the values of
    [serverStatus] at its two tests. *)
Definition single_listener (tcp : bool) (st1 st2 : Z) (acc : bytes + nat) (control : bytes + Z)
    (monitor : option bytes) (s : system) : outcome listen :=
  if st1 =? Constant.ServerStatusShutdown then Ret Exit
  else match acc with
       | inl err => if st2 =? Constant.ServerStatusShutdown then Ret Exit else Ret (Again s)
       | inr conn => s ← assign tcp conn control monitor s; Ret (Again s)
       end.

(** ** The loop of a handler *)

Section Run.
Context (unicode_upper : Z → Z).

(** After the dispatch the handler waits for the reply. *)
Definition dispatched (i : nat) (h : IOHandler) (connFd : Z) (conn : nat) (cmd : Command)
    (s : system) (c : Server) : system :=
  let ch := next_ch (core s) in
  with_core (with_handler s i (with_blocked h (Some (connFd, conn, ch))) [IORead i conn ch cmd]) c.

(** The body of [for _, event := range events] for the next event, up to the
    receive on the reply channel: [r] is what the connection's [Read] answers.
    [Ret None]: the dispatch blocks. *)
Definition handle (i : nat) (r : bytes + bytes) (choice : Z) (s : system) : outcome (option system) :=
  match ioHandlers s !! i with
  | None => Ret None
  | Some h =>
      match blocked h, events h with
      | None, connFd :: rest =>
          let h := with_events h rest in
          match conns h !! connFd with
          | None => Ret (Some (with_handler s i h []))
          | Some conn =>
              x ← (readCommandConn unicode_upper r : outcome (bytes + Command));
              match x with
              | inl err =>
                  let ch := closeConn connFd h in
                  Ret (Some (with_handler s i ch.2 (match ch.1 with Some c => [IOClosed i c] | None => [] end)))
              | inr cmd =>
                  o ← (submit choice cmd (core s) : outcome (option Server));
                  Ret (option_map (dispatched i h connFd conn cmd s) o)
              end
          end
      | _, _ => Ret None
      end
  end.

(** How much of the reply a write took: the descriptors of package net do not
    block, so the kernel may take a part only, or none and answer an error. *)
Definition taken (wr : bytes + nat) (res : bytes) : nat :=
  match wr with inl _ => 0 | inr n => n `min` length res end.

(** [res := <-replyCh; syscall.Write(connFd, res)]; [wr] is the result of the
    write, which is dropped: what the kernel did not take is never sent. *)
Definition answer (i : nat) (wr : bytes + nat) (s : system) : option system :=
  h ← ioHandlers s !! i;
  '(connFd, conn, ch) ← blocked h;
  res ← replies (core s) !! ch;
  Some (with_handler s i (with_blocked h None) [IOWrote i conn ch res (taken wr res)]).

(** The next batch. *)
Definition wait (i : nat) (evs : list Z) (s : system) : option system :=
  h ← ioHandlers s !! i;
  match blocked h, events h with
  | None, [] =>
      if muxClosed h then None
      else if decide (Forall (λ fd, fd ∈ monitored h) evs)
           then Some (with_handler s i (with_events h evs) []) else None
  | _, _ => None
  end.

Context `{!Sorter Less} (cfg : config).

(** A step, with the commands the workers executed in it. *)
Inductive step (s : system) : list event → system → Prop :=
  | sys_accept st1 st2 acc control monitor s' :
      single_listener (is_tcp (Protocol cfg)) st1 st2 acc control monitor s = Ret (Again s') →
      step s [] s'
  (* the goroutines of StartMultiListeners share the counter without a lock *)
  | sys_next v : step s [] (with_next s v)
  | sys_give i conn control monitor s' :
      give (is_tcp (Protocol cfg)) i conn control monitor s = Ret s' → step s [] s'
  | sys_wait i evs s' : wait i evs s = Some s' → step s [] s'
  | sys_handle i r choice s' :
      0 <= choice < numWorkers (core s) → handle i r choice s = Ret (Some s') → step s [] s'
  | sys_answer i wr s' : answer i wr s = Some s' → step s [] s'
  | sys_work i wd ev c :
      work cfg i wd (core s) = Some (Some ev, c) → step s [ev] (with_core s c)
  | sys_drained i wd c :
      work cfg i wd (core s) = Some (None, c) → step s [] (with_core s c)
  | sys_quit i c : quit i (core s) = Some c → step s [] (with_core s c)
  | sys_stop c : Server.Stop (core s) = Some c → step s [] (with_core s c)
  | sys_stop_handler i close h :
      ioHandlers s !! i = Some h → step s [] (with_handler s i (Stop close h).2 []).

Inductive steps : system → list event → system → Prop :=
  | steps_refl s : steps s [] s
  | steps_snoc s evs s1 evs' s2 :
      steps s evs s1 → step s1 evs' s2 → steps s (evs ++ evs') s2.

(** ** The core makes the same steps *)

(** The connection is refused or in the handler's tables; nothing else changes. *)
Lemma give_inv tcp i conn control monitor s s' :
  give tcp i conn control monitor s = Ret s' →
  s' = s ∨ ∃ h h' l, ioHandlers s !! i = Some h ∧ s' = with_handler s i h' l ∧
    blocked h' = blocked h ∧ muxClosed h' = muxClosed h ∧ Forall (λ x, ∃ i c, x = IOClosed i c) l.
Proof.
  unfold give. destruct (ioHandlers s !! i) as [h|] eqn:Hi; [|intros [= <-]; by left].
  unfold AddConn. destruct tcp; [|done]. destruct control as [err|fd]; cbn; intros [= <-]; right;
    eexists h, _, _; split_and!; try done; repeat constructor. eauto.
Qed.

Lemma assign_inv tcp conn control monitor s s' :
  assign tcp conn control monitor s = Ret s' →
  ∃ i, choose s = Ret i ∧ give tcp i conn control monitor (with_next s (s64 (nextIOHandler s + 1))) = Ret s'.
Proof. unfold assign. destruct (choose s) as [i| |]; [eauto|done..]. Qed.

(** An iteration that goes on accepted nothing or assigned a connection. *)
Lemma listener_inv tcp st1 st2 acc control monitor s s' :
  single_listener tcp st1 st2 acc control monitor s = Ret (Again s') →
  s' = s ∨ ∃ i conn v, give tcp i conn control monitor (with_next s v) = Ret s'.
Proof.
  unfold single_listener. case_match; [done|]. destruct acc as [err|conn].
  - case_match; [done|]. intros [= <-]. by left.
  - destruct (assign _ _ _ _ _) as [s1| |] eqn:E; cbn; try done. intros [= <-].
    apply assign_inv in E as (i & _ & E). right. eauto.
Qed.

Lemma give_core tcp i conn control monitor s s' :
  give tcp i conn control monitor s = Ret s' → core s' = core s.
Proof. by intros [->|(h & h' & l & _ & -> & _)]%give_inv. Qed.

Lemma listener_core tcp st1 st2 acc control monitor s s' :
  single_listener tcp st1 st2 acc control monitor s = Ret (Again s') → core s' = core s.
Proof. by intros [->|(i & conn & v & E%give_core)]%listener_inv. Qed.

Lemma step_core s evs s' : step s evs s' → Server.steps cfg (core s) evs (core s').
Proof.
  assert (Hone : ∀ c evs c', Server.step cfg c evs c' → Server.steps cfg c evs c').
  { intros c e c' H. rewrite <- (app_nil_r e). econstructor; [done|constructor]. }
  intros H. destruct H.
  - apply listener_core in H. rewrite H. constructor.
  - constructor.
  - apply give_core in H. rewrite H. constructor.
  - unfold wait in H. destruct (ioHandlers s !! i) as [h|]; [|done]. cbn in H.
    destruct (blocked h); [done|]. destruct (events h); [|done]. destruct (muxClosed h); [done|].
    case_decide; [|done]. injection H as <-. constructor.
  - unfold handle in H0. destruct (ioHandlers s !! i) as [h|]; [|done].
    destruct (blocked h); [done|]. destruct (events h) as [|fd rest]; [done|].
    cbn [conns with_events] in H0. destruct (conns h !! fd) as [conn|]; [|injection H0 as <-; constructor].
    destruct (readCommandConn _ _) as [[err|cmd]| |]; cbn in H0; try done.
    + injection H0 as <-. constructor.
    + destruct (submit choice cmd (core s)) as [[c|]| |] eqn:E; cbn in H0; try done.
      injection H0 as <-. apply Hone. by eapply step_submit.
  - unfold answer in H. destruct (ioHandlers s !! i) as [h|]; [|done]. cbn in H.
    destruct (blocked h) as [[[fd conn] ch]|]; [|done]. cbn in H.
    destruct (replies _ !! ch); [|done]. injection H as <-. constructor.
  - apply Hone. by eapply step_work.
  - apply Hone. by eapply step_drained.
  - apply Hone. by eapply step_quit.
  - apply Hone. by eapply step_stop.
  - constructor.
Qed.

Lemma steps_core s evs s' : steps s evs s' → Server.steps cfg (core s) evs (core s').
Proof.
  induction 1; [constructor|]. eapply steps_app; [done|]. by apply step_core.
Qed.

(** ** What a step does to requests and replies *)

Definition has_task (c : Server) (t : Task) : Prop :=
  ∃ i w, workers c !! i = Some w ∧ t ∈ TaskCh w.

(** The request a handler waits for. *)
Definition awaits (s : system) (i : nat) : option (nat * nat) :=
  h ← ioHandlers s !! i; '(_, conn, ch) ← blocked h; Some (conn, ch).

(** Tasks, replies and channels come from nowhere else. *)
Definition core_same (c c' : Server) : Prop :=
  replies c' = replies c ∧ next_ch c' = next_ch c ∧ ∀ t, has_task c' t → has_task c t.

Inductive kind (s : system) : list event → system → Prop :=
  | kind_silent s' l :
      core s' = core s → (∀ i, awaits s' i = awaits s i) → log s' = log s ++ l →
      Forall (λ x, ∃ i c, x = IOClosed i c) l → kind s [] s'
  | kind_read i conn cmd s' :
      awaits s i = None → awaits s' i = Some (conn, next_ch (core s)) →
      (∀ j, j ≠ i → awaits s' j = awaits s j) →
      log s' = log s ++ [IORead i conn (next_ch (core s)) cmd] →
      replies (core s') = replies (core s) → next_ch (core s') = S (next_ch (core s)) →
      (∀ t, has_task (core s') t → has_task (core s) t ∨ t = mkTask cmd (next_ch (core s))) →
      kind s [] s'
  | kind_write i conn ch r n s' :
      awaits s i = Some (conn, ch) → replies (core s) !! ch = Some r → awaits s' i = None →
      (∀ j, j ≠ i → awaits s' j = awaits s j) → log s' = log s ++ [IOWrote i conn ch r n] →
      core s' = core s → kind s [] s'
  | kind_execute ev c :
      has_task (core s) (ev_task ev) → (∀ t, has_task c t → has_task (core s) t) →
      replies c = <[ReplyCh (ev_task ev) := ev_reply ev]> (replies (core s)) →
      next_ch c = next_ch (core s) → kind s [ev] (with_core s c)
  | kind_core c : core_same (core s) c → kind s [] (with_core s c).

Lemma has_task_update c i w w' ws t :
  workers c !! i = Some w → ws = <[i := w']> (workers c) →
  (∃ j v, ws !! j = Some v ∧ t ∈ TaskCh v) → t ∈ TaskCh w' ∨ has_task c t.
Proof.
  intros Hi -> (j & v & Hj & Ht). destruct (decide (i = j)) as [<-|Hne].
  - rewrite list_lookup_insert_eq in Hj by (by eapply lookup_lt_Some). injection Hj as <-. by left.
  - rewrite list_lookup_insert_ne in Hj by done. right. by exists j, v.
Qed.

Lemma awaits_insert s i h l j :
  is_Some (ioHandlers s !! i) →
  awaits (with_handler s i h l) j =
  if decide (j = i) then ('(_, conn, ch) ← blocked h; Some (conn, ch)) else awaits s j.
Proof.
  intros [h0 Hi]. unfold awaits. cbn. case_decide as E; subst.
  - by rewrite list_lookup_insert_eq by (by eapply lookup_lt_Some).
  - by rewrite list_lookup_insert_ne.
Qed.

(** Replacing a handler without touching what it waits for. *)
Lemma silent_handler s i h h' l :
  ioHandlers s !! i = Some h → blocked h' = blocked h →
  Forall (λ x, ∃ i c, x = IOClosed i c) l → kind s [] (with_handler s i h' l).
Proof.
  intros Hi Hb Hl. eapply (kind_silent s _ l); [done| |done|done].
  intros j. rewrite awaits_insert by eauto. case_decide; [subst|done]. unfold awaits. by rewrite Hi, Hb.
Qed.

Lemma submit_effect choice cmd c c' :
  submit choice cmd c = Ret (Some c') →
  replies c' = replies c ∧ next_ch c' = S (next_ch c) ∧
  ∀ t, has_task c' t → has_task c t ∨ t = mkTask cmd (next_ch c).
Proof.
  unfold submit. set (c0 := mkServer _ _ _ _ _). unfold dispatch. intros E.
  assert (∃ i, send c0 i (mkTask cmd (next_ch c)) = Ret (Some c')) as [i Hs].
  { cbn [Command_] in E. destruct (Args cmd); [case_match; [done|]; eauto|].
    destruct (getPartitionID _ _); cbn in E; [eauto|done..]. }
  apply send_inv in Hs as (w & _ & Hw & _ & ->). split_and!; [done..|].
  intros t Ht. eapply (has_task_update c) in Ht; [|exact Hw|done]. cbn in Ht.
  rewrite elem_of_app, list_elem_of_singleton in Ht. destruct Ht as [[Ht|Ht]|Ht]; auto.
  left. by exists (Z.to_nat i), w.
Qed.

Lemma work_effect i wd o c c' :
  work cfg i wd c = Some (o, c') →
  match o with
  | Some ev => has_task c (ev_task ev) ∧ (∀ t, has_task c' t → has_task c t) ∧
      replies c' = <[ReplyCh (ev_task ev) := ev_reply ev]> (replies c) ∧ next_ch c' = next_ch c
  | None => core_same c c'
  end.
Proof.
  unfold work. destruct (workers c !! i) as [w|] eqn:Hw; [|done]. cbn.
  destruct (stopped w); [done|]. destruct (TaskCh w) as [|t rest] eqn:Et.
  - destruct (closed w); [|done]. intros [= <- <-]. split_and!; [done..|].
    intros t Ht. eapply (has_task_update c) in Ht; [|exact Hw|done]. cbn in Ht. set_solver.
  - destruct (ExecuteAndResponse _ _ _ _) as [reply [d p]]. intros [= <- <-]. cbn.
    assert (Hhas : ∀ t', t' ∈ t :: rest → has_task c t').
    { intros t' Ht. exists i, w. by rewrite Et. }
    split_and!; [apply Hhas; by left| |done..].
    intros t' Ht. eapply (has_task_update c) in Ht; [|exact Hw|done]. cbn in Ht.
    destruct Ht as [Ht|Ht]; [|done]. apply Hhas. by right.
Qed.

Lemma same_queue c i w w' :
  workers c !! i = Some w → TaskCh w' = TaskCh w →
  core_same c (with_workers c (<[i := w']> (workers c))).
Proof.
  intros Hi Hq. split_and!; [done..|]. intros t Ht.
  eapply (has_task_update c) in Ht; [|exact Hi|done]. rewrite Hq in Ht.
  destruct Ht; [|done]. by exists i, w.
Qed.

Lemma quit_effect i c c' : quit i c = Some c' → core_same c c'.
Proof.
  unfold quit. destruct (workers c !! i) as [w|] eqn:Hw; [|done]. cbn. case_match; [|done].
  intros [= <-]. by eapply same_queue.
Qed.

Lemma Stop_effect c c' : Server.Stop c = Some c' → core_same c c'.
Proof. intros (i & w & Hi & _ & ->)%Stop_inv. by eapply same_queue. Qed.

Lemma give_silent tcp i conn control monitor s v s' :
  give tcp i conn control monitor (with_next s v) = Ret s' → kind s [] s'.
Proof.
  intros [->|(h & h' & l & Hi & -> & Hb & _ & Hl)]%give_inv; cbn [ioHandlers with_next] in *.
  { apply (kind_silent s _ []); [done..|by rewrite app_nil_r|done]. }
  eapply kind_silent; [done| |done|done].
  intros j. change (awaits (with_handler s i h' []) j = awaits s j).
  rewrite awaits_insert by eauto. case_decide; [subst|done]. unfold awaits. by rewrite Hi, Hb.
Qed.

Lemma step_kind s evs s' : step s evs s' → kind s evs s'.
Proof.
  intros H. destruct H.
  - apply listener_inv in H as [->|(i & conn & v & H)]; [|by eapply give_silent].
    apply (kind_silent s s []); [done..|by rewrite app_nil_r|done].
  - apply (kind_silent s _ []); [done..|by rewrite app_nil_r|done].
  - apply (give_silent (is_tcp (Protocol cfg)) i conn control monitor s (nextIOHandler s)). by destruct s.
  - unfold wait in H. destruct (ioHandlers s !! i) as [h|] eqn:Hi; [|done]. cbn in H.
    destruct (blocked h) eqn:Hb; [done|]. destruct (events h); [|done]. destruct (muxClosed h); [done|].
    case_decide; [|done]. injection H as <-. by eapply silent_handler.
  - unfold handle in H0. destruct (ioHandlers s !! i) as [h|] eqn:Hi; [|done].
    destruct (blocked h) eqn:Hb; [done|]. destruct (events h) as [|fd rest]; [done|].
    cbn [conns with_events] in H0.
    destruct (conns h !! fd) as [conn|] eqn:Hc; [|injection H0 as <-; by eapply silent_handler].
    destruct (readCommandConn _ _) as [[err|cmd]| |]; cbn in H0; try done.
    + injection H0 as <-. unfold closeConn. cbn. rewrite Hc. eapply silent_handler; [done|done|].
      repeat constructor. eauto.
    + destruct (submit choice cmd (core s)) as [[c|]| |] eqn:E; cbn in H0; try done.
      injection H0 as <-. apply submit_effect in E as (E1 & E2 & E3).
      apply (kind_read s i conn cmd); try done.
      * unfold awaits. rewrite Hi. cbn. by rewrite Hb.
      * unfold dispatched. change (awaits (with_handler s i (with_blocked (with_events h rest)
          (Some (fd, conn, next_ch (core s)))) []) i = Some (conn, next_ch (core s))).
        rewrite awaits_insert by eauto. by rewrite decide_True.
      * intros j Hj. change (awaits (with_handler s i (with_blocked (with_events h rest)
          (Some (fd, conn, next_ch (core s)))) []) j = awaits s j).
        rewrite awaits_insert by eauto. by rewrite decide_False.
  - unfold answer in H. destruct (ioHandlers s !! i) as [h|] eqn:Hi; [|done]. cbn in H.
    destruct (blocked h) as [[[fd conn] ch]|] eqn:Hb; [|done]. cbn in H.
    destruct (replies _ !! ch) as [r|] eqn:Hr; [|done]. injection H as <-.
    apply (kind_write s i conn ch r (taken wr r)); try done.
    + unfold awaits. by rewrite Hi; cbn; rewrite Hb.
    + rewrite awaits_insert by eauto. by rewrite decide_True.
    + intros j Hj. rewrite awaits_insert by eauto. by rewrite decide_False.
  - apply work_effect in H as (H1 & H2 & H3 & H4). by apply kind_execute.
  - apply work_effect in H. by apply kind_core.
  - apply quit_effect in H. by apply kind_core.
  - apply Stop_effect in H. by apply kind_core.
  - by eapply silent_handler.
Qed.

(** ** Requests and replies match *)

(** The log of handler [i] alternates between reading a command and writing
    the reply to it on the same connection; what it waits for at the end. *)
Fixpoint paired (i : nat) (l : list io) (b : option (nat * nat)) : option (option (nat * nat)) :=
  match l with
  | [] => Some b
  | IORead j conn ch _ :: l =>
      if decide (j = i) then match b with None => paired i l (Some (conn, ch)) | Some _ => None end
      else paired i l b
  | IOWrote j conn ch _ _ :: l =>
      if decide (j = i) then if decide (b = Some (conn, ch)) then paired i l None else None
      else paired i l b
  | IOClosed _ _ :: l => paired i l b
  end.

Definition read_chans (l : list io) : list nat :=
  omap (λ x, match x with IORead _ _ ch _ => Some ch | _ => None end) l.

Lemma paired_app i a b x :
  paired i (a ++ b) x = match paired i a x with Some y => paired i b y | None => None end.
Proof.
  revert x. induction a as [|[j c h cmd|j c h r m|j c] a IH]; intros x; cbn; [done|..|done].
  - case_decide; [|done]. by destruct x.
  - case_decide; [|done]. by case_decide.
Qed.

Lemma paired_closed i l x : Forall (λ x, ∃ i c, x = IOClosed i c) l → paired i l x = Some x.
Proof. by induction 1 as [|? l (j & c & ->) _ IH]. Qed.

Lemma paired_read i l b conn ch :
  paired i l b = Some (Some (conn, ch)) →
  b = Some (conn, ch) ∨ ∃ cmd, IORead i conn ch cmd ∈ l.
Proof.
  revert b. induction l as [|[j c h cmd|j c h r m|j c] l IH]; intros b; cbn; [naive_solver|..].
  - case_decide as E; [destruct b; [done|]|]; intros H; apply IH in H as [H|[cmd' H]].
    + right. injection H as <- <-. subst. eexists. by left.
    + right. eexists. by right.
    + by left.
    + right. eexists. by right.
  - case_decide as E; [case_decide as E'; [|done]|]; intros H; apply IH in H as [H|[cmd' H]]; try done; auto;
      right; eexists; by right.
  - intros H. apply IH in H as [H|[cmd' H]]; auto. right. eexists. by right.
Qed.

Lemma read_chans_elem l ch : ch ∈ read_chans l ↔ ∃ i conn cmd, IORead i conn ch cmd ∈ l.
Proof.
  unfold read_chans. rewrite list_elem_of_omap. split.
  - intros ([j c h cmd|j c h r m|j c] & Hin & E); try done. injection E as <-. eauto.
  - intros (i & conn & cmd & H). by exists (IORead i conn ch cmd).
Qed.

(** A channel carries one request. *)
Lemma read_unique l i conn ch cmd i' conn' cmd' :
  NoDup (read_chans l) → IORead i conn ch cmd ∈ l → IORead i' conn' ch cmd' ∈ l →
  i = i' ∧ conn = conn' ∧ cmd = cmd'.
Proof.
  induction l as [|x l IH]; intros HN H1 H2; [by apply not_elem_of_nil in H1|].
  apply elem_of_cons in H1, H2.
  destruct H1 as [<-|H1], H2 as [E2|H2].
  - by injection E2.
  - exfalso. cbn in HN. apply NoDup_cons in HN as [Hn _]. apply Hn, read_chans_elem. eauto.
  - subst x. exfalso. cbn in HN. apply NoDup_cons in HN as [Hn _]. apply Hn, read_chans_elem. eauto.
  - apply IH; [|done|done]. destruct x; cbn in HN; [by apply NoDup_cons in HN as [_ ?]|done..].
Qed.

(** An event that executed the request read on a channel. *)
Definition executes (l : list io) (evs : list event) (i conn ch : nat) (r : bytes) : Prop :=
  ∃ ev, ev ∈ evs ∧ ReplyCh (ev_task ev) = ch ∧ ev_reply ev = r ∧
        IORead i conn ch (Command_ (ev_task ev)) ∈ l.

Record routed (evs : list event) (s : system) : Prop := {
  rt_paired i : paired i (log s) None = Some (awaits s i);
  rt_chans : NoDup (read_chans (log s));
  rt_next ch : ch ∈ read_chans (log s) → (ch < next_ch (core s))%nat;
  rt_tasks t : has_task (core s) t → ∃ i conn, IORead i conn (ReplyCh t) (Command_ t) ∈ log s;
  rt_replies ch r : replies (core s) !! ch = Some r → ∃ i conn, executes (log s) evs i conn ch r;
  rt_wrote i conn ch r n : IOWrote i conn ch r n ∈ log s → executes (log s) evs i conn ch r
}.

Lemma executes_app l l' evs evs' i conn ch r :
  executes l evs i conn ch r → executes (l ++ l') (evs ++ evs') i conn ch r.
Proof. intros (ev & H1 & H2 & H3 & H4). exists ev. rewrite !elem_of_app. auto. Qed.

Lemma executes_log l l' evs i conn ch r :
  executes l evs i conn ch r → executes (l ++ l') evs i conn ch r.
Proof. intros H. rewrite <- (app_nil_r evs). by apply executes_app. Qed.

Lemma read_chans_app a b : read_chans (a ++ b) = read_chans a ++ read_chans b.
Proof. unfold read_chans. apply omap_app. Qed.

(** Log entries that are not reads make no request. *)
Lemma routed_read evs s i conn cmd s' :
  routed evs s → awaits s i = None → awaits s' i = Some (conn, next_ch (core s)) →
  (∀ j, j ≠ i → awaits s' j = awaits s j) →
  log s' = log s ++ [IORead i conn (next_ch (core s)) cmd] →
  replies (core s') = replies (core s) → next_ch (core s') = S (next_ch (core s)) →
  (∀ t, has_task (core s') t → has_task (core s) t ∨ t = mkTask cmd (next_ch (core s))) →
  routed evs s'.
Proof.
  intros [P N X T R W] Hn Hs Ho El Er Ex Ht. split.
  - intros j. rewrite El, paired_app, P. cbn. case_decide as E.
    + subst j. by rewrite Hn, Hs.
    + by rewrite Ho.
  - rewrite El, read_chans_app. apply NoDup_app. split_and!; [done| |apply NoDup_singleton].
    intros ch Hc ->%list_elem_of_singleton. apply X in Hc. lia.
  - intros ch. rewrite El, read_chans_app, elem_of_app, Ex.
    intros [Hc|Hc%list_elem_of_singleton]; [apply X in Hc|]; lia.
  - intros t Hht. rewrite El. destruct (Ht t Hht) as [H|H].
    + destruct (T t H) as (j & c & Hr). exists j, c. apply elem_of_app. by left.
    + subst t. exists i, conn. apply elem_of_app. right. by left.
  - intros ch r Hr. rewrite El. rewrite Er in Hr. destruct (R ch r Hr) as (j & c & He).
    exists j, c. by apply executes_log.
  - intros j c ch r n. rewrite El, elem_of_app. intros [H|H%list_elem_of_singleton]; [|done].
    by eapply executes_log, W.
Qed.

Lemma routed_write evs s i conn ch r n s' :
  routed evs s → awaits s i = Some (conn, ch) → replies (core s) !! ch = Some r →
  awaits s' i = None → (∀ j, j ≠ i → awaits s' j = awaits s j) →
  log s' = log s ++ [IOWrote i conn ch r n] → core s' = core s → routed evs s'.
Proof.
  intros [P N X T R W] Hn Hr Hs Ho El Ec.
  assert (Er : read_chans (log s') = read_chans (log s)).
  { rewrite El, read_chans_app. apply app_nil_r. }
  split; rewrite ?Er, ?Ec; [|done|done| | |].
  - intros j. rewrite El, paired_app, P. cbn. case_decide as E.
    + subst j. by rewrite Hn, decide_True, Hs.
    + by rewrite Ho.
  - intros t Hht. rewrite El. destruct (T t Hht) as (j & c & H). exists j, c. apply elem_of_app. by left.
  - intros ch' r' H. rewrite El. destruct (R ch' r' H) as (j & c & He). exists j, c. by apply executes_log.
  - intros j c ch' r' n'. rewrite El, elem_of_app. intros [H|H%list_elem_of_singleton].
    { by eapply executes_log, W. }
    injection H as -> -> -> -> _. apply executes_log.
    destruct (R ch r Hr) as (j & c & ev & H1 & H2 & H3 & H4).
    specialize (P i). rewrite Hn in P. apply paired_read in P as [?|[cmd Hc]]; [done|].
    destruct (read_unique _ _ _ _ _ _ _ _ N Hc H4) as (-> & -> & ->). by exists ev.
Qed.

Lemma routed_step evs s evs' s' :
  routed evs s → step s evs' s' → routed (evs ++ evs') s'.
Proof.
  intros Hr Hk%step_kind. destruct Hk; rewrite ?app_nil_r.
  - destruct Hr as [P N X T R W].
    assert (Er : read_chans l = []).
    { clear -H2. by induction H2 as [|? l (j & c & ->) _ IH]. }
    split; rewrite ?H1, ?H, ?read_chans_app, ?Er, ?app_nil_r; [|done|done| | |].
    + intros i. by rewrite paired_app, P, paired_closed, H0.
    + intros t Ht. destruct (T t Ht) as (j & c & Hc). exists j, c. apply elem_of_app. by left.
    + intros ch r Hc. destruct (R ch r Hc) as (j & c & He). exists j, c. by apply executes_log.
    + intros i conn ch r n. rewrite elem_of_app. intros [Hin|Hin]; [by eapply executes_log, W|].
      rewrite Forall_forall in H2. apply H2 in Hin as (? & ? & ?). done.
  - by eapply routed_read.
  - by eapply routed_write.
  - destruct Hr as [P N X T R W]. split; cbn; try done.
    + rewrite H2. done.
    + auto.
    + intros ch r. rewrite H1. intros [[<- <-]|[_ Hc]]%lookup_insert_Some.
      * destruct (T _ H) as (i & conn & Hc). exists i, conn, ev.
        rewrite elem_of_app, list_elem_of_singleton. auto.
      * destruct (R ch r Hc) as (i & conn & He). exists i, conn. rewrite <- (app_nil_r (log s)).
        by apply executes_app.
    + intros i conn ch r n Hin. rewrite <- (app_nil_r (log s)). by eapply executes_app, W.
  - destruct Hr as [P N X T R W]. destruct H as (E1 & E2 & E3).
    split; cbn; rewrite ?E1, ?E2; auto.
Qed.

Lemma routed_steps s evs s' :
  steps s evs s' → ∀ evs0, routed evs0 s → routed (evs0 ++ evs) s'.
Proof.
  induction 1 as [|s evs s1 evs' s2 _ IH H]; intros evs0 Hr; [by rewrite app_nil_r|].
  rewrite app_assoc. eapply routed_step; eauto.
Qed.

Lemma routed_new numCPU : routed [] (NewSystem numCPU).
Proof.
  assert (Ha : ∀ i, awaits (NewSystem numCPU) i = None).
  { intros i. unfold awaits, NewSystem. cbn. rewrite list_lookup_fmap. by destruct (seq _ _ !! i). }
  split; cbn.
  - intros i. by rewrite Ha.
  - constructor.
  - set_solver.
  - intros t (i & w & Hi & Ht). cbn in Hi. rewrite list_lookup_fmap in Hi.
    destruct (seq _ _ !! i); [|done]. injection Hi as <-. by apply not_elem_of_nil in Ht.
  - intros ch r H. by rewrite lookup_empty in H.
  - set_solver.
Qed.

Lemma clients_legal numCPU evs s :
  2 <= numCPU → Z.of_nat (length evs) <= MaxKeyNumber cfg →
  steps (NewSystem numCPU) evs s →
  legal cfg Dict.CreateDict ePool_init evs ∧
  (∀ i, paired i (log s) None = Some (awaits s i)) ∧ NoDup (read_chans (log s)) ∧
  ∀ i conn ch reply n, IOWrote i conn ch reply n ∈ log s →
    ∃ wd cmd, IORead i conn ch cmd ∈ log s ∧ mkEvent wd (mkTask cmd ch) reply ∈ evs.
Proof.
  intros Hc Hm Hst. pose proof (routed_steps _ _ _ Hst [] (routed_new numCPU)) as [P N _ _ _ W].
  split_and!; [|done|done|].
  - apply steps_core in Hst. assert (Hn : (0 < Z.to_nat (numCPU / 2))%nat).
    { assert (1 <= numCPU / 2) by (apply Z.div_le_lower_bound; lia). lia. }
    by destruct (steps_sharded cfg _ 0 _ _ ePool_init evs _ Hn (sharded_new numCPU Hc) Hm Hst).
  - intros i conn ch reply n Hin. destruct (W _ _ _ _ _ Hin) as ([wd [cmd ch'] r] & H1 & H2 & H3 & H4).
    cbn in *. subst. by exists wd, cmd.
Qed.

(** No more commands were executed than read. *)
Lemma events_read numCPU evs s :
  steps (NewSystem numCPU) evs s → (length evs <= length (read_chans (log s)))%nat.
Proof.
  intros Hst. pose proof (routed_steps _ _ _ Hst [] (routed_new numCPU)) as [_ N _ _ R _].
  apply steps_core in Hst. pose proof (replies_count cfg _ _ _ (conserved_new numCPU) Hst) as E.
  cbn in E. rewrite map_size_empty in E. rewrite <- (Nat.add_0_l (length evs)), <- E, <- size_dom.
  rewrite <- (size_list_to_set (C := gset nat) (read_chans (log s))) by done.
  apply subseteq_size. intros ch [r Hr]%elem_of_dom. apply elem_of_list_to_set.
  destruct (R ch r Hr) as (i & conn & ev & H1 & H2 & H3 & H4). apply read_chans_elem. eauto.
Qed.

(** C2: up to the key limit the multi-threaded server is linearizable for its
    clients: on a machine with at least two cores, in a run in which the workers
    execute no more commands than there may be keys ([MaxKeyNumber], so that none
    evicts), however listener, handlers, workers and shutdown interleave, every
    handler alternates between reading a command from a connection and one write
    to that connection, each reply it has to write is what a worker answered to
    exactly the command read, and all the answers together are those of a
    single dictionary that executes the commands one at a time. *)
Theorem clients_linearizable numCPU evs s :
  2 <= numCPU → Z.of_nat (length evs) <= MaxKeyNumber cfg →
  steps (NewSystem numCPU) evs s →
  legal cfg Dict.CreateDict ePool_init evs ∧
  (∀ i, paired i (log s) None = Some (awaits s i)) ∧ NoDup (read_chans (log s)) ∧
  ∀ i conn ch reply n, IOWrote i conn ch reply n ∈ log s →
    ∃ wd cmd, IORead i conn ch cmd ∈ log s ∧ mkEvent wd (mkTask cmd ch) reply ∈ evs.
Proof. apply clients_legal. Qed.

(** ** Every request can be answered *)






(** A connection whose registration with the multiplexer fails is kept and
    reported as added, but no wait ever delivers an event for it. *)
Lemma monitor_error_ignored s i h conn fd err :
  ioHandlers s !! i = Some h → fd ∉ monitored h →
  ∃ h', AddConn true conn (inr fd) (Some err) h = Ret (None, h') ∧ conns h' !! fd = Some conn ∧
  ∀ evs s', fd ∈ evs → wait i evs (with_handler s i h' []) ≠ Some s'.
Proof.
  intros Hi Hm. eexists. split_and!; [done|apply lookup_insert_eq|]. intros evs s' Hfd. unfold wait. cbn.
  rewrite list_lookup_insert_eq by (by eapply lookup_lt_Some). cbn.
  destruct (blocked h); [done|]. destruct (events h); [|done]. destruct (muxClosed h); [done|].
  case_decide as Hf; [|done]. rewrite Forall_forall in Hf. by apply Hf in Hfd.
Qed.

End Run.

(** ** Round robin *)

(** Connections accepted one after the other, with their descriptors. *)
Fixpoint accept_all (l : list (nat * Z)) (s : system) : outcome system :=
  match l with
  | [] => Ret s
  | (conn, fd) :: l => s ← assign true conn (inr fd) None s; accept_all l s
  end.

(** The share of handler [i] of [n] after [k] connections. *)
Definition share (n k i : Z) : Z := (k + n - 1 - i) / n.

Lemma share_next n k i :
  0 < n → 0 <= k → 0 <= i < n →
  share n (k + 1) i = share n k i + (if decide (i = k mod n) then 1 else 0).
Proof.
  intros Hn Hk Hi. unfold share. pose proof (Z.div_mod k n ltac:(lia)) as E.
  pose proof (Z.mod_pos_bound k n Hn) as Hm. set (q := k / n) in *. set (m := k mod n) in *.
  case_decide as Ei.
  - rewrite <- (Z.div_unique (k + 1 + n - 1 - i) n (q + 1) 0) by lia.
    rewrite <- (Z.div_unique (k + n - 1 - i) n q (n - 1)) by lia. lia.
  - destruct (Z.lt_ge_cases i m).
    + rewrite <- (Z.div_unique (k + 1 + n - 1 - i) n (q + 1) (m - i)) by lia.
      rewrite <- (Z.div_unique (k + n - 1 - i) n (q + 1) (m - i - 1)) by lia. lia.
    + rewrite <- (Z.div_unique (k + 1 + n - 1 - i) n q (n + m - i)) by lia.
      rewrite <- (Z.div_unique (k + n - 1 - i) n q (n + m - i - 1)) by lia. lia.
Qed.

(** After [k] connections on the descriptors [fds]. *)
Record balanced (n k : Z) (fds : list Z) (s : system) : Prop := {
  bal_num : numIOHandlers s = n;
  bal_len : Z.of_nat (length (ioHandlers s)) = n;
  bal_next : nextIOHandler s = k;
  bal_share i h : ioHandlers s !! i = Some h → Z.of_nat (size (conns h)) = share n k (Z.of_nat i);
  bal_fds i h : ioHandlers s !! i = Some h → dom (conns h) ⊆ list_to_set fds
}.

Lemma assign_balanced n k fds conn fd s :
  0 < n → 0 <= k → k + 1 < two63 → fd ∉ fds → balanced n k fds s →
  ∃ s', assign true conn (inr fd) None s = Ret s' ∧ balanced n (k + 1) (fd :: fds) s'.
Proof.
  intros Hn Hk Hmax Hfd [B1 B2 B3 B4 B5]. unfold assign, choose. rewrite B1, B3, (proj2 (Z.eqb_neq n 0)) by lia.
  rewrite Z.rem_mod_nonneg by lia. pose proof (Z.mod_pos_bound k n Hn) as Hm.
  rewrite (proj2 (Z.ltb_ge _ 0)) by lia.
  destruct (lookup_lt_is_Some_2 (ioHandlers s) (Z.to_nat (k mod n))) as [h Hh]; [lia|].
  rewrite Hh. cbn. unfold give. cbn [ioHandlers with_next]. rewrite Hh. cbn. eexists. split; [done|].
  split; cbn; [done|by rewrite length_insert| | |].
  - rewrite s64_id; [done|]. unfold is_s64, two63 in *. lia.
  - intros i h' Hi. assert (Hlt : (i < length (ioHandlers s))%nat).
    { apply lookup_lt_Some in Hi. by rewrite length_insert in Hi. }
    rewrite share_next by lia. destruct (decide (i = Z.to_nat (k mod n))) as [->|Hne].
    + rewrite list_lookup_insert_eq in Hi by done. injection Hi as <-. cbn.
      rewrite map_size_insert_None, decide_True by
        (first [lia | apply not_elem_of_dom; intros Hin; apply (B5 _ _ Hh) in Hin; set_solver]).
      rewrite <- (B4 _ _ Hh). lia.
    + rewrite list_lookup_insert_ne in Hi by done. rewrite decide_False by lia. rewrite (B4 _ _ Hi). lia.
  - intros i h' Hi. destruct (decide (i = Z.to_nat (k mod n))) as [->|Hne].
    + rewrite list_lookup_insert_eq in Hi by (by eapply lookup_lt_Some). injection Hi as <-. cbn.
      rewrite dom_insert. pose proof (B5 _ _ Hh). set_solver.
    + rewrite list_lookup_insert_ne in Hi by done. pose proof (B5 _ _ Hi). set_solver.
Qed.

Lemma accept_all_balanced n k fds l s :
  0 < n → 0 <= k → k + Z.of_nat (length l) < two63 → NoDup (l.*2 ++ fds) → balanced n k fds s →
  ∃ s', accept_all l s = Ret s' ∧ balanced n (k + Z.of_nat (length l)) (rev l.*2 ++ fds) s'.
Proof.
  revert k fds s. induction l as [|[conn fd] l IH]; intros k fds s Hn Hk Hmax HN Hb; cbn in *.
  - exists s. by rewrite Z.add_0_r.
  - apply NoDup_cons in HN as [Hfd HN].
    destruct (assign_balanced n k fds conn fd s) as (s1 & E & Hb1); [lia|lia|lia| |done|].
    { intros H. apply Hfd, elem_of_app. by right. }
    rewrite E. cbn. destruct (IH (k + 1) (fd :: fds) s1) as (s2 & E2 & Hb2); [lia|lia|lia| |done|].
    { rewrite <- Permutation_middle. by apply NoDup_cons. }
    exists s2. split; [done|].
    rewrite <- app_assoc. replace (k + _) with (k + 1 + Z.of_nat (length l)) by lia. done.
Qed.

Lemma NewSystem_balanced numCPU :
  2 <= numCPU → balanced (numCPU / 2) 0 [] (NewSystem numCPU).
Proof.
  intros H. assert (1 <= numCPU / 2) by (apply Z.div_le_lower_bound; lia). split; cbn; [done| |done| |].
  - rewrite length_fmap, length_seq. lia.
  - intros i h Hi. rewrite list_lookup_fmap in Hi. destruct (seq _ _ !! i) as [j|] eqn:E; [|done].
    injection Hi as <-. apply lookup_lt_Some in E. rewrite length_seq in E.
    cbn. rewrite map_size_empty. unfold share. rewrite Z.div_small; lia.
  - intros i h Hi. rewrite list_lookup_fmap in Hi. destruct (seq _ _ !! i); [|done]. injection Hi as <-.
    cbn. by rewrite dom_empty.
Qed.

(** C37: the single listener deals connections out evenly: on a fresh server with
    at least two cores, after it has accepted fewer than 2^63 TCP connections on
    distinct descriptors one after the other, none of which was closed meanwhile,
    handler [i] of [n] holds exactly its share, the number of connections whose
    index is [i] modulo [n]; so the loads of two handlers differ by at most one. *)
Theorem round_robin_balanced numCPU l :
  2 <= numCPU → Z.of_nat (length l) < two63 → NoDup l.*2 →
  ∃ s, accept_all l (NewSystem numCPU) = Ret s ∧
    (∀ i h, ioHandlers s !! i = Some h →
       Z.of_nat (size (conns h)) = share (numCPU / 2) (Z.of_nat (length l)) (Z.of_nat i)) ∧
    ∀ i h i' h', ioHandlers s !! i = Some h → ioHandlers s !! i' = Some h' →
       (size (conns h) <= S (size (conns h')))%nat.
Proof.
  intros Hc Hl HN. assert (Hn : 1 <= numCPU / 2) by (apply Z.div_le_lower_bound; lia).
  destruct (accept_all_balanced (numCPU / 2) 0 [] l (NewSystem numCPU)) as (s & E & [_ B2 _ B4 _]);
    [lia|lia|lia|by rewrite app_nil_r|by apply NewSystem_balanced|].
  rewrite Z.add_0_l in B4. exists s. split_and!; [done|done|]. intros i h i' h' Hi Hi'.
  pose proof (B4 _ _ Hi) as Ei. pose proof (B4 _ _ Hi') as Ei'. unfold share in *.
  apply lookup_lt_Some in Hi, Hi'. set (n := numCPU / 2) in *. set (k := Z.of_nat (length l)) in *.
  assert ((k + n - 1 - Z.of_nat i) / n <= (k + n - 1 - Z.of_nat i') / n + 1); [|lia].
  rewrite <- Z.div_add by lia. apply Z.div_le_mono; lia.
Qed.

(** A machine with one core cannot serve: the server then has no handler
    and no worker, and the first accepted connection crashes the listener with
    a division by zero. *)
Lemma one_core_crashes tcp conn control monitor st2 :
  single_listener tcp Constant.ServerStatusIdle st2 (inr conn) control monitor (NewSystem 1) =
  Panic DivideByZero.
Proof. reflexivity. Qed.

(** Nor can a server that listens on a Unix socket (REDIS_PROTOCOL=unix): its
    first connection is no [*net.TCPConn]. *)
Lemma unix_socket_crashes conn control monitor st2 :
  single_listener (is_tcp (bs "unix")) Constant.ServerStatusIdle st2 (inr conn) control monitor
    (NewSystem 2) = Panic InterfaceConversion.
Proof. reflexivity. Qed.

(** ** Witnesses: four cores, one client that sends PING *)

Definition demo_upper (c : Z) : Z := c.
Definition demo_world : world := Core.mkWorld (λ _, 0) [] (λ _, []) [] None.
Definition demo_bytes : bytes := bs "*1" ++ CRLF ++ bs "$4" ++ CRLF ++ bs "PING" ++ CRLF.

Definition demo0 : system := NewSystem 4.
Definition demo1 : system :=
  match single_listener true 0 0 (inr 0%nat) (inr 9) None demo0 with Ret (Again s) => s | _ => demo0 end.
Definition demo2 : system := match wait 0 [9] demo1 with Some s => s | None => demo1 end.
Definition demo3 : system :=
  match handle demo_upper 0 (inr demo_bytes) 1 demo2 with Ret (Some s) => s | _ => demo2 end.
Definition demo4 : system :=
  match work Config.default 1 demo_world (core demo3) with
  | Some (_, c) => with_core demo3 c | None => demo3
  end.
Definition demo5 : system := match answer 0 (inr 7%nat) demo4 with Some s => s | None => demo4 end.
Definition demo_ev : event :=
  mkEvent demo_world (mkTask (mkCommand (bs "PING") []) 0) (bs "+PONG" ++ CRLF).

Lemma demo_steps3 : steps demo_upper Config.default demo0 [] demo3.
Proof.
  apply (steps_snoc _ _ _ [] demo2 []).
  - apply (steps_snoc _ _ _ [] demo1 []).
    + apply (steps_snoc _ _ _ [] demo0 []); [constructor|].
      apply (sys_accept _ _ _ 0 0 (inr 0%nat) (inr 9) None). vm_compute. reflexivity.
    + apply (sys_wait _ _ _ 0 [9]). vm_compute. reflexivity.
  - apply (sys_handle _ _ _ 0 (inr demo_bytes) 1); [split; vm_compute; congruence|].
    vm_compute. reflexivity.
Qed.

Lemma demo_steps5 : steps demo_upper Config.default demo0 [demo_ev] demo5.
Proof.
  apply (steps_snoc _ _ _ [demo_ev] demo4 []).
  - apply (steps_snoc _ _ _ [] demo3 [demo_ev]); [exact demo_steps3|].
    apply (sys_work _ _ _ 1 demo_world demo_ev (core demo4)). vm_compute. reflexivity.
  - apply (sys_answer _ _ _ 0 (inr 7%nat)). vm_compute. reflexivity.
Qed.

Lemma clients_linearizable_witness :
  legal Config.default Dict.CreateDict ePool_init [demo_ev] ∧
  paired 0 (log demo5) None = Some None.
Proof.
  destruct (clients_linearizable demo_upper Config.default 4 [demo_ev] demo5) as (H & P & _);
    [lia|vm_compute; congruence|exact demo_steps5|].
  split; [exact H|]. exact (P 0%nat).
Defined.


Lemma round_robin_balanced_witness :
  ∃ s, accept_all [(0%nat, 7); (1%nat, 8); (2%nat, 9)] (NewSystem 4) = Ret s ∧
       ∀ h, ioHandlers s !! 0%nat = Some h → Z.of_nat (size (conns h)) = 2.
Proof.
  destruct (round_robin_balanced 4 [(0%nat, 7); (1%nat, 8); (2%nat, 9)]) as (s & E & H & _);
    [lia|vm_compute; reflexivity|apply (bool_decide_unpack _); vm_compute; exact I|].
  exists s. split; [exact E|]. intros h Hh. exact (H 0%nat h Hh).
Defined.

End IOHandlers.
