(* ===== verification/Replies.v ===== *)
(** * The type of every reply

    What a RESP client reads from either server.  [Module Replies] has the
    replies of the protocol as data ([reply]), their form on the wire ([wire]),
    a client's reader ([parse]) that is written from the protocol and not from
    resp.go, and a signature that gives each command the kinds of reply it may
    send.  The handlers of executor.go and its siblings and those of worker.go
    are shown to respect it, so that a client that pipelines commands can cut
    the stream of replies and knows what each one is. *)

From Stdlib Require Import ZArith Lia Ascii.
From Stdlib Require Import SpecFloat.
From stdpp Require Import base gmap list strings numbers sorting sets fin_maps.
From S2P Require Import Prelude GoStrings Resp GoFloat Config EvictionPool Dict SimpleSet.
From S2P Require Import Cms Item BTree SkipList SortedSet Commands CommandFacts Worker Server IOHandlers.

Module Replies.
Import Resp Config EvictionPool.

(** ** Replies and their wire form *)

Inductive reply :=
  | Simple (s : bytes)
  | Error (s : bytes)
  | Integer (n : Z)
  | Bulk (s : bytes)
  | Nil
  | Array (l : list reply).

(** A text that ends where its line ends. *)
Definition line (s : bytes) : Prop := CR ∉ s ∧ LF ∉ s.

Fixpoint wire (r : reply) : bytes :=
  match r with
  | Simple s => chr 43 :: s ++ CRLF
  | Error s => chr 45 :: s ++ CRLF
  | Integer n => chr 58 :: Strconv.itoa n ++ CRLF
  | Bulk s => chr 36 :: Strconv.itoa (Z.of_nat (length s)) ++ CRLF ++ s ++ CRLF
  | Nil => chr 36 :: Strconv.itoa (-1) ++ CRLF
  | Array l => chr 42 :: Strconv.itoa (Z.of_nat (length l)) ++ CRLF ++ concat (map wire l)
  end.

Inductive wf : reply → Prop :=
  | wf_simple s : line s → wf (Simple s)
  | wf_error s : line s → wf (Error s)
  | wf_integer n : wf (Integer n)
  | wf_bulk s : wf (Bulk s)
  | wf_nil : wf Nil
  | wf_array l : Forall wf l → wf (Array l).

(** ** A client's reader *)

(** The text up to the first CR LF and what follows. *)
Fixpoint read_line (b : bytes) : option (bytes * bytes) :=
  match b with
  | [] => None
  | c :: b =>
      if decide (c = CR) then
        match b with
        | d :: rest => if decide (d = LF) then Some ([], rest) else None
        | [] => None
        end
      else '(l, rest) ← read_line b; Some (c :: l, rest)
  end.

(** A decimal numeral with an optional minus sign, of any size. *)
Definition numeral (s : bytes) : option Z :=
  let unsigned d := if bool_decide (d = []) || negb (forallb Strconv.is_digit d) then None
                    else Some (Strconv.dec_value d) in
  match s with
  | c :: d => if decide (c = chr 45) then Z.opp <$> unsigned d else unsigned s
  | [] => None
  end.

Fixpoint parse_many (parse : bytes → option (reply * bytes)) (n : nat) (b : bytes) :
    option (list reply * bytes) :=
  match n with
  | O => Some ([], b)
  | S n => '(r, b) ← parse b; '(l, b) ← parse_many parse n b; Some (r :: l, b)
  end.

(** One reply and what follows it; the fuel bounds the nesting. *)
Fixpoint parse_fuel (fuel : nat) (b : bytes) : option (reply * bytes) :=
  match fuel, b with
  | S fuel, c :: b =>
      '(l, rest) ← read_line b;
      if decide (c = chr 43) then Some (Simple l, rest)
      else if decide (c = chr 45) then Some (Error l, rest)
      else if decide (c = chr 58) then n ← numeral l; Some (Integer n, rest)
      else if decide (c = chr 36) then
        n ← numeral l;
        if n =? -1 then Some (Nil, rest)
        else if decide (take 2 (drop (Z.to_nat n) rest) = CRLF)
             then Some (Bulk (take (Z.to_nat n) rest), drop (2 + Z.to_nat n) rest) else None
      else if decide (c = chr 42) then
        n ← numeral l;
        '(l, rest) ← parse_many (parse_fuel fuel) (Z.to_nat n) rest;
        Some (Array l, rest)
      else None
  | _, _ => None
  end.

Definition parse (b : bytes) : option (reply * bytes) := parse_fuel (length b) b.

(** All the replies of a stream. *)
Fixpoint parse_all_fuel (fuel : nat) (b : bytes) : option (list reply) :=
  match fuel, b with
  | _, [] => Some []
  | O, _ => None
  | S fuel, _ => '(r, b) ← parse b; l ← parse_all_fuel fuel b; Some (r :: l)
  end.

Definition parse_all (b : bytes) : option (list reply) := parse_all_fuel (length b) b.

(** ** Reading back *)

Lemma read_line_app l rest : CR ∉ l → read_line (l ++ CRLF ++ rest) = Some (l, rest).
Proof.
  induction l as [|c l IH]; intros Hl; cbn.
  { by rewrite !decide_True. }
  apply not_elem_of_cons in Hl as [Hc Hl]. rewrite decide_False by done.
  change (l ++ CR :: LF :: rest) with (l ++ CRLF ++ rest). by rewrite IH.
Qed.

Lemma itoa_digits n :
  ∃ d, d ≠ [] ∧ Forall (λ c, Strconv.is_digit c = true) d ∧
       Strconv.itoa n = (if n <? 0 then [chr 45] else []) ++ d ∧
       Strconv.dec_value d = Z.abs n.
Proof.
  unfold Strconv.itoa. destruct (Z.ltb_spec n 0).
  - exists (Strconv.utoa (- n)). split_and!; [by apply Strconv.utoa_nonempty; lia|
      by apply Strconv.utoa_digits; lia|done|rewrite Strconv.utoa_value; lia].
  - exists (Strconv.utoa n). split_and!; [by apply Strconv.utoa_nonempty; lia|
      by apply Strconv.utoa_digits; lia|done|rewrite Strconv.utoa_value; lia].
Qed.

Lemma digits_line d : Forall (λ c, Strconv.is_digit c = true) d → line d.
Proof.
  intros H. rewrite Forall_forall in H. split; intros Hin; apply H in Hin; by vm_compute in Hin.
Qed.

Lemma itoa_is_line n : line (Strconv.itoa n).
Proof.
  destruct (itoa_digits n) as (d & _ & [H1 H2]%digits_line & -> & _).
  destruct (n <? 0); [|done]. split; rewrite elem_of_app, list_elem_of_singleton; intros [E|E]; done.
Qed.

Lemma numeral_itoa n : numeral (Strconv.itoa n) = Some n.
Proof.
  destruct (itoa_digits n) as (d & Hne & Hd & -> & Hv).
  assert (Hu : bool_decide (d = []) || negb (forallb Strconv.is_digit d) = false).
  { rewrite bool_decide_false, Strconv.digits_forallb by done. done. }
  destruct (Z.ltb_spec n 0); cbn [app].
  - unfold numeral. rewrite decide_True, Hu by done. cbn. rewrite Hv. f_equal. lia.
  - destruct d as [|c d]; [done|]. unfold numeral. cbn [app].
    apply Forall_cons_1 in Hd as [Hc _]. rewrite decide_False; [|intros ->; by vm_compute in Hc].
    rewrite Hu, Hv. f_equal. lia.
Qed.

Fixpoint nesting (r : reply) : nat :=
  match r with
  | Array l => S (foldr (λ x n, max (nesting x) n) 0%nat l)
  | _ => 1
  end.

Lemma nesting_elem l x : x ∈ l → (nesting x <= foldr (λ x n, max (nesting x) n) 0 l)%nat.
Proof. induction 1; cbn; lia. Qed.

Lemma parse_many_app parse l rest :
  Forall (λ r, ∀ rest, parse (wire r ++ rest) = Some (r, rest)) l →
  parse_many parse (length l) (concat (map wire l) ++ rest) = Some (l, rest).
Proof.
  induction 1 as [|r l Hr _ IH]; cbn; [done|]. rewrite <- app_assoc, Hr. cbn. by rewrite IH.
Qed.

Lemma parse_fuel_wire fuel r rest :
  (nesting r <= fuel)%nat → wf r → parse_fuel fuel (wire r ++ rest) = Some (r, rest).
Proof.
  revert r rest. induction fuel as [|fuel IH]; intros r rest Hf Hr; [destruct r; cbn in Hf; lia|].
  pose proof (λ n, proj1 (itoa_is_line n)) as Hi.
  destruct Hr as [s [Hs _]|s [Hs _]|n|s| |l Hl]; cbn [wire].
  - cbn [app parse_fuel]. by rewrite <- app_assoc, read_line_app.
  - cbn [app parse_fuel]. by rewrite <- app_assoc, read_line_app.
  - cbn [app parse_fuel]. rewrite <- app_assoc, read_line_app by done. cbn -[numeral Strconv.itoa].
    do 2 rewrite decide_False by done. rewrite decide_True by done. by rewrite numeral_itoa.
  - cbn [app parse_fuel]. rewrite <- !app_assoc, read_line_app by done. cbn -[numeral Strconv.itoa Z.eqb drop take].
    do 3 rewrite decide_False by done. rewrite decide_True by done.
    rewrite numeral_itoa. cbn -[Z.eqb drop take]. rewrite (proj2 (Z.eqb_neq _ _)) by lia.
    rewrite Nat2Z.id, drop_app_length, decide_True by done. rewrite take_app_length.
    do 2 f_equal. change (S (S (length s))) with (2 + length s)%nat.
    by rewrite Nat.add_comm, <- drop_drop, drop_app_length.
  - cbn [app parse_fuel]. rewrite <- app_assoc, read_line_app by done. reflexivity.
  - cbn [app parse_fuel]. rewrite <- !app_assoc, read_line_app by done. cbn -[numeral Strconv.itoa].
    do 4 rewrite decide_False by done. rewrite decide_True by done.
    rewrite numeral_itoa. cbn. rewrite Nat2Z.id, parse_many_app; [done|].
    rewrite Forall_forall in Hl |- *. intros x Hx rest'. apply IH; [|by apply Hl].
    cbn in Hf. apply nesting_elem in Hx. lia.
Qed.

Lemma nesting_wire r : (nesting r <= length (wire r))%nat.
Proof.
  revert r. fix IH 1. intros [s|s|n|s| |l]; cbn; try lia.
  assert (foldr (λ x n, max (nesting x) n) 0 l <= length (concat (map wire l)))%nat as Hl.
  { induction l as [|x l IHl]; cbn; [lia|]. rewrite length_app. specialize (IH x). lia. }
  rewrite !length_app. cbn. lia.
Qed.

Lemma parse_wire r rest : wf r → parse (wire r ++ rest) = Some (r, rest).
Proof.
  intros Hr. apply parse_fuel_wire; [|done]. rewrite length_app. pose proof (nesting_wire r). lia.
Qed.

Lemma wire_nonempty r : wire r ≠ [].
Proof. by destruct r. Qed.

Lemma parse_all_fuel_wire fuel l :
  Forall wf l → (length l <= fuel)%nat → parse_all_fuel fuel (concat (map wire l)) = Some l.
Proof.
  intros Hl. revert fuel. induction Hl as [|r l Hr Hl IH]; intros [|fuel] Hf; cbn in Hf; try lia; [done..|].
  cbn [map concat parse_all_fuel]. destruct (wire r ++ concat (map wire l)) as [|c b] eqn:E.
  { apply app_eq_nil in E as [E _]. by apply wire_nonempty in E. }
  rewrite <- E, parse_wire by done. cbn. rewrite IH by lia. done.
Qed.

Lemma parse_all_wire l : Forall wf l → parse_all (concat (map wire l)) = Some l.
Proof.
  intros Hl. apply parse_all_fuel_wire; [done|]. clear Hl. induction l as [|r l IH]; cbn; [lia|].
  rewrite length_app. destruct (wire r) eqn:E; [by apply wire_nonempty in E|]. cbn. lia.
Qed.

(** ** Types *)

Inductive ty := TSimple | TError | TInteger | TBulk | TNil | TBulks.

#[export] Instance ty_eq_dec : EqDecision ty.
Proof. solve_decision. Defined.

Inductive has_type : reply → ty → Prop :=
  | ty_simple s : line s → has_type (Simple s) TSimple
  | ty_error s : line s → has_type (Error s) TError
  | ty_integer n : has_type (Integer n) TInteger
  | ty_bulk s : has_type (Bulk s) TBulk
  | ty_nil : has_type Nil TNil
  | ty_bulks l : has_type (Array (Bulk <$> l)) TBulks.

Lemma has_type_wf r t : has_type r t → wf r.
Proof.
  destruct 1; constructor; try done. apply Forall_fmap, Forall_true. intros x. apply wf_bulk.
Qed.

Lemma has_type_inj r t t' : has_type r t → has_type r t' → t = t'.
Proof. by destruct 1; inversion 1. Qed.

(** The kinds of reply of each command; a name that is no command gets an error. *)
Definition signatures : list (bytes * list ty) := [
  (bs "PING", [TSimple; TBulk; TError]);
  (bs "SET", [TSimple; TError]);
  (bs "GET", [TBulk; TNil; TError]);
  (bs "TTL", [TInteger; TError]);
  (bs "ZADD", [TInteger; TError]);
  (bs "ZSCORE", [TBulk; TNil; TError]);
  (bs "ZRANK", [TInteger; TNil; TError]);
  (bs "SADD", [TInteger; TError]);
  (bs "SREM", [TInteger; TError]);
  (bs "SMEMBERS", [TBulks; TError]);
  (bs "SISMEMBER", [TInteger; TError]);
  (bs "CMS.INITBYDIM", [TSimple; TError]);
  (bs "CMS.INITBYPROB", [TSimple; TError]);
  (bs "CMS.INCRBY", [TBulks; TError]);
  (bs "CMS.QUERY", [TBulks; TError]);
  (bs "INFO", [TBulk; TError]);
  (bs "HELP", [TBulks])
].

Definition signature (name : bytes) : list ty :=
  match Core.find_handler name signatures with Some ts => ts | None => [TError] end.

(** The bytes [b] are one reply of a type in [ts]. *)
Definition answers (ts : list ty) (b : bytes) : Prop :=
  ∃ r t, b = wire r ∧ has_type r t ∧ t ∈ ts.

(** The arguments a handler may copy into an error text. *)
Definition echoes (cmd : Command) : list bytes :=
  let arg i := option_list (Args cmd !! i) in
  if decide (Cmd cmd = bs "SET") then arg 2%nat
  else if decide (Cmd cmd = bs "CMS.INITBYDIM") then arg 1%nat
  else if decide (Cmd cmd = bs "CMS.INITBYPROB") then arg 1%nat ++ arg 2%nat
  else if decide (Cmd cmd = bs "CMS.INCRBY") then arg 1%nat
  else [].

(** ** What the encoder produces *)

#[export] Instance line_dec s : Decision (line s).
Proof. unfold line. apply _. Defined.

Lemma line_app a b : line a → line b → line (a ++ b).
Proof. unfold line. rewrite !elem_of_app. tauto. Qed.

Lemma error_answers ts msg : line msg → TError ∈ ts → answers ts (Core.error_reply msg).
Proof. intros Hm Ht. exists (Error msg), TError. split; [done|]. by split; [constructor|]. Qed.

Lemma integer_answers ts n : TInteger ∈ ts → answers ts (Encode (VInt n) false).
Proof. intros Ht. exists (Integer n), TInteger. split; [done|]. by split; [constructor|]. Qed.

Lemma wire_bulk s : wire (Bulk s) = encodeString s.
Proof. unfold encodeString, len_line. cbn. by rewrite <- app_assoc. Qed.

Lemma bulk_answers ts s : TBulk ∈ ts → answers ts (Encode (VStr s) false).
Proof.
  intros Ht. exists (Bulk s), TBulk. split; [symmetry; apply wire_bulk|]. by split; [constructor|].
Qed.

Lemma wire_bulks l : wire (Array (Bulk <$> l)) = Encode (VStrs l) false.
Proof.
  cbn [Encode wire]. unfold encodeStringArray. rewrite len_line_app, length_fmap. cbn.
  do 4 f_equal. change (Bulk <$> l) with (map Bulk l). rewrite map_map. f_equal. apply map_ext.
  apply wire_bulk.
Qed.

Lemma bulks_answers ts l : TBulks ∈ ts → answers ts (Encode (VStrs l) false).
Proof.
  intros Ht. exists (Array (Bulk <$> l)), TBulks. split; [symmetry; apply wire_bulks|].
  by split; [constructor|].
Qed.

(** A constant reply. *)
Lemma constant_answers ts b r t : wire r = b → has_type r t → t ∈ ts → answers ts b.
Proof. intros <-. by exists r, t. Qed.

Lemma ok_answers ts : TSimple ∈ ts → answers ts Constant.RespOk.
Proof. apply (constant_answers _ _ (Simple (bs "OK"))); [done|]. constructor. by apply (bool_decide_unpack _). Qed.

Lemma nil_answers ts : TNil ∈ ts → answers ts Constant.RespNil.
Proof. apply (constant_answers _ _ Nil); [done|constructor]. Qed.

Lemma no_key_answers ts : TInteger ∈ ts → answers ts Constant.TtlKeyNotExist.
Proof. apply (constant_answers _ _ (Integer (-2))); [done|constructor]. Qed.

Lemma no_ttl_answers ts : TInteger ∈ ts → answers ts Constant.TtlKeyExistNoExpire.
Proof. apply (constant_answers _ _ (Integer (-1))); [done|constructor]. Qed.

Lemma pong_answers ts : TSimple ∈ ts → answers ts (Encode (VStr (bs "PONG")) true).
Proof. apply (constant_answers _ _ (Simple (bs "PONG"))); [done|]. constructor. by apply (bool_decide_unpack _). Qed.

Lemma not_found_answers ts : TError ∈ ts → answers ts Core.not_found.
Proof.
  apply (constant_answers _ _ (Error (bs "CMD NOT FOUND"))); [done|]. constructor.
  by apply (bool_decide_unpack _).
Qed.

(** A list of types is a literal: membership is computed. *)
Ltac in_types := apply (bool_decide_unpack _); vm_compute; exact I.

(** The texts of the error replies are literals, except for what they echo. *)
Ltac text :=
  first [ assumption
        | apply (bool_decide_unpack _); vm_compute; exact I
        | apply line_app; text ].

Ltac answer :=
  lazymatch goal with
  | |- answers _ (Encode (VErr ?m) true) => apply (error_answers _ m); [text|in_types]
  | |- answers _ (Core.error_reply _) => apply error_answers; [text|in_types]
  | |- answers _ (Core.wrong_args _) => apply error_answers; [text|in_types]
  | |- answers _ Core.not_an_integer => apply error_answers; [text|in_types]
  | |- answers _ (Encode (VInt _) false) => apply integer_answers; in_types
  | |- answers _ (Encode (VStrs _) false) => apply bulks_answers; in_types
  | |- answers _ (Encode (VStr _) true) => apply pong_answers; in_types
  | |- answers _ (Encode (VStr _) false) => apply bulk_answers; in_types
  | |- answers _ Constant.RespOk => apply ok_answers; in_types
  | |- answers _ Constant.RespNil => apply nil_answers; in_types
  | |- answers _ Constant.TtlKeyNotExist => apply no_key_answers; in_types
  | |- answers _ Constant.TtlKeyExistNoExpire => apply no_ttl_answers; in_types
  | |- answers _ Core.not_found => apply not_found_answers; in_types
  end.

(** ** The dictionaries hold strings *)

Definition strings (d : Dict.Dict) : Prop :=
  map_Forall (λ _ o, ∃ s, Dict.Value o = VStr s) (Dict.dictStore d).

Lemma strings_new : strings Dict.CreateDict.
Proof. apply map_Forall_empty. Qed.

Lemma Del_strings d k : strings d → strings (Dict.Del d k).2.
Proof. unfold strings. rewrite Dict.Del_dict. apply map_Forall_delete. Qed.

Lemma Get_strings t0 t1 d k :
  strings d → strings (Dict.Get t0 t1 d k).2 ∧
              ∀ o, (Dict.Get t0 t1 d k).1 = Some o → ∃ s, Dict.Value o = VStr s.
Proof.
  intros Hd. unfold Dict.Get. destruct (Dict.dictStore d !! k) as [o|] eqn:E; [|done].
  destruct (Hd k o E) as [v Ho].
  assert (Hi : strings (Dict.mkDict (<[k:=Dict.mkObj (Dict.Value o) (Dict.now t0)]> (Dict.dictStore d))
                          (Dict.expiredDictStore d))).
  { apply map_Forall_insert_2; [by exists v|done]. }
  case_match; cbn; (split; [|intros ? [=]]); subst; eauto using Del_strings.
Qed.

Lemma evictRandom_strings ord c d : strings d → strings (Dict.evictRandom_loop ord c d).
Proof.
  revert c d. induction ord as [|k ord IH]; intros c d Hd; cbn; [done|].
  pose proof (Del_strings d k Hd). case_match; auto.
Qed.

Lemma pop_loop_strings fuel i c d p : strings d → strings (Dict.pop_loop fuel i c d p).1.
Proof.
  revert i d p. induction fuel as [|fuel IH]; intros i d p Hd; cbn [Dict.pop_loop]; [done|].
  case_match; [|done]. destruct (Pop p) as [[it|] q]; apply IH; [by apply Del_strings|done].
Qed.

Lemma delete_all_strings d ks : strings d → strings (Dict.delete_all d ks).
Proof.
  unfold Dict.delete_all. revert d. induction ks as [|k ks IH]; intros d Hd; cbn; [done|].
  by apply IH, Del_strings.
Qed.

Lemma SetNew_strings `{!Sorter Less} cfg t0 t1 ord d p k v ttl :
  strings d → strings (Dict.SetNew cfg t0 t1 ord d p k (VStr v) ttl).1.
Proof.
  intros Hd. unfold Dict.SetNew. pose proof (Dict.NewObj_dict t0 t1 d k (VStr v) ttl) as E.
  assert (Hv : Dict.Value (Dict.NewObj t0 t1 d k (VStr v) ttl).1 = VStr v).
  { unfold Dict.NewObj. by case_match. }
  destruct (Dict.NewObj _ _ _ _ _ _) as [o d1]. cbn in *.
  assert (Hd1 : strings d1) by (unfold strings; by rewrite E).
  assert (He : strings (Dict.evict cfg ord d1 p).1).
  { unfold Dict.evict, Dict.evictRandom, Dict.evictLru.
    repeat case_bool_decide; cbn; auto using evictRandom_strings, pop_loop_strings. }
  unfold Dict.Set_. destruct (_ <=? _); [destruct (Dict.evict cfg ord d1 p) as [d2 q]|];
    apply map_Forall_insert_2; eauto.
Qed.

Lemma SetNew_shared_strings `{!Sorter Less} cfg t0 t1 ord race d p k v ttl :
  strings d → strings (Dict.SetNew_shared cfg t0 t1 ord race d p k (VStr v) ttl).1.
Proof.
  intros Hd. unfold Dict.SetNew_shared. destruct race as [[popped q]|]; [|by apply SetNew_strings].
  case_match; [|by apply SetNew_strings]. unfold Dict.NewObj.
  destruct (0 <? ttl); apply map_Forall_insert_2; cbn; eauto; by apply delete_all_strings.
Qed.

(** ** The interpreter of package core *)

(** The handler keeps the dictionary typed and answers with one of [ts]. *)
Definition typed (ts : list ty) (m : ST Core.store bytes) : Prop :=
  ∀ s r s', strings (Core.dictStore s) → m s = Ret (r, s') →
            strings (Core.dictStore s') ∧ answers ts r.

(** [m] does not touch the dictionary of the store it starts from. *)
Definition typed_from (ts : list ty) (s : Core.store) (m : ST Core.store bytes) : Prop :=
  ∀ r s', strings (Core.dictStore s) → m s = Ret (r, s') →
          strings (Core.dictStore s') ∧ answers ts r.

Lemma typed_ret ts r : answers ts r → typed ts (mret r).
Proof. intros Hr s r' s' Hs E. by injection E as <- <-. Qed.

Lemma typed_get ts f : (∀ s, typed_from ts s (f s)) → typed ts (s ← st_get; f s).
Proof. intros Hf s r s' Hs E. exact (Hf s r s' Hs E). Qed.

Lemma typed_put ts s0 s r :
  Core.dictStore s = Core.dictStore s0 → answers ts r → typed_from ts s0 (_ ← st_put s; mret r).
Proof. intros Ed Hr r' s' Hs E. injection E as <- <-. by rewrite Ed. Qed.

Lemma typed_lift {A} ts s0 (o : outcome A) f :
  (∀ a, o = Ret a → typed_from ts s0 (f a)) → typed_from ts s0 (a ← st_lift o; f a).
Proof.
  intros Hf r s' Hs. unfold mbind, ST_bind, st_lift. destruct o as [a| |]; [|done..].
  cbn. intros E. exact (Hf a eq_refl r s' Hs E).
Qed.

Lemma typed_from_typed ts s m : typed ts m → typed_from ts s m.
Proof. intros Hm r s'. apply Hm. Qed.

Section Interpreter.
Context (math_Log : F64.float64 → F64.float64).
Context `{!Sorter Less} (cfg : config) (w : Core.world).
Import Core(clock).

Lemma store_new_typed ts key value ttl :
  TSimple ∈ ts → typed ts (Core.store_new cfg w key value ttl).
Proof.
  intros Ht s r s' Hs. unfold Core.store_new, mbind, ST_bind, st_get, st_put.
  pose proof (SetNew_strings cfg (clock w 0) (clock w 1) (Core.dict_order w) (Core.dictStore s)
                (Core.ePool s) key value ttl Hs) as Hd.
  destruct (Dict.SetNew _ _ _ _ _ _ _ _ _) as [d p]. intros E. injection E as <- <-.
  split; [done|]. by apply ok_answers.
Qed.

Lemma lookup_typed ts key (f : option Dict.Obj → Dict.Dict → ST Core.store bytes) :
  (∀ o d, (∀ x, o = Some x → ∃ v, Dict.Value x = VStr v) → typed ts (f o d)) →
  typed ts (s ← st_get;
            let '(obj, d) := Dict.Get (clock w 0) (clock w 1) (Core.dictStore s) key in
            _ ← st_put (Core.with_dict s d (Core.ePool s));
            f obj d).
Proof.
  intros Hf s r s' Hs. unfold mbind, ST_bind, st_get, st_put.
  destruct (Get_strings (clock w 0) (clock w 1) _ key Hs) as [Hd Ho].
  destruct (Dict.Get _ _ _ _) as [o d]. by apply Hf.
Qed.

(** Walk to each reply of a handler. *)
Ltac handler :=
  repeat lazymatch goal with
  | |- typed _ (mret _) => apply typed_ret; answer
  | |- typed _ (mbind _ st_get) => apply typed_get; intros ?
  | |- typed_from _ _ (mret _) => apply typed_from_typed
  | |- typed_from _ _ (mbind _ (st_put _)) => apply typed_put; [done|answer]
  | |- typed_from _ _ (mbind _ (st_lift _)) => apply typed_lift; intros ? _; cbv beta
  | _ => case_match
  end.

Lemma cmdPING_typed args : typed (signature (bs "PING")) (Core.cmdPING args).
Proof. apply typed_ret. case_match; [answer|]. case_match; answer. Qed.

Lemma cmdSET_typed args :
  Forall line (echoes (mkCommand (bs "SET") args)) → typed (signature (bs "SET")) (Core.cmdSET cfg w args).
Proof.
  intros He. unfold Core.cmdSET.
  destruct args as [|k [|v [|o [|t [|]]]]]; try apply Forall_cons_1 in He as [? _];
    handler; apply store_new_typed; in_types.
Qed.

Lemma cmdGET_typed args : typed (signature (bs "GET")) (Core.cmdGET w args).
Proof.
  unfold Core.cmdGET. destruct args as [|k [|]]; [handler| |handler]. apply lookup_typed. intros o d Ho.
  destruct o as [x|]; [|handler]. destruct (Ho x eq_refl) as [v ->]. handler.
Qed.

Lemma cmdTTL_typed args : typed (signature (bs "TTL")) (Core.cmdTTL w args).
Proof. unfold Core.cmdTTL. destruct args as [|k [|]]; [handler| |handler]. apply lookup_typed. intros o d _. handler. Qed.

(** The loops: their replies are built on the way. *)
Lemma Ret_fst {A B} (a a' : A) (b b' : B) : Ret (a, b) = Ret (a', b') → a = a'.
Proof. by intros [= -> _]. Qed.

Lemma zadd_loop_answers args count z r z' :
  Core.zadd_loop args count z = Ret (r, z') → answers (signature (bs "ZADD")) r.
Proof.
  revert count z. induction args as [| |score member args IH] using pairs_ind; intros count z;
    cbn [Core.zadd_loop]; [intros <-%Ret_fst; answer..|].
  destruct (F64.ParseFloat score); [|intros <-%Ret_fst; answer].
  destruct (SortedSet.Add _ _ _) as [[ret z1]| |]; cbn [mbind outcome_bind]; [|done..].
  case_match; [apply IH|intros <-%Ret_fst; answer].
Qed.

Lemma incrby_loop_answers arg1 args c res r c' :
  line arg1 → Core.incrby_loop arg1 args c res = Ret (r, c') → answers (signature (bs "CMS.INCRBY")) r.
Proof.
  intros Ha. revert c res. induction args as [| |item v args IH] using pairs_ind; intros c res;
    cbn [Core.incrby_loop]; [intros <-%Ret_fst; answer..|].
  destruct (Strconv.ParseUint v); [|intros <-%Ret_fst; answer].
  destruct (Cms.IncrBy _ _ _) as [[n c1]| |]; cbn [mbind outcome_bind]; [|done..]. case_match; apply IH.
Qed.

Lemma cmdZADD_typed args : typed (signature (bs "ZADD")) (Core.cmdZADD args).
Proof.
  unfold Core.cmdZADD. destruct args as [|k pairs]; [handler|].
  case_match; [handler|]. case_match.
  { apply typed_ret, error_answers; [|in_types]. apply line_app; [text|apply itoa_is_line]. }
  apply typed_get. intros s. case_match; [|case_match eqn:EN; [by vm_compute in EN|]].
  all: apply typed_lift; intros [r z] E; apply typed_put; [done|]; by eapply zadd_loop_answers.
Qed.

Lemma cmdZSCORE_typed args : typed (signature (bs "ZSCORE")) (Core.cmdZSCORE args).
Proof. unfold Core.cmdZSCORE. handler. Qed.

Lemma cmdZRANK_typed args : typed (signature (bs "ZRANK")) (Core.cmdZRANK args).
Proof. unfold Core.cmdZRANK. handler. Qed.

Lemma cmdSADD_typed args : typed (signature (bs "SADD")) (Core.cmdSADD args).
Proof. unfold Core.cmdSADD. handler. Qed.

Lemma cmdSREM_typed args : typed (signature (bs "SREM")) (Core.cmdSREM args).
Proof. unfold Core.cmdSREM. handler. Qed.

Lemma cmdSMEMBERS_typed args : typed (signature (bs "SMEMBERS")) (Core.cmdSMEMBERS w args).
Proof. unfold Core.cmdSMEMBERS. handler. Qed.

Lemma cmdSISMEMBER_typed args : typed (signature (bs "SISMEMBER")) (Core.cmdSISMEMBER args).
Proof. unfold Core.cmdSISMEMBER. handler. Qed.

Lemma create_cms_typed ts s key wd h : TSimple ∈ ts → typed_from ts s (Core.create_cms key wd h).
Proof.
  intros Ht. apply typed_lift. intros c _ r s' Hs E. injection E as <- <-.
  split; [done|]. by apply ok_answers.
Qed.

Lemma cmdCMSINITBYDIM_typed args :
  Forall line (echoes (mkCommand (bs "CMS.INITBYDIM") args)) →
  typed (signature (bs "CMS.INITBYDIM")) (Core.cmdCMSINITBYDIM args).
Proof.
  intros He. unfold Core.cmdCMSINITBYDIM.
  destruct args as [|k [|a1 [|a2 [|]]]]; try apply Forall_cons_1 in He as [? _];
    handler; apply create_cms_typed; in_types.
Qed.

Lemma cmdCMSINITBYPROB_typed args :
  Forall line (echoes (mkCommand (bs "CMS.INITBYPROB") args)) →
  typed (signature (bs "CMS.INITBYPROB")) (Core.cmdCMSINITBYPROB math_Log args).
Proof.
  intros He. unfold Core.cmdCMSINITBYPROB.
  destruct args as [|k [|a1 [|a2 [|]]]]; try apply Forall_cons_1 in He as [? He];
    try apply Forall_cons_1 in He as [? _]; handler; apply create_cms_typed; in_types.
Qed.

Lemma cmdCMSINCRBY_typed args :
  Forall line (echoes (mkCommand (bs "CMS.INCRBY") args)) →
  typed (signature (bs "CMS.INCRBY")) (Core.cmdCMSINCRBY args).
Proof.
  intros He. unfold Core.cmdCMSINCRBY.
  destruct args as [|k [|a1 [|a2 args]]]; try apply Forall_cons_1 in He as [? _]; [handler..|].
  case_match; [handler|]. apply typed_get. intros s. case_match; [|handler].
  apply typed_lift. intros [r c1] E. apply typed_put; [done|]. by eapply incrby_loop_answers.
Qed.

Lemma cmdCMSQUERY_typed args : typed (signature (bs "CMS.QUERY")) (Core.cmdCMSQUERY args).
Proof. unfold Core.cmdCMSQUERY. handler. Qed.

Lemma cmdINFO_typed args : typed (signature (bs "INFO")) (Core.cmdINFO w args).
Proof. unfold Core.cmdINFO. handler. Qed.

Lemma cmdHELP_typed : typed (signature (bs "HELP")) Core.cmdHELP.
Proof. apply typed_ret. answer. Qed.

#[local] Hint Resolve cmdPING_typed cmdSET_typed cmdGET_typed cmdTTL_typed cmdZADD_typed cmdZSCORE_typed
  cmdZRANK_typed cmdSADD_typed cmdSREM_typed cmdSMEMBERS_typed cmdSISMEMBER_typed
  cmdCMSINITBYDIM_typed cmdCMSINITBYPROB_typed cmdCMSINCRBY_typed cmdCMSQUERY_typed
  cmdINFO_typed cmdHELP_typed : go.

Lemma execute_typed cmd :
  Forall line (echoes cmd) → typed (signature (Cmd cmd)) (Core.ExecuteAndResponse math_Log cfg w cmd).
Proof.
  destruct cmd as [name args]. intros He. unfold Core.ExecuteAndResponse, Core.table.
  cbn [Core.find_handler Cmd Args].
  repeat (case_decide; [subst; cbn [Cmd Args]; solve [eauto with go]|]).
  apply typed_ret. unfold signature, signatures. cbn [Core.find_handler].
  repeat (rewrite decide_False by done). answer.
Qed.

End Interpreter.

(** ** The workers *)

(** A worker knows three commands. *)
Definition worker_signature (name : bytes) : list ty :=
  if decide (name ∈ [bs "SET"; bs "GET"; bs "PING"]) then signature name else [TError].

Section Workers.
Context `{!Sorter Less} (cfg : config).
Import Worker Server IOHandlers.

Lemma worker_typed wd cmd d p :
  strings d →
  strings (Worker.ExecuteAndResponse cfg wd cmd (d, p)).2.1 ∧
  answers (worker_signature (Cmd cmd)) (Worker.ExecuteAndResponse cfg wd cmd (d, p)).1.
Proof.
  intros Hd. destruct cmd as [name args]. unfold Worker.ExecuteAndResponse. cbn [Cmd Args].
  case_decide as E1; [subst|case_decide as E2; [subst|case_decide as E3; [subst|]]].
  - unfold Worker.cmdSET, Worker.set_new.
    destruct args as [|k [|v [|o [|t [|]]]]]; cbn [fst snd]; try (split; [done|answer]).
    + split; [by apply SetNew_shared_strings|answer].
    + destruct (Strconv.ParseInt t); cbn [fst snd]; split; try done; [by apply SetNew_shared_strings|answer..].
  - unfold Worker.cmdGET. destruct args as [|k [|]]; cbn [fst snd]; try (split; [done|answer]).
    destruct (Get_strings (Core.clock wd 0) (Core.clock wd 1) d k Hd) as [Hg Ho].
    destruct (Dict.Get _ _ _ _) as [[o|] d1]; cbn [fst snd] in *; (split; [done|]); [|answer].
    destruct (Ho o eq_refl) as [v ->]. case_match; answer.
  - unfold Worker.cmdPING. cbn [fst snd]. split; [done|]. destruct args as [|a [|]]; answer.
  - split; [done|]. unfold worker_signature. rewrite decide_False by set_solver. cbn [fst]. answer.
Qed.

(** The workers' dictionaries hold strings, and what was executed was answered
    by the signature. *)
Definition typed_core (c : Server) : Prop :=
  Forall (λ w, strings (dictStore w)) (workers c).

Definition typed_event (ev : event) : Prop :=
  answers (worker_signature (Cmd (Command_ (ev_task ev)))) (ev_reply ev).

Lemma typed_update c i w w' :
  typed_core c → workers c !! i = Some w → dictStore w' = dictStore w →
  Forall (λ w, strings (dictStore w)) (<[i := w']> (workers c)).
Proof.
  intros Hc Hi Hd. apply Forall_insert; [done|]. rewrite Hd.
  by apply (Forall_lookup_1 _ _ _ _ Hc Hi).
Qed.

Lemma typed_step c evs c' :
  Server.step cfg c evs c' → typed_core c → typed_core c' ∧ Forall typed_event evs.
Proof.
  intros H Hc. destruct H as [choice cmd c' _ E|i wd ev c' E|i wd c' E|i c' E|c' E].
  - split; [|done]. unfold submit, dispatch in E. cbn [Command_] in E.
    assert (∃ j t c0, workers c0 = workers c ∧ send c0 j t = Ret (Some c')) as (j & t & c0 & Ew & Es).
    { destruct (Args cmd); [case_match; [done|]; eexists _, _, _; split; [|exact E]; done|].
      destruct (getPartitionID _ _); cbn in E; [eexists _, _, _; split; [|exact E]; done|done..]. }
    apply send_inv in Es as (w & _ & Hw & _ & ->). rewrite Ew in *.
    unfold typed_core. cbn. by eapply typed_update.
  - unfold work in E. destruct (workers c !! i) as [w|] eqn:Hw; [|done]. cbn in E.
    destruct (stopped w); [done|]. destruct (TaskCh w) as [|t rest]; [by destruct (closed w)|].
    destruct (worker_typed wd (Command_ t) (dictStore w) (Server.ePool c)) as [H1 H2];
      [by apply (Forall_lookup_1 _ _ _ _ Hc Hw)|].
    destruct (Worker.ExecuteAndResponse _ _ _ _) as [reply [d p]]. injection E as <- <-.
    split; [by apply Forall_insert|]. by constructor.
  - unfold work in E. destruct (workers c !! i) as [w|] eqn:Hw; [|done]. cbn in E.
    destruct (stopped w); [done|]. destruct (TaskCh w) as [|t rest].
    + destruct (closed w); [|done]. injection E as <-. split; [by eapply typed_update|done].
    + by destruct (Worker.ExecuteAndResponse _ _ _ _) as [reply [d p]].
  - unfold quit in E. destruct (workers c !! i) as [w|] eqn:Hw; [|done]. cbn in E.
    case_match; [|done]. injection E as <-. split; [by eapply typed_update|done].
  - apply Stop_inv in E as (i & w & Hw & _ & ->). split; [by eapply typed_update|done].
Qed.

Lemma typed_steps c evs c' :
  Server.steps cfg c evs c' → typed_core c → typed_core c' ∧ Forall typed_event evs.
Proof.
  induction 1 as [|c evs c1 evs' c2 Hs _ IH]; intros Hc; [done|].
  destruct (typed_step _ _ _ Hs Hc) as [Hc1 H1]. destruct (IH Hc1) as [Hc2 H2].
  split; [done|]. by apply Forall_app.
Qed.

(** ** The streams the clients of the multi-threaded server read *)

(** What the handlers had to write to a connection: the channel each reply came
    from, the reply, and how much of it the kernel took. *)
Definition writes (conn : nat) (l : list io) : list (nat * (bytes * nat)) :=
  omap (λ x, match x with
             | IOWrote _ c ch r n => if decide (c = conn) then Some (ch, (r, n)) else None
             | _ => None
             end) l.

(** The bytes the client gets. *)
Definition stream (conn : nat) (l : list io) : bytes :=
  concat (map (λ w, take w.2.2 w.2.1) (writes conn l)).

(** Every write was taken as a whole. *)
Definition whole (conn : nat) (l : list io) : Prop :=
  Forall (λ w, w.2.2 = length w.2.1) (writes conn l).

Lemma writes_elem conn l w : w ∈ writes conn l → ∃ i, IOWrote i conn w.1 w.2.1 w.2.2 ∈ l.
Proof.
  unfold writes. rewrite list_elem_of_omap. intros ([] & Hin & E); try done.
  case_decide; [|done]. injection E as <-. subst. eauto.
Qed.

Lemma whole_stream conn l : whole conn l → stream conn l = concat (map (λ w, w.2.1) (writes conn l)).
Proof.
  unfold whole, stream. induction 1 as [|w ws Hw _ IH]; [done|]. cbn [map concat].
  by rewrite IH, Hw, firstn_all.
Qed.

(** A list of answers is a list of replies. *)
Lemma answers_list {A} (P : A → reply → Prop) (f : A → bytes) (l : list A) :
  (∀ x, x ∈ l → ∃ r t, f x = wire r ∧ has_type r t ∧ P x r) →
  ∃ vs, concat (map f l) = concat (map wire vs) ∧ Forall wf vs ∧ Forall2 P l vs.
Proof.
  induction l as [|x l IH]; intros H; [by exists []|].
  destruct (H x) as (r & t & E & Ht & HP); [by left|].
  destruct IH as (vs & E' & Hw & H2); [intros y Hy; apply H; by right|].
  exists (r :: vs). cbn. rewrite E, E'. split; [done|]. split; constructor; eauto using has_type_wf.
Qed.

(** Each reply is one of the protocol, of a type of the command read on its
    channel; the bytes written parse when no write was cut short. *)
Lemma streams_typed unicode_upper numCPU evs s conn :
  IOHandlers.steps unicode_upper cfg (NewSystem numCPU) evs s →
  ∃ vs, Forall2 (λ w v, w.2.1 = wire v ∧
                   ∃ i cmd t, IORead i conn w.1 cmd ∈ log s ∧
                              has_type v t ∧ t ∈ worker_signature (Cmd cmd))
                (writes conn (log s)) vs ∧
    (whole conn (log s) → parse_all (stream conn (log s)) = Some vs).
Proof.
  intros Hs. pose proof (routed_steps _ _ _ _ _ Hs [] (routed_new numCPU)) as R. cbn in R.
  assert (H0 : typed_core (core (NewSystem numCPU))).
  { apply Forall_fmap, Forall_true. intros i. exact strings_new. }
  destruct (typed_steps _ _ _ (steps_core _ _ _ _ _ Hs) H0) as [_ He].
  destruct (answers_list (λ w v, w.2.1 = wire v ∧ ∃ i cmd t, IORead i conn w.1 cmd ∈ log s ∧
              has_type v t ∧ t ∈ worker_signature (Cmd cmd)) (λ w, w.2.1) (writes conn (log s)))
    as (vs & E & Hw & H2).
  - intros [ch [r n]] [i Hin]%writes_elem. apply (rt_wrote _ _ R) in Hin as (ev & Hev & _ & Er & Hr).
    rewrite Forall_forall in He. destruct (He _ Hev) as (v & t & Ev & Ht & Hts).
    cbn in *. exists v, t. subst r. split_and!; [done..|]. by exists i, (Command_ (ev_task ev)), t.
  - exists vs. split; [done|]. intros Hwh. by rewrite (whole_stream _ _ Hwh), E, parse_all_wire.
Qed.

End Workers.

(** Every byte a client of the multi-threaded server receives is part of a
    well-formed reply, as long as the kernel took every write to its connection
    as a whole: the bytes parse, with a reader written from the protocol, as one
    reply per write, in order, and each has a type of the signature of the
    command that the same connection had sent on that reply's channel. *)
Lemma client_streams_parse `{!Sorter Less} cfg unicode_upper numCPU evs s conn :
  IOHandlers.steps unicode_upper cfg (IOHandlers.NewSystem numCPU) evs s →
  whole conn (IOHandlers.log s) →
  ∃ vs, parse_all (stream conn (IOHandlers.log s)) = Some vs ∧
    Forall2 (λ w v, ∃ i cmd t, IOHandlers.IORead i conn w.1 cmd ∈ IOHandlers.log s ∧
                               has_type v t ∧ t ∈ worker_signature (Cmd cmd))
            (writes conn (IOHandlers.log s)) vs.
Proof.
  intros Hs Hw. destruct (streams_typed cfg unicode_upper numCPU evs s conn Hs) as (vs & H2 & E).
  exists vs. split; [by apply E|]. eapply Forall2_impl; [exact H2|]. by intros w v [_ H].
Qed.

Lemma client_streams_parse_witness :
  ∃ vs, parse_all (stream 0 (IOHandlers.log IOHandlers.demo5)) = Some vs ∧ vs = [Simple (bs "PONG")].
Proof.
  destruct (client_streams_parse Config.default IOHandlers.demo_upper 4 [IOHandlers.demo_ev]
              IOHandlers.demo5 0 IOHandlers.demo_steps5) as (vs & E & _).
  { vm_compute. repeat constructor. }
  exists vs. split; [exact E|]. vm_compute in E. injection E as <-. reflexivity.
Defined.

(** A write cut short is not repaired: the rest of the reply is never sent, and
    the client takes what follows as part of it. *)
Lemma short_write_garbles i ch ch' :
  let pong := bs "+PONG" ++ CRLF in
  parse_all (stream 0 [IOHandlers.IOWrote i 0 ch pong 3; IOHandlers.IOWrote i 0 ch' pong 7]) =
  Some [Simple (bs "PO+PONG")].
Proof. vm_compute. reflexivity. Qed.

End Replies.
