(* ===== verification/Served.v ===== *)
(** * Whole sessions with the interpreter of package core

    [Availability]: which commands the interpreter (src/internal/core,
    [Core.ExecuteAndResponse]) serves without a panic, for every command and not
    only those that cannot fail: the sorted-set commands while the scores of a
    set are distinct numbers, the Count-Min initialisers while the sketch has
    columns and fits in memory.  Sessions of such commands are answered to the
    end, and the client can read the answers ([Replies]). *)

From Stdlib Require Import ZArith Lia Ascii.
From Stdlib Require Import SpecFloat.
From stdpp Require Import base gmap list strings numbers sorting sets fin_maps.
From S2P Require Import Prelude GoStrings Resp GoFloat Config EvictionPool Dict SimpleSet.
From S2P Require Import Cms Item BTree SkipList SortedSet Commands CommandFacts ZSetFacts Replies.

Module Served.
Import Resp Config EvictionPool Core CommandFacts ZSet Replies.

(** ** The commands that are served *)

(** A sketch with a column and whose counters can be allocated. *)
Definition dims_ok (width height : Z) : bool :=
  (0 <? width) && (0 <=? height) && (width * height * 8 <=? 281474976710656).

Definition acceptable (math_Log : F64.float64 → F64.float64) (cmd : Command) (s : store) : bool :=
  if decide (Cmd cmd = bs "ZADD") then
    match Args cmd with key :: pairs => zadd_fresh pairs (scores s key) | [] => true end
  else if decide (Cmd cmd = bs "CMS.INITBYDIM") then
    match Args cmd with
    | [_; a1; a2] =>
        match Strconv.ParseInt a1, Strconv.ParseInt a2 with
        | Some width, Some height => dims_ok (u64 width) (u64 height)
        | _, _ => true
        end
    | _ => true
    end
  else if decide (Cmd cmd = bs "CMS.INITBYPROB") then
    match Args cmd with
    | [_; a1; a2] =>
        match F64.ParseFloat a1, F64.ParseFloat a2 with
        | Some errRate, Some probability =>
            outside_unit errRate || outside_unit probability ||
            (let '(width, height) := Cms.CalcCMSDim math_Log errRate probability in
             dims_ok width height)
        | _, _ => true
        end
    | _ => true
    end
  else true.

(** The stores a session goes through. *)
Record good (cfg : config) (s : store) : Prop := {
  good_wf : wf_store cfg s;
  good_zsets : zsets_ok s;
  good_strings : strings (dictStore s)
}.

Lemma good_init : good Config.default init.
Proof. split; [exact init_wf|apply map_Forall_empty|exact strings_new]. Qed.

(** ** The handlers that can fail *)

Section Handlers.
Context (math_Log : F64.float64 → F64.float64).
Context `{!Sorter Less} (cfg : config) (w : world).
Context (Hpool : 0 <= EpoolMaxSize cfg) (Hord : Z.of_nat (length (dict_order w)) < two63).

(** The answer and the store after it. *)
Definition served (m : ST store bytes) (s : store) : Prop :=
  ∃ r s', m s = Ret (r, s') ∧ wf_store cfg s' ∧ zsets_ok s'.

Lemma served_ret r s : good cfg s → served (mret r) s.
Proof. intros [Hw Hz _]. by exists r, s. Qed.

Lemma served_zset s key z :
  good cfg s → models true 0 z (SortedSet.MemberScore z) →
  wf_store cfg (with_zset s key z) ∧ zsets_ok (with_zset s key z).
Proof. intros [[] Hz _] Hm. split; [done|]. by apply zsets_ok_with. Qed.

Lemma cmdZADD_served args s :
  good cfg s → acceptable math_Log (mkCommand (bs "ZADD") args) s = true → served (cmdZADD args) s.
Proof.
  intros Hs Ha. destruct args as [|key pairs]; [by apply served_ret|].
  change (zadd_fresh pairs (scores s key) = true) in Ha. unfold cmdZADD.
  destruct (Z.ltb_spec (Z.of_nat (length (key :: pairs))) 3) as [|Hl]; [by apply served_ret|].
  destruct ((_ =? 1) || _) eqn:E; [by apply served_ret|].
  destruct pairs as [|a [|b args]]; [cbn in Hl; lia..|].
  apply orb_false_iff in E as [E%Z.eqb_neq _].
  destruct (ZADD_step math_Log cfg w s key a b args (good_zsets _ _ Hs)) as (z & Ez & Hz); [|done|].
  { destruct (Nat.Even_or_Odd (length args)) as [|[n Hn]]; [done|]. exfalso. apply E.
    cbn [length]. rewrite Hn. replace (Z.of_nat _) with (1 + Z.of_nat (S n) * 2) by lia.
    by rewrite Z.mod_add. }
  exists (zadd_spec (a :: b :: args) 0 (scores s key)).1, (with_zset s key z). split.
  - change (run math_Log cfg w "ZADD") with cmdZADD in Ez. unfold cmdZADD in Ez.
    rewrite (proj2 (Z.ltb_ge _ 3)) in Ez by done.
    destruct ((_ =? 1) || _) eqn:E' in Ez; [|exact Ez].
    apply orb_true_iff in E' as [E'%Z.eqb_eq|E'%Z.eqb_eq]; [done|cbn [length] in E'; lia].
  - apply served_zset; [done|]. destruct Hz as [_ ?]. by split.
Qed.

Lemma cmdZRANK_served args s : good cfg s → served (cmdZRANK args) s.
Proof.
  intros Hs. unfold cmdZRANK. destruct args as [|key [|member [|]]]; try by apply served_ret.
  unfold served, mbind, ST_bind, st_get. destruct (zsetStore s !! key) as [z|] eqn:Ez; [|by apply served_ret].
  pose proof (map_Forall_lookup_1 _ _ _ _ (good_zsets _ _ Hs) Ez) as Hz. pose proof Hz as (_ & l & Hi & _).
  unfold st_lift, outcome_bind. rewrite (SortedSet.zset_rank_ok z l member Hi). cbn. eexists _, _.
  split; [done|]. by apply served_zset.
Qed.

Lemma create_cms_served key width height s :
  good cfg s → dims_ok width height = true → served (create_cms key width height) s.
Proof.
  intros Hs Hd. unfold dims_ok in Hd. rewrite !andb_true_iff in Hd.
  destruct Hd as [[H1%Z.ltb_lt H2%Z.leb_le] H3%Z.leb_le].
  destruct (Cms.NewCMS_empty width height H1 H2 H3) as (c & Ec & _ & _ & Hc).
  unfold served, create_cms, mbind, ST_bind, st_lift. rewrite Ec. cbn. eexists _, _. split; [done|].
  destruct Hs. split; [by eapply wf_store_cms|done].
Qed.

Lemma cmdCMSINITBYDIM_served args s :
  good cfg s → acceptable math_Log (mkCommand (bs "CMS.INITBYDIM") args) s = true →
  served (cmdCMSINITBYDIM args) s.
Proof.
  intros Hs Ha. unfold cmdCMSINITBYDIM. destruct args as [|key [|a1 [|a2 [|]]]]; try by apply served_ret.
  cbn [acceptable Cmd Args] in Ha. unfold acceptable in Ha. cbn [Cmd Args] in Ha.
  rewrite decide_False, decide_True in Ha by done.
  destruct (Strconv.ParseInt a1) as [wd|]; [|by apply served_ret].
  destruct (Strconv.ParseInt a2) as [h|]; [|by apply served_ret].
  unfold served, mbind, ST_bind, st_get. destruct (cmsStore s !! key); [by apply served_ret|].
  by apply create_cms_served.
Qed.

Lemma cmdCMSINITBYPROB_served args s :
  good cfg s → acceptable math_Log (mkCommand (bs "CMS.INITBYPROB") args) s = true →
  served (cmdCMSINITBYPROB math_Log args) s.
Proof.
  intros Hs Ha. unfold cmdCMSINITBYPROB. destruct args as [|key [|a1 [|a2 [|]]]]; try by apply served_ret.
  unfold acceptable in Ha. cbn [Cmd Args] in Ha.
  do 2 rewrite decide_False in Ha by done. rewrite decide_True in Ha by done.
  destruct (F64.ParseFloat a1) as [e|]; [|by apply served_ret].
  destruct (outside_unit e) eqn:Ee; [by apply served_ret|].
  destruct (F64.ParseFloat a2) as [p|]; [|by apply served_ret].
  destruct (outside_unit p) eqn:Ep; [by apply served_ret|].
  unfold served, mbind, ST_bind, st_get. destruct (cmsStore s !! key); [by apply served_ret|].
  destruct (Cms.CalcCMSDim math_Log e p) as [wd h]. by apply create_cms_served.
Qed.

(** ** Every command *)

Lemma execute_served cmd s :
  good cfg s → acceptable math_Log cmd s = true → Forall line (echoes cmd) →
  ∃ r s', ExecuteAndResponse math_Log cfg w cmd s = Ret (r, s') ∧ good cfg s' ∧
          answers (signature (Cmd cmd)) r.
Proof.
  intros Hs Ha He.
  assert (∃ r s', ExecuteAndResponse math_Log cfg w cmd s = Ret (r, s') ∧ wf_store cfg s' ∧ zsets_ok s')
    as (r & s' & E & Hw & Hz).
  { destruct (decide (Cmd cmd ∈ unsafe_commands)) as [Hu|Hu].
    - destruct cmd as [name args]. unfold unsafe_commands in Hu. cbn [fmap list_fmap Cmd] in Hu.
      rewrite !elem_of_cons in Hu. destruct Hu as [->|[->|[->|[->|Hu]]]];
        [by apply cmdZADD_served|by apply cmdZRANK_served|by apply cmdCMSINITBYDIM_served
        |by apply cmdCMSINITBYPROB_served|by apply not_elem_of_nil in Hu].
    - destruct (execute_safe math_Log cfg w Hpool Hord cmd Hu s (good_wf _ _ Hs)) as (r & s' & E & Hw).
      exists r, s'. split_and!; [done..|]. unfold zsets_ok.
      destruct (execute_frame math_Log cfg w cmd s r s' E) as (_ & Hzs & _). rewrite Hzs; [apply Hs|].
      intros Hin. apply Hu. unfold zset_commands in Hin. unfold unsafe_commands. cbn in *. set_solver. }
  destruct (execute_typed math_Log cfg w cmd He s r s' (good_strings _ _ Hs) E) as [Hd Hr].
  exists r, s'. by split_and!.
Qed.

End Handlers.

(** ** Sessions *)

Section Sessions.
Context (math_Log : F64.float64 → F64.float64) `{!Sorter Less} (cfg : config).

(** The commands of a client, each with what it reads from outside. *)
Definition script := list (world * Command).

(** The replies in order, and the store at the end. *)
Fixpoint serve (cmds : script) (s : store) : outcome (list bytes * store) :=
  match cmds with
  | [] => Ret ([], s)
  | (w, cmd) :: cmds =>
      '(r, s) ← ExecuteAndResponse math_Log cfg w cmd s;
      '(rs, s) ← serve cmds s;
      Ret (r :: rs, s)
  end.

(** Each command is acceptable in the store that the ones before it leave. *)
Fixpoint acceptable_all (cmds : script) (s : store) : bool :=
  match cmds with
  | [] => true
  | (w, cmd) :: cmds =>
      acceptable math_Log cmd s &&
      match ExecuteAndResponse math_Log cfg w cmd s with
      | Ret (_, s) => acceptable_all cmds s
      | _ => true
      end
  end.

(** What the environment and the client give: map orders of possible lengths,
    and no line break in an argument that an error text may echo. *)
Definition regular (x : world * Command) : Prop :=
  Z.of_nat (length (dict_order x.1)) < two63 ∧ Forall line (echoes x.2).

#[export] Instance regular_dec x : Decision (regular x).
Proof. unfold regular. apply _. Defined.

Lemma serve_good cmds s :
  0 <= EpoolMaxSize cfg → Forall regular cmds → good cfg s → acceptable_all cmds s = true →
  ∃ rs s', serve cmds s = Ret (rs, s') ∧ good cfg s' ∧
           Forall2 (λ x r, answers (signature (Cmd x.2)) r) cmds rs.
Proof.
  intros Hp Hr. revert s. induction Hr as [|[w cmd] cmds [Ho He] _ IH]; intros s Hs Ha; cbn [serve].
  { by exists [], s. }
  cbn [acceptable_all] in Ha. apply andb_true_iff in Ha as [Ha Hrest].
  destruct (execute_served math_Log cfg w Hp Ho cmd s Hs Ha He) as (r & s1 & E & Hs1 & Hans).
  rewrite E in Hrest |- *. destruct (IH s1 Hs1 Hrest) as (rs & s2 & E2 & Hs2 & HF).
  exists (r :: rs), s2. cbn [mbind outcome_bind]. rewrite E2. split; [done|]. split; [done|].
  by constructor.
Qed.

(** Answers to commands are replies of their types. *)
Lemma answered_list {A} (name : A → bytes) (xs : list A) rs :
  Forall2 (λ x r, answers (signature (name x)) r) xs rs →
  ∃ vs, rs = wire <$> vs ∧ Forall wf vs ∧
        Forall2 (λ x v, ∃ t, has_type v t ∧ t ∈ signature (name x)) xs vs.
Proof.
  induction 1 as [|x r xs rs (v & t & -> & Ht & Hin) _ (vs & -> & Hw & H2)].
  - exists []. by split_and!.
  - exists (v :: vs). split; [done|]. split; constructor; eauto using has_type_wf.
Qed.

(** C4: sessions with the interpreter are served to the end and readable: from
    every well-formed store, for all clock readings and map orders, a session in
    which ZADD gets distinct numbers as scores and sketches get a column and fit
    in memory never panics; the concatenation of its replies parses, with a
    reader written from the protocol, as one reply per command, of the types of
    the command's signature (so a pipelining client knows what each reply is);
    and the store stays well formed. *)
Theorem sessions_served cmds s :
  0 <= EpoolMaxSize cfg → Forall regular cmds → good cfg s → acceptable_all cmds s = true →
  ∃ rs s' vs, serve cmds s = Ret (rs, s') ∧ good cfg s' ∧ parse_all (concat rs) = Some vs ∧
    Forall2 (λ x v, ∃ t, has_type v t ∧ t ∈ signature (Cmd x.2)) cmds vs.
Proof.
  intros Hp Hr Hs Ha. destruct (serve_good cmds s Hp Hr Hs Ha) as (rs & s' & E & Hs' & HF).
  destruct (answered_list (λ x, Cmd x.2) _ _ HF) as (vs & -> & Hw & H2).
  exists (wire <$> vs), s', vs. split_and!; [done..| |done]. by apply parse_all_wire.
Qed.

End Sessions.

(** ** Witness: a session over all the stores *)

Definition demo_session : script :=
  (λ c, (demo_world 1000, mkCommand (bs c.1) (bs <$> c.2))) <$>
    [("SET", ["k"; "v"; "EX"; "10"]); ("GET", ["k"]); ("TTL", ["k"]);
     ("ZADD", ["z"; "2"; "b"; "1"; "a"]); ("ZRANK", ["z"; "b"]);
     ("SADD", ["s"; "x"; "y"; "x"]); ("CMS.INITBYDIM", ["c"; "3"; "2"]);
     ("CMS.INCRBY", ["c"; "i"; "7"]); ("CMS.QUERY", ["c"; "i"]); ("NOPE", [])]%string.

Lemma sessions_served_witness :
  ∃ rs s', serve demo_log Config.default demo_session init = Ret (rs, s') ∧
    parse_all (concat rs) =
      Some [Simple (bs "OK"); Bulk (bs "v"); Integer 10; Integer 2; Integer 1; Integer 2;
            Simple (bs "OK"); Array [Bulk (bs "7")]; Array [Bulk (bs "7")];
            Error (bs "CMD NOT FOUND")].
Proof.
  destruct (sessions_served demo_log Config.default demo_session init) as (rs & s' & vs & E & _ & P & _).
  - vm_compute. congruence.
  - apply (bool_decide_unpack _). vm_compute. exact I.
  - exact good_init.
  - vm_compute. reflexivity.
  - exists rs, s'. split; [exact E|]. rewrite P. vm_compute in E. injection E as <- <-.
    vm_compute in P. injection P as <-. reflexivity.
Defined.

End Served.
