(* ===== verification/SingleThreaded.v ===== *)
(** * The single-threaded server, end to end
    ([RunIoMultiplexingServer] of src/internal/server/server.go over
    src/internal/core)

    The event loop of [EventLoop.v] with its effects on the stores recorded as a
    list of actions: the commands it executed, with the descriptor they came
    from, and the expiry passes.  The loop refines the sequential interpreter
    that replays these actions, and the clients' streams of replies are well
    typed ([Replies], [Served]). *)

From Stdlib Require Import ZArith Lia Ascii.
From Stdlib Require Import SpecFloat.
From stdpp Require Import base gmap list strings numbers sorting sets fin_maps.
From S2P Require Import Prelude GoStrings Resp GoFloat Config EvictionPool Dict SimpleSet.
From S2P Require Import Cms Item BTree SkipList SortedSet Commands Expire CommandFacts ZSetFacts.
From S2P Require Import Iomux Worker Server EventLoop Replies Served.

Module SingleThreaded.
Import Resp Config EvictionPool Core CommandFacts ZSet Replies Served EventLoop Iomux.

(** ** Actions *)

Inductive act :=
  (** a command from [fd], and whether its reply could be written *)
  | Executed (fd : Z) (w : world) (cmd : Command) (sent : bool)
  | Expired (ord : nat → Dict.Dict → list bytes) (clk : nat → nat → Z)
  (** bytes that crash the decoder, or a connection that cannot be monitored *)
  | Broken.

Section Loop.
Context (math_Log : F64.float64 → F64.float64) (unicode_upper : Z → Z).
Context `{!Sorter Less} (cfg : config) (serverFd : Z).

Definition reads (a : answer) (fd : Z) : list act :=
  match Server.readCommand unicode_upper (a_read a) with
  | Ret (inr cmd) => [Executed fd (a_world a) cmd (bool_decide (a_write a = None))]
  | Ret (inl _) => []
  | _ => [Broken]
  end.

Definition accepts (r : bytes + Z) (monitor : option bytes) : list act :=
  match r, monitor with inr _, Some _ => [Broken] | _, _ => [] end.

(** The places from which the loop does nothing that is recorded. *)
Definition silent (l : loop) : Prop :=
  match pc l with
  | Serve _ _ | Expire => False
  | Busy (e :: _) => Fd e ≠ serverFd
  | _ => True
  end.

(** The steps of [EventLoop.step] with their actions. *)
Inductive lstep (l : loop) : list act → loop → Prop :=
  | l_serve fd evs a :
      pc l = Serve fd evs →
      lstep l (reads a fd) (EventLoop.serve math_Log unicode_upper cfg a fd evs l)
  | l_accept e evs r monitor :
      pc l = Busy (e :: evs) → Fd e = serverFd →
      (∀ fd, r = inr fd → fd ≠ serverFd ∧ fd ∉ clients l) →
      lstep l (accepts r monitor) (accept r monitor evs l)
  | l_expire ord clk d :
      pc l = Expire → ActiveDeleteExpiredKeys ord clk (dictStore (keys l)) = Ret d →
      lstep l [Expired ord clk] (at_ (keys_to l (with_dict (keys l) d (ePool (keys l)))) ExpireSwap)
  | l_silent l' :
      silent l → main math_Log unicode_upper cfg serverFd l l' → lstep l [] l'
  | l_wakes l' : wakes l l' → lstep l [] l'
  | l_signal : signalled l = false → lstep l [] (signal l).

Inductive lsteps : loop → list act → loop → Prop :=
  | lsteps_refl l : lsteps l [] l
  | lsteps_snoc l acts l1 acts' l2 :
      lsteps l acts l1 → lstep l1 acts' l2 → lsteps l (acts ++ acts') l2.

(** Nothing of the loop is left out. *)
Lemma step_labelled l l' :
  step math_Log unicode_upper cfg serverFd l l' → ∃ acts, lstep l acts l'.
Proof.
  intros [l1 H|l1 H|H]; [|eexists; by apply l_wakes|eexists; by apply l_signal]. destruct (pc l) eqn:Ep.
  all: try (exists []; apply l_silent; [unfold silent; rewrite Ep; done|done]).
  - destruct H; try congruence. eexists. by eapply l_expire.
  - destruct evs as [|e evs]; [exists []; apply l_silent; [unfold silent; by rewrite Ep|done]|].
    destruct (decide (Fd e = serverFd)).
    + destruct H; try congruence. eexists. by eapply l_accept.
    + exists []. apply l_silent; [unfold silent; by rewrite Ep|done].
  - destruct H; try congruence. eexists. by eapply l_serve.
Qed.

(** ** The sequential specification *)

(** What an action writes and the store it leaves. *)
Definition perform (a : act) (s : store) : outcome (list (Z * bytes) * store) :=
  match a with
  | Executed fd w cmd sent =>
      '(reply, s) ← ExecuteAndResponse math_Log cfg w cmd s;
      Ret (if (sent : bool) then [(fd, reply)] else [], s)
  | Expired ord clk =>
      d ← ActiveDeleteExpiredKeys ord clk (dictStore s);
      Ret ([], with_dict s d (ePool s))
  | Broken => Panic IndexOutOfRange
  end.

Fixpoint replay (acts : list act) (s : store) : outcome (list (Z * bytes) * store) :=
  match acts with
  | [] => Ret ([], s)
  | a :: acts =>
      '(out, s) ← perform a s;
      '(out', s) ← replay acts s;
      Ret (out ++ out', s)
  end.

Lemma replay_app a b s out s' :
  replay a s = Ret (out, s') →
  replay (a ++ b) s = ('(out', s'') ← replay b s'; Ret (out ++ out', s'')).
Proof.
  revert s out. induction a as [|x a IH]; intros s out; cbn.
  { intros [= <- <-]. by destruct (replay b s) as [[]| |]. }
  destruct (perform x s) as [[o1 s1]| |]; cbn; [|done..].
  destruct (replay a s1) as [[o2 s2]| |] eqn:E; cbn; [|done..]. intros [= <- <-].
  rewrite (IH _ _ E). destruct (replay b s2) as [[o3 s3]| |]; cbn; [|done..]. by rewrite app_assoc.
Qed.

(** ** The loop refines it *)

Lemma silent_frame l l' :
  silent l → main math_Log unicode_upper cfg serverFd l l' →
  keys l' = keys l ∧ written l' = written l ∧ pc l' ≠ Fatal.
Proof.
  intros Hs H. unfold silent in Hs.
  destruct H; rewrite ?H in Hs; try done;
    try match goal with E : cas _ = _ |- _ => apply cas_frame in E as (_ & _ & _ & ? & ? & _) end;
    cbn; split_and!; try done; repeat case_match; done.
Qed.

Lemma serve_replays a fd evs l :
  pc (EventLoop.serve math_Log unicode_upper cfg a fd evs l) ≠ Fatal →
  ∃ out, replay (reads a fd) (keys l) =
           Ret (out, keys (EventLoop.serve math_Log unicode_upper cfg a fd evs l)) ∧
         written (EventLoop.serve math_Log unicode_upper cfg a fd evs l) = written l ++ out.
Proof.
  unfold EventLoop.serve, reads. destruct (Server.readCommand _ _) as [[err|cmd]| |]; [|..|done|done].
  - intros _. exists []. rewrite app_nil_r. by destruct (disconnected err).
  - cbn. destruct (ExecuteAndResponse _ _ _ _ _) as [[reply s]| |]; [|done..]. cbn.
    intros _. destruct (a_write a) as [err|]; eexists; (split; [done|]); cbn; [by rewrite app_nil_r|done].
Qed.

Lemma lstep_replays l acts l' :
  lstep l acts l' → pc l' ≠ Fatal →
  pc l ≠ Fatal ∧ ∃ out, replay acts (keys l) = Ret (out, keys l') ∧ written l' = written l ++ out.
Proof.
  intros [fd evs a Ep|e evs r monitor Ep Ef Hr|ord clk d Ep Ed|l1 Hs Hm|l1 Hw|Hs] Hf.
  - split; [by rewrite Ep|]. by apply serve_replays.
  - split; [by rewrite Ep|]. exists []. rewrite app_nil_r.
    destruct r as [err|fd]; [done|]. by destruct monitor.
  - split; [by rewrite Ep|]. exists []. cbn [replay perform]. rewrite Ed. by rewrite app_nil_r.
  - destruct (silent_frame _ _ Hs Hm) as (E1 & E2 & _). split; [by destruct Hm; rewrite H|].
    exists []. by rewrite app_nil_r, E1, E2.
  - split; [by destruct Hw as [H|evs H _ _ _]; rewrite H|]. exists []. rewrite app_nil_r. by destruct Hw.
  - split; [done|]. exists []. by rewrite app_nil_r.
Qed.

Lemma loop_replays l acts l' :
  lsteps l acts l' → pc l' ≠ Fatal →
  ∃ out, replay acts (keys l) = Ret (out, keys l') ∧ written l' = written l ++ out.
Proof.
  induction 1 as [l|l acts l1 acts' l2 _ IH Hs]; intros Hf.
  { exists []. by rewrite app_nil_r. }
  destruct (lstep_replays _ _ _ Hs Hf) as (Hf1 & out' & E' & W').
  destruct (IH Hf1) as (out & E & W). exists (out ++ out').
  rewrite (replay_app _ _ _ _ _ E), E'. cbn. by rewrite W', W, app_assoc.
Qed.

(** ** Availability and types *)

(** Actions that the environment and the clients may cause: map orders that are
    possible, no line break in an argument that an error text may echo. *)
Definition orderly (a : act) : Prop :=
  match a with
  | Executed _ w cmd _ => regular (w, cmd)
  | Expired ord _ => ∀ i d, iter_order (Dict.expiredDictStore d) (ord i d)
  | Broken => False
  end.

(** Each command is acceptable in the store it meets. *)
Fixpoint acceptable_acts (acts : list act) (s : store) : bool :=
  match acts with
  | [] => true
  | a :: acts =>
      match a with Executed _ _ cmd _ => acceptable math_Log cmd s | _ => true end &&
      match perform a s with Ret (_, s) => acceptable_acts acts s | _ => true end
  end.

Lemma acceptable_app a b s out s' :
  replay a s = Ret (out, s') →
  acceptable_acts (a ++ b) s = acceptable_acts a s && acceptable_acts b s'.
Proof.
  revert s out. induction a as [|x a IH]; intros s out; cbn [app replay acceptable_acts].
  { by intros [= _ <-]. }
  destruct (perform x s) as [[o1 s1]| |]; cbn [mbind outcome_bind]; [|done..].
  destruct (replay a s1) as [[o2 s2]| |] eqn:E; cbn [mbind outcome_bind]; [|done..]. intros [= _ <-].
  by rewrite (IH _ _ E), andb_assoc.
Qed.

(** An expiry pass keeps the store well formed, and always ends. *)
Lemma expiry_good ord clk s :
  (∀ i d, iter_order (Dict.expiredDictStore d) (ord i d)) → good cfg s →
  ∃ d, ActiveDeleteExpiredKeys ord clk (dictStore s) = Ret d ∧ good cfg (with_dict s d (ePool s)).
Proof.
  intros Ho [Hw Hz Hs]. pose proof Hw as [Hd Hp Hc].
  destruct (Expire.expire_loop_spec ord clk Ho (S (size (Dict.expiredDictStore (dictStore s)))) 0
              (dictStore s) Hd) as (ks & E & _); [lia|].
  exists (Dict.delete_all (dictStore s) ks). split; [done|].
  split; [apply wf_store_dict; [done|by apply Dict.delete_all_wf|done]|done|by apply delete_all_strings].
Qed.

(** The commands whose replies were sent, with their descriptors. *)
Definition sent_of (a : act) : list (Z * Command) :=
  match a with Executed fd _ cmd true => [(fd, cmd)] | _ => [] end.
Definition sent (acts : list act) : list (Z * Command) := concat (sent_of <$> acts).

Definition matches (x : Z * Command) (y : Z * bytes) : Prop :=
  x.1 = y.1 ∧ answers (signature (Cmd x.2)) y.2.

Lemma perform_good a s :
  0 <= EpoolMaxSize cfg → orderly a → good cfg s →
  match a with Executed _ _ cmd _ => acceptable math_Log cmd s | _ => true end = true →
  ∃ out s', perform a s = Ret (out, s') ∧ good cfg s' ∧ Forall2 matches (sent_of a) out.
Proof.
  intros Hp Ho Hs Ha. destruct a as [fd w cmd snt|ord clk|]; cbn [perform orderly] in *; [|..|done].
  - destruct Ho as [Ho He]. destruct (execute_served math_Log cfg w Hp Ho cmd s Hs Ha He)
      as (r & s' & -> & Hs' & Hr). cbn [mbind outcome_bind]. eexists _, s'. split; [done|]. split; [done|].
    destruct snt; repeat constructor; done.
  - destruct (expiry_good ord clk s Ho Hs) as (d & -> & Hs'). cbn. eexists [], _. split; [done|].
    split; [done|constructor].
Qed.

Lemma replay_good acts s :
  0 <= EpoolMaxSize cfg → Forall orderly acts → good cfg s → acceptable_acts acts s = true →
  ∃ out s', replay acts s = Ret (out, s') ∧ good cfg s' ∧ Forall2 matches (sent acts) out.
Proof.
  intros Hp Ho. revert s. induction Ho as [|a acts Ha _ IH]; intros s Hs Hac; cbn [replay].
  { exists [], s. split; [done|]. split; [done|constructor]. }
  cbn [acceptable_acts] in Hac. apply andb_true_iff in Hac as [Hac Hrest].
  destruct (perform_good a s Hp Ha Hs Hac) as (o1 & s1 & E1 & Hs1 & H1). rewrite E1 in Hrest |- *.
  destruct (IH s1 Hs1 Hrest) as (o2 & s2 & E2 & Hs2 & H2). cbn [mbind outcome_bind]. rewrite E2.
  eexists _, _. split; [done|]. split; [done|]. by apply Forall2_app.
Qed.

(** A loop that has not been broken and whose actions replay has not stopped. *)
Lemma serve_fatal a fd evs l out s :
  replay (reads a fd) (keys l) = Ret (out, s) →
  pc (EventLoop.serve math_Log unicode_upper cfg a fd evs l) ≠ Fatal.
Proof.
  unfold reads, EventLoop.serve. destruct (Server.readCommand _ _) as [[err|cmd]| |]; [|..|done|done].
  - by destruct (disconnected err).
  - cbn [replay perform]. destruct (ExecuteAndResponse _ _ _ _ _) as [[reply s1]| |]; [|done..].
    by destruct (a_write a).
Qed.

Lemma lstep_not_fatal l acts l' out s :
  lstep l acts l' → pc l ≠ Fatal → replay acts (keys l) = Ret (out, s) → pc l' ≠ Fatal.
Proof.
  intros [fd evs a Ep|e evs r monitor Ep Ef Hr|ord clk d Ep Ed|l1 Hs Hm|l1 Hw|Hs] Hf E; try done.
  - by eapply serve_fatal.
  - destruct r as [err|fd]; [done|]. by destruct monitor.
  - by destruct (silent_frame _ _ Hs Hm) as (_ & _ & ?).
  - by destruct Hw.
Qed.

Lemma loop_available l acts l' :
  0 <= EpoolMaxSize cfg → lsteps l acts l' → good cfg (keys l) → pc l ≠ Fatal →
  Forall orderly acts → acceptable_acts acts (keys l) = true → pc l' ≠ Fatal.
Proof.
  intros Hp H. induction H as [l|l acts l1 acts' l2 Hl IH Hs]; intros Hg Hf Ho Hac; [done|].
  apply Forall_app in Ho as [Ho Ho'].
  assert (Hac1 : acceptable_acts acts (keys l) = true).
  { clear -Hac. revert Hac. generalize (keys l). induction acts as [|a acts IH]; intros s; cbn; [done|].
    rewrite !andb_true_iff. intros [Ha Hr]. split; [done|]. destruct (perform a s) as [[]| |]; auto. }
  specialize (IH Hg Hf Ho Hac1). destruct (loop_replays _ _ _ Hl IH) as (out & E & _).
  destruct (replay_good acts (keys l) Hp Ho Hg Hac1) as (out1 & s1 & E1 & Hg1 & _).
  rewrite E in E1. injection E1 as <- <-.
  rewrite (acceptable_app _ _ _ _ _ E), Hac1 in Hac. cbn in Hac.
  destruct (replay_good acts' (keys l1) Hp Ho' Hg1 Hac) as (out2 & s2 & E2 & _).
  by eapply lstep_not_fatal.
Qed.

(** ** What one client reads *)

Definition of_fd {A} (fd : Z) (l : list (Z * A)) : list A :=
  omap (λ x, if decide (x.1 = fd) then Some x.2 else None) l.

Lemma matches_of_fd fd l out :
  Forall2 matches l out →
  Forall2 (λ cmd r, answers (signature (Cmd cmd)) r) (of_fd fd l) (of_fd fd out).
Proof.
  induction 1 as [|[f c] [f' r] l out [E Ha] _ IH]; [constructor|]. cbn in E, Ha. subst f'.
  unfold of_fd. cbn. case_decide; [by constructor|done].
Qed.

End Loop.

(** C9: the single-threaded server refines the sequential interpreter: from its
    start, along every interleaving with the signal and for all answers of the
    kernel, as long as it has not stopped on a fatal error, the stores are the
    ones obtained by executing the commands it read and its expiry passes one
    after the other, and the replies written, with their descriptors, are the
    ones that execution gives. *)
Theorem event_loop_refines math_Log unicode_upper `{!Sorter Less} cfg listen tcp file mux monitor now
    serverFd l0 acts l :
  boot listen tcp file mux monitor now = inr (serverFd, l0) →
  lsteps math_Log unicode_upper cfg serverFd l0 acts l → pc l ≠ Fatal →
  replay math_Log cfg acts init = Ret (written l, keys l).
Proof.
  intros Eb Hl Hf. assert (El : l0 = start serverFd now).
  { unfold boot in Eb. repeat case_match; by simplify_eq. }
  subst l0. destruct (loop_replays _ _ _ _ _ _ _ Hl Hf) as (out & E & W). cbn in E, W.
  by rewrite E, W.
Qed.

(** C8: the single-threaded server stays up and its clients can read what it
    writes: while the commands it reads are acceptable in the store they meet
    and no read breaks the decoder, it never stops on a fatal error, its stores
    stay well formed, and what it has written to a descriptor parses as one reply
    per command answered there, in order, each of the types of its command. *)
Theorem event_loop_serves math_Log unicode_upper `{!Sorter Less} cfg serverFd now acts l :
  0 <= EpoolMaxSize cfg → good cfg init →
  lsteps math_Log unicode_upper cfg serverFd (start serverFd now) acts l →
  Forall orderly acts → acceptable_acts math_Log cfg acts init = true →
  pc l ≠ Fatal ∧ good cfg (keys l) ∧
  ∀ fd, ∃ vs, parse_all (concat (of_fd fd (written l))) = Some vs ∧
    Forall2 (λ cmd v, ∃ t, has_type v t ∧ t ∈ signature (Cmd cmd)) (of_fd fd (sent acts)) vs.
Proof.
  intros Hp Hg Hl Ho Ha.
  assert (Hf : pc l ≠ Fatal) by (by eapply (loop_available math_Log unicode_upper cfg serverFd (start serverFd now))).
  destruct (loop_replays _ _ _ _ _ _ _ Hl Hf) as (out & E & W). cbn in E, W.
  destruct (replay_good math_Log cfg acts init Hp Ho Hg Ha) as (out' & s' & E' & Hg' & HF).
  rewrite E in E'. injection E' as <- <-. split_and!; [done..|]. intros fd.
  apply (matches_of_fd fd) in HF. rewrite W. clear -HF.
  destruct (answered_list Cmd _ _ HF) as (vs & -> & Hw & H2).
  exists vs. split; [|done]. by apply parse_all_wire.
Qed.

(** ** Witness: listener 3 accepts client 5, which sends PING *)

Lemma lsteps_cons math_Log unicode_upper `{!Sorter Less} cfg serverFd l a l1 b l2 :
  lstep math_Log unicode_upper cfg serverFd l a l1 →
  lsteps math_Log unicode_upper cfg serverFd l1 b l2 →
  lsteps math_Log unicode_upper cfg serverFd l (a ++ b) l2.
Proof.
  intros Hs H. revert Hs. induction H as [l1|l1 b l2 b' l3 _ IH Hs']; intros Hs.
  - rewrite app_nil_r. apply (lsteps_snoc _ _ _ _ l [] l); [constructor|done].
  - rewrite app_assoc. econstructor; eauto.
Qed.

Definition demo_acts : list act :=
  [Executed 5 (a_world demo_answer) (mkCommand (bs "PING") []) true].
Definition demo_served : loop :=
  EventLoop.serve demo_log demo_upper Config.default demo_answer 5 [] demo_serving.

Lemma demo_lsteps : lsteps demo_log demo_upper Config.default 3 (start 3 0) demo_acts demo_served.
Proof.
  change demo_acts with ([] ++ ([] ++ ([] ++ ([] ++ ([] ++ ([] ++ ([] ++ ([] ++ ([] ++ ([] ++ ([] ++
    ([] ++ ([] ++ (demo_acts ++ [])))))))))))))).
  eapply lsteps_cons; [apply l_silent; [done|apply main_test; done]|].
  eapply lsteps_cons; [apply l_silent; [done|apply (main_due _ _ _ _ _ 0); done]|].
  eapply lsteps_cons; [apply l_wakes, (wait_events _ [mkEvent 3 OpRead]);
                 [done|done|apply NoDup_singleton|apply Forall_singleton; cbn; set_solver]|].
  eapply lsteps_cons; [apply l_silent; [done|eapply main_busy_cas; done]|].
  eapply lsteps_cons; [apply (l_accept _ _ _ _ _ (mkEvent 3 OpRead) [] (inr 5) None); try done|].
  { intros fd [= <-]. cbn. split; [lia|set_solver]. }
  eapply lsteps_cons; [apply l_silent; [done|apply main_done; done]|].
  eapply lsteps_cons; [apply l_silent; [done|apply main_busy_swap; done]|].
  eapply lsteps_cons; [apply l_silent; [done|apply main_test; done]|].
  eapply lsteps_cons; [apply l_silent; [done|apply (main_due _ _ _ _ _ 0); done]|].
  eapply lsteps_cons; [apply l_wakes, (wait_events _ [mkEvent 5 OpRead]);
                 [done|done|apply NoDup_singleton|apply Forall_singleton; cbn; set_solver]|].
  eapply lsteps_cons; [apply l_silent; [done|eapply main_busy_cas; done]|].
  eapply lsteps_cons; [apply l_silent; [cbn; lia|apply (main_client _ _ _ _ _ (mkEvent 5 OpRead) []); [done|cbn; lia]]|].
  eapply lsteps_cons; [apply l_silent; [done|apply main_client_load; done]|].
  eapply lsteps_cons; [apply (l_serve _ _ _ _ _ 5 [] demo_answer); done|].
  match goal with |- lsteps _ _ _ _ ?l _ ?l' => replace l with l' by (vm_compute; reflexivity) end.
  constructor.
Qed.

Lemma event_loop_refines_witness :
  replay demo_log Config.default demo_acts init = Ret (written demo_served, keys demo_served).
Proof.
  apply (event_loop_refines demo_log demo_upper Config.default None true (inr 3) None None 0 3 (start 3 0)).
  - reflexivity.
  - exact demo_lsteps.
  - vm_compute. congruence.
Defined.

Lemma event_loop_serves_witness :
  pc demo_served ≠ Fatal ∧
  ∃ vs, parse_all (concat (of_fd 5 (written demo_served))) = Some vs ∧ vs = [Simple (bs "PONG")].
Proof.
  destruct (event_loop_serves demo_log demo_upper Config.default 3 0 demo_acts demo_served)
    as (Hf & _ & H).
  - vm_compute. congruence.
  - exact good_init.
  - exact demo_lsteps.
  - repeat constructor.
  - vm_compute. reflexivity.
  - split; [exact Hf|]. destruct (H 5) as (vs & E & _). exists vs. split; [exact E|].
    vm_compute in E. injection E as <-. reflexivity.
Defined.

End SingleThreaded.
