(* ===== verification/SystemStats.v ===== *)
(** * System statistics (src/utils/system.go)

    What package gopsutil reports, an error text or the figures, is an
    argument.  [fmt]'s [%.2f] is computed exactly, ties to even. *)

From Stdlib Require Import ZArith Lia Ascii.
From Stdlib Require Import SpecFloat.
From stdpp Require Import base gmap list strings numbers.
From S2P Require Import Prelude GoStrings GoFloat.

Module SystemStats.
Import F64.

(** ** [fmt.Sprintf("%.2f", x)] *)

Definition pad2 (s : bytes) : bytes := replicate (2 - length s) (chr 48) ++ s.

(** [c] hundredths, in decimal. *)
Definition hundredths (c : Z) : bytes :=
  Strconv.utoa (c / 100) ++ bs "." ++ pad2 (Strconv.utoa (c mod 100)).

Definition Sprintf_2f (x : float64) : bytes :=
  match x with
  | S754_nan => bs "NaN"
  | S754_infinity s => if s then bs "-Inf" else bs "+Inf"
  | S754_zero s => (if s then bs "-" else []) ++ bs "0.00"
  | S754_finite s m e =>
      (if s then bs "-" else [])
      ++ hundredths (if 0 <=? e then Z.pos m * 2 ^ e * 100
                     else div_half_even (Z.pos m * 100) (2 ^ (- e)))
  end.

(** ** The monitors *)

(** The fields of [mem.VirtualMemoryStat] that are read. *)
Record VirtualMemoryStat := mkStat { UsedPercent : float64; Used : Z; Total : Z }.

Record readings := mkReadings {
  cpu_percent : bytes + list float64;
  virtual_memory : bytes + VirtualMemoryStat
}.

Definition NA : bytes := bs "N/A".

(** [CPUMonitor.Check]: the value and the error; [percent[0]] is checked. *)
Definition CPUMonitor_Check (g : readings) : outcome (bytes * option bytes) :=
  match cpu_percent g with
  | inl err => Ret (NA, Some err)
  | inr [] => Panic IndexOutOfRange
  | inr (p :: _) => Ret (Sprintf_2f p ++ bs "%", None)
  end.

(** [float64(n)/1024/1024] *)
Definition mebibytes (n : Z) : float64 := div (div (of_Z n) (of_Z 1024)) (of_Z 1024).

Definition MemoryMonitor_Check (g : readings) : gmap bytes bytes * option bytes :=
  match virtual_memory g with
  | inl err =>
      (list_to_map [(bs "used_percent", NA); (bs "used_mb", NA); (bs "total_mb", NA)], Some err)
  | inr vmStat =>
      (list_to_map [(bs "used_percent", Sprintf_2f (UsedPercent vmStat) ++ bs "%");
                    (bs "used_mb", Sprintf_2f (mebibytes (Used vmStat)));
                    (bs "total_mb", Sprintf_2f (mebibytes (Total vmStat)))], None)
  end.

(** A Go map of strings read at a missing key gives the empty string. *)
Definition at_ (m : gmap bytes bytes) (k : string) : bytes := default [] (m !! bs k).

Definition GetAllStats (g : readings) : outcome (gmap bytes bytes * option bytes) :=
  '(cpuStat, err) ← CPUMonitor_Check g;
  let stats : gmap bytes bytes :=
    {[ bs "cpu_percent" := match err with Some _ => NA | None => cpuStat end ]} in
  let '(memStats, err) := MemoryMonitor_Check g in
  let stats :=
    match err with
    | Some _ =>
        <[bs "memory_total_mb" := NA]> (<[bs "memory_used_mb" := NA]>
          (<[bs "memory_used_percent" := NA]> stats))
    | None =>
        <[bs "memory_total_mb" := at_ memStats "total_mb"]>
          (<[bs "memory_used_mb" := at_ memStats "used_mb"]>
            (<[bs "memory_used_percent" := at_ memStats "used_percent"]> stats))
    end in
  Ret (stats, None).

(** ** Every answer has the same four figures *)

(** The figures a client reads, each independent of the other monitor. *)
Definition cpu_figure (g : readings) : bytes :=
  match cpu_percent g with
  | inr (p :: _) => Sprintf_2f p ++ bs "%"
  | _ => NA
  end.

Definition memory_figure (g : readings) (f : VirtualMemoryStat → bytes) : bytes :=
  match virtual_memory g with inr st => f st | inl _ => NA end.

Lemma GetAllStats_exact g :
  GetAllStats g =
    match cpu_percent g with
    | inr [] => Panic IndexOutOfRange
    | _ => Ret (list_to_map
        [(bs "cpu_percent", cpu_figure g);
         (bs "memory_used_percent", memory_figure g (λ st, Sprintf_2f (UsedPercent st) ++ bs "%"));
         (bs "memory_used_mb", memory_figure g (λ st, Sprintf_2f (mebibytes (Used st))));
         (bs "memory_total_mb", memory_figure g (λ st, Sprintf_2f (mebibytes (Total st))))],
        None)
    end.
Proof.
  unfold GetAllStats, CPUMonitor_Check, MemoryMonitor_Check, cpu_figure, memory_figure.
  destruct (cpu_percent g) as [err|[|p ps]]; cbn -[insert list_to_map]; [|done|];
    destruct (virtual_memory g) as [err'|st]; cbn -[insert list_to_map];
    unfold at_; cbn [list_to_map fst snd]; simplify_map_eq; f_equal; f_equal;
    apply map_eq; intros k; cbn [list_to_map foldr fst snd];
    destruct (decide (k = bs "cpu_percent")) as [->|]; simplify_map_eq; try done;
    destruct (decide (k = bs "memory_used_percent")) as [->|]; simplify_map_eq; try done;
    destruct (decide (k = bs "memory_used_mb")) as [->|]; simplify_map_eq; try done;
    destruct (decide (k = bs "memory_total_mb")) as [->|]; simplify_map_eq; done.
Qed.

End SystemStats.
