(* ===== verification/Gateway.v ===== *)
(** * The HTTP gateway (src/cmd/gateway/main.go)

    The JSON body of a POST to /command is decoded, its command is split into
    words and sent to the server as one RESP array, and the reply, at most 512
    bytes of it, is decoded and written as JSON; /stats reports the figures of
    [SystemStats].  Inputs are the bytes of the request's body and what the
    outside answers: the results of the dial, the write and the read ([remote])
    and the system's figures. *)

From Stdlib Require Import ZArith Lia Ascii.
From stdpp Require Import base gmap list strings numbers sorting sets fin_maps.
From S2P Require Import Prelude GoStrings Resp GoFloat Config EvictionPool Dict Item Json Commands Worker Server SystemStats.

Module Gateway.
Import Resp Slice Strings Config EvictionPool.
Import Json(json(..), marshal, marshal_map, appendString, braces, fields, readValue, maxNestingDepth).
Import Server(zeros, readCommandConn).

(** ** Data *)

Record CommandRequest := mkRequest { Cmd_ : bytes }.

Record CommandResponse := mkResponse { Output : value; Error : bytes }.

(** The calls made on the connection to the server; durations in seconds. *)
Inductive action :=
  | Dial (addr : bytes) (timeout : Z)
  | SetDeadline (timeout : Z)
  | Write (b : bytes)
  | Read (n : nat)
  | Close.

(** The other end: an error of the dial, an error of the write, and what is
    there to be read once a request was written. *)
Record remote := mkRemote {
  r_dial : option bytes;
  r_write : bytes → option bytes;
  r_read : bytes → bytes + bytes
}.

(** A request; reading [Body] ends with [io.EOF] or, when [eof] is false, with
    another error. *)
Record request := mkHttp { Method : bytes; Body : bytes; eof : bool }.

Record ResponseWriter := mkWriter {
  header : gmap bytes bytes;
  status : Z;
  content : bytes
}.

Definition fresh : ResponseWriter := mkWriter ∅ 200 [].

Definition set_header (w : ResponseWriter) (k v : string) : ResponseWriter :=
  mkWriter (<[bs k := bs v]> (header w)) (status w) (content w).

(** [http.Error] *)
Definition http_Error (w : ResponseWriter) (msg : string) (code : Z) : ResponseWriter :=
  let w := set_header w "Content-Type" "text/plain; charset=utf-8" in
  let w := set_header w "X-Content-Type-Options" "nosniff" in
  mkWriter (header w) code (content w ++ bs msg ++ [LF]).

(** ** JSON *)

(** The header and [json.NewEncoder(w).Encode]. *)
Definition encode_json (w : ResponseWriter) (text : bytes) : ResponseWriter :=
  let w := set_header w "Content-Type" "application/json" in
  mkWriter (header w) (status w) (content w ++ text ++ [LF]).

(** By the tags of [CommandResponse]: an empty error is left out. *)
Definition marshal_response (r : CommandResponse) : bytes :=
  braces (fields ((bs "output", marshal (Output r)) ::
                  if decide (Error r = []) then [] else [(bs "error", appendString (Error r))])).

(** The key of the field [Cmd], in any case. *)
Definition is_cmd (k : bytes) : bool := bool_decide (map upper_ascii k = bs "CMD").

(** The fields of an object, in order, into the request: [null] is ignored, and
    a value that is no string is an error. *)
Fixpoint store_fields (fs : list (bytes * json)) (cmd : bytes) : option bytes :=
  match fs with
  | [] => Some cmd
  | (k, v) :: fs =>
      if is_cmd k then
        match v with
        | JStr s => store_fields fs s
        | JNull => store_fields fs cmd
        | _ => None
        end
      else store_fields fs cmd
  end.

(** [json.NewDecoder(r.Body).Decode(&req)]: one value is read; [None] for an
    error.  The end of a bare word is only known from what follows it. *)
Definition decode_request (r : request) : option CommandRequest :=
  '(v, rest) ← readValue maxNestingDepth (Body r);
  match v with
  | JObj fs => mkRequest <$> store_fields fs []
  | JNull => if decide (rest = [] ∧ eof r = false) then None else Some (mkRequest [])
  | _ => None
  end.

(** What a handler does to the outside, and how it ends. *)
Abbreviation effect A := (list action * outcome A)%type.
Abbreviation HandlerFunc := (ResponseWriter → request → effect ResponseWriter).

Section Handlers.
Context (gcfg : gateway_config) (srv : remote) (sys : SystemStats.readings).

(** ** Talking to the server *)

(** From the split of the command to the decoded reply. *)
Definition converse (cmd : bytes) : effect (value * option bytes) :=
  let parts := Fields (TrimSpace cmd) in
  if decide (parts = []) then ([], Ret (VNil, Some (bs "empty command")))
  else
    let cmdArray := map VStr parts in
    let respData := Encode (VArr cmdArray) false in
    match r_write srv respData with
    | Some err => ([Write respData], Ret (VNil, Some err))
    | None =>
        ([Write respData; Read 512],
         match r_read srv respData with
         | inl err =>
             Ret (VNil, Some (if decide (err = bs "EOF")
                              then bs "connection closed by server: " ++ err else err))
         | inr avail =>
             let rawResponse := take 512 avail in
             r ← Decode (mk rawResponse (zeros rawResponse));
             match r with
             | inl err => Ret (VStr rawResponse, None)
             | inr decodedResponse => Ret (decodedResponse, None)
             end
         end)
    end.

(** The deferred [Close] runs on every way out, a panic included. *)
Definition sendToRedis (cmd : bytes) : effect (value * option bytes) :=
  let redisAddr :=
    if decide (RedisAddr gcfg = []) then bs "localhost:6379" else RedisAddr gcfg in
  let dial := Dial redisAddr 15 in
  match r_dial srv with
  | Some err => ([dial], Ret (VNil, Some err))
  | None =>
      let '(acts, res) := converse cmd in
      (dial :: SetDeadline 30 :: acts ++ [Close], res)
  end.

(** ** Handlers *)

Definition handleCommand : HandlerFunc := λ w r,
  match decode_request r with
  | None => ([], Ret (http_Error w "Invalid JSON" 400))
  | Some req =>
      let '(acts, res) := sendToRedis (Cmd_ req) in
      (acts,
       '(output, err) ← res;
       let resp := mkResponse output (match err with Some e => e | None => [] end) in
       Ret (encode_json w (marshal_response resp)))
  end.

Definition handleStats : HandlerFunc := λ w r,
  ([],
   '(stats, err) ← SystemStats.GetAllStats sys;
   match err with
   | Some _ => Ret (http_Error w "Failed to get system stats" 500)
   | None => Ret (encode_json w (marshal_map stats))
   end).

Definition corsMiddleware (next : HandlerFunc) : HandlerFunc := λ w r,
  let w := set_header w "Access-Control-Allow-Origin" "*" in
  let w := set_header w "Access-Control-Allow-Methods" "*" in
  let w := set_header w "Access-Control-Allow-Headers" "*" in
  if decide (Method r = bs "OPTIONS")
  then ([], Ret (mkWriter (header w) 200 (content w)))
  else next w r.

(** The routes [main] registers. *)
Definition route (path : bytes) : option HandlerFunc :=
  if decide (path = bs "/command") then Some (corsMiddleware handleCommand)
  else if decide (path = bs "/stats") then Some (corsMiddleware handleStats)
  else None.

(** [http.Server], as far as [main] fills it in; durations in nanoseconds. *)
Record http_Server := mkHttpServer { Addr : bytes; ReadTimeout : Z; WriteTimeout : Z }.

(** [time.Duration(n) * time.Second] *)
Definition seconds (n : Z) : Z := s64 (n * 1000000000).

(** The server [main] listens with; [ListenAndServe] only returns with an error,
    which [log.Fatal] reports. *)
Definition main_server : http_Server :=
  mkHttpServer (HTTPPort gcfg) (seconds (HTTPReadTimeout gcfg)) (seconds (HTTPWriteTimeout gcfg)).

(** ** The request that is sent *)

Lemma converse_words cmd p ps :
  Fields cmd = p :: ps →
  converse cmd =
    match r_write srv (encode_command (p :: ps)) with
    | Some err => ([Write (encode_command (p :: ps))], Ret (VNil, Some err))
    | None =>
        ([Write (encode_command (p :: ps)); Read 512],
         match r_read srv (encode_command (p :: ps)) with
         | inl err =>
             Ret (VNil, Some (if decide (err = bs "EOF")
                              then bs "connection closed by server: " ++ err else err))
         | inr avail =>
             let rawResponse := take 512 avail in
             r ← Decode (mk rawResponse (zeros rawResponse));
             match r with
             | inl err => Ret (VStr rawResponse, None)
             | inr decodedResponse => Ret (decodedResponse, None)
             end
         end)
    end.
Proof. intros H. unfold converse. by rewrite Fields_TrimSpace, H, decide_False by done. Qed.

End Handlers.

(** ** The reply that is read *)

(** A bulk reply is read back when its text ends within the 512 bytes of the
    buffer; otherwise the slice expression of the decoder is out of range. *)
Lemma Decode_bulk_512 v :
  small (length v) →
  let raw := take 512 (Encode (VStr v) false) in
  Decode (mk raw (zeros raw)) =
    if decide (length (len_line (chr 36) (length v)) + length v <= 512)%nat
    then Ret (inr (VStr v)) else Panic SliceOutOfRange.
Proof.
  intros Hs. pose proof (length_len_line_small (chr 36) _ Hs) as Hl. cbn [Encode].
  pose proof (length_len_line (chr 36) (length v)) as HL. unfold small in Hs.
  set (t := take (512 - length (len_line (chr 36) (length v))) (v ++ CRLF)).
  assert (take 512 (len_line (chr 36) (length v) ++ v ++ CRLF)
          = len_line (chr 36) (length v) ++ t) as Et by (rewrite take_app_ge by lia; done).
  rewrite Et. cbn zeta. set (x := zeros _).
  assert (cap (mk (len_line (chr 36) (length v) ++ t) x)
          = Z.max 512 (Z.of_nat (length (len_line (chr 36) (length v) ++ t)))) as Hcap.
  { unfold cap, x, zeros. cbn [vis extra]. rewrite length_app, length_replicate. lia. }
  assert (length (len_line (chr 36) (length v) ++ t) <= 512)%nat as Hlen
    by (rewrite <- Et, length_take; lia).
  rewrite Z.max_l in Hcap by lia. unfold Decode, DecodeOne. cbn [DecodeOne_fuel].
  unfold len; cbn [vis]. rewrite (proj2 (Z.eqb_neq _ 0)) by (rewrite length_app; cbn; lia).
  rewrite len_line_app, index_0. cbn [mbind outcome_bind].
  do 3 rewrite decide_False by done. rewrite decide_True by done.
  unfold readBulkString, readLen.
  rewrite readInt64_itoa by (apply small_len_ok; unfold small; lia).
  cbn [mbind outcome_bind]. rewrite (proj2 (Z.eqb_neq _ (-1))) by lia.
  rewrite <- HL, <- len_line_app, <- Nat2Z.inj_add, !s64_id by mlia. case_decide as Hd.
  - assert (t = v ++ take (512 - length (len_line (chr 36) (length v)) - length v) CRLF) as ->.
    { unfold t. by rewrite take_app_ge by lia. }
    rewrite sub_app by done. done.
  - unfold sub. rewrite Hcap, (proj2 (Z.leb_gt _ 512)) by lia. by rewrite andb_false_r.
Qed.

(** ** Requests of at most 512 bytes *)

Lemma concat_bounds parts :
  let n := length (concat (map (λ x, Encode x false) (map VStr parts))) in
  (length parts <= n)%nat ∧ Forall (λ q : bytes, length q <= n)%nat parts.
Proof.
  induction parts as [|q qs [IH1 IH2]]; cbn zeta; [done|]. cbn [map concat Encode].
  rewrite !length_app. pose proof (len_line_length (chr 36) (length q)). split.
  { cbn [length]. cbn zeta in IH1. lia. }
  constructor; [lia|]. eapply Forall_impl; [exact IH2|]. cbn beta. intros. lia.
Qed.

Lemma short_encodable parts : (length (encode_command parts) <= 512)%nat → encodable_strs parts.
Proof.
  unfold encode_command. cbn [Encode]. rewrite length_app. intros Hl.
  destruct (concat_bounds parts) as [H1 H2]. cbn zeta in *. split; [unfold small; lia|].
  eapply Forall_impl; [exact H2|]. cbn beta. unfold small. intros. lia.
Qed.

Lemma bulk_within parts q :
  q ∈ parts → (length (len_line (chr 36) (length q)) + length q
               <= length (encode_command parts))%nat.
Proof.
  intros Hq. unfold encode_command. cbn [Encode]. rewrite length_app.
  enough (length (len_line (chr 36) (length q)) + length q
          <= length (concat (map (λ x, Encode x false) (map VStr parts))))%nat by lia.
  induction Hq as [q qs|q q' qs _ IH]; cbn [map concat Encode]; rewrite !length_app; lia.
Qed.

(** ** Bodies *)

(** The command of a body that arrives completely. *)
Definition command_of (body : bytes) : option bytes := Cmd_ <$> decode_request (mkHttp (bs "POST") body true).

Lemma command_request body cmd :
  command_of body = Some cmd → decode_request (mkHttp (bs "POST") body true) = Some (mkRequest cmd).
Proof. unfold command_of. destruct (decode_request _) as [[c]|]; [|done]. by intros [= <-]. Qed.

(** What a client sends for a command line. *)
Definition request_body (cmd : bytes) : bytes := braces (fields [(bs "cmd", appendString cmd)]).

Lemma maxNestingDepth_S : maxNestingDepth = S (pred maxNestingDepth).
Proof. unfold maxNestingDepth. lia. Qed.

Lemma command_of_request_body cmd rest :
  Json.stops rest → command_of (request_body cmd ++ rest) = Some (Utf8.sanitize cmd).
Proof.
  intros Hr. unfold command_of, decode_request, request_body. cbn [Body].
  rewrite (Json.readValue_reads _ _ (JObj [(bs "cmd", JStr (Utf8.sanitize cmd))])); [done| |done].
  rewrite maxNestingDepth_S. apply (Json.reads_braces _ [(bs "cmd", appendString cmd)] [JStr (Utf8.sanitize cmd)]).
  apply Forall2_cons. split; [apply Json.reads_string|done].
Qed.

Lemma store_fields_well_formed fs cmd c :
  Forall (λ kv, Utf8.well_formed kv.1 ∧ Json.all_strings Utf8.well_formed kv.2) fs →
  Utf8.well_formed cmd → store_fields fs cmd = Some c → Utf8.well_formed c.
Proof.
  intros H. revert cmd. induction H as [|[k v] fs [_ Hv] _ IH]; intros cmd Hc; cbn [store_fields].
  { by intros [= <-]. }
  cbn in Hv. destruct (is_cmd k); [|by apply IH]. destruct v; try done; [by apply IH|].
  apply IH. by inversion Hv.
Qed.

(** A command is UTF-8, whatever the bytes of the body. *)
Lemma command_well_formed body cmd : command_of body = Some cmd → Utf8.well_formed cmd.
Proof.
  unfold command_of, decode_request. cbn [Body].
  destruct (readValue _ body) as [[v rest]|] eqn:E; [|done]. apply Json.readValue_well_formed in E. cbn.
  destruct v as [| | | | |fs]; try done.
  - case_decide; [done|]. intros [= <-]. apply Utf8.well_formed_nil.
  - destruct (store_fields fs []) as [c|] eqn:Ec; [|done]. intros [= <-]. inversion E; subst.
    eapply store_fields_well_formed; [done|apply Utf8.well_formed_nil|done].
Qed.

(** What a browser reads in a response. *)
Lemma marshal_response_reads r rest :
  (Json.depth (Output r) < maxNestingDepth)%nat → Json.stops rest →
  readValue maxNestingDepth (marshal_response r ++ rest) =
    Some (JObj ((bs "output", Json.tree (Output r)) ::
                if decide (Error r = []) then [] else [(bs "error", JStr (Utf8.sanitize (Error r)))]), rest).
Proof.
  intros Hd Hr. apply Json.readValue_reads; [|done]. unfold marshal_response.
  rewrite maxNestingDepth_S in Hd |- *.
  assert (Hd' : (Json.depth (Output r) <= pred maxNestingDepth)%nat) by lia.
  pose proof (Json.reads_marshal _ _ Hd'). pose proof (Json.reads_string (pred maxNestingDepth) (Error r)).
  case_decide.
  - by apply (Json.reads_braces _ [(bs "output", _)] [_]), Forall2_cons.
  - apply (Json.reads_braces _ [(bs "output", _); (bs "error", _)] [_; _]).
    apply Forall2_cons. split; [done|]. by apply Forall2_cons.
Qed.

(** ** The gateway over a worker's dictionary *)

Section Served.
Context (unicode_upper : Z → Z) `{!Sorter Less} (cfg : config) (gcfg : gateway_config).
Context (sys : SystemStats.readings).

Abbreviation keys := (Dict.Dict * LruEvictionPool)%type.

(** What the multi-threaded server answers to one request, when nobody else
    talks to it: a command that does not parse closes the connection. *)
Definition serve_once (w : Core.world) (s : keys) (req : bytes) : (bytes + bytes) * keys :=
  match readCommandConn unicode_upper (inr req) with
  | Ret (inr cmd) =>
      let '(reply, s') := Worker.ExecuteAndResponse cfg w cmd s in (inr reply, s')
  | Ret (inl _) => (inl (bs "EOF"), s)
  | _ => (inl (bs "connection reset by peer"), s)
  end.

Definition served (w : Core.world) (s : keys) : remote :=
  mkRemote None (λ _, None) (λ req, (serve_once w s req).1).

(** A POST to /command, and the keys after it. *)
Definition post (w : Core.world) (s : keys) (body : bytes) : effect ResponseWriter :=
  match route gcfg (served w s) sys (bs "/command") with
  | Some h => h fresh (mkHttp (bs "POST") body true)
  | None => ([], Ret fresh)
  end.

Definition after (w : Core.world) (s : keys) (acts : list action) : keys :=
  foldl (λ s a, match a with Write b => (serve_once w s b).2 | _ => s end) s acts.

(** The page with the output [v] and no error. *)
Definition page (v : value) : ResponseWriter :=
  let w := set_header fresh "Access-Control-Allow-Origin" "*" in
  let w := set_header w "Access-Control-Allow-Methods" "*" in
  let w := set_header w "Access-Control-Allow-Headers" "*" in
  encode_json w (marshal_response (mkResponse v [])).

(** A response with status 200 whose body is one line of JSON, free of markup,
    that reads as an object with the output [j] and nothing else. *)
Definition shows (w : ResponseWriter) (j : json) : Prop :=
  status w = 200 ∧ header w !! bs "Content-Type" = Some (bs "application/json") ∧
  (∃ line, content w = line ++ [LF] ∧ Forall Json.inert line) ∧
  readValue maxNestingDepth (content w) = Some (JObj [(bs "output", j)], [LF]).

Lemma page_shows v : (Json.depth v < maxNestingDepth)%nat → shows (page v) (Json.tree v).
Proof.
  intros Hd. split_and!; [done|done| |].
  - eexists. split; [done|]. unfold marshal_response. rewrite decide_True by done.
    apply Json.braces_inert, Forall_cons_2; [apply Json.field_inert, Json.marshal_inert|constructor].
  - cbn [content page encode_json set_header fresh app].
    rewrite (marshal_response_reads (mkResponse v [])); [|done|by apply Json.stops_delim; set_solver].
    cbn [Output Error]. by rewrite decide_True.
Qed.

Lemma page_shows_str s : Utf8.well_formed s → shows (page (VStr s)) (JStr s).
Proof.
  intros Hs. rewrite <- (Utf8.sanitize_well_formed s Hs) at 2. apply (page_shows (VStr s)). cbn.
  unfold maxNestingDepth. lia.
Qed.

Lemma post_reply w s body cmd p ps reply s' :
  command_of body = Some cmd → Fields cmd = p :: ps → (length (encode_command (p :: ps)) <= 512)%nat →
  Worker.ExecuteAndResponse cfg w (mkCommand (ToUpper unicode_upper p) ps) s = (reply, s') →
  (post w s body).2 =
    (r ← Decode (mk (take 512 reply) (zeros (take 512 reply)));
     Ret (page (match r with inl _ => VStr (take 512 reply) | inr v => v end)))
  ∧ after w s (post w s body).1 = s'.
Proof.
  intros Hb Hf Hl Hx.
  assert (serve_once w s (encode_command (p :: ps)) = (inr reply, s')) as Hs.
  { unfold serve_once, readCommandConn. rewrite take_ge by done.
    rewrite <- (app_nil_r (encode_command (p :: ps))) at 1.
    rewrite ParseCmd_encode_command by (by apply short_encodable). by rewrite Hx. }
  unfold post, route. rewrite decide_True by done. unfold corsMiddleware.
  rewrite decide_False by done. unfold handleCommand. rewrite (command_request _ _ Hb). cbn [Cmd_].
  unfold sendToRedis. cbn [served r_dial]. rewrite (converse_words _ _ p ps) by done.
  cbn [served r_write r_read]. rewrite Hs. cbn [fst snd].
  split; [|unfold after; cbn [foldl app fst snd]; by rewrite Hs].
  destruct (Decode _) as [[err|v]| |]; done.
Qed.

(** C20: through the gateway: while the dictionary is below the key limit and the
    two requests are at most 512 bytes on the wire (what a server reads), after a
    body whose command is a SET of [k] to [v] without a TTL was posted, a body whose
    command is a GET of [k], posted next, is answered with a line of JSON whose
    output is the string [v], for every JSON text of the two bodies and every way
    to write the commands as words. *)
Theorem gateway_set_get w1 w2 s b1 b2 c1 c2 p1 p2 k v :
  command_of b1 = Some c1 → Fields c1 = [p1; k; v] → ToUpper unicode_upper p1 = bs "SET" →
  command_of b2 = Some c2 → Fields c2 = [p2; k] → ToUpper unicode_upper p2 = bs "GET" →
  (length (encode_command [p1; k; v]) <= 512)%nat →
  (length (encode_command [p2; k]) <= 512)%nat →
  Z.of_nat (size (Dict.dictStore s.1)) < MaxKeyNumber cfg →
  let r1 := post w1 s b1 in
  let r2 := post w2 (after w1 s r1.1) b2 in
  ∃ a1 a2, r1.2 = Ret a1 ∧ shows a1 (JStr (bs "OK")) ∧ r2.2 = Ret a2 ∧ shows a2 (JStr v).
Proof.
  intros B1 F1 U1 B2 F2 U2 L1 L2 Hsz. destruct s as [d q]. cbn zeta.
  exists (page (VStr (bs "OK"))), (page (VStr v)).
  assert (Hv : Utf8.well_formed v).
  { apply command_well_formed, Fields_well_formed in B1. rewrite F1, !Forall_cons in B1. tauto. }
  set (st := Dict.SetNew_shared cfg (Core.clock w1 0) (Core.clock w1 1) (Core.dict_order w1)
               (Core.interference w1) d q k (VStr v) (-1)).
  assert (Worker.ExecuteAndResponse cfg w1 (mkCommand (ToUpper unicode_upper p1) [k; v]) (d, q)
          = (Constant.RespOk, st)) as X1.
  { rewrite U1. done. }
  destruct (post_reply w1 (d, q) b1 c1 p1 [k; v] _ _ B1 F1 L1 X1) as [-> ->].
  split_and!; [done|by apply page_shows_str, Utf8.well_formed_plain| |by apply page_shows_str].
  assert (∃ s'', Worker.ExecuteAndResponse cfg w2 (mkCommand (ToUpper unicode_upper p2) [k]) st
          = (Encode (VStr v) false, s'')) as [s'' X2].
  { rewrite U2. unfold st. rewrite Dict.SetNew_shared_alone, Dict.SetNew_below by auto.
    unfold Worker.ExecuteAndResponse. rewrite decide_False, decide_True by done. cbn [Args].
    unfold Worker.cmdGET, Dict.Get. cbn. rewrite lookup_insert_eq. unfold Dict.HasExpired. cbn.
    rewrite !lookup_delete_eq. cbn. rewrite !lookup_delete_eq. by eexists. }
  destruct (post_reply w2 st b2 c2 p2 [k] _ _ B2 F2 L2 X2) as [-> _].
  rewrite Decode_bulk_512.
  - pose proof (bulk_within [p1; k; v] v ltac:(set_solver)). rewrite decide_True by lia. done.
  - apply short_encodable in L1 as [_ L1]. rewrite !Forall_cons in L1. tauto.
Qed.

End Served.

(** C40: the longest bulk reply the gateway can pass on: with a header of [h] bytes
    before its [n] bytes of text, a reply reaches the client exactly when
    [h + n <= 512]; beyond that the decoder slices past its buffer and the
    handler panics. *)
Theorem gateway_bulk_limit gcfg srv cmd p ps v :
  Fields cmd = p :: ps → r_dial srv = None →
  r_write srv (encode_command (p :: ps)) = None →
  r_read srv (encode_command (p :: ps)) = inr (Encode (VStr v) false) →
  small (length v) →
  (sendToRedis gcfg srv cmd).2 =
    if decide (length (len_line (chr 36) (length v)) + length v <= 512)%nat
    then Ret (VStr v, None) else Panic SliceOutOfRange.
Proof.
  intros Hf Hd Hw Hr Hs. unfold sendToRedis. rewrite Hd, (converse_words _ _ p ps) by done.
  rewrite Hw, Hr. cbn [snd]. cbn zeta. rewrite Decode_bulk_512 by done. by case_decide.
Qed.

(** ** Witnesses *)

Definition demo_gateway : gateway_config := load_gateway (λ _, []).
Definition demo_sys : SystemStats.readings :=
  SystemStats.mkReadings (inl (bs "no cpu")) (inl (bs "no memory")).
Definition demo_keys : Dict.Dict * LruEvictionPool := (Dict.CreateDict, ePool_init).

(** [{ "id" : 7, "Cmd": "  set user  alice "}] and [{"cmd":"Get\u0020user"}] *)
Definition demo_set : bytes :=
  bs "{ " ++ appendString (bs "id") ++ bs " : 7, " ++ appendString (bs "Cmd") ++ bs ": "
    ++ appendString (bs "  set user  alice ") ++ bs "}".
Definition demo_get : bytes :=
  bs "{" ++ appendString (bs "cmd") ++ bs ":" ++ [chr 34] ++ bs "Get\u0020user" ++ [chr 34] ++ bs "}".

Lemma gateway_set_get_witness :
  let r1 := post (λ z, z) Config.default demo_gateway demo_sys (Server.demo_world 1) demo_keys demo_set in
  ∃ a, (post (λ z, z) Config.default demo_gateway demo_sys (Server.demo_world 2)
          (after (λ z, z) Config.default (Server.demo_world 1) demo_keys r1.1) demo_get).2 = Ret a ∧
       shows a (JStr (bs "alice")).
Proof.
  destruct (gateway_set_get (λ z, z) Config.default demo_gateway demo_sys (Server.demo_world 1)
           (Server.demo_world 2) demo_keys demo_set demo_get (bs "  set user  alice ") (bs "Get user")
           (bs "set") (bs "Get") (bs "user") (bs "alice")) as (a1 & a2 & _ & _ & H);
    [vm_compute; reflexivity..|apply Nat.leb_le; vm_compute; reflexivity
    |apply Nat.leb_le; vm_compute; reflexivity|vm_compute; reflexivity|].
  exists a2. exact H.
Defined.

Definition big_reply (n : nat) : remote :=
  mkRemote None (λ _, None) (λ _, inr (Encode (VStr (replicate n (chr 65))) false)).

Lemma gateway_bulk_limit_witness :
  (sendToRedis demo_gateway (big_reply 507) (bs "GET k")).2 = Panic SliceOutOfRange.
Proof.
  rewrite (gateway_bulk_limit demo_gateway (big_reply 507) (bs "GET k") (bs "GET") [bs "k"]
             (replicate 507 (chr 65))); try reflexivity.
  rewrite length_replicate. unfold small. lia.
Defined.

(** The connection is closed on every path that opened it. *)
Lemma connection_closed gcfg srv cmd :
  let acts := (sendToRedis gcfg srv cmd).1 in
  match r_dial srv with
  | None => ∃ acts', acts = acts' ++ [Close] ∧ Close ∉ acts'
  | Some _ => Close ∉ acts
  end.
Proof.
  unfold sendToRedis. destruct (r_dial srv); cbn; [set_solver|].
  unfold converse. case_decide; [|destruct (r_write _ _)]; cbn.
  - eexists [_; _]. split; [reflexivity|set_solver].
  - eexists [_; _; _]. split; [reflexivity|set_solver].
  - eexists [_; _; _; _]. split; [reflexivity|set_solver].
Qed.

(** An empty command is only noticed after the connection was made. *)
Lemma empty_command_dials gcfg srv cmd :
  Fields cmd = [] → r_dial srv = None →
  ∃ addr, sendToRedis gcfg srv cmd =
    ([Dial addr 15; SetDeadline 30; Close], Ret (VNil, Some (bs "empty command"))).
Proof.
  intros Hf Hd. unfold sendToRedis, converse. rewrite Hd, Fields_TrimSpace, Hf, decide_True by done.
  by eexists.
Qed.

(** An error reply and the nil reply arrive as ordinary output strings. *)
Lemma errors_are_output :
  let read reply := Decode (mk reply (zeros reply)) in
  read Constant.RespNil = Ret (inr (VStr (bs "Null value"))) ∧
  read (Core.wrong_args "GET") =
    Ret (inr (VStr (bs "(error) ERR wrong number of arguments for 'GET' command"))).
Proof. by split; vm_compute. Qed.

(** /stats never answers with its error page: the call it tests returns no
    error. *)
Lemma stats_no_error gcfg srv sys w r h w' :
  route gcfg srv sys (bs "/stats") = Some h → (h w r).2 = Ret w' → status w = 200 →
  status w' = 200.
Proof.
  unfold route. rewrite decide_False, decide_True by done. intros [= <-].
  unfold corsMiddleware. case_decide; cbn; [by intros [= <-]|].
  rewrite SystemStats.GetAllStats_exact.
  destruct (SystemStats.cpu_percent sys) as [|[|]]; cbn; by intros [= <-].
Qed.

(** What a browser reads at /stats when the processors were measured: the four
    figures, each one measured or [N/A]. *)
Lemma stats_page gcfg srv sys r h :
  route gcfg srv sys (bs "/stats") = Some h → Method r ≠ bs "OPTIONS" →
  SystemStats.cpu_percent sys ≠ inr [] →
  ∃ a, h fresh r = ([], Ret a) ∧ status a = 200 ∧
    readValue maxNestingDepth (content a) = Some (JObj
      [(bs "cpu_percent", JStr (Utf8.sanitize (SystemStats.cpu_figure sys)));
       (bs "memory_total_mb", JStr (Utf8.sanitize (SystemStats.memory_figure sys
          (λ st, SystemStats.Sprintf_2f (SystemStats.mebibytes (SystemStats.Total st))))));
       (bs "memory_used_mb", JStr (Utf8.sanitize (SystemStats.memory_figure sys
          (λ st, SystemStats.Sprintf_2f (SystemStats.mebibytes (SystemStats.Used st))))));
       (bs "memory_used_percent", JStr (Utf8.sanitize (SystemStats.memory_figure sys
          (λ st, SystemStats.Sprintf_2f (SystemStats.UsedPercent st) ++ bs "%"))))], [LF]).
Proof.
  unfold route. rewrite decide_False, decide_True by done. intros [= <-] Hm Hc.
  unfold corsMiddleware. rewrite decide_False by done. unfold handleStats.
  rewrite SystemStats.GetAllStats_exact.
  set (cpu := SystemStats.cpu_figure sys). set (pct := SystemStats.memory_figure sys _).
  set (used := SystemStats.memory_figure sys _). set (total := SystemStats.memory_figure sys _).
  set (m := list_to_map _).
  assert (match SystemStats.cpu_percent sys with
          | inr [] => Panic IndexOutOfRange | _ => Ret (m, None) end = Ret (m, @None bytes)) as ->.
  { destruct (SystemStats.cpu_percent sys) as [|[|]]; done. }
  eexists. split; [reflexivity|]. split; [done|].
  assert (Em : m = list_to_map [(bs "cpu_percent", cpu); (bs "memory_total_mb", total);
                                (bs "memory_used_mb", used); (bs "memory_used_percent", pct)]).
  { unfold m. apply list_to_map_proper; [|solve_Permutation].
    cbn. apply (bool_decide_unpack _). by vm_compute. }
  cbn [content encode_json set_header fresh app]. rewrite Em. apply Json.readValue_reads.
  - rewrite maxNestingDepth_S. apply (Json.reads_marshal_map _
      [(bs "cpu_percent", cpu); (bs "memory_total_mb", total); (bs "memory_used_mb", used);
       (bs "memory_used_percent", pct)]).
    + cbn. apply (bool_decide_unpack _). by vm_compute.
    + repeat constructor; by vm_compute.
  - apply Json.stops_delim. set_solver.
Qed.

End Gateway.
