(* ===== verification/GatewayFacts.v ===== *)
(** * The gateway relays every reply
    (src/cmd/gateway/main.go over src/internal/server and src/internal/core/worker.go)

    What the browser sees for an arbitrary command: the gateway's request is read
    back by the server, executed by a worker, and the worker's reply, of a type of
    the command's signature ([Replies]), is decoded to the value shown. *)

From Stdlib Require Import ZArith Lia Ascii.
From stdpp Require Import base gmap list strings numbers sorting sets fin_maps.
From S2P Require Import Prelude GoStrings Resp GoFloat Config EvictionPool Dict Item Json Commands Worker Server.
From S2P Require Import IOHandlers Replies SystemStats Gateway.

Module GatewayFacts.
Import Resp Slice Strings Config EvictionPool Replies Gateway.

(** The value the decoder makes of a reply. *)
Fixpoint shown (r : reply) : value :=
  match r with
  | Simple s | Replies.Error s | Bulk s => VStr s
  | Integer n => VInt n
  | Nil => VStr (bs "Null value")
  | Array l => VArr (map shown l)
  end.

Lemma Decode_first d v n : DecodeOne d = Ret (DVal v n) → Decode d = Ret (inr v).
Proof. intros E. unfold Decode. by rewrite E. Qed.

Lemma Decode_line c s rest x :
  c = chr 43 ∨ c = chr 45 → CR ∉ s → Decode (mk (c :: s ++ CRLF ++ rest) x) = Ret (inr (VStr s)).
Proof.
  intros Hc Hs. eapply Decode_first. unfold DecodeOne. cbn [DecodeOne_fuel vis].
  unfold len; cbn [vis length]. rewrite (proj2 (Z.eqb_neq _ 0)) by lia. rewrite index_0.
  cbn [mbind outcome_bind]. destruct Hc as [->| ->].
  - rewrite decide_True by done. rewrite readSimpleString_app by done. done.
  - do 2 rewrite decide_False by done. rewrite decide_True by done.
    unfold readError. rewrite readSimpleString_app by done. done.
Qed.

(** The decoder agrees with the protocol on every typed reply that fits the
    buffer; the integers of a reply are 64-bit. *)
Lemma Decode_wire r t x :
  has_type r t → small (length (wire r)) → (∀ n, r = Integer n → is_s64 n) →
  Decode (mk (wire r) x) = Ret (inr (shown r)).
Proof.
  intros Ht Hl Hn. rewrite <- (app_nil_r (wire r)).
  destruct Ht as [s [Hs _]|s [Hs _]|n|s| |l]; cbn [shown].
  - cbn [wire app]. rewrite <- app_assoc. apply Decode_line; auto.
  - cbn [wire app]. rewrite <- app_assoc. apply Decode_line; auto.
  - eapply Decode_first. by apply (DecodeOne_encode (VInt n)), Hn.
  - rewrite wire_bulk. eapply Decode_first. apply (DecodeOne_encode (VStr s)). cbn [encodable].
    cbn [wire length] in Hl. unfold small in *. rewrite !length_app in Hl. lia.
  - reflexivity.
  - rewrite wire_bulks in Hl |- *. eapply Decode_first. rewrite DecodeOne_encode.
    + cbn [norm]. do 3 f_equal. change (Bulk <$> l) with (map Bulk l). by rewrite map_map.
    + cbn [encodable]. unfold small in Hl. cbn [Encode] in Hl. unfold encodeStringArray in Hl.
      rewrite length_app in Hl. clear -Hl.
      assert (Hb : (length l <= length (concat (map encodeString l)))%nat ∧
                   Forall (λ s : bytes, length s <= length (concat (map encodeString l)))%nat l).
      { clear Hl. induction l as [|s l [IH1 IH2]]; cbn [map concat]; [done|]. unfold encodeString at 1 3.
        rewrite !length_app. pose proof (len_line_length (chr 36) (length s)). split; [cbn [length]; lia|].
        constructor; [lia|]. eapply Forall_impl; [exact IH2|]. cbn beta. intros. lia. }
      destruct Hb as [H1 H2]. split; [unfold small; lia|].
      eapply Forall_impl; [exact H2|]. cbn beta. unfold small. intros. lia.
Qed.

Lemma worker_no_integer name : TInteger ∉ worker_signature name.
Proof.
  unfold worker_signature. case_decide as Hc; [|by apply (bool_decide_unpack _)].
  rewrite !elem_of_cons in Hc. destruct Hc as [->|[->|[->|Hc]]];
    [apply (bool_decide_unpack _); vm_compute; exact I..|by apply not_elem_of_nil in Hc].
Qed.

Lemma shown_depth r t : has_type r t → (Json.depth (shown r) <= 1)%nat.
Proof.
  destruct 1 as [| | | | |l]; cbn; try lia. apply le_n_S.
  induction l as [|x l IH]; cbn; [done|]. exact IH.
Qed.

(** C12: the gateway relays: for every body whose JSON gives a command line of at
    most 512 bytes on the wire, whatever it is, the worker's answer to it is one
    reply of the types of the command's signature, the server's keys change as the
    worker's do, and when the reply is at most 512 bytes the browser gets a line of
    JSON, free of markup, that reads as an object with exactly the value of that
    reply (its text, or the fixed word for nil) as output and no error. *)
Theorem gateway_relays unicode_upper `{!Sorter Less} cfg gcfg sys w s body cmd p ps :
  strings s.1 → command_of body = Some cmd → Fields cmd = p :: ps →
  (length (encode_command (p :: ps)) <= 512)%nat →
  let c := mkCommand (ToUpper unicode_upper p) ps in
  let answer := Worker.ExecuteAndResponse cfg w c s in
  let posted := post unicode_upper cfg gcfg sys w s body in
  ∃ r t, answer.1 = wire r ∧ has_type r t ∧ t ∈ worker_signature (Cmd c) ∧
    after unicode_upper cfg w s posted.1 = answer.2 ∧ strings answer.2.1 ∧
    ((length (wire r) <= 512)%nat → ∃ a, posted.2 = Ret a ∧ shows a (Json.tree (shown r))).
Proof.
  intros Hs Hb Hf Hl c answer posted. destruct s as [d q]. cbn [fst] in Hs.
  destruct (worker_typed cfg w c d q Hs) as [Hs' (r & t & Er & Ht & Hin)].
  fold answer in Hs', Er. exists r, t.
  destruct (post_reply unicode_upper cfg gcfg sys w (d, q) body cmd p ps answer.1 answer.2 Hb Hf Hl)
    as [Hp Ha]; [apply surjective_pairing|].
  split_and!; [done..|]. intros Hfit. exists (page (shown r)). split; cycle 1.
  { apply page_shows. pose proof (shown_depth r t Ht). unfold Json.maxNestingDepth. lia. }
  unfold posted. rewrite Hp, Er, take_ge by done. rewrite (Decode_wire r t); [done|done|unfold small; lia|].
  intros n ->. exfalso. inversion Ht; subst. by apply worker_no_integer in Hin.
Qed.

(** ** Witness: a command the worker does not know *)

Lemma gateway_relays_witness :
  ∃ a, (post (λ z, z) Config.default demo_gateway demo_sys (Server.demo_world 1) demo_keys
          (request_body (bs " zadd z 1 a"))).2 = Ret a ∧ shows a (Json.JStr (bs "CMD NOT FOUND")).
Proof.
  destruct (gateway_relays (λ z, z) Config.default demo_gateway demo_sys (Server.demo_world 1) demo_keys
              (request_body (bs " zadd z 1 a")) (bs " zadd z 1 a") (bs "zadd") [bs "z"; bs "1"; bs "a"])
    as (r & t & E & Ht & _ & _ & _ & H).
  - exact strings_new.
  - vm_compute. reflexivity.
  - vm_compute. reflexivity.
  - apply Nat.leb_le. vm_compute. reflexivity.
  - destruct Ht; try discriminate E; cbn [shown] in H.
    injection E as E. apply (app_inv_tail CRLF (bs "CMD NOT FOUND") s) in E. subst s.
    apply H. apply Nat.leb_le. vm_compute. reflexivity.
Defined.

End GatewayFacts.
