(* ===== verification/ThreadPool.v ===== *)
(** * The demonstration servers (src/ThreadPool/main.go, src/TcpServer/main.go)

    A pool of goroutines that take connections from one unbuffered channel: a
    send and a receive happen together, so [main] waits in [AddJob] until a
    worker is free.  The other server starts a goroutine per connection and
    exits when one of them fails to read. *)

From Stdlib Require Import ZArith Lia Ascii.
From stdpp Require Import base list strings numbers sorting sets.
From S2P Require Import Prelude GoStrings Resp.

(** What is done on a connection. *)
Inductive conn_action := CRead (n : Z) | CWrite (b : bytes) | CClose.

Module ThreadPool.
Import Resp.

(** ** Data *)

Record Job := mkJob { conn : Z }.

(** A worker, and the job its goroutine is handling. *)
Record Worker := mkWorker { id : Z; handling : option Job }.

Record Pool := mkPool {
  workers : list Worker;
  waiting : option Job;             (** the send [main] is blocked in *)
  accepted : list Z;                (** connections, in the order of [Accept] *)
  started : list Z;                 (** connections, in the order workers took them *)
  finished : list Z;
  output : list (Z * conn_action)
}.

Definition NewWorker (id : Z) : Worker := mkWorker id None.

(** The nil slots of [make([]*Worker, numOfWorker)]; a negative length
    panics. *)
Definition NewPool (numOfWorker : Z) : outcome (list (option Worker)) :=
  if numOfWorker <? 0 then Panic MakeSliceLen
  else Ret (replicate (Z.to_nat numOfWorker) None).

(** [Start] fills slot [i] with worker [i] and starts its goroutine. *)
Definition Start (slots : list (option Worker)) : Pool :=
  mkPool (imap (λ i _, NewWorker (Z.of_nat i)) slots) None [] [] [] [].

(** [handleConnection]: the result of the read is ignored, the deferred
    [Close] comes last. *)
Definition handleConnection (c : Z) : list (Z * conn_action) :=
  [(c, CRead 1000);
   (c, CWrite (bs "HTTP/1.1 200 OK" ++ CRLF ++ CRLF ++ bs "Engineer Pro" ++ CRLF));
   (c, CClose)].

(** ** Steps *)

Definition set_worker (p : Pool) (i : nat) (h : option Job) : list Worker :=
  alter (λ w, mkWorker (id w) h) i (workers p).

(** [main]: accept a connection and call [AddJob]. *)
Definition AddJob (c : Z) (p : Pool) : option Pool :=
  match waiting p with
  | Some _ => None
  | None => Some (mkPool (workers p) (Some (mkJob c)) (accepted p ++ [c]) (started p)
                         (finished p) (output p))
  end.

(** An idle worker takes the job from the channel. *)
Definition receive (i : nat) (p : Pool) : option Pool :=
  match waiting p, workers p !! i with
  | Some j, Some w =>
      match handling w with
      | None => Some (mkPool (set_worker p i (Some j)) None (accepted p)
                             (started p ++ [conn j]) (finished p) (output p))
      | Some _ => None
      end
  | _, _ => None
  end.

(** A worker handles its job and goes back to the channel. *)
Definition work (i : nat) (p : Pool) : option Pool :=
  match workers p !! i with
  | Some w =>
      match handling w with
      | Some j => Some (mkPool (set_worker p i None) (waiting p) (accepted p) (started p)
                               (finished p ++ [conn j]) (output p ++ handleConnection (conn j)))
      | None => None
      end
  | None => None
  end.

(** [main] up to its loop; [listen] is the answer of [net.Listen].  An error,
    here or of [Accept], is the message of a [log.Fatal]. *)
Definition pool_main (listen : option bytes) : outcome (bytes + Pool) :=
  match listen with
  | Some err => Ret (inl err)
  | None => slots ← NewPool 2; Ret (inr (Start slots))
  end.

(** An iteration of the loop of [main]. *)
Definition pool_accept (acc : bytes + Z) (p : Pool) : option (bytes + Pool) :=
  match acc with
  | inl err => Some (inl err)
  | inr c => inr <$> AddJob c p
  end.

Inductive step (p : Pool) : Pool → Prop :=
  | step_add c p' : AddJob c p = Some p' → step p p'
  | step_receive i p' : receive i p = Some p' → step p p'
  | step_work i p' : work i p = Some p' → step p p'.

Inductive reachable (n : Z) : Pool → Prop :=
  | reachable_start slots : NewPool n = Ret slots → reachable n (Start slots)
  | reachable_step p p' : reachable n p → step p p' → reachable n p'.

(** The program runs such a pool. *)
Lemma main_reachable p : pool_main None = Ret (inr p) → reachable 2 p.
Proof. intros [= <-]. by apply (reachable_start 2 [None; None]). Qed.

Lemma accept_reachable acc p q : reachable 2 p → pool_accept acc p = Some (inr q) → reachable 2 q.
Proof.
  intros Hp. destruct acc as [|c]; [done|]. cbn. destruct (AddJob c p) as [p'|] eqn:E; [|done].
  intros [= <-]. eapply reachable_step; [done|]. by eapply step_add.
Qed.

(** ** Invariant *)

Definition busy (ws : list Worker) : list Z := omap (λ w, conn <$> handling w) ws.
Definition pending (p : Pool) : list Z :=
  match waiting p with Some j => [conn j] | None => [] end.

(** Connections are taken in the order they were accepted, each by one worker,
    and each finished one was answered once. *)
Record inv (n : Z) (p : Pool) : Prop := {
  inv_order : accepted p = started p ++ pending p;
  inv_started : started p ≡ₚ finished p ++ busy (workers p);
  inv_output : output p = finished p ≫= handleConnection;
  inv_workers : length (workers p) = Z.to_nat n
}.

Lemma busy_Start slots : busy (workers (Start slots)) = [].
Proof.
  cbn. assert (Forall (λ w, handling w = None) (imap (λ i _, NewWorker (Z.of_nat i)) slots)) as H.
  { apply Forall_lookup. intros i w. rewrite list_lookup_imap. intros (? & _ & ->)%fmap_Some. done. }
  induction H as [|w ws Hw _ IH]; unfold busy in *; cbn; [done|]. by rewrite Hw.
Qed.

Lemma length_busy ws : (length (busy ws) <= length ws)%nat.
Proof.
  induction ws as [|w ws IH]; unfold busy in *; cbn; [done|]. destruct (handling w); cbn; lia.
Qed.

Lemma busy_alter ws i w h :
  ws !! i = Some w →
  ∃ l r, busy ws = l ++ option_list (conn <$> handling w) ++ r
       ∧ busy (alter (λ w, mkWorker (id w) h) i ws) = l ++ option_list (conn <$> h) ++ r.
Proof.
  intros Hw. apply list_elem_of_split_length in Hw as (l & r & -> & ->).
  exists (busy l), (busy r). unfold busy.
  rewrite alter_app_r_alt, Nat.sub_diag by done. cbn [alter list_alter].
  rewrite !omap_app. cbn. by destruct (handling w), h.
Qed.

Lemma inv_step n p p' : inv n p → step p p' → inv n p'.
Proof.
  intros [Ho Hs Hout Hw] Hst. destruct Hst as [c p' E|i p' E|i p' E].
  - unfold AddJob in E. destruct (waiting p) eqn:Ew; simplify_eq.
    split; cbn; try done. unfold pending in *. rewrite Ew, app_nil_r in Ho. by rewrite Ho.
  - unfold receive in E. destruct (waiting p) as [j|] eqn:Ew; [|done].
    destruct (workers p !! i) as [w|] eqn:Ei; [|done].
    destruct (handling w) eqn:Eh; simplify_eq.
    destruct (busy_alter (workers p) i w (Some j) Ei) as (l & r & E1 & E2).
    rewrite Eh in E1. cbn [fmap option_fmap option_map option_list app] in E1, E2.
    split; cbn [workers waiting accepted started finished output];
      unfold pending, set_worker in *; cbn [waiting workers] in *.
    + rewrite Ew in Ho. by rewrite app_nil_r.
    + rewrite E2, Hs, E1. solve_Permutation.
    + done.
    + by rewrite length_alter.
  - unfold work in E. destruct (workers p !! i) as [w|] eqn:Ei; [|done].
    destruct (handling w) as [j|] eqn:Eh; simplify_eq.
    destruct (busy_alter (workers p) i w None Ei) as (l & r & E1 & E2).
    rewrite Eh in E1. cbn [fmap option_fmap option_map option_list app] in E1, E2.
    split; cbn [workers waiting accepted started finished output];
      unfold pending, set_worker in *; cbn [waiting workers] in *.
    + done.
    + rewrite E2, Hs, E1. solve_Permutation.
    + rewrite bind_app, Hout. by rewrite bind_singleton.
    + by rewrite length_alter.
Qed.

Lemma inv_reachable n p : reachable n p → inv n p.
Proof.
  induction 1 as [slots E|p p' _ IH Hst]; [|by eapply inv_step].
  unfold NewPool in E. case_match; simplify_eq. split; try done.
  - by rewrite busy_Start.
  - cbn. by rewrite length_imap, length_replicate.
Qed.

(** The pool serves in order and loses nothing: the connections taken by
    workers are those accepted, in order, up to the one [main] still offers;
    each of them is finished or being handled; never more at once than there
    are workers; and the output is one full response per finished connection. *)
Lemma pool_conserves n p :
  reachable n p →
  accepted p = started p ++ pending p
  ∧ started p ≡ₚ finished p ++ busy (workers p)
  ∧ Z.of_nat (length (busy (workers p))) <= Z.max 0 n
  ∧ output p = finished p ≫= handleConnection.
Proof.
  intros [Ho Hs Hout Hw]%inv_reachable. split_and!; try done.
  pose proof (length_busy (workers p)). lia.
Qed.

(** ** Progress *)

(** Steps of the workers alone. *)
Inductive drains (p : Pool) : Pool → Prop :=
  | drains_done : drains p p
  | drains_receive i q r : receive i p = Some q → drains q r → drains p r
  | drains_work i q r : work i p = Some q → drains q r → drains p r.

(** Work to do: an offered connection counts twice. *)
Definition load (p : Pool) : nat := length (busy (workers p)) + 2 * length (pending p).

Lemma work_some p i w j :
  workers p !! i = Some w → handling w = Some j →
  ∃ q, work i p = Some q ∧ accepted q = accepted p ∧ (load q < load p)%nat.
Proof.
  intros Hi Hj. unfold work. rewrite Hi, Hj. eexists. split; [done|]. split; [done|].
  destruct (busy_alter (workers p) i w None Hi) as (l & r & E1 & E2). rewrite Hj in E1.
  unfold load, set_worker, pending. cbn [workers waiting]. rewrite E1, E2, !length_app.
  destruct (waiting p); cbn; lia.
Qed.

Lemma receive_some p i w j :
  workers p !! i = Some w → handling w = None → waiting p = Some j →
  ∃ q, receive i p = Some q ∧ accepted q = accepted p ∧ (load q < load p)%nat.
Proof.
  intros Hi Hw Hj. unfold receive. rewrite Hi, Hj, Hw. eexists. split; [done|]. split; [done|].
  destruct (busy_alter (workers p) i w (Some j) Hi) as (l & r & E1 & E2). rewrite Hw in E1.
  unfold load, set_worker, pending. cbn [workers waiting]. rewrite E1, E2, Hj, !length_app.
  destruct (waiting p); cbn; lia.
Qed.

Lemma busy_some ws : busy ws = [] ∨ ∃ i w j, ws !! i = Some w ∧ handling w = Some j.
Proof.
  induction ws as [|w ws IH]; [by left|]. destruct (handling w) as [j|] eqn:E.
  - right. by exists 0%nat, w, j.
  - destruct IH as [IH|(i & w' & j & Hi & Hj)]; [left|right; by exists (S i), w', j].
    unfold busy. cbn. by rewrite E.
Qed.

Lemma pool_drained n p :
  0 < n → inv n p → ∃ q, drains p q ∧ accepted q = accepted p ∧ load q = 0%nat ∧ inv n q.
Proof.
  intros Hn. remember (load p) as m eqn:Hm. revert p Hm.
  induction (Nat.lt_wf_0 m) as [m _ IH]. intros p -> Hp.
  destruct (busy_some (workers p)) as [Hb|(i & w & j & Hi & Hj)].
  - destruct (waiting p) as [j|] eqn:Ew.
    + pose proof (inv_workers n p Hp) as Hl.
      destruct (workers p) as [|w ws] eqn:Ews; [cbn in Hl; lia|].
      assert (handling w = None) as Hh
        by (unfold busy in Hb; cbn in Hb; by destruct (handling w)).
      destruct (receive_some p 0 w j) as (q & Hq & Ha & Hlt); [by rewrite Ews|done..|].
      destruct (IH (load q) Hlt q eq_refl) as (r & Hr & Har & ? & ?).
      { eapply inv_step; [done|]. by eapply step_receive. }
      exists r. split_and!; [by eapply drains_receive|congruence|done..].
    + exists p. split_and!; [constructor|done| |done]. unfold load, pending. by rewrite Hb, Ew.
  - destruct (work_some p i w j Hi Hj) as (q & Hq & Ha & Hlt).
    destruct (IH (load q) Hlt q eq_refl) as (r & Hr & Har & ? & ?).
    { eapply inv_step; [done|]. by eapply step_work. }
    exists r. split_and!; [by eapply drains_work|congruence|done..].
Qed.

(** With at least one worker every accepted connection can be finished by
    steps of the workers alone: nothing has to happen outside the pool. *)
Lemma pool_drains n p :
  0 < n → reachable n p →
  ∃ q, drains p q ∧ accepted q = accepted p ∧ finished q ≡ₚ accepted p.
Proof.
  intros Hn Hp%inv_reachable. destruct (pool_drained n p Hn Hp) as (q & Hq & Ha & Hl & [Ho Hs _ _]).
  exists q. split_and!; [done|done|]. rewrite <- Ha, Ho, Hs.
  unfold load in Hl. destruct (pending q), (busy (workers q)); cbn in Hl; try lia.
  by rewrite !app_nil_r.
Qed.

Definition demo_pool : Pool :=
  mkPool [NewWorker 0; NewWorker 1] (Some (mkJob 7)) [7] [] [] [].

Lemma demo_reachable : reachable 2 demo_pool.
Proof.
  eapply reachable_step; [by apply (reachable_start 2 [None; None])|]. by apply (step_add _ 7).
Qed.

Lemma pool_conserves_witness :
  accepted demo_pool = started demo_pool ++ pending demo_pool.
Proof. apply (pool_conserves 2 demo_pool demo_reachable). Defined.

Lemma pool_drains_witness :
  ∃ q, drains demo_pool q ∧ accepted q = [7] ∧ finished q ≡ₚ [7].
Proof. apply (pool_drains 2 demo_pool); [lia|apply demo_reachable]. Defined.

End ThreadPool.

Module TcpServer.
Import Resp.

(** [handleConnection]: a read error ends the process; otherwise the reply is
    written and the connection closed. *)
Definition tcp_handleConnection (c : Z) (read_err : option bytes) :
    list (Z * conn_action) * bool :=
  match read_err with
  | Some _ => ([(c, CRead 1000)], false)
  | None =>
      ([(c, CRead 1000);
        (c, CWrite (bs "HTTP/1.1 200 OK" ++ CRLF ++ CRLF ++ bs "Hello, world" ++ CRLF));
        (c, CClose)], true)
  end.

(** The process: the connections whose goroutines are still to run, and what was
    done so far; or the message it ended with. *)
Inductive tcp :=
  | Listening (open : list Z) (out : list (Z * conn_action))
  | Ended (err : bytes) (open : list Z) (out : list (Z * conn_action)).

Definition tcp_main (listen : option bytes) : tcp :=
  match listen with Some err => Ended err [] [] | None => Listening [] [] end.

(** The loop of [main] and the goroutines it starts. *)
Inductive tcp_step : tcp → tcp → Prop :=
  | tcp_accept open out c : tcp_step (Listening open out) (Listening (open ++ [c]) out)
  | tcp_accept_fails open out err : tcp_step (Listening open out) (Ended err open out)
  | tcp_handle open out i c acts :
      open !! i = Some c → tcp_handleConnection c None = (acts, true) →
      tcp_step (Listening open out) (Listening (delete i open) (out ++ acts))
  | tcp_handle_fails open out i c err acts :
      open !! i = Some c → tcp_handleConnection c (Some err) = (acts, false) →
      tcp_step (Listening open out) (Ended err open (out ++ acts)).

(** The connections a reply was written to. *)
Definition answered (out : list (Z * conn_action)) : list Z :=
  omap (λ x, match x.2 with CWrite _ => Some x.1 | _ => None end) out.

Definition open_of (t : tcp) : list Z :=
  match t with Listening open _ => open | Ended _ open _ => open end.
Definition out_of (t : tcp) : list (Z * conn_action) :=
  match t with Listening _ out => out | Ended _ _ out => out end.

(** Accepted, and then answered or still open: a step loses no connection. *)
Lemma tcp_conserves t t' :
  tcp_step t t' →
  ∃ new, open_of t' ++ answered (out_of t') ≡ₚ open_of t ++ answered (out_of t) ++ new ∧
         (length new <= 1)%nat.
Proof.
  intros H. destruct H as [open out c|open out err|open out i c acts Hi E|open out i c err acts Hi E];
    cbn [open_of out_of].
  - exists [c]. split; [|done]. rewrite <- !app_assoc. by apply Permutation_app_head, Permutation_app_comm.
  - exists []. rewrite !app_nil_r. split; [done|cbn; lia].
  - exists []. split; [|cbn; lia]. injection E as <-. unfold answered. rewrite omap_app, app_nil_r. cbn.
    rewrite (app_assoc _ _ [c]), <- Permutation_cons_append, app_comm_cons. apply Permutation_app_tail.
    symmetry. by apply delete_Permutation.
  - exists []. split; [|cbn; lia]. injection E as <-. unfold answered. rewrite omap_app. cbn.
    by rewrite !app_nil_r.
Qed.

(** One client can stop the server for all: when it closes a connection before
    sending anything the process ends, and no connection that is open then is
    ever answered. *)
Lemma tcp_client_stops_all open out c :
  c ∈ open → ∃ t, tcp_step (Listening open out) t ∧ answered (out_of t) = answered out ∧
                  ∀ t', ~ tcp_step t t'.
Proof.
  intros [i Hi]%list_elem_of_lookup_1. eexists. split; [by eapply (tcp_handle_fails open out i c (bs "EOF"))|].
  split; [|by inversion 1]. cbn [out_of]. unfold answered. rewrite omap_app. cbn. apply app_nil_r.
Qed.

End TcpServer.
